(* ===== verification/_CoqProject ===== *)
-Q . S2P
Prelude.v
Text.v
Endpoint.v
UniqueFd.v
ByteQueue.v
Backpressure.v
DelayLine.v
TokenBucket.v
FaultRng.v
FloatText.v
FloatRounding.v
CommandLine.v
FaultPlan.v
ConnectionState.v
TimerQueue.v
SocketIo.v
Relay.v
RelayDirection.v
Logger.v
RelayReport.v
RelayFacts.v
RelayQueries.v
RelayRun.v
RelaySpec.v
RelayDelivery.v
ProxyConfig.v
Proxy.v
ProxySetup.v
ProxyLoop.v
ProxyWalk.v
ProxyInv.v
ProxySetupSpec.v
ProxyFacts.v
ProxyEvents.v
ProxyAccept.v
ProxyRun.v
ProxyCli.v
ProxyTrace.v
ProxyScript.v
ProxySpec.v
ProxyConfined.v
ProxyIsolation.v
PipeService.v
PipeRefinement.v
ProxyCliSpec.v
TestServer.v
TestServerSpec.v
TestServerMain.v
TestServerMainSpec.v
Mt19937.v
TestClient.v
TestClientSpec.v
TestClientBulk.v
TestClientMain.v
TestClientMainSpec.v
HelpSpec.v
