(* ===== verification/Prelude.v ===== *)
(** * NetFault Lab: a verification development

    NetFault Lab is a TCP proxy for testing: it listens on one endpoint,
    connects each client to one upstream endpoint, relays the bytes both ways
    through bounded queues, and on request injects faults (latency, jitter, rate
    limits, resets, half-closes) that are reproducible from a seed. Two test
    tools come with it, a controlled server and a deterministic client. This
    development models the three programs and proves what makes them correct.

    ** The program and its model

    The files follow the code. The files listed here hold the definitions of the
    components (small components hold their theorems too); the other files hold
    what is proved of them, see below.

    - Prelude.v: results of C++ code ([outcome]: a value, an exception, undefined
      behaviour, fuel used up), the state monad [M] and its logic [runs], 64-bit
      words, lists, labelled executions.
    - Text.v, FloatText.v, FloatRounding.v: what the programs use of the string
      library, std::from_chars for integers and doubles, rounding of doubles.
    - Endpoint.v (endpoint.hpp/.cpp), UniqueFd.v (unique_fd.hpp), ByteQueue.v
      (byte_queue.hpp), Backpressure.v (backpressure.hpp), DelayLine.v
      (delay_line.hpp), TokenBucket.v (token_bucket.hpp), FaultRng.v
      (fault_rng.hpp), FaultPlan.v (fault_plan.hpp), ConnectionState.v
      (connection_state.hpp), TimerQueue.v (timer_queue.hpp), SocketIo.v
      (socket_io.hpp/.cpp), Logger.v (logger.hpp/.cpp): the building blocks, one
      file each, one definition per member function with its name.
    - Relay.v (relay.hpp/.cpp): the forwarding engine of one connection.
      [handle_readable] reads one side into a queue, [flush] writes the other
      side from it subject to the faults, [propagate_half_closes],
      [desired_interest] and [next_wake] tell the event loop what to do next.
      RelayReport.v: [close_detail] and [metrics_json].
    - ProxyConfig.v, Proxy.v, ProxySetup.v, ProxyLoop.v (proxy.hpp/.cpp): the
      checks of the configuration; [ProxyRuntime], the state of the event loop,
      and its handlers; the constructor; accepting, timers, metrics export, the
      loop [run] and the shutdown.
    - CommandLine.v, ProxyCli.v (src/proxy/main.cpp): arguments, defaults, [main].
    - TestServer.v, TestServerMain.v (src/server/main.cpp) and Mt19937.v,
      TestClient.v, TestClientMain.v (src/client/main.cpp): the test tools.

    How the parts interact: [main] parses the arguments into a [ProxyConfig],
    checks it, constructs the [ProxyRuntime] and runs the loop. The loop waits
    with epoll, and dispatches each event by its token: the listener accepts
    clients and creates a [Relay] for each; a socket event runs
    [handle_readable] and then [pump_connection], which flushes both directions,
    propagates half-closes, recomputes the epoll interests and schedules a wake;
    the timer descriptor, armed for the earliest deadline of the timer queue,
    runs the pumps, connect timeouts and idle timeouts that are due; a signal
    exports the metrics or stops the loop. A relay reports state changes to an
    observer that writes them to the log.

    ** Conventions

    Integers are [Z]; the operations of 64-bit words reduce modulo 2^64 where
    the code's do, and signed overflow is [Undefined]. Times and durations of
    the code are nanosecond or millisecond counts. Calls that leave the
    repository are the methods of classes over an abstract state, with their
    documented behaviour as a class of laws: [SocketIo] for the relay
    ([SocketKernel] below it: send, recv, shutdown), [Kernel] for the loop
    (epoll, timerfd, accept, files, clocks), [Output] for standard output,
    [Inet] for inet_pton, [Libc] for strerror, [UnorderedMap] for the order in
    which an unordered_map is iterated, [WorkerKernel], [ClientKernel] and
    [AcceptKernel] for the tools. Each class has a concrete instance that
    satisfies its laws, and the witnesses run the code on it. The laws leave
    every result open, errors and partial transfers included; they say that
    send and recv report at most what they were given, that the steady clock
    does not go back, and that only finitely many calls are interrupted.

    Kept for the specification only: [w_wire] of a relay's world and
    [conn_traffic] of a connection (what crossed its sockets, with times),
    [pw_trace] (the system calls with their replies), [pw_log] (the logged
    events), [pw_history] (what happened to the connections), [sw_wire] and
    [mw_log] of the tools.

    ** Fuel and rounds

    Endless loops (the proxy's loop, the accept loop, the server's echo) run for
    a number of rounds that the theorems quantify over. Every other loop has
    fuel computed from the state, and the theorems show that it is never used
    up: one more than the interruptions to come for a retried call; the
    high-water mark for the reads and the queue's size for the writes of a
    relay, which grow or shrink by a byte at least; the number of segments for
    the delay line; [pending], which bounds the connections and interruptions to
    come, for accepting, draining and retried writes; the size of the heap for
    the timers that are due, since a handler schedules only later ones; the
    length of a document for its file; the size of the table for the shutdown;
    the payload and the interruptions for the tools' send and receive loops. The
    two threads of a bulk transfer have no fuel: a schedule says whose turn it
    is, and fair schedules are shown to end.

    Bounds on the parameters: [accept_limit] (2^62 connections, so that tokens
    do not wrap), durations of at most 2^62 ms in the command line (beyond, the
    code overflows, see the last property), a million samples for the
    percentiles and a clock moving by less than 2^52 ns for the sum of the
    client's samples.

    ** What is shown

    - ProxySpec.v: the event loop as a whole, for every accepted configuration,
      kernel behaviour and number of rounds. [proxy_total]: no undefined
      behaviour, no endless handler, exceptions only when epoll refuses.
      [proxy_stream_integrity]: the bytes sent are the bytes received, in order,
      less at most a high-water mark still queued. [proxy_no_stall]: waiting
      bytes are covered by an epoll registration or an armed timer.
      [proxy_accounting], [proxy_shutdown]: every connection counted once, every
      descriptor closed once. [proxy_timeouts], [proxy_confined],
      [metrics_file_atomic]. ProxyIsolation.v: an event that is still in the
      array for a connection that has ended does nothing, and no event changes
      a connection it is not for; ProxyConfined.v shows of every handler which
      connections it may change. The invariant behind them is in ProxyInv.v and kept
      by the operations in ProxyFacts.v, ProxyEvents.v, ProxyAccept.v and
      ProxyRun.v; ProxyWalk.v follows the structure of the loop once for any
      predicate that its steps respect, among them the system-call traces of
      ProxyTrace.v.
    - PipeService.v is the abstract specification of the forwarding service, a
      table of pairs of bounded byte pipes; PipeRefinement.v proves that the
      event loop implements it ([proxy_refines_service]), so that what is shown
      of the service holds of every connection of every run, closed ones too.
    - ProxySetupSpec.v, ProxyCliSpec.v: all-or-nothing set-up; typing and round
      trip of the command line; [main] is total, and confined to loopback
      without the unsafe flags; the argument lists it should have refused.
      HelpSpec.v: the three help texts name exactly the options and modes that
      are accepted, and state the defaults of the code.
    - RelaySpec.v, over any sequence of calls on a relay: total correctness,
      stream integrity, no loss on a graceful close, order of half-closes, rate
      and delay bounds, no stall, the injected faults; and one stall that an
      injected half-close does cause. RelayDelivery.v: the wake-ups a relay asks
      for are enough to deliver everything to a destination that takes bytes,
      whatever else the relay does, under any latency, jitter and rate.
      RelayDirection.v proves the properties of
      one direction as a labelled transition system, RelayFacts.v that every
      method performs its steps, RelayQueries.v that the queries only refill.
    - The building blocks: the ring buffer refines a FIFO, the token bucket
      conforms to its rate, the delay line keeps the order, the timer queue
      delivers in order, parsing accepts exactly the documented texts, the log
      cannot be broken out of, [UniqueFd] neither leaks nor closes twice.
    - The tools: what every mode of the server sends; its threads are joined on
      every way out; a bulk transfer that succeeds echoed the payload, under
      every interleaving of its two threads, and ends under every fair one; the
      exchanges of a benchmark connection; exact percentiles in spite of
      doubles; the exit status.

    ** Not modelled

    The lines the tools print while they work; the tests, the site and the
    scripts. When an exception leaves the running event loop the destructors
    that follow are not traced. The threads of a tool share nothing but what is
    said: the workers of the server and of the client have a connection each.
    Scheduling, blocking and memory are the platform's: an allocation does not
    fail, and a blocking call returns.

    Planned next: delivery by the event loop as a whole, under a kernel that
    reports every readiness (RelayDelivery.v shows it of a relay that is pumped
    when it asks); the destructors after an exception of the loop. *)

From Stdlib Require Import ZArith Lia.
From stdpp Require Import base numbers list option strings pretty.

#[global] Set Default Proof Using "Type".

(** ** Results of C++ code

    A C++ function may return, throw, run into undefined behaviour, or (in a
    loop modelled with fuel) not have finished when the fuel is used up. *)
Inductive exn :=
  | InvalidArgument (what : string)
  | OutOfRange (what : string)
  | LengthError (what : string)
  | RuntimeError (what : string).

Inductive outcome (A : Type) :=
  | Ok (a : A)
  | Throw (e : exn)
  | Undefined
  | OutOfFuel.
Arguments Ok {A} a.
Arguments Throw {A} e.
Arguments Undefined {A}.
Arguments OutOfFuel {A}.

#[global] Instance exn_eq_dec : EqDecision exn.
Proof. solve_decision. Defined.

#[global] Instance outcome_ret : MRet outcome := λ A a, Ok a.

#[global] Instance outcome_bind : MBind outcome := λ A B f o,
  match o with
  | Ok a => f a
  | Throw e => Throw e
  | Undefined => Undefined
  | OutOfFuel => OutOfFuel
  end.

#[global] Instance outcome_fmap : FMap outcome := λ A B f o,
  match o with
  | Ok a => Ok (f a)
  | Throw e => Throw e
  | Undefined => Undefined
  | OutOfFuel => OutOfFuel
  end.

(** [succeeds o Q]: the code returns a value and the value satisfies [Q]. It
    excludes exceptions, undefined behaviour and lack of fuel. *)
Definition succeeds {A} (o : outcome A) (Q : A → Prop) : Prop :=
  match o with Ok a => Q a | _ => False end.

(** [guard_throw b e]: the [if (b) throw e;] of the sources. *)
Definition throw_if (b : bool) (e : exn) : outcome unit :=
  if b then Throw e else Ok tt.

Section outcome_laws.
Context {A B : Type}.
Implicit Types (o : outcome A) (f : A → outcome B).

Lemma succeeds_inv o (Q : A → Prop) :
  succeeds o Q → ∃ a, o = Ok a ∧ Q a.
Proof. destruct o; simpl; [eauto|tauto..]. Qed.

Lemma succeeds_mono o (P Q : A → Prop) :
  succeeds o P → (∀ a, P a → Q a) → succeeds o Q.
Proof. destruct o; simpl; auto. Qed.

Lemma succeeds_bind o f (P : A → Prop) (Q : B → Prop) :
  succeeds o P → (∀ a, P a → succeeds (f a) Q) → succeeds (o ≫= f) Q.
Proof. destruct o; simpl; [auto|tauto..]. Qed.

Lemma succeeds_throw_if b e (k : unit → outcome B) (Q : B → Prop) :
  b = false → succeeds (k tt) Q → succeeds (throw_if b e ≫= k) Q.
Proof. by intros ->. Qed.

Lemma bind_Ok o f b : o ≫= f = Ok b → ∃ a, o = Ok a ∧ f a = Ok b.
Proof. destruct o; simpl; intros; [eauto|discriminate..]. Qed.
End outcome_laws.

Lemma throw_if_Ok {A} b e (k : unit → outcome A) a :
  throw_if b e ≫= k = Ok a ↔ b = false ∧ k tt = Ok a.
Proof. destruct b; cbn; [|tauto]. split; [done|by intros [? _]]. Qed.

(** The code returns or throws. *)
Definition defined {A} (o : outcome A) : Prop := match o with Ok _ | Throw _ => True | _ => False end.

Lemma defined_bind {A B} (o : outcome A) (f : A → outcome B) :
  defined o → (∀ a, o = Ok a → defined (f a)) → defined (o ≫= f).
Proof. destruct o; cbn; auto. Qed.

Lemma defined_fmap {A B} (f : A → B) (o : outcome A) : defined o → defined (f <$> o).
Proof. by destruct o. Qed.

Lemma defined_throw_if b e : defined (throw_if b e).
Proof. by destruct b. Qed.

(** Unfolds the plumbing of the monad and nothing else. *)
Ltac outcome_cbn :=
  cbn [mbind outcome_bind mret outcome_ret fmap outcome_fmap throw_if succeeds].

(** ** Stateful code

    A method that reads and updates an object: a function of the object's state
    that may also throw. *)
Definition M (S A : Type) : Type := S → outcome (A * S).

#[global] Instance M_ret S : MRet (M S) := λ A a s, Ok (a, s).
#[global] Instance M_bind S : MBind (M S) := λ A B f m s,
  match m s with
  | Ok (a, s) => f a s
  | Throw e => Throw e
  | Undefined => Undefined
  | OutOfFuel => OutOfFuel
  end.

Definition gets {S A} (f : S → A) : M S A := λ s, Ok (f s, s).
Definition modify {S} (f : S → S) : M S unit := λ s, Ok (tt, f s).
Definition lift {S A} (o : outcome A) : M S A := λ s, (λ a, (a, s)) <$> o.
Definition out_of_fuel {S A} : M S A := λ _, OutOfFuel.

(** [runs m s Q]: from [s] the method returns, with a result and a state
    related by [Q]. *)
Definition runs {S A} (m : M S A) (s : S) (Q : A → S → Prop) : Prop :=
  succeeds (m s) (λ p, Q p.1 p.2).

Section runs.
Context {S A B : Type}.
Implicit Types (m : M S A) (s : S).

Lemma runs_ret (a : A) s (Q : A → S → Prop) : Q a s → runs (mret a) s Q.
Proof. done. Qed.

Lemma runs_bind m (f : A → M S B) s (P : A → S → Prop) (Q : B → S → Prop) :
  runs m s P → (∀ a s', P a s' → runs (f a) s' Q) → runs (m ≫= f) s Q.
Proof.
  unfold runs, mbind, M_bind. destruct (m s) as [[a s']| | |]; cbn; [|tauto..].
  intros HP Hf. by apply (Hf a s').
Qed.

Lemma runs_mono m s (P Q : A → S → Prop) :
  runs m s P → (∀ a s', P a s' → Q a s') → runs m s Q.
Proof. intros H HPQ. eapply succeeds_mono; [exact H|]. intros [a s']. apply HPQ. Qed.

Lemma runs_gets_bind {X} (g : S → X) (f : X → M S B) s (Q : B → S → Prop) :
  runs (f (g s)) s Q → runs (gets g ≫= f) s Q.
Proof. done. Qed.

Lemma runs_modify_bind (g : S → S) (f : unit → M S B) s (Q : B → S → Prop) :
  runs (f tt) (g s) Q → runs (modify g ≫= f) s Q.
Proof. done. Qed.

Lemma runs_lift_bind {X} (o : outcome X) (f : X → M S B) s P (Q : B → S → Prop) :
  succeeds o P → (∀ x, P x → runs (f x) s Q) → runs (lift o ≫= f) s Q.
Proof. unfold runs, mbind, M_bind, lift. destruct o; cbn; [auto|tauto..]. Qed.

Lemma runs_inv m s (Q : A → S → Prop) :
  runs m s Q → ∃ a s', m s = Ok (a, s') ∧ Q a s'.
Proof. unfold runs. destruct (m s) as [[a s']| | |]; cbn; [eauto|tauto..]. Qed.
End runs.

(** ** Machine integers

    [std::size_t] and [std::uint64_t] are 64-bit unsigned words, held as [Z]
    with the reduction modulo 2^64 written out at each operation. *)
Abbreviation two64 := 18446744073709551616%Z (only parsing).
Abbreviation two63 := 9223372036854775808%Z (only parsing).

Definition wrap64 (z : Z) : Z := (z mod two64)%Z.
Definition u64_add (a b : Z) : Z := wrap64 (a + b).
Definition u64_sub (a b : Z) : Z := wrap64 (a - b).
Definition u64_mul (a b : Z) : Z := wrap64 (a * b).
(** The post-increment of a counter. *)
Definition u64_succ (a : Z) : Z := wrap64 (a + 1).
(** [static_cast<std::int64_t>] of an unsigned word (two's complement). *)
Definition i64_of_u64 (z : Z) : Z := if (z <? two63)%Z then z else (z - two64)%Z.
(** [static_cast<std::uint64_t>] of a signed word. *)
Definition u64_of_i64 (z : Z) : Z := wrap64 z.
(** Signed addition: overflow is undefined behaviour. *)
Definition i64_add (a b : Z) : outcome Z :=
  if ((- two63 <=? a + b) && (a + b <? two63))%Z then Ok (a + b)%Z else Undefined.

Definition is_u64 (z : Z) : Prop := (0 ≤ z < two64)%Z.

Definition bool_to_Z (b : bool) : Z := if b then 1%Z else 0%Z.

Section words.
Local Open Scope Z_scope.

Lemma wrap64_small z : 0 ≤ z < two64 → wrap64 z = z.
Proof. apply Z.mod_small. Qed.

Lemma wrap64_range z : 0 ≤ wrap64 z < two64.
Proof. apply Z.mod_pos_bound. lia. Qed.

Lemma wrap64_add_l a b : wrap64 (wrap64 a + b) = wrap64 (a + b).
Proof. apply Zplus_mod_idemp_l. Qed.

Lemma wrap64_add_r a b : wrap64 (a + wrap64 b) = wrap64 (a + b).
Proof. apply Zplus_mod_idemp_r. Qed.

Lemma wrap64_idemp z : wrap64 (wrap64 z) = wrap64 z.
Proof. apply Zmod_mod. Qed.
End words.

(** Development-wide automation: [wrap_simpl] removes reductions modulo 2^64
    that [lia] shows to be the identity. *)
Ltac wrap_unfold := unfold u64_add, u64_sub, u64_mul, u64_succ, u64_of_i64 in *.
Ltac wrap_simpl :=
  wrap_unfold;
  repeat match goal with
  | |- context [wrap64 ?z] => rewrite (wrap64_small z) by lia
  | H : context [wrap64 ?z] |- _ => rewrite (wrap64_small z) in H by lia
  end.
Ltac wrap_lia := wrap_simpl; lia.

(** Case analysis on the integer comparisons of the code. *)
Ltac case_Z :=
  repeat match goal with
  | |- context [(?a <? ?b)%Z] => destruct (Z.ltb_spec a b)
  | |- context [(?a <=? ?b)%Z] => destruct (Z.leb_spec a b)
  | |- context [(?a =? ?b)%Z] => destruct (Z.eqb_spec a b)
  end.

Create HintDb netfault discriminated.
Create Rewrite HintDb netfault_list.
Create Rewrite HintDb netfault_dir.

(** ** Lists *)

(** [overwrite off bs l]: [l] with the bytes at positions [off, off + |bs|)
    replaced by [bs] (a store through a pointer into an array). *)
Definition overwrite {A} (off : nat) (bs l : list A) : list A :=
  take off l ++ bs ++ drop (off + length bs) l.

(** Length of the longest prefix whose elements satisfy [p]. *)
Fixpoint prefix_length {A} (p : A → bool) (l : list A) : nat :=
  match l with
  | [] => 0
  | x :: l => if p x then S (prefix_length p l) else 0
  end.

Definition sum_Z (l : list Z) : Z := foldr Z.add 0%Z l.

Section lists.
Context {A : Type}.
Implicit Types l bs : list A.

Lemma length_overwrite off bs l :
  off + length bs ≤ length l → length (overwrite off bs l) = length l.
Proof. intros. unfold overwrite. rewrite !length_app, length_take, length_drop. lia. Qed.

Lemma lookup_overwrite off bs l i :
  off + length bs ≤ length l →
  overwrite off bs l !! i =
    if decide (off ≤ i < off + length bs) then bs !! (i - off) else l !! i.
Proof.
  intros Hl. unfold overwrite. case_decide as Hi.
  - rewrite lookup_app_r by (rewrite length_take; lia).
    rewrite length_take, Nat.min_l by lia.
    by rewrite lookup_app_l by lia.
  - destruct (decide (i < off)) as [Hlt|Hge].
    + rewrite lookup_app_l by (rewrite length_take; lia). by rewrite lookup_take_lt.
    + rewrite lookup_app_r by (rewrite length_take; lia).
      rewrite length_take, Nat.min_l by lia.
      rewrite lookup_app_r, lookup_drop by lia. f_equal. lia.
Qed.

Lemma prefix_length_le (p : A → bool) l : prefix_length p l ≤ length l.
Proof. induction l as [|x l IH]; simpl; [done|]. destruct (p x); lia. Qed.

Lemma prefix_shorter (l1 l2 l3 : list A) :
  l1 `prefix_of` l3 → l2 `prefix_of` l3 → (length l1 ≤ length l2)%nat → l1 `prefix_of` l2.
Proof.
  intros H1 H2 Hle. destruct (prefix_weak_total l1 l2 l3 H1 H2) as [?|[k ->]]; [done|].
  rewrite length_app in Hle. assert (k = []) as -> by (destruct k; [done|cbn in Hle; lia]). by rewrite app_nil_r.
Qed.
Lemma prefix_length_app_le (p : A → bool) l k : prefix_length p l ≤ prefix_length p (l ++ k).
Proof. induction l as [|x l IH]; cbn; [lia|]. destruct (p x); lia. Qed.
Lemma prefix_length_take (p : A → bool) l n x :
  n ≤ prefix_length p l → x ∈ take n l → p x = true.
Proof.
  revert n. induction l as [|y l IH]; intros [|n] Hn Hx; simpl in *;
    try (by apply not_elem_of_nil in Hx).
  destruct (p y) eqn:Hy; [|lia]. apply elem_of_cons in Hx as [->|Hx]; [done|].
  apply (IH n); [lia|done].
Qed.

Lemma prefix_length_app_all (p : A → bool) l k :
  Forall (λ x, p x = true) l → prefix_length p (l ++ k) = length l + prefix_length p k.
Proof. induction 1 as [|x l Hx _ IH]; simpl; [done|]. rewrite Hx, IH. lia. Qed.

Lemma prefix_length_none (p : A → bool) x l : p x = false → prefix_length p (x :: l) = 0.
Proof. simpl. by intros ->. Qed.
End lists.

(** ** Labelled executions *)

Inductive lsteps {S E} (R : S → E → S → Prop) : S → list E → S → Prop :=
  | lsteps_nil s : lsteps R s [] s
  | lsteps_cons s e s' es s'' : R s e s' → lsteps R s' es s'' → lsteps R s (e :: es) s''.

(** A state predicate kept by every step holds after every execution. *)
Lemma lsteps_invariant {S E} (R : S → E → S → Prop) (I : S → Prop) s es s' :
  (∀ s e s', I s → R s e s' → I s') → I s → lsteps R s es s' → I s'.
Proof. intros Hstep Hs. induction 1; eauto. Qed.

Lemma lsteps_app {S E} (R : S → E → S → Prop) s1 es1 s2 es2 s3 :
  lsteps R s1 es1 s2 → lsteps R s2 es2 s3 → lsteps R s1 (es1 ++ es2) s3.
Proof. induction 1; cbn; [done|]. econstructor; eauto. Qed.

Lemma lsteps_once {S E} (R : S → E → S → Prop) s e s' : R s e s' → lsteps R s [e] s'.
Proof. econstructor; [done|constructor]. Qed.
