(* ===== verification/Text.v ===== *)
(** * Strings: searching, slicing and numbers

    What the sources use of the string library: [rfind], [substr],
    [std::from_chars] on unsigned integers and [std::to_string] (stdpp's
    [pretty]), with the lemmas that relate printing to parsing. *)

From Stdlib Require Import ZArith Lia Ascii String.
From stdpp Require Import base numbers list option strings pretty.
From S2P Require Import Prelude.

Local Open Scope string_scope.
Local Open Scope Z_scope.

Definition string_size (s : string) : Z := Z.of_nat (String.length s).

(** [text.substr(pos)] and [text.substr(0, count)]. *)
Definition substr_from (pos : nat) (s : string) : string :=
  String.substring pos (String.length s - pos) s.
Definition substr_to (count : nat) (s : string) : string := String.substring 0 count s.

(** [text.rfind(c)]; [None] is [npos]. *)
Fixpoint rfind (c : ascii) (s : string) : option nat :=
  match s with
  | EmptyString => None
  | String x s =>
      match rfind c s with
      | Some n => Some (S n)
      | None => if decide (x = c) then Some O else None
      end
  end.

Fixpoint string_in (c : ascii) (s : string) : bool :=
  match s with EmptyString => false | String x s => bool_decide (x = c) || string_in c s end.

Definition digit_value (c : ascii) : Z := Z.of_nat (nat_of_ascii c) - 48.
Definition is_digit (c : ascii) : bool := (0 <=? digit_value c) && (digit_value c <=? 9).

Fixpoint all_digits (s : string) : bool :=
  match s with EmptyString => true | String c s => is_digit c && all_digits s end.

(** The longest prefix of digits, and the rest. *)
Fixpoint span_digits (s : string) : string * string :=
  match s with
  | EmptyString => (EmptyString, EmptyString)
  | String c s' =>
      if is_digit c then let '(digits, rest) := span_digits s' in (String c digits, rest)
      else (EmptyString, s)
  end.

Fixpoint decimal (acc : Z) (s : string) : Z :=
  match s with
  | EmptyString => acc
  | String c s => decimal (acc * 10 + digit_value c) s
  end.

Inductive errc := NoError | InvalidArgumentError | ResultOutOfRange.

#[global] Instance errc_eq_dec : EqDecision errc.
Proof. solve_decision. Defined.

(** [std::from_chars(first, last, value)] for an unsigned type with maximum
    [limit]: the error code, the value stored (the old one on an error), and the
    text from the returned pointer on. *)
Definition from_chars (limit value : Z) (text : string) : errc * Z * string :=
  let '(digits, rest) := span_digits text in
  if decide (digits = "") then (InvalidArgumentError, value, text)
  else
    let parsed := decimal 0 digits in
    if limit <? parsed then (ResultOutOfRange, value, rest) else (NoError, parsed, rest).

(** ** Slicing *)

Lemma string_app_cons c a b : String c a +:+ b = String c (a +:+ b).
Proof. done. Qed.

Lemma string_length_app a b : String.length (a +:+ b) = (String.length a + String.length b)%nat.
Proof. induction a as [|c a IH]; [done|]. rewrite string_app_cons. cbn. by rewrite IH. Qed.

Lemma string_app_nil_r a : a +:+ "" = a.
Proof. induction a as [|c a IH]; [done|]. by rewrite string_app_cons, IH. Qed.

Lemma string_app_assoc a b c : a +:+ (b +:+ c) = (a +:+ b) +:+ c.
Proof. induction a as [|x a IH]; [done|]. by rewrite !string_app_cons, IH. Qed.

Lemma substring_all s : String.substring 0 (String.length s) s = s.
Proof. induction s as [|c s IH]; cbn; [done|]. by rewrite IH. Qed.

Lemma length_substring n m s : String.length (String.substring n m s) = Nat.min m (String.length s - n).
Proof.
  revert n m. induction s as [|c s IH]; intros [|n] [|m]; cbn; try done; by rewrite IH, ?Nat.sub_0_r.
Qed.

Lemma substring_nil n s : String.substring n 0 s = "".
Proof. revert n. induction s as [|c s IH]; intros [|n]; cbn; auto. Qed.

Lemma substring_from_nil n m : String.substring n m "" = "".
Proof. by destruct n, m. Qed.

Lemma substr_to_app a b : substr_to (String.length a) (a +:+ b) = a.
Proof.
  unfold substr_to. induction a as [|c a IH]; [by destruct b|]. rewrite string_app_cons. cbn. by rewrite IH.
Qed.

Lemma string_split n s : (n ≤ String.length s)%nat → substr_to n s +:+ substr_from n s = s.
Proof.
  unfold substr_to, substr_from. revert n. induction s as [|c s IH]; intros [|n]; cbn; try lia; intros Hn.
  - done.
  - exact (f_equal (String c) (substring_all s)).
  - rewrite string_app_cons. f_equal. apply IH. lia.
Qed.

Lemma substr_from_more offset n s : substr_from n (substr_from offset s) = substr_from (offset + n) s.
Proof.
  unfold substr_from. revert s. induction offset as [|offset IH]; intros s.
  - by rewrite Nat.sub_0_r, substring_all.
  - destruct s as [|c s]; [by rewrite !substring_from_nil|apply IH].
Qed.

Lemma substr_from_app a b : substr_from (String.length a) (a +:+ b) = b.
Proof.
  unfold substr_from. rewrite string_length_app.
  replace (String.length a + String.length b - String.length a)%nat with (String.length b) by lia.
  induction a as [|c a IH]; [apply substring_all|]. by rewrite string_app_cons.
Qed.

Lemma rfind_none c s : string_in c s = false → rfind c s = None.
Proof.
  induction s as [|x s IH]; cbn; [done|]. intros [Hx Hs]%orb_false_iff.
  apply bool_decide_eq_false in Hx. rewrite IH by done. by rewrite decide_False.
Qed.

Lemma rfind_app c a b : string_in c b = false → rfind c (a +:+ String c b) = Some (String.length a).
Proof.
  intros Hb. induction a as [|x a IH].
  - change ("" +:+ String c b) with (String c b). cbn. by rewrite rfind_none, decide_True.
  - rewrite string_app_cons. cbn. by rewrite IH.
Qed.

Lemma rfind_split c s n :
  rfind c s = Some n → ∃ a b, s = a +:+ String c b ∧ String.length a = n ∧ string_in c b = false.
Proof.
  revert n. induction s as [|x s IH]; cbn; [done|]. intros n Hn.
  destruct (rfind c s) as [m|] eqn:E.
  - injection Hn as <-. destruct (IH m eq_refl) as (a & b & -> & <- & Hb). exists (String x a), b. done.
  - case_decide as Hx; [|done]. injection Hn as <-. exists "", s. subst x. split_and!; [done..|].
    clear IH. induction s as [|y s IH]; cbn in *; [done|].
    destruct (rfind c s); [done|]. case_decide; [done|].
    rewrite bool_decide_false by done. by apply IH.
Qed.

(** ** Numbers *)

Lemma span_digits_split s digits rest :
  span_digits s = (digits, rest) → s = digits +:+ rest ∧ all_digits digits = true.
Proof.
  revert digits rest. induction s as [|c s IH]; intros digits rest; cbn; [by intros [= <- <-]|].
  destruct (is_digit c) eqn:E; [|by intros [= <- <-]].
  destruct (span_digits s) as [d r]. intros [= <- <-]. destruct (IH d r eq_refl) as [-> Hd].
  cbn. by rewrite E, Hd.
Qed.

Lemma span_digits_all s : all_digits s = true → span_digits s = (s, "").
Proof.
  induction s as [|c s IH]; cbn; [done|]. intros [Hc Hs]%andb_true_iff. by rewrite Hc, IH.
Qed.

Lemma decimal_nonneg acc s : all_digits s = true → 0 ≤ acc → 0 ≤ decimal acc s.
Proof.
  revert acc. induction s as [|c s IH]; intros acc; cbn; [done|].
  intros [Hc Hs]%andb_true_iff Ha. apply IH; [done|].
  unfold is_digit in Hc. apply andb_true_iff in Hc as [Hc _]. lia.
Qed.

(** The whole text is consumed without an error exactly when it is a non-empty
    string of digits whose value is within the limit. *)
Lemma from_chars_complete limit value text v :
  from_chars limit value text = (NoError, v, "") ↔
  text ≠ "" ∧ all_digits text = true ∧ decimal 0 text = v ∧ v ≤ limit.
Proof.
  unfold from_chars. split.
  - destruct (span_digits text) as [digits rest] eqn:E. apply span_digits_split in E as [-> Hd].
    case_decide as Hne; [done|]. destruct (Z.ltb_spec limit (decimal 0 digits)); [done|].
    intros [= <- ->]. rewrite string_app_nil_r in *. split_and!; done || lia.
  - intros (Hne & Hd & Hv & Hl). rewrite span_digits_all by done. rewrite decide_False by done.
    rewrite Hv. by destruct (Z.ltb_spec limit v); [lia|].
Qed.

(** *** Printing *)

(** The test the programs make on the result of [from_chars] on a whole text. *)
Lemma from_chars_whole {A} limit text error value end_ (extra : bool) e (k : unit → outcome A) a :
  from_chars limit 0 text = (error, value, end_) →
  throw_if (bool_decide (error ≠ NoError) || bool_decide (end_ ≠ "") || extra) e ≫= k = Ok a →
  0 ≤ value ≤ limit ∧ extra = false ∧ k tt = Ok a.
Proof.
  intros E [Hb Hk]%throw_if_Ok. apply orb_false_iff in Hb as [Hb Hx]. apply orb_false_iff in Hb as [He Hn].
  apply bool_decide_eq_false in He, Hn. apply dec_stable in He, Hn. subst.
  apply from_chars_complete in E as (_ & Hd & Hv & Hle). pose proof (decimal_nonneg 0 text Hd ltac:(lia)). split_and!; lia || done.
Qed.

Lemma pretty_char_digit (x : N) :
  (x < 10)%N → is_digit (pretty_N_char x) = true ∧ digit_value (pretty_N_char x) = Z.of_N x.
Proof.
  intros Hx. assert (x = 0 ∨ x = 1 ∨ x = 2 ∨ x = 3 ∨ x = 4 ∨ x = 5 ∨ x = 6 ∨ x = 7 ∨ x = 8 ∨ x = 9)%N
    as Hc by lia.
  by destruct Hc as [->|[->|[->|[->|[->|[->|[->|[->|[->| ->]]]]]]]]].
Qed.

Lemma pretty_N_go_digits (x : N) s :
  all_digits s = true →
  all_digits (pretty_N_go x s) = true ∧ decimal 0 (pretty_N_go x s) = decimal (Z.of_N x) s.
Proof.
  revert s. induction (N.lt_wf_0 x) as [x _ IH]; intros s Hs.
  destruct (decide (x = 0)%N) as [->|Hx]; [by rewrite pretty_N_go_0|].
  rewrite pretty_N_go_step by lia.
  destruct (pretty_char_digit (x mod 10)) as [Hd Hv]; [by apply N.mod_lt|].
  destruct (IH (x / 10)%N (N.div_lt x 10 ltac:(lia) eq_refl) (String (pretty_N_char (x mod 10)) s))
    as [H1 H2]; [cbn; by rewrite Hd|].
  split; [done|]. rewrite H2. cbn. rewrite Hv. f_equal.
  pose proof (N.div_mod x 10 ltac:(done)). lia.
Qed.

(** Printing a non-negative number gives digits whose value is the number. *)
Lemma pretty_digits (n : Z) :
  0 ≤ n → pretty n ≠ "" ∧ all_digits (pretty n) = true ∧ decimal 0 (pretty n) = n.
Proof.
  intros Hn. assert (Hp : pretty n = pretty (Z.to_N n)) by (destruct n; done || lia). rewrite Hp.
  unfold pretty, pretty_N. case_decide as H0; [split_and!; [done|done|change (decimal 0 "0") with 0; lia]|].
  destruct (pretty_N_go_digits (Z.to_N n) "" eq_refl) as [H1 H2]. cbn [decimal] in H2.
  split_and!; [|done|lia]. intros He. rewrite He in H2. cbn in H2. lia.
Qed.

Lemma digits_exclude c s : is_digit c = false → all_digits s = true → string_in c s = false.
Proof.
  intros Hc. induction s as [|x s IH]; cbn; [done|]. intros [Hx Hs]%andb_true_iff.
  apply orb_false_iff. split; [apply bool_decide_eq_false; congruence|auto].
Qed.

(** The round trip through [std::to_string] and [std::from_chars]. *)
Lemma from_chars_pretty limit value n :
  0 ≤ n ≤ limit → from_chars limit value (pretty n) = (NoError, n, "").
Proof. intros Hn. apply from_chars_complete. destruct (pretty_digits n ltac:(lia)) as (? & ? & ?). auto with lia. Qed.
