(* ===== verification/Endpoint.v ===== *)
(** * Endpoints (include/netfault/endpoint.hpp, src/common/endpoint.cpp)

    HOST:PORT with a numeric IPv4 host. [inet_pton] is the C library's: a class
    that returns the address, most significant byte first, of a valid
    dotted-decimal text. *)

From Stdlib Require Import ZArith Lia Ascii String.
From stdpp Require Import base numbers list option strings pretty.
From S2P Require Import Prelude Text.

Local Open Scope string_scope.
Local Open Scope Z_scope.

Class Inet := { inet_pton : string → option Z }.

Record Endpoint := mkEndpoint { host : string; port : Z }.

#[global] Instance Endpoint_eq_dec : EqDecision Endpoint.
Proof. solve_decision. Defined.

(** The parts of a [sockaddr_in] that are set. *)
Record sockaddr_in := mkSockaddr { sin_port : Z; sin_addr : Z }.

(** [host.c_str()] as a C string ends at the first NUL. *)
Fixpoint c_str (s : string) : string :=
  match s with
  | EmptyString => EmptyString
  | String c s => if decide (c = "000"%char) then EmptyString else String c (c_str s)
  end.

Definition uint_max : Z := 4294967295.

Section endpoint.
Context `{Inet}.

Definition parse (text : string) : outcome Endpoint :=
  let malformed := InvalidArgument "endpoint must use numeric IPv4 HOST:PORT syntax" in
  match rfind ":" text with
  | None => Throw malformed
  | Some separator =>
      _ ← throw_if ((Z.of_nat separator =? 0) || (string_size text <=? Z.of_nat separator + 1)) malformed;
      let host := substr_to separator text in
      let port_text := substr_from (S separator) text in
      let '(error, parsed_port, end_) := from_chars uint_max 0 port_text in
      _ ← throw_if (bool_decide (error ≠ NoError) || bool_decide (end_ ≠ "") || (parsed_port =? 0)
                    || (65535 <? parsed_port))
            (InvalidArgument "endpoint port must be an integer from 1 to 65535");
      match inet_pton (c_str host) with
      | None => Throw (InvalidArgument "endpoint host must be a numeric IPv4 address")
      | Some _ => Ok (mkEndpoint host (parsed_port mod 65536))
      end
  end.

Definition to_sockaddr (e : Endpoint) : outcome sockaddr_in :=
  match inet_pton (c_str (host e)) with
  | None => Throw (InvalidArgument "invalid numeric IPv4 address")
  | Some address => Ok (mkSockaddr (port e) address)
  end.

Definition is_loopback (e : Endpoint) : outcome bool :=
  address ← to_sockaddr e;
  Ok (Z.land (sin_addr address) 0xFF000000 =? 0x7F000000).

Definition to_string (e : Endpoint) : string := host e +:+ ":" +:+ pretty (port e).

(** What a parsed endpoint satisfies. *)
Record endpoint_ok (e : Endpoint) : Prop := mkEndpointOk {
  eo_host : host e ≠ "";
  eo_port : 1 ≤ port e ≤ 65535;
  eo_inet : is_Some (inet_pton (c_str (host e)));
}.

Lemma string_size_split a c b :
  string_size (a +:+ String c b) = Z.of_nat (String.length a) + 1 + Z.of_nat (String.length b).
Proof. unfold string_size. rewrite string_length_app. cbn [String.length]. lia. Qed.

Lemma substr_from_split a c b : substr_from (S (String.length a)) (a +:+ String c b) = b.
Proof.
  replace (S (String.length a)) with (String.length (a +:+ String c ""))
    by (rewrite string_length_app; cbn [String.length]; lia).
  replace (a +:+ String c b) with ((a +:+ String c "") +:+ b); [apply substr_from_app|].
  by rewrite <-string_app_assoc.
Qed.

(** Parsing, on a text split at its last colon. *)
Lemma parse_split h digits :
  string_in ":" digits = false →
  parse (h +:+ String ":" digits) =
    if bool_decide (h = "") || bool_decide (digits = "")
    then Throw (InvalidArgument "endpoint must use numeric IPv4 HOST:PORT syntax")
    else if negb (all_digits digits) || (65535 <? decimal 0 digits) || (decimal 0 digits =? 0)
    then Throw (InvalidArgument "endpoint port must be an integer from 1 to 65535")
    else match inet_pton (c_str h) with
         | None => Throw (InvalidArgument "endpoint host must be a numeric IPv4 address")
         | Some _ => Ok (mkEndpoint h (decimal 0 digits))
         end.
Proof.
  intros Hd. unfold parse. rewrite rfind_app by done. rewrite string_size_split, substr_to_app, substr_from_split.
  assert (Hh : (Z.of_nat (String.length h) =? 0) = bool_decide (h = "")) by (by destruct h).
  assert (Hp : (Z.of_nat (String.length h) + 1 + Z.of_nat (String.length digits)
                <=? Z.of_nat (String.length h) + 1) = bool_decide (digits = "")).
  { destruct digits; cbn [String.length];
      [rewrite bool_decide_true by done|rewrite bool_decide_false by done]; case_Z; done || lia. }
  rewrite Hh, Hp. destruct (bool_decide (h = "") || bool_decide (digits = "")) eqn:Hne; [done|]. cbn.
  apply orb_false_iff in Hne as [_ Hne%bool_decide_eq_false].
  destruct (from_chars uint_max 0 digits) as [[error v] end_] eqn:E.
  destruct (decide (error = NoError ∧ end_ = "")) as [[-> ->]|Hbad].
  - apply from_chars_complete in E as (_ & Hall & Hv & Hl). rewrite Hall, Hv. cbn.
    assert (0 ≤ v) by (rewrite <-Hv; by apply decimal_nonneg).
    rewrite (bool_decide_false (NoError ≠ NoError)), (bool_decide_false ("" ≠ "")) by tauto. cbn.
    destruct (Z.eqb_spec v 0), (Z.ltb_spec 65535 v); cbn; try done; try lia.
    by rewrite Z.mod_small by lia.
  - assert (Hthrow : bool_decide (error ≠ NoError) || bool_decide (end_ ≠ "") = true).
    { destruct (decide (error = NoError)) as [->|He]; [|by rewrite (bool_decide_true (error ≠ NoError))].
      rewrite (bool_decide_true (end_ ≠ "")), orb_true_r by tauto. done. }
    rewrite Hthrow. cbn.
    assert (Hcond : negb (all_digits digits) || (65535 <? decimal 0 digits) || (decimal 0 digits =? 0) = true).
    { destruct (all_digits digits) eqn:Hall; [|done]. cbn.
      destruct (Z.ltb_spec 65535 (decimal 0 digits)); [done|]. exfalso. apply Hbad.
      assert (Hok : from_chars uint_max 0 digits = (NoError, decimal 0 digits, ""))
        by (apply from_chars_complete; unfold uint_max; auto with lia).
      rewrite E in Hok. by injection Hok. }
    by rewrite Hcond.
Qed.

(** C37: [parse] accepts exactly the texts HOST:DIGITS, split at the last colon,
    with a non-empty numeric host and a port value from 1 to 65535, and returns
    that host and value; anything else throws [std::invalid_argument]. *)
Theorem endpoint_parse_exactly text :
  (∀ e, parse text = Ok e ↔
     endpoint_ok e ∧ ∃ digits, text = host e +:+ ":" +:+ digits ∧ digits ≠ ""
       ∧ all_digits digits = true ∧ decimal 0 digits = port e)
  ∧ ((∃ e, parse text = Ok e) ∨ ∃ what, parse text = Throw (InvalidArgument what)).
Proof.
  assert (Hsplit : (∃ h digits, string_in ":" digits = false ∧ text = h +:+ String ":" digits)
                   ∨ rfind ":" text = None).
  { destruct (rfind ":" text) as [n|] eqn:E; [left|by right].
    apply rfind_split in E as (h & digits & -> & _ & Hd). eauto. }
  destruct Hsplit as [(h & digits & Hd & ->)|Hn].
  - rewrite parse_split by done. split.
    + intros e. split.
      * destruct (bool_decide (h = "") || bool_decide (digits = "")) eqn:Hne; [done|].
        apply orb_false_iff in Hne as [Hh%bool_decide_eq_false Hdg%bool_decide_eq_false].
        destruct (all_digits digits) eqn:Hall; cbn; [|done].
        destruct (Z.ltb_spec 65535 (decimal 0 digits)), (Z.eqb_spec (decimal 0 digits) 0); cbn; try done.
        destruct (inet_pton (c_str h)) as [a|] eqn:Ei; [|done]. intros [= <-].
        pose proof (decimal_nonneg 0 digits Hall ltac:(lia)).
        split; [split; cbn; [done|lia|by rewrite Ei]|]. by exists digits.
      * intros ([Hh Hp [a Ha]] & digits' & Heq & Hne & Hall & Hv).
        change (host e +:+ ":" +:+ digits') with (host e +:+ String ":" digits') in Heq.
        assert (Hd' : string_in ":" digits' = false) by (by apply digits_exclude).
        pose proof (parse_split (host e) digits' Hd') as Hps.
        rewrite <-Heq, parse_split in Hps by done. rewrite Hps.
        rewrite !bool_decide_false by done. rewrite Hall, Hv, Ha. cbn.
        destruct (Z.ltb_spec 65535 (port e)), (Z.eqb_spec (port e) 0); cbn; try lia. by destruct e.
    + repeat case_match; eauto.
  - unfold parse. rewrite Hn. split; [|eauto]. intros e. split; [done|].
    intros (_ & digits & -> & _ & Hall & _). exfalso.
    change (host e +:+ ":" +:+ digits) with (host e +:+ String ":" digits) in Hn.
    rewrite rfind_app in Hn; [done|]. by apply digits_exclude.
Qed.

Lemma parse_to_string e : endpoint_ok e → parse (to_string e) = Ok e.
Proof.
  intros [Hh Hp [a Ha]]. destruct (pretty_digits (port e) ltac:(lia)) as (Hne & Hall & Hv).
  change (to_string e) with (host e +:+ String ":" (pretty (port e))).
  rewrite parse_split by (by apply digits_exclude).
  rewrite !bool_decide_false by done. rewrite Hall, Hv, Ha. cbn.
  destruct (Z.ltb_spec 65535 (port e)), (Z.eqb_spec (port e) 0); cbn; try lia. by destruct e.
Qed.
(** Printing and parsing round-trip: an endpoint that [parse] can return is
    parsed back from its [to_string]. *)
Theorem endpoint_roundtrip e : endpoint_ok e → parse (to_string e) = Ok e.
Proof. apply parse_to_string. Qed.
End endpoint.

(** ** Loopback addresses *)

Class InetLaws `{Inet} : Prop :=
  inet_pton_word s a : inet_pton s = Some a → 0 ≤ a < 4294967296.

Lemma land_top_byte a :
  0 ≤ a < 4294967296 → Z.land a 0xFF000000 = Z.shiftl (a / 16777216) 24.
Proof.
  intros Ha. change 0xFF000000 with (Z.shiftl (Z.ones 8) 24). change 16777216 with (2 ^ 24).
  rewrite <-Z.shiftr_div_pow2 by lia. apply Z.bits_inj'. intros n Hn.
  rewrite Z.land_spec, !Z.shiftl_spec by done.
  destruct (Z.ltb_spec n 24).
  { rewrite !(Z.testbit_neg_r _ (n - 24)) by lia. by rewrite andb_false_r. }
  rewrite Z.shiftr_spec by lia. replace (n - 24 + 24) with n by lia.
  destruct (Z.ltb_spec n 32).
  - rewrite Z.ones_spec_low by lia. by rewrite andb_true_r.
  - rewrite Z.ones_spec_high by lia. rewrite andb_false_r. symmetry.
    destruct (Z.eq_dec a 0) as [->|]; [apply Z.testbit_0_l|]. apply Z.bits_above_log2; [lia|].
    apply Z.log2_lt_pow2; [lia|]. apply Z.lt_le_trans with (2 ^ 32); [lia|].
    apply Z.pow_le_mono_r; lia.
Qed.

(** [is_loopback] decides 127.0.0.0/8. *)
Lemma is_loopback_ok `{InetLaws} e a :
  inet_pton (c_str (host e)) = Some a →
  is_loopback e = Ok (bool_decide (2130706432 ≤ a ≤ 2147483647)).
Proof.
  intros Ha. unfold is_loopback, to_sockaddr. rewrite Ha. cbn.
  pose proof (inet_pton_word _ _ Ha). rewrite land_top_byte, Z.shiftl_mul_pow2 by lia.
  f_equal. pose proof (Z.div_mod a 16777216 ltac:(lia)).
  pose proof (Z.mod_pos_bound a 16777216 ltac:(lia)). change (2 ^ 24) with 16777216.
  destruct (bool_decide_reflect (2130706432 ≤ a ≤ 2147483647)); case_Z; done || lia.
Qed.

(** The address of an endpoint is in 127.0.0.0/8. *)
Definition loopback_address `{Inet} (e : Endpoint) : Prop :=
  ∃ a, inet_pton (c_str (host e)) = Some a ∧ 2130706432 ≤ a ≤ 2147483647.

Lemma is_loopback_true `{InetLaws} e : is_loopback e = Ok true ↔ loopback_address e.
Proof.
  unfold loopback_address. destruct (inet_pton (c_str (host e))) as [a|] eqn:Ha.
  - rewrite (is_loopback_ok e a Ha). split.
    + intros [= Hb%bool_decide_eq_true]. by exists a.
    + intros (b & [= <-] & Hb). by rewrite bool_decide_true.
  - unfold is_loopback, to_sockaddr. rewrite Ha. split; [done|]. by intros (a & ? & _).
Qed.

Section defined.
Context `{Inet}.

Lemma parse_defined text : defined (parse text).
Proof.
  unfold parse. destruct (rfind _ _); [|done]. apply defined_bind; [apply defined_throw_if|]. intros u _. cbv zeta.
  destruct (from_chars _ _ _) as [[error v] end_]. apply defined_bind; [apply defined_throw_if|]. intros u' _.
  by destruct (inet_pton _).
Qed.

Lemma is_loopback_defined e : defined (is_loopback e).
Proof. unfold is_loopback, to_sockaddr. by destruct (inet_pton _). Qed.
End defined.

(** ** Examples *)

(** A few addresses. *)
Definition example_inet : Inet := {|
  inet_pton s :=
    if decide (s = "127.0.0.1") then Some 2130706433
    else if decide (s = "127.20.30.40") then Some 2132024872
    else if decide (s = "10.0.0.1") then Some 167772161
    else None
|}.
#[local] Existing Instance example_inet.

#[local] Instance example_inet_laws : InetLaws.
Proof. intros s a. cbn. repeat case_decide; intros [= <-]; lia. Qed.

Lemma endpoint_roundtrip_witness :
  to_string (mkEndpoint "127.20.30.40" 8080) = "127.20.30.40:8080"
  ∧ parse "127.20.30.40:8080" = Ok (mkEndpoint "127.20.30.40" 8080).
Proof.
  split; [reflexivity|].
  exact (endpoint_roundtrip (mkEndpoint "127.20.30.40" 8080)
    (mkEndpointOk (mkEndpoint "127.20.30.40" 8080) ltac:(done) ltac:(cbn; lia) (ex_intro _ _ eq_refl))).
Defined.
