(* ===== verification/UniqueFd.v ===== *)
(** * Descriptor ownership (include/netfault/unique_fd.hpp)

    [UniqueFd] objects as variables of a store, with the calls of [close] they
    make: every descriptor given to one is closed exactly once, unless it is
    released, and none is closed while an object still holds it. *)

From Stdlib Require Import ZArith Lia.
From stdpp Require Import base numbers list option gmap fin_maps.
From S2P Require Import Prelude.

Local Open Scope Z_scope.

(** The objects alive, each with its [fd_], and the descriptors closed and given
    up so far. *)
Record FdStore := mkFdStore {
  objects : gmap nat Z;
  closed_fds : list Z;
  released_fds : list Z;
}.

Definition empty_store : FdStore := mkFdStore ∅ [] [].

Definition owns (fd : Z) : bool := 0 <=? fd.   (* operator bool *)

Definition get (x : nat) (s : FdStore) : outcome Z :=
  match objects s !! x with Some fd => Ok fd | None => Undefined end.

(** [release]: the object gives its descriptor up. *)
Definition release (x : nat) (s : FdStore) : outcome (Z * FdStore) :=
  fd ← get x s;
  Ok (fd, mkFdStore (<[x := -1]> (objects s)) (closed_fds s) (released_fds s)).

(** [reset]: closes what the object holds and takes the replacement. *)
Definition reset (x : nat) (replacement : Z) (s : FdStore) : outcome FdStore :=
  fd ← get x s;
  Ok (mkFdStore (<[x := replacement]> (objects s))
        (if owns fd then closed_fds s ++ [fd] else closed_fds s) (released_fds s)).

(** The operations of the class, on named objects. An object is constructed once
    and not used after its destruction. *)
Inductive FdOp :=
  | Construct (x : nat) (fd : Z)
  | MoveConstruct (x y : nat)
  | MoveAssign (x y : nat)
  | ResetTo (x : nat) (replacement : Z)
  | ReleaseOf (x : nat)
  | Destroy (x : nat).

Definition fresh_object (x : nat) (s : FdStore) : outcome unit :=
  match objects s !! x with Some _ => Undefined | None => Ok tt end.

Definition fd_step (s : FdStore) (op : FdOp) : outcome FdStore :=
  match op with
  | Construct x fd =>
      _ ← fresh_object x s;
      Ok (mkFdStore (<[x := fd]> (objects s)) (closed_fds s) (released_fds s))
  | MoveConstruct x y =>
      _ ← fresh_object x s;
      '(fd, s) ← release y s;
      Ok (mkFdStore (<[x := fd]> (objects s)) (closed_fds s) (released_fds s))
  | MoveAssign x y =>
      if decide (x = y) then _ ← get x s; Ok s
      else
        '(fd, s) ← release y s;
        reset x fd s
  | ResetTo x replacement => reset x replacement s
  | ReleaseOf x =>
      '(fd, s) ← release x s;
      Ok (mkFdStore (objects s) (closed_fds s) (if owns fd then released_fds s ++ [fd] else released_fds s))
  | Destroy x =>
      s ← reset x (-1) s;
      Ok (mkFdStore (delete x (objects s)) (closed_fds s) (released_fds s))
  end.

Fixpoint fd_steps (s : FdStore) (ops : list FdOp) : outcome FdStore :=
  match ops with
  | [] => Ok s
  | op :: ops => s ← fd_step s op; fd_steps s ops
  end.

(** The descriptors handed to objects from outside. *)
Definition adopted (ops : list FdOp) : list Z :=
  ops ≫= λ op, match op with Construct _ fd | ResetTo _ fd => if owns fd then [fd] else [] | _ => [] end.

(** The descriptors the objects hold. *)
Definition keep (fd : Z) : list Z := if owns fd then [fd] else [].
Definition held (s : FdStore) : list Z := (map_to_list (objects s)) ≫= λ p, keep p.2.

Lemma held_insert_new x fd (m : gmap nat Z) :
  m !! x = None → (map_to_list (<[x := fd]> m) ≫= λ p, keep p.2) ≡ₚ keep fd ++ (map_to_list m ≫= λ p, keep p.2).
Proof. intros Hx. rewrite map_to_list_insert by done. done. Qed.

Lemma held_take x fd (m : gmap nat Z) :
  m !! x = Some fd → (map_to_list m ≫= λ p, keep p.2) ≡ₚ keep fd ++ (map_to_list (delete x m) ≫= λ p, keep p.2).
Proof.
  intros Hx. rewrite <-(insert_delete_id m x fd Hx) at 1. apply held_insert_new, lookup_delete_eq.
Qed.

(** Replacing what an object holds. *)
Lemma held_replace x fd fd' (m : gmap nat Z) :
  m !! x = Some fd →
  keep fd' ++ (map_to_list m ≫= λ p, keep p.2) ≡ₚ keep fd ++ (map_to_list (<[x := fd']> m) ≫= λ p, keep p.2).
Proof.
  intros Hx. rewrite (held_take x fd m Hx), (held_take x fd' (<[x := fd']> m)) by apply lookup_insert_eq.
  rewrite delete_insert_eq. by rewrite !app_assoc, (Permutation_app_comm (keep fd')).
Qed.

(** Where the descriptors are. *)
Definition whereabouts (s : FdStore) : list Z := closed_fds s ++ released_fds s ++ held s.

Lemma keep_none : keep (-1) = [].
Proof. done. Qed.

Lemma get_Ok x s fd : get x s = Ok fd → objects s !! x = Some fd.
Proof. unfold get. destruct (objects s !! x); [by intros [= ->]|done]. Qed.

Lemma fresh_Ok x s u : fresh_object x s = Ok u → objects s !! x = None.
Proof. unfold fresh_object. by destruct (objects s !! x). Qed.

Lemma release_Ok x s fd s' :
  release x s = Ok (fd, s') →
  objects s !! x = Some fd ∧ s' = mkFdStore (<[x := -1]> (objects s)) (closed_fds s) (released_fds s)
  ∧ held s ≡ₚ keep fd ++ held s'.
Proof.
  unfold release. intros (fd' & Hx%get_Ok & [= -> <-])%bind_Ok. split_and!; [done|done|].
  pose proof (held_replace x fd (-1) (objects s) Hx) as Hr. rewrite keep_none in Hr. exact Hr.
Qed.

Lemma reset_Ok x replacement s s' :
  reset x replacement s = Ok s' →
  ∃ fd, objects s !! x = Some fd ∧ objects s' = <[x := replacement]> (objects s)
    ∧ whereabouts s' ≡ₚ keep replacement ++ whereabouts s.
Proof.
  unfold reset. intros (fd & Hx%get_Ok & [= <-])%bind_Ok. exists fd. split_and!; [done|done|].
  pose proof (held_replace x fd replacement (objects s) Hx) as Hr. unfold whereabouts, held in *. cbn [closed_fds released_fds objects].
  replace (if owns fd then closed_fds s ++ [fd] else closed_fds s) with (closed_fds s ++ keep fd)
    by (unfold keep; destruct (owns fd); [done|by rewrite app_nil_r]).
  rewrite <-!app_assoc. rewrite (Permutation_app_comm (keep replacement)), <-!app_assoc. apply Permutation_app_head.
  rewrite (Permutation_app_comm (keep fd)), <-!app_assoc. apply Permutation_app_head.
  rewrite (Permutation_app_comm _ (keep fd)), <-Hr. apply Permutation_app_comm.
Qed.

(** Past the closed and the released ones. *)
Lemma keep_in (k c r m : list Z) : k ++ c ++ r ++ m ≡ₚ c ++ r ++ k ++ m.
Proof.
  transitivity ((c ++ r ++ m) ++ k); [apply Permutation_app_comm|]. rewrite <-!app_assoc.
  do 2 apply Permutation_app_head. apply Permutation_app_comm.
Qed.

Lemma construct_whereabouts x fd o c r :
  o !! x = None → whereabouts (mkFdStore (<[x := fd]> o) c r) ≡ₚ keep fd ++ whereabouts (mkFdStore o c r).
Proof.
  intros Hx. unfold whereabouts, held. cbn. rewrite (held_insert_new x fd _ Hx). symmetry. apply keep_in.
Qed.

Lemma release_whereabouts s fd s' :
  closed_fds s' = closed_fds s → released_fds s' = released_fds s → held s ≡ₚ keep fd ++ held s' →
  keep fd ++ whereabouts s' ≡ₚ whereabouts s.
Proof.
  intros Hc Hr Hh. unfold whereabouts. rewrite Hc, Hr, Hh. apply keep_in.
Qed.

Lemma fd_step_whereabouts s op s' : fd_step s op = Ok s' → whereabouts s' ≡ₚ adopted [op] ++ whereabouts s.
Proof.
  assert (Hadopt : ∀ fd : Z, (if owns fd then [fd] else []) ++ [] = keep fd) by (intros; by rewrite app_nil_r).
  unfold adopted. destruct op as [x fd|x y|x y|x replacement|x|x]; cbn [fd_step mbind list_bind app]; rewrite ?Hadopt.
  - intros (u & Hx%fresh_Ok & [= <-])%bind_Ok. destruct s. by apply construct_whereabouts.
  - intros (u & Hx%fresh_Ok & H)%bind_Ok. apply bind_Ok in H as ([fd s1] & Hrel & [= <-]).
    apply release_Ok in Hrel as (Hy & -> & Hh). cbn [objects closed_fds released_fds] in *.
    assert (Hne : x ≠ y) by congruence.
    rewrite construct_whereabouts by (by rewrite lookup_insert_ne).
    by apply release_whereabouts.
  - case_decide as Hxy; [by intros (u & _ & [= <-])%bind_Ok|]. intros ([fd s1] & Hrel & Hres)%bind_Ok.
    apply release_Ok in Hrel as (Hy & -> & Hh). apply reset_Ok in Hres as (fd' & Hx & _ & ->). by apply release_whereabouts.
  - intros Hres. by apply reset_Ok in Hres as (fd' & Hx & _ & ->).
  - intros ([fd s1] & Hrel & [= <-])%bind_Ok. apply release_Ok in Hrel as (Hx & -> & Hh). unfold whereabouts. cbn in *.
    replace (if owns fd then released_fds s ++ [fd] else released_fds s) with (released_fds s ++ keep fd)
      by (unfold keep; destruct (owns fd); [done|by rewrite app_nil_r]).
    rewrite <-app_assoc. by rewrite <-Hh.
  - intros (s1 & Hres & [= <-])%bind_Ok. apply reset_Ok in Hres as (fd' & Hx & Ho & Hw). rewrite keep_none in Hw. cbn in Hw.
    rewrite <-Hw. unfold whereabouts, held. cbn. rewrite Ho, delete_insert_eq.
    rewrite (held_take x (-1) (<[x := -1]> (objects s))) by apply lookup_insert_eq. by rewrite delete_insert_eq.
Qed.

Lemma fd_steps_whereabouts ops s s' : fd_steps s ops = Ok s' → whereabouts s' ≡ₚ adopted ops ++ whereabouts s.
Proof.
  revert s. induction ops as [|op ops IH]; intros s; cbn [fd_steps]; [by intros [= <-]|].
  intros (s1 & Hstep%fd_step_whereabouts & Hsteps)%bind_Ok. rewrite (IH _ Hsteps), Hstep.
  change (op :: ops) with ([op] ++ ops). unfold adopted. rewrite bind_app, !app_assoc.
  by rewrite (Permutation_app_comm ([op] ≫= _)).
Qed.

(** C20: descriptors are owned: after any operations on [UniqueFd] objects, every
    descriptor handed to one is closed, or was released, or is held by one
    object, and exactly one of these if no descriptor was handed out twice; so
    nothing is leaked, closed twice, or closed while an object holds it, and
    once every object is destroyed all that was not released is closed. *)
Theorem unique_fd_ownership ops s :
  fd_steps empty_store ops = Ok s → NoDup (adopted ops) →
  adopted ops ≡ₚ closed_fds s ++ released_fds s ++ held s
  ∧ NoDup (closed_fds s ++ released_fds s ++ held s)
  ∧ (objects s = ∅ → adopted ops ≡ₚ closed_fds s ++ released_fds s).
Proof.
  intros Hs%fd_steps_whereabouts Hn. change (whereabouts empty_store) with (@nil Z) in Hs. rewrite app_nil_r in Hs.
  unfold whereabouts in Hs. split_and!; [done|by rewrite Hs|].
  intros Ho. rewrite <-Hs. unfold held. rewrite Ho, map_to_list_empty. by rewrite app_nil_r.
Qed.

Lemma unique_fd_ownership_witness :
  let ops := [Construct 0 5; Construct 1 7; MoveAssign 0 1; MoveConstruct 2 0; ReleaseOf 2; Destroy 2; Destroy 1; Destroy 0] in
  ∃ s, fd_steps empty_store ops = Ok s ∧ closed_fds s = [5] ∧ released_fds s = [7]
    ∧ adopted ops ≡ₚ closed_fds s ++ released_fds s.
Proof.
  intros ops. assert (Hrun : ∃ s, fd_steps empty_store ops = Ok s ∧ closed_fds s = [5] ∧ released_fds s = [7] ∧ objects s = ∅)
    by (eexists; vm_compute; done).
  destruct Hrun as (s & Hrun & Hc & Hr & Ho). exists s. split_and!; [exact Hrun|exact Hc|exact Hr|].
  assert (Hn : NoDup (adopted ops)) by (apply (bool_decide_unpack _); vm_compute; exact I).
  exact (proj2 (proj2 (unique_fd_ownership ops s Hrun Hn)) Ho).
Defined.
