(* ===== verification/ByteQueue.v ===== *)
(** * The bounded byte queue (include/netfault/byte_queue.hpp)

    [ByteQueue] is a fixed-capacity ring buffer. The model keeps the storage
    vector, [head_], [size_] and [high_water_mark_]; spans are offset and
    length in the storage, so that a store through a writable span is a store
    into the vector. The queue's abstract value is its list of [contents]. *)

From Stdlib Require Import ZArith Lia.
From Stdlib Require Import Init.Byte.
From stdpp Require Import base numbers list option strings.
From S2P Require Import Prelude.

Local Open Scope Z_scope.

Record ByteQueue := mkByteQueue {
  storage_ : list byte;
  head_ : Z;
  size_ : Z;
  high_water_mark_ : Z;
}.

(** A [std::span] into the storage of a queue. *)
Record span := mkSpan { sp_offset : Z; sp_length : Z }.

(** [storage_(capacity)] is [std::vector<std::byte>(n)]: it throws
    [std::length_error] above [max_size()] (2^63 - 1) and zero-fills. *)
Definition make_ByteQueue (capacity : Z) : outcome ByteQueue :=
  _ ← throw_if (two63 <=? capacity) (LengthError "vector");
  _ ← throw_if (capacity =? 0) (InvalidArgument "ByteQueue capacity must be positive");
  Ok (mkByteQueue (replicate (Z.to_nat capacity) x00) 0 0 0).

Definition capacity (q : ByteQueue) : Z := Z.of_nat (length (storage_ q)).
Definition available (q : ByteQueue) : Z := u64_sub (capacity q) (size_ q).
Definition empty (q : ByteQueue) : bool := size_ q =? 0.
Definition full (q : ByteQueue) : bool := size_ q =? capacity q.

Definition writable_span (q : ByteQueue) : span :=
  if full q then mkSpan 0 0
  else
    let tail := u64_add (head_ q) (size_ q) mod capacity q in
    let contiguous := Z.min (available q) (u64_sub (capacity q) tail) in
    mkSpan tail contiguous.

Definition readable_span (q : ByteQueue) : span :=
  if empty q then mkSpan 0 0
  else
    let contiguous := Z.min (size_ q) (u64_sub (capacity q) (head_ q)) in
    mkSpan (head_ q) contiguous.

(** [span::first(n)]: undefined behaviour when [n] exceeds the span. *)
Definition span_first (s : span) (n : Z) : outcome span :=
  if n <=? sp_length s then Ok (mkSpan (sp_offset s) n) else Undefined.

(** Reading and writing the storage through a span. *)
Definition span_bytes (q : ByteQueue) (s : span) : list byte :=
  take (Z.to_nat (sp_length s)) (drop (Z.to_nat (sp_offset s)) (storage_ q)).

Definition span_store (q : ByteQueue) (s : span) (bs : list byte) : ByteQueue :=
  mkByteQueue (overwrite (Z.to_nat (sp_offset s)) bs (storage_ q))
    (head_ q) (size_ q) (high_water_mark_ q).

Definition commit_write (q : ByteQueue) (count : Z) : outcome ByteQueue :=
  _ ← throw_if (available q <? count)
        (OutOfRange "ByteQueue write exceeds available capacity");
  let size := u64_add (size_ q) count in
  Ok (mkByteQueue (storage_ q) (head_ q) size (Z.max (high_water_mark_ q) size)).

Definition consume (q : ByteQueue) (count : Z) : outcome ByteQueue :=
  _ ← throw_if (size_ q <? count)
        (OutOfRange "ByteQueue consume exceeds queued bytes");
  let head := u64_add (head_ q) count mod capacity q in
  let size := u64_sub (size_ q) count in
  Ok (mkByteQueue (storage_ q) (if size =? 0 then 0 else head) size (high_water_mark_ q)).

(** ** The abstract value and the invariant *)

Definition contents (q : ByteQueue) : list byte :=
  take (Z.to_nat (size_ q)) (drop (Z.to_nat (head_ q)) (storage_ q ++ storage_ q)).

Record queue_inv (q : ByteQueue) : Prop := mkQueueInv {
  qi_capacity : 0 < capacity q < two63;
  qi_head : 0 ≤ head_ q < capacity q;
  qi_size : 0 ≤ size_ q ≤ capacity q;
  qi_high_water : size_ q ≤ high_water_mark_ q ≤ capacity q;
  qi_empty : size_ q = 0 → head_ q = 0;
}.

(** [lia] on a goal about a queue that satisfies the invariant. *)
Ltac queue_lia :=
  repeat match goal with H : queue_inv _ |- _ => destruct H end;
  unfold available, empty, full, capacity in *; wrap_lia.

Section contents.
Implicit Types q : ByteQueue.

Lemma length_contents q : queue_inv q → Z.of_nat (length (contents q)) = size_ q.
Proof.
  intros I. unfold contents. rewrite length_take, length_drop, length_app. queue_lia.
Qed.

(** The i-th queued byte is at position head + i of the ring. *)
Lemma lookup_contents q (i : nat) :
  queue_inv q → Z.of_nat i < size_ q →
  contents q !! i = storage_ q !! Z.to_nat ((head_ q + Z.of_nat i) mod capacity q).
Proof.
  intros I Hi. unfold contents. rewrite lookup_take_lt, lookup_drop by lia.
  assert (0 < capacity q) by queue_lia.
  destruct (Z_lt_dec (head_ q + Z.of_nat i) (capacity q)) as [Hlt|Hge].
  - rewrite Z.mod_small by queue_lia. rewrite lookup_app_l by queue_lia. f_equal. queue_lia.
  - assert ((head_ q + Z.of_nat i) mod capacity q = head_ q + Z.of_nat i - capacity q) as ->.
    { symmetry. apply Zmod_unique with (q := 1); queue_lia. }
    rewrite lookup_app_r by queue_lia. f_equal. queue_lia.
Qed.

Lemma contents_beyond q (i : nat) : queue_inv q → size_ q ≤ Z.of_nat i → contents q !! i = None.
Proof. intros I Hi. apply lookup_ge_None. pose proof (length_contents q I). lia. Qed.

(** A list is the contents when it has the right length and elements. *)
Lemma contents_char q (l : list byte) :
  queue_inv q → Z.of_nat (length l) = size_ q →
  (∀ i : nat, Z.of_nat i < size_ q →
     storage_ q !! Z.to_nat ((head_ q + Z.of_nat i) mod capacity q) = l !! i) →
  contents q = l.
Proof.
  intros I Hl Hi. apply list_eq. intros i.
  destruct (Z_lt_dec (Z.of_nat i) (size_ q)).
  - rewrite lookup_contents by done. auto.
  - rewrite contents_beyond by (done || lia). symmetry. apply lookup_ge_None. lia.
Qed.

Lemma empty_contents q : queue_inv q → empty q = true ↔ contents q = [].
Proof.
  intros I. unfold empty. rewrite Z.eqb_eq, <-length_zero_iff_nil.
  pose proof (length_contents q I). lia.
Qed.
End contents.

(** Position in the ring, without the modulus. *)
Lemma ring_pos cap h i :
  0 < cap → 0 ≤ h < cap → 0 ≤ i ≤ cap →
  (h + i) mod cap = if h + i <? cap then h + i else h + i - cap.
Proof.
  intros. destruct (Z.ltb_spec (h + i) cap).
  - by rewrite Z.mod_small by lia.
  - symmetry. apply Zmod_unique with (q := 1); lia.
Qed.

(** ** Functional behaviour of the operations *)

Lemma make_ByteQueue_ok cap :
  0 < cap < two63 →
  succeeds (make_ByteQueue cap) (λ q, queue_inv q ∧ contents q = [] ∧ capacity q = cap
                                      ∧ size_ q = 0 ∧ high_water_mark_ q = 0).
Proof.
  intros Hcap. unfold make_ByteQueue, throw_if. case_Z; try lia. cbn.
  assert (Hc : capacity (mkByteQueue (replicate (Z.to_nat cap) x00) 0 0 0) = cap).
  { unfold capacity; cbn. rewrite length_replicate. lia. }
  split_and!; [split|..]; rewrite ?Hc; cbn; done || lia.
Qed.

Lemma make_ByteQueue_inv cap q :
  is_u64 cap → make_ByteQueue cap = Ok q → queue_inv q ∧ contents q = [] ∧ capacity q = cap.
Proof.
  intros Hu H. assert (0 < cap < two63).
  { revert H. unfold make_ByteQueue, throw_if, is_u64 in *.
    destruct (Z.leb_spec two63 cap), (Z.eqb_spec cap 0); cbn; try done; lia. }
  pose proof (make_ByteQueue_ok cap ltac:(done)) as H'. rewrite H in H'.
  destruct H' as (? & ? & ? & _). auto.
Qed.

Lemma full_spec q : full q = true ↔ size_ q = capacity q.
Proof. apply Z.eqb_eq. Qed.

Lemma available_spec q : queue_inv q → available q = capacity q - size_ q.
Proof. intros I. queue_lia. Qed.

Lemma writable_span_bounds q :
  queue_inv q →
  0 ≤ sp_offset (writable_span q) ∧ 0 ≤ sp_length (writable_span q) ∧
  sp_offset (writable_span q) + sp_length (writable_span q) ≤ capacity q ∧
  sp_length (writable_span q) ≤ capacity q - size_ q ∧
  (size_ q < capacity q → 0 < sp_length (writable_span q)) ∧
  (size_ q < capacity q → sp_offset (writable_span q) = (head_ q + size_ q) mod capacity q).
Proof.
  intros I. unfold writable_span. rewrite available_spec by done.
  destruct (full q) eqn:Hf; [apply full_spec in Hf; destruct I; cbn; lia|].
  assert (size_ q ≠ capacity q) by (rewrite <-full_spec; congruence).
  assert (0 ≤ (head_ q + size_ q) mod capacity q < capacity q)
    by (apply Z.mod_pos_bound; queue_lia).
  destruct I. wrap_unfold. rewrite (wrap64_small (head_ q + size_ q)) by lia.
  set (t := (head_ q + size_ q) mod capacity q) in *.
  wrap_simpl. cbn. lia.
Qed.

Lemma readable_span_bounds q :
  queue_inv q →
  0 ≤ sp_offset (readable_span q) ∧
  sp_offset (readable_span q) + sp_length (readable_span q) ≤ capacity q ∧
  0 ≤ sp_length (readable_span q) ≤ size_ q ∧
  (0 < size_ q → 0 < sp_length (readable_span q)) ∧
  (0 < size_ q → sp_offset (readable_span q) = head_ q).
Proof.
  intros I. unfold readable_span, empty.
  destruct (Z.eqb_spec (size_ q) 0); destruct I; cbn; wrap_simpl; lia.
Qed.

(** Storing [bs] through the writable span and committing appends [bs]. *)
Lemma write_appends q bs :
  queue_inv q →
  Z.of_nat (length bs) ≤ sp_length (writable_span q) →
  succeeds (commit_write (span_store q (writable_span q) bs) (Z.of_nat (length bs)))
    (λ q', queue_inv q' ∧ contents q' = contents q ++ bs ∧ capacity q' = capacity q
           ∧ size_ q' = size_ q + Z.of_nat (length bs)
           ∧ high_water_mark_ q' = Z.max (high_water_mark_ q) (size_ q')).
Proof.
  intros I Hbs. pose proof (writable_span_bounds q I) as (Ho & Hl & Hol & Hla & Hpos & Hoff).
  set (s := writable_span q) in *. set (q1 := span_store q s bs).
  assert (Hlen : length (storage_ q1) = length (storage_ q)).
  { apply length_overwrite. unfold capacity in *. lia. }
  assert (Hcap : capacity q1 = capacity q) by (unfold capacity; by rewrite Hlen).
  unfold commit_write, throw_if. unfold available. rewrite Hcap. cbn [size_ q1 span_store].
  assert (Hav : u64_sub (capacity q) (size_ q) = capacity q - size_ q) by queue_lia.
  rewrite Hav. case_Z; [lia|]. cbn.
  assert (Hsz : u64_add (size_ q) (Z.of_nat (length bs)) = size_ q + Z.of_nat (length bs))
    by (destruct I; wrap_lia).
  rewrite Hsz. set (q' := mkByteQueue _ _ _ _).
  assert (Hcap' : capacity q' = capacity q) by done.
  assert (I' : queue_inv q').
  { destruct I. split; rewrite ?Hcap'; cbn; lia. }
  assert (Hlc := length_contents q I). split; [done|]. split; [|done].
  apply contents_char; [done|rewrite length_app; cbn; lia|]. intros i Hi. rewrite Hcap'. cbn [storage_ head_ q' span_store].
  assert (I0 := I). destruct I0.
  rewrite lookup_overwrite by (unfold capacity in *; lia).
  cbn [size_ q'] in Hi. destruct (Z_lt_dec (Z.of_nat i) (size_ q)) as [Hlt|Hge].
  - rewrite lookup_app_l by lia.
    rewrite lookup_contents by (done || lia). rewrite decide_False; [done|].
    destruct (Z.eq_dec (size_ q) (capacity q)); [lia|].
    specialize (Hoff ltac:(lia)). rewrite Hoff in *. rewrite ring_pos in Hol by lia.
    rewrite !ring_pos by lia.
    revert Hol. case_Z; lia.
  - rewrite lookup_app_r by lia. specialize (Hoff ltac:(lia)). rewrite Hoff in *.
    rewrite ring_pos in Hol by lia.
    rewrite !ring_pos by lia. revert Hol. case_Z; intros; try lia;
      rewrite decide_True by lia; f_equal; lia.
Qed.

(** Consuming drops from the front; the storage is untouched. *)
Lemma consume_drops q n :
  queue_inv q → 0 ≤ n ≤ size_ q →
  succeeds (consume q n)
    (λ q', queue_inv q' ∧ contents q' = drop (Z.to_nat n) (contents q)
           ∧ capacity q' = capacity q ∧ size_ q' = size_ q - n
           ∧ high_water_mark_ q' = high_water_mark_ q).
Proof.
  intros I Hn. unfold consume, throw_if. destruct (Z.ltb_spec (size_ q) n); [lia|]. cbn.
  assert (Hsz : u64_sub (size_ q) n = size_ q - n) by (destruct I; wrap_lia).
  assert (Hhd : u64_add (head_ q) n = head_ q + n) by (destruct I; wrap_lia).
  rewrite Hsz, Hhd. set (q' := mkByteQueue _ _ _ _).
  assert (Hcap' : capacity q' = capacity q) by done.
  assert (Hmod : 0 ≤ (head_ q + n) mod capacity q < capacity q)
    by (apply Z.mod_pos_bound; destruct I; lia).
  assert (I' : queue_inv q').
  { destruct I. split; rewrite ?Hcap'; cbn; try lia; destruct (Z.eqb_spec (size_ q - n) 0); lia. }
  split; [done|]. split; [|done]. pose proof (length_contents q I).
  apply contents_char; [done|rewrite length_drop; cbn; lia|]. intros i Hi.
  cbn [size_ q'] in Hi.
  rewrite lookup_drop, lookup_contents by (done || lia). rewrite Hcap'.
  cbn [storage_ head_ q']. destruct (Z.eqb_spec (size_ q - n) 0); [lia|].
  rewrite Zplus_mod_idemp_l. do 3 f_equal. lia.
Qed.

(** The readable span is a non-trivial prefix of the queued bytes. *)
Lemma readable_span_prefix q :
  queue_inv q →
  span_bytes q (readable_span q) = take (Z.to_nat (sp_length (readable_span q))) (contents q).
Proof.
  intros I. pose proof (readable_span_bounds q I) as (Ho & Hol & Hl & Hpos & Hoff).
  unfold span_bytes, contents. rewrite take_take, Nat.min_l by lia.
  destruct (Z.eq_dec (size_ q) 0) as [H0|H0].
  { assert (sp_length (readable_span q) = 0) as -> by lia. done. }
  rewrite Hoff by lia. rewrite drop_app_le by (destruct I; unfold capacity in *; lia).
  rewrite take_app_le; [done|]. rewrite length_drop.
  rewrite Hoff in Hol by lia. unfold capacity in *. lia.
Qed.

Lemma commit_write_overflow q n :
  queue_inv q → capacity q - size_ q < n →
  commit_write q n = Throw (OutOfRange "ByteQueue write exceeds available capacity").
Proof.
  intros I Hn. unfold commit_write, throw_if. rewrite available_spec by done. by case_Z; try lia.
Qed.

Lemma consume_overdraw q n :
  size_ q < n → consume q n = Throw (OutOfRange "ByteQueue consume exceeds queued bytes").
Proof. intros Hn. unfold consume, throw_if. by case_Z; try lia. Qed.

(** ** Refinement of a bounded FIFO

    The abstract queue is a list of at most [cap] bytes; the observable events
    are the bytes that enter and leave. *)
Inductive queue_event := Written (bs : list byte) | ReadOut (bs : list byte).

Inductive fifo_step (cap : Z) : list byte → queue_event → list byte → Prop :=
  | fifo_write l bs :
      Z.of_nat (length (l ++ bs)) ≤ cap → fifo_step cap l (Written bs) (l ++ bs)
  | fifo_read bs l : fifo_step cap (bs ++ l) (ReadOut bs) l.

(** A client of the ring: it fills part of the writable span and commits, or
    takes bytes from the readable span and consumes them. *)
Inductive ring_step : ByteQueue → queue_event → ByteQueue → Prop :=
  | ring_write q bs q' :
      Z.of_nat (length bs) ≤ sp_length (writable_span q) →
      commit_write (span_store q (writable_span q) bs) (Z.of_nat (length bs)) = Ok q' →
      ring_step q (Written bs) q'
  | ring_read q n bs q' :
      0 ≤ n ≤ sp_length (readable_span q) →
      bs = take (Z.to_nat n) (span_bytes q (readable_span q)) →
      consume q n = Ok q' →
      ring_step q (ReadOut bs) q'.

Definition written (es : list queue_event) : list byte :=
  es ≫= λ e, match e with Written bs => bs | ReadOut _ => [] end.
Definition read_out (es : list queue_event) : list byte :=
  es ≫= λ e, match e with Written _ => [] | ReadOut bs => bs end.

Lemma ring_step_simulated q e q' :
  queue_inv q → ring_step q e q' →
  queue_inv q' ∧ capacity q' = capacity q ∧ fifo_step (capacity q) (contents q) e (contents q').
Proof.
  intros I Hs. destruct Hs as [q bs q' Hbs Hc|q n ? q' Hn -> Hc].
  - pose proof (write_appends q bs I Hbs) as H. rewrite Hc in H. cbn in H.
    destruct H as (I' & Hcon & Hcap & _). split_and!; [done..|]. rewrite Hcon. constructor.
    pose proof (length_contents q' I') as Hl. rewrite Hcon in Hl. destruct I'. lia.
  - pose proof (readable_span_bounds q I) as (_ & _ & Hl & _).
    pose proof (consume_drops q n I ltac:(lia)) as H. rewrite Hc in H. cbn in H.
    destruct H as (I' & Hcon & Hcap & _). split_and!; [done..|].
    rewrite readable_span_prefix, take_take, Nat.min_l by (done || lia).
    rewrite Hcon, <-(take_drop (Z.to_nat n) (contents q)) at 1. constructor.
Qed.

Lemma ring_steps_simulated q es q' :
  queue_inv q → lsteps ring_step q es q' →
  queue_inv q' ∧ capacity q' = capacity q
  ∧ lsteps (fifo_step (capacity q)) (contents q) es (contents q').
Proof.
  intros I Hs. induction Hs as [q|q e q1 es q2 Hs _ IH]; [split_and!; done || constructor|].
  destruct (ring_step_simulated q e q1 I Hs) as (I1 & Hc1 & Hf).
  destruct (IH I1) as (I2 & Hc2 & Hfs). rewrite Hc1 in *.
  split_and!; [done..|]. by econstructor.
Qed.

Lemma fifo_steps_stream cap l es l' :
  lsteps (fifo_step cap) l es l' → l ++ written es = read_out es ++ l'.
Proof.
  induction 1 as [l|l e l1 es l2 Hf _ IH]; [by rewrite app_nil_r|].
  destruct Hf as [l bs Hb|bs l]; cbn.
  - fold (written es). by rewrite app_assoc, IH.
  - fold (written es) (read_out es). by rewrite <-!app_assoc, <-IH.
Qed.

(** C34: the ring buffer refines a bounded FIFO. Every execution of a client
    that writes through [writable_span]/[commit_write] and reads through
    [readable_span]/[consume] is an execution of the FIFO on the queued bytes,
    and keeps the invariant and the capacity, wrap-around included. *)
Theorem ring_refines_fifo q es q' :
  queue_inv q → lsteps ring_step q es q' →
  queue_inv q' ∧ capacity q' = capacity q
  ∧ lsteps (fifo_step (capacity q)) (contents q) es (contents q').
Proof. apply ring_steps_simulated. Qed.

(** From construction on, whatever the sequence of writes and reads, the
    bytes read out followed by the bytes still queued are exactly the bytes
    written, in order, and at most the capacity is queued. *)
Theorem ring_stream_integrity cap q0 es q :
  is_u64 cap → make_ByteQueue cap = Ok q0 → lsteps ring_step q0 es q →
  written es = read_out es ++ contents q ∧ Z.of_nat (length (contents q)) ≤ cap.
Proof.
  intros Hu H0 Hs. apply make_ByteQueue_inv in H0 as (I & Hc & Hcap); [|done].
  destruct (ring_steps_simulated q0 es q I Hs) as (I' & Hcap' & Hfs).
  apply fifo_steps_stream in Hfs. rewrite Hc in Hfs. split; [done|].
  rewrite length_contents by done. destruct I'. lia.
Qed.

(** A run that wraps around the end of a four-byte ring. *)
Definition example_ring : ByteQueue :=
  mkByteQueue [x05; x06; x03; x04] 2 4 4.

Lemma example_ring_run :
  lsteps ring_step (mkByteQueue (replicate 4 x00) 0 0 0)
    [Written [x01; x02; x03]; ReadOut [x01; x02]; Written [x04]; Written [x05; x06]]
    example_ring.
Proof.
  apply (lsteps_cons _ _ _ (mkByteQueue [x01; x02; x03; x00] 0 3 3)); [by apply ring_write|].
  apply (lsteps_cons _ _ _ (mkByteQueue [x01; x02; x03; x00] 2 1 3)); [by apply ring_read with 2|].
  apply (lsteps_cons _ _ _ (mkByteQueue [x01; x02; x03; x04] 2 2 3)); [by apply ring_write|].
  apply (lsteps_cons _ _ _ example_ring); [by apply ring_write|].
  constructor.
Qed.

Lemma ring_stream_integrity_witness :
  [x01; x02; x03; x04; x05; x06] = [x01; x02] ++ contents example_ring ∧ 4 ≤ 4.
Proof.
  exact (ring_stream_integrity 4 _ _ _ ltac:(unfold is_u64; lia) eq_refl example_ring_run).
Defined.

Lemma ring_refines_fifo_witness :
  lsteps (fifo_step 4) []
    [Written [x01; x02; x03]; ReadOut [x01; x02]; Written [x04]; Written [x05; x06]]
    [x03; x04; x05; x06].
Proof.
  refine (proj2 (proj2 (ring_refines_fifo _ _ _ _ example_ring_run))).
  split; vm_compute; intuition congruence.
Defined.
