(* ===== verification/Backpressure.v ===== *)
(** * Watermark backpressure (include/netfault/backpressure.hpp)

    [BackpressureTracker] is a hysteresis over the occupancy of one byte queue:
    reads pause at the high-water mark and resume at the low-water mark. It also
    counts pauses, resumes and saturations and accumulates the paused time.
    Time points and durations are nanoseconds in [Z]. *)

From Stdlib Require Import ZArith Lia.
From stdpp Require Import base numbers list option strings.
From S2P Require Import Prelude.

Local Open Scope Z_scope.

Inductive BackpressureTransition := NoTransition | Paused | Resumed.

#[global] Instance BackpressureTransition_eq_dec : EqDecision BackpressureTransition.
Proof. solve_decision. Defined.

Record BackpressureTracker := mkTracker {
  low_water_bytes_ : Z;
  high_water_bytes_ : Z;
  read_paused_ : bool;
  at_capacity_ : bool;
  pause_started_at_ : Z;
  total_paused_ : Z;
  pause_count_ : Z;
  resume_count_ : Z;
  saturation_count_ : Z;
}.

Definition make_BackpressureTracker (low high : Z) : outcome BackpressureTracker :=
  _ ← throw_if ((high =? 0) || (high <=? low))
        (InvalidArgument "backpressure watermarks require 0 <= low < high");
  Ok (mkTracker low high false false 0 0 0 0 0).

(** The saturation edge detector at the head of [observe]. *)
Definition observe_saturation (t : BackpressureTracker) (occupancy capacity : Z)
    : BackpressureTracker :=
  if occupancy =? capacity then
    if negb (at_capacity_ t) then
      mkTracker (low_water_bytes_ t) (high_water_bytes_ t) (read_paused_ t) true
        (pause_started_at_ t) (total_paused_ t) (pause_count_ t) (resume_count_ t)
        (u64_succ (saturation_count_ t))
    else t
  else
    mkTracker (low_water_bytes_ t) (high_water_bytes_ t) (read_paused_ t) false
      (pause_started_at_ t) (total_paused_ t) (pause_count_ t) (resume_count_ t)
      (saturation_count_ t).

Definition observe (t : BackpressureTracker) (occupancy capacity now : Z)
    : outcome (BackpressureTransition * BackpressureTracker) :=
  _ ← throw_if ((capacity <? occupancy) || (capacity <? high_water_bytes_ t))
        (OutOfRange "backpressure occupancy or high-water mark exceeds capacity");
  let t := observe_saturation t occupancy capacity in
  if negb (read_paused_ t) && (high_water_bytes_ t <=? occupancy) then
    Ok (Paused,
        mkTracker (low_water_bytes_ t) (high_water_bytes_ t) true (at_capacity_ t)
          now (total_paused_ t) (u64_succ (pause_count_ t)) (resume_count_ t)
          (saturation_count_ t))
  else if read_paused_ t && (occupancy <=? low_water_bytes_ t) then
    Ok (Resumed,
        mkTracker (low_water_bytes_ t) (high_water_bytes_ t) false (at_capacity_ t)
          (pause_started_at_ t) (total_paused_ t + (now - pause_started_at_ t))
          (pause_count_ t) (u64_succ (resume_count_ t)) (saturation_count_ t))
  else Ok (NoTransition, t).

Definition paused_duration (t : BackpressureTracker) (now : Z) : Z :=
  let current_pause := if read_paused_ t then now - pause_started_at_ t else 0 in
  total_paused_ t + current_pause.

(** ** Specification: a two-threshold hysteresis *)

Definition next_paused (low high : Z) (paused : bool) (occupancy : Z) : bool :=
  if paused then low <? occupancy else high <=? occupancy.

Definition edge (before after : bool) : BackpressureTransition :=
  match before, after with
  | false, true => Paused
  | true, false => Resumed
  | _, _ => NoTransition
  end.

(** The tracker agrees with the occupancy it last saw. *)
Record tracker_inv (t : BackpressureTracker) (occupancy capacity : Z) : Prop := mkTrackerInv {
  ti_water : 0 ≤ low_water_bytes_ t < high_water_bytes_ t;
  ti_high : high_water_bytes_ t ≤ capacity;
  ti_open : read_paused_ t = false → occupancy < high_water_bytes_ t;
  ti_paused : read_paused_ t = true → low_water_bytes_ t < occupancy;
  ti_capacity : at_capacity_ t = (occupancy =? capacity);
  ti_counts : pause_count_ t = wrap64 (resume_count_ t + bool_to_Z (read_paused_ t));
}.

Lemma make_tracker_ok low high cap :
  0 ≤ low < high → high ≤ cap →
  succeeds (make_BackpressureTracker low high) (λ t,
    tracker_inv t 0 cap ∧ low_water_bytes_ t = low ∧ high_water_bytes_ t = high
    ∧ read_paused_ t = false ∧ total_paused_ t = 0).
Proof.
  intros ??. unfold make_BackpressureTracker, throw_if.
  destruct (Z.eqb_spec high 0), (Z.leb_spec high low); try lia; cbn.
  split; [split; cbn; try done; try lia|done].
  destruct cap; done || lia.
Qed.

(** [observe] on an occupancy within the capacity: it never throws, follows
    the hysteresis, reports its edges and re-establishes the invariant. *)
Lemma observe_ok t occ0 occ cap now :
  tracker_inv t occ0 cap → 0 ≤ occ ≤ cap →
  succeeds (observe t occ cap now) (λ '(tr, t'),
    tracker_inv t' occ cap
    ∧ low_water_bytes_ t' = low_water_bytes_ t ∧ high_water_bytes_ t' = high_water_bytes_ t
    ∧ read_paused_ t' = next_paused (low_water_bytes_ t) (high_water_bytes_ t) (read_paused_ t) occ
    ∧ tr = edge (read_paused_ t) (read_paused_ t')).
Proof.
  intros I Hocc. destruct t as [low high p c st tot pc rc sc]. destruct I; cbn in *.
  unfold observe, observe_saturation, throw_if; cbn.
  destruct (Z.ltb_spec cap occ), (Z.ltb_spec cap high); try lia; cbn.
  destruct (Z.eqb_spec occ cap) as [Heq|Hne], c, p; cbn;
    destruct (Z.leb_spec high occ), (Z.leb_spec occ low); cbn; try lia;
    (split_and!; [split; cbn|..]; try done; try lia);
    try (destruct (Z.ltb_spec low occ); done || lia);
    try (destruct (Z.eqb_spec occ cap); done || lia);
    subst; unfold u64_succ; rewrite ?wrap64_add_l, ?Z.add_0_r; done.
Qed.

Lemma observe_throws t occ cap now :
  cap < occ ∨ cap < high_water_bytes_ t →
  observe t occ cap now =
    Throw (OutOfRange "backpressure occupancy or high-water mark exceeds capacity").
Proof.
  intros H. unfold observe, throw_if.
  destruct (Z.ltb_spec cap occ), (Z.ltb_spec cap (high_water_bytes_ t)); done || lia.
Qed.

(** ** Histories of observations *)

(** [observe] after each change of the occupancy, as the relay calls it. *)
Fixpoint observe_all (t : BackpressureTracker) (capacity : Z) (obs : list (Z * Z))
    : outcome (list BackpressureTransition * BackpressureTracker) :=
  match obs with
  | [] => Ok ([], t)
  | (occ, now) :: obs =>
      '(tr, t) ← observe t occ capacity now;
      '(trs, t) ← observe_all t capacity obs;
      Ok (tr :: trs, t)
  end.

(** The paused time of a history, by integrating the hysteresis. *)
Fixpoint paused_integral (low high : Z) (paused : bool) (since : Z)
    (obs : list (Z * Z)) (now : Z) : Z :=
  match obs with
  | [] => if paused then now - since else 0
  | (occ, at_) :: obs =>
      (if paused then at_ - since else 0)
      + paused_integral low high (next_paused low high paused occ) at_ obs now
  end.

Lemma observe_durations t occ0 occ cap now :
  tracker_inv t occ0 cap → 0 ≤ occ ≤ cap →
  succeeds (observe t occ cap now) (λ '(_, t'),
    ∀ later, paused_duration t' later =
      paused_duration t now + (if read_paused_ t' then later - now else 0)).
Proof.
  intros I Hocc. destruct t as [low high p c st tot pc rc sc]. destruct I; cbn in *.
  unfold observe, observe_saturation, throw_if; cbn.
  destruct (Z.ltb_spec cap occ), (Z.ltb_spec cap high); try lia; cbn.
  destruct (occ =? cap), c, p; cbn; destruct (Z.leb_spec high occ), (Z.leb_spec occ low);
    try lia; cbn; intros later; unfold paused_duration; cbn; lia.
Qed.

Lemma observe_all_ok t occ0 cap obs since :
  tracker_inv t occ0 cap → Forall (λ o, 0 ≤ o.1 ≤ cap) obs →
  succeeds (observe_all t cap obs) (λ '(_, t'), ∀ now,
    paused_duration t' now = paused_duration t since
      + paused_integral (low_water_bytes_ t) (high_water_bytes_ t) (read_paused_ t) since obs now).
Proof.
  intros I Hobs. revert t occ0 since I.
  induction Hobs as [|[occ at_] obs Hocc _ IH]; intros t occ0 since I; cbn in *.
  { intros now. unfold paused_duration. destruct (read_paused_ t); lia. }
  pose proof (observe_ok t occ0 occ cap at_ I Hocc) as H1.
  pose proof (observe_durations t occ0 occ cap at_ I Hocc) as H2.
  destruct (observe t occ cap at_) as [[tr t1]| | |]; try done. cbn in *.
  destruct H1 as (I1 & Hl & Hh & Hp & _).
  specialize (IH t1 occ at_ I1). destruct (observe_all t1 cap obs) as [[trs t2]| | |]; try done.
  cbn in *. intros now. rewrite IH, H2, <-Hp, <-Hl, <-Hh.
  unfold paused_duration. destruct (read_paused_ t1), (read_paused_ t); lia.
Qed.

(** On every history of occupancies within the capacity, the tracker never
    throws and [paused_duration] is exactly the time spent paused by the
    two-threshold hysteresis. *)
Theorem paused_duration_exact low high cap t0 obs now :
  0 ≤ low < high → high ≤ cap →
  make_BackpressureTracker low high = Ok t0 →
  Forall (λ o, 0 ≤ o.1 ≤ cap) obs →
  succeeds (observe_all t0 cap obs) (λ '(_, t),
    paused_duration t now = paused_integral low high false 0 obs now).
Proof.
  intros Hw Hc H0 Hobs. pose proof (make_tracker_ok low high cap Hw Hc) as Hok.
  rewrite H0 in Hok. destruct Hok as (I & <- & <- & Hp & Ht).
  eapply succeeds_mono; [by apply (observe_all_ok t0 0 cap obs 0)|].
  intros [trs t] Hd. rewrite Hd, Hp. unfold paused_duration. rewrite Hp, Ht. done.
Qed.

Lemma paused_duration_exact_witness :
  succeeds (observe_all (mkTracker 2 8 false false 0 0 0 0 0) 10
              [(5, 100); (9, 200); (10, 250); (3, 300); (2, 400); (8, 600)])
    (λ '(_, t), paused_duration t 700 = 300).
Proof.
  apply (paused_duration_exact 2 8 10 _ [(5, 100); (9, 200); (10, 250); (3, 300); (2, 400); (8, 600)] 700);
    [lia|lia|reflexivity|repeat constructor; cbn; lia].
Defined.

(** One observation of an occupancy within the capacity moves the tracker
    by the hysteresis (pause at or above the high mark, resume at or below the
    low mark), reports exactly the edge taken, and keeps: reads open means the
    occupancy is under the high mark, paused means it is over the low mark, and
    pauses and resumes alternate (their counts differ by the open pause). *)
Theorem observe_hysteresis t occ0 occ cap now :
  tracker_inv t occ0 cap → 0 ≤ occ ≤ cap →
  succeeds (observe t occ cap now) (λ '(tr, t'),
    tracker_inv t' occ cap
    ∧ read_paused_ t' = next_paused (low_water_bytes_ t) (high_water_bytes_ t) (read_paused_ t) occ
    ∧ tr = edge (read_paused_ t) (read_paused_ t')).
Proof.
  intros I Hocc. eapply succeeds_mono; [by apply (observe_ok t occ0)|].
  intros [tr t'] (? & ? & ? & ? & ?). done.
Qed.

Lemma observe_hysteresis_witness :
  succeeds (observe (mkTracker 2 8 false false 0 0 0 0 0) 9 10 50) (λ '(tr, t'),
    tracker_inv t' 9 10 ∧ read_paused_ t' = true ∧ tr = edge false (read_paused_ t')).
Proof.
  apply (observe_hysteresis (mkTracker 2 8 false false 0 0 0 0 0) 0 9 10 50); [|lia].
  split; cbn; done || lia.
Defined.
