(* ===== verification/DelayLine.v ===== *)
(** * The delay line (include/netfault/delay_line.hpp)

    [DelayLine] records, for the bytes queued in one direction, when each may
    leave: a deque of (byte count, eligible_at) segments. Its abstract value is
    [stamps]: one eligibility time per queued byte, oldest byte first. *)

From Stdlib Require Import ZArith Lia.
From stdpp Require Import base numbers list option strings.
From S2P Require Import Prelude.

Local Open Scope Z_scope.

Record Segment := mkSegment { seg_bytes : Z; seg_eligible_at : Z }.

Record DelayLine := mkDelayLine {
  segments_ : list Segment;   (* front of the deque first *)
  pending_ : Z;
  last_eligible_ : Z;
}.

Definition empty_DelayLine : DelayLine := mkDelayLine [] 0 0.

(** Extending the last segment when its time is the same, or a new segment. *)
Definition push_segment (segs : list Segment) (bytes eligible_at : Z) : list Segment :=
  match last segs with
  | Some back =>
      if seg_eligible_at back =? eligible_at
      then removelast segs ++ [mkSegment (u64_add (seg_bytes back) bytes) (seg_eligible_at back)]
      else segs ++ [mkSegment bytes eligible_at]
  | None => segs ++ [mkSegment bytes eligible_at]
  end.

Definition on_commit (d : DelayLine) (bytes eligible_at : Z) : DelayLine :=
  if bytes =? 0 then d
  else
    let eligible_at :=
      if eligible_at <? last_eligible_ d then last_eligible_ d else eligible_at in
    mkDelayLine (push_segment (segments_ d) bytes eligible_at)
      (u64_add (pending_ d) bytes) eligible_at.

Fixpoint releasable_loop (segs : list Segment) (now total : Z) : Z :=
  match segs with
  | [] => total
  | s :: segs =>
      if now <? seg_eligible_at s then total
      else releasable_loop segs now (u64_add total (seg_bytes s))
  end.

Definition releasable (d : DelayLine) (now : Z) : Z := releasable_loop (segments_ d) now 0.

(** The [while (bytes > 0)] loop of [on_consume]. [front()] of an empty deque
    is undefined behaviour. *)
Fixpoint consume_loop (fuel : nat) (segs : list Segment) (bytes : Z) : outcome (list Segment) :=
  if 0 <? bytes then
    match fuel with
    | O => OutOfFuel
    | S fuel =>
        match segs with
        | [] => Undefined
        | front :: rest =>
            let taken := if bytes <? seg_bytes front then bytes else seg_bytes front in
            let front := mkSegment (u64_sub (seg_bytes front) taken) (seg_eligible_at front) in
            let bytes := u64_sub bytes taken in
            consume_loop fuel (if seg_bytes front =? 0 then rest else front :: rest) bytes
        end
    end
  else Ok segs.

Definition on_consume (d : DelayLine) (bytes : Z) : outcome DelayLine :=
  _ ← throw_if (pending_ d <? bytes) (OutOfRange "delay line consume exceeds pending bytes");
  segs ← consume_loop (S (length (segments_ d))) (segments_ d) bytes;
  Ok (mkDelayLine segs (u64_sub (pending_ d) bytes) (last_eligible_ d)).

Fixpoint next_eligible_loop (segs : list Segment) (now : Z) : option Z :=
  match segs with
  | [] => None
  | s :: segs =>
      if now <? seg_eligible_at s then Some (seg_eligible_at s) else next_eligible_loop segs now
  end.

Definition next_eligible (d : DelayLine) (now : Z) : option Z :=
  next_eligible_loop (segments_ d) now.

(** ** The abstract value *)

Definition segment_stamps (s : Segment) : list Z :=
  replicate (Z.to_nat (seg_bytes s)) (seg_eligible_at s).

Definition stamps_of (segs : list Segment) : list Z := segs ≫= segment_stamps.
Definition stamps (d : DelayLine) : list Z := stamps_of (segments_ d).

(** Non-decreasing stamps: the bytes become eligible in stream order. *)
Fixpoint nondecreasing (l : list Z) : Prop :=
  match l with
  | [] => True
  | x :: l => Forall (λ y, x ≤ y) l ∧ nondecreasing l
  end.

Record delay_inv (d : DelayLine) : Prop := mkDelayInv {
  di_segments : Forall (λ s, 0 < seg_bytes s) (segments_ d);
  di_pending : Z.of_nat (length (stamps d)) = pending_ d;
  di_word : pending_ d < two64;
  di_order : nondecreasing (stamps d);
  di_last : Forall (λ t, t ≤ last_eligible_ d) (stamps d);
}.

Lemma stamps_of_app a b : stamps_of (a ++ b) = stamps_of a ++ stamps_of b.
Proof. apply bind_app. Qed.

Lemma stamps_of_cons s segs : stamps_of (s :: segs) = segment_stamps s ++ stamps_of segs.
Proof. done. Qed.

Lemma length_segment_stamps s : length (segment_stamps s) = Z.to_nat (seg_bytes s).
Proof. apply length_replicate. Qed.
#[export] Hint Rewrite stamps_of_app stamps_of_cons @length_app length_segment_stamps
  : netfault_list.

Lemma nondecreasing_app l k :
  nondecreasing (l ++ k) ↔
  nondecreasing l ∧ nondecreasing k ∧ ∀ x y, x ∈ l → y ∈ k → x ≤ y.
Proof.
  induction l as [|a l IH]; cbn.
  { split; [|tauto]. intros H. split_and!; [done..|]. intros x y Hx. by apply not_elem_of_nil in Hx. }
  rewrite IH, Forall_app, !Forall_forall. split.
  - intros ((Hl & Hk) & H1 & H2 & H3). split_and!; try done. intros x y Hx Hy.
    apply elem_of_cons in Hx as [->|Hx]; auto.
  - intros ((Hl & H1) & H2 & H3). split_and!; try done.
    + intros y Hy. apply H3; [left|done].
    + intros x y Hx Hy. apply H3; [by right|done].
Qed.

Lemma nondecreasing_replicate n x : nondecreasing (replicate n x).
Proof.
  induction n as [|n IH]; cbn; [done|]. split; [|done].
  apply Forall_forall. intros y [-> _]%elem_of_replicate. lia.
Qed.

Lemma push_segment_stamps segs bytes t :
  0 ≤ bytes → Forall (λ s, 0 < seg_bytes s) segs →
  Z.of_nat (length (stamps_of segs)) + bytes < two64 →
  stamps_of (push_segment segs bytes t) = stamps_of segs ++ replicate (Z.to_nat bytes) t.
Proof.
  intros Hb Hpos Hlen. unfold push_segment.
  destruct segs as [|back segs _] using rev_ind; [cbn; unfold segment_stamps; cbn; apply app_nil_r|].
  rewrite last_snoc. apply Forall_app in Hpos as [_ [Hback _]%Forall_cons_1].
  autorewrite with netfault_list in Hlen. cbn in Hlen.
  destruct (Z.eqb_spec (seg_eligible_at back) t) as [<-|Hne].
  - rewrite removelast_last, !stamps_of_app. cbn. rewrite <-app_assoc. f_equal.
    rewrite !app_nil_r. unfold segment_stamps; cbn. rewrite <-replicate_add. f_equal.
    wrap_unfold. rewrite wrap64_small; lia.
  - rewrite stamps_of_app. cbn. by rewrite app_nil_r.
Qed.

Lemma push_segment_positive segs bytes t :
  0 < bytes → Forall (λ s, 0 < seg_bytes s) segs →
  Z.of_nat (length (stamps_of segs)) + bytes < two64 →
  Forall (λ s, 0 < seg_bytes s) (push_segment segs bytes t).
Proof.
  intros Hb Hpos Hlen. unfold push_segment.
  destruct segs as [|back segs _] using rev_ind; [by repeat constructor|].
  rewrite last_snoc. pose proof Hpos as Hpos'. apply Forall_app in Hpos' as [Hsegs [Hback _]%Forall_cons_1].
  autorewrite with netfault_list in Hlen. cbn in Hlen.
  destruct (seg_eligible_at back =? t); apply Forall_app; (split; [|repeat constructor; cbn]);
    rewrite ?removelast_last; try done.
  wrap_unfold. rewrite wrap64_small; lia.
Qed.

Lemma consume_loop_ok fuel segs bytes :
  Forall (λ s, 0 < seg_bytes s) segs → (length segs < fuel)%nat →
  0 ≤ bytes ≤ Z.of_nat (length (stamps_of segs)) → Z.of_nat (length (stamps_of segs)) < two64 →
  succeeds (consume_loop fuel segs bytes) (λ segs',
    Forall (λ s, 0 < seg_bytes s) segs'
    ∧ stamps_of segs' = drop (Z.to_nat bytes) (stamps_of segs)).
Proof.
  revert segs bytes. induction fuel as [|fuel IH]; [lia|].
  intros segs bytes Hpos Hfuel Hb Hlen. cbn [consume_loop].
  destruct (Z.ltb_spec 0 bytes); [|assert (bytes = 0) as -> by lia; done].
  destruct Hpos as [|front rest Hfront Hrest]; [cbn in Hb; lia|].
  autorewrite with netfault_list in *. cbn [length] in Hfuel.
  assert (Hrest' : Z.of_nat (length (stamps_of rest)) < two64) by lia.
  destruct (Z.ltb_spec bytes (seg_bytes front)) as [Hlt|Hge]; cbn [seg_bytes]; wrap_simpl.
  - rewrite Z.sub_diag. destruct (Z.eqb_spec (seg_bytes front - bytes) 0); [lia|].
    assert (Hstop : ∀ segs, consume_loop fuel segs 0 = Ok segs) by (by destruct fuel).
    rewrite Hstop. cbn. split; [constructor; [cbn; lia|done]|].
    autorewrite with netfault_list. rewrite drop_app_le by (rewrite length_segment_stamps; lia).
    f_equal. unfold segment_stamps; cbn. rewrite drop_replicate. f_equal. lia.
  - rewrite Z.sub_diag. cbn [Z.eqb].
    eapply succeeds_mono; [apply IH; [done|lia..]|].
    intros segs' [Hpos' Hst]. split; [done|]. rewrite Hst.
    autorewrite with netfault_list.
    rewrite drop_app_ge by (rewrite length_segment_stamps; lia).
    rewrite length_segment_stamps. f_equal. lia.
Qed.

Lemma drop_Forall_nondecreasing (l : list Z) n P :
  nondecreasing l ∧ Forall P l → nondecreasing (drop n l) ∧ Forall P (drop n l).
Proof.
  rewrite <-(take_drop n l) at 1 2. rewrite nondecreasing_app, Forall_app. tauto.
Qed.

(** ** Functional behaviour *)

Lemma empty_DelayLine_inv : delay_inv empty_DelayLine.
Proof. split; cbn; done || lia. Qed.

Lemma on_commit_ok d bytes t :
  delay_inv d → 0 ≤ bytes → pending_ d + bytes < two64 →
  delay_inv (on_commit d bytes t)
  ∧ stamps (on_commit d bytes t)
    = stamps d ++ replicate (Z.to_nat bytes) (Z.max (last_eligible_ d) t)
  ∧ pending_ (on_commit d bytes t) = pending_ d + bytes
  ∧ (0 < bytes → last_eligible_ (on_commit d bytes t) = Z.max (last_eligible_ d) t).
Proof.
  intros I Hb Hw. unfold on_commit. destruct (Z.eqb_spec bytes 0) as [->|Hne].
  { cbn. rewrite app_nil_r. split_and!; done || lia. }
  assert ((if t <? last_eligible_ d then last_eligible_ d else t) = Z.max (last_eligible_ d) t) as ->
    by (destruct (Z.ltb_spec t (last_eligible_ d)); lia).
  set (t' := Z.max (last_eligible_ d) t). destruct I as [Hpos Hpend Hword Hord Hlast].
  assert (Hst : stamps_of (push_segment (segments_ d) bytes t')
                = stamps d ++ replicate (Z.to_nat bytes) t').
  { apply push_segment_stamps; [lia|done|]. unfold stamps in *. lia. }
  assert (0 ≤ pending_ d) by lia.
  unfold stamps at 1. cbn [segments_ pending_ last_eligible_]. rewrite Hst.
  split_and!; [|done|wrap_lia|done].
  split; unfold stamps; cbn [segments_ pending_ last_eligible_]; rewrite ?Hst.
  - apply push_segment_positive; [lia|done|]. unfold stamps in *. lia.
  - rewrite length_app, length_replicate. wrap_lia.
  - wrap_lia.
  - apply nondecreasing_app. split_and!; [done|apply nondecreasing_replicate|].
    rewrite Forall_forall in Hlast. intros x y Hx [-> _]%elem_of_replicate.
    specialize (Hlast x Hx). lia.
  - apply Forall_app. split; [eapply Forall_impl; [exact Hlast|cbn; lia]|].
    apply Forall_forall. intros y [-> _]%elem_of_replicate. lia.
Qed.

Lemma on_consume_ok d bytes :
  delay_inv d → 0 ≤ bytes ≤ pending_ d →
  succeeds (on_consume d bytes) (λ d',
    delay_inv d' ∧ stamps d' = drop (Z.to_nat bytes) (stamps d)
    ∧ pending_ d' = pending_ d - bytes ∧ last_eligible_ d' = last_eligible_ d).
Proof.
  intros [Hpos Hpend Hword Hord Hlast] Hb. unfold on_consume.
  apply succeeds_throw_if; [lia|].
  eapply succeeds_bind; [apply consume_loop_ok; [done|lia|unfold stamps in *; lia..]|].
  intros segs [Hpos' Hst].
  destruct (drop_Forall_nondecreasing (stamps d) (Z.to_nat bytes) _ (conj Hord Hlast)).
  assert (Hst' : stamps (mkDelayLine segs (u64_sub (pending_ d) bytes) (last_eligible_ d))
                 = drop (Z.to_nat bytes) (stamps d)) by done.
  split_and!; [|done|cbn; wrap_lia|done].
  split; rewrite ?Hst'; try done; cbn; [|wrap_lia].
  rewrite length_drop. wrap_lia.
Qed.

Lemma releasable_loop_ok segs now total :
  Forall (λ s, 0 < seg_bytes s) segs → 0 ≤ total →
  total + Z.of_nat (length (stamps_of segs)) < two64 →
  releasable_loop segs now total =
    total + Z.of_nat (prefix_length (λ t, t <=? now) (stamps_of segs)).
Proof.
  intros Hpos. revert total. induction Hpos as [|s segs Hs _ IH]; intros total Ht Hlen; cbn; [lia|].
  autorewrite with netfault_list in Hlen. fold (stamps_of segs).
  destruct (Z.ltb_spec now (seg_eligible_at s)) as [Hlt|Hge].
  - unfold segment_stamps. destruct (Z.to_nat (seg_bytes s)) eqn:E; [lia|]. cbn.
    destruct (Z.leb_spec (seg_eligible_at s) now); lia.
  - rewrite IH by wrap_lia. rewrite prefix_length_app_all.
    + rewrite length_segment_stamps. wrap_lia.
    + apply Forall_forall. intros t [-> _]%elem_of_replicate. lia.
Qed.

Lemma releasable_ok d now :
  delay_inv d →
  releasable d now = Z.of_nat (prefix_length (λ t, t <=? now) (stamps d)).
Proof.
  intros []. unfold releasable. rewrite releasable_loop_ok; [done|done|lia|].
  unfold stamps in *. lia.
Qed.

Lemma releasable_bounds d now : delay_inv d → 0 ≤ releasable d now ≤ pending_ d.
Proof.
  intros I. rewrite releasable_ok by done. destruct I.
  pose proof (prefix_length_le (λ t, t <=? now) (stamps d)). lia.
Qed.

(** When bytes are still blocked, [next_eligible] is the stamp of the first of
    them, which lies in the future. *)
Lemma next_eligible_ok segs now :
  Forall (λ s, 0 < seg_bytes s) segs →
  next_eligible_loop segs now = stamps_of segs !! prefix_length (λ t, t <=? now) (stamps_of segs)
  ∧ (∀ w, next_eligible_loop segs now = Some w → now < w).
Proof.
  induction 1 as [|s segs Hs _ [IH1 IH2]]; cbn; [done|]. fold (stamps_of segs).
  destruct (Z.ltb_spec now (seg_eligible_at s)) as [Hlt|Hge].
  - unfold segment_stamps. destruct (Z.to_nat (seg_bytes s)) eqn:E; [lia|]. cbn.
    destruct (Z.leb_spec (seg_eligible_at s) now); [lia|]. split; [done|]. by intros w [= <-].
  - rewrite prefix_length_app_all.
    + rewrite lookup_app_r by lia. split; [|done]. rewrite IH1. f_equal. lia.
    + apply Forall_forall. intros t [-> _]%elem_of_replicate. lia.
Qed.

Lemma prefix_length_sorted l now :
  nondecreasing l →
  prefix_length (λ t, t <=? now) l = length (filter (λ t, t ≤ now) l).
Proof.
  induction l as [|x l IH]; [done|]. intros [Hx Hl]. cbn [prefix_length].
  destruct (Z.leb_spec x now).
  - rewrite filter_cons_True by done. cbn [length]. by rewrite IH.
  - rewrite filter_cons_False by lia. symmetry. apply length_zero_iff_nil.
    destruct (filter (λ t, t ≤ now) l) as [|y k] eqn:E; [done|]. exfalso.
    assert (y ∈ filter (λ t, t ≤ now) l) as [Hy Hin]%list_elem_of_filter by (rewrite E; left).
    rewrite Forall_forall in Hx. specialize (Hx y Hin). lia.
Qed.

Lemma prefix_length_lookup {A} (p : A → bool) l x :
  l !! prefix_length p l = Some x → p x = false.
Proof.
  induction l as [|y l IH]; cbn; [done|]. destruct (p y) eqn:E; cbn; [auto|]. by intros [= <-].
Qed.

Lemma prefix_length_mono l now later :
  now ≤ later →
  (prefix_length (λ t, (t <=? now)%Z) l ≤ prefix_length (λ t, (t <=? later)%Z) l)%nat.
Proof.
  intros Hle. induction l as [|x l IH]; cbn; [lia|].
  destruct (Z.leb_spec x now), (Z.leb_spec x later); lia.
Qed.

(** The prefix does not grow before the stamp at its end, and grows there. *)
Lemma prefix_length_wake l now w :
  l !! prefix_length (λ t, t <=? now) l = Some w →
  (∀ t, now ≤ t < w → prefix_length (λ x, x <=? t) l = prefix_length (λ x, x <=? now) l)
  ∧ (prefix_length (λ x, (x <=? now)%Z) l < prefix_length (λ x, (x <=? Z.max now w)%Z) l)%nat.
Proof.
  induction l as [|x l IH]; cbn; [done|].
  destruct (Z.leb_spec x now) as [Hx|Hx]; cbn.
  - intros Hw. destruct (IH Hw) as [H1 H2]. split.
    + intros t Ht. destruct (Z.leb_spec x t); [|lia]. f_equal. by apply H1.
    + destruct (Z.leb_spec x (Z.max now w)); lia.
  - intros [= ->]. split.
    + intros t Ht. destruct (Z.leb_spec w t); [lia|done].
    + destruct (Z.leb_spec w (Z.max now w)); lia.
Qed.

Lemma next_eligible_blocked d now :
  delay_inv d → releasable d now < pending_ d →
  ∃ w, next_eligible d now = Some w ∧ now < w
    ∧ (∀ t, now ≤ t < w → releasable d t = releasable d now)
    ∧ releasable d now < releasable d w.
Proof.
  intros I Hr. rewrite releasable_ok in Hr by done.
  destruct (next_eligible_ok (segments_ d) now (di_segments d I)) as [Hn Hlt].
  fold (stamps d) in Hn. assert (Hp := di_pending d I).
  destruct (lookup_lt_is_Some_2 (stamps d) (prefix_length (λ t, (t <=? now)%Z) (stamps d)))
    as [w Hw]; [lia|].
  exists w. unfold next_eligible. rewrite Hn. rewrite Hn, Hw in Hlt. specialize (Hlt w eq_refl).
  destruct (prefix_length_wake _ _ _ Hw) as [H1 H2]. rewrite Z.max_r in H2 by lia.
  split_and!; [done|done| |].
  - intros t Ht. rewrite !releasable_ok by done. by rewrite H1.
  - rewrite !releasable_ok by done. lia.
Qed.

(** ** Histories *)

Inductive delay_op := DCommit (bytes eligible_at : Z) | DConsume (bytes : Z).

Definition delay_step (d : DelayLine) (op : delay_op) : outcome DelayLine :=
  match op with
  | DCommit bytes t => Ok (on_commit d bytes t)
  | DConsume bytes => on_consume d bytes
  end.

Fixpoint delay_run (d : DelayLine) (ops : list delay_op) : outcome DelayLine :=
  match ops with
  | [] => Ok d
  | op :: ops => d ← delay_step d op; delay_run d ops
  end.

(** Stamp of every byte ever committed: the running maximum of the requests. *)
Fixpoint committed_stamps (latest : Z) (ops : list delay_op) : list Z :=
  match ops with
  | [] => []
  | DCommit bytes t :: ops =>
      let latest' := if bytes =? 0 then latest else Z.max latest t in
      replicate (Z.to_nat bytes) latest' ++ committed_stamps latest' ops
  | DConsume _ :: ops => committed_stamps latest ops
  end.

Fixpoint consumed_bytes (ops : list delay_op) : Z :=
  match ops with
  | [] => 0
  | DCommit _ _ :: ops => consumed_bytes ops
  | DConsume bytes :: ops => bytes + consumed_bytes ops
  end.

Definition op_nonneg (op : delay_op) : Prop :=
  match op with DCommit b _ | DConsume b => 0 ≤ b end.

Lemma consumed_bytes_nonneg ops : Forall op_nonneg ops → 0 ≤ consumed_bytes ops.
Proof. induction 1 as [|[b t|b] ops]; cbn in *; lia. Qed.

Lemma delay_run_ok d ops d' :
  delay_inv d → Forall op_nonneg ops →
  Z.of_nat (length (stamps d ++ committed_stamps (last_eligible_ d) ops)) < two64 →
  delay_run d ops = Ok d' →
  delay_inv d' ∧
  stamps d' = drop (Z.to_nat (consumed_bytes ops)) (stamps d ++ committed_stamps (last_eligible_ d) ops).
Proof.
  revert d. induction ops as [|op ops IH]; intros d I Hnn Hlen Hrun.
  { injection Hrun as ->. cbn. by rewrite app_nil_r. }
  apply Forall_cons_1 in Hnn as [Hop Hops]. pose proof (consumed_bytes_nonneg ops Hops).
  cbn [delay_run] in Hrun. apply bind_Ok in Hrun as (d1 & Hstep & Hrun).
  destruct op as [b t|b]; cbn [delay_step committed_stamps consumed_bytes op_nonneg] in *.
  - injection Hstep as <-. rewrite !length_app, length_replicate in Hlen.
    destruct (on_commit_ok d b t I Hop) as (I1 & Hst & Hp & Hl); [destruct I; lia|].
    assert (Hl' : last_eligible_ (on_commit d b t)
                  = if b =? 0 then last_eligible_ d else Z.max (last_eligible_ d) t).
    { destruct (Z.eqb_spec b 0) as [->|]; [done|]. apply Hl. lia. }
    assert (Hst' : stamps (on_commit d b t) = stamps d ++ replicate (Z.to_nat b)
      (if b =? 0 then last_eligible_ d else Z.max (last_eligible_ d) t)).
    { rewrite Hst. by destruct (Z.eqb_spec b 0) as [->|]. }
    destruct (IH (on_commit d b t) I1 Hops) as [I2 H2]; [|done|].
    + rewrite Hst', Hl'. rewrite !length_app, length_replicate. lia.
    + split; [done|]. rewrite H2, Hst', Hl'. by rewrite <-app_assoc.
  - assert (Hb : b ≤ pending_ d).
    { revert Hstep. unfold on_consume, throw_if. by destruct (Z.ltb_spec (pending_ d) b). }
    pose proof (on_consume_ok d b I (conj Hop Hb)) as Hc. rewrite Hstep in Hc.
    destruct Hc as (I1 & Hst & Hp & Hl). assert (Hpd := di_pending d I).
    destruct (IH d1 I1 Hops) as [I2 H2]; [|done|].
    + rewrite Hst, Hl. rewrite !length_app, length_drop in *. lia.
    + split; [done|]. rewrite H2, Hst, Hl, <-drop_app_le, drop_drop by lia. f_equal. lia.
Qed.

(** On every history of commits and consumes, whatever eligibility times
    (jitter included) are asked for, the line holds exactly the bytes committed
    and not consumed, oldest first, each stamped with the running maximum of
    the requested times; so stamps never decrease and the stream is never
    reordered. *)
Theorem delay_line_history ops d :
  Forall op_nonneg ops → Z.of_nat (length (committed_stamps 0 ops)) < two64 →
  delay_run empty_DelayLine ops = Ok d →
  stamps d = drop (Z.to_nat (consumed_bytes ops)) (committed_stamps 0 ops)
  ∧ nondecreasing (stamps d) ∧ pending_ d = Z.of_nat (length (stamps d)).
Proof.
  intros Hnn Hlen Hrun.
  destruct (delay_run_ok empty_DelayLine ops d empty_DelayLine_inv Hnn Hlen Hrun) as [I Hst].
  split_and!; [exact Hst|apply I|symmetry; apply I].
Qed.

Definition example_delay_ops : list delay_op :=
  [DCommit 2 500; DCommit 1 300; DConsume 1; DCommit 2 900; DConsume 1].

Lemma delay_line_history_witness :
  stamps (mkDelayLine [mkSegment 1 500; mkSegment 2 900] 3 900) = [500; 900; 900] ∧
  drop (Z.to_nat (consumed_bytes example_delay_ops)) (committed_stamps 0 example_delay_ops)
  = [500; 900; 900].
Proof.
  destruct (delay_line_history example_delay_ops (mkDelayLine [mkSegment 1 500; mkSegment 2 900] 3 900))
    as (H & _); [repeat constructor; cbn; lia|reflexivity|reflexivity|].
  split; [exact H|reflexivity].
Defined.

(** [releasable] counts exactly the queued bytes whose time has passed, and
    while bytes are blocked [next_eligible] is the exact next instant at which
    that number grows, strictly in the future. *)
Theorem delay_line_release d now :
  delay_inv d →
  releasable d now = Z.of_nat (length (filter (λ t, t ≤ now) (stamps d)))
  ∧ (releasable d now < pending_ d →
     ∃ w, next_eligible d now = Some w ∧ now < w
       ∧ (∀ t, now ≤ t < w → releasable d t = releasable d now)
       ∧ releasable d now < releasable d w).
Proof.
  intros I. split; [|by apply next_eligible_blocked].
  rewrite releasable_ok, prefix_length_sorted by (done || apply I). done.
Qed.

Lemma delay_line_release_witness :
  let d := mkDelayLine [mkSegment 1 500; mkSegment 2 900] 3 900 in
  releasable d 600 = 1 ∧ ∃ w, next_eligible d 600 = Some w ∧ 600 < w.
Proof.
  intros d.
  assert (I : delay_inv d).
  { split; vm_compute; try done; repeat constructor; done. }
  destruct (delay_line_release d 600 I) as [H1 H2].
  split; [exact H1|]. destruct H2 as (w & Hw & Hlt & _); [reflexivity|]. eauto.
Defined.
