(* ===== verification/TokenBucket.v ===== *)
(** * The token bucket (include/netfault/token_bucket.hpp)

    Integer token bucket on explicit time points (nanoseconds). All arithmetic
    of the code is on 64-bit unsigned words and is kept so here; [ideal_refill]
    is the same bucket over unbounded integers without the early cap. *)

From Stdlib Require Import ZArith Lia.
From stdpp Require Import base numbers list option strings.
From S2P Require Import Prelude.

Local Open Scope Z_scope.

Abbreviation giga := 1000000000 (only parsing).

Record TokenBucket := mkTokenBucket {
  rate_ : Z;
  burst_ : Z;
  tokens_ : Z;
  last_refill_ : Z;
  carry_product_ : Z;
}.

Definition make_TokenBucket (rate_bytes_per_second burst_bytes start : Z) : outcome TokenBucket :=
  _ ← throw_if ((rate_bytes_per_second =? 0) || (burst_bytes =? 0))
        (InvalidArgument "token bucket rate and burst must be positive");
  Ok (mkTokenBucket rate_bytes_per_second burst_bytes burst_bytes start 0).

(** Nanoseconds to earn [n] bytes, rounded up: the expression
    [(n * 1'000'000'000ULL + rate_ - 1) / rate_] of [refill] and [eligible_at]. *)
Definition earn_ns (b : TokenBucket) (n : Z) : Z :=
  u64_sub (u64_add (u64_mul n giga) (rate_ b)) 1 / rate_ b.

Definition refill (b : TokenBucket) (now : Z) : TokenBucket :=
  if now <=? last_refill_ b then b
  else
    let elapsed_ns := u64_of_i64 (now - last_refill_ b) in
    let missing := u64_sub (burst_ b) (tokens_ b) in
    let full_ns := earn_ns b missing in
    if u64_add (u64_add full_ns (giga / rate_ b)) 1 <=? elapsed_ns then
      mkTokenBucket (rate_ b) (burst_ b) (burst_ b) now 0
    else
      let product := u64_add (u64_mul elapsed_ns (rate_ b)) (carry_product_ b) in
      let earned := product / giga in
      let carry := product mod giga in
      let tokens := Z.min (u64_add (tokens_ b) earned) (burst_ b) in
      mkTokenBucket (rate_ b) (burst_ b) tokens now (if tokens =? burst_ b then 0 else carry).

(** [available] refills and returns the token count. *)
Definition bucket_available (b : TokenBucket) (now : Z) : Z * TokenBucket :=
  let b := refill b now in (tokens_ b, b).

Definition bucket_consume (b : TokenBucket) (bytes : Z) : outcome TokenBucket :=
  _ ← throw_if (tokens_ b <? bytes) (OutOfRange "token bucket consume exceeds available tokens");
  Ok (mkTokenBucket (rate_ b) (burst_ b) (u64_sub (tokens_ b) bytes) (last_refill_ b)
        (carry_product_ b)).

(** [nanoseconds{wait_ns}] converts the unsigned wait to a signed count. *)
Definition eligible_at (b : TokenBucket) (bytes now : Z) : Z * TokenBucket :=
  let b := refill b now in
  let target := Z.min bytes (burst_ b) in
  if target <=? tokens_ b then (now, b)
  else
    let needed := u64_sub target (tokens_ b) in
    let wait_ns := earn_ns b needed in
    (now + i64_of_u64 wait_ns, b).

(** ** The ideal bucket and the invariant *)

Definition ideal_refill (b : TokenBucket) (now : Z) : TokenBucket :=
  if now <=? last_refill_ b then b
  else
    let product := (now - last_refill_ b) * rate_ b + carry_product_ b in
    let tokens := Z.min (tokens_ b + product / giga) (burst_ b) in
    mkTokenBucket (rate_ b) (burst_ b) tokens now
      (if tokens =? burst_ b then 0 else product mod giga).

(** The largest burst for which no product of the code exceeds 64 bits. *)
Definition max_safe_burst : Z := 18446744070.

Record bucket_inv (b : TokenBucket) : Prop := mkBucketInv {
  bi_rate : 0 < rate_ b ≤ giga;
  bi_burst : 0 < burst_ b ≤ max_safe_burst;
  bi_tokens : 0 ≤ tokens_ b ≤ burst_ b;
  bi_carry : 0 ≤ carry_product_ b < giga;
  bi_full : tokens_ b = burst_ b → carry_product_ b = 0;
  bi_clock : 0 ≤ last_refill_ b;
}.

(** Readings of the steady clock: non-negative 64-bit signed counts. *)
Definition clock_time (t : Z) : Prop := 0 ≤ t < two63.

Lemma make_bucket_inv rate burst start b :
  0 ≤ rate ≤ giga → 0 ≤ burst ≤ max_safe_burst → 0 ≤ start →
  make_TokenBucket rate burst start = Ok b →
  bucket_inv b ∧ rate_ b = rate ∧ burst_ b = burst ∧ tokens_ b = burst
  ∧ last_refill_ b = start ∧ carry_product_ b = 0.
Proof.
  intros Hr Hb Hs. unfold make_TokenBucket, throw_if.
  destruct (Z.eqb_spec rate 0), (Z.eqb_spec burst 0); cbn; try done. intros [= <-].
  split_and!; [split|..]; cbn; done || lia.
Qed.

(** Rounded-up division. *)
Lemma ceil_bounds x r : 0 < r → x ≤ (x + r - 1) / r * r < x + r.
Proof.
  intros Hr. pose proof (Z.div_mod (x + r - 1) r ltac:(lia)).
  pose proof (Z.mod_pos_bound (x + r - 1) r Hr). nia.
Qed.

Lemma earn_ns_ok b n :
  bucket_inv b → 0 ≤ n ≤ burst_ b → earn_ns b n = (n * giga + rate_ b - 1) / rate_ b.
Proof. intros [] Hn. unfold earn_ns, max_safe_burst in *. wrap_simpl. done. Qed.

Lemma earn_ns_bounds b n :
  bucket_inv b → 0 ≤ n ≤ burst_ b →
  n * giga ≤ earn_ns b n * rate_ b < n * giga + rate_ b ∧ 0 ≤ earn_ns b n.
Proof.
  intros I Hn. rewrite earn_ns_ok by done. destruct I.
  pose proof (ceil_bounds (n * giga) (rate_ b) ltac:(lia)). split; [lia|].
  apply Z.div_pos; lia.
Qed.

Lemma ideal_refill_full b now :
  bucket_inv b → last_refill_ b < now →
  (burst_ b - tokens_ b) * giga ≤ (now - last_refill_ b) * rate_ b + carry_product_ b →
  ideal_refill b now = mkTokenBucket (rate_ b) (burst_ b) (burst_ b) now 0.
Proof.
  intros I Hlt H. unfold ideal_refill. destruct (Z.leb_spec now (last_refill_ b)); [lia|].
  set (p := _ + carry_product_ b) in *.
  assert (burst_ b - tokens_ b ≤ p / giga) by (apply Z.div_le_lower_bound; lia).
  rewrite Z.min_r by lia. by rewrite Z.eqb_refl.
Qed.

(** The early cap and the 64-bit arithmetic change nothing. *)
Lemma refill_ideal b now :
  bucket_inv b → clock_time now → refill b now = ideal_refill b now.
Proof.
  intros I Hnow. assert (I0 := I). destruct I0. unfold clock_time, max_safe_burst in *.
  unfold refill. destruct (Z.leb_spec now (last_refill_ b)) as [|Hlt].
  { unfold ideal_refill. by destruct (Z.leb_spec now (last_refill_ b)); [|lia]. }
  assert (Hm : u64_sub (burst_ b) (tokens_ b) = burst_ b - tokens_ b) by wrap_lia.
  assert (He : u64_of_i64 (now - last_refill_ b) = now - last_refill_ b) by wrap_lia.
  rewrite Hm, He. set (e := now - last_refill_ b) in *.
  pose proof (earn_ns_bounds b (burst_ b - tokens_ b) I ltac:(lia)) as [Hf Hf0].
  set (f := earn_ns b _) in *.
  pose proof (Z.div_mod giga (rate_ b) ltac:(lia)) as Hg.
  pose proof (Z.mod_pos_bound giga (rate_ b) ltac:(lia)) as Hgm.
  set (g := giga / rate_ b) in *.
  assert (Hg0 : 0 ≤ g) by (apply Z.div_pos; lia).
  assert (Hfb : f * 1 ≤ f * rate_ b) by (apply Z.mul_le_mono_nonneg_l; lia).
  assert (Hgb : g * 1 ≤ g * rate_ b) by (apply Z.mul_le_mono_nonneg_l; lia).
  assert (Hcap : u64_add (u64_add f g) 1 = f + g + 1) by wrap_lia.
  rewrite Hcap. destruct (Z.leb_spec (f + g + 1) e) as [Hfast|Hslow].
  - symmetry. apply ideal_refill_full; [done|done|]. fold e.
    assert (f * rate_ b ≤ e * rate_ b) by (apply Z.mul_le_mono_nonneg_r; lia). lia.
  - assert (He2 : e * rate_ b ≤ (f + g) * rate_ b) by (apply Z.mul_le_mono_nonneg_r; lia).
    assert (0 ≤ e * rate_ b) by (apply Z.mul_nonneg_nonneg; lia).
    assert (Hp : u64_add (u64_mul e (rate_ b)) (carry_product_ b) = e * rate_ b + carry_product_ b)
      by wrap_lia.
    rewrite Hp. unfold ideal_refill. destruct (Z.leb_spec now (last_refill_ b)); [lia|]. fold e.
    set (p := e * rate_ b + carry_product_ b) in *.
    assert (0 ≤ p / giga ≤ p) by (split; [apply Z.div_pos; lia|apply Z.div_le_upper_bound; lia]).
    assert (Hps : p / giga ≤ two64 - 1 - burst_ b) by (apply Z.div_le_upper_bound; lia).
    assert (Ht : u64_add (tokens_ b) (p / giga) = tokens_ b + p / giga) by wrap_lia.
    by rewrite Ht.
Qed.

Lemma ideal_refill_inv b now :
  bucket_inv b →
  bucket_inv (ideal_refill b now) ∧ rate_ (ideal_refill b now) = rate_ b
  ∧ burst_ (ideal_refill b now) = burst_ b
  ∧ last_refill_ (ideal_refill b now) = Z.max (last_refill_ b) now
  ∧ tokens_ b ≤ tokens_ (ideal_refill b now).
Proof.
  intros I. unfold ideal_refill. destruct (Z.leb_spec now (last_refill_ b)) as [|Hlt].
  { split_and!; done || lia. }
  destruct I. cbn. set (p := _ + carry_product_ b).
  assert (0 ≤ p) by (unfold p; nia).
  assert (0 ≤ p / giga) by (apply Z.div_pos; lia).
  pose proof (Z.mod_pos_bound p giga ltac:(lia)).
  split_and!; [split; cbn|..]; try lia;
    destruct (Z.eqb_spec (Z.min (tokens_ b + p / giga) (burst_ b)) (burst_ b)); lia.
Qed.

Lemma refill_inv b now :
  bucket_inv b → clock_time now →
  bucket_inv (refill b now) ∧ rate_ (refill b now) = rate_ b ∧ burst_ (refill b now) = burst_ b
  ∧ last_refill_ (refill b now) = Z.max (last_refill_ b) now ∧ tokens_ b ≤ tokens_ (refill b now).
Proof. intros I Hn. rewrite refill_ideal by done. by apply ideal_refill_inv. Qed.

Lemma bucket_consume_ok b n :
  bucket_inv b → 0 ≤ n ≤ tokens_ b →
  succeeds (bucket_consume b n) (λ b',
    bucket_inv b' ∧ tokens_ b' = tokens_ b - n ∧ rate_ b' = rate_ b ∧ burst_ b' = burst_ b
    ∧ last_refill_ b' = last_refill_ b ∧ carry_product_ b' = carry_product_ b).
Proof.
  intros I Hn. assert (I0 := I). destruct I0. unfold max_safe_burst in *. unfold bucket_consume.
  apply succeeds_throw_if; [lia|]. cbn.
  assert (Hs : u64_sub (tokens_ b) n = tokens_ b - n) by wrap_lia. rewrite Hs.
  split_and!; try done. split; cbn; try done; try lia.
Qed.

Lemma bucket_overdraw b n :
  tokens_ b < n →
  bucket_consume b n = Throw (OutOfRange "token bucket consume exceeds available tokens").
Proof. intros H. unfold bucket_consume, throw_if. by destruct (Z.ltb_spec (tokens_ b) n); [|lia]. Qed.

Lemma ideal_refill_compose b t1 t2 :
  bucket_inv b → t1 ≤ t2 → ideal_refill (ideal_refill b t1) t2 = ideal_refill b t2.
Proof.
  intros I H12. destruct (Z.leb_spec t1 (last_refill_ b)) as [H1|H1].
  { f_equal. unfold ideal_refill. by destruct (Z.leb_spec t1 (last_refill_ b)); [|lia]. }
  destruct (Z.eq_dec t1 t2) as [<-|Hne].
  { destruct (ideal_refill_inv b t1 I) as (_ & _ & _ & Hl & _).
    unfold ideal_refill at 1. by destruct (Z.leb_spec t1 (last_refill_ (ideal_refill b t1))); [|lia]. }
  destruct (ideal_refill_inv b t1 I) as (I1 & Hr1 & Hb1 & Hl1 & _).
  destruct (Z_le_dec (burst_ b - tokens_ b)
              (((t1 - last_refill_ b) * rate_ b + carry_product_ b) / giga)) as [Hsat|Hun].
  - assert (Hs : (burst_ b - tokens_ b) * giga ≤ (t1 - last_refill_ b) * rate_ b + carry_product_ b).
    { pose proof (Z.mul_div_le ((t1 - last_refill_ b) * rate_ b + carry_product_ b) giga). lia. }
    assert (He1 : ideal_refill b t1 = mkTokenBucket (rate_ b) (burst_ b) (burst_ b) t1 0)
      by (by apply ideal_refill_full).
    destruct I. rewrite He1 in *. rewrite !ideal_refill_full; try done; cbn; try lia; nia.
  - unfold ideal_refill at 2. destruct (Z.leb_spec t1 (last_refill_ b)); [lia|].
    unfold ideal_refill. cbn [last_refill_ rate_ burst_ tokens_ carry_product_].
    destruct (Z.leb_spec t2 t1), (Z.leb_spec t2 (last_refill_ b)); try lia.
    set (p1 := (t1 - _) * _ + _) in *.
    rewrite (Z.min_l (tokens_ b + p1 / giga)) by lia.
    destruct (Z.eqb_spec (tokens_ b + p1 / giga) (burst_ b)); [lia|].
    set (p2 := (t2 - t1) * rate_ b + p1 mod giga).
    assert (Hp : (t2 - last_refill_ b) * rate_ b + carry_product_ b = p2 + (p1 / giga) * giga).
    { unfold p2. pose proof (Z.div_mod p1 giga ltac:(lia)). unfold p1 in *. nia. }
    rewrite Hp, Z.div_add, Z.mod_add by lia.
    assert (Ht : tokens_ b + p1 / giga + p2 / giga = tokens_ b + (p2 / giga + p1 / giga)) by lia.
    by rewrite Ht.
Qed.

(** [level]: tokens and carry together, in byte-nanoseconds per second. *)
Definition level (b : TokenBucket) : Z := tokens_ b * giga + carry_product_ b.

Lemma level_bounds b : bucket_inv b → 0 ≤ level b ≤ burst_ b * giga.
Proof. intros []. unfold level. destruct (Z.eq_dec (tokens_ b) (burst_ b)); lia. Qed.

Lemma ideal_refill_level b now :
  bucket_inv b →
  level (ideal_refill b now)
    ≤ level b + rate_ b * (last_refill_ (ideal_refill b now) - last_refill_ b)
  ∧ (tokens_ (ideal_refill b now) < burst_ b →
     level (ideal_refill b now)
       = level b + rate_ b * (last_refill_ (ideal_refill b now) - last_refill_ b)).
Proof.
  intros I. unfold ideal_refill. destruct (Z.leb_spec now (last_refill_ b)); [lia|].
  cbn [last_refill_ tokens_]. unfold level. cbn [tokens_ carry_product_].
  set (p := _ + carry_product_ b).
  pose proof (Z.div_mod p giga ltac:(lia)). pose proof (Z.mod_pos_bound p giga ltac:(lia)).
  destruct I. destruct (Z.eqb_spec (Z.min (tokens_ b + p / giga) (burst_ b)) (burst_ b)); lia.
Qed.

(** ** Histories: take [n] bytes at time [now] *)

Fixpoint bucket_run (b : TokenBucket) (ops : list (Z * Z)) : outcome TokenBucket :=
  match ops with
  | [] => Ok b
  | (now, n) :: ops =>
      let '(_, b) := bucket_available b now in
      b ← bucket_consume b n;
      bucket_run b ops
  end.

Definition bytes_taken (ops : list (Z * Z)) : Z := sum_Z (ops.*2).

(** The bucket is below its burst at every refill of the history. *)
Fixpoint never_full (b : TokenBucket) (ops : list (Z * Z)) : Prop :=
  match ops with
  | [] => True
  | (now, n) :: ops =>
      let b := refill b now in
      tokens_ b < burst_ b ∧
      never_full (mkTokenBucket (rate_ b) (burst_ b) (tokens_ b - n) (last_refill_ b)
                    (carry_product_ b)) ops
  end.

Lemma bucket_consume_Ok b n b' :
  bucket_inv b → 0 ≤ n → bucket_consume b n = Ok b' →
  b' = mkTokenBucket (rate_ b) (burst_ b) (tokens_ b - n) (last_refill_ b) (carry_product_ b)
  ∧ bucket_inv b' ∧ n ≤ tokens_ b.
Proof.
  intros I Hn H. destruct (Z_lt_dec (tokens_ b) n); [by rewrite bucket_overdraw in H by done|].
  pose proof (bucket_consume_ok b n I ltac:(lia)) as Hok. rewrite H in Hok.
  destruct Hok as (I' & Ht & Hr & Hb & Hl & Hc). split_and!; [|done|lia].
  destruct b'; cbn in *. by subst.
Qed.

Lemma bucket_run_level b ops b' :
  bucket_inv b → Forall (λ o, clock_time o.1 ∧ 0 ≤ o.2) ops → bucket_run b ops = Ok b' →
  bucket_inv b' ∧ burst_ b' = burst_ b ∧ rate_ b' = rate_ b
  ∧ level b' + bytes_taken ops * giga ≤ level b + rate_ b * (last_refill_ b' - last_refill_ b)
  ∧ (never_full b ops →
     level b' + bytes_taken ops * giga = level b + rate_ b * (last_refill_ b' - last_refill_ b)).
Proof.
  revert b. induction ops as [|[now n] ops IH]; intros b I Hops Hrun.
  { injection Hrun as <-. unfold bytes_taken; cbn. split_and!; done || lia. }
  apply Forall_cons_1 in Hops as [[Hnow Hn] Hops]. cbn [fst snd] in *. cbn in Hrun.
  destruct (refill_inv b now I Hnow) as (I1 & Hr1 & Hb1 & _ & _).
  destruct (ideal_refill_level b now I) as [Hle Heq]. rewrite <-refill_ideal in Hle, Heq by done.
  destruct (bucket_consume (refill b now) n) as [b2| | |] eqn:Hc; try done.
  apply bucket_consume_Ok in Hc as (Hb2 & I2 & Hle2); [|done|done].
  destruct (IH b2 I2 Hops Hrun) as (I' & Hb' & Hr' & Hle' & Heq').
  assert (Hlev : level b2 = level (refill b now) - n * giga) by (rewrite Hb2; unfold level; cbn; lia).
  assert (Hl2 : last_refill_ b2 = last_refill_ (refill b now)) by (by rewrite Hb2).
  assert (Hr2 : rate_ b2 = rate_ b) by (by rewrite Hb2).
  assert (Hbt : bytes_taken ((now, n) :: ops) = n + bytes_taken ops) by done.
  rewrite Hbt, Hr2, Hlev, Hl2 in *. split_and!; [done|by rewrite Hb', Hb2|by rewrite Hr'|lia|].
  intros [Hnf Hnfs]. cbn zeta in *. rewrite <-Hb2 in Hnfs. rewrite Hb1 in Hnf.
  specialize (Heq Hnf). specialize (Heq' Hnfs). lia.
Qed.


(** Refill cadence does not matter: refilling at an intermediate time and
    then at a later one gives exactly the bucket of a single refill at the
    later time, sub-byte carry included. *)
Theorem refill_cadence b t1 t2 :
  bucket_inv b → clock_time t1 → clock_time t2 → t1 ≤ t2 →
  refill (refill b t1) t2 = refill b t2.
Proof.
  intros I H1 H2 H12. destruct (refill_inv b t1 I H1) as (I1 & _).
  rewrite (refill_ideal (refill b t1)) by done. rewrite !refill_ideal by done.
  by apply ideal_refill_compose.
Qed.

(** With a burst of at most 18446744070 bytes and a rate of at most 10^9,
    the 64-bit refill with its early cap computes the same bucket as the exact
    refill over unbounded integers. *)
Theorem refill_no_overflow b now :
  bucket_inv b → clock_time now →
  refill b now = ideal_refill b now ∧ bucket_inv (refill b now).
Proof. intros I Hn. split; [by apply refill_ideal|]. by apply refill_inv. Qed.

(** A drained 3 bytes/s bucket, as in the unit test of the carry. *)
Definition drained_bucket : TokenBucket := mkTokenBucket 3 1000 0 1000 0.

Lemma drained_bucket_inv : bucket_inv drained_bucket.
Proof. split; cbn; unfold max_safe_burst; lia. Qed.


Lemma refill_cadence_witness :
  refill (refill drained_bucket 500000000) 2000000000 = refill drained_bucket 2000000000.
Proof.
  apply (refill_cadence drained_bucket); [apply drained_bucket_inv|unfold clock_time; lia..|lia].
Defined.

Lemma refill_no_overflow_witness :
  refill drained_bucket 2000000000 = mkTokenBucket 3 1000 5 2000000000 999997000 ∧
  refill drained_bucket 2000000000 = ideal_refill drained_bucket 2000000000.
Proof.
  split; [reflexivity|].
  apply (refill_no_overflow drained_bucket); [apply drained_bucket_inv|unfold clock_time; lia].
Defined.

(** ** [eligible_at] *)

(** Requests whose wait fits a signed 64-bit count (any request of the relay,
    which asks for at most 4096 bytes). *)
Definition max_wait_bytes : Z := 9223372035.

Lemma earn_enough b n t :
  bucket_inv b → 0 ≤ n ≤ burst_ b - tokens_ b → last_refill_ b < t →
  earn_ns b n ≤ t - last_refill_ b →
  tokens_ b + n ≤ tokens_ (ideal_refill b t).
Proof.
  intros I Hn Ht He. pose proof (earn_ns_bounds b n I ltac:(destruct I; lia)) as [Hf Hf0].
  unfold ideal_refill. destruct (Z.leb_spec t (last_refill_ b)); [lia|]. cbn [tokens_].
  destruct I. set (p := _ + carry_product_ b).
  assert (n * giga ≤ p) by (unfold p; nia).
  assert (n ≤ p / giga) by (apply Z.div_le_lower_bound; lia). lia.
Qed.

Lemma ideal_refill_past b t : t ≤ last_refill_ b → ideal_refill b t = b.
Proof. intros H. unfold ideal_refill. by destruct (Z.leb_spec t (last_refill_ b)); [|lia]. Qed.

Lemma eligible_at_ok b n now :
  bucket_inv b → clock_time now → last_refill_ b ≤ now → 0 ≤ n ≤ max_wait_bytes →
  let '(w, b1) := eligible_at b n now in
  b1 = refill b now
  ∧ (Z.min n (burst_ b) ≤ tokens_ b1 → w = now)
  ∧ (tokens_ b1 < Z.min n (burst_ b) → now < w
     ∧ (w - now) * rate_ b < (Z.min n (burst_ b) - tokens_ b1) * giga + rate_ b)
  ∧ (clock_time w → Z.min n (burst_ b) ≤ tokens_ (refill b w)).
Proof.
  intros I Hnow Hlast Hn. destruct (refill_inv b now I Hnow) as (I1 & Hr1 & Hb1 & Hl1 & Ht1).
  unfold eligible_at. rewrite Hb1. set (b1 := refill b now) in *.
  destruct (Z.leb_spec (Z.min n (burst_ b)) (tokens_ b1)) as [Hle|Hgt].
  { split_and!; [done|done|lia|]. intros _. fold b1. lia. }
  assert (Hneed : u64_sub (Z.min n (burst_ b)) (tokens_ b1) = Z.min n (burst_ b) - tokens_ b1).
  { destruct I1. unfold max_wait_bytes in *. wrap_lia. }
  rewrite Hneed. set (need := Z.min n (burst_ b) - tokens_ b1) in *.
  assert (Hneed_b : 0 < need ≤ burst_ b1 - tokens_ b1) by lia.
  destruct (earn_ns_bounds b1 need I1 ltac:(destruct I1; lia)) as [He He0].
  assert (Hw : i64_of_u64 (earn_ns b1 need) = earn_ns b1 need).
  { unfold i64_of_u64. assert (earn_ns b1 need < two63); [|by destruct (Z.ltb_spec (earn_ns b1 need) two63); [|lia]].
    unfold max_wait_bytes in *. destruct I1.
    assert (earn_ns b1 need * 1 ≤ earn_ns b1 need * rate_ b1) by (apply Z.mul_le_mono_nonneg_l; lia). nia. }
  rewrite Hw. set (e := earn_ns b1 need) in *.
  assert (0 < e) by (destruct I1; nia).
  split_and!; [done|lia|intros _; rewrite <-Hr1; split; [lia|]; lia|].
  intros Hcw. assert (Hcomp : refill b (now + e) = ideal_refill b1 (now + e)).
  { unfold b1. rewrite !refill_ideal by done. symmetry. apply ideal_refill_compose; [done|lia]. }
  rewrite Hcomp. pose proof (earn_enough b1 need (now + e) I1 ltac:(lia) ltac:(lia)) as H'.
  fold e in H'. specialize (H' ltac:(lia)). lia.
Qed.

(** [eligible_at] is [now] exactly when enough tokens exist, otherwise a
    strictly later time; the wait is the rounded-up earning time, and at that
    time the tokens do exist: a caller that sleeps until then never finds too
    few. *)
Theorem eligible_at_sufficient b n now :
  bucket_inv b → clock_time now → last_refill_ b ≤ now → 0 ≤ n ≤ max_wait_bytes →
  let w := (eligible_at b n now).1 in
  let have := tokens_ (refill b now) in
  (Z.min n (burst_ b) ≤ have → w = now)
  ∧ (have < Z.min n (burst_ b) →
     now < w ∧ (w - now) * rate_ b < (Z.min n (burst_ b) - have) * giga + rate_ b)
  ∧ (clock_time w → Z.min n (burst_ b) ≤ (bucket_available b w).1).
Proof.
  intros I Hnow Hlast Hn. pose proof (eligible_at_ok b n now I Hnow Hlast Hn) as H.
  destruct (eligible_at b n now) as [w b1]. destruct H as (-> & H1 & H2 & H3). done.
Qed.

Lemma eligible_at_sufficient_witness :
  (eligible_at drained_bucket 5 1000).1 = 1666667667 ∧
  5 ≤ (bucket_available drained_bucket 1666667667).1.
Proof.
  split; [reflexivity|].
  refine (proj2 (proj2 (eligible_at_sufficient drained_bucket 5 1000 drained_bucket_inv _ _ _)) _);
    cbn; unfold clock_time, max_wait_bytes; try lia.
  vm_compute. split; done.
Defined.

(** [eligible_at] is not the earliest such time: it ignores the sub-byte
    carry. A 3 bytes/s bucket that was drained and then left for 333333333 ns
    has its next byte one nanosecond later, and is told to wait 333333334 ns. *)
Theorem eligible_at_not_earliest :
  ∃ b0 b now,
    make_TokenBucket 3 1000 0 = Ok b0 ∧ bucket_run b0 [(0, 1000); (now, 0)] = Ok b
    ∧ (eligible_at b 1 now).1 = now + 333333334
    ∧ (bucket_available b (now + 1)).1 = 1.
Proof.
  exists (mkTokenBucket 3 1000 1000 0 0), (mkTokenBucket 3 1000 0 333333333 999999999), 333333333.
  repeat split.
Qed.
