(* ===== verification/FaultRng.v ===== *)
(** * Deterministic fault randomness (include/netfault/fault_rng.hpp)

    SplitMix64 on 64-bit words, the derivation of per-connection and
    per-direction seeds, the unit-interval sample (an IEEE binary64, computed
    with the standard library's executable specification of floats) and the
    jitter sample. *)

From Stdlib Require Import ZArith Lia SpecFloat.
From stdpp Require Import base numbers list option strings.
From S2P Require Import Prelude.

Local Open Scope Z_scope.

Definition kSplitMix64Gamma : Z := 0x9E3779B97F4A7C15.
Definition mix_multiplier_1 : Z := 0xBF58476D1CE4E5B9.
Definition mix_multiplier_2 : Z := 0x94D049BB133111EB.

(** [value ^ (value >> k)] *)
Definition xorshift (k value : Z) : Z := Z.lxor value (Z.shiftr value k).

Definition splitmix64_mix (value : Z) : Z :=
  let value := u64_add value kSplitMix64Gamma in
  let value := u64_mul (xorshift 30 value) mix_multiplier_1 in
  let value := u64_mul (xorshift 27 value) mix_multiplier_2 in
  xorshift 31 value.

Record SplitMix64 := mkSplitMix64 { state_ : Z }.

Definition next (rng : SplitMix64) : Z * SplitMix64 :=
  let value := splitmix64_mix (state_ rng) in
  (value, mkSplitMix64 (u64_add (state_ rng) kSplitMix64Gamma)).

Definition derive_connection_seed (master_seed connection_id : Z) : Z :=
  splitmix64_mix (Z.lxor (splitmix64_mix master_seed) connection_id).

Definition derive_direction_seed (connection_seed direction_index : Z) : Z :=
  splitmix64_mix (Z.lxor connection_seed (u64_add direction_index 1)).

(** ** Doubles *)

Abbreviation double := spec_float.
Definition double_of_u64 (n : Z) : double := binary_normalize 53 1024 n 0 false.
Definition double_zero : double := S754_zero false.
Definition double_one : double := double_of_u64 1.
(** The literal [0x1.0p-53]. *)
Definition double_2_m53 : double := binary_normalize 53 1024 1 (-53) false.

Definition sample_unit_interval (random_bits : Z) : double :=
  SFmul 53 1024 (double_of_u64 (Z.shiftr random_bits 11)) double_2_m53.

Definition sample_jitter (rng : SplitMix64) (jitter : Z) : Z * SplitMix64 :=
  if jitter <=? 0 then (0, rng)
  else
    let range := u64_add (u64_mul (u64_of_i64 jitter) 2) 1 in
    let '(bits, rng) := next rng in
    let offset := i64_of_u64 (bits mod range) in
    (offset - jitter, rng).

(** ** Words *)

Lemma lxor_u64 a b : is_u64 a → is_u64 b → is_u64 (Z.lxor a b).
Proof.
  intros [Ha Ha'] [Hb Hb']. split; [by apply Z.lxor_nonneg|].
  destruct (Z.eq_dec (Z.lxor a b) 0) as [->|Hne]; [lia|].
  assert (Hpos : 0 < Z.lxor a b) by (pose proof (proj2 (Z.lxor_nonneg a b)); lia).
  change two64 with (2 ^ 64). apply Z.log2_lt_pow2; [done|].
  pose proof (Z.log2_lxor a b Ha Hb).
  assert (Hlog : ∀ x, 0 ≤ x < two64 → Z.log2 x < 64).
  { intros x Hx. destruct (Z.eq_dec x 0) as [->|]; [done|]. apply Z.log2_lt_pow2; lia. }
  pose proof (Hlog a ltac:(lia)). pose proof (Hlog b ltac:(lia)). lia.
Qed.

Lemma shiftr_u64 k a : 0 ≤ k → is_u64 a → is_u64 (Z.shiftr a k).
Proof.
  intros Hk [Ha Ha']. split; [by apply Z.shiftr_nonneg|].
  rewrite Z.shiftr_div_pow2 by done. apply Z.div_lt_upper_bound; [lia|]. nia.
Qed.

Lemma xorshift_u64 k a : 0 ≤ k → is_u64 a → is_u64 (xorshift k a).
Proof. intros. apply lxor_u64; [done|]. by apply shiftr_u64. Qed.

Lemma wrap64_u64 z : is_u64 (wrap64 z).
Proof. apply wrap64_range. Qed.

Lemma splitmix64_mix_u64 value : is_u64 (splitmix64_mix value).
Proof. apply xorshift_u64; [lia|]. apply wrap64_u64. Qed.
#[export] Hint Resolve lxor_u64 shiftr_u64 xorshift_u64 wrap64_u64 splitmix64_mix_u64 : netfault.

(** A word that equals its own right shift is zero. *)
Lemma xorshift_inj k a b :
  0 < k → is_u64 a → is_u64 b → xorshift k a = xorshift k b → a = b.
Proof.
  intros Hk Ha Hb H. apply Z.lxor_eq. set (d := Z.lxor a b).
  assert (Hd : d = Z.shiftr d k).
  { unfold d. rewrite Z.shiftr_lxor. apply Z.lxor_eq.
    transitivity (Z.lxor (xorshift k a) (xorshift k b)).
    - unfold xorshift. rewrite !Z.lxor_assoc. f_equal.
      rewrite <-!Z.lxor_assoc. f_equal. apply Z.lxor_comm.
    - rewrite H. apply Z.lxor_nilpotent. }
  assert (Hd0 : 0 ≤ d) by (apply lxor_u64; done).
  rewrite Z.shiftr_div_pow2 in Hd by lia.
  destruct (Z.eq_dec d 0); [done|].
  assert (2 ^ 1 ≤ 2 ^ k) by (apply Z.pow_le_mono_r; lia).
  pose proof (Z.div_lt d (2 ^ k) ltac:(lia) ltac:(lia)). lia.
Qed.

(** Multiplication by a word with an inverse is injective. *)
Lemma u64_mul_inj c c' a b :
  wrap64 (c * c') = 1 → is_u64 a → is_u64 b → u64_mul a c = u64_mul b c → a = b.
Proof.
  intros Hc Ha Hb H. unfold u64_mul in H.
  assert (Hinv : ∀ x, is_u64 x → wrap64 (wrap64 (x * c) * c') = x).
  { intros x Hx. unfold wrap64 in *. rewrite Zmult_mod_idemp_l, <-Z.mul_assoc.
    rewrite <-Zmult_mod_idemp_r, Hc, Z.mul_1_r. by apply Z.mod_small. }
  rewrite <-(Hinv a Ha), <-(Hinv b Hb). by rewrite H.
Qed.

Lemma u64_add_inj c a b :
  is_u64 a → is_u64 b → u64_add a c = u64_add b c → a = b.
Proof.
  intros Ha Hb H. unfold u64_add, wrap64 in H.
  assert (Hm : (a - b) mod two64 = 0).
  { replace (a - b) with (a + c - (b + c)) by lia. rewrite Zminus_mod, H, Z.sub_diag. done. }
  unfold is_u64 in *. apply Z.mod_divide in Hm as [q Hq]; [|lia]. nia.
Qed.

Lemma splitmix64_mix_inj a b :
  is_u64 a → is_u64 b → splitmix64_mix a = splitmix64_mix b → a = b.
Proof.
  intros Ha Hb H. unfold splitmix64_mix in H.
  apply xorshift_inj in H; [|lia|apply wrap64_u64..].
  apply (u64_mul_inj _ 3573116690164977347) in H; [|reflexivity|apply xorshift_u64; [lia|apply wrap64_u64]..].
  apply xorshift_inj in H; [|lia|apply wrap64_u64..].
  apply (u64_mul_inj _ 10871156337175269513) in H; [|reflexivity|apply xorshift_u64; [lia|apply wrap64_u64]..].
  apply xorshift_inj in H; [|lia|apply wrap64_u64..].
  by apply u64_add_inj in H.
Qed.

(** ** Streams *)

Fixpoint advance (rng : SplitMix64) (n : nat) : SplitMix64 :=
  match n with
  | O => rng
  | S n => advance (next rng).2 n
  end.

(** The i-th number drawn from a stream. *)
Definition draw (seed : Z) (i : nat) : Z := (next (advance (mkSplitMix64 seed) i)).1.

Lemma advance_state rng n :
  is_u64 (state_ rng) →
  state_ (advance rng n) = wrap64 (state_ rng + Z.of_nat n * kSplitMix64Gamma).
Proof.
  revert rng. induction n as [|n IH]; intros rng Hr; cbn [advance].
  - rewrite Z.add_0_r. symmetry. by apply wrap64_small.
  - rewrite IH by apply wrap64_u64. cbn [next snd state_]. unfold u64_add.
    rewrite wrap64_add_l. f_equal. lia.
Qed.

(** ** Doubles: the sample is exact *)

Lemma iter_pos_iter {A : Type} (f : A → A) (n : positive) (x : A) : SpecFloat.iter_pos f n x = Pos.iter f x n.
Proof.
  revert x. induction n as [n IH|n IH|]; intros x; cbn; [|by rewrite !IH|done].
  rewrite !IH. by rewrite !Pos.iter_swap.
Qed.

Lemma digits2_iter_xO m k : digits2_pos (Pos.iter xO m k) = (digits2_pos m + k)%positive.
Proof.
  induction k as [|k IH] using Pos.peano_ind.
  - cbn. lia.
  - rewrite Pos.iter_succ. cbn [digits2_pos]. rewrite IH. lia.
Qed.

Lemma shr_iter_xO m k :
  SpecFloat.iter_pos shr_1 k (Build_shr_record (Zpos (Pos.iter xO m k)) false false)
  = Build_shr_record (Zpos m) false false.
Proof.
  rewrite iter_pos_iter. induction k as [|k IH] using Pos.peano_ind; [done|].
  rewrite Pos.iter_succ_r, Pos.iter_succ. exact IH.
Qed.

Lemma iter_xO_value m k : Zpos (Pos.iter xO m k) = Zpos m * 2 ^ Zpos k.
Proof.
  induction k as [|k IH] using Pos.peano_ind; [cbn; lia|].
  rewrite Pos.iter_succ, Pos2Z.inj_succ, Z.pow_succ_r by lia. lia.
Qed.

Lemma digits2_bounds m :
  2 ^ (Zpos (digits2_pos m) - 1) ≤ Zpos m < 2 ^ Zpos (digits2_pos m).
Proof.
  induction m as [m IH|m IH|]; [| |done]; cbn [digits2_pos];
    replace (Zpos (Pos.succ (digits2_pos m))) with (1 + Zpos (digits2_pos m)) by lia;
    replace (1 + Zpos (digits2_pos m) - 1) with (1 + (Zpos (digits2_pos m) - 1)) by lia;
    rewrite !Z.pow_add_r by lia; lia.
Qed.

(** A mantissa of exactly 53 digits is left alone by the rounding. *)
Lemma round_aux_exact s m e :
  Zpos (digits2_pos m) = 53 → -1074 ≤ e ≤ 971 →
  binary_round_aux 53 1024 s (Zpos m) e loc_Exact = S754_finite s m e.
Proof.
  intros Hd He. unfold binary_round_aux.
  assert (Hshr : shr_fexp 53 1024 (Zpos m) e loc_Exact = (Build_shr_record (Zpos m) false false, e)).
  { unfold shr_fexp. cbn [Zdigits2]. rewrite Hd. unfold fexp, emin.
    replace (Z.max (53 + e - 53) (3 - 1024 - 53) - e) with 0 by lia. done. }
  rewrite Hshr. cbn [shr_m loc_of_shr_record round_nearest_even]. rewrite Hshr. cbn [shr_m].
  destruct (Z.leb_spec e (1024 - 53)); [done|lia].
Qed.

Definition norm53 (m : positive) : positive :=
  match (53 - Zpos (digits2_pos m))%Z with Zpos k => Pos.iter xO m k | _ => m end.

Lemma norm53_spec m :
  Zpos (digits2_pos m) ≤ 53 →
  Zpos (digits2_pos (norm53 m)) = 53
  ∧ Zpos (norm53 m) = Zpos m * 2 ^ (53 - Zpos (digits2_pos m)).
Proof.
  intros Hd. unfold norm53. destruct (53 - Zpos (digits2_pos m)) as [|k|k] eqn:E; try lia.
  rewrite digits2_iter_xO, iter_xO_value. lia.
Qed.

Lemma double_of_u64_small m :
  Zpos (digits2_pos m) ≤ 53 →
  double_of_u64 (Zpos m) = S754_finite false (norm53 m) (Zpos (digits2_pos m) - 53).
Proof.
  intros Hd. destruct (norm53_spec m Hd) as [Hn _].
  unfold double_of_u64, binary_normalize, binary_round, fexp, emin.
  replace (Z.max (Zpos (digits2_pos m) + 0 - 53) (3 - 1024 - 53)) with (Zpos (digits2_pos m) - 53) by lia.
  unfold shl_align. rewrite Z.sub_0_r.
  assert (Hsh : match Zpos (digits2_pos m) - 53 with
                | Zneg d => (Pos.iter xO m d, Zpos (digits2_pos m) - 53)
                | _ => (m, 0) end = (norm53 m, Zpos (digits2_pos m) - 53)).
  { unfold norm53. destruct (Zpos (digits2_pos m) - 53) as [|k|k] eqn:E.
    - by replace (53 - Zpos (digits2_pos m)) with 0 by lia.
    - lia.
    - by replace (53 - Zpos (digits2_pos m)) with (Zpos k) by lia. }
  rewrite Hsh. apply round_aux_exact; [done|lia].
Qed.

(** The sample of the top 53 bits [k] is the double of value k / 2^53. *)
Lemma sample_unit_interval_exact bits m :
  is_u64 bits → Z.shiftr bits 11 = Zpos m →
  sample_unit_interval bits = S754_finite false (norm53 m) (Zpos (digits2_pos m) - 106)
  ∧ Zpos (digits2_pos m) ≤ 53.
Proof.
  intros [Hb Hb'] Hm.
  assert (Hd : Zpos (digits2_pos m) ≤ 53).
  { pose proof (digits2_bounds m) as [Hlo _]. rewrite <-Hm, Z.shiftr_div_pow2 in Hlo by lia.
    assert (bits / 2 ^ 11 < 2 ^ 53) by (apply Z.div_lt_upper_bound; lia).
    apply Z.lt_pred_le, (Z.pow_lt_mono_r_iff 2); lia. }
  split; [|done]. destruct (norm53_spec m Hd) as [Hn _].
  unfold sample_unit_interval. rewrite Hm, double_of_u64_small by done.
  change double_2_m53 with (S754_finite false 4503599627370496 (-105)).
  unfold SFmul. cbn [xorb].
  assert (Hmul : (norm53 m * 4503599627370496)%positive = Pos.iter xO (norm53 m) 52)
    by (by rewrite Pos.mul_comm).
  rewrite Hmul. unfold binary_round_aux at 1.
  assert (Hshr : shr_fexp 53 1024 (Zpos (Pos.iter xO (norm53 m) 52))
                   (Zpos (digits2_pos m) - 53 + -105) loc_Exact
                 = (Build_shr_record (Zpos (norm53 m)) false false, Zpos (digits2_pos m) - 106)).
  { unfold shr_fexp. cbn [Zdigits2]. rewrite digits2_iter_xO, Pos2Z.inj_add, Hn. unfold fexp, emin.
    replace (Z.max (53 + 52 + (Zpos (digits2_pos m) - 53 + -105) - 53) (3 - 1024 - 53)
             - (Zpos (digits2_pos m) - 53 + -105)) with 52 by lia.
    cbn [shr shr_record_of_loc]. rewrite shr_iter_xO. f_equal. lia. }
  rewrite Hshr. cbn [shr_m loc_of_shr_record round_nearest_even].
  pose proof (round_aux_exact false (norm53 m) (Zpos (digits2_pos m) - 106) Hn ltac:(lia)) as Hr.
  unfold binary_round_aux in Hr. unfold shr_fexp in Hr at 1 |- *.
  cbn [Zdigits2 shr_record_of_loc] in *.
  rewrite Hn in *. unfold fexp, emin in *.
  replace (Z.max (53 + (Zpos (digits2_pos m) - 106) - 53) (3 - 1024 - 53)
           - (Zpos (digits2_pos m) - 106)) with 0 in * by lia.
  cbn [shr shr_m] in *. destruct (Z.leb_spec (Zpos (digits2_pos m) - 106) (1024 - 53)); [done|lia].
Qed.

Lemma sample_below_one bits :
  is_u64 bits →
  SFleb double_zero (sample_unit_interval bits) = true
  ∧ SFltb (sample_unit_interval bits) double_one = true.
Proof.
  intros Hb. assert (Hpos : 0 ≤ Z.shiftr bits 11) by (apply Z.shiftr_nonneg; apply Hb).
  destruct (Z.shiftr bits 11) as [|m|m] eqn:E; [|  |lia].
  - unfold sample_unit_interval. rewrite E. done.
  - destruct (sample_unit_interval_exact bits m Hb E) as [-> Hd]. split; [done|].
    change double_one with (S754_finite false 4503599627370496 (-52)).
    unfold SFltb, SFcompare. destruct (Z.compare_spec (Zpos (digits2_pos m) - 106) (-52)); lia || done.
Qed.

Lemma next_state_u64 rng : is_u64 (state_ (next rng).2).
Proof. apply wrap64_u64. Qed.

Lemma sample_jitter_ok rng jitter :
  jitter < two63 / 2 →
  let '(s, rng') := sample_jitter rng jitter in
  (0 < jitter → - jitter ≤ s ≤ jitter ∧ rng' = (next rng).2)
  ∧ (jitter ≤ 0 → s = 0 ∧ rng' = rng).
Proof.
  intros Hj. change (two63 / 2) with 4611686018427387904 in Hj. unfold sample_jitter.
  destruct (Z.leb_spec jitter 0); [split; [lia|done]|].
  assert (Hr : u64_add (u64_mul (u64_of_i64 jitter) 2) 1 = 2 * jitter + 1) by wrap_lia.
  rewrite Hr. destruct (next rng) as [bits rng'] eqn:E. split; [|lia]. intros _.
  pose proof (Z.mod_pos_bound bits (2 * jitter + 1) ltac:(lia)).
  unfold i64_of_u64. destruct (Z.ltb_spec (bits mod (2 * jitter + 1)) two63); [|lia]. split; [lia|done].
Qed.

(** ** Seed derivation *)

Lemma mix_lxor_inj a b c :
  is_u64 a → is_u64 b → is_u64 c →
  splitmix64_mix (Z.lxor a b) = splitmix64_mix (Z.lxor a c) → b = c.
Proof.
  intros Ha Hb Hc H. apply splitmix64_mix_inj in H; [|by apply lxor_u64..].
  rewrite <-(Z.lxor_0_l b), <-(Z.lxor_0_l c), <-(Z.lxor_nilpotent a), !Z.lxor_assoc. by rewrite H.
Qed.

Lemma connection_seed_inj master id1 id2 :
  is_u64 id1 → is_u64 id2 →
  derive_connection_seed master id1 = derive_connection_seed master id2 → id1 = id2.
Proof.
  intros H1 H2. unfold derive_connection_seed. generalize (splitmix64_mix_u64 master).
  generalize (splitmix64_mix master). intros s Hs. by apply mix_lxor_inj.
Qed.

Lemma direction_seeds_differ seed :
  is_u64 seed → derive_direction_seed seed 0 ≠ derive_direction_seed seed 1.
Proof.
  intros Hs H. assert (E : u64_add 0 1 = u64_add 1 1).
  { revert H. unfold derive_direction_seed. generalize (wrap64_u64 (0 + 1)) (wrap64_u64 (1 + 1)).
    fold (u64_add 0 1) (u64_add 1 1). generalize (u64_add 0 1) (u64_add 1 1).
    intros. by apply (mix_lxor_inj seed). }
  discriminate E.
Qed.

Lemma direction_seed_inj seed1 seed2 index :
  is_u64 seed1 → is_u64 seed2 → is_u64 index →
  derive_direction_seed seed1 index = derive_direction_seed seed2 index → seed1 = seed2.
Proof.
  intros H1 H2 Hi. unfold derive_direction_seed. rewrite !(Z.lxor_comm _ (u64_add index 1)).
  apply mix_lxor_inj; [apply wrap64_u64|done..].
Qed.

(** ** Properties *)

(** Seed derivation never confuses streams. For every master seed, two
    connections have different connection seeds; for every connection, its two
    directions have different seeds; and a direction seed determines the
    connection seed it came from. *)
Theorem derived_seeds_distinct :
  (∀ master id1 id2, is_u64 id1 → is_u64 id2 →
     derive_connection_seed master id1 = derive_connection_seed master id2 → id1 = id2)
  ∧ (∀ seed, is_u64 seed → derive_direction_seed seed 0 ≠ derive_direction_seed seed 1)
  ∧ (∀ seed1 seed2 index, is_u64 seed1 → is_u64 seed2 → is_u64 index →
       derive_direction_seed seed1 index = derive_direction_seed seed2 index → seed1 = seed2).
Proof.
  split_and!; [apply connection_seed_inj|apply direction_seeds_differ|apply direction_seed_inj].
Qed.

(** A SplitMix64 stream does not repeat within its period: among the first
    2^64 draws from any seed, two draws at different positions differ. *)
Theorem splitmix64_stream_distinct seed i j :
  is_u64 seed → Z.of_nat i < two64 → Z.of_nat j < two64 →
  draw seed i = draw seed j → i = j.
Proof.
  intros Hs Hi Hj H. unfold draw, next in H. cbn [fst] in H.
  rewrite !advance_state in H by done. cbn [state_] in H.
  apply splitmix64_mix_inj in H; [|apply wrap64_u64..].
  assert (Hg : u64_mul (wrap64 (Z.of_nat i)) kSplitMix64Gamma = u64_mul (wrap64 (Z.of_nat j)) kSplitMix64Gamma).
  { unfold u64_mul. rewrite (wrap64_small (Z.of_nat i)), (wrap64_small (Z.of_nat j)) by lia.
    apply (u64_add_inj seed); [apply wrap64_u64..|]. unfold u64_add.
    rewrite !wrap64_add_l, !(Z.add_comm _ seed). done. }
  apply (u64_mul_inj _ 17428512612931826493) in Hg; [|reflexivity|apply wrap64_u64..].
  rewrite !wrap64_small in Hg by lia. lia.
Qed.

Lemma splitmix64_stream_distinct_witness : draw 7 0 ≠ draw 7 3.
Proof.
  intros H. apply (splitmix64_stream_distinct 7 0 3) in H; [discriminate|split; done..|done|done].
Defined.

(** The unit-interval sample of any 64-bit word is a double in [0, 1), and
    is exact: no rounding occurs, so its value is the top 53 bits over 2^53. *)
Theorem sample_unit_interval_range bits :
  is_u64 bits →
  SFleb double_zero (sample_unit_interval bits) = true
  ∧ SFltb (sample_unit_interval bits) double_one = true
  ∧ (∀ m e, sample_unit_interval bits = S754_finite false m e →
       e ≤ -53 ∧ Zpos m = Z.shiftr bits 11 * 2 ^ (-53 - e)).
Proof.
  intros Hb. destruct (sample_below_one bits Hb) as [H0 H1]. split_and!; [done..|].
  intros m e Heq. assert (Hpos : 0 ≤ Z.shiftr bits 11) by (apply Z.shiftr_nonneg; apply Hb).
  destruct (Z.shiftr bits 11) as [|k|k] eqn:E; [|  |lia].
  { unfold sample_unit_interval in Heq. rewrite E in Heq. discriminate. }
  destruct (sample_unit_interval_exact bits k Hb E) as [Hs Hd]. rewrite Hs in Heq.
  injection Heq as <- <-. destruct (norm53_spec k Hd) as [_ ->]. split; [lia|]. do 2 f_equal. lia.
Qed.

Lemma sample_unit_interval_range_witness :
  SFltb (sample_unit_interval 18446744073709551615) double_one = true.
Proof. apply (sample_unit_interval_range 18446744073709551615). split; done. Defined.

(** A jitter sample stays within [-jitter, +jitter] and draws exactly one
    number; a zero jitter samples zero and leaves the stream untouched. *)
Theorem sample_jitter_bounds rng jitter :
  jitter < two63 / 2 →
  let '(s, rng') := sample_jitter rng jitter in
  (0 < jitter → - jitter ≤ s ≤ jitter ∧ rng' = (next rng).2)
  ∧ (jitter ≤ 0 → s = 0 ∧ rng' = rng).
Proof. apply sample_jitter_ok. Qed.

Lemma sample_jitter_bounds_witness :
  (sample_jitter (mkSplitMix64 99) 5000000).1 = 3490996 ∧
  -5000000 ≤ (sample_jitter (mkSplitMix64 99) 5000000).1 ≤ 5000000.
Proof.
  split; [reflexivity|].
  pose proof (sample_jitter_bounds (mkSplitMix64 99) 5000000 ltac:(reflexivity)) as H.
  destruct (sample_jitter (mkSplitMix64 99) 5000000) as [s r]. apply H. lia.
Defined.
