(* ===== verification/FloatText.v ===== *)
(** * Reading doubles (std::from_chars for double)

    The standard's pattern for [std::chars_format::general]: an optional minus
    sign, then a decimal number with an optional exponent, "inf", "infinity" or
    "nan" in either case. The value is the correctly rounded binary64; a number
    outside the range of the type gives [result_out_of_range] and leaves the
    variable alone. *)

From Stdlib Require Import ZArith Lia Ascii String SpecFloat.
From stdpp Require Import base numbers list option strings.
From S2P Require Import Prelude Text FaultRng.

Local Open Scope Z_scope.

(** A letter in lower case. *)
Definition lower (c : ascii) : ascii :=
  let n := N_of_ascii c in
  if ((65 <=? n) && (n <=? 90))%N then ascii_of_N (n + 32) else c.

(** The text after [word], in either case. *)
Fixpoint after_word (word text : string) : option string :=
  match word, text with
  | EmptyString, _ => Some text
  | String w word, String c text => if decide (lower c = w) then after_word word text else None
  | String _ _, EmptyString => None
  end.

(** The n-char-sequence of [nan(...)], with its closing parenthesis. *)
Definition is_word_char (c : ascii) : bool :=
  is_digit c || bool_decide (c = "_"%char) || ((97 <=? N_of_ascii (lower c)) && (N_of_ascii (lower c) <=? 122))%N.
Fixpoint after_parenthesis (text : string) : option string :=
  match text with
  | String c text => if decide (c = ")"%char) then Some text else if is_word_char c then after_parenthesis text else None
  | EmptyString => None
  end.

(** ["e"], a sign and digits; anything else leaves the text as it is. *)
Definition read_exponent (text : string) : Z * string :=
  match text with
  | String c rest =>
      if decide (lower c = "e"%char) then
        let '(negative, digits_text) :=
          match rest with
          | String "-" r => (true, r)
          | String "+" r => (false, r)
          | _ => (false, rest)
          end in
        let '(digits, after) := span_digits digits_text in
        if decide (digits = "") then (0, text)
        else ((if negative then - decimal 0 digits else decimal 0 digits), after)
      else (0, text)
  | EmptyString => (0, text)
  end.

(** The binary64 nearest to mantissa times 10 to the exponent. *)
Definition round_decimal (negative : bool) (mantissa exponent : Z) : double :=
  if mantissa =? 0 then S754_zero negative
  else if 0 <=? exponent then
    binary_normalize 53 1024 ((if negative then - mantissa else mantissa) * 10 ^ exponent) 0 negative
  else
    let '(quotient, e, location) := SFdiv_core_binary 53 1024 mantissa 0 (10 ^ (- exponent)) 0 in
    binary_round_aux 53 1024 negative quotient e location.

(** The magnitude was too large or too small. *)
Definition unrepresentable (mantissa : Z) (d : double) : bool :=
  match d with
  | S754_infinity _ => true
  | S754_zero _ => negb (mantissa =? 0)
  | _ => false
  end.

Definition from_chars_double (value : double) (text : string) : errc * double * string :=
  let '(negative, body) := match text with String "-" rest => (true, rest) | _ => (false, text) end in
  match after_word "infinity" body, after_word "inf" body, after_word "nan" body with
  | Some rest, _, _ => (NoError, S754_infinity negative, rest)
  | None, Some rest, _ => (NoError, S754_infinity negative, rest)
  | None, None, Some rest =>
      let rest := match rest with
                  | String "(" inner => match after_parenthesis inner with Some r => r | None => rest end
                  | _ => rest
                  end in
      (NoError, S754_nan, rest)
  | None, None, None =>
      let '(whole, rest) := span_digits body in
      let '(fraction, rest) := match rest with String "." r => span_digits r | _ => ("", rest) end in
      if decide (whole +:+ fraction = "") then (InvalidArgumentError, value, text)
      else
        let '(exponent, rest) := read_exponent rest in
        let mantissa := decimal 0 (whole +:+ fraction) in
        let result := round_decimal negative mantissa (exponent - string_size fraction) in
        if unrepresentable mantissa result then (ResultOutOfRange, value, rest)
        else (NoError, result, rest)
  end.

(** ** Checks *)

Example read_half : from_chars_double double_zero "0.5" = (NoError, SFdiv 53 1024 double_one (double_of_u64 2), "").
Proof. by vm_compute. Qed.
Example read_tenth : from_chars_double double_zero "1e-1x" = (NoError, SFdiv 53 1024 double_one (double_of_u64 10), "x").
Proof. by vm_compute. Qed.
Example read_point : from_chars_double double_one "." = (InvalidArgumentError, double_one, ".").
Proof. by vm_compute. Qed.
Example read_huge : from_chars_double double_one "1e400" = (ResultOutOfRange, double_one, "").
Proof. by vm_compute. Qed.
Example read_nan : from_chars_double double_one "-NaN(7)" = (NoError, S754_nan, "").
Proof. by vm_compute. Qed.
