(* ===== verification/FloatRounding.v ===== *)
(** * Rounding to nearest in binary64

    What [binary_round_aux], the rounding of the reference semantics of doubles,
    does to an exact result of more than 53 bits: the nearest 53-bit mantissa. *)

From Stdlib Require Import ZArith Lia SpecFloat.
From stdpp Require Import base numbers.
From S2P Require Import Prelude FaultRng.

Local Open Scope Z_scope.

(** A shift record of the mantissa [m] shifted by [j]: the quotient, and where
    the remainder lies with respect to half of the divisor. *)
Definition shifted (m j : Z) (r : shr_record) : Prop :=
  ∃ rest, m = shr_m r * 2 ^ j + rest ∧ 0 ≤ rest < 2 ^ j ∧ 0 ≤ shr_m r
    ∧ match shr_r r, shr_s r with
      | false, false => rest = 0
      | false, true => 0 < 2 * rest < 2 ^ j
      | true, false => 2 * rest = 2 ^ j
      | true, true => 2 ^ j < 2 * rest
      end.

Lemma shifted_exact m : 0 ≤ m → shifted m 0 (Build_shr_record m false false).
Proof. intros Hm. exists 0. cbn. lia. Qed.

(** One more position: the lost bit [b] of the quotient goes to the remainder. *)
Lemma shifted_bit m j rest (r s b : bool) quotient :
  0 ≤ j → m = (2 * quotient + bool_to_Z b) * 2 ^ j + rest → 0 ≤ rest < 2 ^ j → 0 ≤ quotient →
  match r, s with
  | false, false => rest = 0
  | false, true => 0 < 2 * rest < 2 ^ j
  | true, false => 2 * rest = 2 ^ j
  | true, true => 2 ^ j < 2 * rest
  end →
  shifted m (j + 1) (Build_shr_record quotient b (r || s)).
Proof.
  intros Hj Hm Hr Hq Hrs. exists (bool_to_Z b * 2 ^ j + rest). cbn [shr_m shr_r shr_s].
  rewrite Z.pow_add_r by lia. unfold bool_to_Z in *. destruct b, r, s; cbn in *; lia.
Qed.

Lemma shifted_step m j r : 0 ≤ j → shifted m j r → shifted m (j + 1) (shr_1 r).
Proof.
  intros Hj (rest & Hm & Hr & Hq & Hrs). destruct r as [quotient r s]. cbn [shr_m shr_r shr_s] in *.
  destruct quotient as [|[p|p|]|p]; [| | | |lia]; cbn [shr_1].
  - apply (shifted_bit m j rest r s false 0); cbn; auto; lia.
  - apply (shifted_bit m j rest r s true (Zpos p)); auto; cbn [bool_to_Z]; try lia.
  - apply (shifted_bit m j rest r s false (Zpos p)); auto; cbn [bool_to_Z]; try lia.
  - apply (shifted_bit m j rest r s true 0); auto; cbn [bool_to_Z]; try lia.
Qed.

Lemma shifted_iter p m j r : 0 ≤ j → shifted m j r → shifted m (j + Zpos p) (SpecFloat.iter_pos shr_1 p r).
Proof.
  revert j r. induction p as [p IH|p IH|]; intros j r Hj Hs; cbn [SpecFloat.iter_pos].
  - replace (j + Zpos p~1) with (j + 1 + Zpos p + Zpos p) by lia. apply IH; [lia|]. apply IH; [lia|]. by apply shifted_step.
  - replace (j + Zpos p~0) with (j + Zpos p + Zpos p) by lia. apply IH; [lia|]. by apply IH.
  - by apply shifted_step.
Qed.

Lemma shifted_rounded m j r :
  shifted m j r →
  let rounded := round_nearest_even (shr_m r) (loc_of_shr_record r) in
  2 * Z.abs (rounded * 2 ^ j - m) ≤ 2 ^ j ∧ shr_m r ≤ rounded ≤ shr_m r + 1.
Proof.
  intros (rest & -> & Hr & Hq & Hrs). destruct r as [quotient [] []]; cbn [shr_m shr_r shr_s loc_of_shr_record round_nearest_even] in *;
    try (destruct (Z.even quotient)); lia.
Qed.

Lemma digits2_unique m n : 2 ^ (n - 1) ≤ Zpos m < 2 ^ n → 0 < n → Zpos (digits2_pos m) = n.
Proof.
  intros [Hlo Hhi] Hn. pose proof (digits2_bounds m) as [Hlo' Hhi'].
  assert (n - 1 < Zpos (digits2_pos m)) by (apply (Z.pow_lt_mono_r_iff 2); lia).
  assert (Zpos (digits2_pos m) - 1 < n) by (apply (Z.pow_lt_mono_r_iff 2); lia). lia.
Qed.

(** The exponent of a result in the normal range leaves 53 bits. *)
Lemma fexp_normal e : -1021 ≤ e → fexp 53 1024 e = e - 53.
Proof. unfold fexp, emin. lia. Qed.

(** The rounded mantissa, once more put in 53 bits if it became 2^53. *)
Lemma round_aux_second rounded e :
  2 ^ 52 ≤ rounded ≤ 2 ^ 53 → -1000 ≤ e ≤ 900 →
  ∃ mantissa e',
    (let '(r, e'') := shr_fexp 53 1024 rounded e loc_Exact in
     match shr_m r with
     | Z0 => S754_zero false
     | Zpos m => if e'' <=? 1024 - 53 then S754_finite false m e'' else S754_infinity false
     | _ => S754_nan
     end) = S754_finite false mantissa e'
    ∧ e ≤ e' ≤ e + 1 ∧ Zpos mantissa * 2 ^ (e' - e) = rounded.
Proof.
  intros Hr He. destruct (decide (rounded = 2 ^ 53)) as [->|Hlt].
  - exists 4503599627370496%positive, (e + 1). unfold shr_fexp.
    change (Zdigits2 (2 ^ 53)) with 54. rewrite fexp_normal by lia. replace (54 + e - 53 - e) with 1 by lia.
    cbn -[Z.leb Z.pow]. destruct (Z.leb_spec (e + 1) (1024 - 53)); [|lia]. replace (e + 1 - e) with 1 by lia. split; [done|]. split; [lia|done].
  - destruct rounded as [|m|m]; [lia| |lia]. exists m, e. unfold shr_fexp. cbn [Zdigits2].
    rewrite (digits2_unique m 53) by lia. rewrite fexp_normal by lia. replace (53 + e - 53 - e) with 0 by lia.
    cbn -[Z.leb Z.pow]. destruct (Z.leb_spec e (1024 - 53)); [|lia]. rewrite Z.sub_diag. split; [done|]. split; [lia|]. lia.
Qed.

(** A positive mantissa of more than 53 bits is rounded to a nearest one: the
    value of the result is that of [rounded] at the exponent [e + shift], off
    the exact value by at most half a unit. *)
Lemma round_aux_nearest m e :
  let shift := Zpos (digits2_pos m) - 53 in
  0 < shift → -1000 ≤ e + shift ≤ 900 →
  ∃ mantissa e' rounded,
    binary_round_aux 53 1024 false (Zpos m) e loc_Exact = S754_finite false mantissa e'
    ∧ e + shift ≤ e' ≤ e + shift + 1 ∧ Zpos mantissa * 2 ^ (e' - (e + shift)) = rounded
    ∧ 2 * Z.abs (rounded * 2 ^ shift - Zpos m) ≤ 2 ^ shift.
Proof.
  intros shift Hs He. unfold binary_round_aux.
  assert (Hf : fexp 53 1024 (Zdigits2 (Zpos m) + e) - e = shift).
  { cbn [Zdigits2]. rewrite fexp_normal by (unfold shift in *; lia). unfold shift. lia. }
  unfold shr_fexp at 1. rewrite Hf. destruct shift as [|p|p] eqn:Hshift; [lia| |lia]. cbn [shr shr_record_of_loc].
  pose proof (shifted_iter p (Zpos m) 0 _ ltac:(lia) (shifted_exact (Zpos m) ltac:(lia))) as Hsh. rewrite Z.add_0_l in Hsh.
  set (r := SpecFloat.iter_pos shr_1 p _) in *. pose proof (shifted_rounded _ _ _ Hsh) as [Herr Hr]. cbv zeta in Herr, Hr.
  set (rounded := round_nearest_even (shr_m r) (loc_of_shr_record r)) in *.
  assert (Hq : 2 ^ 52 ≤ shr_m r < 2 ^ 53).
  { destruct Hsh as (rest & Hm & Hrest & Hq & _). pose proof (digits2_bounds m) as [Hlo Hhi].
    replace (Zpos (digits2_pos m) - 1) with (52 + Zpos p) in Hlo by (unfold shift in Hshift; lia).
    replace (Zpos (digits2_pos m)) with (53 + Zpos p) in Hhi by (unfold shift in Hshift; lia).
    rewrite Z.pow_add_r in Hlo, Hhi by lia. nia. }
  destruct (round_aux_second rounded (e + Zpos p)) as (mantissa & e' & Heq & He' & Hv); [lia|lia|].
  exists mantissa, e', rounded. split; [exact Heq|]. split; [lia|]. split; [exact Hv|exact Herr].
Qed.
