(* ===== verification/CommandLine.v ===== *)
(** * The argument loops of the programs

    The three programs read their arguments the same way: a chain of comparisons
    on the argument, [require_value] for the value that follows it, the help, and
    an exception for anything else. The chain is a table here; each program has
    its own. *)

From Stdlib Require Import ZArith Lia Ascii String.
From stdpp Require Import base numbers list option strings.
From S2P Require Import Prelude.

Local Open Scope Z_scope.

(** What an option does to the variables of [main]: with the value that follows
    it, or by itself. *)
Inductive CliOption (S : Type) :=
  | Valued (f : string → outcome (S → S))
  | Switch (f : S → S).
Arguments Valued {S} f.
Arguments Switch {S} f.

Definition EXIT_SUCCESS : Z := 0.
Definition EXIT_FAILURE : Z := 1.

Section arguments.
Context {S : Type}.
Implicit Types (table : list (string * CliOption S)) (o : CliOption S) (st : S).

Fixpoint option_for (table : list (string * CliOption S)) (argument : string) : option (CliOption S) :=
  match table with
  | [] => None
  | (name, o) :: table => if decide (argument = name) then Some o else option_for table argument
  end.

(** The loop over the arguments; [None] when the help was asked for. *)
Fixpoint parse_arguments (table : list (string * CliOption S)) (arguments : list string) (st : S) : outcome (option S) :=
  match arguments with
  | [] => Ok (Some st)
  | argument :: rest =>
      if decide (argument = "--help") then Ok None
      else
        match option_for table argument with
        | None => Throw (InvalidArgument ("unknown argument: " +:+ argument))
        | Some (Switch f) => parse_arguments table rest (f st)
        | Some (Valued f) =>
            match rest with
            | [] => Throw (InvalidArgument (argument +:+ " requires a value"))
            | value :: rest =>
                g ← f value;
                parse_arguments table rest (g st)
            end
        end
  end.

(** What every option that occurs in the arguments preserves. *)
Definition preserves (P : S → Prop) (o : CliOption S) : Prop :=
  match o with
  | Valued f => ∀ text g st, f text = Ok g → P st → P (g st)
  | Switch f => ∀ st, P st → P (f st)
  end.

Lemma parse_arguments_preserves table (P : S → Prop) arguments st st' :
  (∀ argument o, argument ∈ arguments → option_for table argument = Some o → preserves P o) →
  P st → parse_arguments table arguments st = Ok (Some st') → P st'.
Proof.
  assert (Hlen : ∃ n, (length arguments ≤ n)%nat) by eauto. destruct Hlen as [n Hlen].
  revert arguments st Hlen. induction n as [|n IH]; intros [|a rest] st; cbn [parse_arguments length]; intros Hlen Hopt HP;
    try lia; try (intros [= <-]; done).
  case_decide; [done|]. destruct (option_for table a) as [[f|f]|] eqn:Ho; [| |done].
  - destruct rest as [|text rest]; [done|]. destruct (f text) as [g| | |] eqn:Hf; try done. cbn [mbind outcome_bind].
    cbn [length] in Hlen. apply IH; [lia| |].
    + intros b o Hb. apply Hopt. by do 2 right.
    + by eapply (Hopt a _ ltac:(left) Ho).
  - apply IH; [lia| |].
    + intros b o Hb. apply Hopt. by right.
    + by apply (Hopt a _ ltac:(left) Ho).
Qed.

Lemma option_for_elem table argument o : option_for table argument = Some o → (argument, o) ∈ table.
Proof.
  induction table as [|[name x] table IH]; cbn; [done|]. case_decide as He; [|right; auto].
  intros [= ->]. rewrite He. left.
Qed.
Lemma parse_valued table name f value g rest st :
  name ≠ "--help" → option_for table name = Some (Valued f) → f value = Ok g →
  parse_arguments table (name :: value :: rest) st = parse_arguments table rest (g st).
Proof. intros Hn Ho Hf. cbn [parse_arguments]. rewrite decide_False by done. by rewrite Ho, Hf. Qed.

Lemma parse_arguments_defined table arguments st :
  (∀ argument f text, option_for table argument = Some (Valued f) → defined (f text)) →
  defined (parse_arguments table arguments st).
Proof.
  intros Hopt. assert (Hlen : ∃ n, (length arguments ≤ n)%nat) by eauto. destruct Hlen as [n Hlen].
  revert arguments Hlen st. induction n as [|n IH]; intros [|a rest] Hlen st; cbn [parse_arguments length] in *; try done; [lia|].
  case_decide; [done|]. destruct (option_for table a) as [[f|f]|] eqn:Ho; [| |done].
  - destruct rest as [|text rest]; [done|]. apply defined_bind; [by eapply Hopt|].
    intros g _. apply IH. cbn [length] in Hlen. lia.
  - apply IH. lia.
Qed.
End arguments.
