(* ===== verification/FaultPlan.v ===== *)
(** * Fault plans (include/netfault/fault_plan.hpp)

    The validated fault configuration. Durations are signed 64-bit millisecond
    counts; sums of two of them are checked for signed overflow, which is
    undefined behaviour in C++. *)

From Stdlib Require Import ZArith Lia SpecFloat.
From stdpp Require Import base numbers list option strings.
From S2P Require Import Prelude FaultRng TokenBucket.

Local Open Scope Z_scope.

Inductive FaultDirections := Both | ClientToUpstream | UpstreamToClient.

#[global] Instance FaultDirections_eq_dec : EqDecision FaultDirections.
Proof. solve_decision. Defined.

Record FaultPlan := mkFaultPlan {
  master_seed : Z;
  apply_probability : double;
  directions : FaultDirections;
  latency : Z;   (* milliseconds *)
  jitter : Z;    (* milliseconds *)
  rate_bytes_per_second : Z;
  burst_bytes : Z;
  reset_after_bytes : Z;
  half_close_after_bytes : Z;
}.

(** [FaultPlan{}]. *)
Definition default_FaultPlan : FaultPlan := mkFaultPlan 0 double_one Both 0 0 0 0 0 0.

Definition any_enabled (p : FaultPlan) : bool :=
  (0 <? latency p) || (0 <? jitter p) || (0 <? rate_bytes_per_second p)
  || (0 <? reset_after_bytes p) || (0 <? half_close_after_bytes p).

Definition applies_to_client_to_upstream (p : FaultPlan) : bool :=
  bool_decide (directions p ≠ UpstreamToClient).

Definition applies_to_upstream_to_client (p : FaultPlan) : bool :=
  bool_decide (directions p ≠ ClientToUpstream).

Definition effective_burst_bytes (p : FaultPlan) : Z :=
  if negb (burst_bytes p =? 0) then burst_bytes p else rate_bytes_per_second p.

Definition validate (p : FaultPlan) : outcome unit :=
  _ ← throw_if (SFltb (apply_probability p) double_zero || SFltb double_one (apply_probability p))
        (InvalidArgument "fault probability must be between 0 and 1");
  _ ← throw_if ((latency p <? 0) || (jitter p <? 0))
        (InvalidArgument "fault latency and jitter must be non-negative");
  jitter_limit ← i64_add (latency p) 10000;
  _ ← throw_if (jitter_limit <? jitter p)
        (InvalidArgument "fault jitter must not exceed latency by more than 10 seconds");
  total ← i64_add (latency p) (jitter p);
  _ ← throw_if (60000 <? total)
        (InvalidArgument "fault latency plus jitter must be at most 60 seconds");
  _ ← throw_if (negb (burst_bytes p =? 0) && (rate_bytes_per_second p =? 0))
        (InvalidArgument "fault burst requires a fault rate");
  _ ← throw_if (1000000000 <? rate_bytes_per_second p)
        (InvalidArgument "fault rate must be at most 1000000000 bytes per second");
  Ok tt.

(** The field types: signed 64-bit durations, unsigned 64-bit counts. *)
Record plan_typed (p : FaultPlan) : Prop := mkPlanTyped {
  pt_latency : - two63 ≤ latency p < two63;
  pt_jitter : - two63 ≤ jitter p < two63;
  pt_seed : is_u64 (master_seed p);
  pt_rate : is_u64 (rate_bytes_per_second p);
  pt_burst : is_u64 (burst_bytes p);
  pt_reset : is_u64 (reset_after_bytes p);
  pt_half_close : is_u64 (half_close_after_bytes p);
}.

(** What a validated plan guarantees to the relay. *)
Record valid_plan (p : FaultPlan) : Prop := mkValidPlan {
  vp_probability : SFltb (apply_probability p) double_zero = false
                   ∧ SFltb double_one (apply_probability p) = false;
  vp_delay : 0 ≤ latency p ∧ 0 ≤ jitter p ∧ latency p + jitter p ≤ 60000
             ∧ jitter p ≤ latency p + 10000;
  vp_burst : burst_bytes p ≠ 0 → rate_bytes_per_second p ≠ 0;
  vp_rate : 0 ≤ rate_bytes_per_second p ≤ 1000000000;
}.

Lemma throw_if_bind {A} b e (k : unit → outcome A) :
  throw_if b e ≫= k = if b then Throw e else k tt.
Proof. by destruct b. Qed.

Lemma i64_add_cases {A} a b (k : Z → outcome A) :
  - two63 ≤ a + b < two63 → i64_add a b ≫= k = k (a + b).
Proof.
  intros H. unfold i64_add.
  destruct (Z.leb_spec (- two63) (a + b)), (Z.ltb_spec (a + b) two63); cbn; done || lia.
Qed.

Lemma i64_add_undefined {A} a b (k : Z → outcome A) :
  ¬ (- two63 ≤ a + b < two63) → i64_add a b ≫= k = Undefined.
Proof.
  intros H. unfold i64_add.
  destruct (Z.leb_spec (- two63) (a + b)), (Z.ltb_spec (a + b) two63); cbn; done || lia.
Qed.

Lemma validate_Ok p : plan_typed p → validate p = Ok tt ↔ valid_plan p.
Proof.
  intros []. unfold validate. rewrite throw_if_bind. split.
  - intros H. destruct (SFltb _ double_zero) eqn:E0; [done|].
    destruct (SFltb double_one _) eqn:E1; [done|]. cbn [orb] in H. rewrite throw_if_bind in H.
    destruct (Z.ltb_spec (latency p) 0), (Z.ltb_spec (jitter p) 0); try done. cbn [orb] in H.
    destruct (Z_lt_dec (latency p + 10000) two63);
      [rewrite i64_add_cases in H by lia|rewrite i64_add_undefined in H by lia; done].
    rewrite throw_if_bind in H. destruct (Z.ltb_spec (latency p + 10000) (jitter p)); [done|].
    destruct (Z_lt_dec (latency p + jitter p) two63);
      [rewrite i64_add_cases in H by lia|rewrite i64_add_undefined in H by lia; done].
    rewrite throw_if_bind in H. destruct (Z.ltb_spec 60000 (latency p + jitter p)); [done|].
    rewrite !throw_if_bind in H.
    destruct (Z.eqb_spec (burst_bytes p) 0), (Z.eqb_spec (rate_bytes_per_second p) 0),
      (Z.ltb_spec 1000000000 (rate_bytes_per_second p)); cbn in H; try done;
      unfold is_u64 in *; split; done || lia.
  - intros [[-> ->] (Hl & Hj & Hs & Hjl) Hb Hr]. cbn [orb]. rewrite throw_if_bind.
    destruct (Z.ltb_spec (latency p) 0), (Z.ltb_spec (jitter p) 0); try lia. cbn [orb].
    rewrite i64_add_cases by lia. rewrite throw_if_bind.
    destruct (Z.ltb_spec (latency p + 10000) (jitter p)); [lia|].
    rewrite i64_add_cases by lia. rewrite !throw_if_bind.
    destruct (Z.ltb_spec 60000 (latency p + jitter p)); [lia|].
    destruct (Z.eqb_spec (burst_bytes p) 0), (Z.eqb_spec (rate_bytes_per_second p) 0),
      (Z.ltb_spec 1000000000 (rate_bytes_per_second p)); cbn; done || lia.
Qed.

(** [validate] accepts exactly the plans within its documented limits:
    probability neither below 0 nor above 1, non-negative latency and jitter
    with a sum of at most 60 s and a jitter at most 10 s over the latency, a
    burst only with a rate, and a rate of at most 10^9 bytes per second. *)
Theorem validate_accepts_exactly p :
  plan_typed p → validate p = Ok tt ↔ valid_plan p.
Proof. apply validate_Ok. Qed.

Definition example_plan : FaultPlan := mkFaultPlan 42 double_one Both 200 50 10000 0 0 0.

Lemma validate_accepts_exactly_witness : valid_plan example_plan.
Proof.
  apply validate_accepts_exactly; [|reflexivity].
  split; cbn; unfold is_u64; lia.
Defined.

(** The limits have holes. A NaN probability passes (and then no connection
    gets faults, see the accept path); a latency near the top of its 64-bit
    range makes the range check itself overflow, which is undefined behaviour;
    and a burst has no upper limit, so a plan is accepted for which the token
    bucket's products wrap: a 1 byte/s bucket that granted 18446744074 bytes is
    full again after 1.3 s instead of 584 years. *)
Theorem validate_holes :
  validate (mkFaultPlan 0 S754_nan Both 100 0 0 0 0 0) = Ok tt
  ∧ validate (mkFaultPlan 0 double_one Both 4611686018427387904 4611686018427387904 0 0 0 0) = Undefined
  ∧ (let p := mkFaultPlan 0 double_one Both 0 0 1 20000000000 0 0 in
     validate p = Ok tt ∧
     ∃ b0 b,
       make_TokenBucket (rate_bytes_per_second p) (effective_burst_bytes p) 0 = Ok b0
       ∧ bucket_run b0 [(0, 18446744074)] = Ok b
       ∧ (bucket_available b 1290448384).1 = 1553255927
       ∧ (bucket_available b 1290448385).1 = 20000000000).
Proof.
  split; [reflexivity|]. split; [reflexivity|]. split; [reflexivity|].
  exists (mkTokenBucket 1 20000000000 20000000000 0 0), (mkTokenBucket 1 20000000000 1553255926 0 0).
  repeat split.
Qed.
