(* ===== verification/ConnectionState.v ===== *)
(** * Connection states (include/netfault/connection_state.hpp) *)

From stdpp Require Import base sets list option strings.
From S2P Require Import Prelude.

Inductive ConnectionState :=
  | ConnectingUpstream
  | Active
  | ClientReadClosed
  | UpstreamReadClosed
  | Draining
  | FullyClosed
  | Reset
  | Failed
  | TimedOut.

#[global] Instance ConnectionState_eq_dec : EqDecision ConnectionState.
Proof. solve_decision. Defined.

Record ConnectionLifecycle := mkLifecycle {
  lc_upstream_connecting : bool;
  lc_client_read_open : bool;
  lc_upstream_read_open : bool;
}.

Definition derive_connection_state (l : ConnectionLifecycle) : ConnectionState :=
  if lc_upstream_connecting l then ConnectingUpstream
  else if negb (lc_client_read_open l) && negb (lc_upstream_read_open l) then Draining
  else if negb (lc_client_read_open l) then ClientReadClosed
  else if negb (lc_upstream_read_open l) then UpstreamReadClosed
  else Active.

Definition state_name (s : ConnectionState) : string :=
  match s with
  | ConnectingUpstream => "connecting_upstream"
  | Active => "active"
  | ClientReadClosed => "client_read_closed"
  | UpstreamReadClosed => "upstream_read_closed"
  | Draining => "draining"
  | FullyClosed => "fully_closed"
  | Reset => "reset"
  | Failed => "failed"
  | TimedOut => "timed_out"
  end.

#[global] Instance state_name_inj : Inj (=) (=) state_name.
Proof. intros a b H. by destruct a, b. Qed.

(** The states a live relay can be in: a terminal state is never derived. *)
Definition live_state (s : ConnectionState) : Prop :=
  s ∈ [ConnectingUpstream; Active; ClientReadClosed; UpstreamReadClosed; Draining].

Lemma derive_live l : live_state (derive_connection_state l).
Proof. destruct l as [[] [] []]; unfold live_state; cbn; set_solver. Qed.

(** The three flags can be read back from the derived state (up to the read
    flags while the upstream is still connecting). *)
Lemma derive_draining l :
  derive_connection_state l = Draining ↔
  lc_upstream_connecting l = false ∧ lc_client_read_open l = false ∧ lc_upstream_read_open l = false.
Proof. destruct l as [[] [] []]; cbn; intuition congruence. Qed.
