(* ===== verification/TimerQueue.v ===== *)
(** * The timer queue (include/netfault/timer_queue.hpp)

    A min-heap of deadlines keyed by (deadline, sequence). The
    [std::priority_queue] is held as the list of its events in the order in
    which [top]/[pop] deliver them: [heap_push] inserts by the comparator
    [Later], [top] is the head. Sequence numbers make the order total, so this
    order does not depend on the heap's internal layout. *)

From Stdlib Require Import ZArith Lia Sorted.
From stdpp Require Import base numbers sets list option sorting.
From S2P Require Import Prelude.

Local Open Scope Z_scope.

Inductive TimerKind := Pump | IdleTimeout | ConnectTimeout.

#[global] Instance TimerKind_eq_dec : EqDecision TimerKind.
Proof. solve_decision. Defined.

Record TimerEvent := mkTimerEvent {
  deadline : Z;
  sequence : Z;
  connection_id : Z;
  kind : TimerKind;
}.

#[global] Instance TimerEvent_eq_dec : EqDecision TimerEvent.
Proof. solve_decision. Defined.

(** The comparator [Later]: [left] is delivered after [right]. *)
Definition later (left right : TimerEvent) : bool :=
  if negb (deadline left =? deadline right) then deadline right <? deadline left
  else sequence right <? sequence left.

Record TimerQueue := mkTimerQueue {
  heap_ : list TimerEvent;
  next_sequence_ : Z;
}.

Definition empty_TimerQueue : TimerQueue := mkTimerQueue [] 1.

Fixpoint heap_push (e : TimerEvent) (h : list TimerEvent) : list TimerEvent :=
  match h with
  | [] => [e]
  | x :: h => if later x e then e :: x :: h else x :: heap_push e h
  end.

Definition schedule (q : TimerQueue) (deadline connection_id : Z) (kind : TimerKind) : TimerQueue :=
  mkTimerQueue (heap_push (mkTimerEvent deadline (next_sequence_ q) connection_id kind) (heap_ q))
    (u64_succ (next_sequence_ q)).

Definition pop_due (q : TimerQueue) (now : Z) : option TimerEvent * TimerQueue :=
  match heap_ q with
  | [] => (None, q)
  | e :: h =>
      if now <? deadline e then (None, q)
      else (Some e, mkTimerQueue h (next_sequence_ q))
  end.

Definition next_deadline (q : TimerQueue) : option Z :=
  match heap_ q with [] => None | e :: _ => Some (deadline e) end.

Definition queue_size (q : TimerQueue) : Z := Z.of_nat (length (heap_ q)).
Definition queue_empty (q : TimerQueue) : bool :=
  match heap_ q with [] => true | _ => false end.

(** ** The delivery order *)

Definition key_lt (a b : TimerEvent) : Prop :=
  deadline a < deadline b ∨ deadline a = deadline b ∧ sequence a < sequence b.

#[global] Instance key_lt_transitive : Transitive key_lt.
Proof. intros a b c. unfold key_lt. lia. Qed.

Lemma later_spec a b : later a b = true ↔ key_lt b a.
Proof.
  unfold later, key_lt. destruct (Z.eqb_spec (deadline a) (deadline b)); cbn; rewrite Z.ltb_lt; lia.
Qed.

Record timers_inv (q : TimerQueue) : Prop := mkTimersInv {
  tq_order : StronglySorted key_lt (heap_ q);
  tq_sequences : Forall (λ e, 1 ≤ sequence e < next_sequence_ q) (heap_ q);
  tq_next : 1 ≤ next_sequence_ q;
}.

Lemma elem_of_heap_push x e h : x ∈ heap_push e h ↔ x = e ∨ x ∈ h.
Proof.
  induction h as [|y h IH]; cbn.
  { rewrite list_elem_of_singleton. pose proof (not_elem_of_nil x). tauto. }
  destruct (later y e); rewrite ?elem_of_cons, ?IH; tauto.
Qed.

Lemma heap_push_permutation e h : heap_push e h ≡ₚ e :: h.
Proof.
  induction h as [|x h IH]; cbn; [done|]. destruct (later x e); [done|].
  rewrite IH. apply Permutation_swap.
Qed.

Lemma heap_push_sorted e h :
  StronglySorted key_lt h → (∀ x, x ∈ h → sequence x < sequence e) →
  StronglySorted key_lt (heap_push e h).
Proof.
  induction 1 as [|x h Hs IH Hx]; intros Hseq; cbn; [by repeat constructor|].
  destruct (later x e) eqn:E.
  - apply later_spec in E. constructor; [by constructor|]. constructor; [done|].
    eapply Forall_impl; [exact Hx|]. intros y Hy. by trans x.
  - constructor; [apply IH; set_solver|]. apply Forall_forall. intros y [->|Hy]%elem_of_heap_push.
    + assert (Hn : ¬ key_lt e x) by (rewrite <-later_spec; congruence).
      assert (sequence x < sequence e) by (apply Hseq; left). unfold key_lt in *. lia.
    + rewrite Forall_forall in Hx. auto.
Qed.

Lemma empty_timers_inv : timers_inv empty_TimerQueue.
Proof. split; cbn; [constructor|constructor|lia]. Qed.

Lemma schedule_inv q t c k :
  timers_inv q → next_sequence_ q + 1 < two64 →
  timers_inv (schedule q t c k) ∧ next_sequence_ (schedule q t c k) = next_sequence_ q + 1.
Proof.
  intros [Hs Hseq Hn] Hw. assert (Hsucc : u64_succ (next_sequence_ q) = next_sequence_ q + 1) by wrap_lia.
  rewrite Forall_forall in Hseq. split; [|done].
  split; cbn; rewrite ?Hsucc.
  - apply heap_push_sorted; [done|]. intros x Hx. specialize (Hseq x Hx). cbn. lia.
  - apply Forall_forall. intros x [->|Hx]%elem_of_heap_push; [cbn; lia|].
    specialize (Hseq x Hx). lia.
  - lia.
Qed.

Lemma pop_due_inv q now : timers_inv q → timers_inv (pop_due q now).2.
Proof.
  intros I. unfold pop_due. destruct (heap_ q) as [|e h] eqn:E; [done|].
  destruct (now <? deadline e); [done|]. destruct I as [Hs Hseq Hn]. rewrite E in *.
  inversion Hs. inversion Hseq. by split.
Qed.

Lemma pop_due_Some q now e q' :
  pop_due q now = (Some e, q') →
  heap_ q = e :: heap_ q' ∧ deadline e ≤ now ∧ next_sequence_ q' = next_sequence_ q.
Proof.
  unfold pop_due. destruct (heap_ q) as [|x h]; [done|].
  destruct (Z.ltb_spec now (deadline x)); [done|]. intros [= -> <-]. done.
Qed.

Lemma pop_due_None q now q' :
  timers_inv q → pop_due q now = (None, q') → q' = q ∧ Forall (λ e, now < deadline e) (heap_ q).
Proof.
  intros [Hs _ _]. unfold pop_due. destruct (heap_ q) as [|x h] eqn:E; [intros [= <-]; done|].
  destruct (Z.ltb_spec now (deadline x)); [|done]. intros [= <-]. split; [done|].
  inversion Hs as [|? ? Hs' Hx]; subst. constructor; [done|].
  eapply Forall_impl; [exact Hx|]. intros y. unfold key_lt. lia.
Qed.

(** Popping until nothing is due (as [process_due_timers] does). *)
Fixpoint drain (fuel : nat) (q : TimerQueue) (now : Z) : list TimerEvent * TimerQueue :=
  match fuel with
  | O => ([], q)
  | S fuel =>
      match pop_due q now with
      | (None, q) => ([], q)
      | (Some e, q) => let '(es, q) := drain fuel q now in (e :: es, q)
      end
  end.

Lemma drain_ok fuel q now :
  timers_inv q → (length (heap_ q) ≤ fuel)%nat →
  let '(es, q') := drain fuel q now in
  heap_ q = es ++ heap_ q' ∧ Forall (λ e, deadline e ≤ now) es
  ∧ Forall (λ e, now < deadline e) (heap_ q') ∧ timers_inv q'.
Proof.
  revert q. induction fuel as [|fuel IH]; intros q I Hf; cbn.
  { destruct (heap_ q) eqn:E; [|cbn in Hf; lia]. split_and!; done || constructor. }
  pose proof (pop_due_inv q now I) as I'.
  destruct (pop_due q now) as [[e|] q1] eqn:E; cbn in I'.
  - apply pop_due_Some in E as (Hh & Hd & _). specialize (IH q1 I').
    destruct (drain fuel q1 now) as [es q2]. rewrite Hh in *. cbn in Hf.
    destruct IH as (Heq & H1 & H2 & H3); [lia|]. rewrite Heq.
    split_and!; [done|by constructor|done|done].
  - apply pop_due_None in E as [-> Hall]; [|done]. split_and!; [done|constructor|done|done].
Qed.

(** Scheduling a list of requests. *)
Definition schedule_all (q : TimerQueue) (l : list (Z * Z * TimerKind)) : TimerQueue :=
  foldl (λ q r, schedule q r.1.1 r.1.2 r.2) q l.

Lemma schedule_all_inv q l :
  timers_inv q → next_sequence_ q + Z.of_nat (length l) < two64 →
  timers_inv (schedule_all q l)
  ∧ heap_ (schedule_all q l) ≡ₚ heap_ q ++
      imap (λ i r, mkTimerEvent r.1.1 (next_sequence_ q + Z.of_nat i) r.1.2 r.2) l.
Proof.
  revert q. induction l as [|r l IH]; intros q I Hw; cbn; [by rewrite app_nil_r|].
  cbn in Hw. destruct (schedule_inv q r.1.1 r.1.2 r.2 I ltac:(lia)) as [I1 Hn].
  destruct (IH _ I1) as [I2 Hp]; [rewrite Hn; lia|]. split; [done|].
  fold (schedule_all (schedule q r.1.1 r.1.2 r.2) l). rewrite Hp. cbn [schedule heap_].
  rewrite heap_push_permutation. rewrite Z.add_0_r. cbn [app].
  rewrite <-Permutation_middle. apply Permutation_skip, Permutation_app_head.
  rewrite Hn. apply reflexive_eq. apply imap_ext. intros i x _. cbn. f_equal. lia.
Qed.

(** C36: delivery. After scheduling any list of timers and popping everything
    due at [now], the popped events are exactly the scheduled ones with a
    deadline at or before [now], delivered by deadline and, among equal
    deadlines, in the order in which they were scheduled; the later ones stay. *)
Theorem timer_delivery l now :
  1 + Z.of_nat (length l) < two64 →
  let q := schedule_all empty_TimerQueue l in
  let '(es, q') := drain (length l) q now in
  es ++ heap_ q' ≡ₚ
    imap (λ i r, mkTimerEvent r.1.1 (1 + Z.of_nat i) r.1.2 r.2) l
  ∧ Forall (λ e, deadline e ≤ now) es ∧ Forall (λ e, now < deadline e) (heap_ q')
  ∧ StronglySorted key_lt es.
Proof.
  intros Hw q. destruct (schedule_all_inv empty_TimerQueue l empty_timers_inv Hw) as [I Hp].
  fold q in I, Hp. cbn [heap_ next_sequence_ empty_TimerQueue app] in Hp.
  assert (Hlen : length (heap_ q) = length l) by (by rewrite Hp, length_imap).
  pose proof (drain_ok (length l) q now I ltac:(lia)) as Hd.
  destruct (drain (length l) q now) as [es q']. destruct Hd as (Heq & H1 & H2 & _).
  split_and!; [by rewrite <-Heq|done|done|].
  pose proof (tq_order q I) as Hs. rewrite Heq in Hs.
  clear -Hs. induction es as [|e es IH]; [constructor|].
  inversion Hs as [|? ? Hs' Hx]; subst. apply Forall_app in Hx as [Hx _]. constructor; auto.
Qed.

Lemma timer_delivery_witness :
  let l := [(300, 7, Pump); (100, 8, IdleTimeout); (300, 9, ConnectTimeout); (100, 7, Pump); (900, 8, Pump)] in
  map connection_id (drain 5 (schedule_all empty_TimerQueue l) 400).1 = [8; 7; 7; 9] ∧
  StronglySorted key_lt (drain 5 (schedule_all empty_TimerQueue l) 400).1.
Proof.
  intros l. split; [reflexivity|].
  exact (proj2 (proj2 (proj2 (timer_delivery l 400 ltac:(reflexivity))))).
Defined.
