(* ===== verification/SocketIo.v ===== *)
(** * Socket access (include/netfault/socket_io.hpp, src/common/socket_io.cpp)

    [SocketIo] is the seam between the relay and the kernel: a class with the
    three operations over an abstract world, and [SocketIoLaws], what the relay
    relies on. [SystemSocketIo] implements the class over the system calls,
    which are not part of the repository: the class [SocketKernel] states their
    documented behaviour. [Script] is a concrete kernel that replays a script of
    results, used by the examples of this development. *)

From Stdlib Require Import ZArith Lia Init.Byte.
From stdpp Require Import base numbers list option strings.
From S2P Require Import Prelude.

Local Open Scope Z_scope.

Inductive IoStatus := Transferred | WouldBlock | PeerClosed | Error.

#[global] Instance IoStatus_eq_dec : EqDecision IoStatus.
Proof. solve_decision. Defined.

Record IoResult := mkIoResult { status : IoStatus; bytes : Z; error : Z }.

(** The error numbers of <errno.h> on Linux. *)
Definition EINTR : Z := 4.
Definition EAGAIN : Z := 11.
Definition EWOULDBLOCK : Z := 11.
Definition EPIPE : Z := 32.
Definition ECONNRESET : Z := 104.
Definition ENOTCONN : Z := 107.

(** The virtual interface. [io_receive w fd n] receives into a buffer of [n]
    bytes and also returns the bytes it stored at the start of the buffer. *)
Class SocketIo (W : Type) := {
  io_receive : W → Z → Z → IoResult * list byte * W;
  io_send : W → Z → list byte → IoResult * W;
  io_shutdown_write : W → Z → bool * W;
}.

Class SocketIoLaws (W : Type) `{SocketIo W} : Prop := {
  receive_stored w fd n r bs w' :
    0 < n → io_receive w fd n = (r, bs, w') →
    Z.of_nat (length bs) ≤ n ∧
    (status r = Transferred → bytes r = Z.of_nat (length bs) ∧ 0 < bytes r) ∧
    (status r ≠ Transferred → bs = []);
  send_taken w fd bs r w' :
    io_send w fd bs = (r, w') → status r = Transferred →
    0 < bytes r ≤ Z.of_nat (length bs);
}.

(** Sockets in a state of [G] take at least a part of what they are offered on
    [fd], for ever, whatever else is done, unless [fd] is shut down. *)
Record obliging {W} `{SocketIo W} (fd : Z) (G : W → Prop) : Prop := mkObliging {
  ob_takes w data : G w → data ≠ [] → status (io_send w fd data).1 = Transferred;
  ob_send w fd' data : G w → G (io_send w fd' data).2;
  ob_receive w fd' n : G w → G (io_receive w fd' n).2;
  ob_shutdown w fd' : G w → fd' ≠ fd ∨ (io_shutdown_write w fd').1 = false → G (io_shutdown_write w fd').2;
}.

(** ** The system calls *)

(** [recv], [send] and [shutdown(SHUT_WR)] on a kernel state: the returned count
    and, when it is negative, errno. [interruptions] bounds how often calls are
    still going to be interrupted by a signal. *)
Class SocketKernel (K : Type) := {
  sys_recv : K → Z → Z → (Z * Z * list byte) * K;
  sys_send : K → Z → list byte → (Z * Z) * K;
  sys_shutdown_wr : K → Z → (Z * Z) * K;
  interruptions : K → nat;
}.

Class SocketKernelLaws (K : Type) `{SocketKernel K} : Prop := {
  recv_count k fd n count err bs k' :
    0 ≤ n → sys_recv k fd n = ((count, err, bs), k') →
    Z.of_nat (length bs) = Z.max 0 count ∧ count ≤ n;
  recv_interrupted k fd n count err bs k' :
    sys_recv k fd n = ((count, err, bs), k') → count < 0 → err = EINTR →
    (interruptions k' < interruptions k)%nat;
  send_count k fd bs count err k' :
    sys_send k fd bs = ((count, err), k') → count ≤ Z.of_nat (length bs);
  send_interrupted k fd bs count err k' :
    sys_send k fd bs = ((count, err), k') → count < 0 → err = EINTR →
    (interruptions k' < interruptions k)%nat;
}.

Section SystemSocketIo.
Context {K : Type} `{SocketKernel K}.

(** The [while (true)] retry loops. The fuel used below is one more than the
  interruptions to come, so that the [O] case is never reached. *)
Fixpoint receive_loop (fuel : nat) (k : K) (fd n : Z) : IoResult * list byte * K :=
match fuel with
| O => (mkIoResult Error 0 EINTR, [], k)
| S fuel =>
    let '((count, errno, bs), k) := sys_recv k fd n in
    if 0 <? count then (mkIoResult Transferred count 0, bs, k)
    else if count =? 0 then (mkIoResult PeerClosed 0 0, [], k)
    else if errno =? EINTR then receive_loop fuel k fd n
    else if (errno =? EAGAIN) || (errno =? EWOULDBLOCK) then (mkIoResult WouldBlock 0 0, [], k)
    else (mkIoResult Error 0 errno, [], k)
end.

Definition system_receive (k : K) (fd n : Z) : IoResult * list byte * K :=
receive_loop (S (interruptions k)) k fd n.

Fixpoint send_loop (fuel : nat) (k : K) (fd : Z) (data : list byte) : IoResult * K :=
match fuel with
| O => (mkIoResult Error 0 EINTR, k)
| S fuel =>
    let '((count, errno), k) := sys_send k fd data in
    if 0 <? count then (mkIoResult Transferred count 0, k)
    else if (count <? 0) && (errno =? EINTR) then send_loop fuel k fd data
    else if (count <? 0) && ((errno =? EAGAIN) || (errno =? EWOULDBLOCK))
    then (mkIoResult WouldBlock 0 0, k)
    else (mkIoResult Error 0 (if count <? 0 then errno else EPIPE), k)
end.

Definition system_send (k : K) (fd : Z) (data : list byte) : IoResult * K :=
send_loop (S (interruptions k)) k fd data.

Definition system_shutdown_write (k : K) (fd : Z) : bool * K :=
let '((rc, errno), k) := sys_shutdown_wr k fd in
((rc =? 0) || (errno =? ENOTCONN), k).

#[export] Instance SystemSocketIo : SocketIo K := {|
io_receive := system_receive;
io_send := system_send;
io_shutdown_write := system_shutdown_write;
|}.

(** The first call that is not interrupted, reached by retrying. *)
Inductive recv_final : K → Z → Z → Z * Z * list byte → K → Prop :=
| recv_done k fd n count err bs k' :
    sys_recv k fd n = ((count, err, bs), k') → ¬ (count < 0 ∧ err = EINTR) →
    recv_final k fd n (count, err, bs) k'
| recv_retry k fd n count err bs k1 r k' :
    sys_recv k fd n = ((count, err, bs), k1) → count < 0 → err = EINTR →
    recv_final k1 fd n r k' → recv_final k fd n r k'.

Inductive send_final : K → Z → list byte → Z * Z → K → Prop :=
| send_done k fd data count err k' :
    sys_send k fd data = ((count, err), k') → ¬ (count < 0 ∧ err = EINTR) →
    send_final k fd data (count, err) k'
| send_retry k fd data count err k1 r k' :
    sys_send k fd data = ((count, err), k1) → count < 0 → err = EINTR →
    send_final k1 fd data r k' → send_final k fd data r k'.

(** The meaning of an uninterrupted result. *)
Definition receive_meaning (r : Z * Z * list byte) : IoResult * list byte :=
let '(count, err, bs) := r in
if 0 <? count then (mkIoResult Transferred count 0, bs)
else if count =? 0 then (mkIoResult PeerClosed 0 0, [])
else if err =? EAGAIN then (mkIoResult WouldBlock 0 0, [])
else (mkIoResult Error 0 err, []).

Definition send_meaning (r : Z * Z) : IoResult :=
let '(count, err) := r in
if 0 <? count then mkIoResult Transferred count 0
else if count =? 0 then mkIoResult Error 0 EPIPE
else if err =? EAGAIN then mkIoResult WouldBlock 0 0
else mkIoResult Error 0 err.

Lemma receive_loop_final `{!SocketKernelLaws K} fuel k fd n :
(interruptions k < fuel)%nat →
let '(r, bs, k') := receive_loop fuel k fd n in
∃ raw, recv_final k fd n raw k' ∧ receive_meaning raw = (r, bs).
Proof.
revert k. induction fuel as [|fuel IH]; intros k Hf; [lia|]. cbn [receive_loop].
destruct (sys_recv k fd n) as [[[count err] bs] k1] eqn:E.
destruct (Z.ltb_spec 0 count) as [Hpos|Hneg].
{ exists (count, err, bs). split; [apply recv_done; [done|lia]|].
  unfold receive_meaning. destruct (Z.ltb_spec 0 count); [done|lia]. }
destruct (Z.eqb_spec count 0) as [->|Hne].
{ exists (0, err, bs). split; [apply recv_done; [done|lia]|done]. }
destruct (Z.eqb_spec err EINTR) as [->|Hni].
{ specialize (IH k1 ltac:(pose proof (recv_interrupted _ _ _ _ _ _ _ E ltac:(lia) eq_refl); lia)).
  destruct (receive_loop fuel k1 fd n) as [[r bs'] k']. destruct IH as (raw & Hraw & Hm).
  exists raw. split; [|done]. eapply recv_retry; [done|lia|done|done]. }
change EWOULDBLOCK with EAGAIN. rewrite orb_diag.
destruct (Z.eqb_spec err EAGAIN) as [->|Hna]; (eexists (count, _, bs); split; [apply recv_done; [done|lia]|]);
  unfold receive_meaning; destruct (Z.ltb_spec 0 count), (Z.eqb_spec count 0); try lia;
  [done|by destruct (Z.eqb_spec err EAGAIN)].
Qed.

Lemma send_loop_final `{!SocketKernelLaws K} fuel k fd data :
(interruptions k < fuel)%nat →
let '(r, k') := send_loop fuel k fd data in
∃ raw, send_final k fd data raw k' ∧ send_meaning raw = r.
Proof.
revert k. induction fuel as [|fuel IH]; intros k Hf; [lia|]. cbn [send_loop].
destruct (sys_send k fd data) as [[count err] k1] eqn:E.
destruct (Z.ltb_spec 0 count) as [Hpos|Hneg].
{ exists (count, err). split; [apply send_done; [done|lia]|].
  unfold send_meaning. destruct (Z.ltb_spec 0 count); [done|lia]. }
destruct (Z.ltb_spec count 0) as [Hlt|Hge]; cbn [andb].
2:{ assert (count = 0) as -> by lia. exists (0, err). split; [apply send_done; [done|lia]|done]. }
destruct (Z.eqb_spec err EINTR) as [->|Hni].
{ specialize (IH k1 ltac:(pose proof (send_interrupted _ _ _ _ _ _ E ltac:(lia) eq_refl); lia)).
  destruct (send_loop fuel k1 fd data) as [r k']. destruct IH as (raw & Hraw & Hm).
  exists raw. split; [|done]. eapply send_retry; [done|lia|done|done]. }
change EWOULDBLOCK with EAGAIN. rewrite orb_diag.
destruct (Z.eqb_spec err EAGAIN) as [->|Hna]; (eexists (count, _); split; [apply send_done; [done|lia]|]);
  unfold send_meaning; destruct (Z.ltb_spec 0 count), (Z.eqb_spec count 0); try lia;
  [done|by destruct (Z.eqb_spec err EAGAIN)].
Qed.

Lemma recv_final_count `{!SocketKernelLaws K} k fd n count err bs k' :
0 ≤ n → recv_final k fd n (count, err, bs) k' →
Z.of_nat (length bs) = Z.max 0 count ∧ count ≤ n ∧ ¬ (count < 0 ∧ err = EINTR).
Proof.
intros Hn Hf. remember (count, err, bs) as raw eqn:Er. revert count err bs Er.
induction Hf as [k fd n c e b k1 E Hi|k fd n c e b k1 r k2 E Hc He Hf IH]; intros count err bs Er.
- injection Er as -> -> ->. pose proof (recv_count _ _ _ _ _ _ _ Hn E). tauto.
- by apply IH.
Qed.

Lemma send_final_count `{!SocketKernelLaws K} k fd data count err k' :
send_final k fd data (count, err) k' →
count ≤ Z.of_nat (length data) ∧ ¬ (count < 0 ∧ err = EINTR).
Proof.
intros Hf. remember (count, err) as raw eqn:Er. revert count err Er.
induction Hf as [k fd data c e k1 E Hi|k fd data c e k1 r k2 E Hc He Hf IH]; intros count err Er.
- injection Er as -> ->. pose proof (send_count _ _ _ _ _ _ E). tauto.
- by apply IH.
Qed.

(** The system implementation keeps the promises the relay relies on. *)
#[export] Instance SystemSocketIo_laws `{!SocketKernelLaws K} : SocketIoLaws K.
Proof.
split.
- intros k fd n r bs k' Hn Hr. cbn [io_receive SystemSocketIo] in Hr. unfold system_receive in Hr.
  pose proof (receive_loop_final (S (interruptions k)) k fd n ltac:(lia)) as H'.
  rewrite Hr in H'. destruct H' as ([[count err] b] & Hf & Hm).
  destruct (recv_final_count k fd n count err b k' ltac:(lia) Hf) as (Hl & Hc & _).
  unfold receive_meaning in Hm.
  destruct (Z.ltb_spec 0 count); [injection Hm as <- <-; cbn; split_and!; [lia|lia|done]|].
  destruct (count =? 0), (err =? EAGAIN); injection Hm as <- <-; cbn; split_and!; done || lia.
- intros k fd data r k' Hr Hst. cbn [io_send SystemSocketIo] in Hr. unfold system_send in Hr.
  pose proof (send_loop_final (S (interruptions k)) k fd data ltac:(lia)) as H'.
  rewrite Hr in H'. destruct H' as ([count err] & Hf & Hm).
  destruct (send_final_count k fd data count err k' Hf) as (Hc & _).
  unfold send_meaning in Hm. subst r.
  destruct (Z.ltb_spec 0 count); [cbn; lia|]. by destruct (count =? 0), (err =? EAGAIN).
Qed.

(** The system calls are wrapped as documented. [receive] and [send] retry
  while interrupted and return the meaning of the first uninterrupted call: a
  positive count is a transfer of that many bytes, a zero count is end of
  stream for a receive and EPIPE for a send, EAGAIN is would-block, and any
  other errno is reported as it is; so EINTR is never reported. *)
Theorem system_socket_io_meaning `{!SocketKernelLaws K} k fd n data :
0 ≤ n →
(let '(r, bs, k') := io_receive k fd n in
 (∃ raw, recv_final k fd n raw k' ∧ receive_meaning raw = (r, bs))
 ∧ (status r = Error → error r ≠ EINTR) ∧ Z.of_nat (length bs) ≤ n)
∧ (let '(r, k') := io_send k fd data in
   (∃ raw, send_final k fd data raw k' ∧ send_meaning raw = r)
   ∧ (status r = Error → error r ≠ EINTR) ∧ status r ≠ PeerClosed).
Proof.
intros Hn. split.
- pose proof (receive_loop_final (S (interruptions k)) k fd n ltac:(lia)) as H'.
  cbn [io_receive SystemSocketIo]. unfold system_receive.
  destruct (receive_loop _ k fd n) as [[r bs] k']. split; [done|].
  destruct H' as ([[count err] b] & Hf & Hm).
  destruct (recv_final_count k fd n count err b k' Hn Hf) as (Hl & Hc & Hi).
  unfold receive_meaning in Hm.
  destruct (Z.ltb_spec 0 count); [injection Hm as <- <-; cbn; split; [done|lia]|].
  destruct (Z.eqb_spec count 0), (err =? EAGAIN); injection Hm as <- <-; cbn; split; try done; lia.
- pose proof (send_loop_final (S (interruptions k)) k fd data ltac:(lia)) as H'.
  cbn [io_send SystemSocketIo]. unfold system_send.
  destruct (send_loop _ k fd data) as [r k']. split; [done|].
  destruct H' as ([count err] & Hf & <-).
  destruct (send_final_count k fd data count err k' Hf) as (Hc & Hi).
  unfold send_meaning.
  destruct (Z.ltb_spec 0 count); [done|].
  destruct (Z.eqb_spec count 0), (err =? EAGAIN); cbn; split; try done; lia.
Qed.
End SystemSocketIo.

(** ** A kernel that replays a script *)

(** The next result: some bytes received, or room for that many bytes to send;
    or an error number; the end of the script is would-block for ever. *)
Inductive script_entry := SData (bs : list byte) | SError (err : Z) | SEof.
Record Script := mkScript { entries : list script_entry }.

Definition is_interruption (e : script_entry) : bool :=
  match e with SError err => err =? EINTR | _ => false end.

Fixpoint count_interruptions (es : list script_entry) : nat :=
  match es with
  | [] => 0
  | e :: es => (if is_interruption e then 1 else 0) + count_interruptions es
  end.

Definition script_recv (k : Script) (fd n : Z) : (Z * Z * list byte) * Script :=
  match entries k with
  | [] => ((-1, EAGAIN, []), k)
  | SData bs :: es =>
      let got := take (Z.to_nat n) bs in
      ((Z.of_nat (length got), 0, got), mkScript es)
  | SError err :: es => ((-1, err, []), mkScript es)
  | SEof :: es => ((0, 0, []), mkScript es)
  end.

Definition script_send (k : Script) (fd : Z) (data : list byte) : (Z * Z) * Script :=
  match entries k with
  | [] => ((-1, EAGAIN), k)
  | SData bs :: es => ((Z.min (Z.of_nat (length bs)) (Z.of_nat (length data)), 0), mkScript es)
  | SError err :: es => ((-1, err), mkScript es)
  | SEof :: es => ((0, 0), mkScript es)
  end.

#[export] Instance ScriptKernel : SocketKernel Script := {|
  sys_recv := script_recv;
  sys_send := script_send;
  sys_shutdown_wr k fd := ((0, 0), k);
  interruptions k := count_interruptions (entries k);
|}.

#[export] Instance ScriptKernel_laws : SocketKernelLaws Script.
Proof.
  split; intros [es] fd; cbn [sys_recv sys_send interruptions ScriptKernel];
    unfold script_recv, script_send; cbn [entries].
  - intros n count err bs k' Hn. destruct es as [|[b|e|] es]; intros [= <- <- <- <-];
      rewrite ?length_take; cbn; lia.
  - intros n count err bs k'. destruct es as [|[b|e|] es]; intros [= <- <- <- <-]; cbn; try lia.
    all: intros _ Hi; try discriminate Hi. subst; cbn; lia.
  - intros data count err k'. destruct es as [|[b|e|] es]; intros [= <- <- <-]; cbn; lia.
  - intros data count err k'. destruct es as [|[b|e|] es]; intros [= <- <- <-]; cbn; try lia.
    all: intros _ Hi; try discriminate Hi. subst; cbn; lia.
Qed.

Lemma system_socket_io_meaning_witness :
  let k := mkScript [SError EINTR; SError EINTR; SData [x61; x62; x63]] in
  io_receive k 5 2 = (mkIoResult Transferred 2 0, [x61; x62], mkScript [])
  ∧ ∃ raw, recv_final k 5 2 raw (mkScript []).
Proof.
  intros k. split; [reflexivity|].
  destruct (proj1 (system_socket_io_meaning k 5 2 [] ltac:(lia))) as [(raw & Hraw & _) _].
  exists raw. exact Hraw.
Defined.
