(* ===== verification/Relay.v ===== *)
(** * The relay: data and operations (include/netfault/relay.hpp, src/common/relay.cpp)

    [Relay] is the forwarding engine of one proxied connection: two byte queues
    with their backpressure trackers and fault channels, the half-close flags
    and the counters. Its methods run in the state monad [M] over a [World],
    which holds the relay, the world behind [SocketIo], the events passed to the
    observer, and the trace [w_wire] of what actually crossed the sockets. *)

From Stdlib Require Import ZArith Lia Init.Byte.
From stdpp Require Import base numbers list option strings pretty.
From S2P Require Import Prelude ByteQueue Backpressure DelayLine TokenBucket FaultRng.
From S2P Require Import FaultPlan ConnectionState SocketIo.

Local Open Scope Z_scope.

Inductive Side := Client | Upstream.

#[global] Instance Side_eq_dec : EqDecision Side.
Proof. solve_decision. Defined.

Definition other (s : Side) : Side := match s with Client => Upstream | Upstream => Client end.

Record RelayConfig := mkRelayConfig {
  buffer_bytes_per_direction : Z;
  low_water_bytes : Z;
  high_water_bytes : Z;
}.

Inductive PumpStatus := Continue | CloseConnection.

Record PumpResult := mkPumpResult {
  pump_status : PumpStatus;
  final_state : ConnectionState;
  reason : string;
}.

(** [PumpResult{}], the [return {};] of the methods. *)
Definition default_PumpResult : PumpResult := mkPumpResult Continue FullyClosed "".

Record InterestSet := mkInterestSet { interest_read : bool; interest_write : bool }.

Record RelayMetrics := mkRelayMetrics {
  client_bytes_read : Z;
  upstream_bytes_read : Z;
  client_bytes_written : Z;
  upstream_bytes_written : Z;
  read_operations : Z;
  write_operations : Z;
  partial_writes : Z;
  eagain_events : Z;
}.

Definition set_client_bytes_read (v : Z) (m : RelayMetrics) : RelayMetrics :=
  mkRelayMetrics v (upstream_bytes_read m) (client_bytes_written m) (upstream_bytes_written m)
    (read_operations m) (write_operations m) (partial_writes m) (eagain_events m).

Definition set_upstream_bytes_read (v : Z) (m : RelayMetrics) : RelayMetrics :=
  mkRelayMetrics (client_bytes_read m) v (client_bytes_written m) (upstream_bytes_written m)
    (read_operations m) (write_operations m) (partial_writes m) (eagain_events m).

Definition set_client_bytes_written (v : Z) (m : RelayMetrics) : RelayMetrics :=
  mkRelayMetrics (client_bytes_read m) (upstream_bytes_read m) v (upstream_bytes_written m)
    (read_operations m) (write_operations m) (partial_writes m) (eagain_events m).

Definition set_upstream_bytes_written (v : Z) (m : RelayMetrics) : RelayMetrics :=
  mkRelayMetrics (client_bytes_read m) (upstream_bytes_read m) (client_bytes_written m) v
    (read_operations m) (write_operations m) (partial_writes m) (eagain_events m).

Definition set_read_operations (v : Z) (m : RelayMetrics) : RelayMetrics :=
  mkRelayMetrics (client_bytes_read m) (upstream_bytes_read m) (client_bytes_written m)
    (upstream_bytes_written m) v (write_operations m) (partial_writes m) (eagain_events m).

Definition set_write_operations (v : Z) (m : RelayMetrics) : RelayMetrics :=
  mkRelayMetrics (client_bytes_read m) (upstream_bytes_read m) (client_bytes_written m)
    (upstream_bytes_written m) (read_operations m) v (partial_writes m) (eagain_events m).

Definition set_partial_writes (v : Z) (m : RelayMetrics) : RelayMetrics :=
  mkRelayMetrics (client_bytes_read m) (upstream_bytes_read m) (client_bytes_written m)
    (upstream_bytes_written m) (read_operations m) (write_operations m) v (eagain_events m).

Definition set_eagain_events (v : Z) (m : RelayMetrics) : RelayMetrics :=
  mkRelayMetrics (client_bytes_read m) (upstream_bytes_read m) (client_bytes_written m)
    (upstream_bytes_written m) (read_operations m) (write_operations m) (partial_writes m) v.

Record FaultChannel := mkFaultChannel {
  delay : option DelayLine;
  bucket : option TokenBucket;
  rng : SplitMix64;
  channel_latency : Z;   (* nanoseconds *)
  channel_jitter : Z;    (* nanoseconds *)
  delayed_segments : Z;
  delay_budget : Z;
}.

Record Direction := mkDirection {
  queue : ByteQueue;
  backpressure : BackpressureTracker;
  fault : option FaultChannel;
}.

Record Relay := mkRelay {
  client_fd_ : Z;
  upstream_fd_ : Z;
  upstream_connecting_ : bool;
  client_read_open_ : bool;
  client_write_open_ : bool;
  upstream_read_open_ : bool;
  upstream_write_open_ : bool;
  faults_active_ : bool;
  reset_after_bytes_ : Z;
  half_close_after_bytes_ : Z;
  half_close_injected_ : bool;
  relay_state_ : ConnectionState;
  client_to_upstream_ : Direction;
  upstream_to_client_ : Direction;
  metrics_ : RelayMetrics;
  accepted_at_ : Z;
  last_activity_ : Z;
}.

(** One setter per field that the methods assign. *)
Definition set_upstream_connecting (v : bool) (r : Relay) : Relay :=
  mkRelay (client_fd_ r) (upstream_fd_ r) v (client_read_open_ r) (client_write_open_ r)
    (upstream_read_open_ r) (upstream_write_open_ r) (faults_active_ r) (reset_after_bytes_ r)
    (half_close_after_bytes_ r) (half_close_injected_ r) (relay_state_ r)
    (client_to_upstream_ r) (upstream_to_client_ r) (metrics_ r) (accepted_at_ r)
    (last_activity_ r).

Definition set_client_read_open (v : bool) (r : Relay) : Relay :=
  mkRelay (client_fd_ r) (upstream_fd_ r) (upstream_connecting_ r) v (client_write_open_ r)
    (upstream_read_open_ r) (upstream_write_open_ r) (faults_active_ r) (reset_after_bytes_ r)
    (half_close_after_bytes_ r) (half_close_injected_ r) (relay_state_ r)
    (client_to_upstream_ r) (upstream_to_client_ r) (metrics_ r) (accepted_at_ r)
    (last_activity_ r).

Definition set_client_write_open (v : bool) (r : Relay) : Relay :=
  mkRelay (client_fd_ r) (upstream_fd_ r) (upstream_connecting_ r) (client_read_open_ r) v
    (upstream_read_open_ r) (upstream_write_open_ r) (faults_active_ r) (reset_after_bytes_ r)
    (half_close_after_bytes_ r) (half_close_injected_ r) (relay_state_ r)
    (client_to_upstream_ r) (upstream_to_client_ r) (metrics_ r) (accepted_at_ r)
    (last_activity_ r).

Definition set_upstream_read_open (v : bool) (r : Relay) : Relay :=
  mkRelay (client_fd_ r) (upstream_fd_ r) (upstream_connecting_ r) (client_read_open_ r)
    (client_write_open_ r) v (upstream_write_open_ r) (faults_active_ r) (reset_after_bytes_ r)
    (half_close_after_bytes_ r) (half_close_injected_ r) (relay_state_ r)
    (client_to_upstream_ r) (upstream_to_client_ r) (metrics_ r) (accepted_at_ r)
    (last_activity_ r).

Definition set_upstream_write_open (v : bool) (r : Relay) : Relay :=
  mkRelay (client_fd_ r) (upstream_fd_ r) (upstream_connecting_ r) (client_read_open_ r)
    (client_write_open_ r) (upstream_read_open_ r) v (faults_active_ r) (reset_after_bytes_ r)
    (half_close_after_bytes_ r) (half_close_injected_ r) (relay_state_ r)
    (client_to_upstream_ r) (upstream_to_client_ r) (metrics_ r) (accepted_at_ r)
    (last_activity_ r).

Definition set_half_close_injected (v : bool) (r : Relay) : Relay :=
  mkRelay (client_fd_ r) (upstream_fd_ r) (upstream_connecting_ r) (client_read_open_ r)
    (client_write_open_ r) (upstream_read_open_ r) (upstream_write_open_ r) (faults_active_ r)
    (reset_after_bytes_ r) (half_close_after_bytes_ r) v (relay_state_ r)
    (client_to_upstream_ r) (upstream_to_client_ r) (metrics_ r) (accepted_at_ r)
    (last_activity_ r).

Definition set_relay_state (v : ConnectionState) (r : Relay) : Relay :=
  mkRelay (client_fd_ r) (upstream_fd_ r) (upstream_connecting_ r) (client_read_open_ r)
    (client_write_open_ r) (upstream_read_open_ r) (upstream_write_open_ r) (faults_active_ r)
    (reset_after_bytes_ r) (half_close_after_bytes_ r) (half_close_injected_ r) v
    (client_to_upstream_ r) (upstream_to_client_ r) (metrics_ r) (accepted_at_ r)
    (last_activity_ r).

Definition set_client_to_upstream (v : Direction) (r : Relay) : Relay :=
  mkRelay (client_fd_ r) (upstream_fd_ r) (upstream_connecting_ r) (client_read_open_ r)
    (client_write_open_ r) (upstream_read_open_ r) (upstream_write_open_ r) (faults_active_ r)
    (reset_after_bytes_ r) (half_close_after_bytes_ r) (half_close_injected_ r) (relay_state_ r)
    v (upstream_to_client_ r) (metrics_ r) (accepted_at_ r) (last_activity_ r).

Definition set_upstream_to_client (v : Direction) (r : Relay) : Relay :=
  mkRelay (client_fd_ r) (upstream_fd_ r) (upstream_connecting_ r) (client_read_open_ r)
    (client_write_open_ r) (upstream_read_open_ r) (upstream_write_open_ r) (faults_active_ r)
    (reset_after_bytes_ r) (half_close_after_bytes_ r) (half_close_injected_ r) (relay_state_ r)
    (client_to_upstream_ r) v (metrics_ r) (accepted_at_ r) (last_activity_ r).

Definition set_metrics (v : RelayMetrics) (r : Relay) : Relay :=
  mkRelay (client_fd_ r) (upstream_fd_ r) (upstream_connecting_ r) (client_read_open_ r)
    (client_write_open_ r) (upstream_read_open_ r) (upstream_write_open_ r) (faults_active_ r)
    (reset_after_bytes_ r) (half_close_after_bytes_ r) (half_close_injected_ r) (relay_state_ r)
    (client_to_upstream_ r) (upstream_to_client_ r) v (accepted_at_ r) (last_activity_ r).

Definition set_last_activity (v : Z) (r : Relay) : Relay :=
  mkRelay (client_fd_ r) (upstream_fd_ r) (upstream_connecting_ r) (client_read_open_ r)
    (client_write_open_ r) (upstream_read_open_ r) (upstream_write_open_ r) (faults_active_ r)
    (reset_after_bytes_ r) (half_close_after_bytes_ r) (half_close_injected_ r) (relay_state_ r)
    (client_to_upstream_ r) (upstream_to_client_ r) (metrics_ r) (accepted_at_ r) v.

Definition set_queue (q : ByteQueue) (d : Direction) : Direction :=
  mkDirection q (backpressure d) (fault d).
Definition set_backpressure (t : BackpressureTracker) (d : Direction) : Direction :=
  mkDirection (queue d) t (fault d).
Definition set_fault (c : option FaultChannel) (d : Direction) : Direction :=
  mkDirection (queue d) (backpressure d) c.
Definition set_delay (l : option DelayLine) (c : FaultChannel) : FaultChannel :=
  mkFaultChannel l (bucket c) (rng c) (channel_latency c) (channel_jitter c)
    (delayed_segments c) (delay_budget c).
Definition set_bucket (b : option TokenBucket) (c : FaultChannel) : FaultChannel :=
  mkFaultChannel (delay c) b (rng c) (channel_latency c) (channel_jitter c)
    (delayed_segments c) (delay_budget c).

(** ** References into the relay *)

(** The direction whose source is the given side. *)
Definition direction_from (source : Side) (r : Relay) : Direction :=
  match source with Client => client_to_upstream_ r | Upstream => upstream_to_client_ r end.
Definition set_direction (source : Side) (d : Direction) (r : Relay) : Relay :=
  match source with
  | Client => set_client_to_upstream d r
  | Upstream => set_upstream_to_client d r
  end.

Definition read_open (side : Side) (r : Relay) : bool :=
  match side with Client => client_read_open_ r | Upstream => upstream_read_open_ r end.
Definition set_read_open (side : Side) (v : bool) (r : Relay) : Relay :=
  match side with Client => set_client_read_open v r | Upstream => set_upstream_read_open v r end.

Definition write_open (side : Side) (r : Relay) : bool :=
  match side with Client => client_write_open_ r | Upstream => upstream_write_open_ r end.
Definition set_write_open (side : Side) (v : bool) (r : Relay) : Relay :=
  match side with Client => set_client_write_open v r | Upstream => set_upstream_write_open v r end.

Definition fd_for (side : Side) (r : Relay) : Z :=
  match side with Client => client_fd_ r | Upstream => upstream_fd_ r end.

(** ** Construction *)

Definition make_Direction (capacity low_water high_water : Z) : outcome Direction :=
  q ← make_ByteQueue capacity;
  t ← make_BackpressureTracker low_water high_water;
  Ok (mkDirection q t None).

Definition milliseconds_to_nanoseconds (ms : Z) : Z := ms * 1000000.

(** The lambda [make_channel] of the constructor. *)
Definition make_channel (faults : FaultPlan) (connection_seed direction_index now : Z)
    (direction : Direction) : outcome Direction :=
  bucket ← (if 0 <? rate_bytes_per_second faults
            then Some <$> make_TokenBucket (rate_bytes_per_second faults)
                            (effective_burst_bytes faults) now
            else Ok None);
  Ok (set_fault (Some (mkFaultChannel
        (if (0 <? latency faults) || (0 <? jitter faults) then Some empty_DelayLine else None)
        bucket
        (mkSplitMix64 (derive_direction_seed connection_seed direction_index))
        (milliseconds_to_nanoseconds (latency faults))
        (milliseconds_to_nanoseconds (jitter faults))
        0 0)) direction).

Definition make_Relay (config : RelayConfig) (faults : FaultPlan) (connection_id : Z)
    (client_fd upstream_fd : Z) (upstream_connecting : bool) (now : Z) : outcome Relay :=
  c2u ← make_Direction (buffer_bytes_per_direction config) (low_water_bytes config)
          (high_water_bytes config);
  u2c ← make_Direction (buffer_bytes_per_direction config) (low_water_bytes config)
          (high_water_bytes config);
  let relay faults_active reset_after half_close_after c2u u2c :=
    mkRelay client_fd upstream_fd upstream_connecting true true true true faults_active
      reset_after half_close_after false
      (if upstream_connecting then ConnectingUpstream else Active)
      c2u u2c (mkRelayMetrics 0 0 0 0 0 0 0 0) now now in
  if negb (any_enabled faults) then Ok (relay false 0 0 c2u u2c)
  else
    let connection_seed := derive_connection_seed (master_seed faults) connection_id in
    let paced := (0 <? latency faults) || (0 <? jitter faults)
                 || (0 <? rate_bytes_per_second faults) in
    c2u ← (if paced && applies_to_client_to_upstream faults
           then make_channel faults connection_seed 0 now c2u else Ok c2u);
    u2c ← (if paced && applies_to_upstream_to_client faults
           then make_channel faults connection_seed 1 now u2c else Ok u2c);
    Ok (relay true (reset_after_bytes faults) (half_close_after_bytes faults) c2u u2c).

(** ** Fault gating *)

Definition kPreferredReleaseBytes : Z := 4096.

Definition release_quantum (eligible_bytes burst_bytes : Z) : Z :=
  Z.min (Z.min eligible_bytes burst_bytes) kPreferredReleaseBytes.

Definition earlier (left right : option Z) : option Z :=
  match left, right with
  | None, _ => right
  | _, None => left
  | Some l, Some r => Some (Z.min l r)
  end.

Definition stamp_ingress (direction : Direction) (bytes now : Z) : Direction :=
  match fault direction with
  | Some channel =>
      match delay channel with
      | Some line =>
          let '(sample, rng) := sample_jitter (rng channel) (channel_jitter channel) in
          let delay := channel_latency channel + sample in
          let delay := if delay <? 0 then 0 else delay in
          set_fault (Some (mkFaultChannel
            (Some (on_commit line bytes (now + delay))) (bucket channel) rng
            (channel_latency channel) (channel_jitter channel)
            (u64_succ (delayed_segments channel)) (delay_budget channel + delay))) direction
      | None => direction
      end
  | None => direction
  end.

(** Returns the budget, and the direction whose bucket was refilled. *)
Definition fault_sendable (direction : Direction) (limit now : Z) : Z * Direction :=
  match fault direction with
  | None => (limit, direction)
  | Some channel =>
      let limit := match delay channel with
                   | Some line => Z.min limit (releasable line now)
                   | None => limit
                   end in
      match bucket channel with
      | Some b =>
          let '(available, b) := bucket_available b now in
          let direction := set_fault (Some (set_bucket (Some b) channel)) direction in
          if available <? release_quantum limit (burst_ b) then (0, direction)
          else (Z.min limit available, direction)
      | None => (limit, direction)
      end
  end.

(** ** Events, socket traffic and the world of the methods *)

Record RelayEvent := mkRelayEvent {
  event_name : string;
  event_state : ConnectionState;
  event_detail : string;
}.

(** What crossed the sockets: bytes received from a side, bytes sent to a side,
    and the shutdown of the writes towards a side. *)
Inductive WireOp :=
  | WireIn (side : Side) (bs : list byte)
  | WireOut (side : Side) (bs : list byte)
  | WireShutdown (side : Side).

Record World (W : Type) := mkWorld {
  w_relay : Relay;
  w_io : W;
  w_events : list RelayEvent;   (* oldest first *)
  w_wire : list WireOp;         (* oldest first *)
}.
Arguments mkWorld {W} _ _ _ _.
Arguments w_relay {W} _.
Arguments w_io {W} _.
Arguments w_events {W} _.
Arguments w_wire {W} _.

(** The C library's [std::strerror]. *)
Class Libc := { strerror : Z → string }.

Definition other_label (source : Side) : string :=
  match source with Client => "client_to_upstream" | Upstream => "upstream_to_client" end.

Section methods.
Context {W : Type} `{SocketIo W} `{Libc}.

Abbreviation RM := (M (World W)).

Definition set_relay (r : Relay) (w : World W) : World W :=
  mkWorld r (w_io w) (w_events w) (w_wire w).
Definition get_relay : RM Relay := gets w_relay.
Definition modify_relay (f : Relay → Relay) : RM unit := modify (λ w, set_relay (f (w_relay w)) w).
Definition modify_direction (source : Side) (f : Direction → Direction) : RM unit :=
  modify_relay (λ r, set_direction source (f (direction_from source r)) r).
Definition modify_metrics (f : RelayMetrics → RelayMetrics) : RM unit :=
  modify_relay (λ r, set_metrics (f (metrics_ r)) r).

(** [observer_.on_event(event, state_, detail)] *)
Definition on_event (event detail : string) : RM unit :=
  modify (λ w, mkWorld (w_relay w) (w_io w)
    (w_events w ++ [mkRelayEvent event (relay_state_ (w_relay w)) detail]) (w_wire w)).

Definition record_wire (op : WireOp) (w : World W) : World W :=
  mkWorld (w_relay w) (w_io w) (w_events w) (w_wire w ++ [op]).
Definition set_io (io : W) (w : World W) : World W :=
  mkWorld (w_relay w) io (w_events w) (w_wire w).

(** [io_.receive(fd_for(source), writable)]: the received bytes are stored in
    the queue's storage through the span. *)
Definition receive (source : Side) (writable : span) : RM IoResult :=
  λ w,
    let '(result, bs, io) := io_receive (w_io w) (fd_for source (w_relay w)) (sp_length writable) in
    let store d := set_queue (span_store (queue d) writable bs) d in
    let w := set_relay (set_direction source (store (direction_from source (w_relay w))) (w_relay w))
               (set_io io w) in
    Ok (result, if decide (status result = Transferred) then record_wire (WireIn source bs) w else w).

Definition send (destination : Side) (data : list byte) : RM IoResult :=
  λ w,
    let '(result, io) := io_send (w_io w) (fd_for destination (w_relay w)) data in
    let w := set_io io w in
    Ok (result,
        if decide (status result = Transferred)
        then record_wire (WireOut destination (take (Z.to_nat (bytes result)) data)) w else w).

Definition shutdown_write (side : Side) : RM bool :=
  λ w,
    let '(ok, io) := io_shutdown_write (w_io w) (fd_for side (w_relay w)) in
    let w := set_io io w in
    Ok (ok, if ok then record_wire (WireShutdown side) w else w).

Definition refresh_state : RM unit :=
  modify_relay (λ r, set_relay_state (derive_connection_state
    (mkLifecycle (upstream_connecting_ r) (client_read_open_ r) (upstream_read_open_ r))) r).

Definition mark_upstream_connected : RM unit :=
  _ ← modify_relay (set_upstream_connecting false);
  refresh_state.

Definition note_half_closed_read (source : Side) : RM unit :=
  _ ← modify_relay (set_read_open source false);
  _ ← refresh_state;
  on_event "peer_half_closed"
    (match source with
     | Client => "direction=client_read" | Upstream => "direction=upstream_read" end).

Definition close_for_error (error : Z) (operation : string) : PumpResult :=
  let reset := (error =? ECONNRESET) || (error =? EPIPE) in
  mkPumpResult CloseConnection (if reset then Reset else Failed)
    (operation +:+ "=" +:+ strerror error).

Definition observe_backpressure (source : Side) (now : Z) : RM unit :=
  r ← get_relay;
  let direction := direction_from source r in
  '(transition, tracker) ← lift (observe (backpressure direction) (size_ (queue direction))
                                   (capacity (queue direction)) now);
  _ ← modify_direction source (set_backpressure tracker);
  if decide (transition = NoTransition) then mret tt
  else
    on_event (if decide (transition = Paused) then "read_paused" else "read_resumed")
      ("direction=" +:+ other_label source
       +:+ ",queue_bytes=" +:+ pretty (size_ (queue direction))
       +:+ ",low_water_bytes=" +:+ pretty (low_water_bytes_ tracker)
       +:+ ",high_water_bytes=" +:+ pretty (high_water_bytes_ tracker)).

Definition count_read (source : Side) (bytes : Z) (m : RelayMetrics) : RelayMetrics :=
  let m := set_read_operations (u64_succ (read_operations m)) m in
  match source with
  | Client => set_client_bytes_read (u64_add (client_bytes_read m) bytes) m
  | Upstream => set_upstream_bytes_read (u64_add (upstream_bytes_read m) bytes) m
  end.

(** The [Transferred] branch of the loop of [handle_readable]. *)
Definition after_receive (source : Side) (bytes now : Z) : RM unit :=
  r ← get_relay;
  q ← lift (commit_write (queue (direction_from source r)) bytes);
  _ ← modify_direction source (set_queue q);
  _ ← modify_direction source (λ d, stamp_ingress d bytes now);
  _ ← modify_relay (set_last_activity now);
  _ ← modify_metrics (count_read source bytes);
  observe_backpressure source now.

(** The loop of [handle_readable]. A transfer moves at least one byte, so the
    high-water mark bounds the iterations. *)
Fixpoint handle_readable_loop (fuel : nat) (source : Side) (hangup_hint : bool) (now : Z)
    : RM PumpResult :=
  r ← get_relay;
  let direction := direction_from source r in
  if read_open source r && negb (read_paused_ (backpressure direction)) then
    match fuel with
    | O => out_of_fuel
    | S fuel =>
        let available_to_high_water :=
          u64_sub (high_water_bytes_ (backpressure direction)) (size_ (queue direction)) in
        let full_writable_span := writable_span (queue direction) in
        writable ← lift (span_first full_writable_span
                           (Z.min (sp_length full_writable_span) available_to_high_water));
        result ← receive source writable;
        match status result with
        | Transferred =>
            _ ← after_receive source (bytes result) now;
            handle_readable_loop fuel source hangup_hint now
        | PeerClosed =>
            _ ← note_half_closed_read source;
            mret default_PumpResult
        | WouldBlock =>
            _ ← modify_metrics (λ m, set_eagain_events (u64_succ (eagain_events m)) m);
            _ ← (if hangup_hint then note_half_closed_read source else mret tt);
            mret default_PumpResult
        | Error => mret (close_for_error (error result) "read")
        end
    end
  else mret default_PumpResult.

Definition handle_readable (source : Side) (hangup_hint : bool) (now : Z) : RM PumpResult :=
  r ← get_relay;
  handle_readable_loop (Z.to_nat (high_water_bytes_ (backpressure (direction_from source r))))
    source hangup_hint now.

Definition check_lifecycle_faults : RM PumpResult :=
  r ← get_relay;
  let total_written := u64_add (client_bytes_written (metrics_ r)) (upstream_bytes_written (metrics_ r)) in
  _ ← (if (0 <? half_close_after_bytes_ r) && negb (half_close_injected_ r) && client_write_open_ r
          && (half_close_after_bytes_ r <=? client_bytes_written (metrics_ r))
       then
         _ ← modify_relay (set_half_close_injected true);
         ok ← shutdown_write Client;
         if (ok : bool) then
           _ ← modify_relay (set_client_write_open false);
           on_event "fault_injected"
             ("fault=half_close,direction=client_write,after_bytes="
              +:+ pretty (client_bytes_written (metrics_ r)))
         else mret tt
       else mret tt);
  if (0 <? reset_after_bytes_ r) && (reset_after_bytes_ r <=? total_written) then
    _ ← on_event "fault_injected" ("fault=reset,after_bytes=" +:+ pretty total_written);
    mret (mkPumpResult CloseConnection Reset "fault_reset")
  else mret default_PumpResult.

Definition count_write (destination : Side) (bytes : Z) (m : RelayMetrics) : RelayMetrics :=
  let m := set_write_operations (u64_succ (write_operations m)) m in
  match destination with
  | Client => set_client_bytes_written (u64_add (client_bytes_written m) bytes) m
  | Upstream => set_upstream_bytes_written (u64_add (upstream_bytes_written m) bytes) m
  end.

(** The bookkeeping of the fault channel after a write. *)
Definition consume_faults (bytes : Z) (direction : Direction) : outcome Direction :=
  match fault direction with
  | None => Ok direction
  | Some channel =>
      delay' ← match delay channel with
               | Some line => Some <$> on_consume line bytes
               | None => Ok None
               end;
      bucket' ← match bucket channel with
                | Some b => Some <$> bucket_consume b bytes
                | None => Ok None
                end;
      Ok (set_fault (Some (set_bucket bucket' (set_delay delay' channel))) direction)
  end.

(** The [Transferred] branch of the loop of [flush]. *)
Definition after_send (destination : Side) (bytes budget now : Z) : RM unit :=
  let source := other destination in
  _ ← (if bytes <? budget
       then modify_metrics (λ m, set_partial_writes (u64_succ (partial_writes m)) m)
       else mret tt);
  r ← get_relay;
  q ← lift (consume (queue (direction_from source r)) bytes);
  _ ← modify_direction source (set_queue q);
  r ← get_relay;
  direction ← lift (consume_faults bytes (direction_from source r));
  _ ← modify_direction source (λ _, direction);
  _ ← observe_backpressure source now;
  _ ← modify_relay (set_last_activity now);
  modify_metrics (count_write destination bytes).

(** The loop of [flush]; [Some] is the early return on a write error. A
    transfer moves at least one byte, so the queue size bounds the iterations. *)
Fixpoint flush_loop (fuel : nat) (destination : Side) (now : Z) : RM (option PumpResult) :=
  let source := other destination in
  r ← get_relay;
  let direction := direction_from source r in
  if negb (empty (queue direction)) then
    match fuel with
    | O => out_of_fuel
    | S fuel =>
        let readable := readable_span (queue direction) in
        let '(budget, direction) := fault_sendable direction (sp_length readable) now in
        _ ← modify_direction source (λ _, direction);
        if budget =? 0 then mret None
        else
          data ← lift (span_first readable budget);
          result ← send destination (span_bytes (queue direction) data);
          match status result with
          | Transferred =>
              _ ← after_send destination (bytes result) budget now;
              flush_loop fuel destination now
          | WouldBlock =>
              _ ← modify_metrics (λ m, set_eagain_events (u64_succ (eagain_events m)) m);
              mret None
          | _ => mret (Some (close_for_error (error result) "write"))
          end
    end
  else mret None.

Definition flush (destination : Side) (now : Z) : RM PumpResult :=
  r ← get_relay;
  if negb (write_open destination r)
     || (bool_decide (destination = Upstream) && upstream_connecting_ r)
  then mret default_PumpResult
  else
    early ← flush_loop (Z.to_nat (size_ (queue (direction_from (other destination) r))))
              destination now;
    match early with
    | Some result => mret result
    | None => check_lifecycle_faults
    end.

Definition propagate_half_closes : RM unit :=
  r ← get_relay;
  _ ← (if negb (client_read_open_ r) && empty (queue (client_to_upstream_ r))
          && upstream_write_open_ r && negb (upstream_connecting_ r)
       then
         ok ← shutdown_write Upstream;
         if (ok : bool) then
           _ ← modify_relay (set_upstream_write_open false);
           on_event "half_close_forwarded" "direction=upstream_write"
         else mret tt
       else mret tt);
  r ← get_relay;
  if negb (upstream_read_open_ r) && empty (queue (upstream_to_client_ r)) && client_write_open_ r
  then
    ok ← shutdown_write Client;
    if (ok : bool) then
      _ ← modify_relay (set_client_write_open false);
      on_event "half_close_forwarded" "direction=client_write"
    else mret tt
  else mret tt.

Definition next_wake (destination : Side) (now : Z) : RM (option Z) :=
  let source := other destination in
  r ← get_relay;
  let direction := direction_from source r in
  if negb (write_open destination r)
     || (bool_decide (destination = Upstream) && upstream_connecting_ r)
     || empty (queue direction) || bool_decide (fault direction = None)
  then mret None
  else
    let '(sendable, direction) := fault_sendable direction (size_ (queue direction)) now in
    _ ← modify_direction source (λ _, direction);
    if 0 <? sendable then mret None
    else
      match fault direction with
      | None => mret None
      | Some channel =>
          let releasable_now := match delay channel with
                                | Some line => releasable line now
                                | None => size_ (queue direction)
                                end in
          let wake := match delay channel with
                      | Some line => if releasable_now =? 0 then next_eligible line now else None
                      | None => None
                      end in
          match bucket channel with
          | Some b =>
              if 0 <? releasable_now then
                let '(at_, b) := eligible_at b (release_quantum releasable_now (burst_ b)) now in
                _ ← modify_direction source (set_fault (Some (set_bucket (Some b) channel)));
                mret (earlier wake (Some at_))
              else mret wake
          | None => mret wake
          end
      end.

Definition fully_drained (r : Relay) : bool :=
  let client_to_upstream_done :=
    empty (queue (client_to_upstream_ r)) || negb (upstream_write_open_ r) in
  let upstream_to_client_done :=
    empty (queue (upstream_to_client_ r)) || negb (client_write_open_ r) in
  negb (client_read_open_ r) && negb (upstream_read_open_ r)
  && client_to_upstream_done && upstream_to_client_done.

(** The read interest. *)
Definition wants_read (side : Side) (r : Relay) : bool :=
  read_open side r && negb (read_paused_ (backpressure (direction_from side r))).

(** [&&] is short-circuiting: the bucket is refilled only when the first two
    conditions of the write interest hold. *)
Definition desired_interest (side : Side) (now : Z) : RM InterestSet :=
  r ← get_relay;
  if bool_decide (side = Upstream) && upstream_connecting_ r then
    mret (mkInterestSet false true)
  else
    let outbound_source := other side in
    let outbound := direction_from outbound_source r in
    if write_open side r && negb (empty (queue outbound)) then
      let '(sendable, outbound') := fault_sendable outbound (size_ (queue outbound)) now in
      _ ← modify_direction outbound_source (λ _, outbound');
      mret (mkInterestSet (wants_read side r) (0 <? sendable))
    else mret (mkInterestSet (wants_read side r) false).
End methods.
