(* ===== verification/RelayDirection.v ===== *)
(** * One direction of the relay

    The effect of the relay's methods on a single [Direction], without the
    monad: refilling the bucket, one transfer into the queue ([dir_read]) and
    one transfer out of it ([dir_write]). [dir_step] collects them as a labelled
    transition system; what is proved here of its executions (no lost or
    reordered byte, no byte before its time, rate conformance) holds of the
    relay because RelayFacts.v shows that every method performs such steps. *)

From Stdlib Require Import ZArith Lia Init.Byte.
From stdpp Require Import base numbers list option strings.
From S2P Require Import Prelude ByteQueue Backpressure DelayLine TokenBucket FaultRng.
From S2P Require Import FaultPlan ConnectionState SocketIo Relay.

Local Open Scope Z_scope.

Definition dir_delay (d : Direction) : option DelayLine := fault d ≫= delay.
Definition dir_bucket (d : Direction) : option TokenBucket := fault d ≫= bucket.

(** A bucket on which the code cannot throw, whatever its burst. *)
Definition bucket_weak (b : TokenBucket) : Prop :=
  0 < rate_ b ≤ giga ∧ 0 ≤ tokens_ b ≤ burst_ b ∧ 0 < burst_ b < two64.

Record dir_inv (d : Direction) : Prop := mkDirInv {
  dv_queue : queue_inv (queue d);
  dv_tracker : tracker_inv (backpressure d) (size_ (queue d)) (capacity (queue d));
  dv_delay l : dir_delay d = Some l → delay_inv l ∧ pending_ l = size_ (queue d);
  dv_bucket b : dir_bucket d = Some b → bucket_weak b;
  dv_jitter c : fault d = Some c → 0 ≤ channel_jitter c < two63 / 2;
  dv_high_water : high_water_mark_ (queue d) ≤ high_water_bytes_ (backpressure d);
}.

(** The least delay of a read byte: the latency less the largest jitter. *)
Definition min_delay (d : Direction) : Z :=
  match fault d with Some c => Z.max 0 (channel_latency c - channel_jitter c) | None => 0 end.

(** What no operation changes: capacity, watermarks, delay and rate. *)
Definition dir_static (d : Direction) : Z * Z * Z * Z * bool * option (Z * Z) :=
  (capacity (queue d), low_water_bytes_ (backpressure d), high_water_bytes_ (backpressure d),
   min_delay d, bool_decide (is_Some (dir_delay d)),
   (λ b, (rate_ b, burst_ b)) <$> dir_bucket d).

(** ** The three effects *)

Definition refill_direction (d : Direction) (now : Z) : Direction :=
  match fault d with
  | Some c =>
      match bucket c with
      | Some b => set_fault (Some (set_bucket (Some (refill b now)) c)) d
      | None => d
      end
  | None => d
  end.

Definition observe_direction (d : Direction) (now : Z) : outcome Direction :=
  '(_, t) ← observe (backpressure d) (size_ (queue d)) (capacity (queue d)) now;
  Ok (set_backpressure t d).

Definition dir_read (d : Direction) (bs : list byte) (now : Z) : outcome Direction :=
  q ← commit_write (span_store (queue d) (writable_span (queue d)) bs) (Z.of_nat (length bs));
  observe_direction (stamp_ingress (set_queue q d) (Z.of_nat (length bs)) now) now.

Definition dir_write (d : Direction) (n now : Z) : outcome Direction :=
  q ← consume (queue d) n;
  d ← consume_faults n (set_queue q d);
  observe_direction d now.

Inductive dir_event :=
  | DRefill (now : Z)
  | DRead (bs : list byte) (now : Z)
  | DWrite (bs : list byte) (now : Z).

Definition event_time (e : dir_event) : Z :=
  match e with DRefill now | DRead _ now | DWrite _ now => now end.
Definition dir_reads (es : list dir_event) : list byte :=
  es ≫= λ e, match e with DRead bs _ => bs | _ => [] end.
Definition dir_writes (es : list dir_event) : list byte :=
  es ≫= λ e, match e with DWrite bs _ => bs | _ => [] end.

(** A write takes at most the budget that [fault_sendable] grants for the
    readable span, and the bucket has just been refilled. *)
Inductive dir_step : Direction → dir_event → Direction → Prop :=
  | step_refill d now : dir_step d (DRefill now) (refill_direction d now)
  | step_read d bs now d' :
      read_paused_ (backpressure d) = false →
      (0 < length bs)%nat →
      Z.of_nat (length bs) ≤ sp_length (writable_span (queue d)) →
      Z.of_nat (length bs) ≤ high_water_bytes_ (backpressure d) - size_ (queue d) →
      dir_read d bs now = Ok d' →
      dir_step d (DRead bs now) d'
  | step_write d n bs now d' :
      0 < n ≤ (fault_sendable d (sp_length (readable_span (queue d))) now).1 →
      bs = take (Z.to_nat n) (contents (queue d)) → (0 < length bs)%nat →
      dir_write (refill_direction d now) n now = Ok d' →
      dir_step d (DWrite bs now) d'.

(** ** Projections of updated directions *)

Lemma dir_delay_set_queue q d : dir_delay (set_queue q d) = dir_delay d.
Proof. done. Qed.
Lemma dir_bucket_set_queue q d : dir_bucket (set_queue q d) = dir_bucket d.
Proof. done. Qed.

Lemma dir_delay_refill d now : dir_delay (refill_direction d now) = dir_delay d.
Proof. unfold refill_direction, dir_delay. destruct d as [q t [[dl [b|] r l j n g]|]]; done. Qed.

Lemma dir_bucket_refill d now :
  dir_bucket (refill_direction d now) = (λ b, refill b now) <$> dir_bucket d.
Proof. unfold refill_direction, dir_bucket. destruct d as [q t [[dl [b|] r l j n g]|]]; done. Qed.

Lemma queue_refill d now : queue (refill_direction d now) = queue d.
Proof. unfold refill_direction. destruct d as [q t [[dl [b|] r l j n g]|]]; done. Qed.

Lemma backpressure_refill d now : backpressure (refill_direction d now) = backpressure d.
Proof. unfold refill_direction. destruct d as [q t [[dl [b|] r l j n g]|]]; done. Qed.

Lemma queue_stamp d n now : queue (stamp_ingress d n now) = queue d.
Proof.
  unfold stamp_ingress. destruct d as [q t [[[l|] b r la j s g]|]]; cbn; try done.
  by destruct (sample_jitter r j).
Qed.

Lemma backpressure_stamp d n now : backpressure (stamp_ingress d n now) = backpressure d.
Proof.
  unfold stamp_ingress. destruct d as [q t [[[l|] b r la j s g]|]]; cbn; try done.
  by destruct (sample_jitter r j).
Qed.

Lemma dir_bucket_stamp d n now : dir_bucket (stamp_ingress d n now) = dir_bucket d.
Proof.
  unfold stamp_ingress. destruct d as [q t [[[l|] b r la j s g]|]]; cbn; try done.
  by destruct (sample_jitter r j).
Qed.

(** The stamp is at least the minimum delay after the read. *)
Lemma dir_delay_stamp d n now :
  (∀ c, fault d = Some c → 0 ≤ channel_jitter c < two63 / 2) →
  ∃ at_, now + min_delay d ≤ at_
    ∧ dir_delay (stamp_ingress d n now) = (λ l, on_commit l n at_) <$> dir_delay d.
Proof.
  intros Hj. unfold stamp_ingress, dir_delay, min_delay.
  destruct d as [q t [[[l|] b r la j s g]|]]; cbn in *;
    try (eexists (now + _); split; [apply Z.le_refl|done]).
  specialize (Hj _ eq_refl). cbn in Hj. pose proof (sample_jitter_ok r j ltac:(lia)) as Hs.
  destruct (sample_jitter r j) as [smp r']. cbn.
  eexists (now + _). split; [|done]. destruct (Z.ltb_spec (la + smp) 0); lia.
Qed.

Lemma min_delay_stamp d n now : min_delay (stamp_ingress d n now) = min_delay d.
Proof.
  unfold stamp_ingress, min_delay. destruct d as [q t [[[l|] b r la j s g]|]]; cbn; try done.
  by destruct (sample_jitter r j).
Qed.

Lemma min_delay_refill d now : min_delay (refill_direction d now) = min_delay d.
Proof. unfold refill_direction, min_delay. destruct d as [q t [[dl [b|] r l j n g]|]]; done. Qed.

Lemma jitter_stamp d n now c' :
  fault (stamp_ingress d n now) = Some c' →
  ∃ c, fault d = Some c ∧ channel_jitter c' = channel_jitter c.
Proof.
  unfold stamp_ingress. destruct d as [q t [[[l|] b r la j s g]|]]; cbn; try done.
  - destruct (sample_jitter r j). intros [= <-]. eauto.
  - intros [= <-]. eauto.
Qed.

Lemma jitter_refill d now c' :
  fault (refill_direction d now) = Some c' →
  ∃ c, fault d = Some c ∧ channel_jitter c' = channel_jitter c.
Proof.
  unfold refill_direction. destruct d as [q t [[dl [b|] r l j n g]|]]; cbn; try done;
    intros [= <-]; eauto.
Qed.
#[export] Hint Rewrite dir_delay_refill dir_bucket_refill queue_refill backpressure_refill
  queue_stamp backpressure_stamp dir_bucket_stamp min_delay_stamp min_delay_refill : netfault_dir.

(** ** Fault gating *)

Lemma refill_weak b now :
  bucket_weak b → bucket_weak (refill b now) ∧ burst_ (refill b now) = burst_ b
  ∧ rate_ (refill b now) = rate_ b.
Proof.
  intros (Hr & Ht & Hb). unfold refill, bucket_weak.
  destruct (now <=? last_refill_ b); [done|]. cbn zeta.
  destruct (u64_add _ 1 <=? _); cbn; [lia|].
  match goal with |- context [Z.min ?u _] => assert (0 ≤ u) by apply wrap64_range end. lia.
Qed.

Lemma fault_sendable_refills d limit now :
  (fault_sendable d limit now).2 = refill_direction d now.
Proof.
  unfold fault_sendable, refill_direction, bucket_available.
  destruct d as [q t [[dl [b|] r la j s g]|]]; cbn; try done.
  by destruct (_ <? _).
Qed.

(** The budget is within the request, the released bytes and the tokens. *)
Lemma fault_sendable_bounds d limit now :
  dir_inv d → 0 ≤ limit →
  0 ≤ (fault_sendable d limit now).1 ≤ limit
  ∧ (∀ l, dir_delay d = Some l → (fault_sendable d limit now).1 ≤ releasable l now)
  ∧ (∀ b, dir_bucket d = Some b → (fault_sendable d limit now).1 ≤ tokens_ (refill b now)).
Proof.
  intros I Hl.
  assert (Hrel : ∀ l, dir_delay d = Some l → 0 ≤ releasable l now)
    by (intros l Hd; apply releasable_bounds; by destruct (dv_delay d I l Hd)).
  assert (Htok : ∀ b, dir_bucket d = Some b → 0 ≤ tokens_ (refill b now))
    by (intros b Hb; destruct (refill_weak b now (dv_bucket d I b Hb)) as [(_ & ? & _) _]; lia).
  unfold fault_sendable, bucket_available, dir_delay, dir_bucket in *.
  destruct d as [q t [[[l|] [b|] r la j s g]|]]; cbn in *;
    repeat match goal with
    | |- context [if ?x <? ?y then _ else _] => destruct (x <? y); cbn
    end;
    try specialize (Hrel l eq_refl); try specialize (Htok b eq_refl);
    (split_and!; [lia|lia| |]); intros ? [= <-] || intros ? ?; done || lia.
Qed.

Lemma refill_direction_inv d now :
  dir_inv d →
  dir_inv (refill_direction d now) ∧ dir_static (refill_direction d now) = dir_static d.
Proof.
  intros I. split.
  - split; autorewrite with netfault_dir; [apply I..| | |apply I].
    + intros b Hb. destruct (dir_bucket d) as [b0|] eqn:E; [|done]. injection Hb as <-.
      apply refill_weak. by apply (dv_bucket d I).
    + intros c' (c & Hc & ->)%jitter_refill. by apply (dv_jitter d I).
  - unfold dir_static. autorewrite with netfault_dir. f_equal.
    pose proof (dv_bucket d I) as Hb. destruct (dir_bucket d) as [b|]; [|done]. cbn.
    by destruct (refill_weak b now (Hb b eq_refl)) as (_ & -> & ->).
Qed.

(** ** One transfer *)

Lemma observe_direction_ok d occ0 now :
  tracker_inv (backpressure d) occ0 (capacity (queue d)) →
  0 ≤ size_ (queue d) ≤ capacity (queue d) →
  succeeds (observe_direction d now) (λ d',
    ∃ t, d' = set_backpressure t d
      ∧ tracker_inv t (size_ (queue d)) (capacity (queue d))
      ∧ low_water_bytes_ t = low_water_bytes_ (backpressure d)
      ∧ high_water_bytes_ t = high_water_bytes_ (backpressure d)).
Proof.
  intros I Hs. unfold observe_direction.
  eapply succeeds_bind; [by eapply observe_ok|]. intros [tr t] (It & Hl & Hh & _). cbn. eauto.
Qed.

Lemma dir_read_ok d bs now :
  dir_inv d →
  Z.of_nat (length bs) ≤ sp_length (writable_span (queue d)) →
  Z.of_nat (length bs) ≤ high_water_bytes_ (backpressure d) - size_ (queue d) →
  succeeds (dir_read d bs now) (λ d',
    dir_inv d' ∧ dir_static d' = dir_static d
    ∧ contents (queue d') = contents (queue d) ++ bs
    ∧ dir_bucket d' = dir_bucket d
    ∧ ∃ at_, now + min_delay d ≤ at_
      ∧ option_Forall2 (λ l l', stamps l' = stamps l ++ replicate (length bs) at_)
          (dir_delay d) (dir_delay d')).
Proof.
  intros I Hlen Hhw. unfold dir_read. assert (Iq := dv_queue d I).
  eapply succeeds_bind; [apply write_appends; done|]. intros q (Hq & Hc & Hcap & Hsz & Hhwm).
  assert (Hqd := I). destruct Hqd as [_ It Il Ib Ij Ih]. rewrite <-Hcap in It.
  set (d1 := stamp_ingress (set_queue q d) _ now).
  assert (H1 : queue d1 = q ∧ backpressure d1 = backpressure d)
    by (unfold d1; by autorewrite with netfault_dir).
  destruct H1 as [Hq1 Ht1].
  eapply succeeds_mono.
  { apply observe_direction_ok with (size_ (queue d)); rewrite ?Hq1, ?Ht1; [done|destruct Hq; lia]. }
  intros d' (t & -> & It' & Hl & Hh). rewrite Hq1, Ht1 in *.
  destruct (dir_delay_stamp (set_queue q d) (Z.of_nat (length bs)) now Ij) as (at_ & Hat & Hdl).
  change (dir_delay (set_queue q d)) with (dir_delay d) in Hdl.
  change (min_delay (set_queue q d)) with (min_delay d) in Hat.
  assert (Hcom : ∀ l, dir_delay d = Some l → delay_inv (on_commit l (Z.of_nat (length bs)) at_)
     ∧ stamps (on_commit l (Z.of_nat (length bs)) at_)
       = stamps l ++ replicate (length bs) (Z.max (last_eligible_ l) at_)
     ∧ pending_ (on_commit l (Z.of_nat (length bs)) at_) = size_ q).
  { intros l Hl0. destruct (Il l Hl0) as [Id Hp].
    destruct (on_commit_ok l (Z.of_nat (length bs)) at_ Id) as (H1 & H2 & H3 & _);
      [lia|destruct Hq; lia|]. rewrite Nat2Z.id in H2. split_and!; done || lia. }
  split_and!.
  - split; cbn [queue set_backpressure backpressure]; rewrite ?Hq1; try done.
    + change (∀ l, dir_delay d1 = Some l → delay_inv l ∧ pending_ l = size_ q).
      unfold d1. rewrite Hdl. intros l' Hl'. destruct (dir_delay d) as [l|]; [|done].
      injection Hl' as <-. destruct (Hcom l eq_refl) as (? & _ & ?). done.
    + change (∀ b, dir_bucket d1 = Some b → bucket_weak b).
      unfold d1. by autorewrite with netfault_dir.
    + intros c' (c & Hcf & ->)%jitter_stamp. by apply Ij.
    + destruct Iq. lia.
  - unfold dir_static. change (dir_delay (set_backpressure t d1)) with (dir_delay d1).
    change (dir_bucket (set_backpressure t d1)) with (dir_bucket d1).
    change (min_delay (set_backpressure t d1)) with (min_delay d1).
    cbn [queue set_backpressure backpressure]. rewrite Hq1, Hcap, Hl, Hh. unfold d1.
    autorewrite with netfault_dir. rewrite Hdl. by destruct (dir_delay d).
  - cbn. by rewrite Hq1.
  - change (dir_bucket d1 = dir_bucket d). unfold d1. by autorewrite with netfault_dir.
  - change (dir_delay (set_backpressure t d1)) with (dir_delay d1). unfold d1. rewrite Hdl.
    destruct (dir_delay d) as [l|].
    + exists (Z.max (last_eligible_ l) at_). split; [lia|]. constructor.
      by destruct (Hcom l eq_refl) as (_ & ? & _).
    + exists at_. split; [done|constructor].
Qed.

Definition take_tokens (n : Z) (b : TokenBucket) : TokenBucket :=
  mkTokenBucket (rate_ b) (burst_ b) (tokens_ b - n) (last_refill_ b) (carry_product_ b).

Lemma bucket_consume_weak b n :
  bucket_weak b → 0 ≤ n ≤ tokens_ b → bucket_consume b n = Ok (take_tokens n b).
Proof.
  intros (Hr & Ht & Hb) Hn. unfold bucket_consume, throw_if.
  destruct (Z.ltb_spec (tokens_ b) n); [lia|]. cbn. unfold take_tokens. do 2 f_equal. wrap_lia.
Qed.

Lemma consume_faults_ok d n :
  0 ≤ n →
  (∀ l, dir_delay d = Some l → delay_inv l ∧ n ≤ pending_ l) →
  (∀ b, dir_bucket d = Some b → bucket_weak b ∧ n ≤ tokens_ b) →
  succeeds (consume_faults n d) (λ d',
    queue d' = queue d ∧ backpressure d' = backpressure d ∧ min_delay d' = min_delay d
    ∧ (∀ c', fault d' = Some c' → ∃ c, fault d = Some c ∧ channel_jitter c' = channel_jitter c)
    ∧ option_Forall2 (λ l l', delay_inv l' ∧ stamps l' = drop (Z.to_nat n) (stamps l)
                        ∧ pending_ l' = pending_ l - n) (dir_delay d) (dir_delay d')
    ∧ dir_bucket d' = take_tokens n <$> dir_bucket d).
Proof.
  intros Hn Hl Hb. unfold consume_faults, dir_delay, dir_bucket, min_delay in *.
  destruct d as [q t [[dl bk r la j sg g]|]]; cbn [fault mbind option_bind delay bucket] in *.
  2:{ cbn. split_and!; try done. constructor. }
  apply succeeds_bind with (P := λ dl', option_Forall2 (λ l l',
      delay_inv l' ∧ stamps l' = drop (Z.to_nat n) (stamps l) ∧ pending_ l' = pending_ l - n) dl dl').
  { destruct dl as [l|]; [|by constructor]. destruct (Hl l eq_refl) as [Id Hp].
    pose proof (on_consume_ok l n Id ltac:(lia)) as H'.
    destruct (on_consume l n); try done. cbn in *. constructor. tauto. }
  intros dl' Hdl.
  assert ((match bk with Some b => Some <$> bucket_consume b n | None => Ok None end)
          = Ok (take_tokens n <$> bk)) as ->.
  { destruct bk as [b|]; [|done]. destruct (Hb b eq_refl) as [Hw Ht].
    by rewrite bucket_consume_weak by (done || lia). }
  cbn. split_and!; try done. intros c' [= <-]. eauto.
Qed.

Lemma take_tokens_weak n b : bucket_weak b → 0 ≤ n ≤ tokens_ b → bucket_weak (take_tokens n b).
Proof. intros (? & ? & ?) ?. unfold bucket_weak; cbn. lia. Qed.

Lemma dir_write_ok d n now :
  dir_inv d → 0 ≤ n ≤ size_ (queue d) →
  (∀ b, dir_bucket d = Some b → n ≤ tokens_ b) →
  succeeds (dir_write d n now) (λ d',
    dir_inv d' ∧ dir_static d' = dir_static d
    ∧ contents (queue d') = drop (Z.to_nat n) (contents (queue d))
    ∧ dir_bucket d' = take_tokens n <$> dir_bucket d
    ∧ option_Forall2 (λ l l', stamps l' = drop (Z.to_nat n) (stamps l))
        (dir_delay d) (dir_delay d')).
Proof.
  intros I Hn Htok. unfold dir_write. destruct I as [Iq It Il Ib Ij Ih].
  eapply succeeds_bind; [apply consume_drops; done|]. intros q (Hq & Hc & Hcap & Hsz & Hhwm).
  eapply succeeds_bind.
  { apply consume_faults_ok; [lia| |].
    - intros l Hl. destruct (Il l Hl). split; [done|lia].
    - intros b Hb. split; [by apply Ib|by apply Htok]. }
  intros d1 (Hq1 & Ht1 & Hm1 & Hj1 & Hdl & Hbk).
  change (queue (set_queue q d)) with q in Hq1.
  change (backpressure (set_queue q d)) with (backpressure d) in Ht1.
  change (min_delay (set_queue q d)) with (min_delay d) in Hm1.
  change (dir_delay (set_queue q d)) with (dir_delay d) in Hdl.
  change (dir_bucket (set_queue q d)) with (dir_bucket d) in Hbk.
  eapply succeeds_mono.
  { apply observe_direction_ok with (size_ (queue d)); rewrite ?Hq1, ?Ht1, ?Hcap; [done|].
    destruct Hq. lia. }
  intros d' (t & -> & It' & Hl & Hh). rewrite Hq1, Ht1 in *.
  unfold dir_static. change (dir_delay (set_backpressure t d1)) with (dir_delay d1).
  change (dir_bucket (set_backpressure t d1)) with (dir_bucket d1).
  change (min_delay (set_backpressure t d1)) with (min_delay d1).
  cbn [queue set_backpressure backpressure fault]. rewrite Hq1, Hcap, Hl, Hh, Hm1, Hbk in *.
  split_and!; try done.
  - split; cbn [queue set_backpressure backpressure]; rewrite ?Hq1, ?Hcap; try done.
    + change (∀ l, dir_delay d1 = Some l → delay_inv l ∧ pending_ l = size_ q).
      intros l' Hl'. rewrite Hl' in Hdl. inversion Hdl as [l ? (H1 & _ & H3) He|]; subst.
      split; [done|]. destruct (Il l ltac:(done)). lia.
    + change (∀ b, dir_bucket d1 = Some b → bucket_weak b). rewrite Hbk. intros b' Hb'.
      destruct (dir_bucket d) as [b|]; [|done]. injection Hb' as <-.
      apply take_tokens_weak; [by apply Ib|]. specialize (Htok b eq_refl). lia.
    + intros c' (c & Hcf & ->)%Hj1. by apply Ij.
    + rewrite Hhwm. lia.
  - f_equal; [|by destruct (dir_bucket d)]. f_equal. by destruct Hdl.
  - destruct Hdl; constructor. tauto.
Qed.

(** ** Executions *)

Lemma dir_step_ok d e d' :
  dir_inv d → dir_step d e d' → dir_inv d' ∧ dir_static d' = dir_static d.
Proof.
  intros I Hs. destruct Hs as [d now|d bs now d' Hp Hb Hl Hh Hr|d n bs now d' Hn -> _ Hw].
  - by apply refill_direction_inv.
  - pose proof (dir_read_ok d bs now I Hl Hh) as H. rewrite Hr in H. by destruct H as (? & ? & _).
  - destruct (refill_direction_inv d now I) as [I1 Hs1].
    pose proof (readable_span_bounds (queue d) (dv_queue d I)) as (_ & _ & Hsp & _).
    destruct (fault_sendable_bounds d (sp_length (readable_span (queue d))) now I ltac:(lia))
      as (Hlim & _ & Htok).
    pose proof (dir_write_ok (refill_direction d now) n now I1) as H. rewrite Hw in H.
    rewrite <-Hs1. destruct H as (? & ? & _); [|intros b Hb|done].
    + rewrite queue_refill. lia.
    + rewrite dir_bucket_refill in Hb. destruct (dir_bucket d) as [b0|]; [|done].
      injection Hb as <-. specialize (Htok b0 eq_refl). lia.
Qed.

Lemma dir_steps_ok d es d' :
  dir_inv d → lsteps dir_step d es d' → dir_inv d' ∧ dir_static d' = dir_static d.
Proof.
  intros I Hs. induction Hs as [|d e d1 es d' Hs _ IH]; [done|].
  destruct (dir_step_ok d e d1 I Hs) as [I1 H1]. rewrite <-H1. auto.
Qed.

(** The effect of a write step. *)
Lemma dir_step_write_ok d bs now d' :
  dir_inv d → dir_step d (DWrite bs now) d' →
  ∃ n, 0 < n ∧ n = Z.of_nat (length bs) ∧ bs = take (Z.to_nat n) (contents (queue d))
    ∧ contents (queue d') = drop (Z.to_nat n) (contents (queue d))
    ∧ (∀ l, dir_delay d = Some l → n ≤ releasable l now)
    ∧ option_Forall2 (λ l l', stamps l' = drop (Z.to_nat n) (stamps l)) (dir_delay d) (dir_delay d')
    ∧ (∀ b, dir_bucket d = Some b → n ≤ tokens_ (refill b now))
    ∧ dir_bucket d' = (λ b, take_tokens n (refill b now)) <$> dir_bucket d.
Proof.
  intros I Hs. inversion Hs as [| |d0 n bs0 now0 d0' Hn Hbs _ Hw]; subst.
  destruct (refill_direction_inv d now I) as [I1 Hs1].
  pose proof (readable_span_bounds (queue d) (dv_queue d I)) as (_ & _ & Hsp & _).
  destruct (fault_sendable_bounds d (sp_length (readable_span (queue d))) now I ltac:(lia))
    as (Hlim & Hrel & Htok).
  pose proof (dir_write_ok (refill_direction d now) n now I1) as H. rewrite Hw in H.
  autorewrite with netfault_dir in H.
  destruct H as (_ & _ & Hc & Hb & Hd); [lia|intros b Hb|].
  { destruct (dir_bucket d) as [b0|]; [|done]. injection Hb as <-. specialize (Htok b0 eq_refl). lia. }
  pose proof (length_contents (queue d) (dv_queue d I)).
  exists n. split_and!; try done; try lia.
  - rewrite length_take. lia.
  - intros l Hl. specialize (Hrel l Hl). lia.
  - intros b Hb'. specialize (Htok b Hb'). lia.
  - rewrite Hb. by destruct (dir_bucket d).
Qed.

(** Reading resumes only after a write. *)
Definition dir_paused (d : Direction) : bool := read_paused_ (backpressure d).

Lemma dir_steps_paused d es d' :
  dir_paused d = true → lsteps dir_step d es d' → dir_writes es = [] →
  dir_paused d' = true ∧ queue d' = queue d ∧ dir_reads es = [].
Proof.
  intros Hp Hs. revert Hp. induction Hs as [|d e d1 es d' Hs _ IH]; intros Hp Hw; [done|].
  destruct Hs as [d now|d bs now d1 Hnp|d n bs now d1 _ _ Hne _].
  - unfold dir_paused in *. cbn in Hw. rewrite backpressure_refill, queue_refill in IH. auto.
  - unfold dir_paused in Hp. congruence.
  - unfold dir_writes in Hw. cbn in Hw. apply app_nil in Hw as [-> _]. cbn in Hne. lia.
Qed.

(** *** Delay and order *)

(** Every byte read or written, with the time of the event. *)
Definition timed_reads (es : list dir_event) : list (byte * Z) :=
  es ≫= λ e, match e with DRead bs now => (λ b, (b, now)) <$> bs | _ => [] end.
Definition timed_writes (es : list dir_event) : list (byte * Z) :=
  es ≫= λ e, match e with DWrite bs now => (λ b, (b, now)) <$> bs | _ => [] end.

(** [pend] lists the queued bytes with their read times; the stamps of the
    delay line keep the minimum delay. *)
Record dir_tagged (d : Direction) (pend : list (byte * Z)) : Prop := mkTagged {
  dt_contents : contents (queue d) = pend.*1;
  dt_stamps l : dir_delay d = Some l → Forall2 (λ p s, p.2 + min_delay d ≤ s) pend (stamps l);
}.

(** A written byte is a read byte, and late enough on a delayed direction. *)
Definition delivered (delayed : bool) (delay : Z) (r w : byte * Z) : Prop :=
  r.1 = w.1 ∧ (delayed = true → r.2 + delay ≤ w.2).

Definition is_delayed (d : Direction) : bool := bool_decide (is_Some (dir_delay d)).

Lemma dir_static_delay d d' :
  dir_static d' = dir_static d → min_delay d' = min_delay d ∧ is_delayed d' = is_delayed d.
Proof. unfold dir_static, is_delayed. intros [= _ _ _ Hm Hd _]. by rewrite Hm, Hd. Qed.

Lemma dir_step_tagged d e d' pend :
  dir_inv d → dir_tagged d pend → dir_step d e d' →
  ∃ sent pend', pend ++ timed_reads [e] = sent ++ pend'
    ∧ Forall2 (delivered (is_delayed d) (min_delay d)) sent (timed_writes [e])
    ∧ dir_tagged d' pend'.
Proof.
  intros I [Hc Hst] Hs. assert (Hok := dir_step_ok d e d' I Hs). destruct Hok as [I' Hs'].
  apply dir_static_delay in Hs' as [Hm _].
  destruct e as [now|bs now|bs now]; unfold timed_reads, timed_writes; cbn; rewrite ?app_nil_r.
  - exists [], pend. split_and!; [done|constructor|]. inversion Hs; subst.
    split; autorewrite with netfault_dir; done.
  - exists [], (pend ++ ((λ b, (b, now)) <$> bs)). split_and!; [done|constructor|].
    inversion Hs as [|d0 bs0 now0 d0' _ _ Hl Hh Hr|]; subst.
    pose proof (dir_read_ok d bs now I Hl Hh) as H. rewrite Hr in H.
    destruct H as (_ & _ & Hc' & _ & at_ & Hat & Hd). split.
    + rewrite Hc', Hc, fmap_app, <-list_fmap_compose. f_equal. symmetry. apply list_fmap_id.
    + rewrite Hm. intros l' Hl'. rewrite Hl' in Hd. inversion Hd as [l ? Hlst E|]; subst.
      rewrite Hlst. apply Forall2_app; [by apply Hst|].
      apply Forall2_fmap_l, Forall2_replicate_r; [done|]. apply Forall_forall. by intros.
  - destruct (dir_step_write_ok d bs now d' I Hs) as (n & Hn & _ & Hbs & Hc' & Hrel & Hd & _).
    exists (take (Z.to_nat n) pend), (drop (Z.to_nat n) pend).
    split_and!; [by rewrite take_drop| |split].
    + rewrite Hbs, Hc, <-fmap_take. apply Forall2_fmap_r, Forall2_fmap_r.
      apply Forall_Forall2_diag, Forall_forall. intros x Hx. split; [done|]. cbn.
      unfold is_delayed. rewrite bool_decide_eq_true. intros [l Hl].
      specialize (Hst l Hl). specialize (Hrel l Hl). apply list_elem_of_lookup in Hx as [i Hi].
      apply lookup_take_Some in Hi as [Hi Hlt].
      destruct (Forall2_lookup_l _ _ _ _ _ Hst Hi) as (s & Hs1 & Hle).
      rewrite releasable_ok in Hrel by (by destruct (dv_delay d I l Hl)).
      assert ((s <=? now) = true) as Hsn; [|lia].
      apply (prefix_length_take (λ t, t <=? now) (stamps l) (Z.to_nat n)); [lia|].
      apply list_elem_of_lookup. exists i. by rewrite lookup_take_lt.
    + by rewrite Hc', Hc, fmap_drop.
    + rewrite Hm. intros l' Hl'. rewrite Hl' in Hd. inversion Hd as [l ? Hlst E|]; subst.
      rewrite Hlst. by apply Forall2_drop, Hst.
Qed.

Lemma timed_reads_cons e es : timed_reads (e :: es) = timed_reads [e] ++ timed_reads es.
Proof. unfold timed_reads. cbn. by rewrite app_nil_r. Qed.
Lemma timed_writes_cons e es : timed_writes (e :: es) = timed_writes [e] ++ timed_writes es.
Proof. unfold timed_writes. cbn. by rewrite app_nil_r. Qed.

Lemma timed_reads_bytes es : (timed_reads es).*1 = dir_reads es.
Proof.
  unfold timed_reads, dir_reads. induction es as [|e es IH]; [done|]. cbn. rewrite fmap_app, IH.
  f_equal. destruct e; try done. rewrite <-list_fmap_compose. apply list_fmap_id.
Qed.

Lemma timed_writes_bytes es : (timed_writes es).*1 = dir_writes es.
Proof.
  unfold timed_writes, dir_writes. induction es as [|e es IH]; [done|]. cbn. rewrite fmap_app, IH.
  f_equal. destruct e; try done. rewrite <-list_fmap_compose. apply list_fmap_id.
Qed.

Lemma dir_steps_tagged d es d' pend :
  dir_inv d → dir_tagged d pend → lsteps dir_step d es d' →
  ∃ sent pend', pend ++ timed_reads es = sent ++ pend'
    ∧ Forall2 (delivered (is_delayed d) (min_delay d)) sent (timed_writes es)
    ∧ dir_tagged d' pend'.
Proof.
  intros I Ht Hs. revert pend Ht. induction Hs as [d|d e d1 es d' Hs _ IH]; intros pend Ht.
  { exists [], pend. split_and!; [by rewrite app_nil_r|constructor|done]. }
  destruct (dir_step_ok d e d1 I Hs) as [I1 Hst]. apply dir_static_delay in Hst as [Hm Hdl].
  destruct (dir_step_tagged d e d1 pend I Ht Hs) as (sent & p1 & Heq & Hsent & Ht1).
  destruct (IH I1 p1 Ht1) as (sent2 & p2 & Heq2 & Hsent2 & Ht2). rewrite Hm, Hdl in Hsent2.
  exists (sent ++ sent2), p2. rewrite timed_reads_cons, timed_writes_cons. split_and!; [|by apply Forall2_app|done].
  by rewrite app_assoc, Heq, <-!app_assoc, Heq2.
Qed.

(** A direction as constructed: nothing queued. *)
Lemma empty_tagged d : dir_inv d → contents (queue d) = [] → dir_tagged d [].
Proof.
  intros I Hc. split; [done|]. intros l Hl. destruct (dv_delay d I l Hl) as [Id Hp].
  pose proof (length_contents (queue d) (dv_queue d I)) as Hlen. rewrite Hc in Hlen.
  pose proof (di_pending l Id). destruct (stamps l); [constructor|cbn in *; lia].
Qed.

Lemma dir_steps_delivery d es d' :
  dir_inv d → contents (queue d) = [] → lsteps dir_step d es d' →
  dir_reads es = dir_writes es ++ contents (queue d')
  ∧ Forall2 (delivered (is_delayed d) (min_delay d))
      (take (length (timed_writes es)) (timed_reads es)) (timed_writes es).
Proof.
  intros I Hc Hs.
  destruct (dir_steps_tagged d es d' [] I (empty_tagged d I Hc) Hs) as (sent & pend & Heq & Hf & [Hp _]).
  cbn in Heq. split.
  - rewrite <-timed_reads_bytes, Heq, fmap_app, <-Hp. f_equal. rewrite <-timed_writes_bytes.
    clear -Hf. induction Hf as [|r w rs ws [Hrw _] _ IH]; [done|]. cbn. by rewrite Hrw, IH.
  - rewrite Heq, <-(Forall2_length _ _ _ Hf), take_app_length. done.
Qed.

(** *** Rate *)

Lemma dir_step_level d e d' b :
  dir_inv d → dir_step d e d' → clock_time (event_time e) →
  dir_bucket d = Some b → bucket_inv b →
  ∃ b', dir_bucket d' = Some b' ∧ bucket_inv b' ∧ rate_ b' = rate_ b ∧ burst_ b' = burst_ b
    ∧ level b' + Z.of_nat (length (dir_writes [e])) * giga
      ≤ level b + rate_ b * (last_refill_ b' - last_refill_ b)
    ∧ last_refill_ b ≤ last_refill_ b' ≤ Z.max (last_refill_ b) (event_time e).
Proof.
  intros I Hs Ht Hb Ib. unfold dir_writes.
  destruct e as [now|bs now|bs now]; cbn in *; rewrite ?app_nil_r;
    destruct (refill_inv b now Ib Ht) as (Ir & Hr & Hbu & Hlast & _);
    destruct (ideal_refill_level b now Ib) as [Hle _]; rewrite <-refill_ideal in Hle by done.
  - inversion Hs; subst. exists (refill b now). rewrite dir_bucket_refill, Hb.
    split_and!; done || lia.
  - inversion Hs as [|d0 bs0 now0 d0' _ _ Hl Hh Hrd|]; subst.
    pose proof (dir_read_ok d bs now I Hl Hh) as H. rewrite Hrd in H.
    destruct H as (_ & _ & _ & Hb' & _). exists b. rewrite Hb'. cbn. split_and!; done || lia.
  - destruct (dir_step_write_ok d bs now d' I Hs) as (n & Hn & -> & _ & _ & _ & _ & Htok & Hb').
    specialize (Htok b Hb). rewrite Hb in Hb'.
    exists (take_tokens (Z.of_nat (length bs)) (refill b now)). split; [done|].
    destruct Ir. unfold level, take_tokens in *. cbn.
    split_and!; [split; cbn; lia|lia..].
Qed.

Lemma dir_steps_level d es d' b :
  dir_inv d → lsteps dir_step d es d' → Forall (λ e, clock_time (event_time e)) es →
  dir_bucket d = Some b → bucket_inv b →
  ∃ b', dir_bucket d' = Some b' ∧ bucket_inv b'
    ∧ level b' + Z.of_nat (length (dir_writes es)) * giga
      ≤ level b + rate_ b * (last_refill_ b' - last_refill_ b)
    ∧ (∀ t, last_refill_ b ≤ t → Forall (λ e, event_time e ≤ t) es → last_refill_ b' ≤ t).
Proof.
  intros I Hs. revert b. induction Hs as [d|d e d1 es d' Hs _ IH]; intros b Hes Hb Ib.
  { exists b. split_and!; try done. cbn. lia. }
  apply Forall_cons_1 in Hes as [He Hes]. destruct (dir_step_ok d e d1 I Hs) as [I1 _].
  destruct (dir_step_level d e d1 b I Hs He Hb Ib) as (b1 & Hb1 & Ib1 & Hr1 & _ & Hle1 & Hl1).
  destruct (IH I1 b1 Hes Hb1 Ib1) as (b' & Hb' & Ib' & Hle' & Hl').
  exists b'. assert (Hlen : dir_writes (e :: es) = dir_writes [e] ++ dir_writes es)
    by (unfold dir_writes; cbn; by rewrite app_nil_r).
  rewrite Hlen, length_app. rewrite Hr1 in Hle'. split_and!; [done|done|nia|].
  intros t Ht Hall. apply Forall_cons_1 in Hall as [Het Hall]. apply Hl'; [lia|done].
Qed.

(** The bytes written in any window [t0, t1] are bounded by burst and rate. *)
Lemma dir_steps_window d es d' b t0 t1 :
  dir_inv d → lsteps dir_step d es d' →
  Forall (λ e, clock_time (event_time e) ∧ t0 ≤ event_time e ≤ t1) es →
  dir_bucket d = Some b → bucket_inv b → last_refill_ b ≤ t1 → t0 ≤ t1 →
  Z.of_nat (length (dir_writes es)) * giga ≤ burst_ b * giga + rate_ b * (t1 - t0).
Proof.
  intros I Hs Hes Hb Ib Hl Ht. revert b Hb Ib Hl.
  induction Hs as [d|d e d1 es d' Hs Hrest IH]; intros b Hb Ib Hl.
  { destruct Ib. cbn. nia. }
  apply Forall_cons_1 in Hes as [[He Hwin] Hes]. destruct (dir_step_ok d e d1 I Hs) as [I1 _].
  destruct (dir_step_level d e d1 b I Hs He Hb Ib) as (b1 & Hb1 & Ib1 & Hr1 & Hbu1 & _ & Hl1).
  specialize (IH I1 Hes b1 Hb1 Ib1 ltac:(lia)). rewrite Hr1, Hbu1 in IH.
  assert (Hlen : dir_writes (e :: es) = dir_writes [e] ++ dir_writes es)
    by (unfold dir_writes; cbn; by rewrite app_nil_r).
  rewrite Hlen, length_app. destruct e as [now|bs now|bs now]; try exact IH.
  (* a write: from here on the level accounts for everything *)
  destruct (dir_step_write_ok d bs now d1 I Hs) as (n & Hn & -> & _ & _ & _ & _ & Htok & Hb').
  cbn [event_time] in *. rewrite Hb, Hb1 in Hb'. injection Hb' as ->.
  destruct (refill_inv b now Ib He) as (Ir & Hr & Hbu & Hlast & _).
  destruct (dir_steps_level d1 es d' (take_tokens (Z.of_nat (length bs)) (refill b now)) I1 Hrest) as (b2 & _ & Ib2 & Hle & Hl2);
    [eapply Forall_impl; [exact Hes|]; cbn; tauto|done|done|].
  pose proof (level_bounds _ Ir). pose proof (level_bounds _ Ib2).
  assert (Hlt : last_refill_ b2 ≤ t1).
  { apply Hl2; [cbn; lia|]. eapply Forall_impl; [exact Hes|]. cbn. intros. lia. }
  unfold dir_writes at 1. cbn. rewrite app_nil_r. unfold level in Hle at 2. cbn in Hle.
  rewrite Hr, Hlast in Hle. unfold level in *.
  assert (rate_ b * (last_refill_ b2 - last_refill_ b `max` now) ≤ rate_ b * (t1 - t0))
    by (apply Z.mul_le_mono_nonneg_l; destruct Ib; lia). lia.
Qed.

(** *** Progress *)

(** The bytes the delay line lets through. *)
Definition gate (d : Direction) (limit now : Z) : Z :=
  match dir_delay d with Some l => Z.min limit (releasable l now) | None => limit end.

Lemma fault_sendable_eq d limit now :
  (fault_sendable d limit now).1 =
  match dir_bucket d with
  | Some b =>
      if tokens_ (refill b now) <? release_quantum (gate d limit now) (burst_ (refill b now)) then 0
      else Z.min (gate d limit now) (tokens_ (refill b now))
  | None => gate d limit now
  end.
Proof.
  unfold fault_sendable, gate, bucket_available, dir_delay, dir_bucket.
  destruct d as [q t [[[l|] [b|] r la j s g]|]]; cbn; try done; by destruct (_ <? _).
Qed.

Lemma release_quantum_mono a a' burst : a ≤ a' → release_quantum a burst ≤ release_quantum a' burst.
Proof. unfold release_quantum. lia. Qed.

Lemma gate_le d a limit now : 0 ≤ a ≤ limit → gate d a now ≤ gate d limit now.
Proof. unfold gate. destruct (dir_delay d); lia. Qed.

Lemma gate_pos d a limit now : 0 < a → 0 < gate d limit now → 0 < gate d a now.
Proof. unfold gate. destruct (dir_delay d); lia. Qed.

Lemma gate_nonneg d limit now : dir_inv d → 0 ≤ limit → 0 ≤ gate d limit now.
Proof.
  intros I Hl. unfold gate. destruct (dir_delay d) as [l|] eqn:E; [|done].
  destruct (dv_delay d I l E) as [Id _]. pose proof (releasable_bounds l now Id). lia.
Qed.

(** The write interest is computed on the whole queue, the write on the
    contiguous span: if there is interest, there is something to write. *)
Lemma fault_sendable_span d a limit now :
  dir_inv d → 0 < a ≤ limit →
  0 < (fault_sendable d limit now).1 → 0 < (fault_sendable d a now).1.
Proof.
  intros I Ha. rewrite !fault_sendable_eq. pose proof (gate_le d a limit now ltac:(lia)) as Hle.
  pose proof (gate_pos d a limit now ltac:(lia)) as Hpos.
  destruct (dir_bucket d) as [b|] eqn:Eb; [|auto].
  pose proof (release_quantum_mono _ _ (burst_ (refill b now)) Hle).
  destruct (Z.ltb_spec (tokens_ (refill b now))
    (release_quantum (gate d limit now) (burst_ (refill b now)))); [lia|].
  destruct (Z.ltb_spec (tokens_ (refill b now))
    (release_quantum (gate d a now) (burst_ (refill b now)))); [lia|]. lia.
Qed.

(** The whole queue: the delay line has no more pending bytes than the queue. *)
Lemma gate_queue d now :
  dir_inv d → gate d (size_ (queue d)) now =
    match dir_delay d with Some l => releasable l now | None => size_ (queue d) end.
Proof.
  intros I. unfold gate. destruct (dir_delay d) as [l|] eqn:E; [|done].
  destruct (dv_delay d I l E) as [Id Hp]. pose proof (releasable_bounds l now Id). lia.
Qed.

Lemma refill_idemp b now : refill (refill b now) now = refill b now.
Proof.
  unfold refill at 2 3. destruct (Z.leb_spec now (last_refill_ b)) as [Hle|Hlt]; cbn zeta.
  - unfold refill. by destruct (Z.leb_spec now (last_refill_ b)); [|lia].
  - destruct (u64_add _ 1 <=? _); unfold refill; cbn [last_refill_]; by rewrite Z.leb_refl.
Qed.

(** Nothing can be sent now: the delay line holds everything back, or the
    bucket is short of the release quantum. *)
Lemma fault_sendable_blocked d now :
  dir_inv d → 0 < size_ (queue d) → (fault_sendable d (size_ (queue d)) now).1 = 0 →
  (∃ l, dir_delay d = Some l ∧ releasable l now = 0 ∧ gate d (size_ (queue d)) now = 0)
  ∨ (0 < gate d (size_ (queue d)) now ∧ ∃ b, dir_bucket d = Some b
     ∧ tokens_ (refill b now) < release_quantum (gate d (size_ (queue d)) now) (burst_ (refill b now))).
Proof.
  intros I Hs. rewrite fault_sendable_eq.
  pose proof (gate_nonneg d (size_ (queue d)) now I ltac:(lia)) as Hg.
  destruct (Z.eq_dec (gate d (size_ (queue d)) now) 0) as [H0|H0].
  { left. unfold gate in *. destruct (dir_delay d) as [l|] eqn:E; [|lia]. exists l.
    destruct (dv_delay d I l E) as [Id _]. pose proof (releasable_bounds l now Id).
    split_and!; done || lia. }
  intros Hz. right. split; [lia|]. destruct (dir_bucket d) as [b|] eqn:Eb; [|lia].
  exists b. split; [done|]. destruct (refill_weak b now (dv_bucket d I b Eb)) as [(_ & Ht & Hb) _].
  revert Hz. case_Z; [done|]. unfold release_quantum, kPreferredReleaseBytes in *. lia.
Qed.

(** The two wake-up times lie in the future. *)
Lemma delay_wake d l now :
  dir_inv d → 0 < size_ (queue d) → dir_delay d = Some l → releasable l now = 0 →
  ∃ w, next_eligible l now = Some w ∧ now < w.
Proof.
  intros I Hs Hl Hr. destruct (dv_delay d I l Hl) as [Id Hp].
  destruct (next_eligible_blocked l now Id) as (w & ? & ? & _); [lia|eauto].
Qed.

(** The bucket has just been refilled; the quantum is too small to overflow. *)
Lemma bucket_wake b now n :
  bucket_weak b →
  tokens_ (refill b now) < release_quantum n (burst_ (refill b now)) →
  now < (eligible_at (refill b now) (release_quantum n (burst_ (refill b now))) now).1.
Proof.
  intros Iw Ht. destruct (refill_weak b now Iw) as [(Hr & Htok & Hb) _].
  unfold eligible_at. rewrite refill_idemp. set (b1 := refill b now) in *.
  set (q := release_quantum n (burst_ b1)) in *.
  assert (Hq : q ≤ 4096 ∧ q ≤ burst_ b1) by (unfold q, release_quantum, kPreferredReleaseBytes; lia).
  rewrite Z.min_l by lia. destruct (Z.leb_spec q (tokens_ b1)); [lia|]. cbn [fst].
  assert (Hn : u64_sub q (tokens_ b1) = q - tokens_ b1) by wrap_lia. rewrite Hn.
  assert (He : earn_ns b1 (q - tokens_ b1) = ((q - tokens_ b1) * giga + rate_ b1 - 1) / rate_ b1)
    by (unfold earn_ns; by wrap_simpl).
  pose proof (ceil_bounds ((q - tokens_ b1) * giga) (rate_ b1) ltac:(lia)) as Hc. rewrite <-He in Hc.
  assert (0 < earn_ns b1 (q - tokens_ b1)) by nia.
  assert (earn_ns b1 (q - tokens_ b1) < two63).
  { rewrite He. apply Z.div_lt_upper_bound; [lia|]. nia. }
  unfold i64_of_u64. destruct (Z.ltb_spec (earn_ns b1 (q - tokens_ b1)) two63); lia.
Qed.
