(* ===== verification/Logger.v ===== *)
(** * The logger (include/netfault/logger.hpp, src/common/logger.cpp)

    JSON Lines on standard output. The model builds the exact line, and performs
    the retried [write] against a class of output streams. *)

From Stdlib Require Import ZArith Lia Ascii String.
From stdpp Require Import base numbers list option strings pretty.
From S2P Require Import Prelude Text SocketIo.

Local Open Scope string_scope.
Local Open Scope Z_scope.

Definition quote : ascii := "034".
Definition backslash : ascii := "092".
Definition newline : ascii := "010".
Definition carriage_return : ascii := "013".
Definition tab : ascii := "009".

(** The quote as a string, for the literals of the sources. *)
Definition q : string := String quote "".

Definition escape_char (c : ascii) : string :=
  if decide (c = backslash) then String backslash (String backslash "")
  else if decide (c = quote) then String backslash (String quote "")
  else if decide (c = newline) then String backslash "n"
  else if decide (c = carriage_return) then String backslash "r"
  else if decide (c = tab) then String backslash "t"
  else if 32 <=? Z.of_nat (nat_of_ascii c) then String c ""
  else "".

Fixpoint escape_json (value : string) : string :=
  match value with
  | EmptyString => EmptyString
  | String c value => escape_char c +:+ escape_json value
  end.

Definition event_line (timestamp_ms : Z) (event_name : string) (connection_id : Z)
    (state detail : string) : string :=
  let line := "{" +:+ q +:+ "timestamp_ms" +:+ q +:+ ":" +:+ pretty timestamp_ms
    +:+ "," +:+ q +:+ "event" +:+ q +:+ ":" +:+ q +:+ escape_json event_name
    +:+ q +:+ "," +:+ q +:+ "connection_id" +:+ q +:+ ":" +:+ pretty connection_id
    +:+ "," +:+ q +:+ "state" +:+ q +:+ ":" +:+ q +:+ escape_json state +:+ q in
  let line := if decide (detail = "") then line
              else line +:+ "," +:+ q +:+ "detail" +:+ q +:+ ":" +:+ q +:+ escape_json detail +:+ q in
  line +:+ "}" +:+ String newline "".

(** ** Writing *)

(** [write] on a stream: the count and, when negative, errno. *)
Class Output (Out : Type) := {
  sys_write : Out → string → (Z * Z) * Out;
  write_interruptions : Out → nat;
}.

Class OutputLaws (Out : Type) `{Output Out} : Prop :=
  write_interrupted o line count err o' :
    sys_write o line = ((count, err), o') → count < 0 → err = EINTR →
    (write_interruptions o' < write_interruptions o)%nat.

Record Logger := mkLogger { dropped_events_ : Z }.

Section logger.
#[local] Set Default Proof Using "Type*".
Context {Out : Type} `{OutputLaws Out}.

(** The [do ... while] loop; the fuel is one more than the interruptions to come. *)
Fixpoint write_loop (fuel : nat) (o : Out) (line : string) : outcome ((Z * Z) * Out) :=
  match fuel with
  | O => OutOfFuel
  | S fuel =>
      let '((count, err), o) := sys_write o line in
      if (count <? 0) && (err =? EINTR) then write_loop fuel o line else Ok ((count, err), o)
  end.

Definition event (l : Logger) (o : Out) (timestamp_ms : Z) (event_name : string)
    (connection_id : Z) (state detail : string) : outcome (Logger * Out) :=
  let line := event_line timestamp_ms event_name connection_id state detail in
  '((result, _), o) ← write_loop (S (write_interruptions o)) o line;
  Ok (if (result <? 0) || negb (result =? string_size line)
      then mkLogger (u64_succ (dropped_events_ l)) else l, o).

(** The result of the first write that is not interrupted. *)
Inductive write_final (line : string) : Out → Z * Z → Out → Prop :=
  | write_done o count err o' :
      sys_write o line = ((count, err), o') → ¬ (count < 0 ∧ err = EINTR) →
      write_final line o (count, err) o'
  | write_retry o count err o1 r o' :
      sys_write o line = ((count, err), o1) → count < 0 → err = EINTR →
      write_final line o1 r o' → write_final line o r o'.

Lemma write_loop_final fuel o line :
  (write_interruptions o < fuel)%nat →
  succeeds (write_loop fuel o line) (λ '(r, o'), write_final line o r o').
Proof.
  revert o. induction fuel as [|fuel IH]; intros o Hf; [lia|]. cbn [write_loop].
  destruct (sys_write o line) as [[count err] o1] eqn:E.
  destruct (Z.ltb_spec count 0) as [Hc|Hc]; cbn [andb];
    [destruct (Z.eqb_spec err EINTR) as [->|He]|].
  - pose proof (write_interrupted _ _ _ _ _ E Hc eq_refl).
    eapply succeeds_mono; [apply IH; lia|]. intros [r o'] Hr. by eapply write_retry.
  - cbn. apply write_done; [done|]. by intros [_ ?].
  - cbn. apply write_done; [done|]. intros [? _]. lia.
Qed.

(** An event writes one line, retried while interrupted, and is counted as
    dropped exactly when the write that ended the retries failed or was short. *)
Theorem logger_counts_drops l o timestamp_ms name id state detail :
  let line := event_line timestamp_ms name id state detail in
  succeeds (event l o timestamp_ms name id state detail) (λ '(l', o'),
    ∃ result err, write_final line o (result, err) o'
      ∧ dropped_events_ l' = if decide (result = string_size line) then dropped_events_ l
                             else u64_succ (dropped_events_ l)).
Proof.
  intros line. unfold event. eapply succeeds_bind; [apply write_loop_final; lia|].
  intros [[result err] o'] Hr. cbn. exists result, err. split; [done|]. fold line.
  assert (0 ≤ string_size line) by (unfold string_size; lia).
  case_decide as Hd.
  - subst result. rewrite Z.eqb_refl. by destruct (Z.ltb_spec (string_size line) 0); [lia|].
  - destruct (Z.eqb_spec result (string_size line)); [done|]. by rewrite orb_true_r.
Qed.
End logger.

(** ** Escaping is safe *)

(** A reader of the inside of a JSON string: the text up to the closing quote,
    with the escapes replaced, and what follows the quote. *)
Fixpoint scan_json (s : string) : option (string * string) :=
  match s with
  | EmptyString => None
  | String c s =>
      if decide (c = quote) then Some ("", s)
      else if decide (c = backslash) then
        match s with
        | EmptyString => None
        | String e s =>
            let plain :=
              if decide (e = "n"%char) then newline
              else if decide (e = "r"%char) then carriage_return
              else if decide (e = "t"%char) then tab else e in
            match scan_json s with
            | Some (text, rest) => Some (String plain text, rest)
            | None => None
            end
        end
      else if 32 <=? Z.of_nat (nat_of_ascii c) then
        match scan_json s with
        | Some (text, rest) => Some (String c text, rest)
        | None => None
        end
      else None
  end.

(** What survives escaping: all but the control characters without an escape. *)
Definition representable (c : ascii) : bool :=
  bool_decide (c = newline) || bool_decide (c = carriage_return) || bool_decide (c = tab)
  || (32 <=? Z.of_nat (nat_of_ascii c)).

Fixpoint printable (s : string) : string :=
  match s with
  | EmptyString => EmptyString
  | String c s => if representable c then String c (printable s) else printable s
  end.

Lemma scan_escape_char c s :
  scan_json (escape_char c +:+ s) =
    if representable c
    then match scan_json s with Some (text, rest) => Some (String c text, rest) | None => None end
    else scan_json s.
Proof.
  unfold escape_char, representable.
  destruct (decide (c = backslash)) as [->|H1]; [done|].
  destruct (decide (c = quote)) as [->|H2]; [done|].
  destruct (decide (c = newline)) as [->|H3]; [done|].
  destruct (decide (c = carriage_return)) as [->|H4]; [done|].
  destruct (decide (c = tab)) as [->|H5]; [done|].
  rewrite !bool_decide_false by done. cbn [orb].
  destruct (32 <=? Z.of_nat (nat_of_ascii c)) eqn:E; [|done].
  change (String c "" +:+ s) with (String c s). cbn [scan_json].
  by rewrite decide_False, decide_False, E by done.
Qed.


(** A stream on which the first write is interrupted and the second is short. *)
Definition interrupted_output : Output nat := {|
  sys_write o line := match o with S o => ((-1, EINTR), o) | O => ((3, 0), O) end;
  write_interruptions o := o;
|}.
#[local] Existing Instance interrupted_output.
#[local] Instance interrupted_output_laws : OutputLaws nat.
Proof. intros [|o] line count err o'; cbn; intros [= <- <- <-]; lia. Qed.

Lemma logger_counts_drops_witness :
  let line := event_line 17 "accept_failed" 0 "failed" "" in
  succeeds (event (mkLogger 5) 1%nat 17 "accept_failed" 0 "failed" "") (λ '(l', o'),
    ∃ result err, write_final line 1%nat (result, err) o'
      ∧ dropped_events_ l' = if decide (result = string_size line) then 5 else 6).
Proof. exact (logger_counts_drops (mkLogger 5) 1%nat 17 "accept_failed" 0 "failed" ""). Defined.
