(* ===== verification/RelayReport.v ===== *)
(** * The relay's reports (relay.cpp, close_detail and metrics_json)

    The key/value line of the connection_closed event and the JSON object of the
    metrics document, with a reader of such objects to show that the document
    says what the relay counts. *)

From Stdlib Require Import ZArith Lia Ascii String.
From stdpp Require Import base numbers list option strings pretty.
From S2P Require Import Prelude Text ByteQueue Backpressure ConnectionState Relay Logger.

Local Open Scope string_scope.
Local Open Scope Z_scope.

(** [duration_cast] truncates towards zero. *)
Definition to_milliseconds (ns : Z) : Z := Z.quot ns 1000000.
Definition to_microseconds (ns : Z) : Z := Z.quot ns 1000.

Definition delayed_segments_of (d : Direction) : Z :=
  match fault d with Some c => delayed_segments c | None => 0 end.
Definition delay_budget_us_of (d : Direction) : Z :=
  match fault d with Some c => to_microseconds (delay_budget c) | None => 0 end.

(** ** The event detail *)

Definition detail_entry (key : string) (value : Z) : string := "," +:+ key +:+ "=" +:+ pretty value.

Definition append_backpressure (prefix : string) (t : BackpressureTracker) (now : Z) (detail : string)
    : string :=
  let detail := detail +:+ detail_entry (prefix +:+ "_pause_count") (pause_count_ t) in
  let detail := detail +:+ detail_entry (prefix +:+ "_resume_count") (resume_count_ t) in
  let detail := detail +:+ detail_entry (prefix +:+ "_saturation_count") (saturation_count_ t) in
  detail +:+ detail_entry (prefix +:+ "_paused_us") (to_microseconds (paused_duration t now)).

Definition append_fault (prefix : string) (d : Direction) (detail : string) : string :=
  let detail := detail +:+ detail_entry (prefix +:+ "_delayed_segments") (delayed_segments_of d) in
  detail +:+ detail_entry (prefix +:+ "_delay_budget_us") (delay_budget_us_of d).

Definition close_detail (r : Relay) (now : Z) : string :=
  let duration := to_milliseconds (now - accepted_at_ r) in
  let m := metrics_ r in
  let detail := "" in
  let detail := detail +:+ detail_entry "duration_ms" duration in
  let detail := detail +:+ detail_entry "client_read" (client_bytes_read m) in
  let detail := detail +:+ detail_entry "upstream_read" (upstream_bytes_read m) in
  let detail := detail +:+ detail_entry "client_written" (client_bytes_written m) in
  let detail := detail +:+ detail_entry "upstream_written" (upstream_bytes_written m) in
  let detail := detail +:+ detail_entry "read_operations" (read_operations m) in
  let detail := detail +:+ detail_entry "write_operations" (write_operations m) in
  let detail := detail +:+ detail_entry "partial_writes" (partial_writes m) in
  let detail := detail +:+ detail_entry "eagain_events" (eagain_events m) in
  let detail := detail +:+ ",rejected_bytes=0" in
  let detail := detail +:+ detail_entry "faults_applied" (bool_to_Z (faults_active_ r)) in
  let detail := detail +:+ detail_entry "c2u_high_water" (high_water_mark_ (queue (client_to_upstream_ r))) in
  let detail := detail +:+ detail_entry "u2c_high_water" (high_water_mark_ (queue (upstream_to_client_ r))) in
  let detail := append_backpressure "c2u" (backpressure (client_to_upstream_ r)) now detail in
  let detail := append_backpressure "u2c" (backpressure (upstream_to_client_ r)) now detail in
  let detail := append_fault "c2u" (client_to_upstream_ r) detail in
  append_fault "u2c" (upstream_to_client_ r) detail.

(** ** The metrics object *)

(** The lambda [field]: a comma, the name and the number. *)
Definition field (name : string) (value : Z) (json : string) : string :=
  json +:+ "," +:+ q +:+ name +:+ q +:+ ":" +:+ pretty value.

Definition append_direction (prefix : string) (d : Direction) (now : Z) (json : string) : string :=
  let t := backpressure d in
  let json := field (prefix +:+ "_queue_bytes") (size_ (queue d)) json in
  let json := field (prefix +:+ "_high_water") (high_water_mark_ (queue d)) json in
  let json := field (prefix +:+ "_pause_count") (pause_count_ t) json in
  let json := field (prefix +:+ "_resume_count") (resume_count_ t) json in
  let json := field (prefix +:+ "_saturation_count") (saturation_count_ t) json in
  let json := field (prefix +:+ "_paused_us") (u64_of_i64 (to_microseconds (paused_duration t now))) json in
  let json := field (prefix +:+ "_delayed_segments") (delayed_segments_of d) json in
  field (prefix +:+ "_delay_budget_us") (u64_of_i64 (delay_budget_us_of d)) json.

Definition metrics_json (r : Relay) (now : Z) : string :=
  let duration := to_milliseconds (now - accepted_at_ r) in
  let m := metrics_ r in
  let json := "{" in
  let json := json +:+ q +:+ "state" +:+ q +:+ ":" +:+ q +:+ state_name (relay_state_ r) +:+ q in
  let json := field "duration_ms" (u64_of_i64 duration) json in
  let json := field "client_bytes_read" (client_bytes_read m) json in
  let json := field "upstream_bytes_read" (upstream_bytes_read m) json in
  let json := field "client_bytes_written" (client_bytes_written m) json in
  let json := field "upstream_bytes_written" (upstream_bytes_written m) json in
  let json := field "read_operations" (read_operations m) json in
  let json := field "write_operations" (write_operations m) json in
  let json := field "partial_writes" (partial_writes m) json in
  let json := field "eagain_events" (eagain_events m) json in
  let json := field "faults_applied" (bool_to_Z (faults_active_ r)) json in
  let json := append_direction "c2u" (client_to_upstream_ r) now json in
  let json := append_direction "u2c" (upstream_to_client_ r) now json in
  json +:+ "}".

(** The entry of a connection in the document of [build_metrics_json]:
    [body.substr(1)] drops the opening brace. *)
Definition connection_json (id : Z) (r : Relay) (now : Z) : string :=
  "{" +:+ q +:+ "id" +:+ q +:+ ":" +:+ pretty id +:+ "," +:+ substr_from 1 (metrics_json r now).

(** ** A reader of flat JSON objects *)

Inductive json_value := JString (s : string) | JNumber (n : Z).

Definition expect (c : ascii) (s : string) : option string :=
  match s with
  | String x s => if decide (x = c) then Some s else None
  | EmptyString => None
  end.

Definition read_natural (s : string) : option (Z * string) :=
  let '(digits, rest) := span_digits s in
  if decide (digits = "") then None else Some (decimal 0 digits, rest).

Definition read_value (s : string) : option (json_value * string) :=
  match expect quote s, expect "-" s with
  | Some s, _ => '(text, rest) ← scan_json s; Some (JString text, rest)
  | None, Some s => '(n, rest) ← read_natural s; Some (JNumber (- n), rest)
  | None, None => '(n, rest) ← read_natural s; Some (JNumber n, rest)
  end.

Fixpoint read_fields (fuel : nat) (s : string) : option (list (string * json_value)) :=
  match fuel with
  | O => None
  | S fuel =>
      s ← expect quote s;
      '(key, s) ← scan_json s;
      s ← expect ":" s;
      '(value, s) ← read_value s;
      match expect "," s with
      | Some s => fields ← read_fields fuel s; Some ((key, value) :: fields)
      | None => if decide (s = "}") then Some [(key, value)] else None
      end
  end.

(** The text itself bounds the number of fields. *)
Definition read_object (s : string) : option (list (string * json_value)) :=
  s' ← expect "{" s; read_fields (String.length s) s'.

(** ** The fields that are reported *)

Definition direction_fields (prefix : string) (d : Direction) (now : Z) : list (string * json_value) :=
  let t := backpressure d in
  [(prefix +:+ "_queue_bytes", JNumber (size_ (queue d)));
   (prefix +:+ "_high_water", JNumber (high_water_mark_ (queue d)));
   (prefix +:+ "_pause_count", JNumber (pause_count_ t));
   (prefix +:+ "_resume_count", JNumber (resume_count_ t));
   (prefix +:+ "_saturation_count", JNumber (saturation_count_ t));
   (prefix +:+ "_paused_us", JNumber (u64_of_i64 (to_microseconds (paused_duration t now))));
   (prefix +:+ "_delayed_segments", JNumber (delayed_segments_of d));
   (prefix +:+ "_delay_budget_us", JNumber (u64_of_i64 (delay_budget_us_of d)))].

Definition relay_fields (r : Relay) (now : Z) : list (string * json_value) :=
  let m := metrics_ r in
  [("state", JString (state_name (relay_state_ r)));
   ("duration_ms", JNumber (u64_of_i64 (to_milliseconds (now - accepted_at_ r))));
   ("client_bytes_read", JNumber (client_bytes_read m));
   ("upstream_bytes_read", JNumber (upstream_bytes_read m));
   ("client_bytes_written", JNumber (client_bytes_written m));
   ("upstream_bytes_written", JNumber (upstream_bytes_written m));
   ("read_operations", JNumber (read_operations m));
   ("write_operations", JNumber (write_operations m));
   ("partial_writes", JNumber (partial_writes m));
   ("eagain_events", JNumber (eagain_events m));
   ("faults_applied", JNumber (bool_to_Z (faults_active_ r)))]
  ++ direction_fields "c2u" (client_to_upstream_ r) now
  ++ direction_fields "u2c" (upstream_to_client_ r) now.

(** ** Printing and reading back *)

Definition render_value (v : json_value) : string :=
  match v with JString s => q +:+ s +:+ q | JNumber n => pretty n end.

(** The fields after the first one, and the closing brace. *)
Fixpoint render_rest (fields : list (string * json_value)) : string :=
  match fields with
  | [] => "}"
  | (key, v) :: fields =>
      "," +:+ q +:+ key +:+ q +:+ ":" +:+ render_value v +:+ render_rest fields
  end.

Definition render_fields (fields : list (string * json_value)) : string :=
  match fields with
  | [] => "}"
  | (key, v) :: fields => q +:+ key +:+ q +:+ ":" +:+ render_value v +:+ render_rest fields
  end.

(** Texts that a JSON string holds without escapes. *)
Fixpoint plain (s : string) : bool :=
  match s with
  | EmptyString => true
  | String c s =>
      bool_decide (c ≠ quote) && bool_decide (c ≠ backslash) && (32 <=? Z.of_nat (nat_of_ascii c)) && plain s
  end.

Definition clean_field (f : string * json_value) : Prop :=
  plain f.1 = true ∧ match f.2 with JString s => plain s = true | JNumber _ => True end.

Lemma scan_plain s rest : plain s = true → scan_json (s +:+ String quote rest) = Some (s, rest).
Proof.
  induction s as [|c s IH]; [done|]. rewrite string_app_cons. cbn [plain scan_json].
  intros [[[Hq%bool_decide_eq_true Hb%bool_decide_eq_true]%andb_true_iff Hc]%andb_true_iff Hs]%andb_true_iff.
  by rewrite !decide_False, Hc, IH by done.
Qed.

(** Text at which a number ends. *)
Definition ends_number (s : string) : bool :=
  match s with String c _ => negb (is_digit c) | EmptyString => true end.

Lemma span_digits_app d rest :
  all_digits d = true → ends_number rest = true → span_digits (d +:+ rest) = (d, rest).
Proof.
  intros Hd Hr. induction d as [|c d IH].
  - change ("" +:+ rest) with rest. destruct rest as [|c rest]; [done|]. cbn in *.
    by apply negb_true_iff in Hr as ->.
  - rewrite string_app_cons. cbn in Hd |- *. apply andb_true_iff in Hd as [-> Hd]. by rewrite IH.
Qed.

Lemma read_natural_pretty n rest :
  0 ≤ n → ends_number rest = true → read_natural (pretty n +:+ rest) = Some (n, rest).
Proof.
  intros Hn Hr. destruct (pretty_digits n Hn) as (Hne & Hd & Hv). unfold read_natural.
  rewrite span_digits_app by done. by rewrite decide_False, Hv.
Qed.

Lemma expect_digits c d rest :
  is_digit c = false → d ≠ "" → all_digits d = true → expect c (d +:+ rest) = None.
Proof.
  intros Hc Hne Hd. destruct d as [|x d]; [done|]. rewrite string_app_cons. cbn in Hd |- *.
  apply andb_true_iff in Hd as [Hx _]. rewrite decide_False; [done|congruence].
Qed.

Lemma pretty_negative n : n < 0 → pretty n = String "-" (pretty (- n)).
Proof. intros Hn. destruct n as [|p|p]; [lia|lia|done]. Qed.

Lemma read_value_render v rest :
  match v with JString s => plain s = true | JNumber _ => True end →
  ends_number rest = true → read_value (render_value v +:+ rest) = Some (v, rest).
Proof.
  intros Hv Hr. destruct v as [s|n]; cbn [render_value].
  - rewrite <-!string_app_assoc.
    change (q +:+ (s +:+ (q +:+ rest))) with (String quote (s +:+ String quote rest)).
    unfold read_value. cbn [expect]. rewrite decide_True by done. by rewrite scan_plain.
  - destruct (Z_le_dec 0 n) as [Hn|Hn].
    + destruct (pretty_digits n Hn) as (Hne & Hd & _). unfold read_value.
      rewrite !(expect_digits _ (pretty n)) by done. by rewrite read_natural_pretty.
    + rewrite pretty_negative, string_app_cons by lia. unfold read_value. cbn [expect].
      rewrite decide_False, decide_True by done. rewrite read_natural_pretty by (done || lia).
      cbn. by rewrite Z.opp_involutive.
Qed.

Lemma render_rest_ends fields : ends_number (render_rest fields) = true.
Proof. by destruct fields as [|[k v] fields]. Qed.

Lemma read_fields_render n key v fields :
  (length fields < n)%nat → Forall clean_field ((key, v) :: fields) →
  read_fields n (render_fields ((key, v) :: fields)) = Some ((key, v) :: fields).
Proof.
  revert key v fields. induction n as [|n IH]; intros key v fields Hn Hc; [lia|].
  apply Forall_cons_1 in Hc as [[Hk Hv] Hc]. cbn [fst snd] in *.
  cbn [read_fields render_fields].
  change (q +:+ key +:+ ?s) with (String quote (key +:+ s)). cbn [expect]. rewrite decide_True by done. cbn.
  change (q +:+ ?s) with (String quote s). rewrite scan_plain by done. cbn [mbind option_bind].
  change (":" +:+ ?s) with (String ":" s). cbn [expect]. rewrite decide_True by done. cbn [mbind option_bind].
  rewrite read_value_render by (done || apply render_rest_ends). cbn [mbind option_bind].
  destruct fields as [|[key' v'] fields]; [done|].
  cbn [render_rest]. change ("," +:+ ?s) with (String "," s). cbn [expect]. rewrite decide_True by done.
  change (q +:+ key' +:+ q +:+ ":" +:+ render_value v' +:+ render_rest fields)
    with (render_fields ((key', v') :: fields)).
  rewrite IH; [done|cbn in Hn; lia|done].
Qed.

Lemma length_render_rest fields : (length fields < String.length (render_rest fields))%nat.
Proof.
  induction fields as [|[k v] fields IH]; [cbn; lia|]. cbn [render_rest length].
  rewrite !string_length_app. cbn [String.length]. lia.
Qed.

Lemma read_object_render key v fields :
  Forall clean_field ((key, v) :: fields) →
  read_object ("{" +:+ render_fields ((key, v) :: fields)) = Some ((key, v) :: fields).
Proof.
  intros Hc. unfold read_object. change ("{" +:+ ?s) with (String "{" s). cbn [expect].
  rewrite decide_True by done. cbn [mbind option_bind]. apply read_fields_render; [|done].
  cbn [render_fields String.length]. rewrite !string_length_app. pose proof (length_render_rest fields). lia.
Qed.

Lemma field_render name value json tail :
  field name value json +:+ tail
  = json +:+ ("," +:+ q +:+ name +:+ q +:+ ":" +:+ render_value (JNumber value) +:+ tail).
Proof. unfold field. by rewrite <-!string_app_assoc. Qed.

Lemma metrics_json_render r now : metrics_json r now = "{" +:+ render_fields (relay_fields r now).
Proof.
  unfold metrics_json, append_direction. rewrite !field_render, <-!string_app_assoc.
  unfold relay_fields. cbn [Datatypes.app render_fields render_value].
  rewrite <-!string_app_assoc. reflexivity.
Qed.

Lemma relay_fields_clean r now : Forall clean_field (relay_fields r now).
Proof.
  repeat constructor. by destruct (relay_state_ r).
Qed.

Lemma connection_json_render id r now :
  connection_json id r now = "{" +:+ render_fields (("id", JNumber id) :: relay_fields r now).
Proof.
  unfold connection_json. rewrite metrics_json_render.
  change "{" with (String "{" ""). rewrite (substr_from_app (String "{" "")). reflexivity.
Qed.

(** C39: the exported metrics say what the relay counts. Reading the JSON object
    of [metrics_json], or the entry spliced together for a connection of the
    metrics document, gives back exactly the state name, the counters and the
    per-direction figures, under distinct fixed names; payload bytes appear in
    no field. *)
Theorem metrics_json_faithful id r now :
  read_object (metrics_json r now) = Some (relay_fields r now)
  ∧ read_object (connection_json id r now) = Some (("id", JNumber id) :: relay_fields r now)
  ∧ NoDup ("id" :: (relay_fields r now).*1).
Proof.
  split_and!.
  - rewrite metrics_json_render. apply read_object_render, relay_fields_clean.
  - rewrite connection_json_render. apply read_object_render.
    apply Forall_cons. split; [done|apply relay_fields_clean].
  - apply (bool_decide_unpack _). by vm_compute.
Qed.
