(* ===== verification/RelayFacts.v ===== *)
(** * The relay's invariant and the effect of its methods

    [relay_inv] relates a relay to the trace of its socket traffic;
    [evolves now w w'] says that going from [w] to [w'] every direction has only
    performed steps of [dir_step] at time [now], and that these steps are what
    the trace gained. Each method returns (no exception, undefined behaviour or
    lack of fuel), keeps the invariant and evolves the world. *)

From Stdlib Require Import ZArith Lia Init.Byte.
From stdpp Require Import base numbers list option strings pretty.
From S2P Require Import Prelude ByteQueue Backpressure DelayLine TokenBucket FaultRng.
From S2P Require Import FaultPlan ConnectionState SocketIo Relay RelayDirection.

Local Open Scope Z_scope.

(** ** The socket trace *)

Definition wire_in (s : Side) (wire : list WireOp) : list byte :=
  wire ≫= λ op, match op with WireIn s' bs => if decide (s = s') then bs else [] | _ => [] end.
Definition wire_out (s : Side) (wire : list WireOp) : list byte :=
  wire ≫= λ op, match op with WireOut s' bs => if decide (s = s') then bs else [] | _ => [] end.

Lemma wire_in_app s a b : wire_in s (a ++ b) = wire_in s a ++ wire_in s b.
Proof. apply bind_app. Qed.
Lemma wire_out_app s a b : wire_out s (a ++ b) = wire_out s a ++ wire_out s b.
Proof. apply bind_app. Qed.

(** Nothing is sent to a side, nor is it shut down again, after its shutdown;
    and, unless a half-close may be [injected] towards the client, nothing is
    received any more from the opposite side either. *)
Inductive wire_ok (injected : bool) : list WireOp → Prop :=
  | wire_ok_nil : wire_ok injected []
  | wire_ok_in wire s bs :
      wire_ok injected wire →
      (s = Client ∨ injected = false → WireShutdown (other s) ∉ wire) →
      wire_ok injected (wire ++ [WireIn s bs])
  | wire_ok_out wire s bs :
      wire_ok injected wire → WireShutdown s ∉ wire → wire_ok injected (wire ++ [WireOut s bs])
  | wire_ok_shutdown wire s :
      wire_ok injected wire → WireShutdown s ∉ wire → wire_ok injected (wire ++ [WireShutdown s]).

Definition count_ops (p : WireOp → bool) (wire : list WireOp) : Z :=
  sum_Z (map (λ op, bool_to_Z (p op)) wire).
Definition is_in (op : WireOp) : bool := match op with WireIn _ _ => true | _ => false end.
Definition is_out (op : WireOp) : bool := match op with WireOut _ _ => true | _ => false end.

(** The counters are the traffic, modulo 2^64. *)
Record counters_inv (m : RelayMetrics) (wire : list WireOp) : Prop := mkCountersInv {
  ci_client_read : client_bytes_read m = wrap64 (Z.of_nat (length (wire_in Client wire)));
  ci_upstream_read : upstream_bytes_read m = wrap64 (Z.of_nat (length (wire_in Upstream wire)));
  ci_client_written : client_bytes_written m = wrap64 (Z.of_nat (length (wire_out Client wire)));
  ci_upstream_written :
    upstream_bytes_written m = wrap64 (Z.of_nat (length (wire_out Upstream wire)));
  ci_reads : read_operations m = wrap64 (count_ops is_in wire);
  ci_writes : write_operations m = wrap64 (count_ops is_out wire);
}.

Record relay_inv (r : Relay) (wire : list WireOp) : Prop := mkRelayInv {
  ri_dir s : dir_inv (direction_from s r);
  ri_shut s : WireShutdown s ∈ wire ↔ write_open s r = false;
  ri_wire : wire_ok (0 <? half_close_after_bytes_ r) wire;
  ri_injected : half_close_injected_ r = true → 0 < half_close_after_bytes_ r;
  ri_upstream : upstream_write_open_ r = false →
    client_read_open_ r = false ∧ contents (queue (client_to_upstream_ r)) = [];
  ri_client : client_write_open_ r = false →
    half_close_injected_ r = true
    ∨ upstream_read_open_ r = false ∧ contents (queue (upstream_to_client_ r)) = [];
  ri_connecting : upstream_connecting_ r = true →
    upstream_write_open_ r = true ∧ wire_out Upstream wire = [];
  ri_state : relay_state_ r = derive_connection_state
    (mkLifecycle (upstream_connecting_ r) (client_read_open_ r) (upstream_read_open_ r));
  ri_counters : counters_inv (metrics_ r) wire;
}.

(** ** Evolution *)

Definition relay_static (r : Relay) : Z * Z * bool * Z * Z * Z :=
  (client_fd_ r, upstream_fd_ r, faults_active_ r, reset_after_bytes_ r,
   half_close_after_bytes_ r, accepted_at_ r).

(** What a direction does, in order: the part of the trace that concerns the
    direction from [s], and the part of its events that shows in the trace. *)
Inductive Transfer := Received (bs : list byte) | Sent (bs : list byte).

Definition received_bytes (x : Transfer) : list byte := match x with Received bs => bs | Sent _ => [] end.
Definition sent_bytes (x : Transfer) : list byte := match x with Received _ => [] | Sent bs => bs end.

Definition op_transfer (s : Side) (op : WireOp) : list Transfer :=
  match op with
  | WireIn s' bs => if decide (s = s') then [Received bs] else []
  | WireOut s' bs => if decide (other s = s') then [Sent bs] else []
  | WireShutdown _ => []
  end.
Definition transfers (s : Side) (wire : list WireOp) : list Transfer := wire ≫= op_transfer s.

Definition event_transfer (e : dir_event) : list Transfer :=
  match e with DRead bs _ => [Received bs] | DWrite bs _ => [Sent bs] | DRefill _ => [] end.
Definition dir_transfers (es : list dir_event) : list Transfer := es ≫= event_transfer.

Lemma transfers_in s wire : transfers s wire ≫= received_bytes = wire_in s wire.
Proof.
  induction wire as [|[s' bs|s' bs|s'] wire IH]; [done|..]; unfold transfers, wire_in in *; cbn;
    rewrite ?bind_app, ?IH; try case_decide; cbn; by rewrite ?app_nil_r.
Qed.
Lemma transfers_out s wire : transfers s wire ≫= sent_bytes = wire_out (other s) wire.
Proof.
  induction wire as [|[s' bs|s' bs|s'] wire IH]; [done|..]; unfold transfers, wire_out in *; cbn;
    rewrite ?bind_app, ?IH; try case_decide; cbn; by rewrite ?app_nil_r.
Qed.
Lemma dir_transfers_in es : dir_transfers es ≫= received_bytes = dir_reads es.
Proof.
  induction es as [|e es IH]; [done|]. unfold dir_transfers, dir_reads in *. cbn. rewrite bind_app, IH.
  destruct e; cbn; by rewrite ?app_nil_r.
Qed.
Lemma dir_transfers_out es : dir_transfers es ≫= sent_bytes = dir_writes es.
Proof.
  induction es as [|e es IH]; [done|]. unfold dir_transfers, dir_writes in *. cbn. rewrite bind_app, IH.
  destruct e; cbn; by rewrite ?app_nil_r.
Qed.
Lemma transfers_app s a b : transfers s (a ++ b) = transfers s a ++ transfers s b.
Proof. apply bind_app. Qed.
Lemma dir_transfers_app a b : dir_transfers (a ++ b) = dir_transfers a ++ dir_transfers b.
Proof. apply bind_app. Qed.

(** The part of the trace [ops] is what direction [s] did between [d] and [d']. *)
Definition dir_evolves (now : Z) (s : Side) (ops : list WireOp) (d d' : Direction) : Prop :=
  ∃ es, lsteps dir_step d es d' ∧ Forall (λ e, event_time e = now) es
    ∧ transfers s ops = dir_transfers es.

Lemma same_bytes s ops es :
  transfers s ops = dir_transfers es →
  wire_in s ops = dir_reads es ∧ wire_out (other s) ops = dir_writes es.
Proof. intros Hx. by rewrite <-transfers_in, <-transfers_out, <-dir_transfers_in, <-dir_transfers_out, Hx. Qed.

(** Besides, a side that is paused, and towards whose peer nothing is sent, is
    not read, so its end of stream is not noticed either. *)
Definition unnoticed (ops : list WireOp) (r r' : Relay) : Prop :=
  ∀ s, dir_paused (direction_from s r) = true → wire_out (other s) ops = [] →
  read_open s r' = read_open s r.

(** The activity stamp only moves to the present, and a connected upstream
    stays connected. *)
Definition progressed (now : Z) (r r' : Relay) : Prop :=
  (last_activity_ r' = last_activity_ r ∨ last_activity_ r' = now)
  ∧ (upstream_connecting_ r' = true → upstream_connecting_ r = true).

Lemma progressed_trans now r1 r2 r3 :
  progressed now r1 r2 → progressed now r2 r3 → progressed now r1 r3.
Proof. intros [A1 C1] [A2 C2]. split; [|tauto]. destruct A1, A2; (left; congruence) || (right; congruence). Qed.

#[local] Hint Extern 0 (progressed _ _ _) => (split; [first [by left | by right]|done]) : core.

Record evolves_by (now : Z) (ops : list WireOp) (r r' : Relay) : Prop := mkEvolvesBy {
  eb_static : relay_static r' = relay_static r;
  eb_directions s : dir_evolves now s ops (direction_from s r) (direction_from s r');
  eb_unnoticed : unnoticed ops r r';
  eb_progress : progressed now r r';
}.

Lemma dir_evolves_refl now s d : dir_evolves now s [] d d.
Proof. exists []. split_and!; done || constructor. Qed.

Lemma dir_reads_app a b : dir_reads (a ++ b) = dir_reads a ++ dir_reads b.
Proof. apply bind_app. Qed.
Lemma dir_writes_app a b : dir_writes (a ++ b) = dir_writes a ++ dir_writes b.
Proof. apply bind_app. Qed.

Lemma dir_evolves_trans now s ops1 ops2 d1 d2 d3 :
  dir_evolves now s ops1 d1 d2 → dir_evolves now s ops2 d2 d3 →
  dir_evolves now s (ops1 ++ ops2) d1 d3.
Proof.
  intros (es1 & H1 & T1 & X1) (es2 & H2 & T2 & X2). exists (es1 ++ es2).
  rewrite transfers_app, dir_transfers_app, X1, X2.
  split_and!; [by eapply lsteps_app|by apply Forall_app|done].
Qed.

Lemma dir_evolves_paused now s ops d d' :
  dir_evolves now s ops d d' → dir_paused d = true → wire_out (other s) ops = [] →
  dir_paused d' = true.
Proof.
  intros (es & Hs & _ & [_ Ho]%same_bytes) Hp Hout. rewrite Hout in Ho.
  by destruct (dir_steps_paused _ _ _ Hp Hs (eq_sym Ho)).
Qed.

Lemma unnoticed_trans ops1 ops2 r1 r2 r3 :
  unnoticed ops1 r1 r2 → unnoticed ops2 r2 r3 →
  (∀ s, dir_paused (direction_from s r1) = true → wire_out (other s) ops1 = [] →
        dir_paused (direction_from s r2) = true) →
  unnoticed (ops1 ++ ops2) r1 r3.
Proof.
  intros U1 U2 Hp12 s Hp Hout. rewrite wire_out_app in Hout. apply app_nil in Hout as [Ho1 Ho2].
  rewrite (U2 s (Hp12 s Hp Ho1) Ho2). by apply U1.
Qed.

Lemma evolves_by_trans now ops1 ops2 r1 r2 r3 :
  evolves_by now ops1 r1 r2 → evolves_by now ops2 r2 r3 → evolves_by now (ops1 ++ ops2) r1 r3.
Proof.
  intros [S1 D1 U1 P1] [S2 D2 U2 P2].
  split; [congruence|intros s; by eapply dir_evolves_trans| |by apply progressed_trans with r2].
  apply unnoticed_trans with r2; [done..|]. intros s. by apply dir_evolves_paused with now.
Qed.

Section evolves.
Context {W : Type}.
Implicit Types w : World W.

Definition evolves (now : Z) (w w' : World W) : Prop :=
  ∃ ops, w_wire w' = w_wire w ++ ops ∧ evolves_by now ops (w_relay w) (w_relay w').

#[export] Instance evolves_preorder now : PreOrder (evolves now).
Proof.
  split.
  - intros w. exists []. rewrite app_nil_r. split; [done|].
    split; [done| |by intros ?|auto]. intros s. apply dir_evolves_refl.
  - intros w1 w2 w3 (ops1 & H1 & E1) (ops2 & H2 & E2). exists (ops1 ++ ops2).
    rewrite H2, H1, app_assoc. split; [done|]. by eapply evolves_by_trans.
Qed.

(** Nothing but control fields, events or the world of the sockets changed. *)
Lemma evolves_control now w w' :
  w_wire w' = w_wire w → relay_static (w_relay w') = relay_static (w_relay w) →
  (∀ s, direction_from s (w_relay w') = direction_from s (w_relay w)) →
  (∀ s, read_open s (w_relay w') = read_open s (w_relay w)
        ∨ dir_paused (direction_from s (w_relay w)) = false) →
  progressed now (w_relay w) (w_relay w') →
  evolves now w w'.
Proof.
  intros Hw Hs Hd Hr Hp. exists []. rewrite app_nil_r. split; [done|]. split; [done| | |done].
  - intros s. rewrite Hd. apply dir_evolves_refl.
  - intros s Hpause _. destruct (Hr s); congruence.
Qed.

Lemma evolves_same now w w' :
  w_wire w' = w_wire w → relay_static (w_relay w') = relay_static (w_relay w) →
  (∀ s, direction_from s (w_relay w') = direction_from s (w_relay w)) →
  (∀ s, read_open s (w_relay w') = read_open s (w_relay w)) →
  progressed now (w_relay w) (w_relay w') →
  evolves now w w'.
Proof. intros. apply evolves_control; auto. Qed.

Definition winv (w : World W) : Prop := relay_inv (w_relay w) (w_wire w).

(** A closed write side stays closed. *)
Lemma write_closed_stable now w w' s :
  winv w → winv w' → evolves now w w' →
  write_open s (w_relay w) = false → write_open s (w_relay w') = false.
Proof.
  intros I I' (ops & Hw & _) Ho. apply (ri_shut _ _ I') . rewrite Hw. apply elem_of_app. left.
  by apply (ri_shut _ _ I).
Qed.

(** The specification every method satisfies. *)
Definition keeps (now : Z) {A} (m : M (World W) A) (w : World W) (Q : A → World W → Prop) : Prop :=
  runs m w (λ a w', winv w' ∧ evolves now w w' ∧ Q a w').
End evolves.

(** ** Updates of a relay *)

Lemma direction_from_set s s' d r :
  direction_from s (set_direction s' d r) = if decide (s = s') then d else direction_from s r.
Proof. by destruct s, s'. Qed.

Lemma set_direction_same s r : set_direction s (direction_from s r) r = r.
Proof. by destruct s, r. Qed.

Lemma set_direction_twice s d d' r : set_direction s d' (set_direction s d r) = set_direction s d' r.
Proof. by destruct s, r. Qed.

(** The relay after a transfer in or out of one direction. *)
Definition transferred (source : Side) (d : Direction) (m : RelayMetrics) (now : Z) (r : Relay)
    : Relay :=
  set_metrics m (set_last_activity now (set_direction source d r)).

Section methods.
Context {W : Type} `{SocketIo W} `{Libc}.
Implicit Types w : World W.

Lemma observe_backpressure_ok source now w d' :
  observe_direction (direction_from source (w_relay w)) now = Ok d' →
  runs (observe_backpressure source now) w (λ _ w',
    w_relay w' = set_direction source d' (w_relay w) ∧ w_wire w' = w_wire w ∧ w_io w' = w_io w).
Proof.
  unfold observe_direction. intros Ho. apply bind_Ok in Ho as ([tr t] & Ho & Hd). injection Hd as <-.
  unfold observe_backpressure. apply runs_gets_bind. apply runs_lift_bind with (P := λ p, p = (tr, t)).
  { by rewrite Ho. }
  intros ? ->. apply runs_modify_bind. case_decide; [by apply runs_ret|].
  unfold on_event, runs, modify. cbn. done.
Qed.

Lemma after_receive_ok source (bs : list byte) now w d sp d' :
  direction_from source (w_relay w) = set_queue (span_store (queue d) sp bs) d →
  sp_offset sp = sp_offset (writable_span (queue d)) →
  dir_read d bs now = Ok d' →
  runs (after_receive source (Z.of_nat (length bs)) now) w (λ _ w',
    w_relay w' = transferred source d' (count_read source (Z.of_nat (length bs)) (metrics_ (w_relay w)))
                   now (w_relay w)
    ∧ w_wire w' = w_wire w ∧ w_io w' = w_io w).
Proof.
  intros Hdir Hoff Hread. apply bind_Ok in Hread as (q & Hq & Hobs).
  unfold after_receive. apply runs_gets_bind. apply runs_lift_bind with (P := λ q', q' = q).
  { rewrite Hdir. unfold span_store in *. cbn [queue set_queue]. by rewrite Hoff, Hq. }
  intros ? ->. do 4 apply runs_modify_bind.
  eapply runs_mono; [apply observe_backpressure_ok with (d' := d')|].
  - rewrite <-Hobs. f_equal. unfold set_relay. cbn [w_relay].
    destruct source; cbn in Hdir |- *; rewrite ?Hdir; done.
  - cbn [w_relay w_wire w_io set_relay]. intros _ w' (Hr & Hwire & Hio). split_and!; [|done..].
    rewrite Hr. unfold transferred. destruct source, w as [[]]; done.
Qed.

Lemma after_send_ok destination n budget now w d' :
  dir_write (direction_from (other destination) (w_relay w)) n now = Ok d' →
  runs (after_send destination n budget now) w (λ _ w',
    (∃ p, w_relay w' = transferred (other destination) d'
       (count_write destination n (set_partial_writes p (metrics_ (w_relay w)))) now (w_relay w))
    ∧ w_wire w' = w_wire w ∧ w_io w' = w_io w).
Proof.
  intros Hwr. apply bind_Ok in Hwr as (q & Hq & Hwr). apply bind_Ok in Hwr as (d1 & Hd1 & Hobs).
  unfold after_send.
  set (P := λ (_ : unit) w1, ∃ p, w1 = set_relay
    (set_metrics (set_partial_writes p (metrics_ (w_relay w))) (w_relay w)) w).
  apply runs_bind with P.
  { destruct (n <? budget); unfold P; unfold runs; cbn; [by eexists|].
    exists (partial_writes (metrics_ (w_relay w))). by destruct w as [[? ? ? ? ? ? ? ? ? ? ? ? ? ? []]]. }
  intros _ w1 [p ->]. set (w1 := set_relay _ w).
  assert (Hdir : direction_from (other destination) (w_relay w1)
                 = direction_from (other destination) (w_relay w)) by (by destruct destination).
  apply runs_gets_bind. apply runs_lift_bind with (P := λ q', q' = q); [by rewrite Hdir, Hq|].
  intros ? ->. apply runs_modify_bind, runs_gets_bind.
  apply runs_lift_bind with (P := λ d', d' = d1).
  { cbn [w_relay set_relay]. rewrite direction_from_set, decide_True, Hdir by done. by rewrite Hd1. }
  intros ? ->. apply runs_modify_bind.
  eapply runs_bind; [apply observe_backpressure_ok with (d' := d')|].
  { cbn [w_relay set_relay]. by rewrite direction_from_set, decide_True. }
  cbn [w_relay w_wire w_io set_relay]. intros _ w' (Hr & Hwire & Hio).
  apply runs_modify_bind. unfold modify_metrics, modify_relay, runs, modify. cbn.
  split_and!; [|done..]. exists p. rewrite Hr. unfold transferred.
  destruct destination, w as [[]]; done.
Qed.
End methods.

(** ** Preservation of the invariant *)

Lemma count_ops_snoc p wire op : count_ops p (wire ++ [op]) = count_ops p wire + bool_to_Z (p op).
Proof.
  unfold count_ops, sum_Z. induction wire as [|x wire IH]; cbn in *; [lia|]. rewrite IH. lia.
Qed.

(** Appending one operation to the byte lists. *)
Lemma wire_in_snoc s wire op :
  wire_in s (wire ++ [op]) = wire_in s wire ++
    match op with WireIn s' bs => if decide (s = s') then bs else [] | _ => [] end.
Proof. rewrite wire_in_app. unfold wire_in at 2. cbn. by rewrite app_nil_r. Qed.

Lemma wire_out_snoc s wire op :
  wire_out s (wire ++ [op]) = wire_out s wire ++
    match op with WireOut s' bs => if decide (s = s') then bs else [] | _ => [] end.
Proof. rewrite wire_out_app. unfold wire_out at 2. cbn. by rewrite app_nil_r. Qed.

(** Solves a counter's equation after one more operation. *)
Ltac counters_tac :=
  rewrite ?wire_in_snoc, ?wire_out_snoc, ?count_ops_snoc; cbn;
  rewrite ?length_app, ?app_nil_r; unfold u64_add, u64_succ;
  repeat match goal with H : _ = wrap64 _ |- _ => rewrite H; clear H end;
  rewrite ?wrap64_add_l; repeat case_decide; try congruence; f_equal; cbn [length]; lia.

Lemma counters_in m wire source bs :
  counters_inv m wire →
  counters_inv (count_read source (Z.of_nat (length bs)) m) (wire ++ [WireIn source bs]).
Proof. intros []. destruct source, m; split; cbn in *; counters_tac. Qed.

Lemma counters_out m wire destination bs :
  counters_inv m wire →
  counters_inv (count_write destination (Z.of_nat (length bs)) m) (wire ++ [WireOut destination bs]).
Proof. intros []. destruct destination, m; split; cbn in *; counters_tac. Qed.

Lemma counters_shutdown m wire s : counters_inv m wire → counters_inv m (wire ++ [WireShutdown s]).
Proof. intros []. destruct m; split; cbn in *; counters_tac. Qed.

Lemma counters_partial m wire p : counters_inv m wire → counters_inv (set_partial_writes p m) wire.
Proof. by intros []. Qed.

Lemma counters_eagain m wire p : counters_inv m wire → counters_inv (set_eagain_events p m) wire.
Proof. by intros []. Qed.

Lemma shutdown_in_snoc s wire op :
  WireShutdown s ∈ wire ++ [op] ↔ WireShutdown s ∈ wire ∨ op = WireShutdown s.
Proof. rewrite elem_of_app, list_elem_of_singleton. intuition congruence. Qed.

Lemma inv_receive r wire source bs d' now :
  relay_inv r wire → read_open source r = true → dir_inv d' →
  relay_inv (transferred source d' (count_read source (Z.of_nat (length bs)) (metrics_ r)) now r)
    (wire ++ [WireIn source bs]).
Proof.
  intros [Id Is Iw Ii Iu Ic Icon Ist Icnt] Hopen Hd'. unfold transferred. split.
  - intros s. destruct source, s; try exact Hd'; [apply (Id Upstream)|apply (Id Client)].
  - intros s. rewrite shutdown_in_snoc, Is. destruct source, s; cbn; intuition congruence.
  - destruct source; (constructor; [exact Iw|]); cbn in *; rewrite Is; intros Hinj Hw; cbn in Hw.
    + destruct (Iu Hw). congruence.
    + destruct (Ic Hw) as [Hi|[? _]]; [|congruence]. specialize (Ii Hi).
      destruct Hinj as [?|?]; [done|]. lia.
  - by destruct source.
  - destruct source; cbn in *; [|done]. intros Hu. destruct (Iu Hu). congruence.
  - destruct source; cbn in *; [done|]. intros Hc. destruct (Ic Hc) as [?|[? ?]]; [by left|congruence].
  - rewrite wire_out_snoc, app_nil_r. by destruct source.
  - by destruct source.
  - destruct source; apply (counters_in _ _ _ _ Icnt).
Qed.

Lemma inv_send r wire destination bs d' p now :
  relay_inv r wire → write_open destination r = true →
  (destination = Upstream → upstream_connecting_ r = false) → dir_inv d' →
  relay_inv (transferred (other destination) d'
      (count_write destination (Z.of_nat (length bs)) (set_partial_writes p (metrics_ r))) now r)
    (wire ++ [WireOut destination bs]).
Proof.
  intros [Id Is Iw Ii Iu Ic Icon Ist Icnt] Hopen Hcon Hd'. unfold transferred. split.
  - intros s. destruct destination, s; try exact Hd'; [apply (Id Client)|apply (Id Upstream)].
  - intros s. rewrite shutdown_in_snoc, Is. destruct destination, s; cbn; intuition congruence.
  - destruct destination; (constructor; [exact Iw|]); rewrite Is; congruence.
  - by destruct destination.
  - destruct destination; cbn in *; [done|congruence].
  - destruct destination; cbn in *; [congruence|done].
  - rewrite wire_out_snoc. destruct destination; cbn in *; [by rewrite app_nil_r|].
    by rewrite Hcon.
  - by destruct destination.
  - destruct destination; apply (counters_out _ _ _ _ (counters_partial _ _ p Icnt)).
Qed.

(** A direction replaced by one with the same queued bytes. *)
Lemma inv_direction r wire s d' :
  relay_inv r wire → dir_inv d' → contents (queue d') = contents (queue (direction_from s r)) →
  relay_inv (set_direction s d' r) wire.
Proof.
  intros [Id Is Iw Ii Iu Ic Icon Ist Icnt] Hd' Hc. split; try (destruct s; assumption).
  - intros s'. rewrite direction_from_set. by case_decide.
  - destruct s; cbn in *; rewrite ?Hc; done.
  - destruct s; cbn in *; rewrite ?Hc; done.
Qed.

Lemma inv_metrics r wire m :
  relay_inv r wire → counters_inv m wire → relay_inv (set_metrics m r) wire.
Proof. intros [] ?. split; try assumption. Qed.

Lemma inv_shutdown r wire s :
  relay_inv r wire → write_open s r = true →
  (s = Upstream → client_read_open_ r = false ∧ contents (queue (client_to_upstream_ r)) = []
                  ∧ upstream_connecting_ r = false) →
  (s = Client → half_close_injected_ r = true
                ∨ upstream_read_open_ r = false ∧ contents (queue (upstream_to_client_ r)) = []) →
  relay_inv (set_write_open s false r) (wire ++ [WireShutdown s]).
Proof.
  intros [Id Is Iw Ii Iu Ic Icon Ist Icnt] Hopen Hu Hc. split.
  - intros s'. destruct s, s'; apply (Id Client) || apply (Id Upstream).
  - intros s'. rewrite shutdown_in_snoc, Is. destruct s, s'; cbn; intuition congruence.
  - destruct s; (constructor; [exact Iw|]); rewrite Is; congruence.
  - by destruct s.
  - destruct s; cbn; [done|]. by destruct Hu as (? & ? & ?).
  - destruct s; cbn; [auto|done].
  - rewrite wire_out_snoc, app_nil_r. destruct s; cbn; [done|].
    destruct Hu as (_ & _ & ->); done.
  - by destruct s.
  - destruct s; by apply counters_shutdown.
Qed.

(** Closing a read side and re-deriving the state. *)
Definition refreshed (r : Relay) : Relay :=
  set_relay_state (derive_connection_state
    (mkLifecycle (upstream_connecting_ r) (client_read_open_ r) (upstream_read_open_ r))) r.

Lemma inv_read_closed r wire s :
  relay_inv r wire → relay_inv (refreshed (set_read_open s false r)) wire.
Proof.
  intros [Id Is Iw Ii Iu Ic Icon Ist Icnt]. split; try (destruct s; assumption); destruct s; cbn; try done.
  - intros Hu. by destruct (Iu Hu).
  - intros Hc. destruct (Ic Hc) as [?|[? ?]]; auto.
Qed.

Lemma inv_connected r wire :
  relay_inv r wire → relay_inv (refreshed (set_upstream_connecting false r)) wire.
Proof. intros []. split; assumption || done. Qed.

Lemma inv_half_close_injected r wire :
  relay_inv r wire → 0 < half_close_after_bytes_ r →
  relay_inv (set_half_close_injected true r) wire.
Proof. intros [] ?. split; try assumption; cbn; auto. Qed.

(** ** Evolution through one event of one direction *)

Lemma evolves_by_event now s e r r' ops :
  relay_static r' = relay_static r →
  dir_step (direction_from s r) e (direction_from s r') →
  direction_from (other s) r' = direction_from (other s) r →
  event_time e = now →
  transfers s ops = event_transfer e → transfers (other s) ops = [] →
  (∀ s', read_open s' r' = read_open s' r) →
  progressed now r r' →
  evolves_by now ops r r'.
Proof.
  intros Hst Hstep Hoth Ht Hx Hx' Hro Hp. split; [done| |by intros s' _ _|done]. intros s'.
  destruct (decide (s' = s)) as [->|Hne].
  - exists [e]. split_and!; [by apply lsteps_once|by constructor|].
    unfold dir_transfers. cbn. by rewrite app_nil_r.
  - assert (s' = other s) as -> by (by destruct s, s'). rewrite Hoth. exists [].
    split_and!; [constructor|constructor|done].
Qed.

Section specs.
#[local] Set Default Proof Using "Type*".
Context {W : Type} `{SocketIoLaws W} `{Libc}.
Implicit Types w : World W.

Lemma keeps_ret {A} now (a : A) w (Q : A → World W → Prop) :
  winv w → Q a w → keeps now (mret a) w Q.
Proof. intros Hi HQ. apply runs_ret. split_and!; done. Qed.

Lemma keeps_bind {A B} now (m : M (World W) A) (f : A → M (World W) B) w P Q :
  keeps now m w P → (∀ a w', winv w' → P a w' → keeps now (f a) w' Q) → keeps now (m ≫= f) w Q.
Proof.
  intros Hm Hf. eapply runs_bind; [exact Hm|]. intros a w1 (I1 & E1 & HP).
  eapply runs_mono; [by apply Hf|]. intros b w2 (I2 & E2 & HQ). split_and!; [done|by etrans|done].
Qed.

Lemma keeps_mono {A} now (m : M (World W) A) w (P Q : A → World W → Prop) :
  keeps now m w P → (∀ a w', winv w' → P a w' → Q a w') → keeps now m w Q.
Proof. intros Hm HPQ. eapply runs_mono; [exact Hm|]. intros a w' (? & ? & ?). split_and!; auto. Qed.

Lemma keeps_from {A} now (m : M (World W) A) w w1 (Q : A → World W → Prop) :
  evolves now w w1 → keeps now m w1 Q → runs m w1 (λ a w', winv w' ∧ evolves now w w' ∧ Q a w').
Proof. intros E Hm. eapply runs_mono; [exact Hm|]. intros a w' (? & ? & ?). split_and!; [done|by etrans|done]. Qed.

(** A method that only updates the relay, keeping the directions and the trace. *)
Lemma keeps_modify_relay now f w (Q : unit → World W → Prop) :
  relay_inv (f (w_relay w)) (w_wire w) →
  relay_static (f (w_relay w)) = relay_static (w_relay w) →
  (∀ s, direction_from s (f (w_relay w)) = direction_from s (w_relay w)) →
  (∀ s, read_open s (f (w_relay w)) = read_open s (w_relay w)) →
  progressed now (w_relay w) (f (w_relay w)) →
  Q tt (set_relay (f (w_relay w)) w) →
  keeps now (modify_relay f) w Q.
Proof.
  intros Hi Hs Hd Hr Hp HQ. unfold keeps, runs, modify_relay, modify. cbn.
  split_and!; [done| |done]. by apply evolves_same.
Qed.

Lemma on_event_ok now e d w (Q : unit → World W → Prop) :
  winv w → (∀ evs, Q tt (mkWorld (w_relay w) (w_io w) evs (w_wire w))) →
  keeps now (on_event e d) w Q.
Proof.
  intros Hi HQ. unfold keeps, runs, on_event, modify. cbn. split_and!; [done| |apply HQ].
  by apply evolves_same.
Qed.

(** Refilling the bucket of a direction, as [fault_sendable] does. *)
Lemma keeps_refill now s f w (Q : unit → World W → Prop) :
  winv w → f (direction_from s (w_relay w)) = refill_direction (direction_from s (w_relay w)) now →
  Q tt (set_relay (set_direction s (refill_direction (direction_from s (w_relay w)) now) (w_relay w)) w) →
  keeps now (modify_direction s f) w Q.
Proof.
  intros Hi Hf HQ. unfold keeps, runs, modify_direction, modify_relay, modify. cbn. rewrite Hf.
  split_and!; [| |done].
  - apply inv_direction; [done| |].
    + apply refill_direction_inv, Hi.
    + by rewrite queue_refill.
  - exists []. cbn. rewrite app_nil_r. split; [done|].
    apply (evolves_by_event now s (DRefill now)); try done; try (by destruct s);
      try (by destruct s; intros []).
    rewrite direction_from_set, decide_True by done. constructor.
Qed.

Lemma note_half_closed_read_ok source now w :
  winv w → dir_paused (direction_from source (w_relay w)) = false →
  keeps now (note_half_closed_read source) w (λ _ w', read_open source (w_relay w') = false).
Proof.
  intros Hi Hp. unfold note_half_closed_read, keeps. do 2 apply runs_modify_bind.
  unfold on_event, runs, modify. cbn. split_and!.
  - apply (inv_read_closed _ _ source Hi).
  - apply evolves_control; cbn; [done|by destruct source|by destruct source| |by destruct source; auto].
    intros s. destruct source, s; auto.
  - by destruct source.
Qed.

Lemma span_store_nil q sp : span_store q sp [] = q.
Proof. unfold span_store, overwrite. cbn. rewrite Nat.add_0_r, take_drop. by destruct q. Qed.

Lemma receive_ok source sp w :
  0 < sp_length sp →
  runs (receive source sp) w (λ result w',
    ∃ bs, Z.of_nat (length bs) ≤ sp_length sp
      ∧ (status result = Transferred →
         bytes result = Z.of_nat (length bs) ∧ 0 < bytes result
         ∧ w_wire w' = w_wire w ++ [WireIn source bs]
         ∧ w_relay w' = set_direction source (set_queue (span_store (queue (direction_from source (w_relay w))) sp bs)
                          (direction_from source (w_relay w))) (w_relay w))
      ∧ (status result ≠ Transferred → w_wire w' = w_wire w ∧ w_relay w' = w_relay w)).
Proof.
  intros Hsp. unfold runs, receive.
  destruct (io_receive (w_io w) _ _) as [[result bs] io] eqn:E.
  destruct (receive_stored _ _ _ _ _ _ Hsp E) as (Hl & Ht & Hn). cbn. exists bs.
  split; [done|]. case_decide as Hs; cbn.
  - split; [|done]. intros _. destruct (Ht Hs). done.
  - split; [done|]. intros _. split; [done|]. rewrite (Hn Hs), span_store_nil.
    destruct source, w as [[? ? ? ? ? ? ? ? ? ? ? ? [] [] ? ? ?]]; done.
Qed.

(** *** Reading *)

Definition queued (s : Side) (r : Relay) : Z := size_ (queue (direction_from s r)).
Definition high_water (s : Side) (r : Relay) : Z :=
  high_water_bytes_ (backpressure (direction_from s r)).

Lemma dir_static_high d d' :
  dir_static d' = dir_static d →
  high_water_bytes_ (backpressure d') = high_water_bytes_ (backpressure d).
Proof. unfold dir_static. by intros [= _ _ ? _ _ _]. Qed.

Lemma transfer_in_ok source sp bs now w w1 :
  winv w → read_open source (w_relay w) = true →
  read_paused_ (backpressure (direction_from source (w_relay w))) = false →
  (0 < length bs)%nat → Z.of_nat (length bs) ≤ sp_length sp →
  sp = mkSpan (sp_offset (writable_span (queue (direction_from source (w_relay w)))))
         (Z.min (sp_length (writable_span (queue (direction_from source (w_relay w)))))
            (high_water source (w_relay w) - queued source (w_relay w))) →
  w_wire w1 = w_wire w ++ [WireIn source bs] →
  w_relay w1 = set_direction source (set_queue (span_store (queue (direction_from source (w_relay w))) sp bs)
                 (direction_from source (w_relay w))) (w_relay w) →
  runs (after_receive source (Z.of_nat (length bs)) now) w1 (λ _ w2,
    winv w2 ∧ evolves now w w2
    ∧ queued source (w_relay w2) = queued source (w_relay w) + Z.of_nat (length bs)
    ∧ high_water source (w_relay w2) = high_water source (w_relay w)).
Proof.
  intros Hi Hopen Hpaused Hpos Hlen -> Hwire Hrel. unfold high_water, queued in *. cbn in Hlen.
  set (d := direction_from source (w_relay w)) in *. set (sp := mkSpan _ _) in Hrel.
  assert (Id : dir_inv d) by apply Hi.
  pose proof (dir_read_ok d bs now Id ltac:(lia) ltac:(lia)) as Hr.
  apply succeeds_inv in Hr as (d' & Hr & Id' & Hst & Hc & _).
  eapply runs_mono; [apply (after_receive_ok source bs now w1 d sp d'); [|reflexivity|exact Hr]|].
  { rewrite Hrel. by rewrite direction_from_set, decide_True. }
  intros _ w2 (Hr2 & Hw2 & _).
  assert (Hr2' : w_relay w2 = transferred source d'
     (count_read source (Z.of_nat (length bs)) (metrics_ (w_relay w))) now (w_relay w)).
  { rewrite Hr2, Hrel. unfold transferred. rewrite set_direction_twice. by destruct source. }
  assert (Hd2 : direction_from source (w_relay w2) = d') by (rewrite Hr2'; by destruct source).
  rewrite Hd2. split_and!.
  - unfold winv. rewrite Hr2', Hw2, Hwire. by apply inv_receive.
  - exists [WireIn source bs]. split; [congruence|].
    apply (evolves_by_event now source (DRead bs now)); rewrite ?Hd2; try done;
      try (rewrite Hr2'; by destruct source); try (by destruct source);
      try (intros s; rewrite Hr2'; by destruct source, s).
    apply step_read; try done; fold d; lia.
  - pose proof (length_contents _ (dv_queue _ Id')) as HL1.
    pose proof (length_contents _ (dv_queue _ Id)) as HL2. rewrite Hc, length_app in HL1. lia.
  - by apply dir_static_high.
Qed.

(** A failed read leaves everything in place but the counters and, at the end
    of the stream, the read side. *)
Lemma handle_readable_loop_ok fuel source hangup_hint now w :
  winv w → high_water source (w_relay w) - queued source (w_relay w) ≤ Z.of_nat fuel →
  keeps now (handle_readable_loop fuel source hangup_hint now) w (λ result _,
    pump_status result = CloseConnection → ∃ err, result = close_for_error err "read").
Proof.
  revert w. induction fuel as [|fuel IH]; intros w Hi Hfuel; cbn [handle_readable_loop];
    apply runs_gets_bind; destruct (read_open source (w_relay w)) eqn:Hopen; cbn [andb];
    try (by apply keeps_ret);
    destruct (read_paused_ (backpressure (direction_from source (w_relay w)))) eqn:Hp; cbn [negb];
    try (by apply keeps_ret); pose proof (ri_dir _ _ Hi source) as Id; unfold high_water, queued in Hfuel;
    pose proof (ti_open _ _ _ (dv_tracker _ Id) Hp).
  { lia. }
  set (d := direction_from source (w_relay w)) in *.
  destruct (writable_span_bounds (queue d) (dv_queue d Id)) as (_ & _ & _ & _ & Hpos & _).
  pose proof (ti_high _ _ _ (dv_tracker _ Id)). pose proof (dv_queue _ Id) as Iq.
  assert (Hav : u64_sub (high_water_bytes_ (backpressure d)) (size_ (queue d))
                = high_water_bytes_ (backpressure d) - size_ (queue d)) by (destruct Iq; wrap_lia).
  rewrite Hav. set (sp := mkSpan (sp_offset (writable_span (queue d)))
    (Z.min (sp_length (writable_span (queue d))) (high_water_bytes_ (backpressure d) - size_ (queue d)))).
  apply runs_lift_bind with (P := λ x, x = sp).
  { unfold span_first. by destruct (Z.leb_spec (Z.min (sp_length (writable_span (queue d)))
      (high_water_bytes_ (backpressure d) - size_ (queue d))) (sp_length (writable_span (queue d)))); [|lia]. }
  intros ? ->. eapply runs_bind; [apply receive_ok; unfold sp; cbn; lia|].
  intros result w1 (bs & Hlen & Ht & Hnt). destruct (status result) eqn:Hst.
  { destruct Ht as (Hb & Hb0 & Hwire & Hrel); [done|]. rewrite Hb.
    eapply runs_bind; [apply (transfer_in_ok source sp bs now w w1); done || lia|].
    intros _ w2 (I2 & E2 & Hq & Hh). eapply runs_mono.
    - apply IH; [done|]. unfold high_water, queued in *. fold d in Hq, Hh. lia.
    - intros a w3 (I3 & E3 & HQ). split_and!; [done|by etrans|done]. }
  all: destruct Hnt as [Hwire Hrel]; [done|];
    assert (I1 : winv w1) by (unfold winv; by rewrite Hwire, Hrel);
    assert (E1 : evolves now w w1) by (apply evolves_same; rewrite ?Hrel; done);
    assert (Hp1 : dir_paused (direction_from source (w_relay w1)) = false) by (by rewrite Hrel);
    apply keeps_from; [exact E1|].
  - eapply keeps_bind; [apply keeps_modify_relay with (Q := λ _ w2,
      dir_paused (direction_from source (w_relay w2)) = false); try done|].
    { apply inv_metrics; [done|]. apply counters_eagain, I1. }
    intros [] w2 I2 Hp2. eapply keeps_bind.
    { destruct hangup_hint; [apply keeps_mono with (2 := λ _ _ _ _, I); by apply note_half_closed_read_ok|].
      by apply keeps_ret. }
    intros _ w3 I3 _. by apply keeps_ret.
  - eapply keeps_bind; [by apply note_half_closed_read_ok|]. intros _ w2 I2 _. by apply keeps_ret.
  - apply keeps_ret; [done|]. eauto.
Qed.

Lemma handle_readable_ok source hangup_hint now w :
  winv w → keeps now (handle_readable source hangup_hint now) w (λ result _,
    pump_status result = CloseConnection → ∃ err, result = close_for_error err "read").
Proof.
  intros Hi. unfold handle_readable. apply runs_gets_bind.
  apply handle_readable_loop_ok; [done|]. unfold high_water, queued.
  pose proof (ri_dir _ _ Hi source) as Id. pose proof (dv_queue _ Id) as Iq. destruct Iq.
  pose proof (ti_water _ _ _ (dv_tracker _ Id)). lia.
Qed.

(** *** Closing *)

Lemma shutdown_write_ok s w :
  runs (shutdown_write s) w (λ ok w',
    w_relay w' = w_relay w
    ∧ w_wire w' = w_wire w ++ (if (ok : bool) then [WireShutdown s] else [])).
Proof.
  unfold runs, shutdown_write. destruct (io_shutdown_write _ _) as [[] io]; cbn; [done|].
  by rewrite app_nil_r.
Qed.

Lemma evolves_shutdown now s r :
  evolves_by now [WireShutdown s] r (set_write_open s false r).
Proof.
  split; [by destruct s| |by destruct s; intros []|by destruct s; auto]. intros s'. exists [].
  destruct s, s'; (split_and!; [constructor|constructor|done]).
Qed.

(** Shutting a side down, and closing its writes when that worked. *)
Lemma close_writes_ok now s event detail w :
  winv w → write_open s (w_relay w) = true →
  (s = Upstream → client_read_open_ (w_relay w) = false
     ∧ contents (queue (client_to_upstream_ (w_relay w))) = []
     ∧ upstream_connecting_ (w_relay w) = false) →
  (s = Client → half_close_injected_ (w_relay w) = true
     ∨ upstream_read_open_ (w_relay w) = false
       ∧ contents (queue (upstream_to_client_ (w_relay w))) = []) →
  keeps now (ok ← shutdown_write s;
             if (ok : bool) then
               _ ← modify_relay (set_write_open s false); on_event event detail
             else mret tt) w (λ _ w',
    ∃ b, w_relay w' = (if (b : bool) then set_write_open s false (w_relay w) else w_relay w)).
Proof.
  intros Hi Hopen Hu Hc. eapply runs_bind; [apply shutdown_write_ok|]. intros [] w1 [Hr Hw].
  - apply runs_modify_bind. unfold runs, on_event, modify. cbn. split_and!.
    + unfold winv. cbn. rewrite Hr, Hw. by apply inv_shutdown.
    + exists [WireShutdown s]. cbn. split; [done|]. rewrite Hr. apply evolves_shutdown.
    + exists true. by rewrite Hr.
  - apply runs_ret. rewrite app_nil_r in Hw. split_and!.
    + unfold winv. by rewrite Hr, Hw.
    + apply evolves_same; by rewrite ?Hr.
    + by exists false.
Qed.

Lemma propagate_half_closes_ok now w :
  winv w → keeps now propagate_half_closes w (λ _ _, True).
Proof.
  intros Hi. unfold propagate_half_closes. apply runs_gets_bind.
  apply keeps_bind with (P := λ _ _, True).
  { destruct (client_read_open_ (w_relay w)) eqn:Hr; cbn [negb andb]; [by apply keeps_ret|].
    destruct (empty _) eqn:He; cbn [andb]; [|by apply keeps_ret].
    destruct (upstream_write_open_ (w_relay w)) eqn:Hw; cbn [andb]; [|by apply keeps_ret].
    destruct (upstream_connecting_ (w_relay w)) eqn:Hcon; cbn [negb]; [by apply keeps_ret|].
    eapply keeps_mono; [apply (close_writes_ok now Upstream); try done|done].
    intros _. apply empty_contents in He; [done|]. apply (ri_dir _ _ Hi Client). }
  intros _ w1 I1 _. apply runs_gets_bind.
  destruct (upstream_read_open_ (w_relay w1)) eqn:Hr; cbn [negb andb]; [by apply keeps_ret|].
  destruct (empty _) eqn:He; cbn [andb]; [|by apply keeps_ret].
  destruct (client_write_open_ (w_relay w1)) eqn:Hw; [|by apply keeps_ret].
  eapply keeps_mono; [apply (close_writes_ok now Client); try done|done].
  intros _. right. split; [done|]. apply empty_contents in He; [done|]. apply (ri_dir _ _ I1 Upstream).
Qed.

(** *** Lifecycle faults *)

Definition total_written (r : Relay) : Z :=
  u64_add (client_bytes_written (metrics_ r)) (upstream_bytes_written (metrics_ r)).
Definition half_close_due (r : Relay) : bool :=
  (0 <? half_close_after_bytes_ r) && negb (half_close_injected_ r) && client_write_open_ r
  && (half_close_after_bytes_ r <=? client_bytes_written (metrics_ r)).
Definition reset_due (r : Relay) : bool :=
  (0 <? reset_after_bytes_ r) && (reset_after_bytes_ r <=? total_written r).
Definition fault_reset : PumpResult := mkPumpResult CloseConnection Reset "fault_reset".

Lemma check_lifecycle_faults_ok now w :
  winv w → keeps now check_lifecycle_faults w (λ result w',
    result = (if reset_due (w_relay w) then fault_reset else default_PumpResult)
    ∧ half_close_injected_ (w_relay w') = half_close_injected_ (w_relay w) || half_close_due (w_relay w)
    ∧ metrics_ (w_relay w') = metrics_ (w_relay w)).
Proof.
  intros Hi. unfold check_lifecycle_faults. apply runs_gets_bind.
  fold (total_written (w_relay w)). fold (half_close_due (w_relay w)). fold (reset_due (w_relay w)).
  apply keeps_bind with (P := λ _ w',
    half_close_injected_ (w_relay w') = half_close_injected_ (w_relay w) || half_close_due (w_relay w)
    ∧ metrics_ (w_relay w') = metrics_ (w_relay w)).
  { destruct (half_close_due (w_relay w)) eqn:Hdue;
      [|apply keeps_ret; [done|by rewrite orb_false_r]].
    apply andb_true_iff in Hdue as [[[Hpos Hni]%andb_true_iff Hopen]%andb_true_iff _].
    eapply keeps_bind.
    { apply keeps_modify_relay with
        (Q := λ _ w', w_relay w' = set_half_close_injected true (w_relay w)); try done.
      apply inv_half_close_injected; [done|lia]. }
    intros [] w1 I1 Hr1. eapply keeps_mono; [apply (close_writes_ok now Client); try done|].
    - by rewrite Hr1.
    - rewrite Hr1. by left.
    - cbn. intros [] w2 _ [b Hr2]. rewrite Hr2, Hr1, orb_true_r. by destruct b. }
  intros _ w1 I1 [Hh Hm]. destruct (reset_due (w_relay w)).
  - eapply keeps_bind; [by apply on_event_ok with (Q := λ _ w', w_relay w' = w_relay w1)|].
    intros [] w2 I2 Hr. apply keeps_ret; [done|]. by rewrite Hr.
  - by apply keeps_ret.
Qed.

(** *** Writing *)

Lemma send_ok destination data w :
  runs (send destination data) w (λ result w',
    w_relay w' = w_relay w
    ∧ (status result = Transferred →
       0 < bytes result ≤ Z.of_nat (length data)
       ∧ w_wire w' = w_wire w ++ [WireOut destination (take (Z.to_nat (bytes result)) data)])
    ∧ (status result ≠ Transferred → w_wire w' = w_wire w)
    ∧ (∀ G, obliging (fd_for destination (w_relay w)) G → G (w_io w) →
       (data ≠ [] → status result = Transferred) ∧ G (w_io w'))).
Proof.
  unfold runs, send. destruct (io_send (w_io w) _ _) as [result io] eqn:E. cbn [w_io w_relay].
  assert (Ha : ∀ G, obliging (fd_for destination (w_relay w)) G → G (w_io w) →
    (data ≠ [] → status result = Transferred) ∧ G io).
  { intros G HG Hio. pose proof (ob_takes _ _ HG (w_io w) data Hio) as Ht.
    pose proof (ob_send _ _ HG (w_io w) (fd_for destination (w_relay w)) data Hio) as Hs. by rewrite E in Ht, Hs. }
  case_decide as Hs; cbn; (split_and!; [done| |done|done]); [|done].
  intros _. by pose proof (send_taken _ _ _ _ _ E Hs).
Qed.

Lemma transfer_out_ok destination n budget now w w1 :
  winv w → write_open destination (w_relay w) = true →
  (destination = Upstream → upstream_connecting_ (w_relay w) = false) →
  let d := direction_from (other destination) (w_relay w) in
  0 < n ≤ (fault_sendable d (sp_length (readable_span (queue d))) now).1 →
  w_relay w1 = set_direction (other destination) (refill_direction d now) (w_relay w) →
  w_wire w1 = w_wire w ++ [WireOut destination (take (Z.to_nat n) (contents (queue d)))] →
  runs (after_send destination n budget now) w1 (λ _ w2,
    winv w2 ∧ evolves now w w2
    ∧ queued (other destination) (w_relay w2) = queued (other destination) (w_relay w) - n
    ∧ write_open destination (w_relay w2) = true
    ∧ upstream_connecting_ (w_relay w2) = upstream_connecting_ (w_relay w)
    ∧ w_io w2 = w_io w1).
Proof.
  intros Hi Hopen Hcon d Hn Hrel Hwire. pose proof (ri_dir _ _ Hi (other destination)) as Id. fold d in Id.
  destruct (refill_direction_inv d now Id) as [Id1 _].
  pose proof (readable_span_bounds (queue d) (dv_queue d Id)) as (_ & _ & Hsp & _).
  destruct (fault_sendable_bounds d (sp_length (readable_span (queue d))) now Id ltac:(lia))
    as (Hlim & _ & Htok).
  pose proof (dir_write_ok (refill_direction d now) n now Id1) as Hok. rewrite queue_refill in Hok.
  apply succeeds_inv in Hok as (d' & Hw & Id' & _ & Hc & _); [|lia|].
  2:{ intros b Hb. rewrite dir_bucket_refill in Hb. destruct (dir_bucket d) as [b0|]; [|done].
      injection Hb as <-. specialize (Htok b0 eq_refl). lia. }
  set (bs := take (Z.to_nat n) (contents (queue d))) in *.
  pose proof (length_contents _ (dv_queue d Id)) as HL. pose proof (length_contents _ (dv_queue d' Id')) as HL'.
  assert (Hbs : Z.of_nat (length bs) = n) by (unfold bs; rewrite length_take; lia).
  eapply runs_mono; [apply (after_send_ok destination n budget now w1 d')|].
  { rewrite Hrel, direction_from_set, decide_True by done. exact Hw. }
  intros _ w2 ([p Hr2] & Hw2 & Hio).
  assert (Hr2' : w_relay w2 = transferred (other destination) d'
     (count_write destination n (set_partial_writes p (metrics_ (w_relay w)))) now (w_relay w)).
  { rewrite Hr2, Hrel. unfold transferred. rewrite set_direction_twice. by destruct destination. }
  unfold queued. assert (Hd2 : direction_from (other destination) (w_relay w2) = d')
    by (rewrite Hr2'; by destruct destination).
  rewrite Hd2. fold d. split_and!.
  - unfold winv. rewrite Hr2', Hw2, Hwire, <-Hbs. by apply inv_send.
  - exists [WireOut destination bs]. split; [congruence|].
    apply (evolves_by_event now (other destination) (DWrite bs now)); rewrite ?Hd2; try done;
      try (rewrite Hr2'; by destruct destination); try (by destruct destination);
      try (intros s; rewrite Hr2'; by destruct destination, s).
    apply step_write with n; done || lia.
  - rewrite Hc, length_drop in HL'. lia.
  - rewrite Hr2'. by destruct destination.
  - rewrite Hr2'. by destruct destination.
  - done.
Qed.

(** The socket of the destination takes what it is offered, from now on. *)
Definition taking (destination : Side) (w : World W) : Prop :=
  ∃ G, obliging (fd_for destination (w_relay w)) G ∧ G (w_io w).

Lemma taking_same destination w w' :
  taking destination w → fd_for destination (w_relay w') = fd_for destination (w_relay w) →
  w_io w' = w_io w → taking destination w'.
Proof. intros (G & HG & Hio) Hfd Heq. exists G. by rewrite Hfd, Heq. Qed.

Lemma evolves_fd now w w' side : evolves now w w' → fd_for side (w_relay w') = fd_for side (w_relay w).
Proof.
  intros (ops & _ & [Hst _ _ _]). unfold relay_static in Hst.
  destruct side; cbn; congruence.
Qed.

(** The effect of a flush towards a socket that takes everything: some bytes
    leave, unless there are none or the fault channel blocks them. *)
Definition flushed (destination : Side) (now : Z) (r r' : Relay) : Prop :=
  let d := direction_from (other destination) r in
  let d' := direction_from (other destination) r' in
  write_open destination r' = write_open destination r
  ∧ upstream_connecting_ r' = upstream_connecting_ r
  ∧ (size_ (queue d') < size_ (queue d)
     ∨ size_ (queue d) = 0 ∧ d' = d
     ∨ 0 < size_ (queue d) ∧ d' = refill_direction d now ∧ (fault_sendable d (size_ (queue d)) now).1 = 0).

Lemma span_prefix_bytes q n :
  queue_inv q → n ≤ sp_length (readable_span q) →
  span_bytes q (mkSpan (sp_offset (readable_span q)) n) = take (Z.to_nat n) (contents q).
Proof.
  intros Iq Hn. pose proof (readable_span_prefix q Iq) as Hp. unfold span_bytes in *. cbn.
  assert (Ht : ∀ l : list byte,
    take (Z.to_nat n) l = take (Z.to_nat n) (take (Z.to_nat (sp_length (readable_span q))) l))
    by (intros l; rewrite take_take, Nat.min_l by lia; done).
  by rewrite Ht, Hp, <-Ht.
Qed.

(** Nothing may be sent now: the fault channel of the refilled direction holds
    the rest back. *)
Lemma flush_held_back destination now w :
  winv w →
  let d := direction_from (other destination) (w_relay w) in
  queued (other destination) (w_relay w) ≠ 0 →
  (fault_sendable d (sp_length (readable_span (queue d))) now).1 = 0 →
  let w1 := set_relay (set_direction (other destination) (refill_direction d now) (w_relay w)) w in
  taking destination w → taking destination w1 ∧ flushed destination now (w_relay w) (w_relay w1).
Proof.
  intros Hi d Hq Hb w1 Ht. pose proof (ri_dir _ _ Hi (other destination)) as Id. fold d in Id.
  unfold queued in Hq. fold d in Hq.
  pose proof (dv_queue _ Id) as Iq. pose proof (qi_size _ Iq).
  pose proof (readable_span_bounds (queue d) Iq) as (_ & _ & Hsp & Hsp0 & _).
  destruct (fault_sendable_bounds d (sp_length (readable_span (queue d))) now Id ltac:(lia)) as (Hlim & _ & _).
  pose proof (fault_sendable_span d (sp_length (readable_span (queue d))) (size_ (queue d)) now Id ltac:(lia)) as Hwhole.
  pose proof (fault_sendable_bounds d (size_ (queue d)) now Id ltac:(lia)) as (Hwhole0 & _ & _). split.
  - apply (taking_same destination w w1 Ht); [|done]. by destruct destination.
  - unfold flushed, w1. cbn [w_relay set_relay]. split_and!; [by destruct destination..|]. right; right.
    rewrite direction_from_set, decide_True by done. split_and!; [fold d; lia|done|]. fold d. lia.
Qed.

(** A send that transferred nothing ends the loop. *)
Lemma flush_stop_ok destination now w w2 result (next : M (World W) (option PumpResult)) :
  winv w2 → evolves now w w2 → status result ≠ Transferred → ¬ taking destination w →
  keeps now (match status result with
             | Transferred => next
             | WouldBlock =>
                 _ ← modify_metrics (λ m, set_eagain_events (u64_succ (eagain_events m)) m);
                 mret None
             | _ => mret (Some (close_for_error (error result) "write"))
             end) w2 (λ early w',
    (∀ r, early = Some r → ∃ err, r = close_for_error err "write")
    ∧ (taking destination w →
       early = None ∧ taking destination w' ∧ flushed destination now (w_relay w) (w_relay w'))).
Proof.
  intros I2 E2 Hst Hno. destruct (status result) eqn:Hs; [done| | |].
  1:{ eapply keeps_bind; [apply keeps_modify_relay with (Q := λ _ _, True); try done|].
      { apply inv_metrics; [done|]. apply counters_eagain, I2. }
      intros _ w3 I3 _. apply keeps_ret; [done|]. by split. }
  all: apply keeps_ret; [done|]; (split; [|done]); intros ? [= <-]; eauto.
Qed.

(** What a finished flush loop means: an error, or nothing more to do now. *)
Lemma flush_loop_ok fuel destination now w :
  winv w → write_open destination (w_relay w) = true →
  (destination = Upstream → upstream_connecting_ (w_relay w) = false) →
  queued (other destination) (w_relay w) ≤ Z.of_nat fuel →
  keeps now (flush_loop fuel destination now) w (λ early w',
    (∀ result, early = Some result → ∃ err, result = close_for_error err "write")
    ∧ (taking destination w →
       early = None ∧ taking destination w' ∧ flushed destination now (w_relay w) (w_relay w'))).
Proof.
  revert w. induction fuel as [|fuel IH]; intros w Hi Hopen Hcon Hfuel; cbn [flush_loop];
    apply runs_gets_bind; pose proof (ri_dir _ _ Hi (other destination)) as Id; unfold queued in Hfuel;
    set (d := direction_from (other destination) (w_relay w)) in *; pose proof (dv_queue _ Id) as Iq;
    (destruct (empty (queue d)) eqn:He; cbn [negb];
      [apply keeps_ret; [done|split; [done|intros Ht; unfold flushed; split_and!; try done; right; left; split; [|done]]];
       unfold empty in He; by apply Z.eqb_eq in He|]);
    unfold empty in He; apply Z.eqb_neq in He; pose proof (qi_size _ Iq).
  { lia. }
  pose proof (readable_span_bounds (queue d) Iq) as (_ & _ & Hsp & Hsp0 & _).
  destruct (fault_sendable_bounds d (sp_length (readable_span (queue d))) now Id ltac:(lia)) as (Hlim & _ & _).
  pose proof (fault_sendable_refills d (sp_length (readable_span (queue d))) now) as Hrd.
  pose proof (flush_held_back destination now w Hi He) as Hheld. cbv zeta in Hheld. fold d in Hheld.
  destruct (fault_sendable d (sp_length (readable_span (queue d))) now) as [budget d1] eqn:Hfs.
  cbn [fst snd] in Hlim, Hrd, Hheld. subst d1. set (w1 := set_relay (set_direction (other destination)
    (refill_direction d now) (w_relay w)) w) in *.
  destruct (keeps_refill now (other destination) (λ _, refill_direction d now) w (λ _ _, True)
    Hi eq_refl I) as (I1 & E1 & _). apply runs_modify_bind. fold w1.
  destruct (Z.eqb_spec budget 0) as [->|Hb0].
  { apply keeps_from; [done|]. apply keeps_ret; [done|]. split; [done|]. intros Ht. split; [done|]. by apply Hheld. }
  apply runs_lift_bind with (P := λ x, x = mkSpan (sp_offset (readable_span (queue d))) budget).
  { unfold span_first. by destruct (Z.leb_spec budget (sp_length (readable_span (queue d)))); [|lia]. }
  intros ? ->. rewrite queue_refill.
  rewrite span_prefix_bytes by (done || lia). pose proof (length_contents _ Iq) as HL.
  eapply runs_bind; [apply send_ok|]. intros result w2 (Hr2 & Ht & Hnt & Hacc).
  assert (Hdata0 : take (Z.to_nat budget) (contents (queue d)) ≠ []).
  { intros Hn. apply (f_equal length) in Hn. rewrite length_take in Hn. cbn in Hn. lia. }
  assert (Htaking : taking destination w → status result = Transferred ∧ taking destination w2).
  { intros (G & HG & Hio). assert (Hfd : fd_for destination (w_relay w1) = fd_for destination (w_relay w))
      by (by destruct destination).
    destruct (Hacc G) as [Hst HG2]; [by rewrite Hfd|done|]. split; [by apply Hst|]. exists G. by rewrite Hr2, Hfd. }
  destruct (decide (status result = Transferred)) as [Hst|Hst].
  2:{ assert (E2 : evolves now w w2) by (etrans; [exact E1|]; apply evolves_same; rewrite ?Hr2, ?Hnt by done; done).
      apply keeps_from; [exact E2|]. apply flush_stop_ok; [|done|done|intros Htk; by destruct (Htaking Htk)].
      unfold winv. by rewrite Hr2, Hnt by done. }
  rewrite Hst. destruct (Ht Hst) as (Hn & Hw2). rewrite length_take in Hn. rewrite take_take, Nat.min_l in Hw2 by lia.
  eapply runs_bind; [apply (transfer_out_ok destination (bytes result) budget now w w2); try done|].
  { fold d. rewrite Hfs. cbn. lia. }
  intros _ w3 (I3 & E3 & Hq & Ho & Hc & Hio). apply keeps_from; [done|].
  unfold queued in Hq. fold d in Hq.
  eapply keeps_mono; [apply IH; [done|done|intros Hd; rewrite Hc; auto|unfold queued; lia]|].
  intros early w4 _ [Hearly Hflushed]. split; [done|]. intros Htk. destruct (Htaking Htk) as [_ Htk2].
  destruct Hflushed as (-> & Htk4 & Hwo & Hco & Hres).
  { apply (taking_same destination w2); [done| |done]. by rewrite (evolves_fd _ _ _ _ E3), Hr2; destruct destination. }
  split_and!; [done|done|]. unfold flushed. split_and!; [congruence|congruence|]. left. fold d.
  pose proof (ri_dir _ _ I3 (other destination)) as Id3.
  destruct Hres as [Hlt|[[_ ->]|(_ & -> & _)]]; rewrite ?queue_refill; lia.
Qed.

(** Unless the destination is closed or not connected yet, or the write fails,
    a flush leaves no lifecycle fault overdue: a reset that is due is returned. *)
Lemma flush_ok destination now w :
  winv w → keeps now (flush destination now) w (λ result w',
    (result = default_PumpResult
     ∧ (write_open destination (w_relay w) = false
        ∨ destination = Upstream ∧ upstream_connecting_ (w_relay w) = true))
    ∨ (∃ err, result = close_for_error err "write")
    ∨ (result = (if reset_due (w_relay w') then fault_reset else default_PumpResult)
       ∧ half_close_due (w_relay w') = false)).
Proof.
  intros Hi. unfold flush. apply runs_gets_bind.
  destruct (write_open destination (w_relay w)) eqn:Hopen; cbn [negb orb]; [|apply keeps_ret; auto].
  destruct (bool_decide (destination = Upstream) && upstream_connecting_ (w_relay w)) eqn:Hcon.
  { apply andb_true_iff in Hcon as [Hd%bool_decide_eq_true Hcon]. apply keeps_ret; auto. }
  eapply keeps_bind; [apply flush_loop_ok; try done|].
  - intros ->. cbn in Hcon. done.
  - unfold queued. pose proof (qi_size _ (dv_queue _ (ri_dir _ _ Hi (other destination)))). lia.
  - intros early w1 I1 He. destruct early as [result|].
    + apply keeps_ret; [done|]. right; left. by apply (proj1 He).
    + pose proof (check_lifecycle_faults_ok now w1 I1) as Hc. eapply runs_mono; [exact Hc|].
      intros result w2 (I2 & E2 & -> & Hh & Hm). split_and!; [done|done|]. right; right.
      assert (E2' := E2). destruct E2' as (ops & _ & [Hst _ _]). unfold relay_static in Hst.
      injection Hst as _ _ _ Hr Hha _. split.
      * unfold reset_due, total_written. by rewrite Hm, Hr.
      * unfold half_close_due. rewrite Hh, Hm, Hha. unfold half_close_due.
        destruct (0 <? half_close_after_bytes_ (w_relay w1)); [|done].
        destruct (half_close_injected_ (w_relay w1)); [done|].
        destruct (client_write_open_ (w_relay w2)) eqn:Ho2; cbn; [|by rewrite andb_false_r].
        destruct (client_write_open_ (w_relay w1)) eqn:Ho1; cbn.
        -- by destruct (_ <=? _).
        -- pose proof (write_closed_stable _ _ _ Client I1 I2 E2 Ho1). cbn in *. congruence.
Qed.

(** *** Wake-ups and interest *)

Lemma mark_upstream_connected_ok now w :
  winv w → keeps now mark_upstream_connected w (λ _ w', upstream_connecting_ (w_relay w') = false).
Proof.
  intros Hi. unfold mark_upstream_connected, keeps. apply runs_modify_bind.
  unfold refresh_state, modify_relay, runs, modify. cbn. split_and!; [|by apply evolves_same|done].
  apply (inv_connected _ _ Hi).
Qed.

(** The destination could take bytes and some are queued for it. *)
Definition waiting (destination : Side) (r : Relay) : bool :=
  write_open destination r && negb (bool_decide (destination = Upstream) && upstream_connecting_ r)
  && negb (empty (queue (direction_from (other destination) r))).

(** What the fault channel would let through now. *)
Definition sendable_now (destination : Side) (now : Z) (r : Relay) : Z :=
  let d := direction_from (other destination) r in
  (fault_sendable d (size_ (queue d)) now).1.

Lemma next_wake_ok destination now w :
  winv w →
  keeps now (next_wake destination now) w (λ wake _,
    if waiting destination (w_relay w) then
      match wake with
      | None => 0 < sendable_now destination now (w_relay w)
      | Some t => sendable_now destination now (w_relay w) = 0 ∧ now < t
      end
    else wake = None).
Proof.
  intros Hi. unfold next_wake, waiting, sendable_now. apply runs_gets_bind.
  set (d := direction_from (other destination) (w_relay w)).
  destruct (write_open destination (w_relay w)); cbn [negb orb andb]; [|by apply keeps_ret].
  destruct (bool_decide (destination = Upstream) && upstream_connecting_ (w_relay w));
    cbn [negb orb andb]; [by apply keeps_ret|].
  destruct (empty (queue d)) eqn:He; cbn [negb orb andb]; [by apply keeps_ret|].
  pose proof (ri_dir _ _ Hi (other destination)) as Id. fold d in Id.
  unfold empty in He. apply Z.eqb_neq in He. pose proof (qi_size _ (dv_queue _ Id)) as Hsz.
  destruct (bool_decide_reflect (fault d = None)) as [Hf|Hf].
  { apply keeps_ret; [done|]. unfold fault_sendable. rewrite Hf. cbn. lia. }
  pose proof (fault_sendable_bounds d (size_ (queue d)) now Id ltac:(lia)) as (Hpos & _ & _).
  pose proof (fault_sendable_blocked d now Id ltac:(lia)) as Hblocked.
  pose proof (fault_sendable_refills d (size_ (queue d)) now) as Hrd.
  destruct (fault_sendable d (size_ (queue d)) now) as [sendable d1] eqn:Hfs. cbn in *. subst d1.
  eapply keeps_bind with (P := λ _ w1, direction_from (other destination) (w_relay w1) = refill_direction d now).
  { apply keeps_refill; [done|done|]. cbn. by rewrite direction_from_set, decide_True. }
  intros [] w1 I1 Hd1. destruct (Z.ltb_spec 0 sendable) as [Hs|Hs]; [apply keeps_ret; [done|lia]|].
  specialize (Hblocked ltac:(lia)). clear Hfs. rewrite queue_refill.
  rewrite gate_queue in Hblocked by done. pose proof (delay_wake d) as Hdw.
  assert (sendable = 0) as -> by lia.
  destruct d as [q t [[dl bk rg la ji sg bg]|]] eqn:Ed; [|done].
  pose proof (dv_bucket _ Id) as Hweak.
  unfold refill_direction, dir_delay, dir_bucket in *. cbn in *.
  set (rel := match dl with Some line => releasable line now | None => size_ q end) in *.
  (* the delay line's time, when it holds everything back *)
  assert (Hdelay : rel ≤ 0 → ∃ t, (match dl with
      | Some line => if rel =? 0 then next_eligible line now else None
      | None => None end) = Some t ∧ now < t).
  { intros Hr. destruct Hblocked as [(l & -> & Hl & _)|[? _]]; [|lia].
    destruct (Hdw l now Id ltac:(lia) eq_refl Hl) as (tw & Hw & Hlt). exists tw.
    unfold rel. by rewrite Hl. }
  destruct bk as [b|]; cbn; fold rel.
  - destruct (Z.ltb_spec 0 rel) as [Hr|Hr].
    + destruct (eligible_at (refill b now) _ now) as [at_ b'] eqn:Ea. eapply keeps_bind with (P := λ _ _, True).
      { apply keeps_refill; [done| |done]. rewrite Hd1. unfold refill_direction. cbn.
        revert Ea. unfold eligible_at. destruct (_ <=? _); by intros [= _ <-]. }
      intros _ w2 I2 _. apply keeps_ret; [done|].
      destruct Hblocked as [(l & _ & _ & ?)|[_ (b0 & [= <-] & Ht)]]; [lia|].
      pose proof (bucket_wake b now _ (Hweak b eq_refl) Ht) as Hat. rewrite Ea in Hat. cbn in Hat.
      destruct dl as [l|]; [|done]. by destruct (Z.eqb_spec rel 0); [lia|].
    + destruct (Hdelay Hr) as (tw & -> & Hlt). by apply keeps_ret.
  - destruct Hblocked as [(l & -> & Hl & _)|[_ (b0 & ? & _)]]; [|done].
    destruct Hdelay as (tw & -> & Hlt); [unfold rel; lia|]. by split_and!.
Qed.

Lemma desired_interest_ok side now w :
  winv w →
  keeps now (desired_interest side now) w (λ interest _,
    if bool_decide (side = Upstream) && upstream_connecting_ (w_relay w)
    then interest = mkInterestSet false true
    else interest = mkInterestSet (wants_read side (w_relay w))
           (waiting side (w_relay w) && (0 <? sendable_now side now (w_relay w)))).
Proof.
  intros Hi. unfold desired_interest, waiting, sendable_now. apply runs_gets_bind.
  destruct (bool_decide (side = Upstream) && upstream_connecting_ (w_relay w)); [by apply keeps_ret|].
  cbn [negb]. rewrite andb_true_r.
  destruct (write_open side (w_relay w) && negb _); [|by apply keeps_ret].
  set (d := direction_from (other side) (w_relay w)).
  pose proof (fault_sendable_refills d (size_ (queue d)) now) as Hrd.
  destruct (fault_sendable d (size_ (queue d)) now) as [sendable d1]. cbn in Hrd |- *. subst d1.
  eapply keeps_bind; [by apply keeps_refill with (Q := λ _ _, True)|].
  intros _ w1 I1 _. by apply keeps_ret.
Qed.
End specs.
