(* ===== verification/RelayQueries.v ===== *)
(** * The relay's queries

    [desired_interest] and [next_wake] answer questions about a relay at a time
    [now]; all they change is that token buckets are refilled up to [now]. The
    answers do not change when such a refill has already happened, so the event
    loop may ask them in any order. *)

From Stdlib Require Import ZArith Lia Init.Byte.
From stdpp Require Import base numbers list option strings pretty.
From S2P Require Import Prelude ByteQueue Backpressure DelayLine TokenBucket FaultRng.
From S2P Require Import FaultPlan ConnectionState SocketIo Relay RelayDirection RelayFacts.

Local Open Scope Z_scope.

(** [r'] is [r] with the buckets of some directions refilled. *)
Record refilled (now : Z) (r r' : Relay) : Prop := mkRefilled {
  rf_direction s : direction_from s r' = direction_from s r
                   ∨ direction_from s r' = refill_direction (direction_from s r) now;
  rf_read s : read_open s r' = read_open s r;
  rf_write s : write_open s r' = write_open s r;
  rf_connecting : upstream_connecting_ r' = upstream_connecting_ r;
  rf_activity : last_activity_ r' = last_activity_ r;
  rf_static : relay_static r' = relay_static r;
}.

Lemma refill_direction_idemp d now :
  refill_direction (refill_direction d now) now = refill_direction d now.
Proof.
  unfold refill_direction. destruct d as [q t [[dl [b|] rg la ji sg bg]|]]; cbn; [|done..].
  by rewrite refill_idemp.
Qed.

#[global] Instance refilled_preorder now : PreOrder (refilled now).
Proof.
  split.
  - intros r. split; auto.
  - intros r1 r2 r3 [D1 R1 W1 C1 A1 S1] [D2 R2 W2 C2 A2 S2]. split; [|congruence..]. intros s.
    destruct (D1 s) as [E1|E1], (D2 s) as [E2|E2]; rewrite E2, E1, ?refill_direction_idemp; auto.
Qed.

Lemma refilled_refill now s r :
  refilled now r (set_direction s (refill_direction (direction_from s r) now) r).
Proof. split; try (intros s'; by destruct s, s'); try by destruct s. intros s'. destruct s, s'; auto. Qed.

Lemma refilled_direction now s d r :
  (d = direction_from s r ∨ d = refill_direction (direction_from s r) now) →
  refilled now r (set_direction s d r).
Proof. intros [->| ->]; [by rewrite set_direction_same|apply refilled_refill]. Qed.

Lemma fault_sendable_refill d limit now :
  (fault_sendable (refill_direction d now) limit now).1 = (fault_sendable d limit now).1.
Proof.
  rewrite !fault_sendable_eq, dir_bucket_refill. unfold gate. rewrite dir_delay_refill.
  destruct (dir_bucket d) as [b|]; [|done]. cbn. by rewrite refill_idemp.
Qed.

Section views.
#[local] Set Default Proof Using "Type*".
Context {now : Z} {r r' : Relay}.
Hypothesis Hr : refilled now r r'.

Lemma refilled_queue s : queue (direction_from s r') = queue (direction_from s r).
Proof. destruct (rf_direction _ _ _ Hr s) as [-> | ->]; [done|apply queue_refill]. Qed.

Lemma refilled_wants_read s : wants_read s r' = wants_read s r.
Proof.
  unfold wants_read. rewrite (rf_read _ _ _ Hr s).
  by destruct (rf_direction _ _ _ Hr s) as [-> | ->]; rewrite ?backpressure_refill.
Qed.

Lemma refilled_waiting s : waiting s r' = waiting s r.
Proof. unfold waiting. by rewrite (rf_write _ _ _ Hr s), (rf_connecting _ _ _ Hr), refilled_queue. Qed.

Lemma refilled_sendable s : sendable_now s now r' = sendable_now s now r.
Proof.
  unfold sendable_now. rewrite refilled_queue.
  destruct (rf_direction _ _ _ Hr (other s)) as [-> | ->]; [done|apply fault_sendable_refill].
Qed.

Lemma refilled_drained : fully_drained r' = fully_drained r.
Proof.
  unfold fully_drained. pose proof (refilled_queue Client) as Hc. pose proof (refilled_queue Upstream) as Hu.
  pose proof (rf_read _ _ _ Hr Client) as Hcr. pose proof (rf_read _ _ _ Hr Upstream) as Hur.
  pose proof (rf_write _ _ _ Hr Client) as Hcw. pose proof (rf_write _ _ _ Hr Upstream) as Huw.
  cbn in *. by rewrite Hc, Hu, Hcr, Hur, Hcw, Huw.
Qed.
End views.

Section queries.
Context {W : Type}.
Implicit Types w : World W.

(** A query leaves the sockets, the observer and the traffic alone. *)
Definition queried (now : Z) (w w' : World W) : Prop :=
  refilled now (w_relay w) (w_relay w')
  ∧ w_io w' = w_io w ∧ w_events w' = w_events w ∧ w_wire w' = w_wire w.

Lemma queried_refl now w : queried now w w.
Proof. by split_and!. Qed.

Lemma desired_interest_queries side now w interest w' :
  desired_interest side now w = Ok (interest, w') → queried now w w'.
Proof.
  unfold desired_interest, get_relay, gets, mbind, M_bind. cbn.
  destruct (bool_decide (side = Upstream) && upstream_connecting_ (w_relay w));
    [intros [= _ <-]; apply queried_refl|].
  destruct (write_open side (w_relay w) && negb _); [|intros [= _ <-]; apply queried_refl].
  set (d := direction_from (other side) (w_relay w)).
  pose proof (fault_sendable_refills d (size_ (queue d)) now) as Hrd.
  destruct (fault_sendable d (size_ (queue d)) now) as [n d1]. cbn in Hrd. subst d1.
  intros [= _ <-]. split_and!; cbn; try done. apply refilled_refill.
Qed.

Lemma next_wake_queries destination now w wake w' :
  next_wake destination now w = Ok (wake, w') → queried now w w'.
Proof.
  unfold next_wake, get_relay, gets, mbind, M_bind. cbn.
  set (d := direction_from (other destination) (w_relay w)).
  destruct (negb (write_open destination (w_relay w)) || _ || _ || _);
    [intros [= _ <-]; apply queried_refl|].
  pose proof (fault_sendable_refills d (size_ (queue d)) now) as Hrd.
  destruct (fault_sendable d (size_ (queue d)) now) as [n d1]. cbn in Hrd. subst d1.
  assert (H1 : queried now w (set_relay (set_direction (other destination) (refill_direction d now) (w_relay w)) w))
    by (split_and!; try done; apply refilled_refill).
  destruct (0 <? n); [intros [= _ <-]; exact H1|].
  destruct (fault (refill_direction d now)) as [channel|] eqn:Hf; [|intros [= _ <-]; exact H1].
  destruct (bucket channel) as [b|] eqn:Hb; [|intros [= _ <-]; exact H1].
  destruct (0 <? _); [|intros [= _ <-]; exact H1].
  destruct (eligible_at b _ now) as [at_ b'] eqn:Ea. intros [= _ <-].
  assert (Hb' : b' = refill b now) by (revert Ea; unfold eligible_at; destruct (_ <=? _); by intros [= _ <-]).
  assert (Hsame : refill b now = b).
  { revert Hf Hb. unfold refill_direction. destruct d as [q t [[dl [b0|] rg la ji sg bg]|]]; cbn; try done.
    - intros [= <-] [= <-]. cbn. apply refill_idemp.
    - intros [= <-]. done. }
  split_and!; cbn; try done. rewrite direction_from_set, decide_True, set_direction_twice by done.
  apply refilled_direction. right. fold d. rewrite Hb', Hsame.
  unfold set_fault, set_bucket. destruct (refill_direction d now) as [q t f]. cbn in *. subst f.
  by destruct channel; cbn in *; subst.
Qed.
End queries.
