(* ===== verification/RelayRun.v ===== *)
(** * Executions of the relay and what they guarantee

    The caller of a relay may invoke its public methods in any order and at any
    times. [relay_run] performs such a sequence and returns the socket traffic
    with the time of each transfer. The theorems hold for every sequence, for
    every valid configuration and fault plan, and for every behaviour of the
    sockets that [SocketIoLaws] allows. *)

From Stdlib Require Import ZArith Lia Init.Byte.
From stdpp Require Import base numbers list option strings pretty.
From S2P Require Import Prelude ByteQueue Backpressure DelayLine TokenBucket FaultRng.
From S2P Require Import FaultPlan ConnectionState SocketIo Relay RelayDirection RelayFacts.

Local Open Scope Z_scope.

(** ** Construction *)

Record valid_config (c : RelayConfig) : Prop := mkValidConfig {
  vc_water : 0 ≤ low_water_bytes c < high_water_bytes c;
  vc_high : high_water_bytes c ≤ buffer_bytes_per_direction c;
  vc_word : buffer_bytes_per_direction c < two63;
}.

(** The plan gives the direction whose source is [s] a delay line, a bucket. *)
Definition applies_to (p : FaultPlan) (s : Side) : bool :=
  match s with
  | Client => applies_to_client_to_upstream p
  | Upstream => applies_to_upstream_to_client p
  end.
Definition plan_delayed (p : FaultPlan) (s : Side) : bool :=
  ((0 <? latency p) || (0 <? jitter p)) && applies_to p s.
Definition plan_min_delay (p : FaultPlan) : Z :=
  milliseconds_to_nanoseconds (Z.max 0 (latency p - jitter p)).
Definition plan_rated (p : FaultPlan) (s : Side) : bool :=
  (0 <? rate_bytes_per_second p) && applies_to p s.
Definition plan_bucket (p : FaultPlan) (now : Z) : TokenBucket :=
  mkTokenBucket (rate_bytes_per_second p) (effective_burst_bytes p) (effective_burst_bytes p) now 0.

Record fresh_direction (c : RelayConfig) (p : FaultPlan) (s : Side) (now : Z) (d : Direction)
    : Prop := mkFresh {
  fd_inv : dir_inv d;
  fd_contents : contents (queue d) = [];
  fd_capacity : capacity (queue d) = buffer_bytes_per_direction c;
  fd_high : high_water_bytes_ (backpressure d) = high_water_bytes c;
  fd_delayed : is_delayed d = plan_delayed p s;
  fd_min_delay : plan_delayed p s = true → min_delay d = plan_min_delay p;
  fd_bucket : dir_bucket d = if plan_rated p s then Some (plan_bucket p now) else None;
}.

Lemma make_Direction_ok c :
  valid_config c →
  succeeds (make_Direction (buffer_bytes_per_direction c) (low_water_bytes c) (high_water_bytes c)) (λ d,
    dir_inv d ∧ contents (queue d) = [] ∧ capacity (queue d) = buffer_bytes_per_direction c
    ∧ high_water_bytes_ (backpressure d) = high_water_bytes c ∧ fault d = None).
Proof.
  intros []. unfold make_Direction.
  eapply succeeds_bind; [apply make_ByteQueue_ok; lia|]. intros q (Iq & Hc & Hcap & Hs & Hw).
  eapply succeeds_bind; [by apply make_tracker_ok with (cap := buffer_bytes_per_direction c)|].
  intros t (It & Hl & Hh & _). cbn. split_and!; try done. split; cbn; try done.
  - by rewrite Hcap, Hs.
  - rewrite Hw, Hh. lia.
Qed.

Lemma effective_burst_word p :
  plan_typed p → 0 < rate_bytes_per_second p → 0 < effective_burst_bytes p < two64.
Proof.
  intros [_ _ _ Hr Hb _ _] Hpos. unfold effective_burst_bytes, is_u64 in *.
  destruct (Z.eqb_spec (burst_bytes p) 0); cbn; lia.
Qed.

Lemma make_channel_ok p seed index now d c s :
  plan_typed p → valid_plan p →
  ((0 <? latency p) || (0 <? jitter p) || (0 <? rate_bytes_per_second p)) = true →
  applies_to p s = true →
  dir_inv d → contents (queue d) = [] → capacity (queue d) = buffer_bytes_per_direction c →
  high_water_bytes_ (backpressure d) = high_water_bytes c → fault d = None →
  succeeds (make_channel p seed index now d) (fresh_direction c p s now).
Proof.
  intros Ht Hv Hpaced Ha Id Hc Hcap Hh Hf. unfold make_channel.
  assert (Hsz : size_ (queue d) = 0).
  { pose proof (length_contents _ (dv_queue _ Id)) as HL. rewrite Hc in HL. done. }
  apply succeeds_bind with (P := λ bk, bk = if 0 <? rate_bytes_per_second p
                                         then Some (plan_bucket p now) else None).
  { destruct (Z.ltb_spec 0 (rate_bytes_per_second p)) as [Hr|]; [|done].
    pose proof (effective_burst_word p Ht Hr). unfold make_TokenBucket, throw_if.
    destruct (Z.eqb_spec (rate_bytes_per_second p) 0), (Z.eqb_spec (effective_burst_bytes p) 0); cbn; done || lia. }
  intros bk ->. destruct Hv as [_ (Hl0 & Hj0 & Hsum & _) _ Hrate].
  set (d' := set_fault _ d).
  assert (Hdl : dir_delay d' = if (0 <? latency p) || (0 <? jitter p) then Some empty_DelayLine else None)
    by done.
  assert (Hbk : dir_bucket d' = if 0 <? rate_bytes_per_second p then Some (plan_bucket p now) else None)
    by done.
  assert (Hmd : min_delay d' = Z.max 0 (milliseconds_to_nanoseconds (latency p)
                                        - milliseconds_to_nanoseconds (jitter p))) by done.
  split; rewrite ?Hbk; try done.
  - destruct Id. split; try done.
    + rewrite Hdl. intros l Hl. case_match; [|done]. simplify_eq.
      split; [apply empty_DelayLine_inv|done].
    + rewrite Hbk. intros b. destruct (Z.ltb_spec 0 (rate_bytes_per_second p)) as [Hr|]; [|done].
      intros [= <-]. pose proof (effective_burst_word p Ht Hr). unfold bucket_weak. cbn. lia.
    + intros ch [= <-]. cbn. unfold milliseconds_to_nanoseconds. change (two63 / 2) with 4611686018427387904. lia.
  - unfold is_delayed, plan_delayed. rewrite Hdl, Ha, andb_true_r.
    destruct ((0 <? latency p) || (0 <? jitter p)); [by apply bool_decide_eq_true|].
    apply bool_decide_eq_false. by intros [? ?].
  - intros _. rewrite Hmd. unfold plan_min_delay, milliseconds_to_nanoseconds. lia.
  - unfold plan_rated. by rewrite Ha, andb_true_r.
Qed.

(** A relay as constructed from a valid configuration and plan. *)
Record fresh_relay (c : RelayConfig) (p : FaultPlan) (now : Z) (r : Relay) : Prop := mkFreshRelay {
  fr_inv : relay_inv r [];
  fr_direction s : fresh_direction c p s now (direction_from s r);
  fr_reset : reset_after_bytes_ r = reset_after_bytes p;
  fr_half_close : half_close_after_bytes_ r = half_close_after_bytes p;
  fr_not_injected : half_close_injected_ r = false;
}.

Lemma any_enabled_spec p :
  any_enabled p = false →
  (0 <? latency p) = false ∧ (0 <? jitter p) = false ∧ (0 <? rate_bytes_per_second p) = false
  ∧ (0 <? reset_after_bytes p) = false ∧ (0 <? half_close_after_bytes p) = false.
Proof.
  unfold any_enabled. intros H. do 4 apply orb_false_iff in H as [H ?]. done.
Qed.

(** The record the constructor builds from two fresh directions. *)
Lemma fresh_relay_intro c p now r :
  (∀ s, fresh_direction c p s now (direction_from s r)) →
  client_read_open_ r = true → client_write_open_ r = true → upstream_read_open_ r = true →
  upstream_write_open_ r = true → half_close_injected_ r = false →
  relay_state_ r = (if upstream_connecting_ r then ConnectingUpstream else Active) →
  metrics_ r = mkRelayMetrics 0 0 0 0 0 0 0 0 →
  reset_after_bytes_ r = reset_after_bytes p → half_close_after_bytes_ r = half_close_after_bytes p →
  fresh_relay c p now r.
Proof.
  intros Hd Hcr Hcw Hur Huw Hi Hs Hm Hra Hha. split; try done.
  split; try congruence.
  - intros s. apply Hd.
  - intros s. split; [by intros ?%not_elem_of_nil|]. destruct s; cbn; congruence.
  - constructor.
  - done.
  - rewrite Hs, Hcr, Hur. by destruct (upstream_connecting_ r).
  - rewrite Hm. by split.
Qed.

Lemma fresh_unpaced c p now s d :
  dir_inv d ∧ contents (queue d) = [] ∧ capacity (queue d) = buffer_bytes_per_direction c
    ∧ high_water_bytes_ (backpressure d) = high_water_bytes c ∧ fault d = None →
  plan_delayed p s = false → plan_rated p s = false → fresh_direction c p s now d.
Proof.
  intros (I & Hc & Hcap & Hh & Hf) Hd Hr.
  split; try done; unfold is_delayed, dir_delay, dir_bucket; rewrite ?Hf, ?Hd, ?Hr; done.
Qed.

Lemma make_Relay_ok c p id client_fd upstream_fd connecting now :
  valid_config c → plan_typed p → valid_plan p →
  succeeds (make_Relay c p id client_fd upstream_fd connecting now) (λ r,
    fresh_relay c p now r ∧ upstream_connecting_ r = connecting).
Proof.
  intros Hc Ht Hv. unfold make_Relay.
  eapply succeeds_bind; [by apply make_Direction_ok|]. intros c2u Hc2u.
  eapply succeeds_bind; [by apply make_Direction_ok|]. intros u2c Hu2c.
  destruct (any_enabled p) eqn:Hen; cbn [negb].
  2:{ apply any_enabled_spec in Hen as (Hl & Hj & Hr & Hra & Hha). cbn. split; [|done].
      destruct Ht as [_ _ _ _ _ [? _] [? _]].
      apply fresh_relay_intro; try done; cbn; [|lia..].
      intros [|]; apply fresh_unpaced; unfold plan_delayed, plan_rated; rewrite ?Hl, ?Hj, ?Hr; done. }
  cbn zeta. set (paced := (0 <? latency p) || (0 <? jitter p) || (0 <? rate_bytes_per_second p)).
  assert (Hchan : ∀ s seed index d,
    dir_inv d ∧ contents (queue d) = [] ∧ capacity (queue d) = buffer_bytes_per_direction c
      ∧ high_water_bytes_ (backpressure d) = high_water_bytes c ∧ fault d = None →
    succeeds (if paced && applies_to p s then make_channel p seed index now d else Ok d)
      (fresh_direction c p s now)).
  { intros s seed index d (I & Hcon & Hcap & Hh & Hf). destruct (paced && applies_to p s) eqn:Hp.
    - apply andb_true_iff in Hp as [Hp Ha]. by apply make_channel_ok.
    - apply fresh_unpaced; [done| |]; unfold plan_delayed, plan_rated, paced in *;
        destruct (0 <? latency p), (0 <? jitter p), (0 <? rate_bytes_per_second p), (applies_to p s); done. }
  eapply succeeds_bind; [apply (Hchan Client), Hc2u|]. intros c2u' Hc2u'.
  eapply succeeds_bind; [apply (Hchan Upstream), Hu2c|]. intros u2c' Hu2c'.
  cbn. split; [|done]. apply fresh_relay_intro; try done. by intros [|].
Qed.

(** ** Executions *)

Inductive relay_op :=
  | OpConnected
  | OpReadable (source : Side) (hangup_hint : bool)
  | OpFlush (destination : Side)
  | OpPropagate
  | OpNextWake (destination : Side)
  | OpInterest (side : Side).

Definition timed_in (s : Side) (traffic : list (Z * WireOp)) : list (byte * Z) :=
  traffic ≫= λ '(t, op),
    match op with WireIn s' bs => if decide (s = s') then (λ b, (b, t)) <$> bs else [] | _ => [] end.
Definition timed_out (s : Side) (traffic : list (Z * WireOp)) : list (byte * Z) :=
  traffic ≫= λ '(t, op),
    match op with WireOut s' bs => if decide (s = s') then (λ b, (b, t)) <$> bs else [] | _ => [] end.

Lemma timed_in_app s a b : timed_in s (a ++ b) = timed_in s a ++ timed_in s b.
Proof. apply bind_app. Qed.
Lemma timed_out_app s a b : timed_out s (a ++ b) = timed_out s a ++ timed_out s b.
Proof. apply bind_app. Qed.

Lemma timed_in_now s now ops :
  timed_in s (map (pair now) ops) = (λ b, (b, now)) <$> wire_in s ops.
Proof.
  unfold timed_in, wire_in. induction ops as [|op ops IH]; [done|]. cbn. rewrite fmap_app, IH.
  f_equal. destruct op; try done. by case_decide.
Qed.

Lemma timed_out_now s now ops :
  timed_out s (map (pair now) ops) = (λ b, (b, now)) <$> wire_out s ops.
Proof.
  unfold timed_out, wire_out. induction ops as [|op ops IH]; [done|]. cbn. rewrite fmap_app, IH.
  f_equal. destruct op; try done. by case_decide.
Qed.

Lemma timed_in_bytes s traffic : (timed_in s traffic).*1 = wire_in s (traffic.*2).
Proof.
  unfold timed_in, wire_in. induction traffic as [|[t op] traffic IH]; [done|]. cbn.
  rewrite fmap_app, IH. f_equal. destruct op; try done. case_decide; [|done].
  rewrite <-list_fmap_compose. apply list_fmap_id.
Qed.

Lemma timed_out_bytes s traffic : (timed_out s traffic).*1 = wire_out s (traffic.*2).
Proof.
  unfold timed_out, wire_out. induction traffic as [|[t op] traffic IH]; [done|]. cbn.
  rewrite fmap_app, IH. f_equal. destruct op; try done. case_decide; [|done].
  rewrite <-list_fmap_compose. apply list_fmap_id.
Qed.

Lemma timed_reads_now now es :
  Forall (λ e, event_time e = now) es → timed_reads es = (λ b, (b, now)) <$> dir_reads es.
Proof.
  unfold timed_reads, dir_reads. induction 1 as [|e es <- _ IH]; [done|]. cbn.
  rewrite fmap_app, <-IH. f_equal. by destruct e.
Qed.

Lemma timed_writes_now now es :
  Forall (λ e, event_time e = now) es → timed_writes es = (λ b, (b, now)) <$> dir_writes es.
Proof.
  unfold timed_writes, dir_writes. induction 1 as [|e es <- _ IH]; [done|]. cbn.
  rewrite fmap_app, <-IH. f_equal. by destruct e.
Qed.

Lemma timed_reads_app a b : timed_reads (a ++ b) = timed_reads a ++ timed_reads b.
Proof. apply bind_app. Qed.
Lemma timed_writes_app a b : timed_writes (a ++ b) = timed_writes a ++ timed_writes b.
Proof. apply bind_app. Qed.

Section run.
#[local] Set Default Proof Using "Type*".
Context {W : Type} `{SocketIoLaws W} `{Libc}.
Implicit Types w : World W.

Definition run_op (op : relay_op) (now : Z) : M (World W) unit :=
  match op with
  | OpConnected => mark_upstream_connected
  | OpReadable source hangup_hint => _ ← handle_readable source hangup_hint now; mret tt
  | OpFlush destination => _ ← flush destination now; mret tt
  | OpPropagate => propagate_half_closes
  | OpNextWake destination => _ ← next_wake destination now; mret tt
  | OpInterest side => _ ← desired_interest side now; mret tt
  end.

(** The traffic is returned with the time of the call that performed it. *)
Fixpoint relay_run (ops : list (Z * relay_op)) (w : World W)
    : outcome (list (Z * WireOp) * World W) :=
  match ops with
  | [] => Ok ([], w)
  | (now, op) :: ops =>
      '(_, w1) ← run_op op now w;
      '(traffic, w2) ← relay_run ops w1;
      Ok (map (pair now) (drop (length (w_wire w)) (w_wire w1)) ++ traffic, w2)
  end.

Lemma run_op_ok op now w : winv w → keeps now (run_op op now) w (λ _ _, True).
Proof.
  intros Hi. destruct op as [|source hint|destination| |destination|side]; cbn [run_op].
  - eapply keeps_mono; [by apply mark_upstream_connected_ok|done].
  - eapply keeps_bind; [by apply handle_readable_ok|]. intros. by apply keeps_ret.
  - eapply keeps_bind; [by apply flush_ok|]. intros. by apply keeps_ret.
  - by apply propagate_half_closes_ok.
  - eapply keeps_bind; [by apply next_wake_ok|]. intros. by apply keeps_ret.
  - eapply keeps_bind; [by apply desired_interest_ok|]. intros. by apply keeps_ret.
Qed.


(** What direction [s] did in an execution with the given times and traffic. *)
Definition dir_ran (s : Side) (times : list Z) (traffic : list (Z * WireOp)) (d d' : Direction) : Prop :=
  ∃ es, lsteps dir_step d es d' ∧ timed_in s traffic = timed_reads es
    ∧ timed_out (other s) traffic = timed_writes es ∧ Forall (λ e, event_time e ∈ times) es.

Lemma relay_run_ok ops w :
  winv w →
  succeeds (relay_run ops w) (λ '(traffic, w'),
    winv w' ∧ w_wire w' = w_wire w ++ traffic.*2
    ∧ relay_static (w_relay w') = relay_static (w_relay w)
    ∧ unnoticed (traffic.*2) (w_relay w) (w_relay w')
    ∧ ∀ s, dir_ran s (ops.*1) traffic (direction_from s (w_relay w)) (direction_from s (w_relay w'))).
Proof.
  revert w. induction ops as [|[now op] ops IH]; intros w Hi; cbn [relay_run].
  { cbn. split_and!; [done|by rewrite app_nil_r|done|by intros ?|]. intros s. exists []. split_and!; constructor. }
  eapply succeeds_bind; [by apply run_op_ok|]. intros [[] w1] (I1 & (delta & Hw1 & [Hst Hd Hun]) & _).
  cbn in *. eapply succeeds_bind; [by apply IH|]. intros [traffic w2] (I2 & Hw2 & Hst2 & Hun2 & Hd2). cbn.
  rewrite Hw1, drop_app_length.
  assert (Hsnd : (map (pair now) delta).*2 = delta).
  { change (map (pair now) delta) with (pair now <$> delta). rewrite <-list_fmap_compose.
    apply list_fmap_id. }
  split_and!; [done| |congruence| |].
  - by rewrite Hw2, Hw1, fmap_app, Hsnd, <-app_assoc.
  - rewrite fmap_app, Hsnd. apply unnoticed_trans with (w_relay w1); [done..|].
    intros s. by apply dir_evolves_paused with now.
  - intros s. destruct (Hd s) as (es & Hs & Ht & [Hin Hout]%same_bytes).
    destruct (Hd2 s) as (es2 & Hs2 & Hin2 & Hout2 & Ht2). exists (es ++ es2).
    rewrite timed_in_app, timed_out_app, timed_in_now, timed_out_now, Hin, Hout, Hin2, Hout2.
    rewrite timed_reads_app, timed_writes_app, (timed_reads_now now es), (timed_writes_now now es) by done.
    split_and!; [by eapply lsteps_app|done|done|]. apply Forall_app. split.
    + eapply Forall_impl; [exact Ht|]. intros e ->. left.
    + eapply Forall_impl; [exact Ht2|]. intros e He. by right.
Qed.
End run.
