(* ===== verification/RelaySpec.v ===== *)
(** * What the relay guarantees

    The relay-level theorems: total correctness, stream integrity, graceful
    close, delay, rate, absence of stalls, and the lifecycle faults; each for
    every sequence of calls on a relay built from a valid configuration. *)

From Stdlib Require Import ZArith Lia Init.Byte.
From stdpp Require Import base numbers list option strings pretty.
From S2P Require Import Prelude ByteQueue Backpressure DelayLine TokenBucket FaultRng.
From S2P Require Import FaultPlan ConnectionState SocketIo Relay RelayDirection RelayFacts.
From S2P Require Import RelayRun.

Local Open Scope Z_scope.

(** [r] is a relay constructed at [t0] from a valid configuration and plan. *)
Definition launched (c : RelayConfig) (p : FaultPlan) (t0 : Z) (r : Relay) : Prop :=
  valid_config c ∧ plan_typed p ∧ valid_plan p
  ∧ ∃ id client_fd upstream_fd connecting,
      make_Relay c p id client_fd upstream_fd connecting t0 = Ok r.

Definition start {W} (r : Relay) (io : W) : World W := mkWorld r io [] [].

Lemma launched_fresh c p t0 r : launched c p t0 r → fresh_relay c p t0 r.
Proof.
  intros (Hc & Ht & Hv & id & cf & uf & con & Hr).
  pose proof (make_Relay_ok c p id cf uf con t0 Hc Ht Hv) as Hok. rewrite Hr in Hok. apply Hok.
Qed.

(** A half-close may be injected towards the client only when the plan asks. *)
Definition lossless (p : FaultPlan) (destination : Side) : Prop :=
  destination = Upstream ∨ half_close_after_bytes p = 0.

Lemma wire_ok_after inj wire s pre post :
  wire_ok inj wire → wire = pre ++ WireShutdown s :: post →
  wire_out s post = [] ∧ (WireShutdown s ∉ post)
  ∧ ((other s = Client ∨ inj = false) → wire_in (other s) post = []).
Proof.
  intros Hok. revert pre post. induction Hok as [|wire s' bs _ IH Hno|wire s' bs _ IH Hno|wire s' _ IH Hno];
    intros pre post Heq; [by destruct pre|..];
    (destruct post as [|op post _] using rev_ind; [split_and!; [done|apply not_elem_of_nil|done]|]);
    rewrite app_comm_cons, app_assoc in Heq; apply app_inj_tail in Heq as [Hw <-];
    destruct (IH pre post Hw) as (H1 & H2 & H3);
    (assert (Hin : WireShutdown s ∈ wire) by (rewrite Hw; apply elem_of_app; right; left));
    rewrite wire_out_snoc, wire_in_snoc, H1, elem_of_app, list_elem_of_singleton;
    (split_and!; [|intros [?|?]; [done|congruence]|intros Hl; rewrite (H3 Hl)]); cbn; try done.
  - case_decide as Hs; [|done]. subst s'. destruct Hno; [destruct s; destruct Hl; cbn in *; auto|].
    by destruct s.
  - case_decide; [by subst|done].
Qed.

Section theorems.
#[local] Set Default Proof Using "Type*".
Context {W : Type} `{SocketIoLaws W} `{Libc}.
Implicit Types (w : World W) (io : W).

(** A state reached by [ops] from the construction, with the traffic so far. *)
Definition reached (r : Relay) (io : W) (ops : list (Z * relay_op))
    (traffic : list (Z * WireOp)) (w : World W) : Prop :=
  relay_run ops (start r io) = Ok (traffic, w).

Lemma launched_winv c p t0 r io : launched c p t0 r → winv (start r io).
Proof. intros Hl. apply (fr_inv _ _ _ _ (launched_fresh _ _ _ _ Hl)). Qed.

Lemma reached_ok c p t0 r io ops traffic w :
  launched c p t0 r → reached r io ops traffic w →
  relay_inv (w_relay w) (traffic.*2) ∧ w_wire w = traffic.*2
  ∧ relay_static (w_relay w) = relay_static r
  ∧ ∀ s, dir_ran s (ops.*1) traffic (direction_from s r) (direction_from s (w_relay w)).
Proof.
  intros Hl Hr. pose proof (relay_run_ok ops (start r io) (launched_winv _ _ _ _ io Hl)) as Hok.
  rewrite Hr in Hok. destruct Hok as (I & Hw & Hs & _ & Hd). cbn in Hw. unfold winv in I.
  rewrite Hw in *. done.
Qed.

Lemma reached_stream c p t0 r io ops traffic w s :
  launched c p t0 r → reached r io ops traffic w →
  wire_in s (traffic.*2)
    = wire_out (other s) (traffic.*2) ++ contents (queue (direction_from s (w_relay w))).
Proof.
  intros Hl Hr. destruct (reached_ok _ _ _ _ _ _ _ _ Hl Hr) as (_ & _ & _ & Hd).
  destruct (Hd s) as (es & Hs & Hin & Hout & _).
  destruct (fr_direction _ _ _ _ (launched_fresh _ _ _ _ Hl) s) as [Id Hc _ _ _ _ _].
  destruct (dir_steps_delivery _ _ _ Id Hc Hs) as [Hdel _].
  rewrite <-timed_in_bytes, <-timed_out_bytes, Hin, Hout, timed_reads_bytes, timed_writes_bytes.
  exact Hdel.
Qed.

Lemma reached_closed_empty c p t0 r io ops traffic w s :
  launched c p t0 r → reached r io ops traffic w → lossless p s →
  write_open s (w_relay w) = false →
  contents (queue (direction_from (other s) (w_relay w))) = [].
Proof.
  intros Hl Hr Hloss Hopen. destruct (reached_ok _ _ _ _ _ _ _ _ Hl Hr) as (I & _ & Hst & _).
  destruct s; [|by apply (ri_upstream _ _ I)].
  destruct (ri_client _ _ I Hopen) as [Hi|[_ Hc]]; [|done].
  apply (ri_injected _ _ I) in Hi. destruct Hloss as [?|Hp]; [done|].
  pose proof (fr_half_close _ _ _ _ (launched_fresh _ _ _ _ Hl)).
  unfold relay_static in Hst. injection Hst as _ _ _ _ Hha _. lia.
Qed.

(** The calls happened at clock times up to [now], on a plan whose burst does
    not overflow the bucket's products. *)
Definition timely (p : FaultPlan) (t0 : Z) (ops : list (Z * relay_op)) (now : Z) : Prop :=
  (0 < rate_bytes_per_second p → effective_burst_bytes p ≤ max_safe_burst)
  ∧ 0 ≤ t0 ≤ now ∧ Forall (λ o, clock_time o.1 ∧ o.1 ≤ now) ops.

Lemma dir_static_bucket d d' :
  dir_static d' = dir_static d →
  (λ b, (rate_ b, burst_ b)) <$> dir_bucket d' = (λ b, (rate_ b, burst_ b)) <$> dir_bucket d.
Proof. unfold dir_static. by injection 1. Qed.

Lemma reached_bucket c p t0 r io ops traffic w s now b :
  launched c p t0 r → reached r io ops traffic w → timely p t0 ops now →
  dir_bucket (direction_from s (w_relay w)) = Some b →
  bucket_inv b ∧ last_refill_ b ≤ now ∧ rate_ b = rate_bytes_per_second p
  ∧ burst_ b = effective_burst_bytes p.
Proof.
  intros Hl Hr (Hburst & Ht0 & Hops) Hb.
  destruct (reached_ok _ _ _ _ _ _ _ _ Hl Hr) as (_ & _ & _ & Hd).
  destruct (Hd s) as (es & Hs & _ & _ & Htimes). pose proof (launched_fresh _ _ _ _ Hl) as Hf.
  destruct (fr_direction _ _ _ _ Hf s) as [Id _ _ _ _ _ Hbk].
  destruct Hl as (_ & Ht & [_ _ _ Hrate] & _).
  destruct (dir_steps_ok _ _ _ Id Hs) as [_ Hst].
  assert (Hstb := dir_static_bucket _ _ Hst). rewrite Hb, Hbk in Hstb. unfold plan_rated in *.
  destruct (Z.ltb_spec 0 (rate_bytes_per_second p)) as [Hpos|]; [|done]. cbn [andb] in *.
  destruct (applies_to p s); [|done]. injection Hstb as Hr1 Hb1. cbn in Hr1, Hb1.
  pose proof (effective_burst_word p Ht Hpos). specialize (Hburst Hpos).
  assert (Ib0 : bucket_inv (plan_bucket p t0)) by (split; cbn; lia).
  assert (Hes : Forall (λ e, clock_time (event_time e) ∧ event_time e ≤ now) es).
  { eapply Forall_impl; [exact Htimes|]. intros e (o & -> & Ho)%list_elem_of_fmap.
    rewrite Forall_forall in Hops. by apply Hops. }
  destruct (dir_steps_level _ _ _ (plan_bucket p t0) Id Hs) as (b' & Hb' & Ib' & _ & Hlast);
    [eapply Forall_impl; [exact Hes|cbn; tauto]|done|done|].
  rewrite Hb in Hb'. injection Hb' as <-. split_and!; [done| |done|done].
  apply Hlast; [cbn; lia|]. eapply Forall_impl; [exact Hes|cbn; tauto].
Qed.


(** Stream integrity, both ways. At any moment the bytes received from a
    side are exactly the bytes sent to the other side followed by the bytes
    queued between them, in order, whatever faults are configured; and at most
    the high-water mark is queued. *)
Theorem relay_stream_integrity c p t0 r io ops traffic w s :
  launched c p t0 r → reached r io ops traffic w →
  wire_in s (traffic.*2)
    = wire_out (other s) (traffic.*2) ++ contents (queue (direction_from s (w_relay w)))
  ∧ Z.of_nat (length (contents (queue (direction_from s (w_relay w))))) ≤ high_water_bytes c.
Proof.
  intros Hl Hr. split; [by eapply reached_stream|].
  destruct (reached_ok _ _ _ _ _ _ _ _ Hl Hr) as (I & _ & _ & Hd).
  destruct (Hd s) as (es & Hs & _). pose proof (launched_fresh _ _ _ _ Hl) as Hf.
  destruct (fr_direction _ _ _ _ Hf s) as [Id _ _ Hhigh _ _ _].
  destruct (dir_steps_ok _ _ _ Id Hs) as [Id' Hst]. apply dir_static_high in Hst.
  rewrite <-Hhigh, <-Hst, length_contents by apply Id'.
  pose proof (dv_high_water _ Id'). pose proof (qi_high_water _ (dv_queue _ Id')). lia.
Qed.

(** C8: a graceful close loses nothing. When the relay reports that it is fully
    drained, everything received from the client has been sent upstream, and,
    unless the plan injects half-closes, conversely. *)
Theorem relay_drained_lossless c p t0 r io ops traffic w s :
  launched c p t0 r → reached r io ops traffic w → lossless p s →
  fully_drained (w_relay w) = true →
  wire_out s (traffic.*2) = wire_in (other s) (traffic.*2).
Proof.
  intros Hl Hr Hloss Hd. rewrite (reached_stream _ _ _ _ _ _ _ _ (other s) Hl Hr).
  assert (contents (queue (direction_from (other s) (w_relay w))) = []) as ->;
    [|destruct s; by rewrite app_nil_r].
  destruct (write_open s (w_relay w)) eqn:Ho; [|by eapply reached_closed_empty].
  destruct (reached_ok _ _ _ _ _ _ _ _ Hl Hr) as (I & _).
  apply empty_contents; [apply (ri_dir _ _ I (other s))|].
  unfold fully_drained in Hd. destruct s; cbn in *; rewrite Ho, ?orb_false_r in Hd;
    repeat (apply andb_true_iff in Hd as [Hd ?]); done.
Qed.


(** C12: latency and jitter. In a direction with configured delay every byte
    sent is the corresponding byte received, and leaves no earlier than the
    latency less the jitter after it was received; the stream is never
    reordered. *)
Theorem relay_delay c p t0 r io ops traffic w s :
  launched c p t0 r → reached r io ops traffic w → plan_delayed p s = true →
  let received := timed_in s traffic in
  let sent := timed_out (other s) traffic in
  Forall2 (λ i o, i.1 = o.1 ∧ i.2 + plan_min_delay p ≤ o.2) (take (length sent) received) sent.
Proof.
  intros Hl Hr Hdl. destruct (reached_ok _ _ _ _ _ _ _ _ Hl Hr) as (_ & _ & _ & Hd).
  destruct (Hd s) as (es & Hs & Hin & Hout & _).
  destruct (fr_direction _ _ _ _ (launched_fresh _ _ _ _ Hl) s) as [Id Hc _ _ Hdd Hmd _].
  destruct (dir_steps_delivery _ _ _ Id Hc Hs) as [_ Hf]. cbn zeta. rewrite Hin, Hout.
  eapply Forall2_impl; [exact Hf|]. intros [b t] [b' t'] [Hb Ht]. rewrite Hdd, Hmd in Ht by done.
  auto.
Qed.


(** C9: no stall. Whenever bytes wait for an open, connected destination,
    either the write interest is requested, no wake-up is asked for, and a flush
    would offer bytes to the socket; or the write interest is dropped and a
    wake-up strictly in the future is asked for. So bytes never wait for an
    event that does not come, and a blocked direction never spins. *)
Theorem relay_no_stall c p t0 r io ops traffic w destination now :
  launched c p t0 r → reached r io ops traffic w →
  waiting destination (w_relay w) = true →
  let d := direction_from (other destination) (w_relay w) in
  ∃ interest wake w1 w2,
    desired_interest destination now w = Ok (interest, w1)
    ∧ next_wake destination now w = Ok (wake, w2)
    ∧ ((interest_write interest = true ∧ wake = None
        ∧ 0 < (fault_sendable d (sp_length (readable_span (queue d))) now).1)
       ∨ (interest_write interest = false ∧ ∃ t, wake = Some t ∧ now < t)).
Proof.
  intros Hl Hr Hwait d.
  destruct (reached_ok _ _ _ _ _ _ _ _ Hl Hr) as (I & Hw & _).
  assert (Hi : winv w) by (unfold winv; by rewrite Hw).
  pose proof (desired_interest_ok destination now w Hi) as Hint.
  apply runs_inv in Hint as (interest & w1 & Hint & _ & _ & Hq).
  pose proof (next_wake_ok destination now w Hi) as Hnw.
  apply runs_inv in Hnw as (wake & w2 & Hnw & _ & _ & Hq2). rewrite Hwait in Hq2.
  assert (Hcon : bool_decide (destination = Upstream) && upstream_connecting_ (w_relay w) = false).
  { unfold waiting in Hwait. apply andb_true_iff in Hwait as [[_ Hwait]%andb_true_iff _].
    by destruct (bool_decide (destination = Upstream) && upstream_connecting_ (w_relay w)). }
  rewrite Hcon, Hwait in Hq. exists interest, wake, w1, w2. subst interest. cbn.
  split_and!; [done|done|]. destruct wake as [t|].
  - right. destruct Hq2 as [Hz Ht]. rewrite Hz. split; [done|]. by exists t.
  - left. split_and!; [lia|done|].
    pose proof (ri_dir _ _ I (other destination)) as Id. fold d in Id.
    assert (Hne : 0 < size_ (queue d)).
    { unfold waiting in Hwait. apply andb_true_iff in Hwait as [_ He%negb_true_iff].
      unfold empty in He. fold d in He. pose proof (qi_size _ (dv_queue _ Id)). lia. }
    destruct (readable_span_bounds (queue d) (dv_queue _ Id)) as (_ & _ & Hsp & Hpos & _).
    apply fault_sendable_span with (size_ (queue d)); [done|lia|exact Hq2].
Qed.

(** C24: lifecycle faults take effect in the flush that reaches their threshold.
    A flush that neither fails nor finds the destination closed returns the
    injected reset exactly when the bytes written reach [reset_after_bytes], and
    leaves no injected half-close overdue. *)
Theorem relay_lifecycle_faults c p t0 r io ops traffic w destination now :
  launched c p t0 r → reached r io ops traffic w →
  write_open destination (w_relay w) = true →
  (destination = Upstream → upstream_connecting_ (w_relay w) = false) →
  ∃ result w', flush destination now w = Ok (result, w')
    ∧ ((∃ err, result = close_for_error err "write")
       ∨ (result = (if (0 <? reset_after_bytes p) && (reset_after_bytes p <=? total_written (w_relay w'))
                    then fault_reset else default_PumpResult)
          ∧ (0 < half_close_after_bytes p → half_close_after_bytes p ≤ client_bytes_written (metrics_ (w_relay w')) →
             client_write_open_ (w_relay w') = true → half_close_injected_ (w_relay w') = true))).
Proof.
  intros Hl Hr Hopen Hcon. destruct (reached_ok _ _ _ _ _ _ _ _ Hl Hr) as (I & Hw & Hst & _).
  assert (Hi : winv w) by (unfold winv; by rewrite Hw).
  pose proof (flush_ok destination now w Hi) as Hf.
  apply runs_inv in Hf as (result & w' & Hf & _ & (delta & _ & [Hst' _ _]) & Hq).
  exists result, w'. split; [done|]. destruct Hq as [[_ [?|[? ?]]]|[?|[-> Hdue]]];
    [congruence|naive_solver congruence|by left|right].
  pose proof (launched_fresh _ _ _ _ Hl) as [_ _ Hra Hha _].
  rewrite Hst in Hst'. unfold relay_static in Hst'. injection Hst' as _ _ _ Hra' Hha' _.
  unfold reset_due, half_close_due in *. rewrite Hra', Hra. split; [done|]. intros Hpos Hle Ho.
  rewrite Hha', Hha, Ho, andb_true_r in Hdue. destruct (half_close_injected_ (w_relay w')); [done|].
  cbn in Hdue. rewrite andb_true_r in Hdue. lia.
Qed.

(** C26: a stall after an injected half-close. If the client's write side was
    shut down while the upstream direction was paused by backpressure, then
    whatever is called afterwards, the upstream is never read again (nor is its
    read interest requested), its end of stream goes unnoticed and the relay
    never reports that it is drained: only a timeout can end the connection. *)
Theorem injected_half_close_stalls c p t0 r io ops traffic w :
  launched c p t0 r → reached r io ops traffic w →
  client_write_open_ (w_relay w) = false → upstream_read_open_ (w_relay w) = true →
  dir_paused (upstream_to_client_ (w_relay w)) = true →
  ∀ ops', succeeds (relay_run ops' w) (λ '(traffic', w'),
    wire_in Upstream (traffic'.*2) = [] ∧ wants_read Upstream (w_relay w') = false
    ∧ fully_drained (w_relay w') = false).
Proof.
  intros Hl Hr Hcw Hur Hp ops'. destruct (reached_ok _ _ _ _ _ _ _ _ Hl Hr) as (I & Hw & _ & _).
  assert (Hi : winv w) by (unfold winv; by rewrite Hw).
  eapply succeeds_mono; [by apply relay_run_ok|].
  intros [traffic' w'] (I' & Hw' & _ & Hun & Hd).
  assert (Hin : WireShutdown Client ∈ w_wire w) by (rewrite Hw; by apply (ri_shut _ _ I Client)).
  apply list_elem_of_split in Hin as (pre & post & Hsplit).
  destruct (wire_ok_after _ (w_wire w') Client pre (post ++ traffic'.*2) (ri_wire _ _ I')) as (Hout & _ & _).
  { by rewrite Hw', Hsplit, <-app_assoc. }
  rewrite wire_out_app in Hout. apply app_nil in Hout as [_ Hout].
  destruct (Hd Upstream) as (es & Hs & Hin' & Hout' & _).
  assert (Hes : dir_writes es = []).
  { by rewrite <-timed_writes_bytes, <-Hout', timed_out_bytes. }
  destruct (dir_steps_paused _ _ _ Hp Hs Hes) as (Hp' & _ & Hrd).
  assert (Hur' : upstream_read_open_ (w_relay w') = true) by (rewrite <-Hur; by apply (Hun Upstream)).
  split_and!.
  - by rewrite <-timed_in_bytes, Hin', timed_reads_bytes.
  - unfold wants_read. unfold dir_paused in Hp'. by rewrite Hp', andb_false_r.
  - unfold fully_drained. by rewrite Hur', andb_false_r.
Qed.
End theorems.

(** ** Examples *)

Definition example_libc : Libc := {| strerror := λ _, "error"%string |}.
#[local] Existing Instance example_libc.

(** 5 ms of latency, 2 ms of jitter, 1000 bytes/s with a burst of 4. *)
Definition small_config : RelayConfig := mkRelayConfig 16 4 8.
Definition paced_plan : FaultPlan := mkFaultPlan 7 double_one Both 5 2 1000 4 0 0.

(** The results of the socket calls, in the order of the calls. *)
Definition example_script : Script := mkScript
  [SData [x61; x62; x63; x64; x65; x66]; SError EAGAIN; SData [x00; x00; x00];
   SData [x00; x00; x00]; SEof; SData [x78; x79]; SEof; SData [x00; x00]].

(** The first part ends with bytes waiting for tokens; the second drains. *)
Definition example_ops1 : list (Z * relay_op) :=
  [(1000, OpConnected); (2000, OpReadable Client false); (10000000, OpFlush Upstream)].
Definition example_ops2 : list (Z * relay_op) :=
  [(20000000, OpNextWake Upstream); (4000000000, OpFlush Upstream);
   (4000000001, OpReadable Client false); (4000000002, OpPropagate);
   (4000000003, OpReadable Upstream true); (5000000000, OpFlush Client);
   (5000000001, OpPropagate)].

Definition example_traffic1 : list (Z * WireOp) :=
  [(2000, WireIn Client [x61; x62; x63; x64; x65; x66]);
   (10000000, WireOut Upstream [x61; x62; x63])].
Definition example_traffic2 : list (Z * WireOp) :=
  [(4000000000, WireOut Upstream [x64; x65; x66]); (4000000002, WireShutdown Upstream);
   (4000000003, WireIn Upstream [x78; x79]); (5000000000, WireOut Client [x78; x79]);
   (5000000001, WireShutdown Client)].

(** Projections of the results of the examples' computations. *)
Definition the_relay (o : outcome Relay) : match o with Ok _ => Relay | _ => unit end :=
  match o with Ok r => r | _ => tt end.
Definition the_world {A} (default : World Script) (o : outcome (A * World Script)) : World Script :=
  match o with Ok (_, w) => w | _ => default end.

Definition example_relay : Relay :=
  Eval vm_compute in the_relay (make_Relay small_config paced_plan 1 5 6 true 1000).
Definition example_world1 : World Script :=
  Eval vm_compute in the_world (start example_relay example_script)
    (relay_run example_ops1 (start example_relay example_script)).
Definition example_world2 : World Script :=
  Eval vm_compute in the_world example_world1 (relay_run example_ops2 example_world1).

Lemma small_config_valid : valid_config small_config.
Proof. split; cbn; lia. Qed.

Lemma paced_plan_typed : plan_typed paced_plan.
Proof. split; unfold is_u64; cbn; lia. Qed.

Lemma paced_plan_valid : valid_plan paced_plan.
Proof. split; [by vm_compute|cbn; lia|done|cbn; lia]. Qed.

Lemma example_launched : launched small_config paced_plan 1000 example_relay.
Proof.
  split_and!; [apply small_config_valid|apply paced_plan_typed|apply paced_plan_valid|].
  exists 1, 5, 6, true. vm_compute. reflexivity.
Qed.

Lemma example_reached1 :
  reached example_relay example_script example_ops1 example_traffic1 example_world1.
Proof. vm_compute. reflexivity. Qed.

Lemma example_run2 : relay_run example_ops2 example_world1 = Ok (example_traffic2, example_world2).
Proof. vm_compute. reflexivity. Qed.

Lemma example_reached2 :
  reached example_relay example_script (example_ops1 ++ example_ops2)
    (example_traffic1 ++ example_traffic2) example_world2.
Proof. vm_compute. reflexivity. Qed.

Lemma example_timely : timely paced_plan 1000 example_ops1 20000000.
Proof.
  unfold timely, clock_time, max_safe_burst. split_and!; try (cbn; lia).
  repeat constructor; cbn; lia.
Qed.


Lemma relay_stream_integrity_witness :
  [x61; x62; x63; x64; x65; x66]
    = [x61; x62; x63] ++ contents (queue (client_to_upstream_ (w_relay example_world1)))
  ∧ 3 ≤ 8.
Proof.
  exact (relay_stream_integrity _ _ _ _ _ _ _ _ Client example_launched example_reached1).
Defined.

Lemma relay_drained_lossless_witness :
  wire_out Client ((example_traffic1 ++ example_traffic2).*2) = [x78; x79].
Proof.
  exact (relay_drained_lossless _ _ _ _ _ _ _ _ Client example_launched example_reached2
           (or_intror eq_refl) eq_refl).
Defined.


Lemma relay_delay_witness :
  let sent := timed_out Upstream (example_traffic1 ++ example_traffic2) in
  map snd sent = [10000000; 10000000; 10000000; 4000000000; 4000000000; 4000000000]
  ∧ Forall2 (λ i o : byte * Z, i.1 = o.1 ∧ i.2 + 3000000 ≤ o.2)
      (take 6 (timed_in Client (example_traffic1 ++ example_traffic2))) sent.
Proof.
  split; [reflexivity|].
  exact (relay_delay _ _ _ _ _ _ _ _ Client example_launched example_reached2 eq_refl).
Defined.


Lemma relay_no_stall_witness :
  ∃ interest wake w1 w2,
    desired_interest Upstream 10000001 example_world1 = Ok (interest, w1)
    ∧ next_wake Upstream 10000001 example_world1 = Ok (wake, w2)
    ∧ interest_write interest = false ∧ ∃ t, wake = Some t ∧ 10000001 < t.
Proof.
  destruct (relay_no_stall _ _ _ _ _ _ _ _ Upstream 10000001 example_launched example_reached1)
    as (interest & wake & w1 & w2 & Hi & Hw & Hcase); [reflexivity|].
  exists interest, wake, w1, w2. split; [exact Hi|]. split; [exact Hw|].
    destruct Hcase as [(_ & Hn & _)|Hc]; [|exact Hc].
    exfalso. vm_compute in Hw. injection Hw as <- _. discriminate Hn.
Defined.

(** The plan resets after 5 bytes; the second flush reaches them. *)
Definition reset_plan : FaultPlan := mkFaultPlan 7 double_one Both 0 0 0 0 5 0.
Definition reset_relay : Relay :=
  Eval vm_compute in the_relay (make_Relay small_config reset_plan 1 5 6 false 0).
Definition reset_script : Script := mkScript
  [SData [x61; x62; x63; x64; x65; x66]; SError EAGAIN; SData [x00; x00; x00; x00; x00; x00]].
Definition reset_ops : list (Z * relay_op) := [(10, OpReadable Client false)].
Definition reset_world : World Script :=
  Eval vm_compute in the_world (start reset_relay reset_script)
    (relay_run reset_ops (start reset_relay reset_script)).

Lemma reset_launched : launched small_config reset_plan 0 reset_relay.
Proof.
  split_and!; [apply small_config_valid|split; unfold is_u64; cbn; lia|split; [by vm_compute|cbn; lia|done|cbn; lia]|].
  exists 1, 5, 6, false. vm_compute. reflexivity.
Qed.

Lemma relay_lifecycle_faults_witness :
  ∃ w', flush Upstream 20 reset_world = Ok (fault_reset, w').
Proof.
  destruct (relay_lifecycle_faults _ _ _ _ reset_script reset_ops
    [(10, WireIn Client [x61; x62; x63; x64; x65; x66])] reset_world Upstream 20 reset_launched)
    as (result & w' & Hf & Hr); [vm_compute; reflexivity|reflexivity|reflexivity|].
  exists w'. destruct Hr as [[err Hr]|[Hr _]].
  - exfalso. vm_compute in Hf. injection Hf as <- _. discriminate Hr.
  - assert (Ht : total_written (w_relay w') = 6) by (vm_compute in Hf; injection Hf as _ <-; reflexivity).
    rewrite Ht in Hr. rewrite Hf, Hr. reflexivity.
Defined.

(** A half-close after one byte, with three more queued over a low-water mark
    of two. *)
Definition stalled_config : RelayConfig := mkRelayConfig 8 2 4.
Definition stalled_plan : FaultPlan := mkFaultPlan 7 double_one Both 0 0 0 0 0 1.
Definition stalled_relay : Relay :=
  Eval vm_compute in the_relay (make_Relay stalled_config stalled_plan 1 5 6 false 0).
Definition stalled_script : Script := mkScript [SData [x61; x62; x63; x64]; SData [x00]; SError EAGAIN].
Definition stalled_ops : list (Z * relay_op) := [(10, OpReadable Upstream false); (20, OpFlush Client)].
Definition stalled_world : World Script :=
  Eval vm_compute in the_world (start stalled_relay stalled_script)
    (relay_run stalled_ops (start stalled_relay stalled_script)).

Lemma stalled_launched : launched stalled_config stalled_plan 0 stalled_relay.
Proof.
  split_and!; [split; cbn; lia|split; unfold is_u64; cbn; lia|split; [by vm_compute|cbn; lia|done|cbn; lia]|].
  exists 1, 5, 6, false. vm_compute. reflexivity.
Qed.

Lemma injected_half_close_stalls_witness :
  let ops' := [(30, OpReadable Upstream true); (40, OpFlush Client); (50, OpPropagate)] in
  succeeds (relay_run ops' stalled_world) (λ '(traffic', w'),
    wire_in Upstream (traffic'.*2) = [] ∧ wants_read Upstream (w_relay w') = false
    ∧ fully_drained (w_relay w') = false).
Proof.
  intros ops'. apply (injected_half_close_stalls _ _ _ _ stalled_script stalled_ops
    [(10, WireIn Upstream [x61; x62; x63; x64]); (20, WireOut Client [x61]); (20, WireShutdown Client)]
    stalled_world stalled_launched); vm_compute; reflexivity.
Defined.
