(* ===== verification/RelayDelivery.v ===== *)
(** * Everything that is queued is delivered

    Liveness of a relay that is pumped as the event loop does: a flush, then a
    question for the next wake-up, with any other operations between the pumps.
    Towards a destination whose socket takes bytes, every schedule of pumps that
    never comes before the wake-up it was told sends what was queued within a
    number of pumps that depends on its size and the high-water mark only,
    whatever latency and rate limit are configured. *)

From Stdlib Require Import ZArith Lia Init.Byte.
From stdpp Require Import base numbers list option strings pretty.
From S2P Require Import Prelude ByteQueue Backpressure DelayLine TokenBucket FaultRng.
From S2P Require Import FaultPlan ConnectionState SocketIo Relay RelayDirection RelayFacts.
From S2P Require Import RelayQueries RelayRun RelaySpec.

Local Open Scope Z_scope.

Create HintDb obliged.

(** ** Time and one direction *)

Lemma releasable_mono l t t' : delay_inv l → t ≤ t' → releasable l t ≤ releasable l t'.
Proof. intros I Ht. rewrite !releasable_ok by done. apply inj_le. by apply prefix_length_mono. Qed.

Lemma gate_mono d n t t' : dir_inv d → t ≤ t' → gate d n t ≤ gate d n t'.
Proof.
  intros I Ht. unfold gate. destruct (dir_delay d) as [l|] eqn:Hl; [|lia].
  destruct (dv_delay d I l Hl) as [Il _]. pose proof (releasable_mono l t t' Il Ht). lia.
Qed.

Lemma gate_refill d n t t' : gate (refill_direction d t) n t' = gate d n t'.
Proof. unfold gate. by rewrite dir_delay_refill. Qed.

(** The bucket is in order, and was not used after [t]. *)
Definition sound_bucket (d : Direction) : Prop := ∀ b, dir_bucket d = Some b → bucket_inv b.
Definition timed_bucket (d : Direction) (t : Z) : Prop :=
  ∀ b, dir_bucket d = Some b → bucket_inv b ∧ last_refill_ b ≤ t.

Lemma timed_sound d t : timed_bucket d t → sound_bucket d.
Proof. intros Hb b Hd. by destruct (Hb b Hd). Qed.

(** At [t] there are tokens for the release of [k] bytes. *)
Definition affords (d : Direction) (k t : Z) : Prop :=
  ∀ b, dir_bucket d = Some b → release_quantum k (burst_ b) ≤ tokens_ (refill b t).

Lemma refill_compose b t t' :
  bucket_inv b → clock_time t → clock_time t' → t ≤ t' →
  refill (refill b t) t' = refill b t'.
Proof.
  intros I Ht Ht' Hle. rewrite (refill_ideal b t I Ht), (refill_ideal b t' I Ht').
  rewrite refill_ideal; [by apply ideal_refill_compose| |done].
  rewrite <-refill_ideal by done. apply (refill_inv b t I Ht).
Qed.

Lemma affords_refill d k t t' :
  sound_bucket d → clock_time t → clock_time t' → t ≤ t' →
  affords (refill_direction d t) k t' ↔ affords d k t'.
Proof.
  intros Hb Ht Ht' Hle. unfold affords, sound_bucket in *. rewrite dir_bucket_refill.
  destruct (dir_bucket d) as [b|]; [|done]. pose proof (Hb b eq_refl) as I.
  destruct (refill_inv b t I Ht) as (_ & _ & Hbu & _).
  split; intros H b' [= <-]; specialize (H _ eq_refl); by rewrite refill_compose, Hbu in *.
Qed.

Lemma affords_mono d k t t' :
  sound_bucket d → clock_time t → clock_time t' → t ≤ t' → affords d k t → affords d k t'.
Proof.
  intros Hb Ht Ht' Hle H b Hd. specialize (H b Hd). pose proof (Hb b Hd) as I.
  rewrite <-(refill_compose b t t') by done.
  destruct (refill_inv b t I Ht) as (I1 & _). destruct (refill_inv (refill b t) t' I1 Ht') as (_ & _ & _ & _ & Hle').
  lia.
Qed.

(** Bytes that pass the gate and can be afforded are sent. *)
Lemma affords_sendable d t :
  dir_inv d → 0 < size_ (queue d) → 0 < gate d (size_ (queue d)) t → affords d (gate d (size_ (queue d)) t) t →
  (fault_sendable d (size_ (queue d)) t).1 ≠ 0.
Proof.
  intros I Hs Hg Ha Hz. destruct (fault_sendable_blocked d t I Hs Hz) as [(_ & _ & _ & ?)|(_ & b & Hb & Hlt)]; [lia|].
  specialize (Ha b Hb). destruct (refill_weak b t (dv_bucket d I b Hb)) as (_ & Hbu & _).
  rewrite Hbu in Hlt. lia.
Qed.

(** The wake-up a blocked direction asks for. *)
Definition wake_time (d : Direction) (now : Z) : option Z :=
  let n := gate d (size_ (queue d)) now in
  if n =? 0 then dir_delay d ≫= λ l, next_eligible l now
  else (λ b, (eligible_at (refill b now) (release_quantum n (burst_ (refill b now))) now).1) <$> dir_bucket d.

(** From the time it asks for on, a blocked direction has got further: bytes
    have passed the gate, or there are tokens for those that had. *)
Lemma blocked_wake d t :
  dir_inv d → timed_bucket d t → clock_time t → 0 < size_ (queue d) →
  (fault_sendable d (size_ (queue d)) t).1 = 0 →
  let n := gate d (size_ (queue d)) t in
  ∃ w, wake_time d t = Some w ∧ ∀ t', w ≤ t' → clock_time t' →
    (n = 0 ∧ 0 < gate d (size_ (queue d)) t') ∨ (0 < n ∧ affords d n t' ∧ ¬ affords d n t).
Proof.
  intros I Hb Ht Hs Hz n. unfold wake_time. fold n.
  destruct (fault_sendable_blocked d t I Hs Hz) as [(l & Hl & Hr & Hg)|(Hg & b & Hd & Hlt)]; fold n in Hg.
  - rewrite (proj2 (Z.eqb_eq n 0) Hg), Hl. cbn. destruct (dv_delay d I l Hl) as [Il Hp].
    destruct (next_eligible_blocked l t Il) as (w & Hw & _ & _ & Hmore); [lia|]. exists w. split; [done|].
    intros t' Hle _. left. split; [done|]. unfold gate. rewrite Hl.
    pose proof (releasable_mono l w t' Il Hle). lia.
  - fold n in Hlt. destruct (Z.eqb_spec n 0); [lia|]. rewrite Hd. cbn.
    destruct (Hb b Hd) as [Ib Hlast]. destruct (refill_inv b t Ib Ht) as (I1 & _ & Hbu & Hl1 & _).
    eexists. split; [done|]. set (q := release_quantum n (burst_ (refill b t))) in *.
    assert (Hq : 0 ≤ q ≤ max_wait_bytes ∧ q ≤ burst_ (refill b t)).
    { pose proof (bi_burst _ I1). unfold q, release_quantum, kPreferredReleaseBytes, max_wait_bytes. lia. }
    pose proof (eligible_at_ok (refill b t) q t I1 Ht ltac:(lia) ltac:(lia)) as He.
    pose proof (bucket_wake b t n (dv_bucket d I b Hd) Hlt) as Hfuture. fold q in Hfuture.
    destruct (eligible_at (refill b t) q t) as [w b1]. cbn [fst] in *. destruct He as (_ & _ & _ & Hw).
    intros t' Hle Ht'. right. split; [done|]. rewrite Z.min_l in Hw by lia.
    assert (Hcw : clock_time w) by (unfold clock_time in *; lia). specialize (Hw Hcw).
    rewrite refill_compose in Hw by (done || lia). split.
    + apply (affords_mono d n w t'); [by apply timed_sound with t|done..|].
      intros b0 Hd0. rewrite Hd in Hd0. injection Hd0 as <-. by rewrite <-Hbu.
    + intros Ha. specialize (Ha b Hd). unfold q in Hlt. rewrite Hbu in Hlt. lia.
Qed.

(** How far a blocked direction has got: there are tokens for [k] bytes, and
    [open] says that the gate lets something through. Of a queue that holds at
    most [cap] bytes, [steps_left] counts how often it can still get further
    before it sends something. *)
Definition ready (d : Direction) (k : Z) (open : bool) (t : Z) : Prop :=
  affords d k t ∧ (open = true → 0 < gate d (size_ (queue d)) t).

Definition steps_left (cap k : Z) (open : bool) : Z := cap - k + (if open then 0 else 1).

Lemma ready_start d t : dir_inv d → sound_bucket d → clock_time t → ready d 0 false t.
Proof.
  intros I Hb Ht. split; [|done]. intros b Hd. pose proof (Hb b Hd) as Ib.
  destruct (refill_inv b t Ib Ht) as (I1 & _). pose proof (bi_tokens _ I1). pose proof (bi_burst _ Ib).
  unfold release_quantum. lia.
Qed.

Lemma blocked_ready cap d k open t :
  dir_inv d → timed_bucket d t → clock_time t → 0 < size_ (queue d) → 0 ≤ k →
  ready d k open t → (fault_sendable d (size_ (queue d)) t).1 = 0 →
  ∃ w k' open', wake_time d t = Some w ∧ 0 ≤ k' ∧ (k' = k ∨ k' ≤ size_ (queue d))
    ∧ steps_left cap k' open' < steps_left cap k open
    ∧ ∀ t', w ≤ t' → t ≤ t' → clock_time t' → ready (refill_direction d t) k' open' t'.
Proof.
  intros I Htb Ht Hs Hk [Ha Ho] Hz. pose proof (timed_sound _ _ Htb) as Hb. destruct (blocked_wake d t I Htb Ht Hs Hz) as (w & Hw & Hlater).
  set (n := gate d (size_ (queue d)) t) in *.
  assert (Hn : 0 ≤ n ≤ size_ (queue d)).
  { split; [by apply gate_nonneg; [|lia]|]. unfold n, gate. destruct (dir_delay d); lia. }
  destruct (Z.eq_dec n 0) as [Hn0|Hn0].
  - exists w, k, true. split_and!; [done|lia|by left| |].
    + unfold steps_left. destruct open; [specialize (Ho eq_refl); lia|lia].
    + intros t' Hle Htt Ht'. destruct (Hlater t' Hle Ht') as [[_ Hg]|[? _]]; [|lia]. split.
      * apply affords_refill; [done..|]. by apply affords_mono with t.
      * intros _. by rewrite queue_refill, gate_refill.
  - exists w, n, true. split_and!; [done|lia|right; lia| |].
    + unfold steps_left. assert (k < n); [|destruct open; lia]. apply Z.nle_gt. intros Hnk.
      apply (affords_sendable d t I Hs) in Hz; [done|lia|]. intros b Hd. specialize (Ha b Hd).
      pose proof (release_quantum_mono n k (burst_ b) Hnk). fold n. lia.
    + intros t' Hle Htt Ht'. destruct (Hlater t' Hle Ht') as [[? _]|(_ & Hg & _)]; [lia|]. split.
      * by apply affords_refill.
      * intros _. rewrite queue_refill, gate_refill. pose proof (gate_mono d (size_ (queue d)) t t' I Htt). lia.
Qed.

(** Reading into the queue opens the gate no less. *)
Lemma gate_read d bs now d' t :
  dir_inv d → dir_step d (DRead bs now) d' →
  gate d (size_ (queue d)) t ≤ gate d' (size_ (queue d')) t
  ∧ size_ (queue d) ≤ size_ (queue d') ∧ dir_bucket d' = dir_bucket d.
Proof.
  intros I Hs. inversion Hs as [|? ? ? ? _ _ Hl Hh Hr|]; subst.
  pose proof (dir_read_ok d bs now I Hl Hh) as Hok. rewrite Hr in Hok.
  destruct Hok as (I' & _ & Hc & Hb & at_ & _ & Hd). apply (f_equal (λ l, Z.of_nat (length l))) in Hc.
  rewrite length_app, Nat2Z.inj_add, !length_contents in Hc by (apply I || apply I').
  split_and!; [|lia|done]. unfold gate. revert I I' Hd.
  destruct (dir_delay d) as [l|] eqn:Hl0, (dir_delay d') as [l'|] eqn:Hl1; intros I I' Hd; inversion Hd; subst; [|lia].
  destruct (dv_delay d I l Hl0) as [Il _], (dv_delay d' I' l' Hl1) as [Il' _].
  rewrite !releasable_ok by done. assert (Hst : stamps l' = stamps l ++ replicate (length bs) at_) by done.
  rewrite Hst. pose proof (prefix_length_app_le (λ x, x <=? t) (stamps l) (replicate (length bs) at_)). lia.
Qed.

(** What happens to a direction between two pumps, without a byte leaving it,
    does not set it back. *)
Lemma ready_steps d es d' k open t :
  lsteps dir_step d es d' → dir_inv d → sound_bucket d → dir_writes es = [] →
  Forall (λ e, clock_time (event_time e) ∧ event_time e ≤ t) es → clock_time t →
  ready d k open t → ready d' k open t ∧ size_ (queue d) ≤ size_ (queue d').
Proof.
  induction 1 as [|d e d1 es d' Hs _ IH]; intros I Hb Hw Hes Ht Hr; [done|].
  apply Forall_cons_1 in Hes as [[He Hle] Hes]. destruct (dir_step_ok d e d1 I Hs) as [I1 _].
  destruct Hr as [Ha Ho]. destruct Hs as [d u|d bs u d1 Hp Hne Hl Hh Hr|d n bs u d1 _ _ Hne _]; cbn in He, Hle.
  - rewrite <-(queue_refill d u). apply IH; [done| |done|done|done|].
    + intros b Hd. rewrite dir_bucket_refill in Hd. destruct (dir_bucket d) as [b0|] eqn:Hb0; [|done].
      injection Hd as <-. by destruct (refill_inv b0 u (Hb b0 Hb0) He).
    + split; [by apply affords_refill|]. rewrite queue_refill, gate_refill. done.
  - destruct (gate_read d bs u d1 t I) as (Hg & Hsz & Hbk); [by apply step_read|].
    destruct IH as [Hr1 Hsz1]; [done|by intros b; rewrite Hbk; apply Hb|done|done|done| |split; [done|lia]].
    split; [intros b; rewrite Hbk; apply Ha|intros Hopen; specialize (Ho Hopen); lia].
  - unfold dir_writes in Hw. cbn in Hw. apply app_nil in Hw as [-> _]. cbn in Hne. lia.
Qed.

(** ** Pumps *)

Section pumps.
#[local] Set Default Proof Using "Type*".
Context {W : Type} `{SocketIoLaws W} `{Libc}.
Implicit Types (w : World W) (io : W).

(** What the event loop does for one destination when it pumps. *)
Definition pump (destination : Side) (t : Z) : M (World W) (option Z) :=
  _ ← flush destination t;
  next_wake destination t.

(** A pump, after anything else the relay was used for. *)
Record Turn := mkTurn { meanwhile : list (Z * relay_op); pump_at : Z }.

(** Turns, with the wake-ups the pumps ask for. *)
Fixpoint take_turns (destination : Side) (turns : list Turn) w : outcome (list (option Z) * World W) :=
  match turns with
  | [] => Ok ([], w)
  | turn :: turns =>
      '(_, w1) ← relay_run (meanwhile turn) w;
      '(wake, w2) ← pump destination (pump_at turn) w1;
      '(wakes, w3) ← take_turns destination turns w2;
      Ok (wake :: wakes, w3)
  end.

(** No pump comes before [earliest], what happened before it, or the wake-up the
    last one asked for. *)
Fixpoint honoured (earliest : Z) (turns : list Turn) (wakes : list (option Z)) : Prop :=
  match turns, wakes with
  | turn :: turns, wake :: wakes =>
      let t := pump_at turn in
      clock_time t ∧ earliest ≤ t ∧ Forall (λ o, clock_time o.1 ∧ o.1 ≤ t) (meanwhile turn)
      ∧ honoured (Z.max t (default t wake)) turns wakes
  | _, _ => True
  end.

#[export] Instance honoured_dec earliest turns wakes : Decision (honoured earliest turns wakes).
Proof.
  revert earliest wakes. induction turns as [|turn turns IH]; intros earliest [|wake wakes]; cbn; apply _.
Defined.

(** The destination can be written to, and takes what is queued for it. *)
Record flowing (destination : Side) w : Prop := mkFlowing {
  fl_open : write_open destination (w_relay w) = true;
  fl_connected : destination = Upstream → upstream_connecting_ (w_relay w) = false;
  fl_taking : taking destination w;
  fl_half_close : half_close_after_bytes_ (w_relay w) = 0;
}.

Lemma check_lifecycle_faults_quiet w :
  half_close_after_bytes_ (w_relay w) = 0 →
  runs check_lifecycle_faults w (λ _ w', w_relay w' = w_relay w ∧ w_io w' = w_io w).
Proof.
  intros Hh. unfold check_lifecycle_faults. apply runs_gets_bind. rewrite Hh. cbn [Z.ltb Z.compare andb].
  unfold runs, mbind, M_bind, on_event, modify. cbn. by destruct (_ && _).
Qed.

Lemma flush_flows destination t w :
  winv w → flowing destination w →
  runs (flush destination t) w (λ _ w',
    taking destination w' ∧ flushed destination t (w_relay w) (w_relay w')).
Proof.
  intros Hi [Ho Hc Ht Hh]. unfold flush. apply runs_gets_bind. rewrite Ho.
  assert (Hcon : bool_decide (destination = Upstream) && upstream_connecting_ (w_relay w) = false).
  { case_bool_decide; [|done]. by rewrite Hc. }
  rewrite Hcon. cbn [negb orb]. eapply runs_bind.
  { apply flush_loop_ok; [done..|]. unfold queued.
    pose proof (qi_size _ (dv_queue _ (ri_dir _ _ Hi (other destination)))). lia. }
  cbn beta. intros early w1 (I1 & E1 & _ & Hflow). destruct (Hflow Ht) as (-> & Htk & Hf).
  destruct E1 as (ops & _ & [Hst _ _ _]). assert (Hh1 : half_close_after_bytes_ (w_relay w1) = 0).
  { unfold relay_static in Hst. injection Hst as _ _ _ _ Hst _. congruence. }
  eapply runs_mono; [by apply check_lifecycle_faults_quiet|]. intros result w2 [Hr Hio]. rewrite Hr. split; [|done].
  apply (taking_same destination w1); [done|by rewrite Hr|done].
Qed.

(** The answer of [next_wake] for a blocked direction. *)
Lemma next_wake_blocked destination t w :
  waiting destination (w_relay w) = true →
  let d := direction_from (other destination) (w_relay w) in
  winv w → (fault_sendable d (size_ (queue d)) t).1 = 0 →
  runs (next_wake destination t) w (λ wake _, wake = wake_time d t).
Proof.
  intros Hwait d Hi Hz. pose proof (ri_dir _ _ Hi (other destination)) as Id. fold d in Id.
  unfold waiting in Hwait. fold d in Hwait.
  apply andb_true_iff in Hwait as [[Ho Hc]%andb_true_iff He]. unfold next_wake. apply runs_gets_bind. fold d.
  rewrite Ho. apply negb_true_iff in Hc, He. rewrite Hc, He. cbn [negb orb].
  assert (Hs : 0 < size_ (queue d)).
  { unfold empty in He. apply Z.eqb_neq in He. pose proof (qi_size _ (dv_queue _ Id)). lia. }
  destruct (bool_decide_reflect (fault d = None)) as [Hf|Hf].
  { unfold fault_sendable in Hz. rewrite Hf in Hz. cbn in Hz. lia. }
  pose proof (fault_sendable_refills d (size_ (queue d)) t) as Hrd.
  pose proof (fault_sendable_blocked d t Id Hs Hz) as Hblocked. rewrite gate_queue in Hblocked by done.
  unfold wake_time. rewrite gate_queue by done.
  destruct (fault_sendable d (size_ (queue d)) t) as [n d1]. cbn [fst snd] in Hz, Hrd. subst n d1.
  apply runs_modify_bind. cbn [Z.ltb Z.compare]. clearbody d.
  destruct d as [q tr [[dl bk rg la ji sg bg]|]]; [|done]. unfold refill_direction, dir_delay, dir_bucket in *. cbn in *.
  set (rel := match dl with Some line => releasable line t | None => size_ q end) in *.
  assert (Hrel : 0 ≤ rel).
  { unfold rel. destruct dl as [l|]; [|lia]. destruct (dv_delay _ Id l eq_refl) as [Il _].
    apply (releasable_bounds l t Il). }
  destruct bk as [b|]; cbn; fold rel.
  - destruct (Z.ltb_spec 0 rel) as [Hr|Hr]; destruct (Z.eqb_spec rel 0) as [Hz|Hz]; try lia.
    + destruct (eligible_at (refill b t) _ t) as [at_ b']. unfold runs, mbind, M_bind. cbn.
      destruct dl; by rewrite ?Z.min_id.
    + unfold runs. cbn. by destruct dl.
  - destruct Hblocked as [(l & -> & Hl & _)|(_ & b & ? & _)]; [|done]. unfold runs. cbn.
    unfold rel. rewrite Hl. done.
Qed.

Lemma wake_time_refill d t : wake_time (refill_direction d t) t = wake_time d t.
Proof.
  unfold wake_time. rewrite queue_refill, gate_refill, dir_delay_refill, dir_bucket_refill.
  destruct (dir_bucket d) as [b|]; [|done]. cbn. by rewrite refill_idemp.
Qed.

Lemma flowing_waiting destination w :
  winv w → flowing destination w → 0 < queued (other destination) (w_relay w) →
  waiting destination (w_relay w) = true.
Proof.
  intros Hi [Ho Hc _ _] Hq. unfold waiting, queued, empty in *. rewrite Ho. cbn [andb].
  assert (Hcon : bool_decide (destination = Upstream) && upstream_connecting_ (w_relay w) = false).
  { case_bool_decide; [|done]. by rewrite Hc. }
  rewrite Hcon. cbn [negb andb]. destruct (Z.eqb_spec (size_ (queue (direction_from (other destination) (w_relay w)))) 0); [lia|done].
Qed.

(** One pump: bytes leave, or there are none, or the direction is blocked, only
    its bucket has been refilled, and the answer is its wake-up. *)
Lemma pump_flows destination t w :
  winv w → flowing destination w →
  keeps t (pump destination t) w (λ wake w',
    flowing destination w'
    ∧ let d := direction_from (other destination) (w_relay w) in
      let d' := direction_from (other destination) (w_relay w') in
      size_ (queue d') < size_ (queue d)
      ∨ size_ (queue d) = 0 ∧ size_ (queue d') = 0
      ∨ 0 < size_ (queue d) ∧ (fault_sendable d (size_ (queue d)) t).1 = 0
        ∧ d' = refill_direction d t ∧ wake = wake_time d t).
Proof.
  intros Hi Hfl. unfold pump, keeps.
  pose proof (flush_ok destination t w Hi) as Hk. pose proof (flush_flows destination t w Hi Hfl) as Hf.
  unfold keeps in Hk. apply runs_inv in Hk as (result & w1 & Hrun & I1 & E1 & _). unfold runs in Hf. rewrite Hrun in Hf.
  destruct Hf as (Htk & Hwo & Hco & Hcases). cbn [snd fst] in *.
  apply runs_bind with (P := λ _ w0, w0 = w1); [unfold runs; by rewrite Hrun|]. intros _ _ ->.
  assert (Hfl1 : flowing destination w1).
  { destruct Hfl as [Ho Hc _ Hh]. destruct E1 as (ops & _ & [Hst _ _ _]). unfold relay_static in Hst.
    injection Hst as _ _ _ _ Hst _. split; [congruence|intros; rewrite Hco; auto|done|congruence]. }
  pose proof (next_wake_ok destination t w1 I1) as Hn. unfold keeps in Hn.
  apply runs_inv in Hn as (wake & w2 & Hrun2 & I2 & E2 & _).
  destruct (next_wake_queries _ _ _ _ _ Hrun2) as (Hr & Hio & _ & _).
  unfold runs. rewrite Hrun2. cbn [fst snd succeeds]. split_and!; [done|by etrans| |].
  - destruct Hfl1 as [Ho Hc Ht1 Hh]. split.
    + by rewrite (rf_write _ _ _ Hr).
    + intros Hd. by rewrite (rf_connecting _ _ _ Hr), Hc.
    + apply (taking_same destination w1); [done|by apply (evolves_fd t)|done].
    + pose proof (rf_static _ _ _ Hr) as Hst. unfold relay_static in Hst. injection Hst as _ _ _ _ Hst _. congruence.
  - cbn zeta. rewrite (refilled_queue Hr). destruct Hcases as [Hlt|[[Hz Hd]|(Hpos & Hd & Hblk)]]; [by left| |].
    + right; left. by rewrite Hd.
    + right; right. split_and!; [done|done| |].
      * destruct (rf_direction _ _ _ Hr (other destination)) as [-> | ->]; rewrite Hd; [done|apply refill_direction_idemp].
      * assert (Hwait : waiting destination (w_relay w1) = true).
        { apply flowing_waiting; [done|done|]. unfold queued. by rewrite Hd, queue_refill. }
        assert (Hblk1 : (fault_sendable (direction_from (other destination) (w_relay w1))
          (size_ (queue (direction_from (other destination) (w_relay w1)))) t).1 = 0).
        { by rewrite Hd, queue_refill, fault_sendable_refill. }
        pose proof (next_wake_blocked destination t w1 Hwait I1 Hblk1) as Hval. unfold runs in Hval.
        rewrite Hrun2 in Hval. cbn in Hval. by rewrite Hval, Hd, wake_time_refill.
Qed.

(** *** What the sockets go on doing *)

(** While the destination is not shut down, its socket goes on taking. The two
    sides have different descriptors. *)
Definition apart (r : Relay) : Prop := client_fd_ r ≠ upstream_fd_ r.
Definition willing (destination : Side) w : Prop :=
  apart (w_relay w) ∧ (write_open destination (w_relay w) = true → taking destination w).

Lemma obliging_none fd : obliging fd (λ _ : W, False).
Proof. by split. Qed.

(** A method that keeps the sockets willing. *)
Section obliged.
Context (destination : Side) (fd : Z) (G : W → Prop) (HG : obliging fd G).

Definition kept w : Prop :=
  apart (w_relay w) ∧ fd_for destination (w_relay w) = fd ∧ (write_open destination (w_relay w) = true → G (w_io w)).

Definition obliged {A} (m : M (World W) A) : Prop := ∀ w a w', kept w → m w = Ok (a, w') → kept w'.

Lemma obliged_bind {A B} (m : M (World W) A) (f : A → M (World W) B) :
  obliged m → (∀ a, obliged (f a)) → obliged (m ≫= f).
Proof.
  intros Hm Hf w b w' Hw. unfold mbind, M_bind. destruct (m w) as [[a w1]| | |] eqn:E; try done.
  apply Hf. by eapply Hm.
Qed.
Lemma obliged_same {A} (m : M (World W) A) :
  (∀ w a w', m w = Ok (a, w') → w_relay w' = w_relay w ∧ w_io w' = w_io w) → obliged m.
Proof. intros Hm w a w' Hw E. unfold kept. by destruct (Hm _ _ _ E) as [-> ->]. Qed.
Lemma obliged_ret {A} (a : A) : obliged (mret a).
Proof. apply obliged_same. by intros w x w' [= <- <-]. Qed.
Lemma obliged_gets {A} (f : World W → A) : obliged (gets f).
Proof. apply obliged_same. by intros w x w' [= <- <-]. Qed.
Lemma obliged_lift {A} (o : outcome A) : obliged (lift o).
Proof. apply obliged_same. unfold lift. destruct o; cbn; intros w x w' Hx; by try injection Hx as <- <-. Qed.
Lemma obliged_on_event name detail : obliged (on_event name detail).
Proof. apply obliged_same. by intros w x w' [= <- <-]. Qed.
Lemma obliged_out_of_fuel {A} : obliged (out_of_fuel (S := World W) (A := A)).
Proof. by intros w a w'. Qed.

(** Assignments that leave the descriptors and the open sides alone. *)
Lemma obliged_modify_relay f :
  (∀ r, client_fd_ (f r) = client_fd_ r ∧ upstream_fd_ (f r) = upstream_fd_ r
    ∧ ∀ s, write_open s (f r) = write_open s r) →
  obliged (modify_relay f).
Proof.
  intros Hf w x w' Hw [= <- <-]. unfold kept, apart in *. cbn. destruct (Hf (w_relay w)) as (Hc & Hu & Ho).
  rewrite Ho, Hc, Hu. destruct Hw as (? & Hfd & ?). split_and!; [done| |done]. rewrite <-Hfd. by destruct destination.
Qed.
Lemma obliged_modify_direction source f : obliged (modify_direction source f).
Proof. apply obliged_modify_relay. intros r. split_and!; [..|intros s]; by destruct source, r; try destruct s. Qed.
Lemma obliged_modify_metrics f : obliged (modify_metrics f).
Proof. apply obliged_modify_relay. intros r. split_and!; [..|intros s]; by destruct r; try destruct s. Qed.

Lemma obliged_receive source writable : obliged (receive source writable).
Proof.
  intros w a w' Hw. unfold receive. pose proof (ob_receive _ _ HG (w_io w) (fd_for source (w_relay w)) (sp_length writable)) as Hio.
  destruct (io_receive _ _ _) as [[result bs] io]. destruct Hw as (Hap & Hfd & Hw).
  intros [= <- <-]. unfold kept. case_decide; destruct source, destination; (split; [exact Hap|split; [exact Hfd|intros ?; by apply Hio, Hw]]).
Qed.
Lemma obliged_send side data : obliged (send side data).
Proof.
  intros w a w' Hw. unfold send. pose proof (ob_send _ _ HG (w_io w) (fd_for side (w_relay w)) data) as Hio.
  destruct (io_send _ _ _) as [result io]. destruct Hw as (Hap & Hfd & Hw).
  intros [= <- <-]. case_decide; (split; [exact Hap|split; [exact Hfd|intros ?; by apply Hio, Hw]]).
Qed.

(** A side that is shut down is closed at once. *)
Lemma obliged_shutdown side (rest : M (World W) unit) :
  obliged rest →
  obliged (ok ← shutdown_write side;
           if (ok : bool) then (_ ← modify_relay (set_write_open side false); rest) else mret tt).
Proof.
  intros Hrest w a w' (Hap & Hfd & Hw). unfold mbind, M_bind, shutdown_write.
  pose proof (ob_shutdown _ _ HG (w_io w) (fd_for side (w_relay w))) as Hio.
  destruct (io_shutdown_write _ _) as [[] io]; cbn in *.
  - apply Hrest. unfold kept, apart in *. cbn.
    split_and!; [by destruct side|by destruct side, destination|].
    intros Ho. apply Hio; [|left]; destruct side, destination; cbn in *; auto; congruence.
  - intros [= <- <-]. unfold kept, apart in *. cbn. split_and!; [done..|]. intros Ho. apply Hio; auto.
Qed.

#[local] Hint Resolve obliged_ret obliged_gets obliged_lift obliged_modify_direction obliged_modify_metrics
  obliged_on_event obliged_out_of_fuel obliged_receive obliged_send : obliged.
#[local] Ltac fields := apply obliged_modify_relay; intros ?; split_and!; [..|intros []]; reflexivity.
#[local] Ltac step :=
  match goal with
  | |- obliged (shutdown_write Client ≫= _) => apply (obliged_shutdown Client)
  | |- obliged (shutdown_write Upstream ≫= _) => apply (obliged_shutdown Upstream)
  | |- obliged (_ ≫= _) => apply obliged_bind; [|intros ?]
  | |- obliged (match ?x with _ => _ end) => destruct x eqn:?
  | |- obliged _ => solve [auto with obliged | fields]
  end.
#[local] Ltac steps := repeat (step; cbv zeta).

Lemma obliged_run_op op now : obliged (run_op op now).
Proof.
  assert (Hread : ∀ source hint, obliged (handle_readable source hint now)).
  { intros source hint. unfold handle_readable. apply obliged_bind; [apply obliged_gets|]. intros r.
    generalize (Z.to_nat (high_water_bytes_ (backpressure (direction_from source r)))) as fuel.
    induction fuel as [|fuel IH]; cbn [handle_readable_loop]; unfold after_receive, observe_backpressure,
      note_half_closed_read, refresh_state, get_relay; steps; destruct source; fields. }
  assert (Hflush : ∀ destination, obliged (flush destination now)).
  { intros side. assert (Hloop : ∀ fuel, obliged (flush_loop fuel side now)).
    { induction fuel as [|fuel IH]; cbn [flush_loop]; unfold after_send, observe_backpressure,
        get_relay; steps. }
    unfold flush, check_lifecycle_faults, get_relay. steps; apply Hloop. }
  destruct op; cbn [run_op]; unfold mark_upstream_connected, refresh_state, propagate_half_closes, next_wake,
    desired_interest, get_relay; steps; auto with obliged.
Qed.
End obliged.

Lemma run_op_willing op now destination w u w' :
  willing destination w → winv w → run_op op now w = Ok (u, w') → willing destination w'.
Proof.
  intros [Hap Hwill] Hi Hop. pose proof (run_op_ok op now w Hi) as Hk. unfold keeps, runs in Hk.
  rewrite Hop in Hk. destruct Hk as (_ & E & _).
  assert (Hap' : apart (w_relay w')).
  { unfold apart in *. pose proof (evolves_fd _ _ _ Client E). pose proof (evolves_fd _ _ _ Upstream E). cbn in *. congruence. }
  split; [done|]. intros Ho. destruct (write_open destination (w_relay w)) eqn:Ho0.
  - destruct (Hwill eq_refl) as (G & HG & Hio). exists G. rewrite (evolves_fd _ _ _ _ E). split; [done|].
    by eapply (obliged_run_op destination _ G HG op now w u w').
  - destruct (obliged_run_op destination _ _ (obliging_none (fd_for destination (w_relay w))) op now w u w') as (_ & _ & Hno); [|done|by destruct Hno].
    split_and!; [done|done|]. by rewrite Ho0.
Qed.

Lemma relay_run_willing ops destination w traffic w' :
  winv w → relay_run ops w = Ok (traffic, w') →
  (willing destination w → willing destination w')
  ∧ (upstream_connecting_ (w_relay w') = true → upstream_connecting_ (w_relay w) = true).
Proof.
  revert w traffic. induction ops as [|[t op] ops IH]; intros w traffic Hi; cbn [relay_run]; [by intros [= _ <-]|].
  intros Hrun. apply bind_Ok in Hrun as ([u w1] & Hop & Hrun). apply bind_Ok in Hrun as ([traffic1 w2] & Hrest & [= _ <-]).
  pose proof (run_op_ok op t w Hi) as Hk. unfold keeps, runs in Hk. rewrite Hop in Hk.
  destruct Hk as (I1 & (ops' & _ & [_ _ _ [_ Hcon]]) & _). destruct (IH _ _ I1 Hrest) as [Ht Hc]. split.
  - intros Htk. apply Ht. by eapply run_op_willing.
  - intros Hw. apply Hcon, Hc, Hw.
Qed.

(** Turns never fail. *)
Lemma turns_return destination turns w :
  winv w → ∃ wakes w', take_turns destination turns w = Ok (wakes, w') ∧ w_wire w `prefix_of` w_wire w'.
Proof.
  revert w. induction turns as [|turn turns IH]; intros w Hi; cbn [take_turns]; [by eexists _, _|].
  pose proof (relay_run_ok (meanwhile turn) w Hi) as Hrun. apply succeeds_inv in Hrun as ([traffic w1] & -> & I1 & Hw1 & _).
  cbn. pose proof (flush_ok destination (pump_at turn) w1 I1) as Hf. unfold keeps in Hf.
  apply runs_inv in Hf as (result & w2 & Hf & I2 & (ops2 & Hw2 & _) & _). unfold pump, mbind, M_bind. rewrite Hf.
  pose proof (next_wake_ok destination (pump_at turn) w2 I2) as Hn. unfold keeps in Hn.
  apply runs_inv in Hn as (wake & w3 & -> & I3 & (ops3 & Hw3 & _) & _). cbn.
  destruct (IH w3 I3) as (wakes & w4 & -> & Hw4). eexists _, _. split; [done|].
  cbn in Hw2, Hw3. rewrite Hw3, Hw2, Hw1 in Hw4. by repeat apply prefix_app_l in Hw4.
Qed.

(** ** Draining *)

Lemma relay_run_app a b w traffic1 w1 traffic2 w2 :
  relay_run a w = Ok (traffic1, w1) → relay_run b w1 = Ok (traffic2, w2) →
  relay_run (a ++ b) w = Ok (traffic1 ++ traffic2, w2).
Proof.
  revert w traffic1. induction a as [|[t op] a IH]; intros w traffic1; cbn [relay_run app].
  { by intros [= <- <-]. }
  intros Ha Hb. apply bind_Ok in Ha as ([u w0] & Hop & Ha). apply bind_Ok in Ha as ([traffic w3] & Ha & [= <- <-]).
  rewrite Hop. cbn. rewrite (IH _ _ Ha Hb). cbn. by rewrite <-app_assoc.
Qed.

Lemma reached_run r io ops traffic w ops' traffic' w' :
  reached r io ops traffic w → relay_run ops' w = Ok (traffic', w') →
  reached r io (ops ++ ops') (traffic ++ traffic') w'.
Proof. unfold reached. apply relay_run_app. Qed.

Definition pump_ops (destination : Side) (t : Z) : list (Z * relay_op) :=
  [(t, OpFlush destination); (t, OpNextWake destination)].

Lemma pump_run destination t w wake w' :
  pump destination t w = Ok (wake, w') → ∃ traffic', relay_run (pump_ops destination t) w = Ok (traffic', w').
Proof.
  unfold pump, mbind, M_bind. intros Hp. destruct (flush destination t w) as [[result w1]| | |] eqn:Hf; try done.
  eexists. unfold pump_ops. cbn [relay_run run_op]. unfold mbind, M_bind. rewrite Hf. cbn. rewrite Hp. reflexivity.
Qed.

Lemma timely_more p t0 ops earliest more t :
  timely p t0 ops earliest → earliest ≤ t → Forall (λ o, clock_time o.1 ∧ o.1 ≤ t) more →
  timely p t0 (ops ++ more) t.
Proof.
  intros (Hb & Ht0 & Hops) He Hmore. split_and!; [done|lia|lia|]. apply Forall_app. split; [|done].
  eapply Forall_impl; [exact Hops|]. intros o [? ?]. split; [done|lia].
Qed.

Lemma reached_winv c p t0 r io ops traffic w : launched c p t0 r → reached r io ops traffic w → winv w.
Proof.
  intros Hl Hr. destruct (reached_ok _ _ _ _ _ _ _ _ Hl Hr) as (I & Hw & _). unfold winv. by rewrite Hw.
Qed.

Lemma reached_timed c p t0 r io ops traffic w s t :
  launched c p t0 r → reached r io ops traffic w → timely p t0 ops t →
  timed_bucket (direction_from s (w_relay w)) t.
Proof.
  intros Hl Hr Ht b Hb. by destruct (reached_bucket _ _ _ _ _ _ _ _ _ _ _ Hl Hr Ht Hb) as (? & ? & _).
Qed.

(** The queue never holds more than the high-water mark. *)
Lemma reached_size c p t0 r io ops traffic w s :
  launched c p t0 r → reached r io ops traffic w →
  0 ≤ size_ (queue (direction_from s (w_relay w))) ≤ high_water_bytes c.
Proof.
  intros Hl Hr. destruct (reached_ok _ _ _ _ _ _ _ _ Hl Hr) as (I & _ & _ & Hd).
  destruct (Hd s) as (es & Hs & _). pose proof (launched_fresh _ _ _ _ Hl) as Hf.
  destruct (fr_direction _ _ _ _ Hf s) as [Id _ _ Hhigh _ _ _].
  destruct (dir_steps_ok _ _ _ Id Hs) as [Id' Hst]. apply dir_static_high in Hst.
  rewrite <-Hhigh, <-Hst. pose proof (dv_high_water _ Id'). pose proof (qi_high_water _ (dv_queue _ Id')).
  pose proof (qi_size _ (dv_queue _ Id')). lia.
Qed.

(** What was received and what was sent, and what is queued in between. *)
Definition got (destination : Side) w : Z := Z.of_nat (length (wire_in (other destination) (w_wire w))).
Definition sent (destination : Side) w : Z := Z.of_nat (length (wire_out destination (w_wire w))).

Lemma reached_balance c p t0 r io ops traffic w destination :
  launched c p t0 r → reached r io ops traffic w →
  got destination w = sent destination w + size_ (queue (direction_from (other destination) (w_relay w))).
Proof.
  intros Hl Hr. destruct (reached_ok _ _ _ _ _ _ _ _ Hl Hr) as (I & Hw & _).
  pose proof (reached_stream _ _ _ _ _ _ _ _ (other destination) Hl Hr) as Hs.
  replace (other (other destination)) with destination in Hs by (by destruct destination).
  unfold got, sent. rewrite Hw, Hs, length_app, Nat2Z.inj_add, length_contents; [done|].
  apply (ri_dir _ _ I (other destination)).
Qed.

Lemma relay_run_counts ops w traffic w' destination :
  winv w → relay_run ops w = Ok (traffic, w') →
  got destination w ≤ got destination w' ∧ sent destination w ≤ sent destination w'.
Proof.
  intros Hi Hrun. pose proof (relay_run_ok ops w Hi) as Hok. rewrite Hrun in Hok.
  destruct Hok as (_ & Hw & _). unfold got, sent. rewrite Hw, wire_in_app, wire_out_app, !length_app. lia.
Qed.

(** The turns that suffice to get [target] bytes sent: [cap + 2] for each of
    them, and for the next one as many as the direction still needs. *)
Definition turns_left (destination : Side) (cap target : Z) w (k : Z) (open : bool) : Z :=
  (target - sent destination w - 1) * (cap + 2) + steps_left cap k open + 1.

Lemma turns_left_sent destination cap target w w' k open :
  sent destination w < sent destination w' → 0 ≤ k ≤ cap →
  turns_left destination cap target w' 0 false < turns_left destination cap target w k open.
Proof. intros. unfold turns_left, steps_left. destruct open; nia. Qed.

(** Between two pumps either a byte is sent, or the direction is not set back. *)
Lemma meanwhile_ready c p t0 r io ops traffic w destination more k open t target traffic' w' :
  let cap := high_water_bytes c in
  launched c p t0 r → reached r io ops traffic w → timely p t0 (ops ++ more) t → clock_time t →
  Forall (λ o, clock_time o.1 ∧ o.1 ≤ t) more →
  0 ≤ k ≤ cap → ready (direction_from (other destination) (w_relay w)) k open t →
  relay_run more w = Ok (traffic', w') →
  ∃ k' open', 0 ≤ k' ≤ cap ∧ ready (direction_from (other destination) (w_relay w')) k' open' t
    ∧ turns_left destination cap target w' k' open' ≤ turns_left destination cap target w k open.
Proof.
  intros cap Hl Hr Htm Ht Hmore Hk Hready Hrun. pose proof (reached_winv _ _ _ _ _ _ _ _ Hl Hr) as Hi.
  pose proof (reached_run _ _ _ _ _ _ _ _ Hr Hrun) as Hr'. pose proof (reached_winv _ _ _ _ _ _ _ _ Hl Hr') as Hi'.
  pose proof (relay_run_ok more w Hi) as Hok. rewrite Hrun in Hok. destruct Hok as (_ & Hw & _ & _ & Hd).
  destruct (Hd (other destination)) as (es & Hs & _ & Hout & Htimes).
  replace (other (other destination)) with destination in Hout by (by destruct destination).
  apply (f_equal (λ l, l.*1)) in Hout. rewrite timed_out_bytes, timed_writes_bytes in Hout.
  assert (Hsent : sent destination w' = sent destination w + Z.of_nat (length (dir_writes es))).
  { unfold sent. rewrite Hw, wire_out_app, length_app, Hout. lia. }
  destruct (dir_writes es) as [|b bs] eqn:Hwr.
  - exists k, open. split_and!; [lia|lia| |].
    + eapply (ready_steps _ es); [exact Hs|apply (ri_dir _ _ Hi)| |done| |done|done].
      * intros b Hb. destruct (reached_bucket c p t0 r io ops traffic w (other destination) t b) as (? & _); try done.
        destruct Htm as (? & ? & Hops). apply Forall_app in Hops as [Hops _]. done.
      * eapply Forall_impl; [exact Htimes|]. intros e (o & -> & Ho)%list_elem_of_fmap.
        rewrite Forall_forall in Hmore. by apply Hmore.
    + unfold turns_left. cbn in Hsent. rewrite Hsent. nia.
  - exists 0, false. split_and!; [lia|lia| |].
    + apply ready_start; [apply (ri_dir _ _ Hi')| |done]. apply timed_sound with t. by eapply reached_timed.
    + apply Z.lt_le_incl, turns_left_sent; [cbn in Hsent|]; lia.
Qed.

(** As long as something is queued, the destination is open. *)
Lemma reached_open c p t0 r io ops traffic w destination :
  launched c p t0 r → reached r io ops traffic w → half_close_after_bytes p = 0 →
  sent destination w < got destination w → write_open destination (w_relay w) = true.
Proof.
  intros Hl Hr Hhalf Hlt. destruct (write_open destination (w_relay w)) eqn:Ho; [done|]. exfalso.
  assert (Hloss : lossless p destination) by (by right).
  pose proof (reached_closed_empty _ _ _ _ _ _ _ _ _ Hl Hr Hloss Ho) as Hc.
  pose proof (reached_balance _ _ _ _ _ _ _ _ destination Hl Hr) as Hb.
  pose proof (ri_dir _ _ (reached_winv _ _ _ _ _ _ _ _ Hl Hr) (other destination)) as Id.
  rewrite <-length_contents, Hc in Hb by apply Id. cbn in Hb. lia.
Qed.

(** A pump leaves fewer turns, or everything has been sent. *)
Lemma pump_progress c p t0 r io ops traffic w destination k open t target wake w' :
  let cap := high_water_bytes c in
  let later := Z.max t (default t wake) in
  launched c p t0 r → reached r io ops traffic w → half_close_after_bytes p = 0 →
  (destination = Upstream → upstream_connecting_ (w_relay w) = false) → willing destination w →
  timely p t0 ops t → clock_time t → target ≤ got destination w →
  0 ≤ k ≤ cap → ready (direction_from (other destination) (w_relay w)) k open t →
  pump destination t w = Ok (wake, w') →
  ∃ k' open', 0 ≤ k' ≤ cap
    ∧ (∀ t', later ≤ t' → clock_time t' → ready (direction_from (other destination) (w_relay w')) k' open' t')
    ∧ (turns_left destination cap target w' k' open' ≤ 0
       ∨ turns_left destination cap target w' k' open' < turns_left destination cap target w k open).
Proof.
  intros cap later Hl Hr Hhalf Hcon [_ Hwill] Htm Ht Hgot Hk Hready Hpump.
  pose proof (reached_winv _ _ _ _ _ _ _ _ Hl Hr) as Hi. pose proof (ri_dir _ _ Hi (other destination)) as Id.
  destruct (pump_run _ _ _ _ _ Hpump) as [traffic' Hrun]. pose proof (reached_run _ _ _ _ _ _ _ _ Hr Hrun) as Hr'.
  destruct (relay_run_counts _ _ _ _ destination Hi Hrun) as [Hg Hs].
  assert (Hstart : ∀ t', later ≤ t' → clock_time t' → ready (direction_from (other destination) (w_relay w')) 0 false t').
  { intros t' Hle Ht'. apply ready_start; [apply (ri_dir _ _ (reached_winv _ _ _ _ _ _ _ _ Hl Hr'))| |done].
    apply timed_sound with later. eapply reached_timed; [exact Hl|exact Hr'|]. eapply timely_more; [done|lia|].
    unfold pump_ops. rewrite !Forall_cons, Forall_nil. cbn. split_and!; done || lia. }
  destruct (decide (sent destination w < target)) as [Hlt|Hge].
  2:{ exists 0, false. split_and!; [lia|lia|done|]. left. unfold turns_left, steps_left. nia. }
  assert (Ho : write_open destination (w_relay w) = true) by (eapply reached_open; [done..|lia]).
  assert (Hfl : flowing destination w).
  { destruct (reached_ok _ _ _ _ _ _ _ _ Hl Hr) as (_ & _ & Hst & _). split; [done..|by apply Hwill|].
    pose proof (fr_half_close _ _ _ _ (launched_fresh _ _ _ _ Hl)) as Hh. unfold relay_static in Hst.
    injection Hst as _ _ _ _ Hst _. congruence. }
  pose proof (pump_flows destination t w Hi Hfl) as Hp. unfold keeps, runs in Hp. rewrite Hpump in Hp.
  destruct Hp as (_ & _ & _ & Hcases). cbn [fst snd] in *. cbn zeta in Hcases.
  pose proof (reached_balance _ _ _ _ _ _ _ _ destination Hl Hr) as Hb.
  pose proof (reached_balance _ _ _ _ _ _ _ _ destination Hl Hr') as Hb'.
  pose proof (reached_size _ _ _ _ _ _ _ _ (other destination) Hl Hr) as Hsize. fold cap in Hsize.
  destruct Hcases as [Hless|[[Hz _]|(Hpos & Hblk & Hd & Hwake)]]; [|lia|].
  - exists 0, false. split_and!; [lia|lia|done|]. right. apply turns_left_sent; lia.
  - destruct (blocked_ready cap _ k open t Id) as (x & k' & open' & Hx & Hk0 & Hk' & Hstep & Hready'); try done.
    { by eapply reached_timed. }
    { lia. }
    exists k', open'. split_and!; [lia|lia| |right; unfold turns_left; nia].
    intros t' Hle Ht'. unfold later in Hle. rewrite Hwake, Hx in Hle. cbn in Hle. rewrite Hd. apply Hready'; [lia..|done].
Qed.

(** Each turn leaves fewer of them, until the bytes are sent. *)
Lemma turns_drain c p t0 r io destination turns earliest ops traffic w k open target wakes w' :
  let cap := high_water_bytes c in
  launched c p t0 r → reached r io ops traffic w → half_close_after_bytes p = 0 →
  (destination = Upstream → upstream_connecting_ (w_relay w) = false) → willing destination w →
  timely p t0 ops earliest → target ≤ got destination w → 0 ≤ k ≤ cap →
  (∀ t, earliest ≤ t → clock_time t → ready (direction_from (other destination) (w_relay w)) k open t) →
  turns_left destination cap target w k open ≤ Z.of_nat (length turns) →
  take_turns destination turns w = Ok (wakes, w') → honoured earliest turns wakes →
  ∃ ops' traffic', reached r io ops' traffic' w' ∧ target ≤ sent destination w'.
Proof.
  intros cap Hl Hr0 Hhalf. revert earliest ops traffic w k open wakes Hr0.
  induction turns as [|turn turns IH]; intros earliest ops traffic w k open wakes Hr Hcon Hwl Htm Hgot Hk Hready Hlen.
  { intros [= <- <-] _. exists ops, traffic. split; [done|]. cbn in Hlen. unfold turns_left, steps_left in Hlen.
    destruct open; nia. }
  cbn [take_turns]. intros Hrun. apply bind_Ok in Hrun as ([traffic1 w1] & Hmore & Hrun).
  apply bind_Ok in Hrun as ([wake w2] & Hpump & Hrun). apply bind_Ok in Hrun as ([wakes2 w3] & Hrest & [= <- <-]).
  set (t := pump_at turn) in *. intros (Ht & Hle & Hmw & Hhon). fold t in Ht, Hle, Hmw, Hhon.
  pose proof (timely_more _ _ _ _ _ t Htm Hle Hmw) as Htm1. pose proof (reached_winv _ _ _ _ _ _ _ _ Hl Hr) as Hi.
  pose proof (reached_run _ _ _ _ _ _ _ _ Hr Hmore) as Hr1. pose proof (reached_winv _ _ _ _ _ _ _ _ Hl Hr1) as Hi1.
  destruct (meanwhile_ready c p t0 r io ops traffic w destination (meanwhile turn) k open t target traffic1 w1)
    as (k1 & open1 & Hk1 & Hready1 & Hleft1); auto. fold cap in Hk1, Hleft1.
  destruct (relay_run_willing _ destination _ _ _ Hi Hmore) as [Hwl1 Hcon1].
  destruct (relay_run_counts _ _ _ _ destination Hi Hmore) as [Hg1 _].
  assert (Hcn1 : destination = Upstream → upstream_connecting_ (w_relay w1) = false).
  { intros Hd. specialize (Hcon Hd). destruct (upstream_connecting_ (w_relay w1)); [|done]. by rewrite Hcon1 in Hcon. }
  destruct (pump_progress c p t0 r io (ops ++ meanwhile turn) (traffic ++ traffic1) w1 destination k1 open1 t target wake w2)
    as (k2 & open2 & Hk2 & Hready2 & Hleft2); auto; [lia|].
  destruct (pump_run _ _ _ _ _ Hpump) as [traffic2 Hrun2].
  destruct (relay_run_willing _ destination _ _ _ Hi1 Hrun2) as [Hwl2 Hcon2].
  destruct (relay_run_counts _ _ _ _ destination Hi1 Hrun2) as [Hg2 _].
  eapply (IH (Z.max t (default t wake)) _ _ w2 k2 open2); eauto.
  - by eapply reached_run.
  - intros Hd. specialize (Hcn1 Hd). destruct (upstream_connecting_ (w_relay w2)); [|done]. by rewrite Hcon2 in Hcn1.
  - eapply timely_more; [done|lia|]. unfold pump_ops. rewrite !Forall_cons, Forall_nil. cbn. split_and!; done || lia.
  - lia.
  - fold cap in Hleft2. cbn [length] in Hlen. lia.
Qed.

End pumps.

(** ** Example: six bytes under a latency and a rate limit *)

(** A kernel whose sockets take two bytes at a time until they are shut down.
    What arrives comes in pieces; a receive blocks after each of them. *)
Record Peers := mkPeers { arriving : list (list byte); shut : list Z }.

Definition peers_recv (k : Peers) (fd n : Z) : (Z * Z * list byte) * Peers :=
  match arriving k with
  | (_ :: _) as piece :: rest =>
      let bs := take (Z.to_nat n) piece in
      ((Z.of_nat (length bs), 0, bs), mkPeers (drop (Z.to_nat n) piece :: rest) (shut k))
  | [] :: rest => ((-1, EAGAIN, []), mkPeers rest (shut k))
  | [] => ((-1, EAGAIN, []), k)
  end.

Definition peers_send (k : Peers) (fd : Z) (data : list byte) : (Z * Z) * Peers :=
  if decide (fd ∈ shut k) then ((-1, EPIPE), k) else ((Z.min 2 (Z.of_nat (length data)), 0), k).

Definition peers_shutdown (k : Peers) (fd : Z) : (Z * Z) * Peers := ((0, 0), mkPeers (arriving k) (fd :: shut k)).

#[export] Instance PeersKernel : SocketKernel Peers := {|
  sys_recv := peers_recv; sys_send := peers_send; sys_shutdown_wr := peers_shutdown; interruptions _ := 0%nat;
|}.

#[export] Instance PeersKernel_laws : SocketKernelLaws Peers.
Proof.
  split; cbn [sys_recv sys_send PeersKernel]; unfold peers_recv, peers_send.
  - intros [[|[|b piece] rest] sh] fd n count err bs k' Hn; cbn [arriving]; intros [= <- <- <- <-]; try (cbn; lia).
    rewrite length_take. lia.
  - intros [[|[|b piece] rest] sh] fd n count err bs k'; cbn [arriving]; intros [= <- <- <- <-]; try done; lia.
  - intros k fd bs count err k'. case_decide; intros [= <- <- <-]; lia.
  - intros k fd bs count err k'. case_decide; intros [= <- <- <-]; done || lia.
Qed.

Lemma peers_obliging fd : obliging (W := Peers) fd (λ k, fd ∉ shut k).
Proof.
  split.
  - intros k data Hk Hd. cbn. unfold system_send. cbn. unfold peers_send. rewrite decide_False by done.
    destruct data as [|b data]; [done|]. cbn [length]. by destruct (Z.ltb_spec 0 (Z.min 2 (Z.of_nat (S (length data))))); [|lia].
  - intros k fd' data Hk. cbn. unfold system_send. cbn. unfold peers_send. case_decide; [done|].
    destruct (0 <? _); [done|]. by repeat case_match.
  - intros [[|[|b piece] rest] sh] fd' n Hk; cbn in *; unfold system_receive; cbn; [done|done|].
    destruct (0 <? _); [done|]. by repeat case_match.
  - intros [ar sh] fd' Hk [Hne|Hf]; cbn in *; [|done]. rewrite not_elem_of_cons. by split.
Qed.

#[local] Existing Instance example_libc.

(** The client sends six bytes, and two more while the upstream is pumped. *)
Definition slow_peers : Peers := mkPeers [[x61; x62; x63; x64; x65; x66]; [x67; x68]] [].
Definition slow_ops : list (Z * relay_op) := [(1000, OpConnected); (2000, OpReadable Client false)].
Definition slow_traffic : list (Z * WireOp) := [(2000, WireIn Client [x61; x62; x63; x64; x65; x66])].
Definition slow_world : World Peers :=
  Eval vm_compute in match relay_run slow_ops (start example_relay slow_peers) with
                     | Ok (_, w) => w | _ => start example_relay slow_peers end.

(** A pump every ten milliseconds; before it the client is read, and the other
    direction is pumped. *)
Definition slow_turns : list Turn :=
  (λ i, let t := 10000000 + 10000000 * Z.of_nat i in
        mkTurn [(t - 2, OpReadable Client false); (t - 1, OpFlush Client)] t) <$> seq 0 60.

