(* ===== verification/ProxyConfig.v ===== *)
(** * The proxy's configuration (include/netfault/proxy.hpp, src/proxy/proxy.cpp)

    [ProxyConfig] and the checks of the constructor [Proxy::Proxy]. What they
    accept is exactly what the relays of the proxy rely on. *)

From Stdlib Require Import ZArith Lia Ascii String.
From stdpp Require Import base numbers list option strings pretty.
From S2P Require Import Prelude Text Endpoint ByteQueue Backpressure DelayLine TokenBucket.
From S2P Require Import FaultRng FaultPlan.
From S2P Require Import ConnectionState SocketIo Relay RelayRun.

Local Open Scope string_scope.
Local Open Scope Z_scope.

(** The fields of [ProxyConfig], prefixed since [RelayConfig] shares names. *)
Record ProxyConfig := mkProxyConfig {
  pc_listen : Endpoint;
  pc_upstream : Endpoint;
  pc_max_connections : Z;
  pc_buffer_bytes_per_direction : Z;
  pc_low_water_bytes : Z;
  pc_high_water_bytes : Z;
  pc_socket_buffer_bytes : Z;
  pc_connect_timeout : Z;   (* milliseconds *)
  pc_idle_timeout : Z;      (* milliseconds *)
  pc_metrics_file : string;
  pc_faults : FaultPlan;
  pc_allow_non_loopback_listen : bool;
  pc_allow_non_loopback_upstream : bool;
}.

Definition default_ProxyConfig : ProxyConfig :=
  mkProxyConfig (mkEndpoint "127.0.0.1" 8080) (mkEndpoint "127.0.0.1" 9000) 256 65536 32768 65536 0 0 0 ""
    default_FaultPlan false false.

Section config.
Context `{Inet}.

(** [Proxy::Proxy]: the checks in their order. *)
Definition check_config (c : ProxyConfig) : outcome unit :=
  _ ← throw_if (pc_max_connections c =? 0) (InvalidArgument "max_connections must be positive");
  _ ← throw_if ((pc_buffer_bytes_per_direction c <? 1024)
                || (16 * 1024 * 1024 <? pc_buffer_bytes_per_direction c))
        (InvalidArgument "buffer_bytes_per_direction must be between 1024 and 16777216");
  _ ← throw_if ((pc_high_water_bytes c <=? pc_low_water_bytes c)
                || (pc_buffer_bytes_per_direction c <? pc_high_water_bytes c))
        (InvalidArgument "watermarks must satisfy 0 <= low_water_bytes < high_water_bytes <= buffer_bytes");
  _ ← throw_if (negb (pc_socket_buffer_bytes c =? 0)
                && ((pc_socket_buffer_bytes c <? 1024) || (1024 * 1024 <? pc_socket_buffer_bytes c)))
        (InvalidArgument "socket_buffer_bytes must be 0 (kernel default) or between 1024 and 1048576");
  _ ← throw_if ((pc_connect_timeout c <? 0) || (pc_idle_timeout c <? 0)
                || (600000 <? pc_connect_timeout c) || (600000 <? pc_idle_timeout c))
        (InvalidArgument "timeouts must be between 0 (disabled) and 600000 ms");
  _ ← validate (pc_faults c);
  listen_loopback ← is_loopback (pc_listen c);
  _ ← throw_if (negb listen_loopback && negb (pc_allow_non_loopback_listen c))
        (InvalidArgument "non-loopback listen requires --unsafe-allow-non-loopback-listen");
  upstream_loopback ← is_loopback (pc_upstream c);
  _ ← throw_if (negb upstream_loopback && negb (pc_allow_non_loopback_upstream c))
        (InvalidArgument "non-loopback upstream requires --unsafe-allow-non-loopback-upstream");
  Ok tt.

(** The [RelayConfig] that [accept_ready] builds for each connection. *)
Definition relay_config (c : ProxyConfig) : RelayConfig :=
  mkRelayConfig (pc_buffer_bytes_per_direction c) (pc_low_water_bytes c) (pc_high_water_bytes c).

(** The field types. *)
Record config_typed (c : ProxyConfig) : Prop := mkConfigTyped {
  ct_max : is_u64 (pc_max_connections c);
  ct_buffer : is_u64 (pc_buffer_bytes_per_direction c);
  ct_low : is_u64 (pc_low_water_bytes c);
  ct_high : is_u64 (pc_high_water_bytes c);
  ct_socket : is_u64 (pc_socket_buffer_bytes c);
  ct_faults : plan_typed (pc_faults c);
}.

Definition may_use (e : Endpoint) (allowed : bool) : Prop :=
  is_Some (inet_pton (c_str (host e))) ∧ (loopback_address e ∨ allowed = true).

(** What an accepted configuration satisfies. *)
Record valid_proxy_config (c : ProxyConfig) : Prop := mkValidProxyConfig {
  vpc_max : 0 < pc_max_connections c;
  vpc_buffer : 1024 ≤ pc_buffer_bytes_per_direction c ≤ 16777216;
  vpc_water : 0 ≤ pc_low_water_bytes c < pc_high_water_bytes c;
  vpc_high : pc_high_water_bytes c ≤ pc_buffer_bytes_per_direction c;
  vpc_socket : pc_socket_buffer_bytes c = 0 ∨ 1024 ≤ pc_socket_buffer_bytes c ≤ 1048576;
  vpc_connect : 0 ≤ pc_connect_timeout c ≤ 600000;
  vpc_idle : 0 ≤ pc_idle_timeout c ≤ 600000;
  vpc_faults : valid_plan (pc_faults c);
  vpc_listen : may_use (pc_listen c) (pc_allow_non_loopback_listen c);
  vpc_upstream : may_use (pc_upstream c) (pc_allow_non_loopback_upstream c);
}.

Lemma valid_relay_config c : valid_proxy_config c → valid_config (relay_config c).
Proof. intros []. split; cbn; lia. Qed.

(** Checking one endpoint. *)
Lemma loopback_check `{!InetLaws} e allowed what (k : outcome unit) :
  (b ← is_loopback e; _ ← throw_if (negb b && negb allowed) (InvalidArgument what); k) = Ok tt
  ↔ may_use e allowed ∧ k = Ok tt.
Proof.
  unfold may_use, loopback_address. destruct (inet_pton (c_str (host e))) as [a|] eqn:Ha.
  - rewrite (is_loopback_ok e a Ha). cbn [mbind outcome_bind]. rewrite throw_if_Ok.
    destruct (bool_decide_reflect (2130706432 ≤ a ≤ 2147483647)) as [Hin|Hout]; cbn.
    + split; [intros [_ ?]; eauto 10|by intros [_ ?]].
    + destruct allowed; cbn; [split; [intros [_ ?]|intros [_ ?]]; eauto|].
      split; [by intros [? _]|]. intros [[_ [(x & [= <-] & ?)|?]] _]; done || lia.
  - unfold is_loopback, to_sockaddr. rewrite Ha. split; [done|]. by intros [[[? ?] _] _].
Qed.

Lemma check_config_exactly `{!InetLaws} c :
  config_typed c → (check_config c = Ok tt ↔ valid_proxy_config c).
Proof.
  intros [Hmax Hbuf Hlow Hhigh Hsock Hplan]. unfold is_u64 in *.
  unfold check_config. rewrite !throw_if_Ok.
  assert (Hval : ∀ k : unit → outcome unit, (validate (pc_faults c) ≫= k) = Ok tt
                   ↔ valid_plan (pc_faults c) ∧ k tt = Ok tt).
  { intros k. rewrite <-validate_Ok by done. destruct (validate (pc_faults c)) as [[]| | |]; cbn; try tauto;
      (split; [done|by intros [? _]]). }
  rewrite Hval, !loopback_check, !orb_false_iff, andb_false_iff, negb_false_iff, orb_false_iff.
  rewrite !Z.ltb_ge, Z.leb_gt, Z.eqb_eq, Z.eqb_neq.
  split.
  - intros (H1 & H2 & H3 & H4 & H5 & H6 & H7 & H8 & _). by split; try lia.
  - intros []. split_and!; done || lia.
Qed.
End config.

(** ** Example: a non-loopback upstream *)

#[local] Existing Instance example_inet.
#[local] Existing Instance example_inet_laws.

Definition example_config (allowed : bool) : ProxyConfig :=
  mkProxyConfig (mkEndpoint "127.0.0.1" 8080) (mkEndpoint "10.0.0.1" 80) 256 65536 32768 65536 0 5000 60000 ""
    example_plan false allowed.

Lemma example_config_typed allowed : config_typed (example_config allowed).
Proof. split; try (unfold is_u64; cbn; lia). split; unfold is_u64; cbn; lia. Qed.

