(* ===== verification/Proxy.v ===== *)
(** * The proxy's event loop: state and operations (src/proxy/proxy.cpp)

    [ProxyRuntime] is the state the event loop owns: the connection table, the
    bindings from epoll tokens to sockets, the timer queue and the counters. Its
    methods run in the state monad over a [ProxyWorld], which adds the sockets
    the relays use ([W]), the system calls of the loop itself ([E]), the stream
    the logger writes to ([Out]), and three records kept for the specification:
    the logged events, the system calls with their replies, and what happened to
    the connections.

    The relay's methods do not look at the clock, at epoll or at the log, so the
    order of their socket calls relative to the log lines they cause is not
    observable to them; the lines are written when the method returns. *)

From Stdlib Require Import ZArith Lia Init.Byte Ascii String.
From stdpp Require Import base numbers list option strings pretty gmap.
From S2P Require Import Prelude Text Endpoint ByteQueue Backpressure DelayLine TokenBucket.
From S2P Require Import FaultRng FaultPlan.
From S2P Require Import ConnectionState TimerQueue SocketIo Relay Logger RelayReport.
From S2P Require Import ProxyConfig.

Local Open Scope Z_scope.

Definition kListenerToken : Z := 1.
Definition kSignalToken : Z := 2.
Definition kTimerToken : Z := 3.

(** The bits of <sys/epoll.h>, and the error and signal numbers used. *)
Definition EPOLLIN : Z := 1.
Definition EPOLLOUT : Z := 4.
Definition EPOLLERR : Z := 8.
Definition EPOLLHUP : Z := 16.
Definition EPOLLRDHUP : Z := 8192.
Definition ENOENT : Z := 2.
Definition EINPROGRESS : Z := 115.
Definition SIGUSR1 : Z := 10.
Definition SO_SNDBUF : Z := 7.
Definition SO_RCVBUF : Z := 8.
(** [sizeof(signalfd_siginfo)] *)
Definition siginfo_size : Z := 128.

(** [(events & flags) != 0U] *)
Definition has (events flags : Z) : bool := negb (Z.land events flags =? 0).

Definition to_epoll_mask (interest : InterestSet) : Z :=
  let events := Z.lor EPOLLERR EPOLLHUP in
  let events := if interest_read interest then Z.lor events (Z.lor EPOLLIN EPOLLRDHUP) else events in
  if interest_write interest then Z.lor events EPOLLOUT else events.

(** ** Data *)

(** [conn_traffic] records, for the specification, the relay's socket traffic
    with the time of the call that performed it. *)
Record Connection := mkConnection {
  conn_id : Z;
  client_fd : Z;
  upstream_fd : Z;
  client_token : Z;
  upstream_token : Z;
  client_mask : Z;
  upstream_mask : Z;
  scheduled_wake : option Z;
  relay : Relay;
  conn_traffic : list (Z * WireOp);
}.

Record SocketBinding := mkSocketBinding { binding_connection : Z; binding_side : Side }.

#[global] Instance SocketBinding_eq_dec : EqDecision SocketBinding.
Proof. solve_decision. Defined.

Record ProxyRuntime := mkProxyRuntime {
  logger_ : Logger;
  timer_queue_ : TimerQueue;
  last_armed_deadline_ : option Z;
  next_connection_id_ : Z;
  next_token_ : Z;
  closes_fully_closed_ : Z;
  closes_reset_ : Z;
  closes_failed_ : Z;
  closes_timed_out_ : Z;
  connections_ : gmap Z Connection;
  bindings_ : gmap Z SocketBinding;
}.

Definition initial_runtime : ProxyRuntime :=
  mkProxyRuntime (mkLogger 0) empty_TimerQueue None 1 4 0 0 0 0 ∅ ∅.

Definition set_masks (client upstream : Z) (c : Connection) : Connection :=
  mkConnection (conn_id c) (client_fd c) (upstream_fd c) (client_token c) (upstream_token c) client upstream
    (scheduled_wake c) (relay c) (conn_traffic c).
Definition set_mask (side : Side) (mask : Z) (c : Connection) : Connection :=
  match side with
  | Client => set_masks mask (upstream_mask c) c
  | Upstream => set_masks (client_mask c) mask c
  end.
Definition set_scheduled_wake (w : option Z) (c : Connection) : Connection :=
  mkConnection (conn_id c) (client_fd c) (upstream_fd c) (client_token c) (upstream_token c) (client_mask c)
    (upstream_mask c) w (relay c) (conn_traffic c).
Definition set_conn_relay (r : Relay) (traffic : list (Z * WireOp)) (c : Connection) : Connection :=
  mkConnection (conn_id c) (client_fd c) (upstream_fd c) (client_token c) (upstream_token c) (client_mask c)
    (upstream_mask c) (scheduled_wake c) r traffic.

Definition set_logger (v : Logger) (r : ProxyRuntime) : ProxyRuntime :=
  mkProxyRuntime v (timer_queue_ r) (last_armed_deadline_ r) (next_connection_id_ r) (next_token_ r)
    (closes_fully_closed_ r) (closes_reset_ r) (closes_failed_ r) (closes_timed_out_ r) (connections_ r) (bindings_ r).
Definition set_timer_queue (v : TimerQueue) (r : ProxyRuntime) : ProxyRuntime :=
  mkProxyRuntime (logger_ r) v (last_armed_deadline_ r) (next_connection_id_ r) (next_token_ r)
    (closes_fully_closed_ r) (closes_reset_ r) (closes_failed_ r) (closes_timed_out_ r) (connections_ r) (bindings_ r).
Definition set_last_armed_deadline (v : option Z) (r : ProxyRuntime) : ProxyRuntime :=
  mkProxyRuntime (logger_ r) (timer_queue_ r) v (next_connection_id_ r) (next_token_ r)
    (closes_fully_closed_ r) (closes_reset_ r) (closes_failed_ r) (closes_timed_out_ r) (connections_ r) (bindings_ r).
Definition set_next_ids (id token : Z) (r : ProxyRuntime) : ProxyRuntime :=
  mkProxyRuntime (logger_ r) (timer_queue_ r) (last_armed_deadline_ r) id token
    (closes_fully_closed_ r) (closes_reset_ r) (closes_failed_ r) (closes_timed_out_ r) (connections_ r) (bindings_ r).
Definition set_closes (fully reset failed timed_out : Z) (r : ProxyRuntime) : ProxyRuntime :=
  mkProxyRuntime (logger_ r) (timer_queue_ r) (last_armed_deadline_ r) (next_connection_id_ r) (next_token_ r)
    fully reset failed timed_out (connections_ r) (bindings_ r).
Definition set_connections (v : gmap Z Connection) (r : ProxyRuntime) : ProxyRuntime :=
  mkProxyRuntime (logger_ r) (timer_queue_ r) (last_armed_deadline_ r) (next_connection_id_ r) (next_token_ r)
    (closes_fully_closed_ r) (closes_reset_ r) (closes_failed_ r) (closes_timed_out_ r) v (bindings_ r).
Definition set_bindings (v : gmap Z SocketBinding) (r : ProxyRuntime) : ProxyRuntime :=
  mkProxyRuntime (logger_ r) (timer_queue_ r) (last_armed_deadline_ r) (next_connection_id_ r) (next_token_ r)
    (closes_fully_closed_ r) (closes_reset_ r) (closes_failed_ r) (closes_timed_out_ r) (connections_ r) v.

(** The [switch] of [close_connection]. *)
Definition count_close (final_state : ConnectionState) (r : ProxyRuntime) : ProxyRuntime :=
  match final_state with
  | Reset => set_closes (closes_fully_closed_ r) (u64_succ (closes_reset_ r)) (closes_failed_ r) (closes_timed_out_ r) r
  | Failed => set_closes (closes_fully_closed_ r) (closes_reset_ r) (u64_succ (closes_failed_ r)) (closes_timed_out_ r) r
  | TimedOut => set_closes (closes_fully_closed_ r) (closes_reset_ r) (closes_failed_ r) (u64_succ (closes_timed_out_ r)) r
  | _ => set_closes (u64_succ (closes_fully_closed_ r)) (closes_reset_ r) (closes_failed_ r) (closes_timed_out_ r) r
  end.

(** [unordered_map::emplace]: an existing entry is kept. *)
Definition emplace {A} (k : Z) (v : A) (m : gmap Z A) : gmap Z A :=
  match m !! k with Some _ => m | None => <[k := v]> m end.

(** The order in which an [unordered_map] is iterated is unspecified. *)
Class UnorderedMap := { map_order : gmap Z Connection → list Z }.

Class UnorderedMapLaws `{UnorderedMap} : Prop :=
  map_order_permutation m : map_order m ≡ₚ (map_to_list m).*1.

(** ** The system calls of the proxy *)

Inductive EpollOp := EpollAdd | EpollMod | EpollDel.

Inductive Call :=
  | Accept
  | OpenSocket
  | SetSocketBuffer (fd option_name size : Z)
  | Connect (fd : Z) (address : sockaddr_in)
  | GetSocketError (fd : Z)
  | EpollCtl (op : EpollOp) (fd mask token : Z)
  | EpollWait
  | SetTimer (seconds nanoseconds : Z)
  | ReadTimer
  | ReadSignal
  | CloseFd (fd : Z)
  | SteadyNow
  | SystemNow
  | OpenFile (path : string)
  | WriteFile (fd : Z) (data : string)
  | Rename (from to : string)
  | OpenListener
  | ReuseAddress (fd : Z)
  | BindListener (fd : Z) (address : sockaddr_in)
  | ListenOn (fd backlog : Z)
  | FillSignalSet
  | BlockSignals
  | OpenSignalFd
  | OpenTimerFd
  | OpenEpoll
  | GetOutputFlags
  | SetOutputFlags (flags : Z).

(** The result, errno, the value stored through a pointer (SO_ERROR, the signal
    number) or the clock in nanoseconds, and the epoll events: mask and token. *)
Record Reply := mkReply {
  ret : Z;
  errno : Z;
  value : Z;
  ready : list (Z * Z);
}.

Class Kernel (E : Type) := {
  syscall : E → Call → Reply * E;
  pending : E → nat;
}.

(** After such a reply the loop repeats the call. *)
Definition repeats (c : Call) (r : Reply) : bool :=
  match c with
  | Accept => (0 <=? ret r) || (errno r =? EINTR)
  | ReadTimer | ReadSignal => (ret r <? 0) && (errno r =? EINTR)
  | WriteFile _ _ => (ret r <? 0) && (errno r =? EINTR)
  | _ => false
  end.

(** [pending] bounds the connections and the interruptions still to come; a
    [write] reports at most the bytes it was given, and at least one; [clock] is
    the latest reading of the steady clock, whose readings never decrease. *)
Class KernelLaws (E : Type) `{Kernel E} := {
  clock : E → Z;
  pending_le e c r e' : syscall e c = (r, e') → (pending e' ≤ pending e)%nat;
  pending_lt e c r e' : syscall e c = (r, e') → repeats c r = true → (pending e' < pending e)%nat;
  write_count e fd data r e' :
    syscall e (WriteFile fd data) = (r, e') → data ≠ "" → ret r < 0 ∨ 0 < ret r ≤ string_size data;
  clock_read e r e' : syscall e SteadyNow = (r, e') → clock e ≤ value r ∧ clock e' = value r;
  clock_other e c r e' : syscall e c = (r, e') → c ≠ SteadyNow → clock e' = clock e;
}.

(** ** The world of the loop *)

Record LogRecord := mkLogRecord {
  log_name : string;
  log_connection : Z;
  log_state : string;
  log_detail : string;
}.

(** What happens to the connections: one is entered in the table, its relay moves
    bytes or shuts a side down, it is removed from the table. *)
Inductive PipeEvent :=
  | Opened (id : Z)
  | Moved (id : Z) (op : WireOp)
  | Ended (id : Z).

Record ProxyWorld (W E Out : Type) := mkProxyWorld {
  pw_runtime : ProxyRuntime;
  pw_io : W;
  pw_env : E;
  pw_out : Out;
  pw_log : list LogRecord;          (* oldest first *)
  pw_trace : list (Call * Reply);   (* oldest first *)
  pw_history : list PipeEvent;      (* oldest first *)
}.
Arguments mkProxyWorld {W E Out} _ _ _ _ _ _ _.
Arguments pw_runtime {W E Out} _.
Arguments pw_io {W E Out} _.
Arguments pw_env {W E Out} _.
Arguments pw_out {W E Out} _.
Arguments pw_log {W E Out} _.
Arguments pw_trace {W E Out} _.
Arguments pw_history {W E Out} _.

Section proxy.
Context {W E Out : Type} `{SocketIo W} `{Kernel E} `{Output Out}.
Context `{Libc} `{Inet} `{UnorderedMap}.
Context (config : ProxyConfig).

Abbreviation PW := (ProxyWorld W E Out).
Abbreviation PM := (M PW).

Definition sys (c : Call) : PM Reply := λ s,
  let '(r, e) := syscall (pw_env s) c in
  Ok (r, mkProxyWorld (pw_runtime s) (pw_io s) e (pw_out s) (pw_log s) (pw_trace s ++ [(c, r)])
       (pw_history s)).

Definition get_runtime : PM ProxyRuntime := gets pw_runtime.
Definition set_runtime (r : ProxyRuntime) (s : PW) : PW :=
  mkProxyWorld r (pw_io s) (pw_env s) (pw_out s) (pw_log s) (pw_trace s) (pw_history s).
Definition modify_runtime (f : ProxyRuntime → ProxyRuntime) : PM unit :=
  modify (λ s, set_runtime (f (pw_runtime s)) s).

(** [logger_.event(...)] at the given wall-clock time. *)
Definition write_log (now : Z) (record : LogRecord) : PM unit := λ s,
  '(l, o) ← Logger.event (logger_ (pw_runtime s)) (pw_out s) (to_milliseconds now)
              (log_name record) (log_connection record) (log_state record) (log_detail record);
  Ok (tt, mkProxyWorld (set_logger l (pw_runtime s)) (pw_io s) (pw_env s) o
            (pw_log s ++ [record]) (pw_trace s) (pw_history s)).

Definition log_event (name : string) (connection : Z) (state detail : string) : PM unit :=
  now ← sys SystemNow;
  write_log (value now) (mkLogRecord name connection state detail).

Definition steady_now : PM Z := r ← sys SteadyNow; mret (value r).
Definition close_fd (fd : Z) : PM unit := _ ← sys (CloseFd fd); mret tt.

(** ** Connections *)

(** [connections_.emplace] and [connections_.erase]. *)
Definition note (event : PipeEvent) (s : PW) : PW :=
  mkProxyWorld (pw_runtime s) (pw_io s) (pw_env s) (pw_out s) (pw_log s) (pw_trace s) (pw_history s ++ [event]).
Definition emplace_connection (id : Z) (connection : Connection) : PM unit := λ s,
  let r := pw_runtime s in
  match connections_ r !! id with
  | Some _ => Ok (tt, s)
  | None => Ok (tt, note (Opened id) (set_runtime (set_connections (<[id := connection]> (connections_ r)) r) s))
  end.
Definition erase_connection (id : Z) : PM unit := λ s,
  let r := pw_runtime s in
  match connections_ r !! id with
  | Some _ => Ok (tt, note (Ended id) (set_runtime (set_connections (delete id (connections_ r)) r) s))
  | None => Ok (tt, s)
  end.

(** A reference to a connection that is no longer in the table dangles. *)
Definition connection_at (id : Z) : PM Connection := λ s,
  match connections_ (pw_runtime s) !! id with Some c => Ok (c, s) | None => Undefined end.
Definition update_connection (id : Z) (f : Connection → Connection) : PM unit :=
  modify_runtime (λ r, set_connections (alter f id (connections_ r)) r).

(** [ConnectionLogObserver::on_event], for the events of one relay call. *)
Fixpoint forward_events (id : Z) (events : list RelayEvent) : PM unit :=
  match events with
  | [] => mret tt
  | e :: events =>
      _ ← log_event (event_name e) id (state_name (event_state e)) (event_detail e);
      forward_events id events
  end.

(** A method of the relay of connection [id], on the sockets; the result comes
    with the events passed to the observer. *)
Definition run_relay {A} (id now : Z) (method : M (World W) A) (c : Connection) : PM (A * list RelayEvent) :=
  λ s,
    '(a, w) ← method (mkWorld (relay c) (pw_io s) [] (conn_traffic c).*2);
    let ops := drop (length (conn_traffic c)) (w_wire w) in
    let traffic := conn_traffic c ++ map (pair now) ops in
    let connections := <[id := set_conn_relay (w_relay w) traffic c]> (connections_ (pw_runtime s)) in
    Ok ((a, w_events w),
        mkProxyWorld (set_connections connections (pw_runtime s)) (w_io w) (pw_env s) (pw_out s)
          (pw_log s) (pw_trace s) (pw_history s ++ map (Moved id) ops)).

Definition on_relay {A} (id now : Z) (method : M (World W) A) : PM A :=
  c ← connection_at id;
  '(a, events) ← run_relay id now method c;
  _ ← forward_events id events;
  mret a.

Definition add_epoll (fd events token : Z) : PM unit :=
  r ← sys (EpollCtl EpollAdd fd events token);
  if ret r <? 0 then lift (Throw (RuntimeError ("epoll_ctl(ADD): " +:+ strerror (errno r)))) else mret tt.

Definition modify_epoll (fd events token : Z) : PM unit :=
  r ← sys (EpollCtl EpollMod fd events token);
  if (ret r <? 0) && negb (errno r =? ENOENT)
  then lift (Throw (RuntimeError ("epoll_ctl(MOD): " +:+ strerror (errno r)))) else mret tt.

(** Destroying the [Connection] closes its descriptors, upstream first. *)
Definition close_connection (id : Z) (final_state : ConnectionState) (detail : string) (now : Z) : PM unit :=
  runtime ← get_runtime;
  match connections_ runtime !! id with
  | None => mret tt
  | Some connection =>
      _ ← sys (EpollCtl EpollDel (client_fd connection) 0 0);
      _ ← sys (EpollCtl EpollDel (upstream_fd connection) 0 0);
      _ ← modify_runtime (λ r, set_bindings (delete (upstream_token connection)
                                 (delete (client_token connection) (bindings_ r))) r);
      let detail := detail +:+ close_detail (relay connection) now in
      _ ← log_event "connection_closed" (conn_id connection) (state_name final_state) detail;
      _ ← modify_runtime (count_close final_state);
      _ ← erase_connection id;
      _ ← close_fd (upstream_fd connection);
      close_fd (client_fd connection)
  end.

Definition apply_interest (id : Z) (side : Side) (now : Z) : PM unit :=
  interest ← on_relay id now (desired_interest side now);
  let mask := to_epoll_mask interest in
  connection ← connection_at id;
  let cached := match side with Client => client_mask connection | Upstream => upstream_mask connection end in
  if mask =? cached then mret tt
  else
    _ ← update_connection id (set_mask side mask);
    modify_epoll (match side with Client => client_fd connection | Upstream => upstream_fd connection end) mask
      (match side with Client => client_token connection | Upstream => upstream_token connection end).

Definition refresh_or_close (id now : Z) : PM unit :=
  runtime ← get_runtime;
  match connections_ runtime !! id with
  | None => mret tt
  | Some connection =>
      if fully_drained (relay connection) then
        close_connection id FullyClosed "orderly_shutdown" now
      else
        _ ← apply_interest id Client now;
        apply_interest id Upstream now
  end.

(** [!wake || *candidate < *wake] *)
Definition take_earlier (candidate wake : option Z) : option Z :=
  match candidate, wake with
  | None, _ => wake
  | Some _, None => candidate
  | Some c, Some w => if c <? w then candidate else wake
  end.

Definition schedule_relay_wake (id now : Z) : PM unit :=
  runtime ← get_runtime;
  match connections_ runtime !! id with
  | None => mret tt
  | Some connection =>
      candidate ← on_relay id now (next_wake Upstream now);
      let wake := take_earlier candidate None in
      candidate ← on_relay id now (next_wake Client now);
      let wake := take_earlier candidate wake in
      match wake with
      | None => mret tt
      | Some w =>
          if match scheduled_wake connection with None => true | Some s => w <? s end then
            _ ← modify_runtime (λ r, set_timer_queue (schedule (timer_queue_ r) w (conn_id connection) Pump) r);
            update_connection id (set_scheduled_wake (Some w))
          else mret tt
      end
  end.

(** Flushes a destination; [true] when the relay asked for the connection to be
    closed. *)
Definition flush_destination (id : Z) (destination : Side) (now : Z) : PM bool :=
  result ← on_relay id now (flush destination now);
  match pump_status result with
  | CloseConnection =>
      _ ← close_connection id (final_state result) (reason result) now;
      mret true
  | Continue => mret false
  end.

Definition pump_connection (id now : Z) : PM unit :=
  runtime ← get_runtime;
  match connections_ runtime !! id with
  | None => mret tt
  | Some connection =>
      closed ← (if negb (upstream_connecting_ (relay connection)) then
                  closed ← flush_destination (conn_id connection) Upstream now;
                  if (closed : bool) then mret true else flush_destination (conn_id connection) Client now
                else mret false);
      if (closed : bool) then mret tt
      else
        _ ← on_relay id now propagate_half_closes;
        _ ← refresh_or_close (conn_id connection) now;
        schedule_relay_wake id now
  end.

(** ** Socket events *)

(** The completion of the upstream's [connect]; [true] when it failed. *)
Definition finish_connect (id : Z) (side : Side) (events now : Z) : PM bool :=
  connection ← connection_at id;
  if bool_decide (side = Upstream) && upstream_connecting_ (relay connection) && has events EPOLLOUT then
    r ← sys (GetSocketError (upstream_fd connection));
    let socket_error := if ret r <? 0 then 0 else value r in
    if (ret r <? 0) || negb (socket_error =? 0) then
      let error := if negb (socket_error =? 0) then socket_error else errno r in
      _ ← close_connection (conn_id connection) Failed ("upstream_connect=" +:+ strerror error) now;
      mret true
    else
      _ ← on_relay id now mark_upstream_connected;
      _ ← log_event "upstream_connected" (conn_id connection) "active" "";
      mret false
  else mret false.

(** A pending socket error closes the connection. *)
Definition check_socket_error (id : Z) (side : Side) (events now : Z) : PM bool :=
  connection ← connection_at id;
  if has events EPOLLERR && negb (upstream_connecting_ (relay connection)) then
    r ← sys (GetSocketError (match side with Client => client_fd connection | Upstream => upstream_fd connection end));
    let socket_error := if ret r <? 0 then 0 else value r in
    if (ret r =? 0) && negb (socket_error =? 0) then
      _ ← close_connection (conn_id connection) (if socket_error =? ECONNRESET then Reset else Failed)
            (strerror socket_error) now;
      mret true
    else mret false
  else mret false.

Definition read_ready (id : Z) (side : Side) (events now : Z) : PM bool :=
  connection ← connection_at id;
  let readable_event := has events (Z.lor EPOLLIN (Z.lor EPOLLRDHUP EPOLLHUP)) in
  let hangup_hint := has events (Z.lor EPOLLRDHUP EPOLLHUP) in
  if readable_event && negb (bool_decide (side = Upstream) && upstream_connecting_ (relay connection)) then
    result ← on_relay id now (handle_readable side hangup_hint now);
    match pump_status result with
    | CloseConnection =>
        _ ← close_connection (conn_id connection) (final_state result) (reason result) now;
        mret true
    | Continue => mret false
    end
  else mret false.

Definition socket_ready (token events : Z) : PM unit :=
  runtime ← get_runtime;
  match bindings_ runtime !! token with
  | None => mret tt
  | Some binding =>
      let id := binding_connection binding in
      match connections_ runtime !! id with
      | None => mret tt
      | Some connection =>
          now ← steady_now;
          closed ← finish_connect id (binding_side binding) events now;
          if (closed : bool) then mret tt else
          closed ← check_socket_error id (binding_side binding) events now;
          if (closed : bool) then mret tt else
          closed ← read_ready id (binding_side binding) events now;
          if (closed : bool) then mret tt else
          pump_connection (conn_id connection) now
      end
  end.
End proxy.
