(* ===== verification/ProxySetup.v ===== *)
(** * Setting the proxy up (src/proxy/proxy.cpp, the constructor of ProxyRuntime)

    The logger, the listener, the signal, timer and epoll descriptors are created in the
    order of the members; when one of the calls fails an exception leaves the
    constructor and the members built so far are destroyed, the last one first.
    The closes of their [UniqueFd]s are written out. *)

From Stdlib Require Import ZArith Lia Ascii String.
From stdpp Require Import base numbers list option strings pretty gmap.
From S2P Require Import Prelude Text Endpoint ByteQueue Backpressure DelayLine TokenBucket.
From S2P Require Import FaultRng FaultPlan.
From S2P Require Import ConnectionState TimerQueue SocketIo Relay Logger RelayReport.
From S2P Require Import ProxyConfig Proxy.

Local Open Scope Z_scope.

Definition SOMAXCONN : Z := 4096.
Definition O_NONBLOCK : Z := 2048.

(** The four descriptors of a [ProxyRuntime]. *)
Record Descriptors := mkDescriptors { listener_ : Z; signal_fd_ : Z; timer_fd_ : Z; epoll_fd_ : Z }.

(** The kernel, and the calls made with their replies. *)
Record SetupWorld (E : Type) := mkSetupWorld { su_env : E; su_calls : list (Call * Reply) }.
Arguments mkSetupWorld {E} _ _.
Arguments su_env {E} _.
Arguments su_calls {E} _.

Section setup.
Context {E : Type} `{Kernel E} `{Libc} `{Inet} (config : ProxyConfig).

Abbreviation SU := (M (SetupWorld E)).

Definition ask (c : Call) : SU Reply := λ w,
  let '(r, e) := syscall (su_env w) c in Ok (r, mkSetupWorld e (su_calls w ++ [(c, r)])).

(** The destructors of the descriptors, in this order. *)
Fixpoint close_all (fds : list Z) : SU unit :=
  match fds with
  | [] => mret tt
  | fd :: fds => _ ← ask (CloseFd fd); close_all fds
  end.

(** An exception with these descriptors still to be closed. *)
Definition fails {A} (fds : list Z) (what : string) : SU (string + A) :=
  _ ← close_all fds;
  mret (inl what).

(** The constructor of the [Logger] puts standard output in non-blocking mode,
    if its flags can be read. *)
Definition make_logger : SU unit :=
  r ← ask GetOutputFlags;
  if 0 <=? ret r then _ ← ask (SetOutputFlags (Z.lor (ret r) O_NONBLOCK)); mret tt else mret tt.

Definition bind_message (text : string) : string := "bind(" +:+ to_string (pc_listen config) +:+ "): " +:+ text.

Definition proxy_listener : SU (string + Z) :=
  r ← ask OpenListener;
  if ret r <? 0 then fails [] ("socket(listener): " +:+ strerror (errno r))
  else
    let listener := ret r in
    r ← ask (ReuseAddress listener);
    if ret r <? 0 then fails [listener] ("setsockopt(SO_REUSEADDR): " +:+ strerror (errno r))
    else
      match to_sockaddr (pc_listen config) with
      | Ok address =>
          r ← ask (BindListener listener address);
          if ret r <? 0 then fails [listener] (bind_message (strerror (errno r)))
          else
            r ← ask (ListenOn listener (Z.min (pc_max_connections config) SOMAXCONN));
            if ret r <? 0 then fails [listener] ("listen: " +:+ strerror (errno r))
            else mret (inr listener)
      | _ => fails [listener] "invalid numeric IPv4 address"
      end.

Definition create_signal_fd : SU (string + Z) :=
  r ← ask FillSignalSet;
  if ret r <? 0 then fails [] "could not initialize signal mask"
  else
    r ← ask BlockSignals;
    if ret r <? 0 then fails [] ("sigprocmask: " +:+ strerror (errno r))
    else
      r ← ask OpenSignalFd;
      if ret r <? 0 then fails [] ("signalfd: " +:+ strerror (errno r)) else mret (inr (ret r)).

Definition create_timer_fd : SU (string + Z) :=
  r ← ask OpenTimerFd;
  if ret r <? 0 then fails [] ("timerfd_create: " +:+ strerror (errno r)) else mret (inr (ret r)).

(** The registrations of the constructor's body. *)
Fixpoint register_all (closing : list Z) (registrations : list (Z * Z)) : SU (option string) :=
  match registrations with
  | [] => mret None
  | (fd, token) :: registrations =>
      r ← ask (EpollCtl EpollAdd fd EPOLLIN token);
      if ret r <? 0 then
        _ ← close_all closing;
        mret (Some ("epoll_ctl(ADD): " +:+ strerror (errno r)))
      else register_all closing registrations
  end.

(** The constructor: the message of the exception, or the descriptors. *)
Definition set_up : SU (string + Descriptors) :=
  _ ← make_logger;
  made ← proxy_listener;
  match made with
  | inl what => mret (inl what)
  | inr listener =>
      made ← create_signal_fd;
      match made with
      | inl what => fails [listener] what
      | inr signal =>
          made ← create_timer_fd;
          match made with
          | inl what => fails [signal; listener] what
          | inr timer =>
              r ← ask OpenEpoll;
              if ret r <? 0 then fails [timer; signal; listener] ("epoll_create1: " +:+ strerror (errno r))
              else
                failure ← register_all [ret r; timer; signal; listener]
                            [(listener, kListenerToken); (signal, kSignalToken); (timer, kTimerToken)];
                match failure with
                | Some what => mret (inl what)
                | None => mret (inr (mkDescriptors listener signal timer (ret r)))
                end
          end
      end
  end.
End setup.
