(* ===== verification/ProxyLoop.v ===== *)
(** * The proxy's event loop: accepting, timers, metrics and the loop itself

    The rest of [ProxyRuntime] (src/proxy/proxy.cpp): the listener's handler,
    the timer queue's handler and the arming of the timer descriptor, the
    metrics export and the loop [run] with its orderly shutdown. *)

From Stdlib Require Import ZArith Lia Init.Byte Ascii String SpecFloat.
From stdpp Require Import base numbers list option strings pretty gmap.
From S2P Require Import Prelude Text Endpoint ByteQueue Backpressure DelayLine TokenBucket.
From S2P Require Import FaultRng FaultPlan.
From S2P Require Import ConnectionState TimerQueue SocketIo Relay Logger RelayReport.
From S2P Require Import ProxyConfig Proxy.

Local Open Scope Z_scope.

Section loop.
Context {W E Out : Type} `{SocketIo W} `{Kernel E} `{Output Out}.
Context `{Libc} `{Inet} `{UnorderedMap}.
Context (config : ProxyConfig).

Abbreviation PW := (ProxyWorld W E Out).
Abbreviation PM := (M PW).

(** ** Accepting *)

Definition faults_apply (connection_id : Z) : bool :=
  let faults := pc_faults config in
  if negb (any_enabled faults) then false
  else if SFleb double_one (apply_probability faults) then true
  else
    let rng := mkSplitMix64 (derive_connection_seed (master_seed faults) connection_id) in
    SFltb (sample_unit_interval (next rng).1) (apply_probability faults).

Definition apply_socket_buffer_size (fd : Z) : PM unit :=
  if pc_socket_buffer_bytes config =? 0 then mret tt
  else
    let size := pc_socket_buffer_bytes config in
    r ← sys (SetSocketBuffer fd SO_SNDBUF size);
    r ← (if ret r <? 0 then mret r else sys (SetSocketBuffer fd SO_RCVBUF size));
    if ret r <? 0 then log_event "socket_buffer_resize_failed" 0 "failed" (strerror (errno r)) else mret tt.

(** The interest of one side is computed and remembered as its mask. *)
Definition store_interest (id : Z) (side : Side) (now : Z) : PM unit :=
  interest ← on_relay id now (desired_interest side now);
  update_connection id (set_mask side (to_epoll_mask interest)).

Definition register_sockets (id client upstream : Z) : PM Connection :=
  inserted ← connection_at id;
  _ ← add_epoll client (client_mask inserted) (client_token inserted);
  _ ← add_epoll upstream (upstream_mask inserted) (upstream_token inserted);
  mret inserted.

Definition schedule_timeouts (id : Z) (connecting : bool) (now : Z) : PM unit :=
  _ ← (if negb connecting then log_event "upstream_connected" id "active" ""
       else if 0 <? pc_connect_timeout config then
         modify_runtime (λ rt, set_timer_queue (schedule (timer_queue_ rt)
           (now + milliseconds_to_nanoseconds (pc_connect_timeout config)) id ConnectTimeout) rt)
       else mret tt);
  if 0 <? pc_idle_timeout config then
    modify_runtime (λ rt, set_timer_queue (schedule (timer_queue_ rt)
      (now + milliseconds_to_nanoseconds (pc_idle_timeout config)) id IdleTimeout) rt)
  else mret tt.

(** From the [connect] on: the new connection enters the table, its sockets are
    registered and its timers are scheduled. *)
Definition register_connection (client upstream : Z) (connecting : bool) : PM unit :=
  now ← steady_now;
  runtime ← get_runtime;
  let connection_id := next_connection_id_ runtime in
  let apply_faults := faults_apply connection_id in
  let effective_faults := if apply_faults then pc_faults config else default_FaultPlan in
  r ← lift (make_Relay (relay_config config) effective_faults connection_id client upstream connecting now);
  let client_token := next_token_ runtime in
  let upstream_token := u64_succ client_token in
  _ ← modify_runtime (set_next_ids (u64_succ connection_id) (u64_succ upstream_token));
  _ ← modify_runtime (λ rt, set_bindings
        (emplace upstream_token (mkSocketBinding connection_id Upstream)
          (emplace client_token (mkSocketBinding connection_id Client) (bindings_ rt))) rt);
  _ ← emplace_connection connection_id
        (mkConnection connection_id client upstream client_token upstream_token 0 0 None r []);
  _ ← store_interest connection_id Client now;
  _ ← store_interest connection_id Upstream now;
  inserted ← register_sockets connection_id client upstream;
  _ ← log_event "connection_accepted" connection_id (state_name (relay_state_ (relay inserted))) "";
  _ ← (if any_enabled (pc_faults config) then
         log_event "fault_config" connection_id (state_name (relay_state_ (relay inserted)))
           ("applied=" +:+ pretty (bool_to_Z apply_faults) +:+ ",seed="
            +:+ pretty (derive_connection_seed (master_seed (pc_faults config)) connection_id))
       else mret tt);
  schedule_timeouts connection_id connecting now.

(** One accepted client. A [continue] of the source destroys the descriptors
    that are still local, the upstream's first. *)
Definition accept_client (client : Z) : PM unit :=
  runtime ← get_runtime;
  if pc_max_connections config <=? Z.of_nat (size (connections_ runtime)) then
    _ ← log_event "connection_rejected" 0 "failed" "max_connections_reached";
    close_fd client
  else
    opened ← sys OpenSocket;
    if ret opened <? 0 then
      _ ← log_event "upstream_socket_failed" 0 "failed" (strerror (errno opened));
      close_fd client
    else
      let upstream := ret opened in
      _ ← apply_socket_buffer_size upstream;
      upstream_address ← lift (to_sockaddr (pc_upstream config));
      connect_result ← sys (Connect upstream upstream_address);
      let connecting := (ret connect_result <? 0) && (errno connect_result =? EINPROGRESS) in
      if (ret connect_result <? 0) && negb connecting then
        _ ← log_event "upstream_connect_failed" 0 "failed" (strerror (errno connect_result));
        _ ← close_fd upstream;
        close_fd client
      else register_connection client upstream connecting.

(** The loop of [accept_ready]; the fuel is one more than the replies to come
    after which it goes round again. *)
Fixpoint accept_loop (fuel : nat) : PM unit :=
  match fuel with
  | O => out_of_fuel
  | S fuel =>
      client ← sys Accept;
      if ret client <? 0 then
        if (errno client =? EAGAIN) || (errno client =? EWOULDBLOCK) then mret tt
        else if errno client =? EINTR then accept_loop fuel
        else log_event "accept_failed" 0 "failed" (strerror (errno client))
      else
        _ ← accept_client (ret client);
        accept_loop fuel
  end.

Definition accept_ready : PM unit :=
  fuel ← gets (λ s, S (pending (pw_env s)));
  accept_loop fuel.

(** ** Timers *)

(** The [switch] on the kind of a due timer. *)
Definition handle_timer (event : TimerEvent) (connection : Connection) (now : Z) : PM unit :=
  match kind event with
  | Pump =>
      _ ← (if match scheduled_wake connection with Some w => w <=? now | None => false end
           then update_connection (connection_id event) (set_scheduled_wake None) else mret tt);
      pump_connection (conn_id connection) now
  | ConnectTimeout =>
      if upstream_connecting_ (relay connection)
      then close_connection (conn_id connection) TimedOut "connect_timeout" now
      else mret tt
  | IdleTimeout =>
      let idle_deadline :=
        last_activity_ (relay connection) + milliseconds_to_nanoseconds (pc_idle_timeout config) in
      if idle_deadline <=? now then close_connection (conn_id connection) TimedOut "idle_timeout" now
      else
        modify_runtime (λ rt, set_timer_queue
          (schedule (timer_queue_ rt) idle_deadline (conn_id connection) IdleTimeout) rt)
  end.

(** The loop of [process_due_timers]. What it schedules lies after [now], so
    the size of the queue bounds the iterations. *)
Fixpoint due_loop (fuel : nat) (now processed : Z) : PM Z :=
  match fuel with
  | O => out_of_fuel
  | S fuel =>
      runtime ← get_runtime;
      let '(popped, queue) := pop_due (timer_queue_ runtime) now in
      _ ← modify_runtime (set_timer_queue queue);
      match popped with
      | None => mret processed
      | Some event =>
          let processed := u64_succ processed in
          match connections_ runtime !! connection_id event with
          | None => due_loop fuel now processed
          | Some connection =>
              _ ← handle_timer event connection now;
              due_loop fuel now processed
          end
      end
  end.

Definition process_due_timers (now : Z) : PM Z :=
  _ ← modify_runtime (set_last_armed_deadline None);
  fuel ← gets (λ s, S (length (heap_ (timer_queue_ (pw_runtime s)))));
  due_loop fuel now 0.

(** The [itimerspec] for a deadline: seconds and nanoseconds of the first
    expiration; all zero disarms. *)
Definition timer_spec (deadline : option Z) : Z * Z :=
  match deadline with
  | None => (0, 0)
  | Some deadline =>
      let since_epoch := if deadline <=? 0 then 1 else deadline in
      let seconds := Z.quot since_epoch 1000000000 in
      let nanoseconds := since_epoch - seconds * 1000000000 in
      if (seconds =? 0) && (nanoseconds =? 0) then (0, 1) else (seconds, nanoseconds)
  end.

Definition arm_timer_fd : PM unit :=
  runtime ← get_runtime;
  let deadline := next_deadline (timer_queue_ runtime) in
  if bool_decide (deadline = last_armed_deadline_ runtime) then mret tt
  else
    r ← sys (SetTimer (timer_spec deadline).1 (timer_spec deadline).2);
    if ret r <? 0 then log_event "timer_arm_failed" 0 "failed" (strerror (errno r))
    else
      _ ← modify_runtime (set_last_armed_deadline deadline);
      match deadline with
      | None => mret tt
      | Some deadline =>
          now ← steady_now;
          log_event "timer_armed" 0 "listening"
            ("delta_ms=" +:+ pretty (to_milliseconds (deadline - now))
             +:+ ",pending=" +:+ pretty (queue_size (timer_queue_ runtime)))
      end.

(** [read] on the timer or signal descriptor, repeated while interrupted. *)
Fixpoint read_loop (fuel : nat) (c : Call) : PM Reply :=
  match fuel with
  | O => out_of_fuel
  | S fuel =>
      r ← sys c;
      if (ret r <? 0) && (errno r =? EINTR) then read_loop fuel c else mret r
  end.

Definition read_fd (c : Call) : PM Reply :=
  fuel ← gets (λ s, S (pending (pw_env s)));
  read_loop fuel c.

Definition drain_timer_fd : PM unit := _ ← read_fd ReadTimer; mret tt.

(** ** Metrics *)

Definition quoted (s : string) : string := q +:+ s +:+ q.

(** The connection objects, separated by commas. *)
Fixpoint connections_json (first : bool) (ids : list Z) (connections : gmap Z Connection) (now : Z) : string :=
  match ids with
  | [] => ""
  | id :: ids =>
      (if first then "" else ",")
      +:+ match connections !! id with Some c => connection_json id (relay c) now | None => "" end
      +:+ connections_json false ids connections now
  end.

Definition metrics_document (runtime : ProxyRuntime) (now wall_ms : Z) : string :=
  "{" +:+ quoted "timestamp_ms" +:+ ":" +:+ pretty wall_ms
  +:+ "," +:+ quoted "listen" +:+ ":" +:+ quoted (to_string (pc_listen config))
  +:+ "," +:+ quoted "upstream" +:+ ":" +:+ quoted (to_string (pc_upstream config))
  +:+ "," +:+ quoted "active_connections" +:+ ":" +:+ pretty (Z.of_nat (size (connections_ runtime)))
  +:+ "," +:+ quoted "total_accepted" +:+ ":" +:+ pretty (u64_sub (next_connection_id_ runtime) 1)
  +:+ "," +:+ quoted "pending_timers" +:+ ":" +:+ pretty (queue_size (timer_queue_ runtime))
  +:+ "," +:+ quoted "dropped_log_events" +:+ ":" +:+ pretty (dropped_events_ (logger_ runtime))
  +:+ "," +:+ quoted "closes" +:+ ":{"
  +:+ quoted "fully_closed" +:+ ":" +:+ pretty (closes_fully_closed_ runtime)
  +:+ "," +:+ quoted "reset" +:+ ":" +:+ pretty (closes_reset_ runtime)
  +:+ "," +:+ quoted "failed" +:+ ":" +:+ pretty (closes_failed_ runtime)
  +:+ "," +:+ quoted "timed_out" +:+ ":" +:+ pretty (closes_timed_out_ runtime)
  +:+ "}," +:+ quoted "connections" +:+ ":["
  +:+ connections_json true (map_order (connections_ runtime)) (connections_ runtime) now
  +:+ "]}".

Definition build_metrics_json : PM string :=
  now ← steady_now;
  wall ← sys SystemNow;
  runtime ← get_runtime;
  mret (metrics_document runtime now (to_milliseconds (value wall))).

(** The loop that writes the document from [offset] on; [false] after an error. *)
Fixpoint write_file_loop (fuel : nat) (fd : Z) (json : string) (offset : Z) : PM bool :=
  if offset <? string_size json then
    match fuel with
    | O => out_of_fuel
    | S fuel =>
        written ← sys (WriteFile fd (substr_from (Z.to_nat offset) json));
        if ret written <? 0 then
          if errno written =? EINTR then write_file_loop fuel fd json offset
          else
            _ ← log_event "metrics_file_failed" 0 "failed" ("write=" +:+ strerror (errno written));
            mret false
        else write_file_loop fuel fd json (offset + ret written)
    end
  else mret true.

(** Every round writes a byte or consumes an interruption. *)
Definition write_metrics_file : PM unit :=
  if decide (pc_metrics_file config = "") then mret tt
  else
    let temporary_path := pc_metrics_file config +:+ ".tmp" in
    document ← build_metrics_json;
    let json := document +:+ String newline "" in
    opened ← sys (OpenFile temporary_path);
    if ret opened <? 0 then
      log_event "metrics_file_failed" 0 "failed" ("open=" +:+ strerror (errno opened))
    else
      fuel ← gets (λ s, (String.length json + pending (pw_env s))%nat);
      complete ← write_file_loop fuel (ret opened) json 0;
      _ ← close_fd (ret opened);
      if negb complete then mret tt
      else
        renamed ← sys (Rename temporary_path (pc_metrics_file config));
        if negb (ret renamed =? 0) then
          log_event "metrics_file_failed" 0 "failed" ("rename=" +:+ strerror (errno renamed))
        else log_event "metrics_file_written" 0 "listening" ("bytes=" +:+ pretty (string_size json)).

Fixpoint log_snapshots (ids : list Z) (now : Z) : PM unit :=
  match ids with
  | [] => mret tt
  | id :: ids =>
      c ← connection_at id;
      _ ← log_event "connection_snapshot" id (state_name (relay_state_ (relay c)))
            ("snapshot=1" +:+ close_detail (relay c) now);
      log_snapshots ids now
  end.

Definition emit_metrics_snapshot : PM unit :=
  now ← steady_now;
  runtime ← get_runtime;
  _ ← log_event "metrics_snapshot" 0 "listening"
        ("active_connections=" +:+ pretty (Z.of_nat (size (connections_ runtime)))
         +:+ ",total_accepted=" +:+ pretty (u64_sub (next_connection_id_ runtime) 1)
         +:+ ",pending_timers=" +:+ pretty (queue_size (timer_queue_ runtime))
         +:+ ",dropped_log_events=" +:+ pretty (dropped_events_ (logger_ runtime)));
  log_snapshots (map_order (connections_ runtime)) now.

(** ** The loop *)

(** One entry of the event array; [true] when the proxy is to stop. *)
Definition dispatch (event_mask token : Z) : PM bool :=
  if token =? kListenerToken then
    _ ← accept_ready;
    mret false
  else if token =? kSignalToken then
    r ← read_fd ReadSignal;
    if negb (ret r =? siginfo_size) then
      _ ← log_event "signal_read_incomplete" 0 "failed" (strerror (errno r));
      mret true
    else if value r =? SIGUSR1 then
      _ ← emit_metrics_snapshot;
      _ ← write_metrics_file;
      mret false
    else mret true
  else if token =? kTimerToken then
    _ ← drain_timer_fd;
    now ← steady_now;
    processed ← process_due_timers now;
    runtime ← get_runtime;
    _ ← log_event "timer_fired" 0 "listening"
          ("processed=" +:+ pretty processed +:+ ",pending=" +:+ pretty (queue_size (timer_queue_ runtime)));
    mret false
  else
    _ ← socket_ready token event_mask;
    mret false.

Fixpoint dispatch_all (events : list (Z * Z)) : PM bool :=
  match events with
  | [] => mret false
  | (event_mask, token) :: events =>
      stopping ← dispatch event_mask token;
      if (stopping : bool) then mret true else dispatch_all events
  end.

(** One round of the [while] loop of [run]. *)
Definition run_once : PM bool :=
  r ← sys EpollWait;
  if ret r <? 0 then
    if errno r =? EINTR then mret false
    else lift (Throw (RuntimeError ("epoll_wait: " +:+ strerror (errno r))))
  else
    stopping ← dispatch_all (ready r);
    _ ← arm_timer_fd;
    mret stopping.

(** At most [rounds] rounds; [false] when the proxy is still running then. *)
Fixpoint run_rounds (rounds : nat) : PM bool :=
  match rounds with
  | O => mret false
  | S rounds =>
      stopping ← run_once;
      if (stopping : bool) then mret true else run_rounds rounds
  end.

(** Closes [connections_.begin()] until the table is empty. *)
Fixpoint shutdown_loop (fuel : nat) (now : Z) : PM unit :=
  runtime ← get_runtime;
  match map_order (connections_ runtime) with
  | [] => mret tt
  | id :: _ =>
      match fuel with
      | O => out_of_fuel
      | S fuel =>
          _ ← close_connection id FullyClosed "proxy_shutdown" now;
          shutdown_loop fuel now
      end
  end.

Definition shutdown : PM unit :=
  shutdown_now ← steady_now;
  fuel ← gets (λ s, size (connections_ (pw_runtime s)));
  _ ← shutdown_loop fuel shutdown_now;
  _ ← write_metrics_file;
  runtime ← get_runtime;
  log_event "proxy_stopped" 0 "fully_closed"
    ("dropped_log_events=" +:+ pretty (dropped_events_ (logger_ runtime))).

Definition start_loop : PM unit :=
  log_event "proxy_started" 0 "listening"
    ("listen=" +:+ to_string (pc_listen config) +:+ ",upstream=" +:+ to_string (pc_upstream config)).

(** [run], for a proxy that is stopped within [rounds] rounds: the exit status,
    or [None] when it is still running after them. *)
Definition run (rounds : nat) : PM (option Z) :=
  _ ← start_loop;
  stopped ← run_rounds rounds;
  if (stopped : bool) then
    _ ← shutdown;
    mret (Some 0)
  else mret None.
End loop.
