(* ===== verification/ProxyWalk.v ===== *)
(** * Properties of the event loop that its structure carries

    A predicate on computations that holds of the primitive steps of the loop
    and of their sequential composition holds of all its methods. [LoopLogic]
    lists what has to be shown; the section follows the code once for all. Used
    by ProxyTrace.v (the system calls made) and PipeRefinement.v (the bytes
    forwarded). *)

From Stdlib Require Import ZArith Lia Init.Byte Ascii String.
From stdpp Require Import base numbers list option strings pretty gmap.
From S2P Require Import Prelude Text Endpoint ByteQueue Backpressure DelayLine TokenBucket.
From S2P Require Import FaultRng FaultPlan.
From S2P Require Import ConnectionState TimerQueue SocketIo Relay Logger RelayReport.
From S2P Require Import ProxyConfig Proxy ProxyLoop.

Local Open Scope Z_scope.

Create HintDb walk.

(** A call goes no further than the configuration allows. *)
Definition permitted (config : ProxyConfig) `{Inet} (c : Call) : Prop :=
  match c with
  | Connect _ address => to_sockaddr (pc_upstream config) = Ok address
  | SetSocketBuffer _ _ size => size = pc_socket_buffer_bytes config ∧ size ≠ 0
  | OpenFile path => path = pc_metrics_file config +:+ ".tmp" ∧ pc_metrics_file config ≠ ""
  | Rename from to =>
      from = pc_metrics_file config +:+ ".tmp" ∧ to = pc_metrics_file config ∧ pc_metrics_file config ≠ ""
  | _ => True
  end.

(** Calls on the metrics file. *)
Definition file_call (c : Call) : bool :=
  match c with OpenFile _ | WriteFile _ _ | Rename _ _ => true | _ => false end.

(** The methods of a relay the loop uses. *)
Inductive relay_method {W} `{SocketIo W} `{Libc} (now : Z) : ∀ A, M (World W) A → Prop :=
  | rm_readable side hint : relay_method now _ (handle_readable side hint now)
  | rm_flush side : relay_method now _ (flush side now)
  | rm_half_closes : relay_method now _ propagate_half_closes
  | rm_connected : relay_method now _ mark_upstream_connected
  | rm_interest side : relay_method now _ (desired_interest side now)
  | rm_wake side : relay_method now _ (next_wake side now).
#[export] Hint Constructors relay_method : walk.

(** The faults of a connection. *)
Definition plan_for (config : ProxyConfig) (id : Z) : FaultPlan :=
  if faults_apply config id then pc_faults config else default_FaultPlan.

(** A connection as it enters the table. *)
Definition newly_made (config : ProxyConfig) (id : Z) (c : Connection) : Prop :=
  conn_traffic c = [] ∧ ∃ client upstream connecting now,
    make_Relay (relay_config config) (plan_for config id) id client upstream connecting now = Ok (relay c).

Class LoopLogic {W E Out} `{SocketIo W} `{Kernel E} `{Output Out} `{Libc} `{Inet} (config : ProxyConfig)
    (P : ∀ A, M (ProxyWorld W E Out) A → Prop) : Prop := {
  walk_ret A (a : A) : P _ (mret a);
  walk_bind A B (m : M _ A) (f : A → M _ B) : P _ m → (∀ a, P _ (f a)) → P _ (m ≫= f);
  walk_lift A (o : outcome A) : P _ (lift o);
  walk_lift_bind A B (o : outcome A) (f : A → M _ B) : (∀ a, o = Ok a → P _ (f a)) → P _ (lift o ≫= f);
  walk_gets A (f : ProxyWorld W E Out → A) : P _ (gets f);
  walk_out_of_fuel A : P A out_of_fuel;
  walk_connection_at id : P _ (connection_at id);
  walk_write_log now record : P _ (write_log now record);
  walk_sys c : permitted config c → file_call c = false → P _ (sys c);
  walk_modify f : (∀ r, connections_ (f r) = connections_ r) → P _ (modify_runtime f);
  walk_update id f : (∀ c, relay (f c) = relay c ∧ conn_traffic (f c) = conn_traffic c) →
    P _ (update_connection id f);
  walk_relay A id now (method : M (World W) A) : relay_method now A method → P _ (on_relay id now method);
  walk_emplace id c : newly_made config id c → P _ (emplace_connection id c);
  walk_erase id : P _ (erase_connection id);
}.

(** ** The methods of the loop *)

Section walk.
#[local] Set Default Proof Using "Type*".
Context {W E Out : Type} `{SocketIo W} `{Kernel E} `{Output Out}.
Context `{Libc} `{Inet} `{UnorderedMap} (config : ProxyConfig).
Context (P : ∀ A, M (ProxyWorld W E Out) A → Prop) `{HP : !LoopLogic config P}.

Lemma walk_log name id state detail : P _ (log_event name id state detail).
Proof. unfold log_event. apply walk_bind; [by apply walk_sys|]. intros r. apply walk_write_log. Qed.
#[local] Hint Resolve walk_log : walk.

(** Follows the structure of a method down to its primitive steps. *)
#[local] Ltac walk_step :=
  match goal with
  | |- P _ (mret _) => apply walk_ret
  | |- P _ (lift _ ≫= _) => apply walk_lift_bind; intros ? ?
  | |- P _ (lift _) => apply walk_lift
  | |- P _ (_ ≫= _) => apply walk_bind; [|intros ?]
  | |- P _ (gets _) => apply walk_gets
  | |- P _ out_of_fuel => apply walk_out_of_fuel
  | |- P _ (connection_at _) => apply walk_connection_at
  | |- P _ (on_relay _ _ _) => apply walk_relay; constructor
  | |- P _ (update_connection _ _) => apply walk_update; solve [by intros ?]
  | |- P _ (erase_connection _) => apply walk_erase
  | |- P _ (modify_runtime _) => apply walk_modify; solve [done|by intros; unfold count_close; case_match]
  | |- P _ (sys _) => apply walk_sys; [cbn; try (exact I || assumption)|reflexivity]
  | |- P _ (match ?x with _ => _ end) => destruct x eqn:?
  | |- P _ _ => solve [eauto with walk]
  end.
#[local] Ltac walk := repeat (walk_step; cbv zeta).

Lemma walk_steady_now : P _ steady_now.
Proof. unfold steady_now. walk. Qed.
Lemma walk_close_fd fd : P _ (close_fd fd).
Proof. unfold close_fd. walk. Qed.
#[local] Hint Resolve walk_steady_now walk_close_fd : walk.

Lemma walk_close_connection id st detail now : P _ (close_connection id st detail now).
Proof. unfold close_connection, get_runtime. walk. Qed.
#[local] Hint Resolve walk_close_connection : walk.
Lemma walk_add_epoll fd events token : P _ (add_epoll fd events token).
Proof. unfold add_epoll. walk. Qed.
#[local] Hint Resolve walk_add_epoll : walk.
Lemma walk_modify_epoll fd events token : P _ (modify_epoll fd events token).
Proof. unfold modify_epoll. walk. Qed.
#[local] Hint Resolve walk_modify_epoll : walk.
Lemma walk_set_mask id side mask : P _ (update_connection id (set_mask side mask)).
Proof. apply walk_update. intros c. by destruct side. Qed.
#[local] Hint Resolve walk_set_mask : walk.
Lemma walk_apply_interest id side now : P _ (apply_interest id side now).
Proof. unfold apply_interest. walk. Qed.
#[local] Hint Resolve walk_apply_interest : walk.
Lemma walk_refresh_or_close id now : P _ (refresh_or_close id now).
Proof. unfold refresh_or_close, get_runtime. walk. Qed.
#[local] Hint Resolve walk_refresh_or_close : walk.
Lemma walk_schedule_relay_wake id now : P _ (schedule_relay_wake id now).
Proof. unfold schedule_relay_wake, get_runtime. walk. Qed.
#[local] Hint Resolve walk_schedule_relay_wake : walk.
Lemma walk_flush_destination id destination now : P _ (flush_destination id destination now).
Proof. unfold flush_destination. walk. Qed.
#[local] Hint Resolve walk_flush_destination : walk.
Lemma walk_pump_connection id now : P _ (pump_connection id now).
Proof. unfold pump_connection, get_runtime. walk. Qed.
#[local] Hint Resolve walk_pump_connection : walk.
Lemma walk_finish_connect id side events now : P _ (finish_connect id side events now).
Proof. unfold finish_connect. walk. Qed.
#[local] Hint Resolve walk_finish_connect : walk.
Lemma walk_check_socket_error id side events now : P _ (check_socket_error id side events now).
Proof. unfold check_socket_error. walk. Qed.
#[local] Hint Resolve walk_check_socket_error : walk.
Lemma walk_read_ready id side events now : P _ (read_ready id side events now).
Proof. unfold read_ready. walk. Qed.
#[local] Hint Resolve walk_read_ready : walk.
Lemma walk_socket_ready token events : P _ (socket_ready token events).
Proof. unfold socket_ready, get_runtime. walk. Qed.
#[local] Hint Resolve walk_socket_ready : walk.

(** *** Accepting and timers *)
Lemma walk_apply_socket_buffer_size fd : P _ (apply_socket_buffer_size config fd).
Proof. unfold apply_socket_buffer_size. walk; by apply Z.eqb_neq in Heqb. Qed.
#[local] Hint Resolve walk_apply_socket_buffer_size : walk.
Lemma walk_store_interest id side now : P _ (store_interest id side now).
Proof. unfold store_interest. walk. Qed.
#[local] Hint Resolve walk_store_interest : walk.
Lemma walk_register_sockets id client upstream : P _ (register_sockets id client upstream).
Proof. unfold register_sockets. walk. Qed.
#[local] Hint Resolve walk_register_sockets : walk.
Lemma walk_schedule_timeouts id connecting now : P _ (schedule_timeouts config id connecting now).
Proof. unfold schedule_timeouts. walk. Qed.
#[local] Hint Resolve walk_schedule_timeouts : walk.
Lemma walk_register_connection client upstream connecting : P _ (register_connection config client upstream connecting).
Proof. unfold register_connection, get_runtime. walk. apply walk_emplace. split; [done|]. eauto 6. Qed.
#[local] Hint Resolve walk_register_connection : walk.
Lemma walk_accept_client client : P _ (accept_client config client).
Proof. unfold accept_client, get_runtime. walk. Qed.
#[local] Hint Resolve walk_accept_client : walk.
Lemma walk_accept_loop fuel : P _ (accept_loop config fuel).
Proof. induction fuel as [|fuel IH]; cbn [accept_loop]; walk. Qed.
#[local] Hint Resolve walk_accept_loop : walk.
Lemma walk_handle_timer event connection now : P _ (handle_timer config event connection now).
Proof. unfold handle_timer. walk. Qed.
#[local] Hint Resolve walk_handle_timer : walk.
Lemma walk_due_loop fuel now processed : P _ (due_loop config fuel now processed).
Proof. revert processed. induction fuel as [|fuel IH]; intros processed; cbn [due_loop]; unfold get_runtime; walk. Qed.
#[local] Hint Resolve walk_due_loop : walk.
Lemma walk_arm_timer_fd : P _ arm_timer_fd.
Proof. unfold arm_timer_fd, get_runtime. walk. Qed.
#[local] Hint Resolve walk_arm_timer_fd : walk.
Lemma walk_read_loop fuel c : P _ (sys c) → P _ (read_loop fuel c).
Proof.
  intros Hc. induction fuel as [|fuel IH]; cbn [read_loop]; [apply walk_out_of_fuel|].
  apply walk_bind; [done|]. intros r. walk.
Qed.
Lemma walk_read_fd c : P _ (sys c) → P _ (read_fd c).
Proof. intros Hc. unfold read_fd. walk. by apply walk_read_loop. Qed.

(** *** Metrics, dispatch and rounds *)
Lemma walk_build_metrics_json : P _ (build_metrics_json config).
Proof. unfold build_metrics_json, get_runtime. walk. Qed.
#[local] Hint Resolve walk_build_metrics_json : walk.

(** The export, where the calls on the file need no attention. *)
Lemma walk_write_metrics_file : (∀ c, P _ (sys c)) → P _ (write_metrics_file config).
Proof.
  intros Hsys. assert (Hloop : ∀ fuel fd json offset, P _ (write_file_loop fuel fd json offset)).
  { intros fuel. induction fuel as [|fuel IH]; intros fd json offset; cbn [write_file_loop].
    all: repeat (solve [auto with walk] || walk_step). }
  unfold write_metrics_file. repeat (solve [auto with walk] || walk_step).
Qed.

Hypothesis Hmetrics : P _ (write_metrics_file config).
#[local] Hint Resolve Hmetrics : walk.
Lemma walk_log_snapshots ids now : P _ (log_snapshots ids now).
Proof. induction ids as [|id ids IH]; cbn [log_snapshots]; walk. Qed.
#[local] Hint Resolve walk_log_snapshots : walk.
Lemma walk_emit_metrics_snapshot : P _ emit_metrics_snapshot.
Proof. unfold emit_metrics_snapshot, get_runtime. walk. Qed.
#[local] Hint Resolve walk_emit_metrics_snapshot : walk.
Lemma walk_dispatch mask token : P _ (dispatch config mask token).
Proof.
  unfold dispatch, accept_ready, drain_timer_fd, process_due_timers, get_runtime. walk.
  all: by apply walk_read_fd, walk_sys.
Qed.
#[local] Hint Resolve walk_dispatch : walk.
Lemma walk_dispatch_all events : P _ (dispatch_all config events).
Proof. induction events as [|[mask token] events IH]; cbn [dispatch_all]; walk. Qed.
#[local] Hint Resolve walk_dispatch_all : walk.
Lemma walk_run_once : P _ (run_once config).
Proof. unfold run_once. walk. Qed.
#[local] Hint Resolve walk_run_once : walk.
Lemma walk_run_rounds rounds : P _ (run_rounds config rounds).
Proof. induction rounds as [|rounds IH]; cbn [run_rounds]; walk. Qed.
#[local] Hint Resolve walk_run_rounds : walk.
Lemma walk_shutdown_loop fuel now : P _ (shutdown_loop fuel now).
Proof. induction fuel as [|fuel IH]; cbn [shutdown_loop]; unfold get_runtime; walk. Qed.
#[local] Hint Resolve walk_shutdown_loop : walk.
Lemma walk_started rounds : P _ (_ ← start_loop config; run_rounds config rounds).
Proof. unfold start_loop. walk. Qed.
Lemma walk_run rounds : P _ (run config rounds).
Proof. unfold run, start_loop, shutdown, get_runtime. walk. Qed.
End walk.
