(* ===== verification/ProxyInv.v ===== *)
(** * The invariant of the event loop

    What holds of the runtime between two steps, as a predicate on the runtime,
    the state of the kernel and the trace of system calls. Connections need not
    all be in the same condition: while one is being handled it is at a lower
    [level] than the others. *)

From Stdlib Require Import ZArith Lia Init.Byte Ascii String Sorted.
From stdpp Require Import base numbers list option strings pretty gmap.
From S2P Require Import Prelude Text Endpoint ByteQueue Backpressure DelayLine TokenBucket.
From S2P Require Import FaultRng FaultPlan.
From S2P Require Import ConnectionState TimerQueue SocketIo Relay RelayDirection RelayFacts.
From S2P Require Import RelayQueries RelayRun.
From S2P Require Import RelaySpec Logger RelayReport ProxyConfig Proxy ProxyLoop ProxyWalk.

Local Open Scope Z_scope.

(** ** What the trace of system calls shows *)

(** The registrations of a token with epoll: descriptor and mask. *)
Definition registration (token : Z) (p : Call * Reply) : option (Z * Z) :=
  match p.1 with
  | EpollCtl EpollAdd fd mask t | EpollCtl EpollMod fd mask t =>
      if decide (t = token) then Some (fd, mask) else None
  | _ => None
  end.
Definition registered (token : Z) (trace : list (Call * Reply)) : option (Z * Z) :=
  last (omap (registration token) trace).

(** Descriptors obtained and given back. *)
Definition opened (p : Call * Reply) : list Z :=
  match p.1 with
  | Accept | OpenSocket | OpenFile _ | OpenListener | OpenSignalFd | OpenTimerFd | OpenEpoll =>
      if 0 <=? ret p.2 then [ret p.2] else []
  | _ => []
  end.
Definition closed (p : Call * Reply) : list Z := match p.1 with CloseFd fd => [fd] | _ => [] end.
Definition all_opened (trace : list (Call * Reply)) : list Z := trace ≫= opened.
Definition all_closed (trace : list (Call * Reply)) : list Z := trace ≫= closed.

(** The timer descriptor's setting. *)
Definition timer_setting (p : Call * Reply) : option (Z * Z) :=
  match p.1 with SetTimer s n => if 0 <=? ret p.2 then Some (s, n) else None | _ => None end.
Definition armed (trace : list (Call * Reply)) : option (Z * Z) := last (omap timer_setting trace).

(** Calls that change none of these. *)
Definition neutral (p : Call * Reply) : Prop :=
  (∀ token, registration token p = None) ∧ opened p = [] ∧ closed p = [] ∧ timer_setting p = None.

Lemma registered_app token trace p :
  registered token (trace ++ [p]) =
    match registration token p with Some x => Some x | None => registered token trace end.
Proof.
  unfold registered. rewrite omap_app. cbn. destruct (registration token p).
  - apply last_snoc.
  - by rewrite app_nil_r.
Qed.

Lemma armed_app trace p :
  armed (trace ++ [p]) = match timer_setting p with Some x => Some x | None => armed trace end.
Proof.
  unfold armed. rewrite omap_app. cbn. destruct (timer_setting p).
  - apply last_snoc.
  - by rewrite app_nil_r.
Qed.

Lemma all_opened_app trace p : all_opened (trace ++ [p]) = all_opened trace ++ opened p.
Proof. unfold all_opened. rewrite bind_app. cbn. by rewrite app_nil_r. Qed.
Lemma all_closed_app trace p : all_closed (trace ++ [p]) = all_closed trace ++ closed p.
Proof. unfold all_closed. rewrite bind_app. cbn. by rewrite app_nil_r. Qed.

(** ** What a connection satisfies *)

Definition mask_of (side : Side) (c : Connection) : Z :=
  match side with Client => client_mask c | Upstream => upstream_mask c end.
Definition fd_of (side : Side) (c : Connection) : Z :=
  match side with Client => client_fd c | Upstream => upstream_fd c end.
Definition token_of (side : Side) (c : Connection) : Z :=
  match side with Client => client_token c | Upstream => upstream_token c end.

(** Tokens 1 to 3 are the loop's own; each connection takes two. *)
Definition token_for (side : Side) (id : Z) : Z :=
  match side with Client => 2 * id + 2 | Upstream => 2 * id + 3 end.

Lemma token_for_inj s1 s2 id1 id2 : token_for s1 id1 = token_for s2 id2 → s1 = s2 ∧ id1 = id2.
Proof. destruct s1, s2; cbn; intros; split; done || lia. Qed.

Arguments token_for : simpl never.

(** The interest of a side at the time of its last registration. *)
Definition interest_of (side : Side) (now : Z) (r : Relay) : InterestSet :=
  if bool_decide (side = Upstream) && upstream_connecting_ r then mkInterestSet false true
  else mkInterestSet (wants_read side r) (waiting side r && (0 <? sendable_now side now r)).

Definition timer_for (c : Connection) (k : TimerKind) (e : TimerEvent) : Prop :=
  connection_id e = conn_id c ∧ kind e = k.

(** The counter values up to which the 64-bit identifiers cannot wrap. *)
Definition accept_limit : Z := 4611686018427387904.

Section config.
Context (config : ProxyConfig).

(** The relay was built for the connection and has only been used through its
    methods, with the recorded traffic. *)
Definition conn_history (id : Z) (c : Connection) : Prop :=
  ∃ t0 r0, launched (relay_config config) (plan_for config id) t0 r0
    ∧ relay_static (relay c) = relay_static r0
    ∧ ∀ s, ∃ times, dir_ran s times (conn_traffic c) (direction_from s r0) (direction_from s (relay c)).

Record conn_base (now id : Z) (c : Connection) : Prop := mkConnBase {
  cb_id : conn_id c = id;
  cb_token s : token_of s c = token_for s id;
  cb_fd s : fd_for s (relay c) = fd_of s c;
  cb_relay : relay_inv (relay c) (conn_traffic c).*2;
  cb_history : conn_history id c;
  cb_activity : last_activity_ (relay c) ≤ now;
}.

(** The timers that must be queued for the connection. *)
Record conn_timed (events : list TimerEvent) (c : Connection) : Prop := mkConnTimed {
  ct_wake w : scheduled_wake c = Some w → ∃ e, e ∈ events ∧ timer_for c Pump e ∧ deadline e = w;
  ct_idle : 0 < pc_idle_timeout config → ∃ e, e ∈ events ∧ timer_for c IdleTimeout e
    ∧ deadline e ≤ last_activity_ (relay c) + milliseconds_to_nanoseconds (pc_idle_timeout config);
  ct_connect : 0 < pc_connect_timeout config → upstream_connecting_ (relay c) = true →
    ∃ e, e ∈ events ∧ timer_for c ConnectTimeout e
    ∧ deadline e = accepted_at_ (relay c) + milliseconds_to_nanoseconds (pc_connect_timeout config);
}.

Definition conn_registered (trace : list (Call * Reply)) (c : Connection) : Prop :=
  ∀ s, registered (token_of s c) trace = Some (fd_of s c, mask_of s c).

(** The registered masks are the interests at some time, and where the fault
    channel blocks the bytes that wait, a wake-up is scheduled. *)
Definition conn_covered (c : Connection) : Prop :=
  ∃ t, ∀ s, mask_of s c = to_epoll_mask (interest_of s t (relay c))
    ∧ (waiting s (relay c) = true → sendable_now s t (relay c) ≤ 0 → is_Some (scheduled_wake c)).

Definition conn_ok (level : nat) (now : Z) (events : list TimerEvent) (trace : list (Call * Reply))
    (id : Z) (c : Connection) : Prop :=
  conn_base now id c
  ∧ (1 ≤ level → conn_registered trace c)%nat
  ∧ (2 ≤ level → conn_timed events c)%nat
  ∧ (3 ≤ level → conn_covered c)%nat.

(** ** The invariant *)

Definition live_fds (connections : gmap Z Connection) : list Z :=
  map_to_list connections ≫= λ '(_, c), [client_fd c; upstream_fd c].

Definition bound_to (connections : gmap Z Connection) (token : Z) (b : SocketBinding) : Prop :=
  is_Some (connections !! binding_connection b) ∧ token = token_for (binding_side b) (binding_connection b).

Record proxy_inv {E} `{KernelLaws E} (now : Z) (level : Z → nat) (extra : list TimerEvent) (held : list Z)
    (rt : ProxyRuntime) (e : E) (trace : list (Call * Reply)) : Prop := mkProxyInv {
  pi_conn id c : connections_ rt !! id = Some c →
    conn_ok (level id) now (extra ++ heap_ (timer_queue_ rt)) trace id c;
  pi_ids id : is_Some (connections_ rt !! id) → 1 ≤ id < next_connection_id_ rt;
  pi_bindings token b : bindings_ rt !! token = Some b ↔ bound_to (connections_ rt) token b;
  pi_token : next_token_ rt = 2 * next_connection_id_ rt + 2;
  pi_next : 1 ≤ next_connection_id_ rt;
  pi_budget : next_connection_id_ rt + Z.of_nat (pending e) ≤ accept_limit;
  pi_size : Z.of_nat (size (connections_ rt)) ≤ pc_max_connections config;
  pi_counts : 0 ≤ closes_fully_closed_ rt ∧ 0 ≤ closes_reset_ rt ∧ 0 ≤ closes_failed_ rt ∧ 0 ≤ closes_timed_out_ rt;
  pi_closes : closes_fully_closed_ rt + closes_reset_ rt + closes_failed_ rt + closes_timed_out_ rt
    + Z.of_nat (size (connections_ rt)) = next_connection_id_ rt - 1;
  pi_fds : all_opened trace ≡ₚ all_closed trace ++ held ++ live_fds (connections_ rt);
  pi_sorted : StronglySorted (λ a b, deadline a ≤ deadline b) (heap_ (timer_queue_ rt));
  pi_armed d : last_armed_deadline_ rt = Some d → armed trace = Some (timer_spec (Some d));
  pi_clock : clock e = now;
}.

(** Every connection but [id] is settled. *)
Definition settled : Z → nat := λ _, 3%nat.
Definition focus (id : Z) (level : nat) : Z → nat := λ i, if decide (i = id) then level else 3%nat.

Lemma focus_same id level : focus id level id = level.
Proof. unfold focus. by rewrite decide_True. Qed.
Lemma focus_other id level i : i ≠ id → focus id level i = 3%nat.
Proof. intros. unfold focus. by rewrite decide_False. Qed.

(** ** Stability of what a connection satisfies *)

Lemma conn_ok_le n m now events trace id c :
  (n ≤ m)%nat → conn_ok m now events trace id c → conn_ok n now events trace id c.
Proof. intros Hle (Hb & H1 & H2 & H3). split_and!; [done|intros; auto with lia..]. Qed.

Lemma conn_timed_mono events events' c :
  events ⊆ events' → conn_timed events c → conn_timed events' c.
Proof.
  intros Hsub [Hw Hi Hc]. split.
  - intros w H. destruct (Hw w H) as (e & ? & ?). exists e. eauto.
  - intros H. destruct (Hi H) as (e & ? & ?). exists e. eauto.
  - intros H H'. destruct (Hc H H') as (e & ? & ?). exists e. eauto.
Qed.

(** Removing a timer of another connection. *)
Lemma conn_timed_drop e events c :
  conn_id c ≠ connection_id e → conn_timed (e :: events) c → conn_timed events c.
Proof.
  intros Hne [Hw Hi Hc].
  assert (Hdrop : ∀ x k P, (x ∈ e :: events ∧ timer_for c k x ∧ P x) → x ∈ events ∧ timer_for c k x ∧ (P x : Prop)).
  { intros x k P ([->|Hx]%elem_of_cons & [Hid ?] & ?); [congruence|done]. }
  split.
  - intros w H. destruct (Hw w H) as (x & Hx). exists x. by apply (Hdrop x _ (λ x, deadline x = w)).
  - intros H. destruct (Hi H) as (x & Hx). exists x.
    by apply (Hdrop x _ (λ x, deadline x ≤ last_activity_ (relay c) + milliseconds_to_nanoseconds (pc_idle_timeout config))).
  - intros H H'. destruct (Hc H H') as (x & Hx). exists x.
    by apply (Hdrop x _ (λ x, deadline x = accepted_at_ (relay c) + milliseconds_to_nanoseconds (pc_connect_timeout config))).
Qed.

Lemma conn_base_later now now' id c : now ≤ now' → conn_base now id c → conn_base now' id c.
Proof. intros Hle [? ? ? ? ? ?]. split; try done. lia. Qed.

Lemma conn_ok_later level now now' events events' trace id c :
  now ≤ now' → events ⊆ events' → conn_ok level now events trace id c → conn_ok level now' events' trace id c.
Proof.
  intros Hle Hsub (Hb & H1 & H2 & H3). split_and!; [by eapply conn_base_later|done| |done].
  intros Hl. eapply conn_timed_mono; eauto.
Qed.

Lemma conn_ok_trace level now events trace p id c :
  (∀ s, registration (token_of s c) p = None) →
  conn_ok level now events trace id c → conn_ok level now events (trace ++ [p]) id c.
Proof.
  intros Hp (Hb & H1 & H2 & H3). split_and!; [done| |done..]. intros Hl s.
  by rewrite registered_app, Hp, H1.
Qed.
End config.

(** ** Relay methods *)

Lemma dir_ran_evolves now s times traffic ops d0 d d' :
  dir_ran s times traffic d0 d → dir_evolves now s ops d d' →
  dir_ran s (times ++ [now]) (traffic ++ map (pair now) ops) d0 d'.
Proof.
  intros (es1 & Hs1 & Hi1 & Ho1 & Ht1) (es2 & Hs2 & Ht2 & [Hi2 Ho2]%same_bytes). exists (es1 ++ es2).
  rewrite timed_in_app, timed_out_app, timed_in_now, timed_out_now, Hi1, Ho1, Hi2, Ho2.
  rewrite timed_reads_app, timed_writes_app, (timed_reads_now now es2), (timed_writes_now now es2) by done.
  split_and!; [by eapply lsteps_app|done|done|]. apply Forall_app. split.
  - eapply Forall_impl; [exact Ht1|]. intros e He. apply elem_of_app. by left.
  - eapply Forall_impl; [exact Ht2|]. intros e ->. apply elem_of_app. right. left.
Qed.

(** What a call of a relay method leaves of the connection. *)
Definition conn_after {W} (now : Z) (c : Connection) (w : World W) : Connection :=
  set_conn_relay (w_relay w)
    (conn_traffic c ++ map (pair now) (drop (length (conn_traffic c)) (w_wire w))) c.

Lemma conn_after_wire {W} now c (io : W) w :
  evolves now (mkWorld (relay c) io [] (conn_traffic c).*2) w →
  (conn_traffic (conn_after now c w)).*2 = w_wire w.
Proof.
  intros (ops & Hw & _). cbn in *. rewrite fmap_app, Hw. rewrite drop_app_length' by (by rewrite length_fmap).
  f_equal. change (map (pair now) ops) with (pair now <$> ops). rewrite <-list_fmap_compose. apply list_fmap_id.
Qed.

Lemma conn_base_after {W} config now id c (io : W) w :
  conn_base config now id c → winv w → evolves now (mkWorld (relay c) io [] (conn_traffic c).*2) w →
  conn_base config now id (conn_after now c w).
Proof.
  intros [Hid Htok Hfd Hrel Hhist Hact] Iw Hev. pose proof (conn_after_wire _ _ _ _ Hev) as Hwire.
  destruct Hev as (ops & Hw & [Hst Hd Hun [Hp _]]). cbn in *.
  split; cbn; try done.
  - intros s. specialize (Hfd s). unfold relay_static in Hst. destruct s; cbn in *; congruence.
  - by rewrite Hwire.
  - destruct Hhist as (t0 & r0 & Hl & Hs0 & Hr). exists t0, r0. split_and!; [done|cbn; congruence|].
    intros s. destruct (Hr s) as [times Ht]. exists (times ++ [now]). cbn.
    rewrite Hw, drop_app_length' by (by rewrite length_fmap). by apply dir_ran_evolves with (direction_from s (relay c)).
  - destruct Hp; lia.
Qed.

Lemma conn_timed_after {W} config now id c events (io : W) w :
  conn_base config now id c → evolves now (mkWorld (relay c) io [] (conn_traffic c).*2) w →
  conn_timed config events c → conn_timed config events (conn_after now c w).
Proof.
  intros Hb (ops & _ & [Hst _ _ [Hp Hcon]]) [Hw Hi Hc]. pose proof (cb_activity _ _ _ _ Hb) as Hact. cbn in *.
  split; cbn; [done| |].
  - intros H. destruct (Hi H) as (e & He & Hf & Hd). exists e. split_and!; [done..|]. destruct Hp; lia.
  - intros H Hcon'. destruct (Hc H (Hcon Hcon')) as (e & He & Hf & Hd). exists e. split_and!; [done..|].
    unfold relay_static in Hst. assert (accepted_at_ (w_relay w) = accepted_at_ (relay c)) by congruence. congruence.
Qed.

(** ** The table of connections *)

Lemma live_fds_insert m id c :
  m !! id = None → live_fds (<[id := c]> m) ≡ₚ [client_fd c; upstream_fd c] ++ live_fds m.
Proof. intros Hn. unfold live_fds. by rewrite map_to_list_insert. Qed.

Lemma live_fds_delete m id c :
  m !! id = Some c → live_fds m ≡ₚ [client_fd c; upstream_fd c] ++ live_fds (delete id m).
Proof.
  intros Hc. rewrite <-(insert_delete_id m id c Hc) at 1. by rewrite live_fds_insert by apply lookup_delete_eq.
Qed.

Lemma live_fds_update m id c c' :
  m !! id = Some c → client_fd c' = client_fd c → upstream_fd c' = upstream_fd c →
  live_fds (<[id := c']> m) ≡ₚ live_fds m.
Proof.
  intros Hc H1 H2. rewrite (live_fds_delete m id c Hc), <-insert_delete_eq, live_fds_insert by apply lookup_delete_eq.
  by rewrite H1, H2.
Qed.

Lemma size_update {A} (m : gmap Z A) id c c' : m !! id = Some c → size (<[id := c']> m) = size m.
Proof. intros Hc. apply map_size_insert_Some. by exists c. Qed.

Lemma is_Some_update {A} (m : gmap Z A) id c c' i :
  m !! id = Some c → is_Some (<[id := c']> m !! i) ↔ is_Some (m !! i).
Proof.
  intros Hc. destruct (decide (id = i)) as [<-|Hne]; [|by rewrite lookup_insert_ne].
  rewrite lookup_insert_eq, Hc. by split; eauto.
Qed.

Lemma bound_to_update m id c c' token b :
  m !! id = Some c → bound_to (<[id := c']> m) token b ↔ bound_to m token b.
Proof. intros Hc. unfold bound_to. by rewrite (is_Some_update _ _ _ _ _ Hc). Qed.

(** ** Steps of the runtime *)

Section steps.
#[local] Set Default Proof Using "Type*".
Context {E : Type} `{KernelLaws E} (config : ProxyConfig).
Implicit Types (rt : ProxyRuntime) (e : E) (trace : list (Call * Reply)).

Abbreviation inv := (proxy_inv config).

Lemma inv_weaken now level level' extra extra' held rt e trace :
  (∀ id, level' id ≤ level id)%nat → extra ⊆ extra' →
  inv now level extra held rt e trace → inv now level' extra' held rt e trace.
Proof.
  intros Hle Hsub []. split; try done. intros id c Hc. apply conn_ok_le with (level id); [done|].
  apply conn_ok_later with now (extra ++ heap_ (timer_queue_ rt)); [lia| |auto].
  intros x. rewrite !elem_of_app. intros [?|?]; [left; by apply Hsub|by right].
Qed.

(** The level is irrelevant where there is no connection. *)
Lemma inv_level now level level' extra held rt e trace :
  (∀ id, is_Some (connections_ rt !! id) → level' id ≤ level id)%nat →
  inv now level extra held rt e trace → inv now level' extra held rt e trace.
Proof.
  intros Hle []. split; try done. intros id c Hc. apply conn_ok_le with (level id); eauto.
Qed.

Lemma inv_logger now level extra held rt e trace l :
  inv now level extra held rt e trace → inv now level extra held (set_logger l rt) e trace.
Proof. intros []. by split. Qed.

(** A system call that only reads. *)
Lemma inv_neutral now level extra held rt e trace c r e' :
  syscall e c = (r, e') → c ≠ SteadyNow → neutral (c, r) →
  inv now level extra held rt e trace → inv now level extra held rt e' (trace ++ [(c, r)]).
Proof.
  intros Hs Hc (Hr & Ho & Hcl & Ht) []. split; try done.
  - intros id x Hx. apply conn_ok_trace; auto.
  - pose proof (pending_le _ _ _ _ Hs). lia.
  - by rewrite all_opened_app, all_closed_app, Ho, Hcl, !app_nil_r.
  - intros d Hd. rewrite armed_app, Ht. auto.
  - by rewrite (clock_other _ _ _ _ Hs Hc).
Qed.

Lemma inv_open now level extra held rt e trace c r e' :
  syscall e c = (r, e') → (c = Accept ∨ c = OpenSocket ∨ ∃ path, c = OpenFile path) → 0 ≤ ret r →
  inv now level extra held rt e trace → inv now level extra (ret r :: held) rt e' (trace ++ [(c, r)]).
Proof.
  intros Hs Hc Hret []. assert (Hop : opened (c, r) = [ret r]).
  { destruct Hc as [->|[->|[path ->]]]; cbn; by destruct (Z.leb_spec 0 (ret r)); [|lia]. }
  assert (Hrest : closed (c, r) = [] ∧ timer_setting (c, r) = None ∧ ∀ t, registration t (c, r) = None)
    by (by destruct Hc as [->|[->|[path ->]]]). destruct Hrest as (Hcl & Ht & Hr).
  split; try done.
  - intros id x Hx. apply conn_ok_trace; auto.
  - pose proof (pending_le _ _ _ _ Hs). lia.
  - rewrite all_opened_app, all_closed_app, Hop, Hcl, app_nil_r, pi_fds0, Permutation_app_comm. cbn.
    by rewrite Permutation_middle.
  - intros d Hd. rewrite armed_app, Ht. auto.
  - rewrite (clock_other _ _ _ _ Hs); [done|]. by destruct Hc as [->|[->|[path ->]]].
Qed.

Lemma inv_close_fd now level extra held held' fd rt e trace r e' :
  syscall e (CloseFd fd) = (r, e') → held ≡ₚ fd :: held' →
  inv now level extra held rt e trace →
  inv now level extra held' rt e' (trace ++ [(CloseFd fd, r)]).
Proof.
  intros Hs Hp []. split; try done.
  - intros id x Hx. apply conn_ok_trace; auto.
  - pose proof (pending_le _ _ _ _ Hs). lia.
  - rewrite all_opened_app, all_closed_app. cbn. rewrite app_nil_r, pi_fds0, Hp. cbn.
    by rewrite <-app_assoc.
  - intros d Hd. rewrite armed_app. auto.
  - by rewrite (clock_other _ _ _ _ Hs).
Qed.

(** Reading the steady clock moves the present. *)
Lemma inv_steady_now now level extra held rt e trace r e' :
  syscall e SteadyNow = (r, e') →
  inv now level extra held rt e trace →
  now ≤ value r ∧ inv (value r) level extra held rt e' (trace ++ [(SteadyNow, r)]).
Proof.
  intros Hs []. destruct (clock_read _ _ _ Hs) as [Hle Hc]. split; [lia|]. split; try done.
  - intros id x Hx. apply conn_ok_trace; [done|].
    apply conn_ok_later with now (extra ++ heap_ (timer_queue_ rt)); [lia|done|auto].
  - pose proof (pending_le _ _ _ _ Hs). lia.
  - by rewrite all_opened_app, all_closed_app, !app_nil_r.
  - intros d Hd. rewrite armed_app. auto.
Qed.

(** Replacing a connection that keeps its descriptors. *)
Lemma inv_update now level level' extra held rt e trace id c c' :
  connections_ rt !! id = Some c → client_fd c' = client_fd c → upstream_fd c' = upstream_fd c →
  conn_ok config (level' id) now (extra ++ heap_ (timer_queue_ rt)) trace id c' →
  (∀ i, i ≠ id → level' i ≤ level i)%nat →
  inv now level extra held rt e trace →
  inv now level' extra held (set_connections (<[id := c']> (connections_ rt)) rt) e trace.
Proof.
  intros Hc H1 H2 Hok Hle []. split; cbn; try done.
  - intros i x. destruct (decide (i = id)) as [->|Hne].
    + rewrite lookup_insert_eq. by intros [= <-].
    + rewrite lookup_insert_ne by done. intros Hx. apply conn_ok_le with (level i); auto.
  - intros i Hi. apply pi_ids0. by apply (is_Some_update _ _ _ c' _ Hc).
  - intros t b. rewrite (bound_to_update _ _ _ c' _ _ Hc). apply pi_bindings0.
  - by rewrite (size_update _ _ _ _ Hc).
  - by rewrite (size_update _ _ _ _ Hc).
  - by rewrite (live_fds_update _ _ _ _ Hc).
Qed.

Lemma inv_raise now level level' extra held rt e trace id c :
  connections_ rt !! id = Some c →
  conn_ok config (level' id) now (extra ++ heap_ (timer_queue_ rt)) trace id c →
  (∀ i, i ≠ id → level' i ≤ level i)%nat →
  inv now level extra held rt e trace → inv now level' extra held rt e trace.
Proof.
  intros Hc Hok Hle []. split; try done. intros i x Hx. destruct (decide (i = id)) as [->|Hne].
  - by simplify_eq.
  - apply conn_ok_le with (level i); auto.
Qed.

(** Registering a token of a connection whose registrations are not claimed. *)
Lemma inv_epoll now level extra held rt e trace op fd mask token r e' id side :
  syscall e (EpollCtl op fd mask token) = (r, e') → token = token_for side id → level id = 0%nat →
  inv now level extra held rt e trace →
  inv now level extra held rt e' (trace ++ [(EpollCtl op fd mask token, r)]).
Proof.
  intros Hs Ht Hl []. split; try done.
  - intros i x Hx. pose proof (pi_conn0 i x Hx) as Hok. destruct (decide (i = id)) as [->|Hne].
    + rewrite Hl in *. destruct Hok as (Hb & _). split_and!; [done|lia..].
    + apply conn_ok_trace; [|done]. intros s. destruct Hok as ([_ Htok _ _ _ _] & _). rewrite Htok.
      destruct op; cbn; try done; (rewrite decide_False; [done|]); rewrite Ht; intros Heq;
        by apply token_for_inj in Heq as [_ ?].
  - pose proof (pending_le _ _ _ _ Hs). lia.
  - rewrite all_opened_app, all_closed_app. cbn. by rewrite !app_nil_r.
  - intros d Hd. rewrite armed_app. auto.
  - by rewrite (clock_other _ _ _ _ Hs).
Qed.

Lemma inv_timers now level level' extra extra' held rt e trace queue :
  (∀ id c, connections_ rt !! id = Some c →
    conn_ok config (level id) now (extra ++ heap_ (timer_queue_ rt)) trace id c →
    conn_ok config (level' id) now (extra' ++ heap_ queue) trace id c) →
  StronglySorted (λ a b, deadline a ≤ deadline b) (heap_ queue) →
  inv now level extra held rt e trace → inv now level' extra' held (set_timer_queue queue rt) e trace.
Proof. intros Hok Hs []. split; try done. intros id c Hc. apply Hok; auto. Qed.

Lemma later_deadlines x y :
  if later y x then deadline x ≤ deadline y else deadline y ≤ deadline x.
Proof. unfold later. destruct (Z.eqb_spec (deadline y) (deadline x)); cbn; case_Z; lia. Qed.

Lemma heap_push_deadlines x h :
  StronglySorted (λ a b, deadline a ≤ deadline b) h →
  StronglySorted (λ a b, deadline a ≤ deadline b) (heap_push x h).
Proof.
  induction 1 as [|y h Hs IH Hy]; cbn; [by repeat constructor|]. pose proof (later_deadlines x y) as Hl.
  destruct (later y x).
  - constructor; [by constructor|]. constructor; [done|].
    eapply Forall_impl; [exact Hy|]. intros z Hz. cbn in Hz. lia.
  - constructor; [done|]. apply Forall_forall. intros z [->|Hz]%elem_of_heap_push; [done|].
    rewrite Forall_forall in Hy. auto.
Qed.

(** A timer is added. *)
Lemma inv_schedule now level extra held rt e trace t id k :
  inv now level extra held rt e trace →
  inv now level extra held (set_timer_queue (schedule (timer_queue_ rt) t id k) rt) e trace.
Proof.
  intros I. eapply inv_timers; [|apply heap_push_deadlines, I|exact I]. intros i c Hc.
  apply conn_ok_later; [lia|]. intros x. cbn. rewrite !elem_of_app, elem_of_heap_push. tauto.
Qed.

(** A popped timer is still accounted for, as an extra one. *)
Lemma inv_popped now level held rt e trace event queue :
  pop_due (timer_queue_ rt) now = (Some event, queue) →
  inv now level [] held rt e trace →
  inv now level [event] held (set_timer_queue queue rt) e trace.
Proof.
  intros Hp I. apply pop_due_Some in Hp as (Hh & _). eapply inv_timers; [| |exact I].
  - intros i c Hc. cbn. by rewrite Hh.
  - pose proof (pi_sorted _ _ _ _ _ _ _ _ I) as Hs. rewrite Hh in Hs. by inversion Hs.
Qed.

(** Afterwards it no longer counts for the connection it belonged to. *)
Lemma inv_discard now level level' held rt e trace event :
  (∀ id, id ≠ connection_id event → level' id ≤ level id)%nat →
  (∀ c, connections_ rt !! connection_id event = Some c →
    conn_ok config (level (connection_id event)) now (event :: heap_ (timer_queue_ rt)) trace (connection_id event) c →
    conn_ok config (level' (connection_id event)) now (heap_ (timer_queue_ rt)) trace (connection_id event) c) →
  inv now level [event] held rt e trace → inv now level' [] held rt e trace.
Proof.
  intros Hle Hok []. split; try done. intros i c Hc. cbn. pose proof (pi_conn0 i c Hc) as Hi. cbn in Hi.
  destruct (decide (i = connection_id event)) as [->|Hne]; [by apply Hok|].
  apply conn_ok_le with (level i); [by apply Hle|]. destruct Hi as (Hb & H1 & H2 & H3).
  split_and!; [done|done| |done]. intros Hl. apply conn_timed_drop with event; [|auto].
  by rewrite (cb_id _ _ _ _ Hb).
Qed.

(** The timer descriptor is set. *)
Lemma inv_set_timer now level extra held rt e trace deadline r e' :
  let c := SetTimer (timer_spec deadline).1 (timer_spec deadline).2 in
  syscall e c = (r, e') →
  inv now level extra held rt e trace →
  inv now level extra held (if ret r <? 0 then rt else set_last_armed_deadline deadline rt) e' (trace ++ [(c, r)]).
Proof.
  intros c Hs []. set (rt' := if ret r <? 0 then rt else _).
  assert (Hrt : connections_ rt' = connections_ rt ∧ bindings_ rt' = bindings_ rt ∧ timer_queue_ rt' = timer_queue_ rt
    ∧ next_connection_id_ rt' = next_connection_id_ rt ∧ next_token_ rt' = next_token_ rt
    ∧ closes_fully_closed_ rt' = closes_fully_closed_ rt ∧ closes_reset_ rt' = closes_reset_ rt
    ∧ closes_failed_ rt' = closes_failed_ rt ∧ closes_timed_out_ rt' = closes_timed_out_ rt)
    by (unfold rt'; by destruct (ret r <? 0)).
  destruct Hrt as (Hcs & Hbs & Hq & Hn & Ht & Hc1 & Hc2 & Hc3 & Hc4).
  split; rewrite ?Hcs, ?Hbs, ?Hq, ?Hn, ?Ht, ?Hc1, ?Hc2, ?Hc3, ?Hc4; try done.
  - intros id x Hx. apply conn_ok_trace; auto.
  - pose proof (pending_le _ _ _ _ Hs). lia.
  - rewrite all_opened_app, all_closed_app. cbn. by rewrite !app_nil_r.
  - intros d. rewrite armed_app. unfold timer_setting, rt', c. cbn [fst snd].
    destruct (Z.ltb_spec (ret r) 0), (Z.leb_spec 0 (ret r)); try lia; [apply pi_armed0|].
    cbn [last_armed_deadline_ set_last_armed_deadline]. intros ->. by destruct (timer_spec (Some d)).
  - by rewrite (clock_other _ _ _ _ Hs).
Qed.

Lemma inv_disarmed now level extra held rt e trace :
  inv now level extra held rt e trace → inv now level extra held (set_last_armed_deadline None rt) e trace.
Proof. intros []. by split. Qed.

(** A connection leaves the table. *)
Lemma lookup_bindings_delete now level extra held rt e trace id c token b :
  connections_ rt !! id = Some c → inv now level extra held rt e trace →
  delete (upstream_token c) (delete (client_token c) (bindings_ rt)) !! token = Some b
  ↔ bound_to (delete id (connections_ rt)) token b.
Proof.
  intros Hc []. destruct (pi_conn0 id c Hc) as ([_ Ht _ _ _ _] & _).
  pose proof (Ht Client) as Htc. pose proof (Ht Upstream) as Htu. cbn [token_of] in *.
  rewrite !lookup_delete_Some, pi_bindings0, Htc, Htu. unfold bound_to. rewrite lookup_delete_is_Some. split.
  - intros (Hu & Hcl & Hs & ->). split_and!; [|done..]. intros Hid. rewrite <-Hid in *.
    by destruct (binding_side b).
  - intros ([Hne Hs] & ->). split_and!; [..|done|done]; intros Heq; by apply token_for_inj in Heq as [_ ?].
Qed.

Lemma inv_closed now level level' extra held rt e trace id c final l :
  connections_ rt !! id = Some c → (∀ i, i ≠ id → level' i ≤ level i)%nat →
  inv now level extra held rt e trace →
  inv now level' extra (upstream_fd c :: client_fd c :: held)
    (set_connections (delete id (connections_ rt))
      (count_close final (set_logger l
        (set_bindings (delete (upstream_token c) (delete (client_token c) (bindings_ rt))) rt)))) e trace.
Proof.
  intros Hc Hle I. set (rt' := set_connections _ _).
  assert (Hsz : Z.of_nat (size (connections_ rt)) = Z.of_nat (size (delete id (connections_ rt))) + 1).
  { rewrite map_size_delete_Some by eauto.
    assert (size (connections_ rt) ≠ 0%nat) by (intros Hz; apply map_size_empty_inv in Hz; rewrite Hz in Hc; done).
    lia. }
  assert (Hb : ∀ t b, delete (upstream_token c) (delete (client_token c) (bindings_ rt)) !! t = Some b
                ↔ bound_to (delete id (connections_ rt)) t b)
    by (intros; by eapply lookup_bindings_delete).
  destruct I.
  assert (Hfields : timer_queue_ rt' = timer_queue_ rt ∧ last_armed_deadline_ rt' = last_armed_deadline_ rt
    ∧ next_connection_id_ rt' = next_connection_id_ rt ∧ next_token_ rt' = next_token_ rt)
    by (unfold rt'; by destruct final). destruct Hfields as (Hq & Ha & Hn & Ht).
  assert (Hcloses : (0 ≤ closes_fully_closed_ rt' ∧ 0 ≤ closes_reset_ rt' ∧ 0 ≤ closes_failed_ rt' ∧ 0 ≤ closes_timed_out_ rt')
    ∧ closes_fully_closed_ rt' + closes_reset_ rt' + closes_failed_ rt' + closes_timed_out_ rt' =
      closes_fully_closed_ rt + closes_reset_ rt + closes_failed_ rt + closes_timed_out_ rt + 1).
  { unfold rt', accept_limit in *. destruct final; cbn; wrap_lia. }
  split; rewrite ?Hq, ?Ha, ?Hn, ?Ht; cbn [connections_ rt' set_connections]; try done; try lia.
  - intros i x [Hne Hx]%lookup_delete_Some. apply conn_ok_le with (level i); auto.
  - intros i [_ Hi]%lookup_delete_is_Some. auto.
  - intros t b. rewrite <-Hb. unfold rt'. by destruct final.
  - rewrite pi_fds0, (live_fds_delete _ _ _ Hc). apply Permutation_app_head. cbn.
    rewrite <-!Permutation_middle. apply Permutation_swap.
Qed.

(** A connection enters the table. *)
Lemma inv_inserted now level extra held held' rt e trace c :
  let id := next_connection_id_ rt in
  conn_base config now id c → level id = 0%nat →
  held ≡ₚ client_fd c :: upstream_fd c :: held' →
  Z.of_nat (size (connections_ rt)) < pc_max_connections config →
  next_connection_id_ rt + Z.of_nat (pending e) < accept_limit →
  inv now level extra held rt e trace →
  inv now level extra held'
    (set_connections (<[id := c]> (connections_ rt))
      (set_bindings (emplace (u64_succ (next_token_ rt)) (mkSocketBinding id Upstream)
                      (emplace (next_token_ rt) (mkSocketBinding id Client) (bindings_ rt)))
        (set_next_ids (u64_succ id) (u64_succ (u64_succ (next_token_ rt))) rt))) e trace.
Proof.
  intros id Hbase Hlevel Hheld Hmax Hbudget []. unfold accept_limit in *.
  assert (Hnew : connections_ rt !! id = None).
  { apply eq_None_not_Some. intros Hi%pi_ids0. unfold id in *. lia. }
  assert (Htok : next_token_ rt = token_for Client id ∧ u64_succ (next_token_ rt) = token_for Upstream id
    ∧ u64_succ (u64_succ (next_token_ rt)) = 2 * (id + 1) + 2 ∧ u64_succ id = id + 1).
  { unfold id, token_for in *. rewrite pi_token0. wrap_simpl. lia. }
  destruct Htok as (Ht1 & Ht2 & Ht3 & Ht4). rewrite Ht3, Ht2, Ht4, Ht1.
  assert (Hfree : ∀ side, bindings_ rt !! token_for side id = None).
  { intros side. apply eq_None_not_Some. intros [b [[x Hs] Hb]%pi_bindings0].
    apply token_for_inj in Hb as [_ Hid]. congruence. }
  unfold emplace. rewrite (Hfree Client).
  rewrite lookup_insert_ne by (intros Heq; by apply token_for_inj in Heq as [? _]). rewrite (Hfree Upstream).
  split; cbn; try done; try lia.
  - intros i x. destruct (decide (i = id)) as [->|Hne].
    + rewrite lookup_insert_eq. intros [= <-]. rewrite Hlevel. split_and!; [done|lia..].
    + rewrite lookup_insert_ne by done. apply pi_conn0.
  - intros i. rewrite lookup_insert_is_Some. intros [<-|[_ Hi]]; [lia|]. specialize (pi_ids0 i Hi). unfold id. lia.
  - intros t b. unfold bound_to. rewrite !lookup_insert_Some, pi_bindings0. unfold bound_to.
    rewrite lookup_insert_is_Some. destruct b as [i s]. cbn. split.
    + intros [[<- [= <- <-]]|[_ [[<- [= <- <-]]|[_ [Hs ->]]]]]; auto. split; [|done]. right. split; [|done].
      intros <-. rewrite Hnew in Hs. by destruct Hs.
    + intros [[<-|[Hne Hs]] ->]; [destruct s; [right; split; [|by left]|by left]|];
        [intros Heq; by apply token_for_inj in Heq as [? _]|].
      right. split; [intros Heq; by apply token_for_inj in Heq as [_ ?]|].
      right. split; [intros Heq; by apply token_for_inj in Heq as [_ ?]|done].
  - unfold accept_limit, id. lia.
  - rewrite map_size_insert_None by done. lia.
  - rewrite map_size_insert_None by done. unfold id. lia.
  - rewrite pi_fds0, (live_fds_insert _ _ _ Hnew), Hheld. cbn. apply Permutation_app_head.
    rewrite <-!Permutation_middle. done.
Qed.

(** One side's interest is registered anew. *)
Lemma inv_interest now level extra held rt e trace id c side mask r e' :
  let call := EpollCtl EpollMod (fd_of side c) mask (token_of side c) in
  connections_ rt !! id = Some c → (level id ≤ 2)%nat → syscall e call = (r, e') →
  inv now level extra held rt e trace →
  inv now level extra held (set_connections (<[id := set_mask side mask c]> (connections_ rt)) rt) e'
    (trace ++ [(call, r)]).
Proof.
  intros call Hc Hlevel Hs I. set (level0 := λ i, if decide (i = id) then 0%nat else level i).
  destruct (pi_conn _ _ _ _ _ _ _ _ I id c Hc) as ([Hid Ht Hf Hr Hh Ha] & Hreg & Htim & _).
  apply inv_update with (level := level0) (c := c); try done; try (by destruct side).
  - split_and!; [| | |lia].
    + split; try done; destruct side; done.
    + intros Hl s. pose proof (Hreg Hl s) as Hold. rewrite registered_app. cbn.
      assert (Hts : token_of s (set_mask side mask c) = token_of s c) by (by destruct side, s).
      rewrite Hts. case_decide as Heq.
      * rewrite !Ht in Heq. apply token_for_inj in Heq as [-> _]. by destruct s.
      * rewrite Hold. by destruct side, s.
    + intros Hl. destruct (Htim Hl) as [H1 H2 H3]. by split; destruct side.
  - intros i Hi. unfold level0. by rewrite decide_False.
  - apply inv_epoll with (e := e) (id := id) (side := side); [done|apply Ht|unfold level0; by rewrite decide_True|].
    apply inv_level with level; [|done]. intros i _. unfold level0. case_decide; lia.
Qed.
End steps.
