(* ===== verification/ProxySetupSpec.v ===== *)
(** * What the set-up guarantees

    The constructor of [ProxyRuntime] obtains everything or nothing: on an
    exception it has closed each descriptor it obtained, and otherwise it holds
    the four of them, the first three registered with epoll. *)

From Stdlib Require Import ZArith Lia Ascii String.
From stdpp Require Import base numbers list option strings pretty gmap.
From S2P Require Import Prelude Text Endpoint SocketIo Relay ProxyConfig Proxy ProxyInv.
From S2P Require Import ProxySetup.

Local Open Scope Z_scope.

(** The calls keep to the configured endpoint. *)
Definition listens_as_configured `{Inet} (config : ProxyConfig) (p : Call * Reply) : Prop :=
  match p.1 with
  | BindListener _ address => to_sockaddr (pc_listen config) = Ok address
  | ListenOn _ backlog => backlog = Z.min (pc_max_connections config) SOMAXCONN
  | _ => True
  end.

Section setup.
#[local] Set Default Proof Using "Type*".
Context {E : Type} `{KernelLaws E} `{Libc} `{Inet} (config : ProxyConfig).
Implicit Types (w : SetupWorld E) (calls : list (Call * Reply)).

(** The set-up went on by [calls]. *)
Record went (w : SetupWorld E) (calls : list (Call * Reply)) (w' : SetupWorld E) : Prop := {
  went_calls : su_calls w' = su_calls w ++ calls;
  went_pending : (pending (su_env w') ≤ pending (su_env w))%nat;
  went_configured : Forall (listens_as_configured config) calls;
}.

(** Some calls were made that opened and closed these. *)
Definition balance (w : SetupWorld E) (opens closes : list Z) (w' : SetupWorld E) : Prop :=
  ∃ calls, went w calls w' ∧ all_opened calls = opens ∧ all_closed calls = closes.

Lemma went_trans w1 w2 w3 c1 c2 : went w1 c1 w2 → went w2 c2 w3 → went w1 (c1 ++ c2) w3.
Proof.
  intros [Hc1 Hp1 Hf1] [Hc2 Hp2 Hf2]. split; [by rewrite Hc2, Hc1, app_assoc|lia|by apply Forall_app].
Qed.

Lemma balance_refl w : balance w [] [] w.
Proof. exists []. split; [split; [by rewrite app_nil_r|done|constructor]|done]. Qed.

Lemma balance_trans w1 w2 w3 o1 o2 c1 c2 :
  balance w1 o1 c1 w2 → balance w2 o2 c2 w3 → balance w1 (o1 ++ o2) (c1 ++ c2) w3.
Proof.
  intros (calls1 & W1 & <- & <-) (calls2 & W2 & <- & <-). exists (calls1 ++ calls2).
  split; [by eapply went_trans|]. unfold all_opened, all_closed. by rewrite !bind_app.
Qed.

Lemma ask_ok c w :
  (∀ r, listens_as_configured config (c, r)) →
  runs (ask c) w (λ r w', went w [(c, r)] w' ∧ balance w (opened (c, r)) (closed (c, r)) w').
Proof.
  intros Hc. unfold runs, ask. destruct (syscall (su_env w) c) as [r e] eqn:Hs. cbn.
  assert (W : went w [(c, r)] (mkSetupWorld e (su_calls w ++ [(c, r)]))).
  { split; [done|by eapply pending_le|by repeat constructor]. }
  split; [done|]. exists [(c, r)]. split; [done|]. unfold all_opened, all_closed. cbn. by rewrite !app_nil_r.
Qed.

(** A call that neither opens nor closes. *)
Lemma ask_plain c w :
  (∀ r, listens_as_configured config (c, r)) → (∀ r, opened (c, r) = [] ∧ closed (c, r) = []) →
  runs (ask c) w (λ r w', balance w [] [] w').
Proof.
  intros Hc Hp. eapply runs_mono; [by apply ask_ok|]. intros r w' [_ Hb]. destruct (Hp r) as [Ho Hcl]. by rewrite Ho, Hcl in Hb.
Qed.

(** A call that opens a descriptor. *)
Lemma ask_open c w :
  (∀ r, listens_as_configured config (c, r)) →
  (∀ r, opened (c, r) = (if 0 <=? ret r then [ret r] else []) ∧ closed (c, r) = []) →
  runs (ask c) w (λ r w', balance w (if ret r <? 0 then [] else [ret r]) [] w').
Proof.
  intros Hc Hp. eapply runs_mono; [by apply ask_ok|]. intros r w' [_ Hb]. destruct (Hp r) as [Ho Hcl]. rewrite Ho, Hcl in Hb.
  destruct (Z.ltb_spec (ret r) 0), (Z.leb_spec 0 (ret r)); done || lia.
Qed.

Lemma close_all_ok fds w : runs (close_all fds) w (λ _ w', balance w [] fds w').
Proof.
  revert w. induction fds as [|fd fds IH]; intros w; cbn [close_all]; [apply runs_ret, balance_refl|].
  eapply runs_bind; [by apply ask_ok|]. intros r w1 [_ B1]. eapply runs_mono; [apply IH|]. intros ? w2 B2.
  exact (balance_trans _ _ _ _ _ _ _ B1 B2).
Qed.

Lemma fails_ok {A} w0 opens closes fds what w :
  balance w0 opens closes w →
  runs (fails (A := A) fds what) w (λ r w', match r with inl _ => balance w0 opens (closes ++ fds) w' | inr _ => False end).
Proof.
  intros B. unfold fails. eapply runs_bind; [apply close_all_ok|]. intros ? w' B'. apply runs_ret.
  pose proof (balance_trans _ _ _ _ _ _ _ B B') as Bt. by rewrite app_nil_r in Bt.
Qed.

(** A step that creates a descriptor: on failure everything is closed again. *)
Definition creates (m : M (SetupWorld E) (string + Z)) : Prop :=
  ∀ w0 opens w, balance w0 opens [] w →
  runs m w (λ r w', match r with
    | inl _ => ∃ more, balance w0 (opens ++ more) more w'
    | inr fd => balance w0 (opens ++ [fd]) [] w'
    end).

Lemma plain_step w0 opens w w' : balance w0 opens [] w → balance w [] [] w' → balance w0 opens [] w'.
Proof. intros B1 B2. pose proof (balance_trans _ _ _ _ _ _ _ B1 B2) as B. by rewrite !app_nil_r in B. Qed.

Lemma fails_creates (opens more : list Z) what w0 w :
  balance w0 (opens ++ more) [] w →
  runs (fails (A := Z) more what) w (λ r w', match r with
    | inl _ => ∃ more, balance w0 (opens ++ more) more w'
    | inr fd => balance w0 (opens ++ [fd]) [] w'
    end).
Proof. intros B. eapply runs_mono; [by apply fails_ok|]. intros [what'|fd] w' Hr; [by exists more|done]. Qed.

Lemma proxy_listener_creates : creates (proxy_listener config).
Proof.
  intros w0 opens w B. unfold proxy_listener. eapply runs_bind; [by apply ask_open|]. intros r w1 B1.
  pose proof (balance_trans _ _ _ _ _ _ _ B B1) as B1'. destruct (ret r <? 0).
  { by apply (fails_creates opens []). }
  eapply runs_bind; [by apply ask_plain|]. intros r2 w2 B2. pose proof (plain_step _ _ _ _ B1' B2) as B2'.
  destruct (ret r2 <? 0); [by apply (fails_creates opens [ret r])|].
  destruct (to_sockaddr (pc_listen config)) as [address|e| |] eqn:Ha; try by apply (fails_creates opens [ret r]).
  eapply runs_bind; [by apply ask_plain|]. intros r3 w3 B3. pose proof (plain_step _ _ _ _ B2' B3) as B3'.
  destruct (ret r3 <? 0); [by apply (fails_creates opens [ret r])|].
  eapply runs_bind; [by apply ask_plain|]. intros r4 w4 B4. pose proof (plain_step _ _ _ _ B3' B4) as B4'.
  destruct (ret r4 <? 0); [by apply (fails_creates opens [ret r])|by apply runs_ret].
Qed.

Lemma signal_fd_creates : creates create_signal_fd.
Proof.
  intros w0 opens w B. unfold create_signal_fd.
  eapply runs_bind; [by apply ask_plain|]. intros r1 w1 B1. pose proof (plain_step _ _ _ _ B B1) as B1'.
  destruct (ret r1 <? 0); [apply (fails_creates opens []); by rewrite app_nil_r|].
  eapply runs_bind; [by apply ask_plain|]. intros r2 w2 B2. pose proof (plain_step _ _ _ _ B1' B2) as B2'.
  destruct (ret r2 <? 0); [apply (fails_creates opens []); by rewrite app_nil_r|].
  eapply runs_bind; [by apply ask_open|]. intros r3 w3 B3. pose proof (balance_trans _ _ _ _ _ _ _ B2' B3) as B3'.
  destruct (ret r3 <? 0); [by apply (fails_creates opens [])|by apply runs_ret].
Qed.

Lemma timer_fd_creates : creates create_timer_fd.
Proof.
  intros w0 opens w B. unfold create_timer_fd.
  eapply runs_bind; [by apply ask_open|]. intros r w1 B1. pose proof (balance_trans _ _ _ _ _ _ _ B B1) as B1'.
  destruct (ret r <? 0); [by apply (fails_creates opens [])|by apply runs_ret].
Qed.

Lemma make_logger_ok w : runs make_logger w (λ _ w', balance w [] [] w').
Proof.
  unfold make_logger. eapply runs_bind; [by apply ask_plain|]. intros r w1 B1. destruct (0 <=? ret r); [|by apply runs_ret].
  eapply runs_bind; [by apply ask_plain|]. intros r2 w2 B2. apply runs_ret. exact (plain_step _ _ _ _ B1 B2).
Qed.

(** The registrations, all accepted. *)
Definition registrations_of (registrations : list (Z * Z)) (calls : list (Call * Reply)) : Prop :=
  Forall2 (λ x p, p.1 = EpollCtl EpollAdd x.1 EPOLLIN x.2 ∧ 0 ≤ ret p.2) registrations calls.

Lemma register_all_ok closing registrations w :
  runs (register_all closing registrations) w (λ failure w', match failure with
    | Some _ => balance w [] closing w'
    | None => ∃ calls, went w calls w' ∧ registrations_of registrations calls
    end).
Proof.
  revert w. induction registrations as [|[fd token] registrations IH]; intros w; cbn [register_all].
  { apply runs_ret. exists []. split; [split; [by rewrite app_nil_r|done|constructor]|constructor]. }
  eapply runs_bind; [by apply ask_ok|]. intros r w1 [W1 B1]. destruct (Z.ltb_spec (ret r) 0).
  - eapply runs_bind; [apply close_all_ok|]. intros ? w2 B2. apply runs_ret. exact (balance_trans _ _ _ _ _ _ _ B1 B2).
  - eapply runs_mono; [apply IH|]. intros [what|] w2.
    + intros B2. exact (balance_trans _ _ _ _ _ _ _ B1 B2).
    + intros (calls & W2 & Hr). exists ([(EpollCtl EpollAdd fd EPOLLIN token, r)] ++ calls).
      split; [by eapply went_trans|by constructor].
Qed.

Lemma registrations_plain registrations calls :
  registrations_of registrations calls → all_opened calls = [] ∧ all_closed calls = [].
Proof.
  induction 1 as [|[fd token] [c r] registrations calls [Hc _] _ [IHo IHc]]; [done|]. cbn in Hc. subst c.
  unfold all_opened, all_closed in *. cbn. by rewrite IHo, IHc.
Qed.

(** What the constructor leaves behind. *)
Definition set_up_result (w0 : SetupWorld E) (r : string + Descriptors) (w : SetupWorld E) : Prop :=
  match r with
  | inl _ => ∃ calls, went w0 calls w ∧ all_closed calls ≡ₚ all_opened calls
  | inr d => ∃ before registered,
      went w0 (before ++ registered) w
      ∧ all_opened before = [listener_ d; signal_fd_ d; timer_fd_ d; epoll_fd_ d] ∧ all_closed before = []
      ∧ registrations_of [(listener_ d, kListenerToken); (signal_fd_ d, kSignalToken); (timer_fd_ d, kTimerToken)] registered
  end.

(** A failing step, and the members before it destroyed. *)
Lemma fails_result (opens more : list Z) what w0 w fds :
  balance w0 (opens ++ more) more w → fds ≡ₚ opens →
  runs (fails (A := Descriptors) fds what) w (set_up_result w0).
Proof.
  intros B Hp. eapply runs_mono; [by apply fails_ok|]. intros [what'|d] w' Hr; [|done].
  destruct Hr as (calls & W & Ho & Hc). exists calls. split; [done|]. rewrite Ho, Hc, Hp. apply Permutation_app_comm.
Qed.

Lemma set_up_ok w : runs (set_up config) w (set_up_result w).
Proof.
  unfold set_up. eapply runs_bind; [apply make_logger_ok|]. intros ? w' B'.
  eapply runs_bind; [by apply (proxy_listener_creates w [])|].
  intros [what|listener] w1 B1; cbn [app] in B1.
  { apply runs_ret. destruct B1 as (more & calls & W & Ho & Hc). exists calls. split; [done|]. by rewrite Ho, Hc. }
  eapply runs_bind; [by apply (signal_fd_creates w [listener])|]. intros [what|signal] w2 B2.
  { destruct B2 as (more & B2). by apply (fails_result [listener] more). }
  eapply runs_bind; [by apply (timer_fd_creates w ([listener] ++ [signal]))|]. intros [what|timer] w3 B3.
  { destruct B3 as (more & B3). apply (fails_result ([listener] ++ [signal]) more); [done|constructor]. }
  eapply runs_bind; [by apply ask_open|]. intros r w4 B4. pose proof (balance_trans _ _ _ _ _ _ _ B3 B4) as B4'.
  destruct (ret r <? 0).
  { apply (fails_result [listener; signal; timer] []); [done|].
    exact (Permutation_sym (Permutation_rev [listener; signal; timer])). }
  cbn [app] in B4'. eapply runs_bind; [apply register_all_ok|]. intros [what|] w5 Hreg; apply runs_ret.
  - pose proof (balance_trans _ _ _ _ _ _ _ B4' Hreg) as (calls & W & Ho & Hc). exists calls. split; [done|].
    rewrite Ho, Hc. exact (Permutation_sym (Permutation_rev [listener; signal; timer; ret r])).
  - destruct B4' as (before & W4 & Ho & Hc), Hreg as (registered & W5 & Hr). exists before, registered.
    split_and!; [by eapply went_trans|done|done|done].
Qed.

(** C19: the set-up of the proxy is all or nothing, whatever the kernel answers:
    it returns; if it fails with an exception, every descriptor it obtained has
    been closed once; otherwise it holds four descriptors, closed none, and the
    listener, the signal and the timer descriptor are registered for reading
    under the tokens 1, 2 and 3. It binds only the configured endpoint, and
    listens with the connection limit as its backlog, cut at the system's. *)
Theorem set_up_all_or_nothing env :
  runs (set_up config) (mkSetupWorld env []) (λ r w,
    Forall (listens_as_configured config) (su_calls w)
    ∧ match r with
      | inl _ => all_closed (su_calls w) ≡ₚ all_opened (su_calls w)
      | inr d => ∃ before registered,
          su_calls w = before ++ registered
          ∧ all_opened before = [listener_ d; signal_fd_ d; timer_fd_ d; epoll_fd_ d] ∧ all_closed before = []
          ∧ registrations_of [(listener_ d, kListenerToken); (signal_fd_ d, kSignalToken); (timer_fd_ d, kTimerToken)]
              registered
      end).
Proof.
  eapply runs_mono; [apply set_up_ok|]. intros [what|d] w.
  - intros (calls & [Hc _ Hf] & Hp). cbn in Hc. by subst calls.
  - intros (before & registered & [Hc _ Hf] & Hr). cbn in Hc. rewrite Hc. split; [done|]. by exists before, registered.
Qed.
End setup.
