(* ===== verification/ProxyFacts.v ===== *)
(** * The operations of the event loop keep the invariant

    [pkeeps now m s Q]: started in [s], the method returns a result and a state
    that satisfy [Q], or throws because the kernel refused an epoll call; it
    neither runs into undefined behaviour nor out of fuel. Meanwhile no timer
    that is due at [now] was added. *)

From Stdlib Require Import ZArith Lia Init.Byte Ascii String Sorted.
From stdpp Require Import base numbers list option strings pretty gmap.
From S2P Require Import Prelude Text Endpoint ByteQueue Backpressure DelayLine TokenBucket.
From S2P Require Import FaultRng FaultPlan.
From S2P Require Import ConnectionState TimerQueue SocketIo Relay RelayDirection RelayFacts.
From S2P Require Import RelayQueries RelayRun.
From S2P Require Import RelaySpec Logger RelayReport ProxyConfig Proxy ProxyLoop ProxyWalk.
From S2P Require Import ProxyInv.

Local Open Scope Z_scope.

Lemma alter_Some {A} (f : A → A) (m : gmap Z A) i x : m !! i = Some x → alter f i m = <[i := f x]> m.
Proof.
  intros Hx. apply map_eq. intros j. destruct (decide (i = j)) as [<-|Hne].
  - by rewrite lookup_alter_eq, lookup_insert_eq, Hx.
  - by rewrite lookup_alter_ne, lookup_insert_ne.
Qed.

(** Timers of a queue that are due. *)
Definition due_count (now : Z) (h : list TimerEvent) : nat := length (filter (λ e, deadline e ≤ now) h).

Arguments due_count : simpl never.

Lemma due_count_push now e h : now < deadline e → due_count now (heap_push e h) = due_count now h.
Proof.
  intros He. unfold due_count. rewrite heap_push_permutation, filter_cons_False by lia. done.
Qed.

(** The kernel accepts every registration and wait. *)
Definition epoll_reliable (E : Type) `{Kernel E} : Prop :=
  ∀ e c r e', syscall e c = (r, e') →
  match c with
  | EpollCtl EpollAdd _ _ _ => 0 ≤ ret r
  | EpollCtl EpollMod _ _ _ => 0 ≤ ret r ∨ errno r = ENOENT
  | EpollWait => 0 ≤ ret r ∨ errno r = EINTR
  | _ => True
  end.

(** Connections are numbered upwards: one that is not in the table any more does
    not come back. *)
Definition forward (r r' : ProxyRuntime) : Prop :=
  next_connection_id_ r ≤ next_connection_id_ r'
  ∧ ∀ id, id < next_connection_id_ r → is_Some (connections_ r' !! id) → is_Some (connections_ r !! id).

#[export] Instance forward_preorder : PreOrder forward.
Proof.
  split.
  - by split.
  - intros r1 r2 r3 [N1 C1] [N2 C2]. split; [lia|]. intros id Hid Hc. apply C1, C2; [done|lia|done].
Qed.

Lemma forward_domain r r' :
  next_connection_id_ r' = next_connection_id_ r →
  (∀ id, is_Some (connections_ r' !! id) → is_Some (connections_ r !! id)) → forward r r'.
Proof. intros Hn Hc. split; [lia|auto]. Qed.

Lemma forward_same r r' :
  next_connection_id_ r' = next_connection_id_ r → connections_ r' = connections_ r → forward r r'.
Proof. intros Hn Hc. apply forward_domain; [done|]. by rewrite Hc. Qed.

Lemma forward_alter f id r : forward r (set_connections (alter f id (connections_ r)) r).
Proof.
  apply forward_domain; [done|]. intros i. cbn. destruct (decide (id = i)) as [<-|Hne].
  - rewrite lookup_alter_eq. by intros [c (x & -> & _)%fmap_Some]; eauto.
  - by rewrite lookup_alter_ne.
Qed.

(** Updates of the runtime that neither number nor enter a connection. *)
Ltac forwards := first [by apply forward_same|apply forward_alter].

Section facts.
#[local] Set Default Proof Using "Type*".
Context {W E Out : Type} `{SocketIoLaws W} `{KernelLaws E} `{OutputLaws Out}.
Context `{Libc} `{Inet} `{UnorderedMap} (config : ProxyConfig).

Abbreviation PW := (ProxyWorld W E Out).
Abbreviation PM := (M PW).
Implicit Types (s : PW) (c : Connection).

Definition connections s : gmap Z Connection := connections_ (pw_runtime s).
Definition timers s : list TimerEvent := heap_ (timer_queue_ (pw_runtime s)).
Definition pinv (now : Z) (level : Z → nat) (extra : list TimerEvent) (held : list Z) s : Prop :=
  proxy_inv config now level extra held (pw_runtime s) (pw_env s) (pw_trace s).

Definition frame (now : Z) s s' : Prop :=
  (pending (pw_env s') ≤ pending (pw_env s))%nat
  ∧ (due_count now (timers s') ≤ due_count now (timers s))%nat
  ∧ forward (pw_runtime s) (pw_runtime s').

#[export] Instance frame_preorder now : PreOrder (frame now).
Proof.
  split.
  - intros s. by split_and!.
  - intros s1 s2 s3 (? & ? & ?) (? & ? & ?). split_and!; [lia|lia|by etrans].
Qed.

Definition pkeeps {A} (now : Z) (m : PM A) s (Q : A → PW → Prop) : Prop :=
  match m s with
  | Ok (a, s') => frame now s s' ∧ Q a s'
  | Throw (RuntimeError _) => ¬ epoll_reliable E
  | _ => False
  end.

Lemma pkeeps_ret {A} now (a : A) s (Q : A → PW → Prop) : Q a s → pkeeps now (mret a) s Q.
Proof. by split. Qed.

Lemma pkeeps_bind {A B} now (m : PM A) (f : A → PM B) s P Q :
  pkeeps now m s P → (∀ a s', P a s' → pkeeps now (f a) s' Q) → pkeeps now (m ≫= f) s Q.
Proof.
  unfold pkeeps, mbind, M_bind. destruct (m s) as [[a s1]|[]| |]; try tauto.
  intros [F1 HP] Hf. specialize (Hf a s1 HP). destruct (f a s1) as [[b s2]|[]| |]; try tauto.
  destruct Hf as [F2 HQ]. split; [by etrans|done].
Qed.

Lemma pkeeps_mono {A} now (m : PM A) s (P Q : A → PW → Prop) :
  pkeeps now m s P → (∀ a s', P a s' → Q a s') → pkeeps now m s Q.
Proof. unfold pkeeps. destruct (m s) as [[a s1]|[]| |]; try tauto. intros [? ?] HPQ. auto. Qed.

Lemma pkeeps_frame {A} now (m : PM A) s (Q : A → PW → Prop) :
  pkeeps now m s Q → pkeeps now m s (λ a s', frame now s s' ∧ Q a s').
Proof. unfold pkeeps. destruct (m s) as [[a s1]|[]| |]; tauto. Qed.

Lemma pkeeps_gets_bind {X B} now (g : PW → X) (f : X → PM B) s Q :
  pkeeps now (f (g s)) s Q → pkeeps now (gets g ≫= f) s Q.
Proof. done. Qed.

(** An update of the runtime that leaves the timers alone. *)
Lemma pkeeps_modify_bind {B} now g (k : unit → PM B) s (Q : B → PW → Prop) :
  timer_queue_ (g (pw_runtime s)) = timer_queue_ (pw_runtime s) → forward (pw_runtime s) (g (pw_runtime s)) →
  pkeeps now (k tt) (set_runtime (g (pw_runtime s)) s) Q →
  pkeeps now (modify_runtime g ≫= k) s Q.
Proof.
  intros Ht Hf Hk. unfold pkeeps, mbind, M_bind, modify_runtime, modify in *. cbn.
  destruct (k tt _) as [[b s2]|[]| |]; try tauto. destruct Hk as [(Hp & Hd & Hf') HQ]. split; [|done].
  split_and!; [done| |by etrans]. unfold timers in *. cbn in Hd. by rewrite Ht in Hd.
Qed.

Lemma pkeeps_lift_bind {X B} now (o : outcome X) (f : X → PM B) s P Q :
  succeeds o P → (∀ x, P x → pkeeps now (f x) s Q) → pkeeps now (lift o ≫= f) s Q.
Proof. destruct o as [x| | |]; cbn; [|done..]. intros HP Hf. exact (Hf x HP). Qed.

Lemma pkeeps_modify now g s (Q : unit → PW → Prop) :
  (due_count now (heap_ (timer_queue_ (g (pw_runtime s)))) ≤ due_count now (timers s))%nat →
  forward (pw_runtime s) (g (pw_runtime s)) →
  Q tt (set_runtime (g (pw_runtime s)) s) → pkeeps now (modify_runtime g) s Q.
Proof. intros Hd Hf HQ. split; [|done]. by split_and!. Qed.

(** The connection that is erased is in the table; the one that is entered is not. *)
Lemma pkeeps_erase_bind {B} now id (k : unit → PM B) s (Q : B → PW → Prop) :
  is_Some (connections s !! id) →
  pkeeps now (k tt) (note (Ended id) (set_runtime (set_connections (delete id (connections s)) (pw_runtime s)) s)) Q →
  pkeeps now (erase_connection id ≫= k) s Q.
Proof.
  intros [c Hc] Hk. unfold pkeeps, mbind, M_bind, erase_connection in *. unfold connections in *. rewrite Hc.
  destruct (k tt _) as [[b s2]|[]| |]; try tauto. destruct Hk as [(Hp & Hd & Hf) HQ]. split; [|done].
  split_and!; [done|done|]. etrans; [|exact Hf]. apply forward_domain; [done|]. intros i. cbn.
  intros [x [_ Hx]%lookup_delete_Some]. by exists x.
Qed.

(** ** System calls and the log *)

Definition after_call s (call : Call) (r : Reply) (e' : E) : PW :=
  mkProxyWorld (pw_runtime s) (pw_io s) e' (pw_out s) (pw_log s) (pw_trace s ++ [(call, r)])
    (pw_history s).

Lemma sys_ok now call s (Q : Reply → PW → Prop) :
  (∀ r e', syscall (pw_env s) call = (r, e') → Q r (after_call s call r e')) →
  pkeeps now (sys call) s Q.
Proof.
  intros HQ. unfold pkeeps, sys. destruct (syscall (pw_env s) call) as [r e'] eqn:Hs.
  split; [|by apply HQ]. split_and!; [by apply (pending_le _ _ _ _ Hs)|done|done].
Qed.

(** The clock that has just been read is the new present. *)
Lemma steady_now_ok old now level extra held s (Q : Z → PW → Prop) :
  pinv old level extra held s →
  (∀ t s', old ≤ t → pinv t level extra held s' → pw_runtime s' = pw_runtime s → Q t s') →
  pkeeps now steady_now s Q.
Proof.
  intros I HQ. apply pkeeps_bind with (P := λ r s', pw_runtime s' = pw_runtime s ∧ old ≤ value r
    ∧ pinv (value r) level extra held s').
  - apply sys_ok. intros r e' Hs. destruct (inv_steady_now _ _ _ _ _ _ _ _ _ _ Hs I). done.
  - intros r s' (Hr & Hle & I'). apply pkeeps_ret. by apply HQ.
Qed.

(** Nothing but the logger changed. *)
Definition logged s s' : Prop :=
  pw_io s' = pw_io s ∧ ∃ l, pw_runtime s' = set_logger l (pw_runtime s).

#[export] Instance logged_preorder : PreOrder logged.
Proof.
  split.
  - intros s. split; [done|]. exists (logger_ (pw_runtime s)). by destruct (pw_runtime s).
  - intros s1 s2 s3 [I1 [l1 R1]] [I2 [l2 R2]]. split; [congruence|]. exists l2. by rewrite R2, R1.
Qed.

Lemma logged_connections s s' : logged s s' → connections s' = connections s.
Proof. unfold connections. by intros [_ [l ->]]. Qed.
Lemma logged_timers s s' : logged s s' → timers s' = timers s.
Proof. unfold timers. by intros [_ [l ->]]. Qed.

Definition after_log s (l : Logger) (o : Out) (rec : LogRecord) (r : Reply) (e' : E) : PW :=
  mkProxyWorld (set_logger l (pw_runtime s)) (pw_io s) e' o (pw_log s ++ [rec]) (pw_trace s ++ [(SystemNow, r)])
    (pw_history s).

Lemma log_event_exact now name id state detail s (Q : unit → PW → Prop) :
  (∀ l o r e', syscall (pw_env s) SystemNow = (r, e') →
    Q tt (after_log s l o (mkLogRecord name id state detail) r e')) →
  pkeeps now (log_event name id state detail) s Q.
Proof.
  intros HQ. apply pkeeps_bind with (P := λ r s', ∃ e', syscall (pw_env s) SystemNow = (r, e')
    ∧ s' = after_call s SystemNow r e').
  { apply sys_ok. eauto. }
  intros r s1 (e' & Hs & ->). unfold pkeeps, write_log, Logger.event. cbn [pw_runtime pw_out after_call].
  set (line := event_line _ _ _ _ _).
  pose proof (write_loop_final (S (write_interruptions (pw_out s))) (pw_out s) line ltac:(lia)) as Hw.
  destruct (write_loop _ _ _) as [[[result err] o]|[]| |]; cbn in Hw; try done.
  outcome_cbn. split; [|by apply (HQ _ o)]. split_and!; [done|done|forwards].
Qed.

Lemma log_event_bind {B} now name id state detail (k : unit → PM B) s (Q : B → PW → Prop) :
  (∀ l o r e', syscall (pw_env s) SystemNow = (r, e') →
    pkeeps now (k tt) (after_log s l o (mkLogRecord name id state detail) r e') Q) →
  pkeeps now (log_event name id state detail ≫= k) s Q.
Proof.
  intros HQ. eapply pkeeps_bind with (P := λ _ s', ∃ l o r e', syscall (pw_env s) SystemNow = (r, e')
    ∧ s' = after_log s l o (mkLogRecord name id state detail) r e').
  - apply log_event_exact. intros l o r e' Hs. by exists l, o, r, e'.
  - intros [] s' (l & o & r & e' & Hs & ->). by apply HQ.
Qed.

Lemma neutral_system_now r : neutral (SystemNow, r).
Proof. by repeat split. Qed.

Lemma log_event_ok now name id state detail level extra held s :
  pinv now level extra held s →
  pkeeps now (log_event name id state detail) s (λ _ s', pinv now level extra held s' ∧ logged s s').
Proof.
  intros I. apply log_event_exact. intros l o r e' Hs. split.
  - apply inv_logger. by apply inv_neutral with (pw_env s); [|done|apply neutral_system_now|].
  - split; [done|]. by exists l.
Qed.

Lemma forward_events_ok now id events level extra held s :
  pinv now level extra held s →
  pkeeps now (forward_events id events) s (λ _ s', pinv now level extra held s' ∧ logged s s').
Proof.
  revert s. induction events as [|ev events IH]; intros s I; [by apply pkeeps_ret|]. cbn [forward_events].
  eapply pkeeps_bind; [by apply log_event_ok|]. intros _ s1 [I1 L1].
  eapply pkeeps_mono; [by apply IH|]. intros _ s2 [I2 L2]. split; [done|by etrans].
Qed.

Lemma close_fd_ok now level extra held held' fd s :
  pinv now level extra held s → held ≡ₚ fd :: held' →
  pkeeps now (close_fd fd) s (λ _ s', pinv now level extra held' s' ∧ pw_runtime s' = pw_runtime s).
Proof.
  intros I Hp. eapply pkeeps_bind with (P := λ _ s', pinv now level extra held' s' ∧ pw_runtime s' = pw_runtime s).
  - apply sys_ok. intros r e' Hs. split; [|done]. by eapply inv_close_fd.
  - intros _ s' ?. by apply pkeeps_ret.
Qed.

(** ** Closing *)

Lemma close_connection_ok now id final detail level level' extra held s :
  pinv now level extra held s → (∀ i, i ≠ id → level' i ≤ level i)%nat →
  pkeeps now (close_connection id final detail now) s (λ _ s',
    pinv now level' extra held s' ∧ connections s' = delete id (connections s) ∧ timers s' = timers s).
Proof.
  intros I Hle. unfold close_connection. apply pkeeps_gets_bind. fold (connections s).
  destruct (connections s !! id) as [c|] eqn:Hc.
  2:{ apply pkeeps_ret. rewrite delete_id by done. split_and!; try done.
      apply inv_level with level; [|done]. intros i [x Hx]. apply Hle. intros ->. unfold connections in Hc. congruence. }
  assert (Hdel : ∀ fd s1, pinv now level extra held s1 → pw_runtime s1 = pw_runtime s →
    pkeeps now (sys (EpollCtl EpollDel fd 0 0)) s1 (λ _ s2, pinv now level extra held s2 ∧ pw_runtime s2 = pw_runtime s)).
  { intros fd s1 I1 Hr1. apply sys_ok. intros r e' Hs. split; [|done].
    by apply inv_neutral with (pw_env s1); [|done|repeat split|]. }
  eapply pkeeps_bind; [by apply Hdel|]. intros _ s1 [I1 Hr1].
  eapply pkeeps_bind; [by apply Hdel|]. intros _ s2 [I2 Hr2].
  apply pkeeps_modify_bind; [done|forwards|].
  apply log_event_bind. intros l o r e' Hs. apply pkeeps_modify_bind; [by destruct final|destruct final; forwards|].
  apply pkeeps_erase_bind.
  { unfold connections in *. cbn. rewrite Hr2. destruct final; by exists c. }
  set (s3 := note _ _).
  assert (I3 : pinv now level' extra (upstream_fd c :: client_fd c :: held) s3).
  { unfold pinv, s3, connections. cbn. rewrite Hr2.
    assert (Hrt : connections_ (count_close final (set_logger l (set_bindings (delete (upstream_token c)
      (delete (client_token c) (bindings_ (pw_runtime s)))) (pw_runtime s)))) = connections s) by (by destruct final).
    rewrite Hrt. apply inv_closed with level; [done|done|].
    apply inv_neutral with (pw_env s2); [done|done|apply neutral_system_now|]. unfold pinv in I2. by rewrite Hr2 in I2. }
  assert (Hs3 : connections s3 = delete id (connections s) ∧ timers s3 = timers s).
  { unfold s3, connections, timers. cbn. rewrite Hr2. by destruct final. }
  eapply pkeeps_bind; [by apply close_fd_ok with (held' := client_fd c :: held) (1 := I3)|]. intros _ s4 [I4 Hr4].
  eapply pkeeps_mono; [by apply close_fd_ok with (held' := held) (1 := I4)|]. intros _ s5 [I5 Hr5].
  unfold connections, timers in *. by rewrite Hr5, Hr4.
Qed.

(** ** Calls of a relay *)

Definition relay_world s c : World W := mkWorld (relay c) (pw_io s) [] (conn_traffic c).*2.

(** The connection a relay method leaves behind is as good as before, but for
    what its new traffic asks of the registrations and timers. *)
Lemma on_relay_ok {A} now id (method : M (World W) A) Q level level' extra held s c :
  pinv now level extra held s → connections s !! id = Some c →
  (level' id ≤ 2)%nat → (∀ i, level' i ≤ level i)%nat →
  keeps now method (relay_world s c) Q →
  pkeeps now (on_relay id now method) s (λ a s',
    pinv now level' extra held s' ∧ timers s' = timers s
    ∧ ∃ w, Q a w ∧ connections s' = <[id := conn_after now c w]> (connections s)).
Proof.
  intros I Hc Hl2 Hle Hm. unfold on_relay.
  apply pkeeps_bind with (P := λ c' s', c' = c ∧ s' = s).
  { unfold pkeeps, connection_at. fold (connections s). by rewrite Hc. }
  intros _ _ [-> ->]. apply runs_inv in Hm as (a & w & Hm & Iw & Hev & HQ).
  set (s1 := mkProxyWorld (set_connections (<[id := conn_after now c w]> (connections s)) (pw_runtime s))
               (w_io w) (pw_env s) (pw_out s) (pw_log s) (pw_trace s)
               (pw_history s ++ map (Moved id) (drop (length (conn_traffic c)) (w_wire w)))).
  apply pkeeps_bind with (P := λ p s', p = (a, w_events w) ∧ s' = s1).
  { unfold pkeeps, run_relay. unfold relay_world in Hm. rewrite Hm. cbn. split; [|by split]. split_and!; [done|done|].
    apply forward_domain; [done|]. intros i. cbn. by apply (is_Some_update (connections s) id c). }
  intros _ _ [-> ->].
  assert (I1 : pinv now level' extra held s1).
  { apply inv_update with (level := level) (c := c); try done.
    destruct (pi_conn _ _ _ _ _ _ _ _ I id c Hc) as (Hb & Hr & Ht & _). split_and!; [| | |lia].
    - by apply conn_base_after with (pw_io s).
    - intros Hl. pose proof (Hle id). apply Hr. lia.
    - intros Hl. pose proof (Hle id). apply conn_timed_after with id (pw_io s); [done|done|]. apply Ht. lia. }
  eapply pkeeps_bind; [by apply forward_events_ok|]. intros _ s2 [I2 L2]. apply pkeeps_ret.
  split_and!; [done|by rewrite (logged_timers _ _ L2)|]. exists w. split; [done|].
  by rewrite (logged_connections _ _ L2).
Qed.

(** A query only refills buckets: the connection keeps everything else. *)
Definition requeried (now : Z) c c' : Prop :=
  refilled now (relay c) (relay c') ∧ conn_id c' = conn_id c
  ∧ (∀ x, mask_of x c' = mask_of x c) ∧ (∀ x, token_of x c' = token_of x c) ∧ (∀ x, fd_of x c' = fd_of x c)
  ∧ scheduled_wake c' = scheduled_wake c.

Lemma requeried_trans now c1 c2 c3 : requeried now c1 c2 → requeried now c2 c3 → requeried now c1 c3.
Proof.
  intros (R1 & I1 & M1 & T1 & F1 & W1) (R2 & I2 & M2 & T2 & F2 & W2).
  split_and!; [by etrans|congruence| | | |congruence]; intros x; congruence.
Qed.

Lemma on_query_ok {A} now id (method : M (World W) A) Q level extra held s c :
  pinv now level extra held s → connections s !! id = Some c → (level id ≤ 2)%nat →
  keeps now method (relay_world s c) (λ a _, Q a) →
  (∀ a w, method (relay_world s c) = Ok (a, w) → queried now (relay_world s c) w) →
  pkeeps now (on_relay id now method) s (λ a s',
    Q a ∧ pinv now level extra held s' ∧ timers s' = timers s
    ∧ ∃ c', connections s' = <[id := c']> (connections s) ∧ requeried now c c').
Proof.
  intros I Hc Hl Hm Hq. eapply pkeeps_mono.
  - apply on_relay_ok with (level := level) (Q := λ a w, Q a ∧ queried now (relay_world s c) w); try done.
    unfold keeps, runs in *. destruct (method (relay_world s c)) as [[a w]| | |]; cbn in *; try done.
    destruct Hm as (? & ? & ?). split_and!; try done; by apply (Hq a).
  - intros a s' (I' & Ht & w & [HQ Hqw] & Hcs). split_and!; [done..|]. exists (conn_after now c w).
    split; [done|]. split_and!; cbn; try done; try (by intros []). apply Hqw.
Qed.

Lemma base_winv now level extra held s id c :
  pinv now level extra held s → connections s !! id = Some c → RelayFacts.winv (relay_world s c).
Proof.
  intros I Hc. destruct (pi_conn _ _ _ _ _ _ _ _ I id c Hc) as (Hb & _). apply (cb_relay _ _ _ _ Hb).
Qed.

(** ** Interest and wake-ups *)

Lemma refilled_interest now r r' side :
  refilled now r r' → interest_of side now r' = interest_of side now r.
Proof.
  intros Hr. unfold interest_of.
  by rewrite (rf_connecting _ _ _ Hr), (refilled_wants_read Hr), (refilled_waiting Hr), (refilled_sendable Hr).
Qed.

Lemma on_interest_ok now id side level extra held s c :
  pinv now level extra held s → connections s !! id = Some c → (level id ≤ 2)%nat →
  pkeeps now (on_relay id now (desired_interest side now)) s (λ interest s',
    interest = interest_of side now (relay c)
    ∧ pinv now level extra held s' ∧ timers s' = timers s
    ∧ ∃ c', connections s' = <[id := c']> (connections s) ∧ requeried now c c').
Proof.
  intros I Hc Hl. apply on_query_ok; try done.
  - eapply keeps_mono; [apply desired_interest_ok; by eapply base_winv|]. intros i w' _. cbn.
    unfold interest_of. by destruct (bool_decide (side = Upstream) && upstream_connecting_ (relay c)).
  - intros a w. apply desired_interest_queries.
Qed.

Lemma apply_interest_ok now id side level extra held s c :
  pinv now level extra held s → connections s !! id = Some c → (level id ≤ 2)%nat →
  pkeeps now (apply_interest id side now) s (λ _ s',
    pinv now level extra held s' ∧ timers s' = timers s
    ∧ ∃ c', connections s' = <[id := c']> (connections s)
      ∧ refilled now (relay c) (relay c') ∧ scheduled_wake c' = scheduled_wake c
      ∧ mask_of side c' = to_epoll_mask (interest_of side now (relay c))
      ∧ mask_of (other side) c' = mask_of (other side) c).
Proof.
  intros I Hc Hl. unfold apply_interest. eapply pkeeps_bind; [by apply on_interest_ok|].
  intros interest s1 (-> & I1 & Ht1 & c1 & Hcs1 & (Hr & _ & Hm & _ & _ & Hw)).
  assert (Hc1 : connections s1 !! id = Some c1) by (by rewrite Hcs1, lookup_insert_eq).
  apply pkeeps_bind with (P := λ c' s', c' = c1 ∧ s' = s1).
  { unfold pkeeps, connection_at. fold (connections s1). by rewrite Hc1. }
  intros _ _ [-> ->]. set (mask := to_epoll_mask _). change (match side with
    | Client => client_mask c1 | Upstream => upstream_mask c1 end) with (mask_of side c1).
  destruct (Z.eqb_spec mask (mask_of side c1)) as [Heq|Hne].
  { apply pkeeps_ret. split_and!; [done..|]. exists c1. split_and!; try done. }
  apply pkeeps_modify_bind; [done|forwards|]. set (s2 := set_runtime _ _).
  apply pkeeps_bind with (P := λ r s', pinv now level extra held s' ∧ timers s' = timers s
    ∧ connections s' = <[id := set_mask side mask c1]> (connections s)
    ∧ syscall (pw_env s1) (EpollCtl EpollMod (fd_of side c1) mask (token_of side c1)) = (r, pw_env s')).
  - apply sys_ok. intros r e' Hs. unfold s2 in *. cbn in Hs |- *.
    assert (Halter : alter (set_mask side mask) id (connections s1) = <[id := set_mask side mask c1]> (connections s1))
      by apply (alter_Some _ _ _ _ Hc1).
    unfold connections in Halter.
    split_and!; [|done| |done].
    + unfold pinv. cbn. rewrite Halter. by apply inv_interest with (e := pw_env s1).
    + unfold connections. cbn. rewrite Halter. fold (connections s1). by rewrite Hcs1, insert_insert_eq.
  - intros r s3 (I3 & Ht3 & Hcs3 & Hs). destruct ((ret r <? 0) && negb (errno r =? ENOENT)) eqn:Hf.
    + cbn. intros Hrel. pose proof (Hrel _ _ _ _ Hs) as Hok. cbn in Hok. destruct Hok; case_Z; lia.
    + apply pkeeps_ret. split_and!; [done..|]. exists (set_mask side mask c1).
      split_and!; [done|by destruct side|by destruct side|by destruct side|].
      rewrite <-Hm. by destruct side.
Qed.

(** Both sides are registered for what the relay wants now. *)
Definition interested (now : Z) c : Prop :=
  ∀ x, mask_of x c = to_epoll_mask (interest_of x now (relay c)).

Lemma refresh_or_close_ok now id level extra held s c :
  pinv now level extra held s → connections s !! id = Some c → (level id ≤ 2)%nat →
  pkeeps now (refresh_or_close id now) s (λ _ s', pinv now level extra held s'
    ∧ (connections s' = delete id (connections s)
       ∨ ∃ c', connections s' !! id = Some c' ∧ interested now c')).
Proof.
  intros I Hc Hl. unfold refresh_or_close. apply pkeeps_gets_bind. fold (connections s). rewrite Hc.
  destruct (fully_drained (relay c)).
  { eapply pkeeps_mono; [by apply close_connection_ok with (level := level) (level' := level)|].
    intros _ s' (I' & Hcs & _). auto. }
  eapply pkeeps_bind; [by apply apply_interest_ok|].
  intros _ s1 (I1 & Ht1 & c1 & Hcs1 & Hr1 & _ & Hm1 & _).
  assert (Hc1 : connections s1 !! id = Some c1) by (by rewrite Hcs1, lookup_insert_eq).
  eapply pkeeps_mono; [by apply apply_interest_ok|].
  intros _ s2 (I2 & Ht2 & c2 & Hcs2 & Hr2 & _ & Hm2 & Hm2').
  change (other Upstream) with Client in Hm2'. split; [done|]. right.
  exists c2. rewrite Hcs2, lookup_insert_eq. split; [done|]. intros x.
  rewrite (refilled_interest _ _ _ x Hr2). destruct x; [|done].
  by rewrite Hm2', Hm1, (refilled_interest _ _ _ _ Hr1).
Qed.

(** What a relay's wake-up time means for a destination. *)
Definition wake_for (now : Z) (x : Side) (r : Relay) (wake : option Z) : Prop :=
  match wake with
  | None => waiting x r = true → 0 < sendable_now x now r
  | Some t => now < t
  end.

Lemma on_wake_ok now id x level extra held s c :
  pinv now level extra held s → connections s !! id = Some c → (level id ≤ 2)%nat →
  pkeeps now (on_relay id now (next_wake x now)) s (λ wake s',
    wake_for now x (relay c) wake
    ∧ pinv now level extra held s' ∧ timers s' = timers s
    ∧ ∃ c', connections s' = <[id := c']> (connections s) ∧ requeried now c c').
Proof.
  intros I Hc Hl. apply on_query_ok; try done.
  - eapply keeps_mono; [apply next_wake_ok; by eapply base_winv|]. intros wake w' _. cbn.
    unfold wake_for. destruct (waiting x (relay c)); [|by intros ->].
    destruct wake; [by intros [_ ?]|done].
  - intros a w. apply next_wake_queries.
Qed.

Lemma take_earlier_spec candidate wake :
  match take_earlier candidate wake with
  | None => candidate = None ∧ wake = None
  | Some w => candidate = Some w ∨ wake = Some w
  end.
Proof. destruct candidate as [a|], wake as [b|]; cbn; auto. destruct (a <? b); auto. Qed.

(** Scheduling a wake-up for a connection. *)
Lemma schedule_wake_ok now id w extra held s c :
  pinv now (focus id 2) extra held s → connections s !! id = Some c → now < w →
  interested now c →
  pkeeps now (_ ← modify_runtime (λ r, set_timer_queue (schedule (timer_queue_ r) w (conn_id c) Pump) r);
              update_connection id (set_scheduled_wake (Some w))) s (λ _ s', pinv now settled extra held s').
Proof.
  intros I Hc Hw Hint. destruct (pi_conn _ _ _ _ _ _ _ _ I id c Hc) as (Hb & Hreg & Htim & _).
  rewrite focus_same in *. specialize (Hreg ltac:(lia)). specialize (Htim ltac:(lia)).
  set (q := schedule (timer_queue_ (pw_runtime s)) w (conn_id c) Pump). set (s1 := set_runtime (set_timer_queue q (pw_runtime s)) s).
  apply pkeeps_bind with (P := λ _ s', s' = s1).
  { apply pkeeps_modify; [|forwards|done]. unfold q. cbn. by rewrite due_count_push. }
  intros _ _ ->. assert (I1 : pinv now (focus id 2) extra held s1) by (by apply inv_schedule).
  apply pkeeps_modify; [done|forwards|]. unfold s1 in *. cbn. fold (connections s). rewrite (alter_Some _ _ _ _ Hc).
  unfold pinv. cbn [pw_runtime pw_env pw_trace set_runtime].
  apply inv_update with (level := focus id 2) (c := c) (rt := set_timer_queue q (pw_runtime s)); try done.
  - split_and!; [by destruct Hb|intros _ [|]; apply (Hreg Client) || apply (Hreg Upstream)| |].
    + intros _. destruct Htim as [_ Hi Hcn]. split.
      * intros w' [= <-]. exists (mkTimerEvent w (next_sequence_ (timer_queue_ (pw_runtime s))) (conn_id c) Pump).
        split_and!; [|done|done]. apply elem_of_app. right. apply elem_of_heap_push. by left.
      * intros Hp. destruct (Hi Hp) as (ev & Hev & ?). exists ev. split; [|done].
        revert Hev. cbn. rewrite !elem_of_app, elem_of_heap_push. tauto.
      * intros Hp Hcon. destruct (Hcn Hp Hcon) as (ev & Hev & ?). exists ev. split; [|done].
        revert Hev. cbn. rewrite !elem_of_app, elem_of_heap_push. tauto.
    + intros _. exists now. intros x. split; [apply Hint|done].
  - intros i Hi. by rewrite focus_other.
Qed.

(** A wake-up that is already scheduled, or not needed. *)
Lemma settle_ok now id extra held s c :
  pinv now (focus id 2) extra held s → connections s !! id = Some c → interested now c →
  (∀ x, waiting x (relay c) = true → sendable_now x now (relay c) ≤ 0 → is_Some (scheduled_wake c)) →
  pinv now settled extra held s.
Proof.
  intros I Hc Hint Hcov. destruct (pi_conn _ _ _ _ _ _ _ _ I id c Hc) as (Hb & Hreg & Htim & _).
  rewrite focus_same in *. apply inv_raise with (level := focus id 2) (id := id) (c := c); try done.
  - split_and!; [done|intros; apply Hreg; lia|intros; apply Htim; lia|].
    intros _. exists now. intros x. split; [apply Hint|apply Hcov].
  - intros i Hi. by rewrite focus_other.
Qed.

Lemma schedule_relay_wake_ok now id extra held s c :
  pinv now (focus id 2) extra held s → connections s !! id = Some c → interested now c →
  pkeeps now (schedule_relay_wake id now) s (λ _ s', pinv now settled extra held s').
Proof.
  intros I Hc Hint. unfold schedule_relay_wake. apply pkeeps_gets_bind. fold (connections s). rewrite Hc.
  assert (Hl : (focus id 2 id ≤ 2)%nat) by (by rewrite focus_same).
  eapply pkeeps_bind; [by apply on_wake_ok|]. intros wu s1 (Hwu & I1 & _ & c1 & Hcs1 & Hq1).
  assert (Hc1 : connections s1 !! id = Some c1) by (by rewrite Hcs1, lookup_insert_eq).
  eapply pkeeps_bind; [by apply on_wake_ok|]. intros wc s2 (Hwc & I2 & _ & c2 & Hcs2 & Hq2).
  assert (Hc2 : connections s2 !! id = Some c2) by (by rewrite Hcs2, lookup_insert_eq).
  pose proof (requeried_trans _ _ _ _ Hq1 Hq2) as (Hr & Hid & Hm & _ & _ & Hsw).
  destruct Hq1 as (Hr1 & _).
  assert (Hint2 : interested now c2).
  { intros x. by rewrite Hm, (refilled_interest _ _ _ x Hr), Hint. }
  assert (Hnone : wu = None → wc = None → ∀ x, waiting x (relay c2) = true → 0 < sendable_now x now (relay c2)).
  { intros -> -> x. rewrite (refilled_waiting Hr), (refilled_sendable Hr).
    destruct x; [|apply Hwu]. cbn in Hwc. by rewrite <-(refilled_waiting Hr1), <-(refilled_sendable Hr1). }
  assert (Hfut : ∀ w, take_earlier wc (take_earlier wu None) = Some w → now < w).
  { intros w Hw. pose proof (take_earlier_spec wc (take_earlier wu None)) as Hs. rewrite Hw in Hs.
    destruct Hs as [->|Hs]; [done|]. by destruct wu as [w'|]; [injection Hs as <-|]. }
  pose proof (take_earlier_spec wc (take_earlier wu None)) as Hs.
  destruct (take_earlier wc (take_earlier wu None)) as [w|].
  - destruct (match scheduled_wake c with None => true | Some t => w <? t end) eqn:Hneed.
    + rewrite <-Hid. apply schedule_wake_ok; auto.
    + apply pkeeps_ret. apply settle_ok with id c2; [done..|]. intros _ _ _. rewrite Hsw.
      by destruct (scheduled_wake c).
  - destruct Hs as [-> Hwu']. apply pkeeps_ret. apply settle_ok with id c2; [done..|].
    intros x Hx Hle. destruct wu; [done|]. specialize (Hnone eq_refl eq_refl x Hx). lia.
Qed.

(** ** Pumping *)

Lemma base_id now level extra held s id c :
  pinv now level extra held s → connections s !! id = Some c → conn_id c = id.
Proof. intros I Hc. by destruct (pi_conn _ _ _ _ _ _ _ _ I id c Hc) as ([Hid _ _ _ _ _] & _). Qed.

(** While connection [id] is being handled; [closed] says whether it is gone. *)
Definition handled (now id : Z) extra held (closed : bool) s : Prop :=
  if closed then pinv now settled extra held s
  else pinv now (focus id 2) extra held s ∧ is_Some (connections s !! id).

Lemma unfocus now id extra held s :
  connections s !! id = None → pinv now (focus id 2) extra held s → pinv now settled extra held s.
Proof.
  intros Hn I. apply inv_level with (focus id 2); [|done]. intros i [c Hi]. rewrite focus_other; [done|].
  intros ->. unfold connections in Hn. congruence.
Qed.

Lemma refocus now id extra held s : pinv now settled extra held s → pinv now (focus id 2) extra held s.
Proof.
  intros I. apply inv_level with settled; [|done]. intros i _. unfold focus. case_decide; unfold settled; lia.
Qed.

Lemma close_handled now id final detail extra held s :
  pinv now (focus id 2) extra held s →
  pkeeps now (close_connection id final detail now) s (λ _ s', pinv now settled extra held s').
Proof.
  intros I. eapply pkeeps_mono.
  - apply close_connection_ok with (level := focus id 2) (level' := settled); [exact I|].
    intros i Hi. by rewrite focus_other.
  - by intros _ s' (I' & _).
Qed.

(** Calling a relay method that does not close. *)
Lemma on_method_ok {A} now id (method : M (World W) A) extra held s :
  pinv now (focus id 2) extra held s → is_Some (connections s !! id) →
  (∀ w, RelayFacts.winv w → keeps now method w (λ _ _, True)) →
  pkeeps now (on_relay id now method) s (λ _ s', handled now id extra held false s').
Proof.
  intros I [c Hc] Hm. eapply pkeeps_mono.
  - apply on_relay_ok with (level := focus id 2) (level' := focus id 2) (c := c); try done.
    + by rewrite focus_same.
    + apply Hm. by eapply base_winv.
  - intros a s' (I' & _ & w & _ & Hcs). split; [done|]. rewrite Hcs, lookup_insert_eq. eauto.
Qed.

(** A method whose result may ask for the connection to be closed. *)
Lemma on_pump_ok now id (method : M (World W) PumpResult) extra held s :
  pinv now (focus id 2) extra held s → is_Some (connections s !! id) →
  (∀ w, RelayFacts.winv w → keeps now method w (λ _ _, True)) →
  pkeeps now (result ← on_relay id now method;
              match pump_status result with
              | CloseConnection =>
                  _ ← close_connection id (final_state result) (reason result) now;
                  mret true
              | Continue => mret false
              end) s (λ closed s', handled now id extra held closed s').
Proof.
  intros I Ha Hm. eapply pkeeps_bind; [by apply on_method_ok|]. intros result s1 [I1 Ha1].
  destruct (pump_status result); [by apply pkeeps_ret|].
  eapply pkeeps_bind; [by apply close_handled|]. intros u s2 I2. by apply pkeeps_ret.
Qed.

Lemma flush_destination_ok now id destination extra held s :
  pinv now (focus id 2) extra held s → is_Some (connections s !! id) →
  pkeeps now (flush_destination id destination now) s (λ closed s', handled now id extra held closed s').
Proof.
  intros I Ha. apply on_pump_ok; [done..|]. intros w Iw.
  eapply keeps_mono; [by apply flush_ok|done].
Qed.

Lemma pump_connection_ok now id extra held s :
  pinv now (focus id 2) extra held s →
  pkeeps now (pump_connection id now) s (λ _ s', pinv now settled extra held s').
Proof.
  intros I. unfold pump_connection. apply pkeeps_gets_bind. fold (connections s).
  destruct (connections s !! id) as [c|] eqn:Hc; [|apply pkeeps_ret; by apply unfocus with id].
  rewrite (base_id _ _ _ _ _ _ _ I Hc).
  apply pkeeps_bind with (P := handled now id extra held).
  { destruct (negb (upstream_connecting_ (relay c))); [|by apply pkeeps_ret; split; [|exists c]].
    eapply pkeeps_bind; [by apply flush_destination_ok; [|exists c]|]. intros [] s1; [apply pkeeps_ret|].
    intros [I1 Ha1]. by apply flush_destination_ok. }
  intros [] s1; [intros I1; by apply pkeeps_ret|]. intros [I1 Ha1].
  eapply pkeeps_bind; [apply on_method_ok; [done..|]; intros w Iw; by apply propagate_half_closes_ok|].
  intros u s2 [I2 [c2 Hc2]].
  eapply pkeeps_bind; [apply refresh_or_close_ok with (c := c2); [done|done|by rewrite focus_same]|].
  intros _ s3 [I3 [Hcs3|(c3 & Hc3 & Hint)]].
  - unfold schedule_relay_wake. apply pkeeps_gets_bind. fold (connections s3).
    assert (Hn : connections s3 !! id = None) by (by rewrite Hcs3, lookup_delete_eq).
    rewrite Hn. apply pkeeps_ret. by apply unfocus with id.
  - by apply schedule_relay_wake_ok with c3.
Qed.
End facts.
