(* ===== verification/ProxyEvents.v ===== *)
(** * The handlers of the event loop keep the invariant

    Timers, sockets, the listener, the metrics export, the loop itself and its
    shutdown. [psafe m s Q] is [pkeeps] without the claim on due timers, for
    the handlers in the course of which the clock is read. *)

From Stdlib Require Import ZArith Lia Init.Byte Ascii String Sorted.
From stdpp Require Import base numbers list option strings pretty gmap.
From S2P Require Import Prelude Text Endpoint ByteQueue Backpressure DelayLine TokenBucket.
From S2P Require Import FaultRng FaultPlan.
From S2P Require Import ConnectionState TimerQueue SocketIo Relay RelayDirection RelayFacts.
From S2P Require Import RelayQueries RelayRun.
From S2P Require Import RelaySpec Logger RelayReport ProxyConfig Proxy ProxyLoop ProxyWalk.
From S2P Require Import ProxyInv.
From S2P Require Import ProxyFacts.

Local Open Scope Z_scope.

Lemma due_count_all now h : due_count now h = 0%nat → Forall (λ e, now < deadline e) h.
Proof.
  unfold due_count. induction h as [|e h IH]; [constructor|]. rewrite filter_cons.
  case_decide as He; [done|]. intros Hn. constructor; [lia|auto].
Qed.

Lemma due_count_none now h : Forall (λ e, now < deadline e) h → due_count now h = 0%nat.
Proof.
  unfold due_count. induction 1 as [|e h He _ IH]; [done|]. by rewrite filter_cons_False by lia.
Qed.

Section events.
#[local] Set Default Proof Using "Type*".
Context {W E Out : Type} `{SocketIoLaws W} `{KernelLaws E} `{OutputLaws Out}.
Context `{Libc} `{Inet} `{UnorderedMap} (config : ProxyConfig).

Abbreviation PW := (ProxyWorld W E Out).
Abbreviation PM := (M PW).
Implicit Types (s : PW) (c : Connection).
Abbreviation inv := (pinv config).
Abbreviation handled := (handled config).

(** ** Due timers *)

(** A popped timer that a connection no longer needs. *)
Lemma conn_timed_popped ev events c :
  conn_timed config (ev :: events) c →
  (kind ev = Pump → ∀ w, scheduled_wake c = Some w → deadline ev ≠ w) →
  (kind ev = IdleTimeout → 0 < pc_idle_timeout config → ∃ e, e ∈ events ∧ timer_for c IdleTimeout e
    ∧ deadline e ≤ last_activity_ (relay c) + milliseconds_to_nanoseconds (pc_idle_timeout config)) →
  (kind ev = ConnectTimeout → upstream_connecting_ (relay c) = false) →
  conn_timed config events c.
Proof.
  intros [Hw Hi Hc] Pw Pi Pc. split.
  - intros w Hs. destruct (Hw w Hs) as (e & [->|He]%elem_of_cons & [? Hk] & ?); [|by exists e].
    by destruct (Pw Hk w Hs).
  - intros Hp. destruct (Hi Hp) as (e & [->|He]%elem_of_cons & [? Hk] & ?); [|by exists e].
    by apply Pi.
  - intros Hp Hcon. destruct (Hc Hp Hcon) as (e & [->|He]%elem_of_cons & [? Hk] & ?); [|by exists e].
    by rewrite Pc in Hcon.
Qed.

Lemma conn_ok_popped level level' now ev events trace id c :
  (level' ≤ level)%nat →
  (conn_timed config (ev :: events) c → conn_timed config events c) →
  conn_ok config level now (ev :: events) trace id c → conn_ok config level' now events trace id c.
Proof.
  intros Hle Ht (Hb & H1' & H2' & H3'). split_and!; [done|intros; apply H1'; lia| |intros; apply H3'; lia].
  intros Hl. apply Ht, H2'. lia.
Qed.

Lemma pump_timer_ok now held s ev c :
  inv now settled [ev] held s → connections s !! connection_id ev = Some c → deadline ev ≤ now →
  kind ev = Pump → pkeeps now (handle_timer config ev c now) s (λ _ s', inv now settled [] held s').
Proof.
  intros I Hc Hd Hk. unfold handle_timer. rewrite Hk, (base_id _ _ _ _ _ _ _ _ I Hc).
  apply pkeeps_bind with (P := λ _ s', inv now (focus (connection_id ev) 2) [] held s').
  2:{ intros _ s1 I1. by apply pump_connection_ok. }
  destruct (match scheduled_wake c with Some w => w <=? now | None => false end) eqn:Hw.
  - apply pkeeps_modify; [done|forwards|]. unfold update_connection. unfold pinv. cbn.
    fold (connections s). rewrite (alter_Some _ _ _ _ Hc).
    apply inv_discard with (level := focus (connection_id ev) 2) (event := ev); [done| |].
    + cbn. intros c'. rewrite lookup_insert_eq. intros [= <-]. apply conn_ok_popped; [done|].
      intros Ht. by apply (conn_timed_popped _ _ _ Ht); rewrite Hk.
    + pose proof (pi_conn _ _ _ _ _ _ _ _ I _ _ Hc) as (Hb & Hr & Ht & _).
      apply inv_update with (level := settled) (c := c); try done.
      * rewrite focus_same. split_and!; [by destruct Hb|intros _; by apply Hr; unfold settled; lia| |lia].
        intros _. destruct Ht as [_ Hi Hcn]; [unfold settled; lia|]. by split.
      * intros i Hi. by rewrite focus_other.
  - apply pkeeps_ret. apply inv_discard with (level := settled) (event := ev); [| |done].
    + intros i Hi. by rewrite focus_other.
    + intros c' Hc'. fold (connections s) in Hc'. rewrite Hc in Hc'. injection Hc' as <-. rewrite focus_same.
      apply conn_ok_popped; [unfold settled; lia|]. intros Ht. apply (conn_timed_popped _ _ _ Ht); rewrite Hk; try done.
      intros _ w Hs. rewrite Hs in Hw. lia.
Qed.

(** After the connection is closed its timers do not matter. *)
Lemma close_timer_ok now held s ev final detail :
  inv now settled [ev] held s →
  pkeeps now (close_connection (connection_id ev) final detail now) s (λ _ s', inv now settled [] held s').
Proof.
  intros I. eapply pkeeps_mono; [by apply close_connection_ok with (level := settled) (level' := settled)|].
  intros _ s' (I' & Hcs & _). apply inv_discard with (level := settled) (event := ev); [done| |done].
  intros c Hc. fold (connections s') in Hc. by rewrite Hcs, lookup_delete_eq in Hc.
Qed.

Lemma handle_timer_ok now held s ev c :
  inv now settled [ev] held s → connections s !! connection_id ev = Some c → deadline ev ≤ now →
  pkeeps now (handle_timer config ev c now) s (λ _ s', inv now settled [] held s').
Proof.
  intros I Hc Hd. destruct (kind ev) eqn:Hk; [by apply pump_timer_ok| |];
    unfold handle_timer; rewrite Hk, (base_id _ _ _ _ _ _ _ _ I Hc).
  - destruct (Z.leb_spec (last_activity_ (relay c) + milliseconds_to_nanoseconds (pc_idle_timeout config)) now) as [Hle|Hlt];
      [by apply close_timer_ok|].
    apply pkeeps_modify; [cbn; by rewrite due_count_push|forwards|]. set (t := _ + _).
    assert (I1 : inv now settled [ev] held (set_runtime (set_timer_queue
      (schedule (timer_queue_ (pw_runtime s)) t (connection_id ev) IdleTimeout) (pw_runtime s)) s)) by (by apply inv_schedule).
    apply inv_discard with (level := settled) (event := ev); [done| |exact I1].
    intros c' Hc'. cbn in Hc'. fold (connections s) in Hc'. rewrite Hc in Hc'. injection Hc' as <-.
    apply conn_ok_popped; [done|]. intros Ht. apply (conn_timed_popped _ _ _ Ht); rewrite Hk; try done.
    intros _ _. exists (mkTimerEvent t (next_sequence_ (timer_queue_ (pw_runtime s))) (connection_id ev) IdleTimeout).
    split_and!; [|split; [symmetry; by eapply base_id|done]|done]. apply elem_of_heap_push. by left.
  - destruct (upstream_connecting_ (relay c)) eqn:Hcon; [by apply close_timer_ok|].
    apply pkeeps_ret. apply inv_discard with (level := settled) (event := ev); [done| |done].
    intros c' Hc'. fold (connections s) in Hc'. rewrite Hc in Hc'. injection Hc' as <-.
    apply conn_ok_popped; [done|]. intros Ht. by apply (conn_timed_popped _ _ _ Ht); rewrite Hk.
Qed.

Lemma due_loop_ok fuel now processed held s :
  inv now settled [] held s → (due_count now (timers s) < fuel)%nat →
  pkeeps now (due_loop config fuel now processed) s (λ _ s',
    inv now settled [] held s' ∧ Forall (λ e, now < deadline e) (timers s')).
Proof.
  revert processed s. induction fuel as [|fuel IH]; intros processed s I Hfuel; [lia|]. cbn [due_loop].
  apply pkeeps_gets_bind. destruct (pop_due (timer_queue_ (pw_runtime s)) now) as [popped q] eqn:Hpop.
  destruct popped as [ev|].
  - destruct (pop_due_Some _ _ _ _ Hpop) as (Hh & Hd & _).
    assert (Hcount : due_count now (timers s) = S (due_count now (heap_ q))).
    { unfold timers, due_count. rewrite Hh, filter_cons_True by done. done. }
    set (s1 := set_runtime (set_timer_queue q (pw_runtime s)) s).
    assert (I1 : inv now settled [ev] held s1) by (by apply inv_popped).
    apply pkeeps_bind with (P := λ _ s', s' = s1).
    { apply pkeeps_modify; [|forwards|done]. cbn. lia. }
    intros _ _ ->. fold (connections s). change (connections s) with (connections s1).
    destruct (connections s1 !! connection_id ev) as [c|] eqn:Hc.
    + eapply pkeeps_bind; [by apply pkeeps_frame, handle_timer_ok|]. intros _ s2 [(_ & Hdue & _) I2].
      apply IH; [done|]. unfold timers in *. cbn in Hdue. lia.
    + apply IH; [|cbn in *; unfold timers in *; cbn; lia].
      apply inv_discard with (level := settled) (event := ev); [done| |done].
      intros c Hc'. unfold connections in Hc. congruence.
  - assert (q = timer_queue_ (pw_runtime s)
            ∧ Forall (λ e, now < deadline e) (timers s)) as [-> Hall].
    { revert Hpop. unfold pop_due, timers. pose proof (pi_sorted _ _ _ _ _ _ _ _ I) as Hs.
      destruct (heap_ (timer_queue_ (pw_runtime s))) as [|x h]; [by intros [= <-]|].
      destruct (Z.ltb_spec now (deadline x)); [|done]. intros [= <-]. split; [done|].
      inversion Hs as [|? ? _ Hx]; subst. constructor; [done|].
      eapply Forall_impl; [exact Hx|]. intros y Hy. cbn in Hy. lia. }
    apply pkeeps_bind with (P := λ _ s', inv now settled [] held s' ∧ timers s' = timers s).
    + apply pkeeps_modify; [done|forwards|]. split; [|done]. unfold pinv. cbn. by destruct I.
    + intros _ s' [I' Ht]. apply pkeeps_ret. by rewrite Ht.
Qed.

Lemma process_due_timers_ok now held s :
  inv now settled [] held s →
  pkeeps now (process_due_timers config now) s (λ _ s',
    inv now settled [] held s' ∧ Forall (λ e, now < deadline e) (timers s')).
Proof.
  intros I. unfold process_due_timers. apply pkeeps_modify_bind; [done|forwards|]. apply pkeeps_gets_bind.
  apply due_loop_ok; [by apply inv_disarmed|]. unfold timers, due_count. cbn.
  pose proof (length_filter (λ e, deadline e ≤ now) (heap_ (timer_queue_ (pw_runtime s)))). lia.
Qed.

(** ** Handlers that read the clock *)

Definition psafe {A} (m : PM A) s (Q : A → PW → Prop) : Prop :=
  match m s with
  | Ok (a, s') =>
      ((pending (pw_env s') ≤ pending (pw_env s))%nat ∧ forward (pw_runtime s) (pw_runtime s')) ∧ Q a s'
  | Throw (RuntimeError _) => ¬ epoll_reliable E
  | _ => False
  end.

Lemma psafe_of {A} now (m : PM A) s (Q : A → PW → Prop) : pkeeps now m s Q → psafe m s Q.
Proof. unfold psafe, pkeeps. destruct (m s) as [[a s1]|[]| |]; try tauto. by intros [(? & _ & ?) ?]. Qed.

Lemma psafe_ret {A} (a : A) s (Q : A → PW → Prop) : Q a s → psafe (mret a) s Q.
Proof. by split. Qed.

Lemma psafe_bind {A B} (m : PM A) (f : A → PM B) s P Q :
  psafe m s P →
  (∀ a s', (pending (pw_env s') ≤ pending (pw_env s))%nat → P a s' → psafe (f a) s' Q) →
  psafe (m ≫= f) s Q.
Proof.
  unfold psafe, mbind, M_bind. destruct (m s) as [[a s1]|[]| |]; try tauto.
  intros [[P1 F1] HP] Hf. specialize (Hf a s1 P1 HP). destruct (f a s1) as [[b s2]|[]| |]; try tauto.
  destruct Hf as [[P2 F2] HQ]. split; [|done]. split; [lia|by etrans].
Qed.

Lemma psafe_mono {A} (m : PM A) s (P Q : A → PW → Prop) :
  psafe m s P → (∀ a s', P a s' → Q a s') → psafe m s Q.
Proof. unfold psafe. destruct (m s) as [[a s1]|[]| |]; try tauto. intros [? ?] HPQ. auto. Qed.

Lemma psafe_gets_bind {X B} (g : PW → X) (f : X → PM B) s Q :
  psafe (f (g s)) s Q → psafe (gets g ≫= f) s Q.
Proof. done. Qed.

Lemma psafe_modify_bind {B} g (k : unit → PM B) s (Q : B → PW → Prop) :
  forward (pw_runtime s) (g (pw_runtime s)) →
  psafe (k tt) (set_runtime (g (pw_runtime s)) s) Q → psafe (modify_runtime g ≫= k) s Q.
Proof.
  intros Hf Hk. unfold psafe, mbind, M_bind, modify_runtime, modify in *. cbn.
  destruct (k tt _) as [[b s2]|[]| |]; try tauto. destruct Hk as [[Hp Hf'] HQ]. split; [|done].
  split; [done|by etrans].
Qed.

(** The next number is given to a new connection. *)
Lemma psafe_enter_bind {B} number bind id c (k : unit → PM B) s (Q : B → PW → Prop) :
  let rt := bind (number (pw_runtime s)) in
  id = next_connection_id_ (pw_runtime s) → connections s !! id = None → next_connection_id_ rt = id + 1 → connections_ rt = connections s →
  psafe (k tt) (note (Opened id) (set_runtime (set_connections (<[id := c]> (connections s)) rt) s)) Q →
  psafe (_ ← modify_runtime number; _ ← modify_runtime bind; emplace_connection id c ≫= k) s Q.
Proof.
  intros rt -> Hc Hn Hcs Hk. unfold psafe, mbind, M_bind, emplace_connection, modify_runtime, modify in *. cbn.
  unfold connections in *. fold rt. rewrite Hcs, Hc. destruct (k tt _) as [[b s2]|[]| |]; try tauto.
  destruct Hk as [[Hp [Hnext Hf]] HQ]. split; [|done]. split; [done|]. cbn in *. rewrite Hn in *. split; [lia|].
  intros i Hi Hs. specialize (Hf i ltac:(lia) Hs). by rewrite lookup_insert_ne in Hf by lia.
Qed.

Lemma psafe_modify g s (Q : unit → PW → Prop) :
  forward (pw_runtime s) (g (pw_runtime s)) → Q tt (set_runtime (g (pw_runtime s)) s) → psafe (modify_runtime g) s Q.
Proof. intros Hf HQ. by split. Qed.

Lemma psafe_lift_bind {X B} (o : outcome X) (f : X → PM B) s P Q :
  succeeds o P → (∀ x, o = Ok x → P x → psafe (f x) s Q) → psafe (lift o ≫= f) s Q.
Proof. destruct o as [x| | |]; cbn; [|done..]. intros HP Hf. exact (Hf x eq_refl HP). Qed.

Lemma psafe_sys_bind {B} call (k : Reply → PM B) s (Q : B → PW → Prop) :
  (∀ r e', syscall (pw_env s) call = (r, e') → psafe (k r) (after_call s call r e') Q) →
  psafe (sys call ≫= k) s Q.
Proof.
  intros Hk. unfold psafe, mbind, M_bind, sys. destruct (syscall (pw_env s) call) as [r e'] eqn:Hs.
  specialize (Hk r e' eq_refl). unfold psafe, after_call in Hk.
  destruct (k r _) as [[b s2]|[]| |]; try tauto. destruct Hk as [[Hp Hf] HQ]. split; [|done].
  cbn in Hp. pose proof (pending_le _ _ _ _ Hs). split; [lia|exact Hf].
Qed.

Lemma psafe_steady_bind {B} (k : Z → PM B) old level extra held s (Q : B → PW → Prop) :
  inv old level extra held s →
  (∀ t s', old ≤ t → inv t level extra held s' → pw_runtime s' = pw_runtime s →
    (pending (pw_env s') ≤ pending (pw_env s))%nat → psafe (k t) s' Q) →
  psafe (steady_now ≫= k) s Q.
Proof.
  intros I Hk. apply psafe_bind with (P := λ t s', old ≤ t ∧ inv t level extra held s' ∧ pw_runtime s' = pw_runtime s).
  - apply (psafe_of old). by apply steady_now_ok with (1 := I).
  - intros t s' Hp (? & ? & ?). by apply Hk.
Qed.

Lemma psafe_log now name id state detail level extra held s :
  inv now level extra held s →
  psafe (log_event name id state detail) s (λ _ s', inv now level extra held s' ∧ logged s s').
Proof. intros I. apply (psafe_of now). by apply log_event_ok. Qed.

(** A call that shows nothing the invariant looks at. *)
Lemma inv_after_call now level extra held s call r e' :
  inv now level extra held s → syscall (pw_env s) call = (r, e') → call ≠ SteadyNow → neutral (call, r) →
  inv now level extra held (after_call s call r e').
Proof. intros I Hs Hc Hn. by apply inv_neutral with (pw_env s). Qed.

(** Between two entries of the event array. *)
Definition steady (held : list Z) s : Prop := ∃ now, inv now settled [] held s.

(** ** Sockets *)

Section socket.
Context (now id : Z) (held : list Z) (side : Side) (events : Z).
Let focused s := inv now (focus id 2) [] held s ∧ is_Some (connections s !! id).

Lemma connection_at_bind {B} (k : Connection → PM B) s c (Q : B → PW → Prop) :
  connections s !! id = Some c → pkeeps now (k c) s Q → pkeeps now (connection_at id ≫= k) s Q.
Proof.
  intros Hc Hk. unfold pkeeps, mbind, M_bind, connection_at in *. fold (connections s). by rewrite Hc.
Qed.

Lemma finish_connect_ok s :
  focused s → pkeeps now (finish_connect id side events now) s (λ closed s', handled now id [] held closed s').
Proof.
  intros [I [c Hc]]. unfold finish_connect. apply connection_at_bind with c; [done|].
  rewrite (base_id _ _ _ _ _ _ _ _ I Hc).
  destruct (bool_decide (side = Upstream) && upstream_connecting_ (relay c) && has events EPOLLOUT);
    [|apply pkeeps_ret; split; [done|eauto]].
  eapply pkeeps_bind with (P := λ _ s', focused s').
  { apply sys_ok. intros r e' Hs. split; [by apply inv_after_call|eauto]. }
  intros r s1 [I1 Ha1]. destruct (_ || _).
  - eapply pkeeps_bind; [by apply close_handled|]. intros u s2 I2. by apply pkeeps_ret.
  - eapply pkeeps_bind; [apply on_method_ok; [done..|]; intros w Iw|].
    { eapply keeps_mono; [by apply mark_upstream_connected_ok|done]. }
    intros u s2 [I2 Ha2]. eapply pkeeps_bind; [by apply log_event_ok|]. intros u' s3 [I3 L3].
    apply pkeeps_ret. split; [done|]. by rewrite (logged_connections _ _ L3).
Qed.

Lemma check_socket_error_ok s :
  focused s → pkeeps now (check_socket_error id side events now) s (λ closed s', handled now id [] held closed s').
Proof.
  intros [I [c Hc]]. unfold check_socket_error. apply connection_at_bind with c; [done|].
  rewrite (base_id _ _ _ _ _ _ _ _ I Hc).
  destruct (has events EPOLLERR && _); [|apply pkeeps_ret; split; [done|eauto]].
  eapply pkeeps_bind with (P := λ _ s', focused s').
  { apply sys_ok. intros r e' Hs. split; [by apply inv_after_call|eauto]. }
  intros r s1 [I1 Ha1]. destruct (_ && _); [|by apply pkeeps_ret].
  eapply pkeeps_bind; [by apply close_handled|]. intros u s2 I2. by apply pkeeps_ret.
Qed.

Lemma read_ready_ok s :
  focused s → pkeeps now (read_ready id side events now) s (λ closed s', handled now id [] held closed s').
Proof.
  intros [I [c Hc]]. unfold read_ready. apply connection_at_bind with c; [done|].
  rewrite (base_id _ _ _ _ _ _ _ _ I Hc).
  destruct (has events _ && _); [|apply pkeeps_ret; split; [done|eauto]].
  apply on_pump_ok; [done|eauto|]. intros w Iw. eapply keeps_mono; [by apply handle_readable_ok|done].
Qed.
End socket.

Lemma socket_ready_ok token events held s :
  steady held s → psafe (socket_ready token events) s (λ _ s', steady held s').
Proof.
  intros [old I]. unfold socket_ready. apply psafe_gets_bind.
  destruct (bindings_ (pw_runtime s) !! token) as [b|]; [|apply psafe_ret; by exists old].
  fold (connections s). destruct (connections s !! binding_connection b) as [c|] eqn:Hc;
    [|apply psafe_ret; by exists old].
  rewrite (base_id _ _ _ _ _ _ _ _ I Hc). set (id := binding_connection b) in *.
  apply psafe_steady_bind with (1 := I). intros now s1 _ I1 Hr1 _. apply (psafe_of now).
  apply refocus with (id := id) in I1.
  assert (Ha1 : is_Some (connections s1 !! id)) by (unfold connections in *; rewrite Hr1, Hc; eauto).
  eapply pkeeps_bind; [by apply finish_connect_ok|]. intros [] s2; [intros I2; apply pkeeps_ret; by exists now|].
  intros H2'. eapply pkeeps_bind; [by apply check_socket_error_ok|].
  intros [] s3; [intros I3; apply pkeeps_ret; by exists now|].
  intros H3'. eapply pkeeps_bind; [by apply read_ready_ok|].
  intros [] s4; [intros I4; apply pkeeps_ret; by exists now|].
  intros [I4 _]. eapply pkeeps_mono; [by apply pump_connection_ok|]. intros u s5 I5. by exists now.
Qed.
End events.
