(* ===== verification/ProxyAccept.v ===== *)
(** * Accepting keeps the invariant

    The listener's handler, up to the settled new connection: its relay is
    fresh, both sockets are registered for what it wants, and its timeouts are
    queued. *)

From Stdlib Require Import ZArith Lia Init.Byte Ascii String Sorted SpecFloat.
From stdpp Require Import base numbers list option strings pretty gmap.
From S2P Require Import Prelude Text Endpoint ByteQueue Backpressure DelayLine TokenBucket.
From S2P Require Import FaultRng FaultPlan.
From S2P Require Import ConnectionState TimerQueue SocketIo Relay RelayDirection RelayFacts.
From S2P Require Import RelayQueries RelayRun.
From S2P Require Import RelaySpec Logger RelayReport ProxyConfig Proxy ProxyLoop ProxyWalk.
From S2P Require Import ProxyInv.
From S2P Require Import ProxyFacts ProxyEvents.

Local Open Scope Z_scope.

(** What the constructor stores besides the directions. *)
Lemma make_Relay_fields c p id client_fd upstream_fd connecting now r :
  make_Relay c p id client_fd upstream_fd connecting now = Ok r →
  client_fd_ r = client_fd ∧ upstream_fd_ r = upstream_fd ∧ upstream_connecting_ r = connecting
  ∧ accepted_at_ r = now ∧ last_activity_ r = now.
Proof.
  unfold make_Relay. intros (c2u & _ & Hr)%bind_Ok. apply bind_Ok in Hr as (u2c & _ & Hr).
  destruct (negb (any_enabled p)); [by injection Hr as <-|].
  apply bind_Ok in Hr as (c2u' & _ & Hr). apply bind_Ok in Hr as (u2c' & _ & Hr). by injection Hr as <-.
Qed.

Lemma default_plan_typed : plan_typed default_FaultPlan.
Proof. split; unfold is_u64; cbn; lia. Qed.

Lemma default_plan_valid : valid_plan default_FaultPlan.
Proof. split; [by vm_compute|cbn; lia|done|cbn; lia]. Qed.

Section accept.
#[local] Set Default Proof Using "Type*".
Context {W E Out : Type} `{SocketIoLaws W} `{KernelLaws E} `{OutputLaws Out}.
Context `{Libc} `{Inet} `{UnorderedMap} (config : ProxyConfig).
Hypothesis Htyped : config_typed config.
Hypothesis Hvalid : valid_proxy_config config.

Abbreviation PW := (ProxyWorld W E Out).
Abbreviation PM := (M PW).
Implicit Types (s : PW) (c : Connection).
Abbreviation inv := (pinv config).

Lemma plan_for_ok id : plan_typed (plan_for config id) ∧ valid_plan (plan_for config id).
Proof.
  unfold plan_for. destruct (faults_apply config id).
  - split; [by destruct Htyped|by destruct Hvalid].
  - split; [apply default_plan_typed|apply default_plan_valid].
Qed.

(** A new relay: nothing waits. *)
Lemma fresh_waiting cfg p now r x : fresh_relay cfg p now r → waiting x r = false.
Proof.
  intros Hf. unfold waiting. pose proof (fd_contents _ _ _ _ _ (fr_direction _ _ _ _ Hf (other x))) as Hc.
  pose proof (fd_inv _ _ _ _ _ (fr_direction _ _ _ _ Hf (other x))) as Id.
  pose proof (length_contents _ (dv_queue _ Id)) as HL. rewrite Hc in HL. unfold empty.
  replace (size_ (queue (direction_from (other x) r)) =? 0) with true; [by rewrite andb_false_r|].
  symmetry. apply Z.eqb_eq. cbn in HL. lia.
Qed.

Definition new_connection (id client upstream token : Z) (r : Relay) : Connection :=
  mkConnection id client upstream token (u64_succ token) 0 0 None r [].

Lemma new_connection_base now id client upstream connecting r token :
  make_Relay (relay_config config) (plan_for config id) id client upstream connecting now = Ok r →
  fresh_relay (relay_config config) (plan_for config id) now r →
  token = token_for Client id → u64_succ token = token_for Upstream id →
  conn_base config now id (new_connection id client upstream token r).
Proof.
  intros Hr Hf Ht1 Ht2. destruct (make_Relay_fields _ _ _ _ _ _ _ _ Hr) as (Hcf & Huf & _ & _ & Hact).
  destruct (plan_for_ok id) as [Hpt Hpv]. split; cbn; try done; try lia.
  - by intros [].
  - by intros [].
  - apply Hf.
  - exists now, r. split; [|split; [done|]].
    + split; [by apply valid_relay_config|]. split_and!; [done..|]. by exists id, client, upstream, connecting.
    + intros x. exists [], []. split_and!; [constructor|done|done|constructor].
Qed.

(** Nothing but the log, the kernel and its trace changed. *)
Definition room s : Prop :=
  next_connection_id_ (pw_runtime s) + Z.of_nat (pending (pw_env s)) < accept_limit
  ∧ Z.of_nat (size (connections s)) < pc_max_connections config.

Lemma room_logged s s' :
  logged s s' → (pending (pw_env s') ≤ pending (pw_env s))%nat → room s → room s'.
Proof. intros [_ [l Hl]] Hp [H1' H2']. unfold room, connections in *. rewrite Hl. cbn. lia. Qed.

Lemma logged_call s call r e' : logged s (after_call s call r e').
Proof. split; [done|]. exists (logger_ (pw_runtime s)). by destruct s as [[] ? ? ? ? ?]. Qed.

Lemma apply_socket_buffer_size_ok now fd level extra held s :
  inv now level extra held s →
  psafe (apply_socket_buffer_size config fd) s (λ _ s', inv now level extra held s' ∧ logged s s').
Proof.
  intros I. unfold apply_socket_buffer_size. destruct (pc_socket_buffer_bytes config =? 0); [by apply psafe_ret|].
  apply psafe_sys_bind. intros r e' Hs.
  assert (K1 : inv now level extra held (after_call s (SetSocketBuffer fd SO_SNDBUF (pc_socket_buffer_bytes config)) r e')
    ∧ logged s (after_call s (SetSocketBuffer fd SO_SNDBUF (pc_socket_buffer_bytes config)) r e'))
    by (split; [by apply inv_after_call|apply logged_call]).
  revert K1. generalize (after_call s (SetSocketBuffer fd SO_SNDBUF (pc_socket_buffer_bytes config)) r e').
  intros s1 [I1 L1]. clear I Hs.
  apply psafe_bind with (P := λ _ s', inv now level extra held s' ∧ logged s s').
  { destruct (ret r <? 0); [by apply psafe_ret|]. apply (psafe_of now), sys_ok. intros r2 e2 Hs2.
    split; [by apply inv_after_call|]. etrans; [exact L1|apply logged_call]. }
  intros r2 s2 _ [I2 L2]. destruct (ret r2 <? 0); [|by apply psafe_ret].
  eapply psafe_mono; [by apply psafe_log|]. intros _ s3 [I3 L3]. split; [done|by etrans].
Qed.

(** *** The new connection's masks and registrations *)

(** The interest of one side is computed and stored. *)
Lemma store_interest_ok now id x held s c :
  inv now (focus id 0) [] held s → connections s !! id = Some c →
  pkeeps now (store_interest id x now) s
    (λ _ s', inv now (focus id 0) [] held s' ∧ ∃ c', connections s' = <[id := c']> (connections s)
      ∧ refilled now (relay c) (relay c') ∧ conn_id c' = conn_id c
      ∧ (∀ y, token_of y c' = token_of y c) ∧ (∀ y, fd_of y c' = fd_of y c)
      ∧ scheduled_wake c' = scheduled_wake c
      ∧ mask_of x c' = to_epoll_mask (interest_of x now (relay c)) ∧ mask_of (other x) c' = mask_of (other x) c).
Proof.
  intros I Hc. unfold store_interest. eapply pkeeps_bind; [apply on_interest_ok with (1 := I) (2 := Hc); by rewrite focus_same; lia|].
  intros interest s1 (-> & I1 & _ & c1 & Hcs1 & (Hr & Hid & Hm & Ht & Hf & Hw)).
  assert (Hc1 : connections s1 !! id = Some c1) by (by rewrite Hcs1, lookup_insert_eq).
  set (mask := to_epoll_mask _). apply pkeeps_modify; [done|forwards|].
  assert (Halter : alter (set_mask x mask) id (connections s1) = <[id := set_mask x mask c1]> (connections s1))
    by apply (alter_Some _ _ _ _ Hc1).
  unfold connections in Halter. split.
  - unfold pinv. cbn. rewrite Halter. apply inv_update with (level := focus id 0) (c := c1); try done; try (by destruct x).
    rewrite focus_same. destruct (pi_conn _ _ _ _ _ _ _ _ I1 id c1 Hc1) as (Hb & _).
    split_and!; [|lia..]. destruct Hb. by split; destruct x.
  - exists (set_mask x mask c1). unfold connections. cbn. rewrite Halter. fold (connections s1).
    rewrite Hcs1, insert_insert_eq. split; [done|].
    split_and!; try (by destruct x). rewrite <-Hm. by destruct x.
Qed.

Lemma add_epoll_ok now id x held s c fd mask token :
  inv now (focus id 0) [] held s → connections s !! id = Some c →
  fd = fd_of x c → mask = mask_of x c → token = token_of x c →
  psafe (add_epoll fd mask token) s (λ _ s', inv now (focus id 0) [] held s' ∧ pw_runtime s' = pw_runtime s
    ∧ registered token (pw_trace s') = Some (fd, mask)
    ∧ ∀ t, t ≠ token → registered t (pw_trace s') = registered t (pw_trace s)).
Proof.
  intros I Hc -> -> ->. unfold add_epoll. apply psafe_sys_bind. intros r e' Hs.
  destruct (Z.ltb_spec (ret r) 0) as [Hneg|Hpos].
  { cbn. intros Hrel. pose proof (Hrel _ _ _ _ Hs) as Hok. cbn in Hok. lia. }
  apply psafe_ret. destruct (pi_conn _ _ _ _ _ _ _ _ I id c Hc) as (Hb & _). split_and!.
  - apply inv_epoll with (e := pw_env s) (id := id) (side := x); [done|apply Hb|apply focus_same|done].
  - done.
  - cbn. rewrite registered_app. cbn. by rewrite decide_True.
  - intros t Ht. cbn. rewrite registered_app. cbn. by rewrite decide_False.
Qed.

(** The timers of a new connection, and how they settle it. *)
Lemma new_connection_settled now id held s c r :
  inv now (focus id 1) [] held s → connections s !! id = Some c →
  (∀ x, waiting x (relay c) = false) → (∀ x, mask_of x c = to_epoll_mask (interest_of x now (relay c))) →
  scheduled_wake c = None → relay_static (relay c) = relay_static r → accepted_at_ r = now →
  last_activity_ (relay c) = now →
  (0 < pc_idle_timeout config → ∃ e, e ∈ timers s ∧ timer_for c IdleTimeout e
     ∧ deadline e = now + milliseconds_to_nanoseconds (pc_idle_timeout config)) →
  (0 < pc_connect_timeout config → upstream_connecting_ (relay c) = true → ∃ e, e ∈ timers s
     ∧ timer_for c ConnectTimeout e ∧ deadline e = now + milliseconds_to_nanoseconds (pc_connect_timeout config)) →
  inv now settled [] held s.
Proof.
  intros I Hc Hwait Hint Hsw Hst Hat Hact Hidle Hconn.
  destruct (pi_conn _ _ _ _ _ _ _ _ I id c Hc) as (Hb & Hreg & _). rewrite focus_same in Hreg.
  apply inv_raise with (level := focus id 1) (id := id) (c := c); [done| |intros i Hi; by rewrite focus_other|done].
  unfold settled. split_and!; [done|intros _; by apply Hreg| |].
  - intros _. cbn. split.
    + intros w. by rewrite Hsw.
    + intros Hp. destruct (Hidle Hp) as (e & He & Hf & Hd). exists e. split_and!; [done..|]. lia.
    + intros Hp Hcon. destruct (Hconn Hp Hcon) as (e & He & Hf & Hd). exists e. split_and!; [done..|].
      assert (accepted_at_ (relay c) = accepted_at_ r) by (unfold relay_static in Hst; congruence). congruence.
  - intros _. exists now. intros x. split; [apply Hint|]. by rewrite Hwait.
Qed.

(** The timers are scheduled last; [Q] collects what is known of the queue. *)
Lemma schedule_timer_ok now level held s t id k :
  inv now level [] held s →
  psafe (modify_runtime (λ rt, set_timer_queue (schedule (timer_queue_ rt) t id k) rt)) s (λ _ s',
    inv now level [] held s' ∧ connections s' = connections s
    ∧ (∀ e, e ∈ timers s → e ∈ timers s')
    ∧ ∃ e, e ∈ timers s' ∧ connection_id e = id ∧ kind e = k ∧ deadline e = t).
Proof.
  intros I. apply psafe_modify; [forwards|]. unfold timers, connections. cbn. split_and!; [by apply inv_schedule|done| |].
  - intros e He. apply elem_of_heap_push. by right.
  - eexists. split; [apply elem_of_heap_push; by left|done].
Qed.

Lemma schedule_timeouts_ok now id held s c r connecting :
  inv now (focus id 1) [] held s → connections s !! id = Some c →
  (∀ x, waiting x (relay c) = false) → (∀ x, mask_of x c = to_epoll_mask (interest_of x now (relay c))) →
  scheduled_wake c = None → relay_static (relay c) = relay_static r → accepted_at_ r = now →
  last_activity_ (relay c) = now → upstream_connecting_ (relay c) = connecting →
  psafe (schedule_timeouts config id connecting now) s (λ _ s', inv now settled [] held s').
Proof.
  intros I Hc Hwait Hint Hsw Hst Hat Hact Hcon. unfold schedule_timeouts.
  apply psafe_bind with (P := λ _ s', inv now (focus id 1) [] held s' ∧ connections s' = connections s
    ∧ (0 < pc_connect_timeout config → connecting = true → ∃ e, e ∈ timers s'
       ∧ timer_for c ConnectTimeout e ∧ deadline e = now + milliseconds_to_nanoseconds (pc_connect_timeout config))).
  { pose proof (base_id _ _ _ _ _ _ _ _ I Hc) as Hid. destruct connecting; cbn [negb].
    - destruct (Z.ltb_spec 0 (pc_connect_timeout config)); [|apply psafe_ret; split_and!; [done|done|lia]].
      eapply psafe_mono; [by apply schedule_timer_ok|]. intros u s1 (I1 & Hcs & _ & e & He & Hei & Hek & Hed).
      split_and!; [done|done|]. intros _ _. exists e. split_and!; [done|split; congruence|done].
    - eapply psafe_mono; [by apply psafe_log|]. intros u s1 [I1 L1].
      split_and!; [done|by apply logged_connections|done]. }
  intros u s1 _ (I1 & Hcs1 & Htc). assert (Hc1 : connections s1 !! id = Some c) by congruence.
  pose proof (base_id _ _ _ _ _ _ _ _ I1 Hc1) as Hid.
  destruct (Z.ltb_spec 0 (pc_idle_timeout config)).
  - eapply psafe_mono; [by apply schedule_timer_ok|]. intros u' s2 (I2 & Hcs2 & Hsub & e & He & Hei & Hek & Hed).
    apply new_connection_settled with id c r; try done; [congruence| |].
    + intros _. exists e. split_and!; [done|split; congruence|done].
    + intros Hp Hx. destruct (Htc Hp) as (e' & He' & ?); [congruence|]. exists e'. auto.
  - apply psafe_ret. apply new_connection_settled with id c r; try done; [lia|].
    intros Hp Hx. apply Htc; congruence.
Qed.

(** Both sockets registered, the connection is at the first level. *)
Lemma register_sockets_ok now id held s c :
  inv now (focus id 0) [] held s → connections s !! id = Some c →
  psafe (register_sockets id (client_fd c) (upstream_fd c)) s (λ inserted s', inserted = c ∧ inv now (focus id 1) [] held s' ∧ pw_runtime s' = pw_runtime s).
Proof.
  intros I Hc. apply psafe_bind with (P := λ c' s', c' = c ∧ s' = s).
  { unfold psafe, connection_at. fold (connections s). by rewrite Hc. }
  intros _ _ _ [-> ->]. destruct (pi_conn _ _ _ _ _ _ _ _ I id c Hc) as (Hb & _).
  eapply psafe_bind; [by apply add_epoll_ok with (x := Client) (1 := I) (2 := Hc)|].
  intros _ s1 _ (I1 & Hr1 & Hreg1 & _).
  assert (Hc1 : connections s1 !! id = Some c) by (unfold connections in *; congruence).
  eapply psafe_bind; [by apply add_epoll_ok with (x := Upstream) (1 := I1) (2 := Hc1)|].
  intros _ s2 _ (I2 & Hr2 & Hreg2 & Hkeep2). apply psafe_ret. split_and!; [done| |congruence].
  assert (Hc2 : connections s2 !! id = Some c) by (unfold connections in *; congruence).
  apply inv_raise with (level := focus id 0) (id := id) (c := c); [done| | |done].
  - rewrite focus_same. destruct (pi_conn _ _ _ _ _ _ _ _ I2 id c Hc2) as (Hb2 & _).
    split_and!; [done| |lia|lia]. intros _ [|]; [|exact Hreg2].
    cbn. rewrite Hkeep2; [exact Hreg1|]. intros Heq.
    pose proof (cb_token _ _ _ _ Hb Client) as Ht1. pose proof (cb_token _ _ _ _ Hb Upstream) as Ht2.
    cbn in Ht1, Ht2. rewrite Ht1, Ht2 in Heq. by apply token_for_inj in Heq as [? _].
  - intros i Hi. by rewrite !focus_other.
Qed.

(** The masks of a new connection are its interests. *)
Lemma store_interests_bind {A} now id held s c (k : PM A) (Q : A → PW → Prop) :
  inv now (focus id 0) [] held s → connections s !! id = Some c →
  (∀ s' c', inv now (focus id 0) [] held s' → connections s' !! id = Some c' →
     refilled now (relay c) (relay c') → (∀ x, fd_of x c' = fd_of x c) → scheduled_wake c' = scheduled_wake c →
     (∀ x, mask_of x c' = to_epoll_mask (interest_of x now (relay c'))) → psafe k s' Q) →
  psafe (_ ← store_interest id Client now; _ ← store_interest id Upstream now; k) s Q.
Proof.
  intros I1 Hc1 Hk.
  eapply psafe_bind; [by apply (psafe_of now), (store_interest_ok now id Client held s _ I1 Hc1)|].
  intros _ s2 _ (I2 & c2 & Hcs2 & Hr2 & _ & _ & Hf2 & Hw2 & Hm2 & _).
  assert (Hc2 : connections s2 !! id = Some c2) by (by rewrite Hcs2, lookup_insert_eq).
  eapply psafe_bind; [by apply (psafe_of now), (store_interest_ok now id Upstream held s2 _ I2 Hc2)|].
  intros _ s3 _ (I3 & c3 & Hcs3 & Hr3 & _ & _ & Hf3 & Hw3 & Hm3 & Hm3').
  apply Hk with c3; [done|by rewrite Hcs3, lookup_insert_eq|etrans; [exact Hr2|exact Hr3]| |congruence|].
  - intros x. by rewrite Hf3, Hf2.
  - intros [|]; [|by rewrite (refilled_interest _ _ _ _ Hr3)].
    change Client with (other Upstream). rewrite Hm3'. cbn [other]. rewrite Hm2.
    by rewrite (refilled_interest _ _ _ _ Hr3), (refilled_interest _ _ _ _ Hr2).
Qed.

Lemma register_connection_ok old held held' client upstream connecting s :
  inv old settled [] held s → held ≡ₚ client :: upstream :: held' → room s →
  psafe (register_connection config client upstream connecting) s (λ _ s', steady config held' s').
Proof.
  intros I Hheld Hroom. unfold register_connection.
  apply psafe_steady_bind with (1 := I). intros now s0 _ I0 Hr0 Hp0. apply psafe_gets_bind.
  assert (Hroom0 : room s0) by (unfold room, connections in *; rewrite Hr0; lia). clear I Hroom.
  set (id := next_connection_id_ (pw_runtime s0)) in *. set (token := next_token_ (pw_runtime s0)).
  change (if faults_apply config id then pc_faults config else default_FaultPlan) with (plan_for config id).
  destruct (plan_for_ok id) as [Hpt Hpv].
  eapply psafe_lift_bind; [by apply make_Relay_ok; [apply valid_relay_config|..]|].
  intros r Hr [Hf Hcon]. destruct (make_Relay_fields _ _ _ _ _ _ _ _ Hr) as (Hcf & Huf & _ & Hat & Hact).
  assert (Hnone : connections s0 !! id = None).
  { apply eq_None_not_Some. intros Hi%(pi_ids _ _ _ _ _ _ _ _ I0). unfold id in Hi. lia. }
  assert (Hnext : u64_succ id = id + 1).
  { pose proof (pi_next _ _ _ _ _ _ _ _ I0). destruct Hroom0 as [Hb _]. unfold accept_limit in *.
    unfold u64_succ, u64_add. wrap_lia. }
  apply psafe_enter_bind; [done|exact Hnone|exact Hnext|done|]. set (s1 := note _ _).
  pose proof (new_connection_base now id client upstream connecting r token Hr Hf) as Hbase.
  assert (Htok : token = token_for Client id ∧ u64_succ token = token_for Upstream id).
  { pose proof (pi_token _ _ _ _ _ _ _ _ I0) as Ht. pose proof (pi_next _ _ _ _ _ _ _ _ I0).
    destruct Hroom0 as [Hb _]. unfold accept_limit, token, id, token_for in *. rewrite Ht. split; [done|wrap_lia]. }
  destruct Htok as [Ht1 Ht2]. specialize (Hbase Ht1 Ht2).
  assert (I1 : inv now (focus id 0) [] held' s1).
  { apply (inv_inserted config now (focus id 0) [] held held' (pw_runtime s0) (pw_env s0) (pw_trace s0)
      (new_connection id client upstream token r)); try done; try apply Hroom0.
    - apply focus_same.
    - apply inv_level with settled; [|exact I0]. intros i _. unfold focus, settled. case_decide; lia. }
  assert (Hc1 : connections s1 !! id = Some (new_connection id client upstream token r)).
  { apply lookup_insert_eq. }
  clearbody s1. clear I0 Hroom0.
  apply (store_interests_bind now id held' s1 _ _ _ I1 Hc1). intros s3 c3 I3 Hc3 Hr13 Hf3 Hw3 Hm3.
  assert (client = client_fd c3 ∧ upstream = upstream_fd c3) as [-> ->].
  { pose proof (Hf3 Client) as A1. pose proof (Hf3 Upstream) as A2. cbn in A1, A2. by rewrite A1, A2. }
  eapply psafe_bind; [by apply register_sockets_ok with (1 := I3) (2 := Hc3)|].
  intros inserted s4 _ (-> & I4 & Hr4).
  eapply psafe_bind; [by apply psafe_log|]. intros _ s5 _ [I5 L5].
  apply psafe_bind with (P := λ _ s', inv now (focus id 1) [] held' s' ∧ logged s5 s').
  { destruct (any_enabled (pc_faults config)); [by apply psafe_log|by apply psafe_ret]. }
  intros _ s6 _ [I6 L6].
  eapply psafe_mono; [|intros u s7 I7; exists now; exact I7].
  apply schedule_timeouts_ok with c3 r; try done.
  - rewrite (logged_connections _ _ L6), (logged_connections _ _ L5). unfold connections in *. by rewrite Hr4.
  - intros x. rewrite (refilled_waiting Hr13). by eapply fresh_waiting.
  - apply (rf_static _ _ _ Hr13).
  - by rewrite (rf_activity _ _ _ Hr13).
  - by rewrite (rf_connecting _ _ _ Hr13).
Qed.

(** *** One client, and the listener's loop *)

Lemma psafe_close_last now held held' fd s :
  inv now settled [] held s → held ≡ₚ fd :: held' →
  psafe (close_fd fd) s (λ _ s', inv now settled [] held' s').
Proof.
  intros I Hp. apply (psafe_of now). eapply pkeeps_mono; [by apply close_fd_ok with (1 := I) (2 := Hp)|].
  by intros _ s' [? _].
Qed.

Lemma upstream_address : ∃ a, to_sockaddr (pc_upstream config) = Ok a.
Proof.
  destruct (vpc_upstream _ Hvalid) as [[x Hx] _]. unfold to_sockaddr. rewrite Hx. eauto.
Qed.

(** The client's descriptor is registered, or closed. *)
Lemma accept_client_ok now held client s :
  inv now settled [] (client :: held) s →
  next_connection_id_ (pw_runtime s) + Z.of_nat (pending (pw_env s)) < accept_limit →
  psafe (accept_client config client) s (λ _ s', steady config held s').
Proof.
  intros I Hbudget. unfold accept_client. apply psafe_gets_bind. fold (connections s).
  assert (Hclose : ∀ s1, inv now settled [] (client :: held) s1 →
    psafe (close_fd client) s1 (λ _ s', steady config held s')).
  { intros s1 I1. eapply psafe_mono; [by apply psafe_close_last with (1 := I1)|]. intros u s2 I2. by exists now. }
  destruct (Z.leb_spec (pc_max_connections config) (Z.of_nat (size (connections s)))) as [Hfull|Hsize].
  { eapply psafe_bind; [by apply psafe_log|]. intros u s1 _ [I1 _]. by apply Hclose. }
  assert (Hroom : room s) by done. clear Hbudget Hsize.
  apply psafe_sys_bind. intros opened e1 Hs1.
  assert (L1 : logged s (after_call s OpenSocket opened e1)) by apply logged_call.
  apply (room_logged _ _ L1 (pending_le _ _ _ _ Hs1)) in Hroom. clear L1.
  destruct (Z.ltb_spec (ret opened) 0) as [Hneg|Hpos].
  { eapply psafe_bind with (P := λ _ s', inv now settled [] (client :: held) s');
      [|intros u s2 _ I2; by apply Hclose].
    eapply psafe_mono; [apply psafe_log; apply inv_after_call; [exact I|done|done|]|by intros u s2 [? _]].
    repeat split; cbn. by destruct (Z.leb_spec 0 (ret opened)); [lia|]. }
  assert (I1 : inv now settled [] (ret opened :: client :: held) (after_call s OpenSocket opened e1)).
  { apply inv_open with (e := pw_env s); auto. }
  revert Hroom I1. generalize (after_call s OpenSocket opened e1). clear I Hs1 s e1. intros s Hroom I.
  set (upstream := ret opened) in *. clearbody upstream. clear opened Hpos.
  eapply psafe_bind; [by apply apply_socket_buffer_size_ok|]. intros u s1 Hp1 [I1 L1].
  apply (room_logged _ _ L1 Hp1) in Hroom. clear I L1 Hp1 u s.
  destruct upstream_address as [a Ha]. rewrite Ha. eapply psafe_lift_bind with (P := λ _, True); [done|].
  intros a' [= <-] _. apply psafe_sys_bind. intros r e2 Hs2.
  assert (I2 : inv now settled [] (upstream :: client :: held) (after_call s1 (Connect upstream a) r e2))
    by (by apply inv_after_call).
  assert (L2 : logged s1 (after_call s1 (Connect upstream a) r e2)) by apply logged_call.
  apply (room_logged _ _ L2 (pending_le _ _ _ _ Hs2)) in Hroom.
  destruct ((ret r <? 0) && negb _).
  - eapply psafe_bind; [by apply psafe_log|]. intros u s3 _ [I3 _].
    eapply psafe_bind; [by apply psafe_close_last with (1 := I3) (held' := client :: held)|].
    intros u' s4 _ I4. by apply Hclose.
  - apply register_connection_ok with (old := now) (held := upstream :: client :: held); [done| |done].
    apply Permutation_swap.
Qed.

Lemma accept_loop_ok fuel held s :
  steady config held s → (pending (pw_env s) < fuel)%nat →
  psafe (accept_loop config fuel) s (λ _ s', steady config held s').
Proof.
  revert s. induction fuel as [|fuel IH]; intros s [now I] Hfuel; [lia|]. cbn [accept_loop].
  apply psafe_sys_bind. intros r e' Hs. pose proof (pending_lt _ _ _ _ Hs) as Hlt. cbn [repeats] in Hlt.
  destruct (Z.ltb_spec (ret r) 0) as [Hneg|Hpos].
  - assert (I1 : inv now settled [] held (after_call s Accept r e')).
    { apply inv_after_call; [done..|]. repeat split; cbn. by destruct (Z.leb_spec 0 (ret r)); [lia|]. }
    destruct ((errno r =? EAGAIN) || (errno r =? EWOULDBLOCK)); [apply psafe_ret; by exists now|].
    destruct (Z.eqb_spec (errno r) EINTR) as [He|He].
    + apply IH; [by exists now|]. cbn. rewrite orb_true_r in Hlt. specialize (Hlt eq_refl). lia.
    + eapply psafe_mono; [by apply psafe_log|]. intros u s2 [I2 _]. by exists now.
  - assert (Hrep : (0 <=? ret r) || (errno r =? EINTR) = true) by (by destruct (Z.leb_spec 0 (ret r)); [|lia]).
    specialize (Hlt Hrep).
    assert (I1 : inv now settled [] (ret r :: held) (after_call s Accept r e')).
    { apply inv_open with (e := pw_env s); auto. }
    eapply psafe_bind; [apply accept_client_ok with (1 := I1)|].
    + cbn. pose proof (pi_budget _ _ _ _ _ _ _ _ I). lia.
    + intros u s2 Hp2 Hst2. apply IH; [done|]. cbn in Hp2. lia.
Qed.

Lemma accept_ready_ok held s :
  steady config held s → psafe (accept_ready config) s (λ _ s', steady config held s').
Proof. intros Hst. unfold accept_ready. apply psafe_gets_bind. apply accept_loop_ok; [done|lia]. Qed.
End accept.
