(* ===== verification/ProxyRun.v ===== *)
(** * The loop keeps the invariant

    Arming the timer, the metrics, the dispatch of events, the rounds of the
    loop and the shutdown. *)

From Stdlib Require Import ZArith Lia Init.Byte Ascii String Sorted SpecFloat.
From stdpp Require Import base numbers list option strings pretty gmap.
From S2P Require Import Prelude Text Endpoint ByteQueue Backpressure DelayLine TokenBucket.
From S2P Require Import FaultRng FaultPlan.
From S2P Require Import ConnectionState TimerQueue SocketIo Relay RelayDirection RelayFacts.
From S2P Require Import RelayQueries RelayRun.
From S2P Require Import RelaySpec Logger RelayReport ProxyConfig Proxy ProxyLoop ProxyWalk.
From S2P Require Import ProxyInv.
From S2P Require Import ProxyFacts ProxyEvents.
From S2P Require Import ProxyAccept.

Local Open Scope Z_scope.

(** The reply to the last setting of the timer descriptor. *)
Definition setting_reply (p : Call * Reply) : option Reply :=
  match p.1 with SetTimer _ _ => Some p.2 | _ => None end.
Definition last_setting (trace : list (Call * Reply)) : option Reply := last (omap setting_reply trace).

Lemma last_setting_app trace p :
  last_setting (trace ++ [p]) = match setting_reply p with Some r => Some r | None => last_setting trace end.
Proof.
  unfold last_setting. rewrite omap_app. cbn. destruct (setting_reply p).
  - apply last_snoc.
  - by rewrite app_nil_r.
Qed.

Lemma size_substr_from n s : (n ≤ String.length s)%nat → string_size (substr_from n s) = string_size s - Z.of_nat n.
Proof. intros Hn. unfold string_size, substr_from. rewrite length_substring. lia. Qed.

Section run.
#[local] Set Default Proof Using "Type*".
Context {W E Out : Type} `{SocketIoLaws W} `{KernelLaws E} `{OutputLaws Out}.
Context `{Libc} `{Inet} `{UnorderedMapLaws} (config : ProxyConfig).
Hypothesis Htyped : config_typed config.
Hypothesis Hvalid : valid_proxy_config config.

Abbreviation PW := (ProxyWorld W E Out).
Abbreviation PM := (M PW).
Implicit Types (s : PW) (c : Connection).
Abbreviation inv := (pinv config).
Abbreviation steady := (steady config).

(** ** The timer descriptor *)

(** The earliest deadline is the one the descriptor was set for, unless the
    kernel refused the setting. *)
Definition timer_current s : Prop :=
  last_armed_deadline_ (pw_runtime s) = next_deadline (timer_queue_ (pw_runtime s))
  ∨ ∃ r, last_setting (pw_trace s) = Some r ∧ ret r < 0.

Lemma arm_timer_fd_ok held s :
  steady held s → psafe arm_timer_fd s (λ _ s', steady held s' ∧ timer_current s').
Proof.
  intros [now I]. unfold arm_timer_fd. apply psafe_gets_bind.
  destruct (bool_decide_reflect (next_deadline (timer_queue_ (pw_runtime s)) = last_armed_deadline_ (pw_runtime s))) as [He|Hne].
  { apply psafe_ret. split; [by exists now|by left]. }
  set (d := next_deadline (timer_queue_ (pw_runtime s))). apply psafe_sys_bind. intros r e' Hs.
  pose proof (inv_set_timer config now settled [] held _ _ _ d r e' Hs I) as I1. fold d in Hs.
  destruct (Z.ltb_spec (ret r) 0) as [Hneg|Hpos].
  - apply (psafe_of now), log_event_exact. intros l o r2 e2 Hs2. split.
    + exists now. apply inv_logger. by apply inv_neutral with e'; [|done|apply neutral_system_now|].
    + right. exists r. cbn. by rewrite !last_setting_app.
  - apply psafe_modify_bind; [forwards|]. set (s1 := set_runtime _ _).
    assert (I1' : inv now settled [] held s1) by exact I1.
    assert (Hcur : last_armed_deadline_ (pw_runtime s1) = next_deadline (timer_queue_ (pw_runtime s1))) by done.
    clearbody s1. clear I1 Hs. destruct d as [deadline|].
    2:{ apply psafe_ret. split; [by exists now|by left]. }
    apply psafe_steady_bind with (1 := I1'). intros t s2 _ I2 Hr2 _.
    eapply psafe_mono; [by apply psafe_log|]. intros u s3 [I3 [_ [l Hr3]]]. split; [by exists t|left].
    by rewrite Hr3, Hr2.
Qed.

(** Reading the timer or the signal descriptor. *)
Lemma read_fd_ok (call : Call) held s :
  call = ReadTimer ∨ call = ReadSignal → steady held s →
  psafe (read_fd call) s (λ _ s', steady held s').
Proof.
  intros Hcall Hst. unfold read_fd. apply psafe_gets_bind.
  assert (Hf : (pending (pw_env s) < S (pending (pw_env s)))%nat) by lia. revert Hf Hst.
  generalize (S (pending (pw_env s))) as fuel. intros fuel. revert s.
  induction fuel as [|fuel IH]; intros s Hf [now I]; [lia|]. cbn [read_loop].
  apply psafe_sys_bind. intros r e' Hs.
  assert (I1 : inv now settled [] held (after_call s call r e')).
  { apply inv_after_call; [done|done|by destruct Hcall as [-> | ->]|]. by destruct Hcall as [-> | ->]. }
  destruct ((ret r <? 0) && (errno r =? EINTR)) eqn:Hrep; [|apply psafe_ret; by exists now].
  apply IH; [|by exists now]. pose proof (pending_lt _ _ _ _ Hs) as Hlt. cbn.
  assert (repeats call r = true) by (by destruct Hcall as [-> | ->]). specialize (Hlt ltac:(done)). lia.
Qed.

Lemma drain_timer_fd_ok held s :
  steady held s → psafe drain_timer_fd s (λ _ s', steady held s').
Proof.
  intros Hst. eapply psafe_bind; [apply read_fd_ok; [by left|done]|]. intros r s1 _ I1. by apply psafe_ret.
Qed.

(** ** Metrics *)

(** The table of connections stays as it is. *)
Definition still (held : list Z) s s' : Prop := steady held s' ∧ connections s' = connections s.

Lemma psafe_still_log name id state detail held s s0 :
  still held s0 s → psafe (log_event name id state detail) s (λ _ s', still held s0 s').
Proof.
  intros [[now I] Hc]. eapply psafe_mono; [by apply psafe_log|]. intros u s' [I' L]. split; [by exists now|].
  by rewrite (logged_connections _ _ L).
Qed.

Lemma write_file_loop_ok fuel fd json offset held s0 s :
  0 ≤ offset ≤ string_size json → still held s0 s →
  string_size json - offset + Z.of_nat (pending (pw_env s)) ≤ Z.of_nat fuel →
  psafe (write_file_loop fuel fd json offset) s (λ _ s', still held s0 s').
Proof.
  revert offset s. induction fuel as [|fuel IH]; intros offset s Ho [[now I] Hcs] Hfuel; cbn [write_file_loop];
    destruct (Z.ltb_spec offset (string_size json)) as [Hlt|Hge]; try (apply psafe_ret; split; [by exists now|done]); [lia|].
  assert (Hsize : string_size (substr_from (Z.to_nat offset) json) = string_size json - offset).
  { rewrite size_substr_from; [lia|]. unfold string_size in *. lia. }
  apply psafe_sys_bind. intros r e' Hs.
  assert (Hne : substr_from (Z.to_nat offset) json ≠ "").
  { intros Hn. rewrite Hn in Hsize. change (string_size "") with 0 in Hsize. lia. }
  pose proof (write_count _ _ _ _ _ Hs Hne) as Hcount. rewrite Hsize in Hcount.
  pose proof (pending_le _ _ _ _ Hs) as Hle. pose proof (pending_lt _ _ _ _ Hs) as Hdec. cbn [repeats] in Hdec.
  set (s1 := after_call _ _ _ _).
  assert (I1 : still held s0 s1) by (split; [exists now; unfold s1; by apply inv_after_call|done]).
  destruct (Z.ltb_spec (ret r) 0) as [Hneg|Hpos]; cbn [andb] in Hdec.
  - destruct (Z.eqb_spec (errno r) EINTR) as [He|He].
    + specialize (Hdec eq_refl). apply IH; [lia|done|]. cbn. lia.
    + eapply psafe_bind; [by apply psafe_still_log with (s0 := s0)|]. intros u s2 _ I2. by apply psafe_ret.
  - apply IH; [lia|done|]. cbn. lia.
Qed.

Lemma build_metrics_json_ok held s :
  steady held s → psafe (build_metrics_json config) s (λ _ s', still held s s').
Proof.
  intros [old I]. unfold build_metrics_json. apply psafe_steady_bind with (1 := I). intros now s1 _ I1 Hr1 _.
  apply psafe_sys_bind. intros r e' Hs. apply psafe_gets_bind, psafe_ret. split.
  - exists now. by apply inv_after_call.
  - unfold connections. cbn. by rewrite Hr1.
Qed.

Lemma write_metrics_file_ok held s :
  steady held s → psafe (write_metrics_file config) s (λ _ s', still held s s').
Proof.
  intros Hst. unfold write_metrics_file. case_decide; [by apply psafe_ret|].
  eapply psafe_bind; [by apply build_metrics_json_ok|]. intros document s1 _ [[now I1] Hc1].
  apply psafe_sys_bind. intros r e' Hs. set (path := _ +:+ ".tmp") in *. set (json := document +:+ _).
  destruct (Z.ltb_spec (ret r) 0) as [Hneg|Hpos].
  { apply psafe_still_log. split; [exists now|exact Hc1]. apply inv_after_call; [done|done|done|].
    repeat split; cbn. by destruct (Z.leb_spec 0 (ret r)); [lia|]. }
  assert (I2 : inv now settled [] (ret r :: held) (after_call s1 (OpenFile path) r e')).
  { apply inv_open with (e := pw_env s1); eauto. }
  apply psafe_gets_bind. eapply psafe_bind; [apply write_file_loop_ok with (s0 := s); [|split; [by exists now|done]|]|].
  { unfold string_size. lia. }
  { unfold string_size. cbn. lia. }
  intros complete s3 _ [[t I3] Hc3].
  eapply psafe_bind with (P := λ _ s', inv t settled [] held s' ∧ connections s' = connections s).
  { apply (psafe_of t). eapply pkeeps_mono; [by apply close_fd_ok with (1 := I3) (held' := held)|].
    intros u s4 [I4 Hr4]. split; [done|]. unfold connections in *. by rewrite Hr4. }
  intros u s4 _ [I4 Hc4]. destruct (negb complete); [apply psafe_ret; split; [by exists t|done]|].
  apply psafe_sys_bind. intros r5 e5 Hs5.
  assert (I5 : still held s (after_call s4 (Rename path (pc_metrics_file config)) r5 e5))
    by (split; [exists t; by apply inv_after_call|done]).
  destruct (negb (ret r5 =? 0)); by apply psafe_still_log.
Qed.

Lemma log_snapshots_ok ids now held s :
  inv now settled [] held s → (∀ id, id ∈ ids → is_Some (connections s !! id)) →
  psafe (log_snapshots ids now) s (λ _ s', steady held s').
Proof.
  revert s. induction ids as [|id ids IH]; intros s I Hids; cbn [log_snapshots]; [apply psafe_ret; by exists now|].
  destruct (Hids id ltac:(left)) as [c Hc].
  apply psafe_bind with (P := λ _ s', s' = s).
  { unfold psafe, connection_at. fold (connections s). by rewrite Hc. }
  intros c' s' _ ->. eapply psafe_bind; [by apply psafe_log|]. intros u s1 _ [I1 L1].
  apply IH; [done|]. intros i Hi. rewrite (logged_connections _ _ L1). apply Hids. by right.
Qed.

Lemma map_order_elem (m : gmap Z Connection) id : id ∈ map_order m ↔ is_Some (m !! id).
Proof.
  rewrite (map_order_permutation m), list_elem_of_fmap. split.
  - intros ([i c] & -> & Hc%elem_of_map_to_list). cbn. eauto.
  - intros [c Hc]. exists (id, c). split; [done|by apply elem_of_map_to_list].
Qed.

Lemma emit_metrics_snapshot_ok held s :
  steady held s → psafe emit_metrics_snapshot s (λ _ s', steady held s').
Proof.
  intros [old I]. unfold emit_metrics_snapshot. apply psafe_steady_bind with (1 := I). intros now s1 _ I1 _ _.
  apply psafe_gets_bind. eapply psafe_bind; [by apply psafe_log|]. intros u s2 _ [I2 L2].
  apply log_snapshots_ok; [done|]. intros id Hid. rewrite (logged_connections _ _ L2).
  by apply map_order_elem.
Qed.

(** ** Dispatch and rounds *)

Lemma dispatch_ok event_mask token held s :
  steady held s → psafe (dispatch config event_mask token) s (λ _ s', steady held s').
Proof.
  intros Hst. unfold dispatch. destruct (token =? kListenerToken).
  { eapply psafe_bind; [by apply accept_ready_ok|]. intros u s1 _ I1. by apply psafe_ret. }
  destruct (token =? kSignalToken).
  { eapply psafe_bind; [apply read_fd_ok; [by right|done]|]. intros r s1 _ I1.
    destruct (negb (ret r =? siginfo_size)).
    { eapply psafe_bind; [apply psafe_still_log with (s0 := s1) (held := held); by split|]. intros u s2 _ [I2 _]. by apply psafe_ret. }
    destruct (value r =? SIGUSR1); [|by apply psafe_ret].
    apply psafe_bind with (P := λ _ s', steady held s'); [exact (emit_metrics_snapshot_ok held s1 I1)|]. intros u s2 _ I2.
    apply psafe_bind with (P := λ _ s', still held s2 s'); [exact (write_metrics_file_ok held s2 I2)|]. intros u' s3 _ [I3 _]. by apply psafe_ret. }
  destruct (token =? kTimerToken).
  { eapply psafe_bind; [by apply drain_timer_fd_ok|].
    intros u s1 _ [old I1]. apply psafe_steady_bind with (1 := I1). intros now s2 _ I2 _ _.
    eapply psafe_bind; [apply (psafe_of now); by apply process_due_timers_ok|]. intros n s3 _ [I3 _].
    apply psafe_gets_bind. eapply psafe_bind; [by apply psafe_log|]. intros u' s4 _ [I4 _]. apply psafe_ret. by exists now. }
  eapply psafe_bind; [by apply socket_ready_ok|]. intros u s1 _ I1. by apply psafe_ret.
Qed.

Lemma dispatch_all_ok events held s :
  steady held s → psafe (dispatch_all config events) s (λ _ s', steady held s').
Proof.
  revert s. induction events as [|[mask token] events IH]; intros s Hst; cbn [dispatch_all]; [by apply psafe_ret|].
  eapply psafe_bind; [by apply dispatch_ok|]. intros [] s1 _ I1; [by apply psafe_ret|by apply IH].
Qed.

Lemma run_once_ok held s :
  steady held s → timer_current s →
  psafe (run_once config) s (λ _ s', steady held s' ∧ timer_current s').
Proof.
  intros [now I] Hcur. unfold run_once. apply psafe_sys_bind. intros r e' Hs.
  assert (I1 : steady held (after_call s EpollWait r e')) by (exists now; by apply inv_after_call).
  destruct (Z.ltb_spec (ret r) 0) as [Hneg|Hpos].
  - destruct (Z.eqb_spec (errno r) EINTR) as [He|He].
    + apply psafe_ret. split; [done|]. destruct Hcur as [Hcur|(x & Hx & ?)]; [by left|right].
      exists x. cbn. by rewrite last_setting_app.
    + cbn. intros Hrel. pose proof (Hrel _ _ _ _ Hs) as Hok. cbn in Hok. lia.
  - eapply psafe_bind; [by apply dispatch_all_ok|]. intros stopping s2 _ I2.
    eapply psafe_bind; [apply arm_timer_fd_ok with (held := held); exact I2|]. intros u s3 _ I3. by apply psafe_ret.
Qed.

Lemma run_rounds_ok rounds held s :
  steady held s → timer_current s →
  psafe (run_rounds config rounds) s (λ _ s', steady held s' ∧ timer_current s').
Proof.
  revert s. induction rounds as [|rounds IH]; intros s Hst Hcur; cbn [run_rounds]; [by apply psafe_ret|].
  eapply psafe_bind; [by apply run_once_ok|]. intros [] s1 _ [I1 C1]; [by apply psafe_ret|by apply IH].
Qed.

(** ** Shutdown *)

Lemma shutdown_loop_ok fuel now held s :
  inv now settled [] held s → (size (connections s) ≤ fuel)%nat →
  psafe (shutdown_loop fuel now) s (λ _ s', inv now settled [] held s' ∧ connections s' = ∅).
Proof.
  revert s. induction fuel as [|fuel IH]; intros s I Hf; cbn [shutdown_loop]; apply psafe_gets_bind; fold (connections s).
  all: destruct (map_order (connections s)) as [|id ids] eqn:Hord.
  all: try (apply psafe_ret; split; [done|]; apply map_empty; intros i; apply eq_None_not_Some;
    rewrite <-map_order_elem, Hord; apply not_elem_of_nil).
  all: assert (Hid : is_Some (connections s !! id)) by (apply map_order_elem; rewrite Hord; left).
  - destruct Hid as [c Hc]. apply Nat.le_0_r in Hf. apply map_size_empty_inv in Hf. by rewrite Hf in Hc.
  - eapply psafe_bind; [apply (psafe_of now); by apply close_connection_ok with (level := settled) (level' := settled)|].
    intros u s1 _ (I1 & Hcs & _). apply IH; [done|]. rewrite Hcs, map_size_delete_Some by done. lia.
Qed.

Lemma shutdown_ok held s :
  steady held s → psafe (shutdown config) s (λ _ s', steady held s' ∧ connections s' = ∅).
Proof.
  intros [old I]. unfold shutdown. apply psafe_steady_bind with (1 := I). intros now s1 _ I1 _ _.
  apply psafe_gets_bind. eapply psafe_bind; [by apply shutdown_loop_ok|]. intros u s2 _ [I2 Hcs2].
  eapply psafe_bind; [apply write_metrics_file_ok; by exists now|]. intros u' s3 _ [I3 Hcs3].
  apply psafe_gets_bind. eapply psafe_mono; [apply psafe_still_log with (s0 := s3) (held := held); by split; [apply I3|]|].
  intros u'' s4 [I4 Hcs4]. split; [done|congruence].
Qed.
End run.
