(* ===== verification/ProxyCli.v ===== *)
(** * The proxy's command line (src/proxy/main.cpp)

    The parsing of the arguments into a [ProxyConfig], the defaults that follow
    from the arguments given, and [main] up to the exit status. *)

From Stdlib Require Import ZArith Lia Init.Byte Ascii String SpecFloat.
From stdpp Require Import base numbers list option strings pretty gmap.
From S2P Require Import Prelude Text CommandLine FloatText Endpoint ByteQueue Backpressure.
From S2P Require Import DelayLine.
From S2P Require Import TokenBucket FaultRng.
From S2P Require Import FaultPlan ConnectionState TimerQueue SocketIo Relay Logger RelayReport.
From S2P Require Import ProxyConfig Proxy ProxySetup.
From S2P Require Import ProxyLoop.

Local Open Scope Z_scope.

(** ** Values *)

Definition parse_size (text name : string) : outcome Z :=
  let '(error, value, end_) := from_chars (two64 - 1) 0 text in
  _ ← throw_if (bool_decide (error ≠ NoError) || bool_decide (end_ ≠ ""))
        (InvalidArgument (name +:+ " must be a non-negative integer"));
  Ok value.

Definition parse_probability (text : string) : outcome double :=
  let '(error, value, end_) := from_chars_double double_zero text in
  _ ← throw_if (bool_decide (error ≠ NoError) || bool_decide (end_ ≠ "")
                || SFltb value double_zero || SFltb double_one value)
        (InvalidArgument "fault_probability must be a number between 0 and 1");
  Ok value.

Definition parse_directions (text : string) : outcome FaultDirections :=
  if decide (text = "both") then Ok Both
  else if decide (text = "c2u") then Ok ClientToUpstream
  else if decide (text = "u2c") then Ok UpstreamToClient
  else Throw (InvalidArgument "fault_direction must be both, c2u, or u2c").

(** The text printed by [print_help]. *)
Definition print_help : string :=
"NetFault Lab proxy (Milestone 3)

Usage:
  netfault-proxy [options]

Options:
  --listen HOST:PORT       Numeric IPv4 listener (default 127.0.0.1:8080)
  --upstream HOST:PORT     Numeric IPv4 upstream (default 127.0.0.1:9000)
  --max-connections N      Connection limit (default 256)
  --buffer-bytes N         Fixed bytes per direction/connection (default 65536)
  --low-water-bytes N      Resume reads at or below this occupancy (default 32768)
  --high-water-bytes N     Pause reads at this occupancy (default 65536)
  --socket-buffer-bytes N  Set SO_SNDBUF/SO_RCVBUF on upstream sockets; small
                            values constrain the upstream path and force
                            partial writes for testing (default: kernel
                            default)
  --connect-timeout-ms N   Fail connections whose upstream connect exceeds N ms
                            (default 0 = disabled)
  --idle-timeout-ms N      Close connections with no transfer for N ms
                            (default 0 = disabled)
  --metrics-file PATH      Atomically write a JSON metrics document to PATH on
                            SIGUSR1 and at shutdown (default: disabled)

Fault injection (deterministic; reproducible from the same seed):
  --fault-seed N           Master seed for all fault randomness (default 0)
  --fault-probability P    Chance each connection receives faults (default 1)
  --fault-direction D      both, c2u, or u2c for latency/jitter/rate (default both)
  --fault-latency-ms N     Delay forwarded bytes by N ms
  --fault-jitter-ms N      Uniform per-chunk jitter in [-N, +N] ms, clamped so
                            total delay never goes negative
  --fault-rate-bytes-per-sec N
                            Token-bucket rate limit per direction
  --fault-burst-bytes N    Token-bucket burst (default: one second of tokens)
  --fault-reset-after-bytes N
                            Reset the connection after N total forwarded bytes
  --fault-half-close-after-bytes N
                            Half-close toward the client after N bytes reach it

  --unsafe-allow-non-loopback-listen
                            Permit a non-loopback listener after a warning
  --unsafe-allow-non-loopback-upstream
                            Permit a non-loopback upstream after a warning
  --help                    Show this help

Payload contents are never logged.
".

(** [std::chrono::milliseconds{n}] for a [size_t]: the count is a signed word. *)
Definition parse_milliseconds (text name : string) : outcome Z := i64_of_u64 <$> parse_size text name.

(** ** The variables of [main] *)

Record CliState := mkCliState {
  cli_config : ProxyConfig;
  buffer_was_set : bool;
  low_water_was_set : bool;
  high_water_was_set : bool;
}.

Definition initial_cli : CliState := mkCliState default_ProxyConfig false false false.

(** Assignments to the configuration's fields. *)
Definition set_listen v c :=
  let 'mkProxyConfig _ u m b l h s ct it mf f al au := c in mkProxyConfig v u m b l h s ct it mf f al au.
Definition set_upstream v c :=
  let 'mkProxyConfig li _ m b l h s ct it mf f al au := c in mkProxyConfig li v m b l h s ct it mf f al au.
Definition set_max_connections v c :=
  let 'mkProxyConfig li u _ b l h s ct it mf f al au := c in mkProxyConfig li u v b l h s ct it mf f al au.
Definition set_buffer_bytes v c :=
  let 'mkProxyConfig li u m _ l h s ct it mf f al au := c in mkProxyConfig li u m v l h s ct it mf f al au.
Definition set_low_water_bytes v c :=
  let 'mkProxyConfig li u m b _ h s ct it mf f al au := c in mkProxyConfig li u m b v h s ct it mf f al au.
Definition set_high_water_bytes v c :=
  let 'mkProxyConfig li u m b l _ s ct it mf f al au := c in mkProxyConfig li u m b l v s ct it mf f al au.
Definition set_socket_buffer_bytes v c :=
  let 'mkProxyConfig li u m b l h _ ct it mf f al au := c in mkProxyConfig li u m b l h v ct it mf f al au.
Definition set_connect_timeout v c :=
  let 'mkProxyConfig li u m b l h s _ it mf f al au := c in mkProxyConfig li u m b l h s v it mf f al au.
Definition set_idle_timeout v c :=
  let 'mkProxyConfig li u m b l h s ct _ mf f al au := c in mkProxyConfig li u m b l h s ct v mf f al au.
Definition set_metrics_file v c :=
  let 'mkProxyConfig li u m b l h s ct it _ f al au := c in mkProxyConfig li u m b l h s ct it v f al au.
Definition set_faults g c :=
  let 'mkProxyConfig li u m b l h s ct it mf f al au := c in mkProxyConfig li u m b l h s ct it mf (g f) al au.
Definition allow_listen c :=
  let 'mkProxyConfig li u m b l h s ct it mf f _ au := c in mkProxyConfig li u m b l h s ct it mf f true au.
Definition allow_upstream c :=
  let 'mkProxyConfig li u m b l h s ct it mf f al _ := c in mkProxyConfig li u m b l h s ct it mf f al true.

Definition set_seed v f :=
  let 'mkFaultPlan _ p d la ji ra bu re hc := f in mkFaultPlan v p d la ji ra bu re hc.
Definition set_probability v f :=
  let 'mkFaultPlan s _ d la ji ra bu re hc := f in mkFaultPlan s v d la ji ra bu re hc.
Definition set_directions v f :=
  let 'mkFaultPlan s p _ la ji ra bu re hc := f in mkFaultPlan s p v la ji ra bu re hc.
Definition set_latency v f :=
  let 'mkFaultPlan s p d _ ji ra bu re hc := f in mkFaultPlan s p d v ji ra bu re hc.
Definition set_jitter v f :=
  let 'mkFaultPlan s p d la _ ra bu re hc := f in mkFaultPlan s p d la v ra bu re hc.
Definition set_rate v f :=
  let 'mkFaultPlan s p d la ji _ bu re hc := f in mkFaultPlan s p d la ji v bu re hc.
Definition set_burst v f :=
  let 'mkFaultPlan s p d la ji ra _ re hc := f in mkFaultPlan s p d la ji ra v re hc.
Definition set_reset_after v f :=
  let 'mkFaultPlan s p d la ji ra bu _ hc := f in mkFaultPlan s p d la ji ra bu v hc.
Definition set_half_close_after v f :=
  let 'mkFaultPlan s p d la ji ra bu re _ := f in mkFaultPlan s p d la ji ra bu re v.

Definition with_config (g : ProxyConfig → ProxyConfig) (st : CliState) : CliState :=
  mkCliState (g (cli_config st)) (buffer_was_set st) (low_water_was_set st) (high_water_was_set st).

(** ** Options *)

Section cli.
Context `{Inet}.

(** A value parsed and stored in the configuration. *)
Definition stores {A} (read : string → outcome A) (set : A → ProxyConfig → ProxyConfig) : CliOption CliState :=
  Valued (λ text, (λ v, with_config (set v)) <$> read text).
Definition stores_fault {A} (read : string → outcome A) (set : A → FaultPlan → FaultPlan) : CliOption CliState :=
  stores read (λ v, set_faults (set v)).
Definition size_of (name text : string) : outcome Z := parse_size text name.
Definition milliseconds_of (name text : string) : outcome Z := parse_milliseconds text name.

Definition store_buffer (v : Z) (st : CliState) : CliState :=
  mkCliState (set_buffer_bytes v (cli_config st)) true (low_water_was_set st) (high_water_was_set st).
Definition store_low_water (v : Z) (st : CliState) : CliState :=
  mkCliState (set_low_water_bytes v (cli_config st)) (buffer_was_set st) true (high_water_was_set st).
Definition store_high_water (v : Z) (st : CliState) : CliState :=
  mkCliState (set_high_water_bytes v (cli_config st)) (buffer_was_set st) (low_water_was_set st) true.

(** The chain of comparisons of [main], as a table. *)
Definition options : list (string * CliOption CliState) :=
  [("--listen", stores parse set_listen);
   ("--upstream", stores parse set_upstream);
   ("--max-connections", stores (size_of "max_connections") set_max_connections);
   ("--buffer-bytes", Valued (λ text, store_buffer <$> parse_size text "buffer_bytes"));
   ("--low-water-bytes", Valued (λ text, store_low_water <$> parse_size text "low_water_bytes"));
   ("--high-water-bytes", Valued (λ text, store_high_water <$> parse_size text "high_water_bytes"));
   ("--socket-buffer-bytes", stores (size_of "socket_buffer_bytes") set_socket_buffer_bytes);
   ("--connect-timeout-ms", stores (milliseconds_of "connect_timeout_ms") set_connect_timeout);
   ("--idle-timeout-ms", stores (milliseconds_of "idle_timeout_ms") set_idle_timeout);
   ("--metrics-file", stores Ok set_metrics_file);
   ("--fault-seed", stores_fault (size_of "fault_seed") set_seed);
   ("--fault-probability", stores_fault parse_probability set_probability);
   ("--fault-direction", stores_fault parse_directions set_directions);
   ("--fault-latency-ms", stores_fault (milliseconds_of "fault_latency_ms") set_latency);
   ("--fault-jitter-ms", stores_fault (milliseconds_of "fault_jitter_ms") set_jitter);
   ("--fault-rate-bytes-per-sec", stores_fault (size_of "fault_rate_bytes_per_sec") set_rate);
   ("--fault-burst-bytes", stores_fault (size_of "fault_burst_bytes") set_burst);
   ("--fault-reset-after-bytes", stores_fault (size_of "fault_reset_after_bytes") set_reset_after);
   ("--fault-half-close-after-bytes", stores_fault (size_of "fault_half_close_after_bytes") set_half_close_after);
   ("--unsafe-allow-non-loopback-listen", Switch (with_config allow_listen));
   ("--unsafe-allow-non-loopback-upstream", Switch (with_config allow_upstream))].

(** The watermarks that were not given follow from those that were. *)
Definition default_watermarks (st : CliState) : ProxyConfig :=
  let config := cli_config st in
  let config :=
    if buffer_was_set st && negb (high_water_was_set st)
    then set_high_water_bytes (pc_buffer_bytes_per_direction config) config else config in
  if (buffer_was_set st || high_water_was_set st) && negb (low_water_was_set st)
  then set_low_water_bytes (pc_high_water_bytes config / 2) config else config.

Definition command_line (arguments : list string) : outcome (option ProxyConfig) :=
  parsed ← parse_arguments options arguments initial_cli;
  Ok (match parsed with Some st => Some (default_watermarks st) | None => None end).

(** The lines printed to standard error before the proxy starts. *)
Definition warnings (config : ProxyConfig) : outcome (list string) :=
  listen_loopback ← is_loopback (pc_listen config);
  upstream_loopback ← is_loopback (pc_upstream config);
  Ok ((if (listen_loopback : bool) then [] else
         ["WARNING: non-loopback listener requested; this can expose the proxy to other hosts."])
      ++ (if (upstream_loopback : bool) then [] else
         ["WARNING: non-loopback upstream requested; use only an explicitly authorized destination."])).

End cli.

Section main.
Context {W E Out : Type} `{SocketIo W} `{Kernel E} `{Output Out}.
Context `{Libc} `{Inet} `{UnorderedMap}.

Abbreviation PW := (ProxyWorld W E Out).

(** Constructing the [ProxyRuntime]: its descriptors and the calls made. *)
Definition construct_runtime (config : ProxyConfig) : M PW (Descriptors * list (Call * Reply)) := λ s,
  match set_up config (mkSetupWorld (pw_env s) []) with
  | Ok (inr fds, w) =>
      Ok ((fds, su_calls w),
          mkProxyWorld (pw_runtime s) (pw_io s) (su_env w) (pw_out s) (pw_log s) (pw_trace s)
            (pw_history s))
  | Ok (inl what, _) => Throw (RuntimeError what)
  | Throw e => Throw e
  | Undefined => Undefined
  | OutOfFuel => OutOfFuel
  end.

(** Destroying it. *)
Definition destroy_runtime (fds : Descriptors) : M PW unit :=
  _ ← close_fd (epoll_fd_ fds);
  _ ← close_fd (timer_fd_ fds);
  _ ← close_fd (signal_fd_ fds);
  close_fd (listener_ fds).

(** [Proxy::run], with the calls of the set-up; [None] when the proxy still runs
    after [rounds] rounds. *)
Definition run_proxy (config : ProxyConfig) (rounds : nat) : M PW (option Z * list (Call * Reply)) :=
  '(fds, calls) ← construct_runtime config;
  status ← run config rounds;
  match status with
  | None => mret (None, calls)
  | Some status =>
      _ ← destroy_runtime fds;
      mret (Some status, calls)
  end.

(** The body of the [try] block: the exit status, the help if it was printed,
    and the calls of the set-up. *)
Definition main_body (rounds : nat) (arguments : list string)
    : M PW (option Z * option string * list (Call * Reply)) :=
  parsed ← lift (command_line arguments);
  match parsed with
  | None => mret (Some EXIT_SUCCESS, Some print_help, [])
  | Some config =>
      _ ← lift (warnings config);
      _ ← lift (check_config config);
      '(status, calls) ← run_proxy config rounds;
      mret (status, None, calls)
  end.

(** The exit status and the text printed, the help or that of the [catch]
    clause, with the calls of the set-up and the world the loop left when it
    returned. *)
Definition main (rounds : nat) (arguments : list string) (s : PW)
    : outcome (option Z * option string * option (list (Call * Reply) * PW)) :=
  match main_body rounds arguments s with
  | Ok ((status, printed, calls), s) => Ok (status, printed, Some (calls, s))
  | Throw (InvalidArgument what | OutOfRange what | LengthError what | RuntimeError what) =>
      Ok (Some EXIT_FAILURE, Some ("netfault-proxy: " +:+ what), None)
  | Undefined => Undefined
  | OutOfFuel => OutOfFuel
  end.
End main.
