(* ===== verification/ProxyTrace.v ===== *)
(** * What the proxy asks of the operating system

    A logic of system-call traces for the methods of the event loop, and two
    uses of it: the proxy is confined to the endpoints and files of its
    configuration, and the metrics file is replaced only by a complete
    document. *)

From Stdlib Require Import ZArith Lia Init.Byte Ascii String SpecFloat.
From stdpp Require Import base numbers list option strings pretty gmap.
From S2P Require Import Prelude Text Endpoint ByteQueue Backpressure DelayLine TokenBucket.
From S2P Require Import FaultRng FaultPlan.
From S2P Require Import ConnectionState TimerQueue SocketIo Relay Logger RelayReport.
From S2P Require Import ProxyConfig Proxy ProxyLoop ProxyWalk.

Local Open Scope Z_scope.

Section trace.
Context {W E Out : Type} `{SocketIo W} `{Kernel E} `{Output Out}.
Context `{Libc} `{Inet} `{UnorderedMap}.

Abbreviation PW := (ProxyWorld W E Out).
Abbreviation PM := (M PW).
Implicit Types (s : PW).

(** Whenever [m] returns, the calls it has made satisfy [R]. *)
Definition traced {A} (m : PM A) (R : A → list (Call * Reply) → Prop) : Prop :=
  ∀ s a s', m s = Ok (a, s') → ∃ calls, pw_trace s' = pw_trace s ++ calls ∧ R a calls.

Lemma traced_mono {A} (m : PM A) (R R' : A → list (Call * Reply) → Prop) :
  traced m R → (∀ a calls, R a calls → R' a calls) → traced m R'.
Proof. intros Hm HR s a s' Hs. destruct (Hm _ _ _ Hs) as (calls & ? & ?). eauto. Qed.

Lemma traced_ret {A} (a : A) (R : A → list (Call * Reply) → Prop) : R a [] → traced (mret a) R.
Proof. intros HR s a' s' [= <- <-]. exists []. by rewrite app_nil_r. Qed.

Lemma traced_bind {A B} (m : PM A) (f : A → PM B) R1 R2 (R : B → list (Call * Reply) → Prop) :
  traced m R1 → (∀ a, traced (f a) (R2 a)) →
  (∀ a b c1 c2, R1 a c1 → R2 a b c2 → R b (c1 ++ c2)) → traced (m ≫= f) R.
Proof.
  intros Hm Hf HR s b s'. unfold mbind, M_bind. destruct (m s) as [[a s1]| | |] eqn:E1; try done. intros Hs.
  destruct (Hm _ _ _ E1) as (c1 & Ht1 & HR1). destruct (Hf a _ _ _ Hs) as (c2 & Ht2 & HR2).
  exists (c1 ++ c2). rewrite Ht2, Ht1, app_assoc. eauto.
Qed.

Lemma traced_sys c (R : Reply → list (Call * Reply) → Prop) : (∀ r, R r [(c, r)]) → traced (sys c) R.
Proof.
  intros HR s r s'. unfold sys. destruct (syscall _ _) as [x e]. intros [= <- <-]. by exists [(c, x)].
Qed.

Lemma traced_gets {A} (f : PW → A) (R : A → list (Call * Reply) → Prop) :
  (∀ a, R a []) → traced (gets f) R.
Proof. intros HR s a s' [= <- <-]. exists []. by rewrite app_nil_r. Qed.

Lemma traced_silent {A} (m : PM A) (R : A → list (Call * Reply) → Prop) :
  (∀ s a s', m s = Ok (a, s') → pw_trace s' = pw_trace s ∧ R a []) → traced m R.
Proof. intros Hm s a s' Hs. destruct (Hm _ _ _ Hs) as [Ht HR]. exists []. by rewrite app_nil_r. Qed.

End trace.

(** ** Properties of traces that hold of their parts *)

Class TraceProperty (R : list (Call * Reply) → Prop) : Prop := {
  trace_nil : R [];
  trace_app c1 c2 : R c1 → R c2 → R (c1 ++ c2);
}.

#[export] Instance Forall_trace_property (P : Call * Reply → Prop) : TraceProperty (Forall P).
Proof. split; [done|]. intros c1 c2 Hc1 Hc2. by apply Forall_app. Qed.

Section emits.
#[local] Set Default Proof Using "HR".
Context {W E Out : Type} `{SocketIo W} `{Kernel E} `{Output Out}.
Context `{Libc} `{Inet} `{UnorderedMap}.
Context (R : list (Call * Reply) → Prop) `{HR : !TraceProperty R}.

Abbreviation PW := (ProxyWorld W E Out).
Abbreviation PM := (M PW).

(** Whenever [m] returns, the calls it has made satisfy [R]. *)
Definition emits {A} (m : PM A) : Prop := traced m (λ _, R).

Lemma emits_ret {A} (a : A) : emits (mret a).
Proof. apply traced_ret, trace_nil. Qed.

Lemma emits_bind {A B} (m : PM A) (f : A → PM B) :
  emits m → (∀ a, emits (f a)) → emits (m ≫= f).
Proof. intros Hm Hf. eapply traced_bind; [exact Hm|exact Hf|]. intros a b c1 c2. apply trace_app. Qed.

Lemma emits_sys c : (∀ r, R [(c, r)]) → emits (sys c).
Proof. intros Hc. by apply traced_sys. Qed.

Lemma emits_silent {A} (m : PM A) :
  (∀ s a s', m s = Ok (a, s') → pw_trace s' = pw_trace s) → emits m.
Proof. intros Hm. apply traced_silent. intros s a s' Hs. split; [by eapply Hm|apply trace_nil]. Qed.

Lemma emits_gets {A} (f : PW → A) : emits (gets f).
Proof. apply emits_silent. by intros s a s' [= <- <-]. Qed.

Lemma emits_modify_runtime f : emits (modify_runtime f).
Proof. apply emits_silent. by intros s a s' [= <- <-]. Qed.

Lemma emits_out_of_fuel {A} : emits (out_of_fuel (S := PW) (A := A)).
Proof. by intros s a s'. Qed.

Lemma emits_lift {A} (o : outcome A) : emits (lift o).
Proof. apply emits_silent. unfold lift. destruct o; cbn; intros s x s' Hx; by try injection Hx as <- <-. Qed.

Lemma emits_lift_bind {A B} (o : outcome A) (f : A → PM B) :
  (∀ a, o = Ok a → emits (f a)) → emits (lift o ≫= f).
Proof.
  intros Hf s b s'. unfold mbind, M_bind, lift. destruct o as [a| | |]; cbn; try done. by apply Hf.
Qed.

Lemma emits_connection_at id : emits (connection_at id).
Proof. apply emits_silent. unfold connection_at. intros s a s'. by destruct (_ !! id); [intros [= <- <-]|]. Qed.

Lemma emits_write_log now record : emits (write_log now record).
Proof.
  apply emits_silent. unfold write_log. intros s a s'. destruct (Logger.event _ _ _ _ _ _ _) as [[l o]| | |]; try done.
  by intros [= <- <-].
Qed.

Lemma emits_run_relay {A} id now (method : M (World W) A) c : emits (run_relay id now method c).
Proof.
  apply emits_silent. unfold run_relay. intros s a s'. destruct (method _) as [[x w]| | |]; try done.
  by intros [= <- <-].
Qed.
End emits.

(** ** The calls of the event loop *)

(** A property of traces holds of the loop's when it holds of every permitted
    call and of what [write_metrics_file] does. *)
Section loop.
#[local] Set Default Proof Using "Type*".
Context {W E Out : Type} `{SocketIo W} `{Kernel E} `{Output Out}.
Context `{Libc} `{Inet} `{UnorderedMap} (config : ProxyConfig).
Context (R : list (Call * Reply) → Prop) `{!TraceProperty R}.
Hypothesis Hplain : ∀ c r, permitted config c → file_call c = false → R [(c, r)].

Abbreviation traced_by := (@emits W E Out R).

Lemma plain_log name id state detail : emits (W := W) (E := E) (Out := Out) R (log_event name id state detail).
Proof.
  unfold log_event. apply (emits_bind R); [apply (emits_sys R); intros r; by apply Hplain|].
  intros r. apply (emits_write_log R).
Qed.

Lemma plain_on_relay {A} id now (method : M (World W) A) :
  emits (W := W) (E := E) (Out := Out) R (on_relay id now method).
Proof.
  unfold on_relay. apply (emits_bind R); [apply (emits_connection_at R)|]. intros c.
  apply (emits_bind R); [apply (emits_run_relay R)|]. intros [a events].
  apply (emits_bind R); [|intros _; apply (emits_ret R)].
  induction events as [|e events IH]; cbn [forward_events]; [apply (emits_ret R)|].
  apply (emits_bind R); [apply plain_log|done].
Qed.

#[local] Instance emits_walk : LoopLogic config (@traced_by).
Proof.
  split.
  - intros A a. apply (emits_ret R).
  - intros A B m f. apply (emits_bind R).
  - intros A o. apply (emits_lift R).
  - intros A B o f. apply (emits_lift_bind R).
  - intros A f. apply (emits_gets R).
  - intros A. apply (emits_out_of_fuel R).
  - intros id. apply (emits_connection_at R).
  - intros now record. apply (emits_write_log R).
  - intros c Hc Hf. apply (emits_sys R). intros r. by apply Hplain.
  - intros f _. apply (emits_modify_runtime R).
  - intros id f _. apply (emits_modify_runtime R).
  - intros A id now method _. apply plain_on_relay.
  - intros id c _. apply (emits_silent R). unfold emplace_connection. intros s u s'. case_match; by intros [= <- <-].
  - intros id. apply (emits_silent R). unfold erase_connection. intros s u s'. case_match; by intros [= <- <-].
Qed.

Lemma loop_run rounds :
  emits (W := W) (E := E) (Out := Out) R (write_metrics_file config) →
  emits (W := W) (E := E) (Out := Out) R (ProxyLoop.run config rounds).
Proof. intros Hm. exact (walk_run config (@traced_by) Hm rounds). Qed.
End loop.

(** ** Replacing the metrics file *)

(** The bytes the file has taken. *)
Fixpoint written (calls : list (Call * Reply)) : string :=
  match calls with
  | (WriteFile _ data, r) :: calls => (if ret r <? 0 then "" else substr_to (Z.to_nat (ret r)) data) +:+ written calls
  | _ :: calls => written calls
  | [] => ""
  end.

Definition is_rename (c : Call) : bool := match c with Rename _ _ => true | _ => false end.
Definition writes_to (fd : Z) (p : Call * Reply) : Prop := ∃ data, p.1 = WriteFile fd data.

(** A trace of permitted calls in which the metrics file is only ever replaced
    by a temporary file that has just been opened, has taken exactly the bytes
    of a [document], and has been closed. *)
Inductive exports (config : ProxyConfig) `{Inet} (document : string → Prop) : list (Call * Reply) → Prop :=
  | exports_nil : exports config document []
  | exports_call c r trace :
      permitted config c → is_rename c = false → exports config document trace →
      exports config document ((c, r) :: trace)
  | exports_replace opened writes closed renamed trace :
      let temporary := pc_metrics_file config +:+ ".tmp" in
      pc_metrics_file config ≠ "" → Forall (writes_to (ret opened)) writes → document (written writes) →
      exports config document trace →
      exports config document
        ((OpenFile temporary, opened) :: writes ++
         (CloseFd (ret opened), closed) :: (Rename temporary (pc_metrics_file config), renamed) :: trace).

#[export] Instance exports_trace_property config `{Inet} document : TraceProperty (exports config document).
Proof.
  split; [constructor|]. induction 1 as [|c r trace Hp Hr _ IH|opened writes closed renamed trace tmp Hne Hw Hd _ IH];
    intros Hc2; [done|by constructor; auto|].
  cbn. rewrite <-app_assoc. cbn. apply exports_replace; auto.
Qed.

Lemma exports_permitted config `{Inet} document trace :
  exports config document trace → Forall (λ p, permitted config p.1) trace.
Proof.
  induction 1 as [|c r trace Hp Hr _ IH|opened writes closed renamed trace tmp Hne Hw Hd _ IH]; constructor; cbn; auto.
  apply Forall_app. split; [eapply Forall_impl; [exact Hw|]; intros p [data ->]; done|].
  repeat constructor; done.
Qed.

Lemma exports_mono config `{Inet} (document document' : string → Prop) trace :
  (∀ d, document d → document' d) → exports config document trace → exports config document' trace.
Proof. intros Hd. induction 1; [apply exports_nil|apply exports_call; auto|apply exports_replace; auto]. Qed.

Lemma exports_quiet config `{Inet} document calls :
  Forall (λ p, permitted config p.1 ∧ is_rename p.1 = false) calls → exports config document calls.
Proof. induction 1 as [|[c r] calls [Hp Hr] _ IH]; by constructor. Qed.

Section metrics_file.
#[local] Set Default Proof Using "Type*".
Context {W E Out : Type} `{SocketIo W} `{KernelLaws E} `{Output Out}.
Context `{Libc} `{Inet} `{UnorderedMap} (config : ProxyConfig).

Abbreviation PW := (ProxyWorld W E Out).
Implicit Types (s : PW).

(** The document that describes the runtime [rt] at some time. *)
Definition document_of (rt : ProxyRuntime) (d : string) : Prop :=
  ∃ now wall, d = metrics_document config rt now wall +:+ String newline "".

Definition quiet (p : Call * Reply) : Prop := permitted config p.1 ∧ is_rename p.1 = false.

Lemma log_quiet name id state detail s u s' :
  log_event name id state detail s = Ok (u, s') → ∃ calls, pw_trace s' = pw_trace s ++ calls ∧ Forall quiet calls.
Proof.
  assert (Hl : emits (Forall quiet) (log_event (W := W) (E := E) (Out := Out) name id state detail)).
  { unfold log_event. apply (emits_bind (Forall quiet)).
    - apply (emits_sys (Forall quiet)). intros r. by repeat constructor.
    - intros r. apply (emits_write_log (Forall quiet)). }
  apply Hl.
Qed.

Lemma build_metrics_json_calls s json s' :
  build_metrics_json config s = Ok (json, s') →
  ∃ now wall calls, json = metrics_document config (pw_runtime s) now wall
    ∧ pw_trace s' = pw_trace s ++ calls ∧ Forall quiet calls ∧ pw_runtime s' = pw_runtime s.
Proof.
  unfold build_metrics_json, steady_now, sys, mbind, M_bind.
  destruct (syscall (pw_env s) SteadyNow) as [r1 e1]. cbn. destruct (syscall e1 SystemNow) as [r2 e2]. cbn.
  intros [= <- <-]. do 2 eexists. exists [(SteadyNow, r1); (SystemNow, r2)].
  split_and!; [done|by rewrite <-app_assoc|by repeat constructor|done].
Qed.

(** The loop writes the document from [offset] on, or gives up. *)
Lemma write_file_loop_calls fuel fd json offset s complete s' :
  write_file_loop fuel fd json offset s = Ok (complete, s') → 0 ≤ offset ≤ string_size json →
  ∃ calls, pw_trace s' = pw_trace s ++ calls ∧ Forall quiet calls
    ∧ (complete = true → Forall (writes_to fd) calls ∧ written calls = substr_from (Z.to_nat offset) json).
Proof.
  revert offset s. induction fuel as [|fuel IH]; intros offset s; cbn [write_file_loop];
    destruct (Z.ltb_spec offset (string_size json)) as [Hlt|Hge]; try done.
  1,3: intros [= <- <-] Ho; exists []; rewrite app_nil_r; split_and!; [done|done|intros _; split; [done|]];
    assert (offset = string_size json) as -> by lia; unfold string_size; rewrite Nat2Z.id; unfold substr_from;
    by rewrite Nat.sub_diag, substring_nil.
  unfold sys, mbind, M_bind. set (rest := substr_from (Z.to_nat offset) json).
  destruct (syscall (pw_env s) (WriteFile fd rest)) as [r e'] eqn:Hs. intros Hrun Ho.
  assert (Hrest : string_size rest = string_size json - offset).
  { unfold rest, string_size, substr_from in *. rewrite length_substring. lia. }
  assert (Hcount : ret r < 0 ∨ 0 < ret r ≤ string_size rest).
  { eapply write_count; [exact Hs|]. intros Hn. rewrite Hn in Hrest. change (string_size "") with 0 in Hrest. lia. }
  destruct (Z.ltb_spec (ret r) 0) as [Hneg|Hpos].
  - destruct (errno r =? EINTR).
    + destruct (IH _ _ Hrun Ho) as (calls & Ht & Hq & Hw). exists ((WriteFile fd rest, r) :: calls).
      cbn in Ht. rewrite Ht, <-app_assoc. split_and!; [done|by constructor|]. intros Hc.
      destruct (Hw Hc) as [Hf Hd]. split; [by constructor; [eexists|]|].
      cbn. by destruct (Z.ltb_spec (ret r) 0); [|lia].
    + destruct (log_event _ _ _ _ _) as [[u s1]| | |] eqn:Hl; try done. injection Hrun as <- <-.
      destruct (log_quiet _ _ _ _ _ _ _ Hl) as (calls & Ht & Hq). exists ((WriteFile fd rest, r) :: calls).
      cbn in Ht. rewrite Ht, <-app_assoc. split_and!; [done|by constructor|done].
  - assert (Hnext : 0 ≤ offset + ret r ≤ string_size json) by lia.
    destruct (IH _ _ Hrun Hnext) as (calls & Ht & Hq & Hw). exists ((WriteFile fd rest, r) :: calls).
    cbn in Ht. rewrite Ht, <-app_assoc. split_and!; [done|by constructor|]. intros Hc.
    destruct (Hw Hc) as [Hf Hd]. split; [by constructor; [eexists|]|].
    cbn. destruct (Z.ltb_spec (ret r) 0); [lia|]. rewrite Hd.
    replace (Z.to_nat (offset + ret r)) with (Z.to_nat offset + Z.to_nat (ret r))%nat by lia.
    rewrite <-substr_from_more. apply string_split. unfold string_size in *. lia.
Qed.

Lemma step_Ok {A B} (m : M PW A) (f : A → M PW B) s b s' :
  (m ≫= f) s = Ok (b, s') → ∃ a s1, m s = Ok (a, s1) ∧ f a s1 = Ok (b, s').
Proof. unfold mbind, M_bind. destruct (m s) as [[a s1]| | |]; try done. eauto. Qed.

Lemma sys_Ok c s r s' :
  sys c s = Ok (r, s') → pw_trace s' = pw_trace s ++ [(c, r)] ∧ pw_runtime s' = pw_runtime s.
Proof. unfold sys. destruct (syscall _ _). by intros [= <- <-]. Qed.

(** One export: the file is replaced only by the document of the runtime. *)
Lemma write_metrics_file_exports s u s' :
  write_metrics_file config s = Ok (u, s') →
  ∃ calls, pw_trace s' = pw_trace s ++ calls ∧ exports config (document_of (pw_runtime s)) calls.
Proof.
  unfold write_metrics_file. case_decide as Hne.
  { intros [= <- <-]. exists []. rewrite app_nil_r. split; [done|constructor]. }
  intros (document & s1 & Hb & Hr)%step_Ok.
  destruct (build_metrics_json_calls _ _ _ Hb) as (now & wall & c1 & -> & Ht1 & Hq1 & _).
  apply step_Ok in Hr as (opened & s2 & Ho%sys_Ok & Hr). destruct Ho as [Ht2 _].
  assert (Hpre : ∀ rest, exports config (document_of (pw_runtime s)) rest →
            exports config (document_of (pw_runtime s)) (c1 ++ rest)).
  { intros rest. apply trace_app. by apply exports_quiet. }
  set (temporary := pc_metrics_file config +:+ ".tmp") in *.
  set (json := metrics_document config (pw_runtime s) now wall +:+ String newline "") in *.
  assert (Hopen : ∀ rest, exports config (document_of (pw_runtime s)) rest →
            exports config (document_of (pw_runtime s)) ((OpenFile temporary, opened) :: rest))
    by (intros; by apply exports_call).
  assert (Hquiet : ∀ rest, Forall quiet rest → exports config (document_of (pw_runtime s)) rest)
    by (intros; by apply exports_quiet).
  destruct (ret opened <? 0).
  { destruct (log_quiet _ _ _ _ _ _ _ Hr) as (c3 & Ht3 & Hq3). exists (c1 ++ (OpenFile temporary, opened) :: c3).
    rewrite Ht3, Ht2, Ht1, <-!app_assoc. auto. }
  apply step_Ok in Hr as (fuel & s2' & Hg & Hr). injection Hg as <- <-.
  apply step_Ok in Hr as (complete & s3 & Hl & Hr).
  destruct (write_file_loop_calls _ _ _ _ _ _ _ Hl) as (c3 & Ht3 & Hq3 & Hw); [unfold string_size; lia|].
  apply step_Ok in Hr as (u4 & s4 & Hc & Hr). apply step_Ok in Hc as (closed & s4' & Hc%sys_Ok & He).
  injection He as <- <-. destruct Hc as [Ht4 _]. destruct complete; cbn [negb] in Hr.
  - apply step_Ok in Hr as (renamed & s5 & Hn%sys_Ok & Hr). destruct Hn as [Ht5 _].
    destruct (Hw eq_refl) as [Hwrites Hdata].
    assert (Hlog : ∃ c6, pw_trace s' = pw_trace s5 ++ c6 ∧ Forall quiet c6) by (destruct (negb _); by eapply log_quiet).
    destruct Hlog as (c6 & Ht6 & Hq6).
    exists (c1 ++ (OpenFile temporary, opened) :: c3 ++
            (CloseFd (ret opened), closed) :: (Rename temporary (pc_metrics_file config), renamed) :: c6).
    rewrite Ht6, Ht5, Ht4, Ht3, Ht2, Ht1, <-!app_assoc. cbn. split; [done|]. apply Hpre, exports_replace; auto.
    exists now, wall. rewrite Hdata. unfold substr_from. by rewrite Nat.sub_0_r, substring_all.
  - injection Hr as <- <-. exists (c1 ++ (OpenFile temporary, opened) :: c3 ++ [(CloseFd (ret opened), closed)]).
    rewrite Ht4, Ht3, Ht2, Ht1, <-!app_assoc. split; [done|]. apply Hpre, Hopen, Hquiet, Forall_app.
    split; [done|by repeat constructor].
Qed.

Lemma run_exports rounds s status s' :
  ProxyLoop.run config rounds s = Ok (status, s') →
  ∃ calls, pw_trace s' = pw_trace s ++ calls ∧ exports config (λ d, ∃ rt, document_of rt d) calls.
Proof.
  apply (loop_run config (exports config (λ d, ∃ rt, document_of rt d))).
  - intros c r Hp Hf. apply exports_call; [done|by destruct c|constructor].
  - intros s0 u s1 Hw. destruct (write_metrics_file_exports _ _ _ Hw) as (calls & Ht & He).
    exists calls. split; [done|]. eapply exports_mono; [|exact He]. eauto.
Qed.
End metrics_file.
