(* ===== verification/ProxyScript.v ===== *)
(** * A scripted kernel for examples of the event loop

    System calls answered from a script, so that runs of the whole proxy can be
    evaluated. It satisfies the laws the theorems assume of a kernel. *)

From Stdlib Require Import ZArith Lia Init.Byte Ascii String.
From stdpp Require Import base numbers list option strings pretty gmap.
From S2P Require Import Prelude Text Endpoint ByteQueue Backpressure DelayLine TokenBucket.
From S2P Require Import FaultRng FaultPlan.
From S2P Require Import ConnectionState TimerQueue SocketIo Relay Logger RelayReport.
From S2P Require Import ProxyConfig Proxy.

Local Open Scope Z_scope.

(** One return of [epoll_wait]: the time it returns at, the descriptors of the
    clients that can then be accepted, and the events. *)
Record Wait := mkWait {
  wait_until : Z;
  wait_clients : list Z;
  wait_events : list (Z * Z);
}.

(** The time, the last reading of the clock, the next free descriptor, the
    clients waiting to be accepted and the returns of [epoll_wait] to come. *)
Record ScriptEnv := mkScriptEnv {
  se_time : Z;
  se_read : Z;
  se_next_fd : Z;
  se_clients : list Z;
  se_waits : list Wait;
}.

Definition answer (result : Z) : Reply := mkReply result 0 0 [].

Definition set_se_clients (clients : list Z) (e : ScriptEnv) : ScriptEnv :=
  mkScriptEnv (se_time e) (se_read e) (se_next_fd e) clients (se_waits e).
Definition take_fd (e : ScriptEnv) : Reply * ScriptEnv :=
  (answer (se_next_fd e), mkScriptEnv (se_time e) (se_read e) (se_next_fd e + 1) (se_clients e) (se_waits e)).

(** A connect is left in progress and then succeeds; after the script a
    termination signal arrives. *)
Definition script_syscall (e : ScriptEnv) (c : Call) : Reply * ScriptEnv :=
  match c with
  | Accept =>
      match se_clients e with
      | [] => (mkReply (-1) EAGAIN 0 [], e)
      | fd :: clients => (answer fd, set_se_clients clients e)
      end
  | OpenSocket | OpenFile _ | OpenListener | OpenSignalFd | OpenTimerFd | OpenEpoll => take_fd e
  | Connect _ _ => (mkReply (-1) EINPROGRESS 0 [], e)
  | EpollWait =>
      match se_waits e with
      | [] => (mkReply 1 0 0 [(EPOLLIN, kSignalToken)], e)
      | w :: waits =>
          (mkReply (Z.of_nat (length (wait_events w))) 0 0 (wait_events w),
           mkScriptEnv (Z.max (se_time e) (wait_until w)) (se_read e) (se_next_fd e)
             (se_clients e ++ wait_clients w) waits)
      end
  | ReadTimer => (answer 8, e)
  | ReadSignal => (mkReply siginfo_size 0 15 [], e)
  | SteadyNow =>
      let now := Z.max (se_read e) (se_time e) in
      (mkReply 0 0 now [], mkScriptEnv (se_time e) now (se_next_fd e) (se_clients e) (se_waits e))
  | SystemNow => (mkReply 0 0 (1700000000000000000 + se_time e) [], e)
  | WriteFile _ data => (answer (string_size data), e)
  | _ => (answer 0, e)
  end.

Definition clients_to_come (e : ScriptEnv) : nat :=
  (length (se_clients e) + length (se_waits e ≫= wait_clients))%nat.

Definition script_kernel : Kernel ScriptEnv := {| syscall := script_syscall; pending := clients_to_come |}.
#[local] Existing Instance script_kernel.

Lemma script_pending_le e c r e' : script_syscall e c = (r, e') → (clients_to_come e' ≤ clients_to_come e)%nat.
Proof.
  unfold clients_to_come. destruct e as [t rd fd clients waits], c; cbn; try (intros [= <- <-]; cbn; lia).
  - destruct clients; intros [= <- <-]; cbn; lia.
  - destruct waits; intros [= <- <-]; cbn; rewrite ?length_app; lia.
Qed.

Lemma script_pending_lt e c r e' :
  script_syscall e c = (r, e') → repeats c r = true → (clients_to_come e' < clients_to_come e)%nat.
Proof.
  unfold clients_to_come. destruct e as [t rd fd clients waits], c; cbn; try done.
  - destruct clients; intros [= <- <-]; cbn; [done|lia].
  - by intros [= <- <-].
  - by intros [= <- <-].
  - intros [= <- <-]. cbn. destruct (Z.ltb_spec (string_size data) 0); [|done]. unfold string_size in *. lia.
Qed.

Definition script_kernel_laws : KernelLaws ScriptEnv.
Proof.
  refine {| clock := se_read; pending_le := script_pending_le; pending_lt := script_pending_lt |}.
  - intros e fd data r e'. cbn. intros [= <- <-] Hne. right. cbn. unfold string_size.
    destruct data; [done|cbn; lia].
  - intros [t rd fd clients waits] r e'. cbn. intros [= <- <-]. cbn. lia.
  - intros [t rd fd clients waits] c r e'. destruct c; cbn; try (by intros [= <- <-]).
    + destruct clients; by intros [= <- <-].
    + destruct waits; by intros [= <- <-].
Defined.

(** [unordered_map] iterated in the order of [map_to_list]. *)
Definition listed_map : UnorderedMap := {| map_order m := (map_to_list m).*1 |}.
#[local] Existing Instance listed_map.

Lemma listed_map_laws : UnorderedMapLaws.
Proof. by intros m. Qed.
