(* ===== verification/ProxySpec.v ===== *)
(** * What the proxy guarantees

    The theorems about the whole event loop: for every accepted configuration,
    every behaviour of the kernel that [KernelLaws] and [SocketIoLaws] allow and
    every number of rounds. *)

From Stdlib Require Import ZArith Lia Init.Byte Ascii String Sorted SpecFloat.
From stdpp Require Import base numbers list option strings pretty gmap.
From S2P Require Import Prelude Text Endpoint ByteQueue Backpressure DelayLine TokenBucket.
From S2P Require Import FaultRng FaultPlan.
From S2P Require Import ConnectionState TimerQueue SocketIo Relay RelayDirection RelayFacts.
From S2P Require Import RelayQueries RelayRun.
From S2P Require Import RelaySpec Logger RelayReport ProxyConfig Proxy ProxyLoop ProxyWalk.
From S2P Require Import ProxyInv.
From S2P Require Import ProxyFacts ProxyEvents.
From S2P Require Import ProxyAccept ProxyRun ProxyTrace ProxyScript.

Local Open Scope Z_scope.

(** The process is started with a fresh runtime. *)
Definition initial_world {W E Out} (io : W) (env : E) (out : Out) : ProxyWorld W E Out :=
  mkProxyWorld initial_runtime io env out [] [] [].

Lemma next_deadline_least q e :
  StronglySorted (λ a b, deadline a ≤ deadline b) (heap_ q) → e ∈ heap_ q →
  ∃ d, next_deadline q = Some d ∧ d ≤ deadline e.
Proof.
  unfold next_deadline. destruct (heap_ q) as [|x h]; [by intros _ ?%not_elem_of_nil|]. intros Hs He.
  exists (deadline x). split; [done|]. inversion Hs as [|? ? _ Hx]; subst. rewrite Forall_forall in Hx.
  apply elem_of_cons in He as [->|He]; [lia|auto].
Qed.

Lemma epoll_mask_out i : has (to_epoll_mask i) EPOLLOUT = interest_write i.
Proof. by destruct i as [[] []]. Qed.

Lemma epoll_mask_in i : has (to_epoll_mask i) EPOLLIN = interest_read i.
Proof. by destruct i as [[] []]. Qed.

Section spec.
#[local] Set Default Proof Using "Type*".
Context {W E Out : Type} `{SocketIoLaws W} `{KernelLaws E} `{OutputLaws Out}.
Context `{Libc} `{InetLaws} `{UnorderedMapLaws} (config : ProxyConfig).

Abbreviation PW := (ProxyWorld W E Out).
Implicit Types (s : PW) (io : W) (env : E) (out : Out).

(** The proxy accepted its configuration, and fewer than 2^62 connections and
    interruptions are to come. *)
Definition launchable env : Prop :=
  config_typed config ∧ check_config config = Ok tt ∧ 1 + Z.of_nat (pending env) ≤ accept_limit.

(** [s] is reached from the start in at most [rounds] rounds; [stopped] says
    whether the loop has ended. *)
Definition proxy_reached (rounds : nat) io env out (stopped : bool) s : Prop :=
  (_ ← start_loop config; run_rounds config rounds) (initial_world io env out) = Ok (stopped, s).

Lemma launchable_valid env : launchable env → valid_proxy_config config.
Proof. intros (Ht & Hc & _). by apply check_config_exactly. Qed.

Lemma initial_inv io env out :
  launchable env → pinv config (clock env) settled [] [] (initial_world io env out).
Proof.
  intros Hl. pose proof (vpc_max _ (launchable_valid _ Hl)). destruct Hl as (_ & _ & Hb).
  assert (Hempty : ∀ A (i : Z), (∅ : gmap Z A) !! i = None) by (intros; apply lookup_empty).
  split; cbn; try done.
  - intros id [c Hc]. by rewrite Hempty in Hc.
  - intros t b. unfold bound_to. rewrite !Hempty. split; [done|]. by intros [[? ?] _].
  - rewrite map_size_empty. lia.
  - constructor.
Qed.

Lemma start_ok io env out :
  launchable env →
  psafe (start_loop config) (initial_world io env out) (λ _ s, steady config [] s ∧ timer_current s).
Proof.
  intros Hl. pose proof (initial_inv io env out Hl) as I.
  apply (psafe_of (clock env)), log_event_exact. intros l o r e' Hs. split; [|by left].
  exists (clock env). apply inv_logger. by apply inv_neutral with env; [|done|apply neutral_system_now|].
Qed.

Lemma rounds_ok rounds io env out :
  launchable env →
  psafe (_ ← start_loop config; run_rounds config rounds) (initial_world io env out)
    (λ _ s, steady config [] s ∧ timer_current s).
Proof.
  intros Hl. eapply psafe_bind; [by apply start_ok|]. intros u s1 _ [I1 C1].
  apply run_rounds_ok; [by apply Hl|by eapply launchable_valid|done|done].
Qed.

Lemma reached_steady rounds io env out stopped s :
  launchable env → proxy_reached rounds io env out stopped s → steady config [] s ∧ timer_current s.
Proof.
  intros Hl Hr. pose proof (rounds_ok rounds io env out Hl) as Hok. unfold psafe in Hok. rewrite Hr in Hok. apply Hok.
Qed.

(** What a run to the end guarantees. *)
Lemma run_ok rounds io env out :
  launchable env →
  psafe (run config rounds) (initial_world io env out)
    (λ status s, steady config [] s ∧ (status = Some 0 → connections s = ∅)).
Proof.
  intros Hl. pose proof (launchable_valid _ Hl) as Hv. pose proof Hl as (Ht & _).
  unfold run. eapply psafe_bind; [by apply start_ok|]. intros u s1 _ [I1 C1].
  eapply psafe_bind; [by apply run_rounds_ok|]. intros [] s2 _ [I2 _]; [|by apply psafe_ret].
  eapply psafe_bind; [by apply shutdown_ok|]. intros u' s3 _ [I3 Hcs]. by apply psafe_ret.
Qed.

Lemma run_status rounds s0 status (s : PW) :
  run config rounds s0 = Ok (Some status, s) → status = 0.
Proof.
  unfold run, mbind, M_bind. destruct (start_loop config s0) as [[u s1]| | |]; try done.
  destruct (run_rounds config rounds s1) as [[[] s2]| | |]; try done.
  destruct (shutdown config s2) as [[u' s3]| | |]; try done. by intros [= <-].
Qed.


(** C7: accounting. In every state between two rounds the live connections are
    within the limit and every accepted connection is either live or counted
    under exactly one close reason; an epoll token is bound exactly when it
    belongs to a live connection; and every descriptor obtained was closed
    again exactly once, or is one of the two of a live connection. *)
Theorem proxy_accounting rounds io env out stopped s :
  launchable env → proxy_reached rounds io env out stopped s →
  let rt := pw_runtime s in
  Z.of_nat (size (connections s)) ≤ pc_max_connections config
  ∧ closes_fully_closed_ rt + closes_reset_ rt + closes_failed_ rt + closes_timed_out_ rt
    + Z.of_nat (size (connections s)) = next_connection_id_ rt - 1
  ∧ (∀ id, is_Some (connections s !! id) → 1 ≤ id < next_connection_id_ rt)
  ∧ (∀ token b, bindings_ rt !! token = Some b ↔
       is_Some (connections s !! binding_connection b)
       ∧ token = token_for (binding_side b) (binding_connection b))
  ∧ all_opened (pw_trace s) ≡ₚ all_closed (pw_trace s) ++ live_fds (connections s).
Proof.
  intros Hl Hr rt. destruct (reached_steady _ _ _ _ _ _ Hl Hr) as [[now I] _]. split_and!; apply I.
Qed.

(** C5: no connection is left to hang. In every state between two rounds, bytes
    that wait for an open destination are covered: its socket is registered
    with epoll for writing, or a pump timer for the connection is queued, and
    the timer descriptor was set for a time no later than it (unless the kernel
    refused the last setting). A side that may be read is registered for
    reading. *)
Theorem proxy_no_stall rounds io env out stopped s id c x :
  launchable env → proxy_reached rounds io env out stopped s → connections s !! id = Some c →
  registered (token_of x c) (pw_trace s) = Some (fd_of x c, mask_of x c)
  ∧ (wants_read x (relay c) = true → (x = Upstream → upstream_connecting_ (relay c) = false) →
     has (mask_of x c) EPOLLIN = true)
  ∧ (waiting x (relay c) = true →
     has (mask_of x c) EPOLLOUT = true
     ∨ ∃ e d, e ∈ timers s ∧ connection_id e = id ∧ kind e = Pump ∧ d ≤ deadline e
         ∧ (armed (pw_trace s) = Some (timer_spec (Some d))
            ∨ ∃ r, last_setting (pw_trace s) = Some r ∧ ret r < 0)).
Proof.
  intros Hl Hr Hc. destruct (reached_steady _ _ _ _ _ _ Hl Hr) as [[now I] Hcur].
  destruct (pi_conn _ _ _ _ _ _ _ _ I id c Hc) as (Hb & Hreg & Htim & Hcov).
  unfold settled in *. specialize (Hreg ltac:(lia)). specialize (Htim ltac:(lia)).
  destruct (Hcov ltac:(lia)) as [t Ht]. destruct (Ht x) as [Hmask Hwake]. split; [apply Hreg|].
  rewrite Hmask, epoll_mask_in, epoll_mask_out. unfold interest_of. split.
  - intros Hwant Hcon. destruct (bool_decide_reflect (x = Upstream)) as [Hx|]; [rewrite (Hcon Hx)|]; done.
  - intros Hwait. destruct (bool_decide (x = Upstream) && upstream_connecting_ (relay c)); [by left|]. cbn.
    rewrite Hwait. cbn. destruct (Z.ltb_spec 0 (sendable_now x t (relay c))) as [|Hs]; [by left|right].
    destruct (Hwake Hwait Hs) as [w Hw]. destruct (ct_wake _ _ _ Htim w Hw) as (e & He & [Hid Hk] & _).
    destruct (next_deadline_least _ _ (pi_sorted _ _ _ _ _ _ _ _ I) He) as (d & Hd & Hle).
    exists e, d. split_and!; [done|by rewrite Hid; eapply base_id|done|done|].
    destruct Hcur as [Hcur|Hfail]; [left|by right]. apply (pi_armed _ _ _ _ _ _ _ _ I). by rewrite Hcur.
Qed.

(** C13: timeouts are enforced. Whenever the timer handler has run at a time
    [now], no live connection has been idle for the idle timeout or longer, and
    none is still connecting after the connect timeout. *)
Theorem proxy_timeouts rounds io env out stopped s :
  launchable env → proxy_reached rounds io env out stopped s →
  psafe (now ← steady_now; _ ← process_due_timers config now; mret now) s (λ now s',
    ∀ id c, connections s' !! id = Some c →
      (0 < pc_idle_timeout config →
         now < last_activity_ (relay c) + milliseconds_to_nanoseconds (pc_idle_timeout config))
      ∧ (0 < pc_connect_timeout config → upstream_connecting_ (relay c) = true →
         now < accepted_at_ (relay c) + milliseconds_to_nanoseconds (pc_connect_timeout config))).
Proof.
  intros Hl Hr. destruct (reached_steady _ _ _ _ _ _ Hl Hr) as [[old I] _].
  apply psafe_steady_bind with (1 := I). intros now s1 _ I1 _ _.
  eapply psafe_bind; [by apply (psafe_of now), process_due_timers_ok|]. intros n s2 _ [I2 Hall].
  apply psafe_ret. intros id c Hc. rewrite Forall_forall in Hall.
  destruct (pi_conn _ _ _ _ _ _ _ _ I2 id c Hc) as (_ & _ & Htim & _). unfold settled in Htim.
  destruct (Htim ltac:(lia)) as [_ Hidle Hcon]. split.
  - intros Hp. destruct (Hidle Hp) as (e & He & _ & Hd). specialize (Hall e He). cbn in Hall. lia.
  - intros Hp Hx. destruct (Hcon Hp Hx) as (e & He & _ & Hd). specialize (Hall e He). cbn in Hall. lia.
Qed.

(** Every connection forwards faithfully. Of every live connection, the
    bytes received from one side are the bytes sent to the other followed by
    the bytes still queued, at most the high-water mark; nothing of another
    connection is mixed in, and the descriptors used are its own. *)
Theorem proxy_stream_integrity rounds io env out stopped s id c x :
  launchable env → proxy_reached rounds io env out stopped s → connections s !! id = Some c →
  let queued := contents (queue (direction_from x (relay c))) in
  wire_in x (conn_traffic c).*2 = wire_out (other x) (conn_traffic c).*2 ++ queued
  ∧ Z.of_nat (length queued) ≤ pc_high_water_bytes config
  ∧ fd_for x (relay c) = fd_of x c.
Proof.
  intros Hl Hr Hc queued. destruct (reached_steady _ _ _ _ _ _ Hl Hr) as [[now I] _].
  destruct (pi_conn _ _ _ _ _ _ _ _ I id c Hc) as ([_ _ Hfd Hrel (t0 & r0 & Hlau & _ & Hran) _] & _).
  destruct (Hran x) as (times & es & Hs & Hin & Hout & _). pose proof (launched_fresh _ _ _ _ Hlau) as Hf.
  destruct (fr_direction _ _ _ _ Hf x) as [Id Hempty _ Hhigh _ _ _].
  destruct (dir_steps_delivery _ _ _ Id Hempty Hs) as [Hdel _].
  destruct (dir_steps_ok _ _ _ Id Hs) as [Id' Hst]. apply dir_static_high in Hst. split_and!; [|..|apply Hfd].
  - by rewrite <-timed_in_bytes, <-timed_out_bytes, Hin, Hout, timed_reads_bytes, timed_writes_bytes.
  - change (pc_high_water_bytes config) with (high_water_bytes (relay_config config)).
    unfold queued. rewrite <-Hhigh, <-Hst, length_contents by apply Id'.
    pose proof (dv_high_water _ Id'). pose proof (qi_high_water _ (dv_queue _ Id')). lia.
Qed.

(** C14: a clean stop. When [run] returns, its status is 0, no connection and no
    binding is left, every accepted connection is counted under exactly one
    close reason, and every descriptor obtained has been closed exactly as often
    as it was obtained. *)
Theorem proxy_shutdown rounds io env out status s :
  launchable env → run config rounds (initial_world io env out) = Ok (Some status, s) →
  let rt := pw_runtime s in
  status = 0 ∧ connections_ rt = ∅ ∧ bindings_ rt = ∅
  ∧ closes_fully_closed_ rt + closes_reset_ rt + closes_failed_ rt + closes_timed_out_ rt
    = next_connection_id_ rt - 1
  ∧ all_opened (pw_trace s) ≡ₚ all_closed (pw_trace s).
Proof.
  intros Hl Hr rt. pose proof (run_ok rounds io env out Hl) as Hok. unfold psafe in Hok. rewrite Hr in Hok. destruct Hok as (_ & [now I] & Hempty).
  assert (status = 0) as -> by (by apply run_status in Hr).
  specialize (Hempty eq_refl). fold (connections s) in *. pose proof (pi_closes _ _ _ _ _ _ _ _ I) as Hcl.
  pose proof (pi_fds _ _ _ _ _ _ _ _ I) as Hfds. unfold connections in Hempty.
  rewrite Hempty, map_size_empty in Hcl. rewrite Hempty in Hfds. split_and!; [done|done| |unfold rt; lia|].
  - apply map_empty. intros token. apply eq_None_not_Some. intros [b Hb].
    apply (pi_bindings _ _ _ _ _ _ _ _ I) in Hb as [Hc _]. rewrite Hempty in Hc.
    destruct Hc as [c Hc]. by rewrite (lookup_empty (M := gmap Z)) in Hc.
  - unfold live_fds in Hfds. by rewrite map_to_list_empty, app_nil_r in Hfds.
Qed.

(** C18: the proxy keeps to its configuration. Whatever the kernel does, a run
    connects to nothing but the configured upstream, which is a loopback
    address unless the unsafe flag allows another, and opens and renames
    nothing but the configured metrics file and its temporary sibling. *)
Theorem proxy_confined rounds io env out status s :
  config_typed config → check_config config = Ok tt →
  run config rounds (initial_world io env out) = Ok (status, s) →
  Forall (λ p, permitted config p.1) (pw_trace s)
  ∧ ∀ fd address reply, (Connect fd address, reply) ∈ pw_trace s →
      2130706432 ≤ sin_addr address ≤ 2147483647 ∨ pc_allow_non_loopback_upstream config = true.
Proof.
  intros Ht Hc Hr. destruct (run_exports config rounds _ _ _ Hr) as (calls & Htr & Hex). cbn in Htr. subst calls.
  pose proof (exports_permitted _ _ _ Hex) as Hp. split; [done|]. intros fd address reply Hin.
  rewrite Forall_forall in Hp. specialize (Hp _ Hin). cbn in Hp.
  apply check_config_exactly in Hc; [|done]. destruct (vpc_upstream _ Hc) as [_ [(a & Ha & Hloop)|?]]; [left|by right].
  unfold to_sockaddr in Hp. rewrite Ha in Hp. by injection Hp as <-.
Qed.

(** C17: the metrics file is replaced atomically. In every run the target is
    renamed over only right after a temporary file was opened, took exactly the
    bytes of one complete document and was closed; and the document of an
    export describes the runtime at the time of the export. *)
Theorem metrics_file_atomic rounds s0 status s :
  run config rounds s0 = Ok (status, s) →
  (∃ calls, pw_trace s = pw_trace s0 ++ calls
     ∧ exports config (λ json, ∃ rt, document_of config rt json) calls)
  ∧ ∀ s1 u s2, write_metrics_file config s1 = Ok (u, s2) →
      ∃ calls, pw_trace s2 = pw_trace s1 ++ calls ∧ exports config (document_of config (pw_runtime s1)) calls.
Proof.
  intros Hr. split; [by apply run_exports in Hr|]. intros s1 u s2. apply write_metrics_file_exports.
Qed.
End spec.

(** ** Example: one connection, with 5 ms of latency *)

#[local] Existing Instance example_libc.
#[local] Existing Instance example_inet.
#[local] Existing Instance example_inet_laws.
#[local] Existing Instance interrupted_output.
#[local] Existing Instance interrupted_output_laws.
#[local] Existing Instance script_kernel.
#[local] Existing Instance script_kernel_laws.
#[local] Existing Instance listed_map.
#[local] Existing Instance listed_map_laws.

Definition delay_plan : FaultPlan := mkFaultPlan 7 double_one Both 5 0 0 0 0 0.
Definition delay_config : ProxyConfig :=
  mkProxyConfig (mkEndpoint "127.0.0.1" 8080) (mkEndpoint "127.20.30.40" 9000) 2 1024 512 1024 0 1000 60000
    "metrics.json" delay_plan false false.

(** A client connects, the connection upstream succeeds, the client sends three
    bytes, the pump timer fires. *)
Definition delay_waits : list Wait :=
  [mkWait 1000000000 [7] [(EPOLLIN, 1)]; mkWait 1001000000 [] [(EPOLLOUT, 5)];
   mkWait 1002000000 [] [(EPOLLIN, 4)]; mkWait 1008000000 [] [(EPOLLIN, 3)]].
Definition delay_env : ScriptEnv := mkScriptEnv 0 0 20 [] delay_waits.
Definition delay_io : Script := mkScript [SData [x61; x62; x63]; SError EAGAIN; SData [x61; x62; x63]].

Abbreviation ExampleWorld := (ProxyWorld Script ScriptEnv nat).
Definition delay_start : ExampleWorld := initial_world delay_io delay_env 0%nat.

Definition end_of {A} (default : ExampleWorld) (o : outcome (A * ExampleWorld)) : ExampleWorld :=
  match o with Ok (_, s) => s | _ => default end.

(** The state in which the bytes wait, and the one after the shutdown. *)
Definition delay_world : ExampleWorld :=
  Eval vm_compute in end_of delay_start ((_ ← start_loop delay_config; run_rounds delay_config 3) delay_start).
Definition delay_stopped : ExampleWorld :=
  Eval vm_compute in end_of delay_start (run delay_config 5 delay_start).

Definition the_connection (o : option Connection) : match o with Some _ => Connection | None => unit end :=
  match o with Some c => c | None => tt end.
Definition delay_connection : Connection :=
  Eval vm_compute in the_connection (connections_ (pw_runtime delay_world) !! 1).

Lemma delay_launchable : launchable delay_config delay_env.
Proof.
  split_and!; [|reflexivity|by vm_compute]. split; try (unfold is_u64; cbn; lia). split; unfold is_u64; cbn; lia.
Qed.

Lemma delay_reached : proxy_reached delay_config 3 delay_io delay_env 0%nat false delay_world.
Proof. vm_compute. reflexivity. Qed.

Lemma delay_lookup : connections delay_world !! 1 = Some delay_connection.
Proof. vm_compute. reflexivity. Qed.

Lemma delay_run : run delay_config 5 delay_start = Ok (Some 0, delay_stopped).
Proof. vm_compute. reflexivity. Qed.


(** One connection is live and none is closed yet. *)
Lemma proxy_accounting_witness :
  1 ≤ 2 ∧ all_opened (pw_trace delay_world) ≡ₚ all_closed (pw_trace delay_world) ++ [7; 20]
  ∧ bindings_ (pw_runtime delay_world) !! 5 = Some (mkSocketBinding 1 Upstream).
Proof.
  destruct (proxy_accounting delay_config 3 delay_io delay_env 0%nat false delay_world delay_launchable delay_reached)
    as (Hsize & _ & _ & Hbind & Hfds).
  split; [exact Hsize|]. split; [exact Hfds|].
  apply Hbind. split; [exists delay_connection; exact delay_lookup|reflexivity].
Defined.

(** The three bytes wait for their delay and the pump timer is armed. *)
Lemma proxy_no_stall_witness :
  ∃ e d, e ∈ timers delay_world ∧ connection_id e = 1 ∧ kind e = Pump ∧ d ≤ deadline e
    ∧ armed (pw_trace delay_world) = Some (timer_spec (Some d)).
Proof.
  destruct (proxy_no_stall delay_config 3 delay_io delay_env 0%nat false delay_world 1 delay_connection Upstream
    delay_launchable delay_reached delay_lookup) as (_ & _ & Hcover).
  destruct (Hcover eq_refl) as [Hout|(e & d & He & Hid & Hk & Hd & Harm)]; [discriminate Hout|].
  exists e, d. split; [exact He|]. split; [exact Hid|]. split; [exact Hk|]. split; [exact Hd|].
  destruct Harm as [Harm|(r & Hr & Hneg)]; [exact Harm|].
  vm_compute in Hr. injection Hr as <-. discriminate Hneg.
Defined.

Lemma proxy_timeouts_witness :
  psafe (now ← steady_now; _ ← process_due_timers delay_config now; mret now) delay_world (λ now s',
    ∀ id c, connections s' !! id = Some c →
      (0 < 60000 → now < last_activity_ (relay c) + 60000000000)
      ∧ (0 < 1000 → upstream_connecting_ (relay c) = true → now < accepted_at_ (relay c) + 1000000000)).
Proof.
  exact (proxy_timeouts delay_config 3 delay_io delay_env 0%nat false delay_world delay_launchable delay_reached).
Defined.

Lemma proxy_stream_integrity_witness :
  wire_in Client (conn_traffic delay_connection).*2 = [] ++ [x61; x62; x63] ∧ 3 ≤ 1024 ∧ 7 = 7.
Proof.
  exact (proxy_stream_integrity delay_config 3 delay_io delay_env 0%nat false delay_world 1 delay_connection Client
    delay_launchable delay_reached delay_lookup).
Defined.

Lemma proxy_shutdown_witness :
  let rt := pw_runtime delay_stopped in
  0 = 0 ∧ connections_ rt = ∅ ∧ bindings_ rt = ∅ ∧ 1 = 1
  ∧ [7; 20; 21] ≡ₚ all_closed (pw_trace delay_stopped).
Proof.
  exact (proxy_shutdown delay_config 5 delay_io delay_env 0%nat 0 delay_stopped delay_launchable delay_run).
Defined.

Lemma proxy_confined_witness :
  (Connect 20 (mkSockaddr 9000 2132024872), mkReply (-1) EINPROGRESS 0 []) ∈ pw_trace delay_stopped
  ∧ (2130706432 ≤ 2132024872 ≤ 2147483647 ∨ false = true).
Proof.
  assert (Hin : (Connect 20 (mkSockaddr 9000 2132024872), mkReply (-1) EINPROGRESS 0 []) ∈ pw_trace delay_stopped).
  { vm_compute. do 4 right. left. }
  split; [exact Hin|].
  exact (proj2 (proxy_confined delay_config 5 delay_io delay_env 0%nat (Some 0) delay_stopped
    (proj1 delay_launchable) eq_refl delay_run) _ _ _ Hin).
Defined.

Lemma metrics_file_atomic_witness :
  exports delay_config (λ json, ∃ rt, document_of delay_config rt json) (pw_trace delay_stopped).
Proof.
  destruct (metrics_file_atomic delay_config 5 delay_start (Some 0) delay_stopped delay_run) as [(calls & Ht & He) _].
  change (pw_trace delay_stopped = calls) in Ht. rewrite Ht. exact He.
Defined.
