(* ===== verification/ProxyConfined.v ===== *)
(** * Which connections a method may change

    [quiet] methods change nothing of the runtime but the logger; a method is
    [confined] to a set of connections when it leaves the others, and their
    timers, alone. Every handler is confined to its connection, the processing
    of timers to the connections with a due timer, and accepting to the numbers
    not given yet. *)

From Stdlib Require Import ZArith Lia Init.Byte Ascii String.
From stdpp Require Import base numbers list option strings pretty gmap.
From S2P Require Import Prelude Endpoint ConnectionState TimerQueue SocketIo Relay Logger.
From S2P Require Import ProxyConfig Proxy ProxyLoop ProxyFacts.

Local Open Scope Z_scope.

Create HintDb quiet.
Create HintDb confined.

(** Connections are stored under their number. *)
Definition keyed {W E Out} (s : ProxyWorld W E Out) : Prop := ∀ i c, connections s !! i = Some c → conn_id c = i.

(** ** Methods that leave the runtime alone, but for the logger *)

Section quiet.
#[local] Set Default Proof Using "Type".
Context {W E Out : Type} `{SocketIo W} `{Kernel E} `{Output Out}.
Context `{Libc} `{Inet} `{UnorderedMap} (config : ProxyConfig).

Abbreviation PW := (ProxyWorld W E Out).
Abbreviation PM := (M PW).

Definition quiet {A} (m : PM A) : Prop := ∀ s a s', m s = Ok (a, s') →
  ∃ l, pw_runtime s' = set_logger l (pw_runtime s).

Lemma quiet_same {A} (m : PM A) : (∀ s a s', m s = Ok (a, s') → pw_runtime s' = pw_runtime s) → quiet m.
Proof. intros Hm s a s' Hs%Hm. exists (logger_ (pw_runtime s)). rewrite Hs. by destruct (pw_runtime s). Qed.
Lemma quiet_ret {A} (a : A) : quiet (mret a).
Proof. apply quiet_same. by intros s x s' [= <- <-]. Qed.
Lemma quiet_bind {A B} (m : PM A) (f : A → PM B) : quiet m → (∀ a, quiet (f a)) → quiet (m ≫= f).
Proof.
  intros Hm Hf s b s'. unfold mbind, M_bind. destruct (m s) as [[a s1]| | |] eqn:E1; try done.
  intros E2. destruct (Hm _ _ _ E1) as [l1 R1]. destruct (Hf _ _ _ _ E2) as [l2 R2]. exists l2. by rewrite R2, R1.
Qed.
Lemma quiet_lift {A} (o : outcome A) : quiet (lift o).
Proof. apply quiet_same. unfold lift. destruct o; cbn; intros s x s' Hx; by try injection Hx as <- <-. Qed.
Lemma quiet_sys call : quiet (sys call).
Proof. apply quiet_same. unfold sys. intros s r s'. destruct (syscall _ _). by intros [= <- <-]. Qed.
Lemma quiet_gets {A} (f : PW → A) : quiet (gets f).
Proof. apply quiet_same. by intros s x s' [= <- <-]. Qed.
Lemma quiet_out_of_fuel {A} : quiet (out_of_fuel (S := PW) (A := A)).
Proof. by intros s a s'. Qed.
Lemma quiet_connection_at id : quiet (connection_at id).
Proof. apply quiet_same. unfold connection_at. intros s x s'. by destruct (_ !! id); [intros [= <- <-]|]. Qed.
Lemma quiet_log name i state detail : quiet (log_event name i state detail).
Proof.
  unfold log_event. apply quiet_bind; [apply quiet_sys|]. intros r s x s'. unfold write_log.
  destruct (Logger.event _ _ _ _ _ _ _) as [[l o]| | |]; try done. intros [= <- <-]. by exists l.
Qed.
#[local] Hint Resolve quiet_ret quiet_lift quiet_sys quiet_gets quiet_log quiet_out_of_fuel quiet_connection_at : quiet.

#[local] Ltac step :=
  match goal with
  | |- quiet (_ ≫= _) => apply quiet_bind; [|intros ?]
  | |- quiet (match ?x with _ => _ end) => destruct x eqn:?
  | |- quiet _ => solve [auto with quiet]
  end.
#[local] Ltac steps := repeat (step; cbv zeta).

Lemma quiet_forward_events i events : quiet (forward_events i events).
Proof. induction events as [|e events IH]; cbn [forward_events]; [apply quiet_ret|steps]. Qed.
Lemma quiet_steady_now : quiet steady_now.
Proof. unfold steady_now. steps. Qed.
Lemma quiet_close_fd fd : quiet (close_fd fd).
Proof. unfold close_fd. steps. Qed.
Lemma quiet_apply_socket_buffer_size fd : quiet (apply_socket_buffer_size config fd).
Proof. unfold apply_socket_buffer_size. steps. Qed.
#[local] Hint Resolve quiet_steady_now quiet_close_fd : quiet.
Lemma quiet_read_fd call : quiet (read_fd call).
Proof.
  unfold read_fd. apply quiet_bind; [apply quiet_gets|]. intros fuel.
  induction fuel as [|fuel IH]; cbn [read_loop]; [apply quiet_out_of_fuel|steps].
Qed.
Lemma quiet_write_metrics_file : quiet (write_metrics_file config).
Proof.
  assert (Hloop : ∀ fuel fd json offset, quiet (write_file_loop fuel fd json offset)).
  { intros fuel. induction fuel as [|fuel IH]; intros fd json offset; cbn [write_file_loop]; steps. }
  unfold write_metrics_file, build_metrics_json, get_runtime. steps.
Qed.
Lemma quiet_log_snapshots ids now : quiet (log_snapshots ids now).
Proof. induction ids as [|id ids IH]; cbn [log_snapshots]; [apply quiet_ret|steps]. Qed.
#[local] Hint Resolve quiet_log_snapshots : quiet.
Lemma quiet_emit_metrics_snapshot : quiet emit_metrics_snapshot.
Proof. unfold emit_metrics_snapshot, get_runtime. steps. Qed.
End quiet.

#[export] Hint Resolve quiet_ret quiet_lift quiet_sys quiet_gets quiet_log quiet_out_of_fuel quiet_connection_at
  quiet_forward_events quiet_steady_now quiet_close_fd quiet_apply_socket_buffer_size quiet_read_fd : quiet.

(** ** Methods that work on the connections of a set *)

Section confined.
#[local] Set Default Proof Using "Type".
Context {W E Out : Type} `{SocketIo W} `{Kernel E} `{Output Out}.
Context `{Libc} `{Inet} `{UnorderedMap} (config : ProxyConfig).
Context (mine : Z → Prop).

Abbreviation PW := (ProxyWorld W E Out).
Abbreviation PM := (M PW).
Implicit Types (s : PW) (c : Connection).

(** The other connections are as before, and no timer was queued for them. *)
Definition spared s s' : Prop :=
  keyed s' ∧ (∀ j, ¬ mine j → connections s' !! j = connections s !! j)
  ∧ ∀ e, e ∈ timers s' → e ∈ timers s ∨ mine (connection_id e).
Definition confined_at s {A} (m : PM A) : Prop := keyed s → ∀ a s', m s = Ok (a, s') → spared s s'.
Definition confined {A} (m : PM A) : Prop := ∀ s, confined_at s m.

Lemma spared_trans s1 s2 s3 : spared s1 s2 → spared s2 s3 → spared s1 s3.
Proof.
  intros (K1 & C1 & T1) (K2 & C2 & T2). split_and!; [done|intros j Hj; by rewrite C2, C1|].
  intros e [He|?]%T2; [by apply T1|by right].
Qed.
Lemma spared_logged s s' l : keyed s → pw_runtime s' = set_logger l (pw_runtime s) → spared s s'.
Proof.
  intros HK Hr. unfold spared, keyed, connections, timers in *. rewrite Hr. split_and!; [done|done|]. by left.
Qed.

Lemma confined_quiet {A} (m : PM A) : quiet m → confined m.
Proof. intros Hm s HK a s' [l Hl]%Hm. by eapply spared_logged. Qed.
Lemma confined_at_bind s {A B} (m : PM A) (f : A → PM B) :
  confined_at s m → (∀ a s', m s = Ok (a, s') → confined_at s' (f a)) → confined_at s (m ≫= f).
Proof.
  intros Hm Hf HK b s'. unfold mbind, M_bind. destruct (m s) as [[a s1]| | |] eqn:E1; try done.
  intros E2. pose proof (Hm HK _ _ E1) as S1. eapply spared_trans; [exact S1|].
  eapply Hf; [done|apply S1|exact E2].
Qed.
Lemma confined_bind {A B} (m : PM A) (f : A → PM B) : confined m → (∀ a, confined (f a)) → confined (m ≫= f).
Proof. intros Hm Hf s. apply confined_at_bind; [apply Hm|]. intros a s' _. apply Hf. Qed.
(** After a quiet step the next number to be given is the same. *)
Lemma confined_at_quiet_bind s {A B} (m : PM A) (f : A → PM B) :
  quiet m →
  (∀ a s', next_connection_id_ (pw_runtime s') = next_connection_id_ (pw_runtime s) → confined_at s' (f a)) →
  confined_at s (m ≫= f).
Proof.
  intros Hm Hf. apply confined_at_bind; [by apply confined_quiet|]. intros a s' [l Hl]%Hm. apply Hf. by rewrite Hl.
Qed.

Lemma confined_modify f :
  (∀ r, connections_ (f r) = connections_ r ∧ timer_queue_ (f r) = timer_queue_ r) → confined (modify_runtime f).
Proof.
  intros Hf s HK a s' [= <- <-]. destruct (Hf (pw_runtime s)) as [Hc Ht].
  unfold spared, keyed, connections, timers in *. cbn. rewrite Hc, Ht. split_and!; [done|done|]. by left.
Qed.

Lemma spared_insert s s' i c :
  mine i → conn_id c = i → keyed s → connections s' = <[i := c]> (connections s) → timers s' = timers s → spared s s'.
Proof.
  intros Hi Hc HK Hs Ht. unfold spared, keyed. rewrite Hs, Ht. split_and!; [| |by left].
  - intros j c' [[<- <-]|[_ Hj]]%lookup_insert_Some; [done|by apply HK].
  - intros j Hj. rewrite lookup_insert_ne; [done|]. by intros ->.
Qed.

Section one.
Context (id : Z) (Hmine : mine id).

(** A connection found under [id] has that number. *)
Lemma confined_found {B} (k : Connection → PM B) :
  (∀ c, conn_id c = id → confined (k c)) → confined (connection_at id ≫= k).
Proof using Type.
  intros Hk s HK b s'. unfold mbind, M_bind, connection_at. fold (connections s).
  destruct (connections s !! id) as [c|] eqn:Hc; [|done]. apply Hk; [|done]. by apply HK.
Qed.
Lemma confined_lookup {B} (k : Connection → PM B) (none : PM B) :
  (∀ c, conn_id c = id → confined (k c)) → confined none →
  confined (runtime ← get_runtime; match connections_ runtime !! id with None => none | Some c => k c end).
Proof using Type.
  intros Hk Hn s HK b s'. unfold mbind, M_bind, get_runtime, gets. fold (connections s).
  destruct (connections s !! id) as [c|] eqn:Hc; [|by apply Hn]. apply Hk; [|done]. by apply HK.
Qed.

Lemma confined_update f : (∀ c, conn_id (f c) = conn_id c) → confined (update_connection id f).
Proof using Hmine.
  intros Hf s HK x s' [= <- <-]. destruct (connections s !! id) as [c|] eqn:Hc.
  - apply spared_insert with id (f c); [done|by rewrite Hf; apply HK|done| |done]. by apply alter_Some.
  - unfold spared, keyed, connections, timers in *. cbn. rewrite alter_id by (intros y; congruence).
    split_and!; [done|done|]. by left.
Qed.
Lemma confined_set_mask side mask : confined (update_connection id (set_mask side mask)).
Proof using Hmine. apply confined_update. intros c. by destruct side. Qed.

Lemma confined_emplace c : conn_id c = id → confined (emplace_connection id c).
Proof using Hmine.
  intros Hc s HK x s'. unfold emplace_connection. fold (connections s).
  destruct (connections s !! id) as [old|]; intros [= <- <-].
  - by apply spared_logged with (logger_ (pw_runtime s)); [|destruct (pw_runtime s)].
  - by apply spared_insert with id c.
Qed.

Lemma confined_erase : confined (erase_connection id).
Proof using Hmine.
  intros s HK x s'. unfold erase_connection. fold (connections s).
  destruct (connections s !! id) as [old|]; intros [= <- <-].
  - unfold spared, keyed, connections, timers in *. cbn. split_and!; [| |by left].
    + intros i c [_ Hi]%lookup_delete_Some. by apply HK.
    + intros j Hj. rewrite lookup_delete_ne; [done|]. by intros ->.
  - by apply spared_logged with (logger_ (pw_runtime s)); [|destruct (pw_runtime s)].
Qed.

Lemma confined_schedule t k :
  confined (modify_runtime (λ r, set_timer_queue (schedule (timer_queue_ r) t id k) r)).
Proof using Hmine.
  intros s HK x s' [= <- <-]. split_and!; [done|done|]. intros e [->|He]%elem_of_heap_push; [by right|by left].
Qed.

Lemma confined_on_relay {A} now (method : M (World W) A) : confined (on_relay id now method).
Proof using Hmine.
  unfold on_relay. apply confined_found. intros c Hc. apply confined_bind.
  - intros s HK [a events] s'. unfold run_relay. destruct (method _) as [[x w]| | |]; try done.
    intros [= <- <- <-]. eapply spared_insert; [exact Hmine| |done|reflexivity|done]. exact Hc.
  - intros [a events]. apply confined_quiet, quiet_bind; [|intros ?]; auto with quiet.
Qed.
#[local] Hint Resolve confined_quiet confined_on_relay confined_set_mask confined_erase : confined.

(** Follows a handler down to its steps. *)
#[local] Ltac step :=
  match goal with
  | H : conn_id ?c = id |- context [conn_id ?c] => rewrite H
  | |- confined (connection_at id ≫= _) => apply confined_found; intros ? ?
  | |- confined (get_runtime ≫= _) => apply confined_lookup; [intros ? ?|]
  | |- confined (_ ≫= _) => apply confined_bind; [|intros ?]
  | |- confined (modify_runtime _) => first [apply confined_schedule
      |apply confined_modify; solve [done|by intros; unfold count_close; case_match]]
  | |- confined (update_connection id _) => apply confined_update; solve [by intros ?]
  | |- confined (match ?x with _ => _ end) => destruct x eqn:?
  | |- confined _ => solve [auto with confined quiet]
  end.
#[local] Ltac steps := repeat (step; cbv zeta).

Lemma confined_close_connection final detail now : confined (close_connection id final detail now).
Proof using Hmine. unfold close_connection. steps. Qed.
#[local] Hint Resolve confined_close_connection : confined.
Lemma confined_apply_interest side now : confined (apply_interest id side now).
Proof using Hmine. unfold apply_interest, modify_epoll. steps. Qed.
#[local] Hint Resolve confined_apply_interest : confined.
Lemma confined_refresh_or_close now : confined (refresh_or_close id now).
Proof using Hmine. unfold refresh_or_close. steps. Qed.
#[local] Hint Resolve confined_refresh_or_close : confined.
Lemma confined_schedule_relay_wake now : confined (schedule_relay_wake id now).
Proof using Hmine. unfold schedule_relay_wake. steps. Qed.
#[local] Hint Resolve confined_schedule_relay_wake : confined.
Lemma confined_flush_destination destination now : confined (flush_destination id destination now).
Proof using Hmine. unfold flush_destination. steps. Qed.
#[local] Hint Resolve confined_flush_destination : confined.
Lemma confined_pump_connection now : confined (pump_connection id now).
Proof using Hmine. unfold pump_connection. steps. Qed.
#[local] Hint Resolve confined_pump_connection : confined.
Lemma confined_finish_connect side events now : confined (finish_connect id side events now).
Proof using Hmine. unfold finish_connect. steps. Qed.
Lemma confined_check_socket_error side events now : confined (check_socket_error id side events now).
Proof using Hmine. unfold check_socket_error. steps. Qed.
Lemma confined_read_ready side events now : confined (read_ready id side events now).
Proof using Hmine. unfold read_ready. steps. Qed.
#[local] Hint Resolve confined_finish_connect confined_check_socket_error confined_read_ready : confined.

Lemma confined_handle_timer event c now :
  connection_id event = id → conn_id c = id → confined (handle_timer config event c now).
Proof using Hmine. intros He Hc. unfold handle_timer. rewrite He. steps. Qed.

Lemma confined_store_interest side now : confined (store_interest id side now).
Proof using Hmine. unfold store_interest. steps. Qed.
#[local] Hint Resolve confined_store_interest : confined.
Lemma confined_register_sockets client upstream : confined (register_sockets id client upstream).
Proof using Hmine. unfold register_sockets, add_epoll. steps. Qed.
Lemma confined_schedule_timeouts connecting now : confined (schedule_timeouts config id connecting now).
Proof using Hmine. unfold schedule_timeouts. steps. Qed.
End one.

(** The event of a bound token. *)
Lemma confined_socket_ready token events s b :
  bindings_ (pw_runtime s) !! token = Some b → mine (binding_connection b) → confined_at s (socket_ready token events).
Proof.
  intros Hb Hmine HK u s' Hs. unfold socket_ready, mbind at 1, M_bind at 1, get_runtime, gets in Hs. rewrite Hb in Hs.
  fold (connections s) in Hs. destruct (connections s !! binding_connection b) as [c|] eqn:Hc.
  2:{ injection Hs as <- <-. by apply spared_logged with (logger_ (pw_runtime s)); [|destruct (pw_runtime s)]. }
  rewrite (HK _ _ Hc) in Hs. revert Hs. match goal with |- ?m s = _ → _ => assert (Hm : confined m) end;
    [|by apply Hm].
  apply confined_bind; [apply confined_quiet; auto with quiet|]. intros now.
  repeat first [apply confined_bind; [|intros []; [by apply confined_quiet; auto with quiet|]]
    |by apply confined_finish_connect|by apply confined_check_socket_error|by apply confined_read_ready
    |by apply confined_pump_connection].
Qed.

(** *** Timers: those of the set are due *)

Definition due_mine now s : Prop := ∀ e, e ∈ timers s → deadline e ≤ now → mine (connection_id e).

Lemma pop_due_timers q now popped q' e : pop_due q now = (popped, q') → e ∈ heap_ q' → e ∈ heap_ q.
Proof.
  unfold pop_due. destruct (heap_ q) as [|x h] eqn:Hq; [intros [= _ <-]; by rewrite Hq|].
  destruct (now <? deadline x); intros [= _ <-]; [by rewrite Hq|]. by right.
Qed.

Lemma spared_due now s s' : spared s s' → due_mine now s → due_mine now s'.
Proof. intros (_ & _ & Ht) Hdue e [He|?]%Ht Hd; [by apply Hdue|done]. Qed.

Lemma due_loop_spared fuel now processed s n s' :
  keyed s → due_mine now s → due_loop config fuel now processed s = Ok (n, s') → spared s s'.
Proof.
  revert processed s. induction fuel as [|fuel IH]; intros processed s HK Hdue; [done|]. cbn [due_loop].
  unfold mbind at 1, M_bind at 1, get_runtime, gets.
  destruct (pop_due (timer_queue_ (pw_runtime s)) now) as [popped q] eqn:Hpop.
  unfold mbind at 1, M_bind at 1, modify_runtime, modify. set (s1 := set_runtime (set_timer_queue q (pw_runtime s)) s).
  assert (S1 : spared s s1).
  { split_and!; [exact HK|done|]. intros e He. left. by eapply pop_due_timers. }
  destruct popped as [event|]; [|by intros [= <- <-]].
  fold (connections s). change (connections s) with (connections s1).
  destruct (connections s1 !! connection_id event) as [c|] eqn:Hc.
  - apply pop_due_Some in Hpop as (Hh & Hd & _).
    assert (Hev : mine (connection_id event)) by (apply Hdue; [unfold timers; rewrite Hh; left|done]).
    intros Hs. unfold mbind, M_bind in Hs. destruct (handle_timer config event c now s1) as [[u s2]| | |] eqn:E2; try done.
    assert (S2 : spared s1 s2).
    { eapply (confined_handle_timer _ Hev); [done| |apply S1|exact E2]. by apply S1. }
    pose proof (spared_trans _ _ _ S1 S2) as S12. eapply spared_trans; [exact S12|].
    eapply IH; [apply S12|by eapply spared_due|exact Hs].
  - intros Hs. eapply spared_trans; [exact S1|]. eapply IH; [apply S1|by eapply spared_due|exact Hs].
Qed.

Lemma process_due_timers_spared now s n s' :
  keyed s → due_mine now s → process_due_timers config now s = Ok (n, s') → spared s s'.
Proof. intros HK Hdue Hs. by eapply due_loop_spared in Hs; [|exact HK|exact Hdue]. Qed.

(** *** Accepting: the next number to be given is in the set *)

Lemma register_connection_confined s client upstream connecting :
  mine (next_connection_id_ (pw_runtime s)) → confined_at s (register_connection config client upstream connecting).
Proof.
  intros Hm. unfold register_connection. apply confined_at_quiet_bind; [auto with quiet|]. intros now s1 Hn1.
  rewrite <-Hn1 in Hm. intros HK u s' Hs. unfold mbind at 1, M_bind at 1, get_runtime, gets in Hs.
  set (id := next_connection_id_ (pw_runtime s1)) in *.
  revert Hs. match goal with |- ?m s1 = _ → _ => assert (Hm' : confined m) end; [|by apply Hm'].
  apply confined_bind; [apply confined_quiet; auto with quiet|]. intros r.
  do 2 (apply confined_bind; [by apply confined_modify|intros _]).
  apply confined_bind; [by apply confined_emplace|intros _].
  do 2 (apply confined_bind; [by apply confined_store_interest|intros _]).
  apply confined_bind; [by apply confined_register_sockets|]. intros inserted.
  apply confined_bind; [apply confined_quiet; auto with quiet|intros _].
  apply confined_bind; [apply confined_quiet; case_match; auto with quiet|intros _].
  by apply confined_schedule_timeouts.
Qed.

Lemma accept_client_confined s client :
  mine (next_connection_id_ (pw_runtime s)) → confined_at s (accept_client config client).
Proof.
  intros Hm. unfold accept_client. apply confined_at_quiet_bind; [unfold get_runtime; auto with quiet|]. intros runtime s1 Hn1.
  rewrite <-Hn1 in Hm. destruct (_ <=? _).
  { apply confined_quiet, quiet_bind; [|intros ?]; auto with quiet. }
  apply confined_at_quiet_bind; [auto with quiet|]. intros opened s2 Hn2. rewrite <-Hn2 in Hm.
  destruct (_ <? _). { apply confined_quiet, quiet_bind; [|intros ?]; auto with quiet. }
  apply confined_at_quiet_bind; [auto with quiet|]. intros u s3 Hn3. rewrite <-Hn3 in Hm.
  apply confined_at_quiet_bind; [auto with quiet|]. intros address s4 Hn4. rewrite <-Hn4 in Hm.
  apply confined_at_quiet_bind; [auto with quiet|]. intros r s5 Hn5. rewrite <-Hn5 in Hm.
  cbv zeta. destruct (_ && _); [|by apply register_connection_confined].
  apply confined_quiet, quiet_bind; [auto with quiet|intros ?]. apply quiet_bind; [|intros ?]; auto with quiet.
Qed.
End confined.
