(* ===== verification/ProxyIsolation.v ===== *)
(** * Events reach the connections they are for

    An entry of the array that epoll_wait returned may be stale when its turn
    comes: an earlier entry may have closed its connection, and another client
    may have been accepted since, on the same descriptors. Tokens and connection
    numbers are never used again, so such an entry does nothing; and no entry
    changes a connection it is not for. *)

From Stdlib Require Import ZArith Lia Init.Byte Ascii String.
From stdpp Require Import base numbers list option strings pretty gmap.
From S2P Require Import Prelude Text Endpoint ByteQueue Backpressure DelayLine TokenBucket.
From S2P Require Import FaultRng FaultPlan.
From S2P Require Import ConnectionState TimerQueue SocketIo Relay RelayDirection RelayFacts.
From S2P Require Import RelaySpec Logger RelayReport ProxyConfig Proxy ProxyLoop ProxyWalk.
From S2P Require Import ProxyInv ProxyFacts ProxyConfined ProxyEvents ProxyAccept ProxyRun.
From S2P Require Import ProxyScript ProxySpec.

Local Open Scope Z_scope.

(** ** Stale events *)

Section isolation.
#[local] Set Default Proof Using "Type*".
Context {W E Out : Type} `{SocketIoLaws W} `{KernelLaws E} `{OutputLaws Out}.
Context `{Libc} `{InetLaws} `{UnorderedMapLaws} (config : ProxyConfig).

Abbreviation PW := (ProxyWorld W E Out).
Implicit Types (s : PW) (io : W) (env : E) (out : Out).

(** [s] is reached between two entries of an event array: rounds, then the
    entries [handled], whatever they are. *)
Definition dispatching (rounds : nat) io env out (handled : list (Z * Z)) s : Prop :=
  ∃ s0, proxy_reached config rounds io env out false s0 ∧ dispatch_all config handled s0 = Ok (false, s).

Lemma dispatch_all_forward events held s b s' :
  config_typed config → valid_proxy_config config → steady config held s →
  dispatch_all config events s = Ok (b, s') →
  steady config held s' ∧ forward (pw_runtime s) (pw_runtime s').
Proof.
  intros Ht Hv Hst Hs. pose proof (dispatch_all_ok config Ht Hv events held s Hst) as Hok. unfold psafe in Hok.
  rewrite Hs in Hok. by destruct Hok as [[_ ?] ?].
Qed.

Lemma dispatching_steady rounds io env out handled s :
  launchable config env → dispatching rounds io env out handled s → steady config [] s.
Proof.
  intros Hl (s0 & Hr & Hs). destruct (reached_steady config _ _ _ _ _ _ Hl Hr) as [Hst _].
  eapply dispatch_all_forward; [apply Hl|by eapply launchable_valid|exact Hst|exact Hs].
Qed.

Lemma steady_keyed held s : steady config held s → keyed s.
Proof. intros [now I] i c Hc. exact (cb_id _ _ _ _ (proj1 (pi_conn _ _ _ _ _ _ _ _ I i c Hc))). Qed.

(** The tokens of a connection that is not in the table are not bound. *)
Lemma steady_unbound held s id side :
  steady config held s → connections s !! id = None → bindings_ (pw_runtime s) !! token_for side id = None.
Proof.
  intros [now I] Hc. apply eq_None_not_Some. intros [b [Hb Ht]%(pi_bindings _ _ _ _ _ _ _ _ I)].
  apply token_for_inj in Ht as [_ ->]. unfold connections in Hc. destruct Hb. congruence.
Qed.

Lemma dispatch_socket mask token s :
  kTimerToken < token → dispatch config mask token s = (_ ← socket_ready token mask; mret false) s.
Proof.
  intros Ht. unfold dispatch, kListenerToken, kSignalToken, kTimerToken in *.
  by rewrite !(proj2 (Z.eqb_neq _ _)) by lia.
Qed.

Lemma dispatch_unbound mask token s :
  kTimerToken < token → bindings_ (pw_runtime s) !! token = None → dispatch config mask token s = Ok (false, s).
Proof.
  intros Ht Hb. rewrite dispatch_socket by done. unfold socket_ready, mbind, M_bind, get_runtime, gets. by rewrite Hb.
Qed.

(** *** One entry *)

(** Accepting changes no connection there was. *)
Lemma accept_loop_spared (mine : Z → Prop) fuel held s u s' :
  config_typed config → valid_proxy_config config →
  (∀ id, next_connection_id_ (pw_runtime s) ≤ id → mine id) → (pending (pw_env s) < fuel)%nat →
  steady config held s → accept_loop config fuel s = Ok (u, s') → spared mine s s'.
Proof.
  intros Ht Hv. revert s. induction fuel as [|fuel IH]; intros s Hmine Hfuel Hst; [lia|]. cbn [accept_loop].
  unfold mbind at 1, M_bind at 1, sys. destruct (syscall (pw_env s) Accept) as [r e'] eqn:Hs.
  fold (after_call s Accept r e'). pose proof (steady_keyed _ _ Hst) as HK.
  assert (S1 : spared mine s (after_call s Accept r e'))
    by (by apply spared_logged with (logger_ (pw_runtime s)); [|cbn; destruct (pw_runtime s)]).
  pose proof (pending_lt _ _ _ _ Hs) as Hlt. cbn [repeats] in Hlt. destruct Hst as [now I].
  destruct (Z.ltb_spec (ret r) 0) as [Hneg|Hpos].
  - destruct ((errno r =? EAGAIN) || _); [intros [= <- <-]; exact S1|]. destruct (Z.eqb_spec (errno r) EINTR) as [He|He].
    + intros Hrun. eapply spared_trans; [exact S1|]. apply (IH (after_call s Accept r e')); [exact Hmine| | |exact Hrun].
      * cbn. rewrite orb_true_r in Hlt. specialize (Hlt eq_refl). lia.
      * exists now. apply inv_after_call; [done..|]. repeat split; cbn. by destruct (Z.leb_spec 0 (ret r)); [lia|].
    + intros Hrun. eapply spared_trans; [exact S1|]. by eapply confined_quiet; [apply quiet_log| |exact Hrun].
  - assert (Hrep : (0 <=? ret r) || (errno r =? EINTR) = true) by (by destruct (Z.leb_spec 0 (ret r)); [|lia]).
    specialize (Hlt Hrep).
    assert (I1 : proxy_inv config now settled [] (ret r :: held) (pw_runtime s) e' (pw_trace s ++ [(Accept, r)])).
    { apply inv_open with (e := pw_env s); auto. }
    unfold mbind, M_bind. destruct (accept_client config (ret r) _) as [[u1 s2]| | |] eqn:E2; try done.
    pose proof (accept_client_ok config Ht Hv now held (ret r) (after_call s Accept r e') I1) as Hok.
    unfold psafe in Hok. rewrite E2 in Hok. destruct Hok as [[Hp [Hn _]] Hst2].
    { cbn. pose proof (pi_budget _ _ _ _ _ _ _ _ I). lia. }
    assert (S2 : spared mine (after_call s Accept r e') s2).
    { eapply accept_client_confined; [|exact HK|exact E2]. by apply Hmine. }
    cbn in Hp, Hn. intros Hrun. eapply spared_trans; [exact S1|]. eapply spared_trans; [exact S2|].
    apply IH; [|lia|done|done]. intros id Hid. apply Hmine. lia.
Qed.

(** The connections an entry of the event array is for: the one its token is
    bound to, or those with a timer that is due when the clock is read. *)
Definition concerned (token : Z) s s' (id : Z) : Prop :=
  if token =? kTimerToken
  then ∃ e, e ∈ timers s ∧ connection_id e = id ∧ deadline e ≤ clock (pw_env s')
  else ∃ b, bindings_ (pw_runtime s) !! token = Some b ∧ binding_connection b = id.

Lemma bind_result {A B} (m : M PW A) (f : A → M PW B) s b s' :
  (m ≫= f) s = Ok (b, s') → ∃ a s1, m s = Ok (a, s1) ∧ f a s1 = Ok (b, s').
Proof. unfold mbind, M_bind. destruct (m s) as [[a s1]| | |]; [|done..]. eauto. Qed.

Lemma psafe_result {A} (m : M PW A) s (Q : A → PW → Prop) a s' : psafe m s Q → m s = Ok (a, s') → Q a s'.
Proof. unfold psafe. intros Hm Hs. rewrite Hs in Hm. apply Hm. Qed.

(** The timer's entry: what is due when the clock has been read. *)
Lemma timer_entry_spared mask s stop s' :
  config_typed config → valid_proxy_config config → steady config [] s →
  dispatch config mask kTimerToken s = Ok (stop, s') → spared (concerned kTimerToken s s') s s'.
Proof.
  intros Ht Hv Hst Hd. unfold dispatch in Hd. change (kTimerToken =? kListenerToken) with false in Hd.
  change (kTimerToken =? kSignalToken) with false in Hd. rewrite Z.eqb_refl in Hd. cbn iota in Hd.
  apply bind_result in Hd as (u & s1 & E1 & Hd).
  pose proof (psafe_result _ _ _ _ _ (drain_timer_fd_ok config Ht Hv [] s Hst) E1) as [old I1].
  assert (Hq1 : quiet (W := W) (E := E) (Out := Out) drain_timer_fd)
    by (apply quiet_bind; [|intros ?]; auto with quiet).
  apply bind_result in Hd as (now & s2 & E2 & Hd).
  assert (pinv config now settled [] [] s2 ∧ pw_runtime s2 = pw_runtime s1) as [I2 Hr2].
  { refine (psafe_result _ _ (λ t s', pinv config t settled [] [] s' ∧ pw_runtime s' = pw_runtime s1) _ _ _ E2).
    apply (psafe_of old). apply steady_now_ok with (1 := I1). auto. }
  apply bind_result in Hd as (n & s3 & E3 & Hd).
  pose proof (psafe_result _ _ _ _ _ (psafe_of _ _ _ _ (process_due_timers_ok config now [] s2 I2)) E3) as [I3 _].
  apply bind_result in Hd as (rt & s3' & [= _ <-] & Hd).
  apply bind_result in Hd as (u' & s4 & E4 & [= _ <-]).
  pose proof (psafe_result _ _ _ _ _ (psafe_log config now _ _ _ _ settled [] [] s3 I3) E4) as [I4 _].
  destruct (Hq1 _ _ _ E1) as [l Hl].
  set (mine := concerned kTimerToken s s4).
  assert (S2 : spared mine s s2) by (apply spared_logged with l; [by eapply steady_keyed|congruence]).
  assert (Hdue : due_mine mine now s2).
  { intros e He Hle. unfold mine, concerned. rewrite Z.eqb_refl. exists e.
    assert (Ht2 : timers s2 = timers s) by (unfold timers; by rewrite Hr2, Hl). rewrite <-Ht2.
    pose proof (pi_clock _ _ _ _ _ _ _ _ I4). split_and!; [done|done|lia]. }
  assert (S3 : spared mine s2 s3) by (by eapply process_due_timers_spared; [apply S2|exact Hdue|exact E3]).
  eapply spared_trans; [exact S2|]. eapply spared_trans; [exact S3|].
  by eapply confined_quiet; [apply quiet_log|apply S3|exact E4].
Qed.

(** The entries of the listener and of the signals concern no connection there
    is. *)
Lemma dispatch_spared mask token s stop s' :
  config_typed config → valid_proxy_config config → steady config [] s →
  dispatch config mask token s = Ok (stop, s') →
  spared (λ id, concerned token s s' id ∨ connections s !! id = None) s s'.
Proof.
  intros Ht Hv Hst Hd. pose proof (steady_keyed _ _ Hst) as HK. set (mine := λ id, _).
  assert (Hquiet : ∀ m : M PW bool, quiet m → m s = Ok (stop, s') → spared mine s s').
  { intros m Hm. by apply confined_quiet. }
  destruct (Z.eqb_spec token kTimerToken) as [->|Hnt].
  { pose proof (timer_entry_spared _ _ _ _ Ht Hv Hst Hd) as (K & C & T). split_and!; [done| |].
    - intros j Hj. apply C. intros Hc. apply Hj. by left.
    - intros e [?|?]%T; [by left|right; by left]. }
  unfold dispatch in Hd. destruct (token =? kListenerToken) eqn:Hl.
  { apply bind_result in Hd as (u & s1 & Ha & [= _ <-]). unfold accept_ready in Ha.
    apply bind_result in Ha as (fuel & s0 & [= <- <-] & Ha).
    eapply accept_loop_spared; [exact Ht|exact Hv| | |exact Hst|exact Ha]; [|lia].
    intros id Hid. right. apply eq_None_not_Some. intros Hc. destruct Hst as [now I].
    apply (pi_ids _ _ _ _ _ _ _ _ I) in Hc. lia. }
  destruct (token =? kSignalToken).
  { revert Hd. apply Hquiet. apply quiet_bind; [apply quiet_read_fd|]. intros r.
    case_match; [apply quiet_bind; [|intros ?]; auto with quiet|]. case_match; [|auto with quiet].
    apply quiet_bind; [apply quiet_emit_metrics_snapshot|intros _].
    apply quiet_bind; [apply quiet_write_metrics_file|intros _]. apply quiet_ret. }
  rewrite (proj2 (Z.eqb_neq _ _) Hnt) in Hd. apply bind_result in Hd as (u & s1 & Hs & [= _ <-]).
  destruct (bindings_ (pw_runtime s) !! token) as [b|] eqn:Hb.
  - eapply confined_socket_ready; [exact Hb| |exact HK|exact Hs]. left. unfold concerned.
    rewrite (proj2 (Z.eqb_neq _ _) Hnt). by exists b.
  - unfold socket_ready in Hs. apply bind_result in Hs as (rt & s0 & [= <- <-] & Hs). rewrite Hb in Hs.
    injection Hs as <- <-. by apply spared_logged with (logger_ (pw_runtime s)); [|destruct (pw_runtime s)].
Qed.

(** C6: events reach the connections they are for. Between two entries of an
    event array, let some connection have ended, and let any further entries be
    handled, which may accept clients on the descriptors it had: an entry that
    still names one of its two tokens does nothing at all, because neither its
    number nor its tokens are ever given to another connection. And an entry
    changes no connection but those it is for: the one its token is bound to, or,
    for the timer, those with a timer that is due. *)
Theorem stale_events_harmless rounds io env out handled s between s1 :
  launchable config env → dispatching rounds io env out handled s →
  dispatch_all config between s = Ok (false, s1) →
  (∀ id side mask, 1 ≤ id < next_connection_id_ (pw_runtime s) → connections s !! id = None →
     connections s1 !! id = None ∧ dispatch config mask (token_for side id) s1 = Ok (false, s1))
  ∧ (∀ token b, bindings_ (pw_runtime s) !! token = Some b →
     bindings_ (pw_runtime s1) !! token = Some b ∨ bindings_ (pw_runtime s1) !! token = None)
  ∧ ∀ mask token stop s2 id c,
     dispatch config mask token s1 = Ok (stop, s2) → ¬ concerned token s1 s2 id →
     connections s1 !! id = Some c → connections s2 !! id = Some c.
Proof.
  intros Hl Hd Hs1. pose proof (dispatching_steady _ _ _ _ _ _ Hl Hd) as Hst.
  pose proof (launchable_valid config _ Hl) as Hv. pose proof Hl as (Ht & _).
  destruct (dispatch_all_forward between [] s false s1) as [Hst1 [_ Hfwd]]; [done..|].
  split_and!.
  - intros id side mask Hid Hnone. assert (Hnone1 : connections s1 !! id = None).
    { apply eq_None_not_Some. intros Hc. apply Hfwd in Hc; [|lia]. unfold connections in Hnone. destruct Hc. congruence. }
    split; [done|]. apply dispatch_unbound; [|by eapply steady_unbound].
    unfold token_for, kTimerToken. destruct side; lia.
  - intros token b Hb. destruct (bindings_ (pw_runtime s1) !! token) as [b1|] eqn:Hb1; [left|by right].
    destruct Hst as [now I], Hst1 as [now1 I1]. apply (pi_bindings _ _ _ _ _ _ _ _ I) in Hb as [_ ->].
    apply (pi_bindings _ _ _ _ _ _ _ _ I1) in Hb1 as [_ Htok]. apply token_for_inj in Htok as [Hside Hconn].
    destruct b, b1; cbn in *; congruence.
  - intros mask token stop s2 id c Hdisp Hno Hc.
    destruct (dispatch_spared _ _ _ _ _ Ht Hv Hst1 Hdisp) as (_ & Hothers & _).
    rewrite Hothers; [done|]. intros [?|?]; [done|congruence].
Qed.
End isolation.

(** ** Example: a connection is reset, two clients are accepted, one of them on
    its descriptor, and an event for it is still in the array *)

#[local] Existing Instance example_libc.
#[local] Existing Instance example_inet.
#[local] Existing Instance example_inet_laws.
#[local] Existing Instance interrupted_output.
#[local] Existing Instance interrupted_output_laws.
#[local] Existing Instance script_kernel.
#[local] Existing Instance script_kernel_laws.
#[local] Existing Instance listed_map.
#[local] Existing Instance listed_map_laws.

Definition stale_env : ScriptEnv :=
  mkScriptEnv 0 0 20 [] [mkWait 1000000000 [7] [(EPOLLIN, 1)]; mkWait 1001000000 [7; 8] [(EPOLLOUT, 5)]].
Definition stale_io : Script := mkScript [SError ECONNRESET].

Definition stale_reached : ExampleWorld :=
  Eval vm_compute in end_of delay_start
    ((_ ← start_loop delay_config; run_rounds delay_config 2) (initial_world stale_io stale_env 0%nat)).
Definition stale_ended : ExampleWorld :=
  Eval vm_compute in end_of delay_start (dispatch_all delay_config [(EPOLLIN, 4)] stale_reached).
Definition stale_accepted : ExampleWorld :=
  Eval vm_compute in end_of delay_start (dispatch_all delay_config [(EPOLLIN, 1)] stale_ended).

Definition stale_third : Connection :=
  Eval vm_compute in the_connection (connections_ (pw_runtime stale_accepted) !! 3).

Lemma stale_events_harmless_witness :
  connections stale_accepted !! 3 = Some stale_third
  ∧ dispatch delay_config EPOLLIN 5 stale_accepted = Ok (false, stale_accepted)
  ∧ ∃ s2, dispatch delay_config EPOLLOUT 7 stale_accepted = Ok (false, s2)
      ∧ connections s2 !! 3 = Some stale_third.
Proof.
  destruct (stale_events_harmless delay_config 2 stale_io stale_env 0%nat [(EPOLLIN, 4)] stale_ended
    [(EPOLLIN, 1)] stale_accepted) as (Hstale & _ & Hothers).
  - split_and!; [apply delay_launchable|reflexivity|by vm_compute].
  - exists stale_reached. split; vm_compute; reflexivity.
  - vm_compute. reflexivity.
  - assert (Hthird : connections stale_accepted !! 3 = Some stale_third) by (vm_compute; reflexivity).
    split; [exact Hthird|]. split.
    + apply (Hstale 1 Upstream EPOLLIN); [vm_compute; split; [discriminate|reflexivity]|vm_compute; reflexivity].
    + assert (Hd : ∃ s2, dispatch delay_config EPOLLOUT 7 stale_accepted = Ok (false, s2)) by (eexists; vm_compute; reflexivity).
      destruct Hd as [s2 Hd]. exists s2. split; [exact Hd|].
      apply (Hothers EPOLLOUT 7 false s2 3 stale_third Hd); [|exact Hthird].
      intros (b & Hb & Hid). vm_compute in Hb. injection Hb as <-. discriminate Hid.
Defined.
