(* ===== verification/PipeService.v ===== *)
(** * What the proxy is: a table of pairs of bounded pipes

    The abstract specification of the forwarding service, without sockets,
    clocks, buffers, faults or timers. A session is a pair of byte pipes; what is
    received from a side enters one pipe, up to a bound, what is sent to the
    other side leaves it, and the writes to a side can be shut down once, when
    nothing is left to send. [service_run] is the automaton that accepts the
    histories of this service. PipeRefinement.v shows that the histories of the
    event loop are accepted, with the table of the loop as the final state. *)

From Stdlib Require Import ZArith Lia Init.Byte.
From stdpp Require Import base numbers list option gmap.
From S2P Require Import Prelude SocketIo Relay RelayFacts Proxy.

Local Open Scope Z_scope.

#[local] Instance byte_dec : EqDecision byte := Byte.byte_eq_dec.

(** ** One pipe *)

(** [q] without its prefix [bs], if it has it. *)
Definition without_prefix (bs q : list byte) : option (list byte) :=
  if bool_decide (take (length bs) q = bs) then Some (drop (length bs) q) else None.

Definition push (cap : Z) (bs q : list byte) : option (list byte) :=
  if Z.of_nat (length (q ++ bs)) <=? cap then Some (q ++ bs) else None.

Definition pipe_step (cap : Z) (q : list byte) (x : Transfer) : option (list byte) :=
  match x with
  | Received bs => push cap bs q
  | Sent bs => without_prefix bs q
  end.

Fixpoint pipe_run (cap : Z) (q : list byte) (xs : list Transfer) : option (list byte) :=
  match xs with
  | [] => Some q
  | x :: xs => q ← pipe_step cap q x; pipe_run cap q xs
  end.

(** ** Sessions and the service *)

(** [pipe s]: the bytes received from [s] that have not been sent on yet. [shut
    s]: nothing more is sent to [s]. *)
Record Session := mkSession {
  from_client : list byte;
  from_upstream : list byte;
  client_shut : bool;
  upstream_shut : bool;
}.

Definition new_session : Session := mkSession [] [] false false.

Definition pipe (s : Side) (st : Session) : list byte :=
  match s with Client => from_client st | Upstream => from_upstream st end.
Definition shut (s : Side) (st : Session) : bool :=
  match s with Client => client_shut st | Upstream => upstream_shut st end.
Definition set_pipe (s : Side) (q : list byte) (st : Session) : Session :=
  match s with
  | Client => mkSession q (from_upstream st) (client_shut st) (upstream_shut st)
  | Upstream => mkSession (from_client st) q (client_shut st) (upstream_shut st)
  end.
Definition set_shut (s : Side) (st : Session) : Session :=
  match s with
  | Client => mkSession (from_client st) (from_upstream st) true (upstream_shut st)
  | Upstream => mkSession (from_client st) (from_upstream st) (client_shut st) true
  end.

(** A session may be [lossy] towards the client: the writes to it are shut down
    while bytes are left, and the upstream is still read. *)
Definition graceful (lossy : bool) (s : Side) : bool := negb lossy || bool_decide (s = Upstream).

Definition session_step (cap : Z) (lossy : bool) (st : Session) (op : WireOp) : option Session :=
  match op with
  | WireIn s bs =>
      if shut (other s) st && graceful lossy (other s) then None
      else q ← pipe_step cap (pipe s st) (Received bs); Some (set_pipe s q st)
  | WireOut s bs =>
      if shut s st then None
      else q ← pipe_step cap (pipe (other s) st) (Sent bs); Some (set_pipe (other s) q st)
  | WireShutdown s =>
      if shut s st || graceful lossy s && negb (bool_decide (pipe (other s) st = [])) then None
      else Some (set_shut s st)
  end.

Fixpoint session_run (cap : Z) (lossy : bool) (st : Session) (ops : list WireOp) : option Session :=
  match ops with
  | [] => Some st
  | op :: ops => st ← session_step cap lossy st op; session_run cap lossy st ops
  end.

Definition service_step (cap : Z) (lossy : Z → bool) (table : gmap Z Session) (e : PipeEvent)
    : option (gmap Z Session) :=
  match e with
  | Opened id => match table !! id with None => Some (<[id := new_session]> table) | Some _ => None end
  | Moved id op => st ← table !! id; st ← session_step cap (lossy id) st op; Some (<[id := st]> table)
  | Ended id => match table !! id with Some _ => Some (delete id table) | None => None end
  end.

Fixpoint service_run (cap : Z) (lossy : Z → bool) (table : gmap Z Session) (history : list PipeEvent)
    : option (gmap Z Session) :=
  match history with
  | [] => Some table
  | e :: history => table ← service_step cap lossy table e; service_run cap lossy table history
  end.

(** The operations of one session in a history. *)
Definition ops_of (id : Z) (history : list PipeEvent) : list WireOp :=
  omap (λ e, match e with Moved i op => if decide (i = id) then Some op else None | _ => None end) history.

(** ** Runs *)

Lemma option_bind_Some {A B} (o : option A) (f : A → option B) b :
  o ≫= f = Some b → ∃ a, o = Some a ∧ f a = Some b.
Proof. destruct o as [a|]; [|done]. eauto. Qed.

Lemma service_run_app cap lossy table h1 h2 :
  service_run cap lossy table (h1 ++ h2) = service_run cap lossy table h1 ≫= λ t, service_run cap lossy t h2.
Proof. revert table. induction h1 as [|e h1 IH]; intros table; [done|]. cbn. by destruct (service_step _ _ _ e); cbn. Qed.

(** A batch of operations of one session. *)
Lemma service_run_moved cap lossy table id st ops st' :
  table !! id = Some st → session_run cap (lossy id) st ops = Some st' →
  service_run cap lossy table (map (Moved id) ops) = Some (<[id := st']> table).
Proof.
  revert table st. induction ops as [|op ops IH]; intros table st Hst; cbn [session_run map service_run].
  - intros [= <-]. by rewrite insert_id.
  - intros (st1 & Hop & Hrun)%option_bind_Some. cbn [service_step]. rewrite Hst. cbn. rewrite Hop. cbn.
    rewrite (IH _ st1); [by rewrite insert_insert_eq|apply lookup_insert_eq|done].
Qed.

(** ** What a pipe guarantees *)

Lemma without_prefix_app bs q : without_prefix bs (bs ++ q) = Some q.
Proof.
  unfold without_prefix. rewrite take_app_length, drop_app_length. by rewrite bool_decide_true.
Qed.

Lemma without_prefix_Some bs q q' : without_prefix bs q = Some q' → q = bs ++ q'.
Proof.
  unfold without_prefix. case_bool_decide as Hbs; [|done]. intros [= <-].
  rewrite <-Hbs at 1. by rewrite take_drop.
Qed.

Lemma pipe_run_app cap q xs ys : pipe_run cap q (xs ++ ys) = pipe_run cap q xs ≫= λ q, pipe_run cap q ys.
Proof. revert q. induction xs as [|x xs IH]; intros q; [done|]. cbn. by destruct (pipe_step cap q x); cbn. Qed.

(** First in, first out, never more than the bound. *)
Lemma pipe_run_bytes cap q xs q' :
  pipe_run cap q xs = Some q' →
  q ++ (xs ≫= received_bytes) = (xs ≫= sent_bytes) ++ q'
  ∧ (Z.of_nat (length q) ≤ cap → Z.of_nat (length q') ≤ cap).
Proof.
  revert q. induction xs as [|x xs IH]; intros q; cbn [pipe_run].
  { intros [= <-]. by rewrite app_nil_r. }
  intros (q1 & Hx & Hrun)%option_bind_Some. destruct (IH _ Hrun) as [Hb Hl].
  destruct x as [bs|bs]; cbn in *.
  - unfold push in Hx. destruct (Z.leb_spec (Z.of_nat (length (q ++ bs))) cap); [|done]. injection Hx as <-.
    rewrite <-app_assoc in Hb. split; [done|]. intros _. by apply Hl.
  - apply without_prefix_Some in Hx as ->. rewrite <-!app_assoc, Hb. split; [done|].
    rewrite length_app. intros. apply Hl. lia.
Qed.

(** ** What a session guarantees *)

Lemma pipe_set_pipe s s' q st : pipe s (set_pipe s' q st) = if decide (s = s') then q else pipe s st.
Proof. by destruct s, s'. Qed.
Lemma shut_set_pipe s s' q st : shut s (set_pipe s' q st) = shut s st.
Proof. by destruct s, s'. Qed.
Lemma pipe_set_shut s s' st : pipe s (set_shut s' st) = pipe s st.
Proof. by destruct s, s'. Qed.
Lemma shut_set_shut s s' st : shut s (set_shut s' st) = bool_decide (s = s') || shut s st.
Proof. by destruct s, s'. Qed.

(** The run of a session is, for each side, the run of its pipe. *)
Lemma session_step_pipe cap lossy st op st' s :
  session_step cap lossy st op = Some st' → pipe_run cap (pipe s st) (op_transfer s op) = Some (pipe s st').
Proof.
  destruct op as [s' bs|s' bs|s']; cbn [session_step op_transfer].
  - destruct (_ && _); [done|]. intros (q & Hq & [= <-])%option_bind_Some. rewrite pipe_set_pipe.
    case_decide; subst; cbn in *; by rewrite ?Hq.
  - destruct (shut s' st); [done|]. intros (q & Hq & [= <-])%option_bind_Some. rewrite pipe_set_pipe.
    destruct (decide (other s = s')) as [<-|Hne].
    + rewrite decide_True by (by destruct s). replace (other (other s)) with s in Hq by (by destruct s).
      cbn in *. by rewrite Hq.
    + rewrite decide_False; [done|]. intros ->. by destruct s'.
  - destruct (_ || _); [done|]. intros [= <-]. by rewrite pipe_set_shut.
Qed.

Lemma session_run_pipe cap lossy st ops st' s :
  session_run cap lossy st ops = Some st' → pipe_run cap (pipe s st) (transfers s ops) = Some (pipe s st').
Proof.
  revert st. induction ops as [|op ops IH]; intros st; cbn [session_run]; [by intros [= <-]|].
  intros (st1 & Hop & Hrun)%option_bind_Some. unfold transfers in *. cbn.
  rewrite pipe_run_app, (session_step_pipe _ _ _ _ _ _ Hop). cbn. by apply IH.
Qed.

Lemma session_run_app cap lossy st a b :
  session_run cap lossy st (a ++ b) = session_run cap lossy st a ≫= λ st, session_run cap lossy st b.
Proof. revert st. induction a as [|x a IH]; intros st; [done|]. cbn. by destruct (session_step _ _ _ x); cbn. Qed.

(** Nothing is sent to a side that has been shut down. *)
Lemma session_run_shut cap lossy st ops st' s :
  session_run cap lossy st ops = Some st' → shut s st = true →
  wire_out s ops = [] ∧ (WireShutdown s ∉ ops) ∧ (graceful lossy s = true → wire_in (other s) ops = []).
Proof.
  revert st. induction ops as [|op ops IH]; intros st; cbn [session_run].
  { intros _ _. split_and!; [done|apply not_elem_of_nil|done]. }
  intros (st1 & Hop & Hrun)%option_bind_Some Hs.
  assert (Hs1 : shut s st1 = true).
  { destruct op as [s' bs|s' bs|s']; cbn [session_step] in Hop.
    - destruct (_ && _); [done|]. apply option_bind_Some in Hop as (q & _ & [= <-]). by rewrite shut_set_pipe.
    - destruct (shut s' st); [done|]. apply option_bind_Some in Hop as (q & _ & [= <-]). by rewrite shut_set_pipe.
    - destruct (_ || _); [done|]. injection Hop as <-. rewrite shut_set_shut, Hs. apply orb_true_r. }
  destruct (IH _ Hrun Hs1) as (Hout & Hno & Hin). unfold wire_out, wire_in in *. cbn. rewrite Hout.
  destruct op as [s' bs|s' bs|s']; cbn [session_step] in Hop.
  - split_and!; [done|by intros [?|?]%elem_of_cons|]. intros Hg. rewrite (Hin Hg). case_decide as Hos; [|done].
    subst s'. replace (other (other s)) with s in Hop by (by destruct s). by rewrite Hs, Hg in Hop.
  - case_decide; [subst; by rewrite Hs in Hop|]. split_and!; [done|by intros [?|?]%elem_of_cons|auto].
  - split_and!; [done| |auto]. intros [[= <-]|?]%elem_of_cons; [|done]. by rewrite Hs in Hop.
Qed.

(** A session from its beginning: each stream arrives as it was sent, with a
    bounded rest under way, and a shutdown that is not lossy comes at the end. *)
Lemma session_integrity cap lossy ops st s :
  0 ≤ cap → session_run cap lossy new_session ops = Some st →
  wire_in s ops = wire_out (other s) ops ++ pipe s st
  ∧ Z.of_nat (length (pipe s st)) ≤ cap
  ∧ ∀ pre post, ops = pre ++ WireShutdown s :: post →
      wire_out s post = [] ∧ (graceful lossy s = true → wire_out s pre = wire_in (other s) ops).
Proof.
  intros Hcap Hrun. pose proof (session_run_pipe _ _ _ _ _ s Hrun) as Hp.
  apply pipe_run_bytes in Hp as [Hb Hl]. rewrite transfers_in, transfers_out in Hb.
  assert (Hnew : pipe s new_session = []) by (by destruct s). rewrite Hnew in *.
  split_and!; [done|apply Hl; cbn; lia|]. intros pre post ->. rewrite session_run_app in Hrun.
  apply option_bind_Some in Hrun as (st1 & Hpre & Hpost). cbn [session_run] in Hpost.
  apply option_bind_Some in Hpost as (st2 & Hs & Hpost). cbn [session_step] in Hs.
  destruct (shut s st1 || _) eqn:Hcond; [done|]. injection Hs as <-.
  apply orb_false_iff in Hcond as [_ Hcond].
  assert (Hshut : shut s (set_shut s st1) = true) by (rewrite shut_set_shut; by destruct s).
  destruct (session_run_shut _ _ _ _ _ s Hpost Hshut) as (Hout & _ & Hin). split; [done|]. intros Hg.
  rewrite Hg in Hcond. cbn in Hcond. apply negb_false_iff, bool_decide_eq_true in Hcond.
  pose proof (session_run_pipe _ _ _ _ _ (other s) Hpre) as Hp.
  apply pipe_run_bytes in Hp as [Hb' _]. rewrite transfers_in, transfers_out, Hcond, app_nil_r in Hb'.
  replace (pipe (other s) new_session) with (@nil byte) in Hb' by (by destruct s).
  replace (other (other s)) with s in Hb' by (by destruct s).
  change (WireShutdown s :: post) with ([WireShutdown s] ++ post).
  rewrite !wire_in_app, (Hin Hg). cbn in *. by rewrite app_nil_r, Hb'.
Qed.

(** ** What the service guarantees *)

(** Between its opening and its end a session only sees its own operations. *)
Lemma service_run_session cap lossy table h table' id st :
  service_run cap lossy table h = Some table' → table !! id = Some st → Ended id ∉ h →
  ∃ st', table' !! id = Some st' ∧ session_run cap (lossy id) st (ops_of id h) = Some st'.
Proof.
  revert table st. induction h as [|e h IH]; intros table st; cbn [service_run].
  { intros [= <-]. eauto. }
  intros (t1 & He & Hrun)%option_bind_Some Hst [Hne Hno]%not_elem_of_cons.
  destruct e as [i|i op|i]; cbn [service_step] in He.
  - destruct (table !! i) eqn:Hi; [done|]. injection He as <-. unfold ops_of. cbn. eapply IH; [done| |done].
    rewrite lookup_insert_ne by congruence. done.
  - apply option_bind_Some in He as (sti & Hi & He). apply option_bind_Some in He as (st1 & Hop & [= <-]).
    unfold ops_of. cbn. case_decide as Heq.
    + subst i. rewrite Hst in Hi. injection Hi as <-. cbn [session_run]. rewrite Hop. cbn.
      eapply IH; [done|apply lookup_insert_eq|done].
    + eapply IH; [done|by rewrite lookup_insert_ne|done].
  - destruct (table !! i); [|done]. injection He as <-. unfold ops_of. cbn. eapply IH; [done| |done].
    rewrite lookup_delete_ne by congruence. done.
Qed.

(** A part of a history that starts when a session is opened and in which it
    does not end. *)
Definition session_part (id : Z) (part history : list PipeEvent) : Prop :=
  (∃ before after, history = before ++ Opened id :: part ++ after) ∧ Ended id ∉ part.

Lemma service_integrity cap lossy history table id part s :
  0 ≤ cap → service_run cap lossy ∅ history = Some table → session_part id part history →
  let ops := ops_of id part in
  ∃ rest, wire_in s ops = wire_out (other s) ops ++ rest ∧ Z.of_nat (length rest) ≤ cap
    ∧ ∀ pre post, ops = pre ++ WireShutdown s :: post →
        wire_out s post = [] ∧ (graceful (lossy id) s = true → wire_out s pre = wire_in (other s) ops).
Proof.
  intros Hcap Hrun [(before & after & ->) Hno] ops. rewrite service_run_app in Hrun.
  apply option_bind_Some in Hrun as (t1 & _ & Hrun). cbn [service_run] in Hrun.
  apply option_bind_Some in Hrun as (t2 & Ho & Hrun). cbn [service_step] in Ho.
  destruct (t1 !! id); [done|]. injection Ho as <-. rewrite service_run_app in Hrun.
  apply option_bind_Some in Hrun as (t3 & Hrun & _).
  destruct (service_run_session _ _ _ _ _ id new_session Hrun) as (st & _ & Hst); [apply lookup_insert_eq|done|].
  exists (pipe s st). by apply session_integrity.
Qed.
