(* ===== verification/PipeRefinement.v ===== *)
(** * The event loop implements the table of pipes

    A simulation: through every step of the loop the history recorded so far is
    accepted by the abstract service of PipeService.v, whose table is the
    connection table with every connection reduced to what is queued in its
    relay and to which sides it has shut down. *)

From Stdlib Require Import ZArith Lia Init.Byte Ascii String Sorted.
From stdpp Require Import base numbers list option strings pretty gmap.
From S2P Require Import Prelude Text Endpoint ByteQueue Backpressure DelayLine TokenBucket.
From S2P Require Import FaultRng FaultPlan.
From S2P Require Import ConnectionState TimerQueue SocketIo Relay RelayDirection RelayFacts.
From S2P Require Import RelayQueries RelayRun RelaySpec.
From S2P Require Import Logger RelayReport ProxyConfig Proxy ProxyLoop ProxyWalk ProxyInv.
From S2P Require Import ProxyFacts ProxyEvents ProxyAccept ProxyRun ProxyScript ProxySpec.
From S2P Require Import PipeService.

Local Open Scope Z_scope.

(** ** One direction of a relay is a pipe *)

Lemma dir_step_pipe d e d' :
  dir_inv d → dir_step d e d' →
  pipe_run (high_water_bytes_ (backpressure d)) (contents (queue d)) (event_transfer e) = Some (contents (queue d')).
Proof.
  intros I Hs. destruct e as [now|bs now|bs now].
  - inversion Hs; subst. cbn. by rewrite queue_refill.
  - inversion Hs as [|? ? ? ? _ _ Hl Hh Hr|]; subst. cbn.
    pose proof (dir_read_ok d bs now I Hl Hh) as Hok. rewrite Hr in Hok. destruct Hok as (_ & _ & Hc & _).
    unfold push. pose proof (length_contents _ (dv_queue _ I)) as HL. rewrite length_app.
    destruct (Z.leb_spec (Z.of_nat (length (contents (queue d)) + length bs)) (high_water_bytes_ (backpressure d))); [|lia].
    cbn. by rewrite Hc.
  - destruct (dir_step_write_ok d bs now d' I Hs) as (n & _ & _ & Hbs & Hc & _). cbn.
    rewrite <-(take_drop (Z.to_nat n) (contents (queue d))), <-Hbs, <-Hc, without_prefix_app. done.
Qed.

Lemma dir_steps_pipe d es d' :
  dir_inv d → lsteps dir_step d es d' →
  pipe_run (high_water_bytes_ (backpressure d)) (contents (queue d)) (dir_transfers es) = Some (contents (queue d')).
Proof.
  intros I Hs. induction Hs as [|d e d1 es d' Hs _ IH]; [done|].
  destruct (dir_step_ok d e d1 I Hs) as [I1 Hst%dir_static_high]. unfold dir_transfers in *. cbn.
  rewrite pipe_run_app, (dir_step_pipe _ _ _ I Hs). cbn. rewrite <-Hst. auto.
Qed.

(** ** A relay is a session *)

Definition session_of (r : Relay) : Session :=
  mkSession (contents (queue (client_to_upstream_ r))) (contents (queue (upstream_to_client_ r)))
    (negb (client_write_open_ r)) (negb (upstream_write_open_ r)).

Lemma pipe_session_of s r : pipe s (session_of r) = contents (queue (direction_from s r)).
Proof. by destruct s. Qed.
Lemma shut_session_of s r : shut s (session_of r) = negb (write_open s r).
Proof. by destruct s. Qed.

Lemma session_ext st st' : (∀ s, pipe s st = pipe s st') → (∀ s, shut s st = shut s st') → st = st'.
Proof.
  intros Hp Hs. destruct st, st'. pose proof (Hp Client). pose proof (Hp Upstream). pose proof (Hs Client).
  pose proof (Hs Upstream). cbn in *. congruence.
Qed.

(** What the order of shutdowns asks of the next operation. *)
Lemma wire_ok_next inj wire op post :
  wire_ok inj (wire ++ op :: post) →
  match op with
  | WireIn s _ => s = Client ∨ inj = false → WireShutdown (other s) ∉ wire
  | WireOut s _ | WireShutdown s => WireShutdown s ∉ wire
  end.
Proof.
  induction post as [|x post IH] using rev_ind.
  - inversion 1 as [Hn|? ? ? ? ? Heq|? ? ? ? ? Heq|? ? ? ? Heq]; [by destruct wire|..];
      apply app_inj_tail in Heq as [-> <-]; done.
  - intros Hok. apply IH. rewrite app_comm_cons, app_assoc in Hok.
    inversion Hok as [Hn|? ? ? ? ? Heq|? ? ? ? ? Heq|? ? ? ? Heq]; [by destruct (wire ++ op :: post)|..];
      by apply app_inj_tail in Heq as [-> _].
Qed.

(** A session runs when its pipes do and its shutdowns are in order. *)
Lemma session_run_intro cap lossy st ops pre (rest : Side → list byte) :
  (∀ s, pipe_run cap (pipe s st) (transfers s ops) = Some (rest s)) →
  wire_ok lossy (pre ++ ops) → (∀ s, shut s st = true ↔ WireShutdown s ∈ pre) →
  (∀ s, WireShutdown s ∈ ops → graceful lossy s = true → rest (other s) = []) →
  ∃ st', session_run cap lossy st ops = Some st' ∧ (∀ s, pipe s st' = rest s)
    ∧ (∀ s, shut s st' = true ↔ WireShutdown s ∈ pre ++ ops).
Proof.
  revert st pre. induction ops as [|op ops IH]; intros st pre Hp Hok Hs Hend.
  { exists st. rewrite app_nil_r. split_and!; [done| |done]. intros s. specialize (Hp s). by injection Hp. }
  pose proof (wire_ok_next _ _ _ _ Hok) as Hnext.
  assert (Hcat : pre ++ op :: ops = (pre ++ [op]) ++ ops) by (by rewrite <-app_assoc).
  assert (Hclosed : ∀ s, WireShutdown s ∉ pre → shut s st = false)
    by (intros s Hno; apply not_true_is_false; by rewrite Hs).
  assert (Hstep : ∃ st1, session_step cap lossy st op = Some st1
    ∧ (∀ s, pipe_run cap (pipe s st1) (transfers s ops) = Some (rest s))
    ∧ (∀ s, shut s st1 = true ↔ WireShutdown s ∈ pre ++ [op])).
  { unfold transfers in *. destruct op as [s bs|s bs|s]; cbn [session_step].
    - pose proof (Hp s) as Hps. cbn in Hps. rewrite decide_True in Hps by done.
      apply option_bind_Some in Hps as (q & Hq & Hps). rewrite Hq.
      assert (Hcond : shut (other s) st && graceful lossy (other s) = false).
      { destruct (graceful lossy (other s)) eqn:Hg; [rewrite andb_true_r|apply andb_false_r]. apply Hclosed, Hnext.
        unfold graceful in Hg. destruct lossy; [left|by right]. destruct s; by try discriminate Hg. }
      rewrite Hcond. cbn. eexists. split_and!; [done| |].
      + intros s'. rewrite pipe_set_pipe. specialize (Hp s'). cbn in Hp. destruct (decide (s' = s)) as [->|]; done.
      + intros s'. rewrite shut_set_pipe, Hs, elem_of_app, list_elem_of_singleton. split; [by left|by intros [?|?]].
    - pose proof (Hp (other s)) as Hps. cbn in Hps. rewrite decide_True in Hps by (by destruct s).
      apply option_bind_Some in Hps as (q & Hq & Hps). rewrite Hq, (Hclosed _ Hnext). cbn.
      eexists. split_and!; [done| |].
      + intros s'. rewrite pipe_set_pipe. specialize (Hp s'). cbn in Hp.
        destruct (decide (s' = other s)) as [->|Hne]; [done|]. rewrite decide_False in Hp; [done|].
        intros <-. by destruct s'.
      + intros s'. rewrite shut_set_pipe, Hs, elem_of_app, list_elem_of_singleton. split; [by left|by intros [?|?]].
    - rewrite (Hclosed _ Hnext). cbn.
      assert (Hcond : graceful lossy s && negb (bool_decide (pipe (other s) st = [])) = false).
      { destruct (graceful lossy s) eqn:Hg; [|done]. apply negb_false_iff, bool_decide_eq_true.
        destruct (wire_ok_after _ _ _ _ _ Hok eq_refl) as (Hout & _ & Hin).
        specialize (Hp (other s)). cbn in Hp. apply pipe_run_bytes in Hp as [Hb _].
        change (ops ≫= op_transfer (other s)) with (transfers (other s) ops) in Hb.
        rewrite transfers_in, transfers_out, Hend in Hb; [|left|done].
        replace (other (other s)) with s in Hb by (by destruct s). rewrite Hout in Hb. by apply app_nil in Hb as [? _]. }
      rewrite Hcond. eexists. split_and!; [done| |].
      + intros s'. rewrite pipe_set_shut. apply Hp.
      + intros s'. rewrite shut_set_shut, elem_of_app, list_elem_of_singleton, orb_true_iff, bool_decide_eq_true, Hs.
        split; [intros [->|?]; auto|intros [?|[= ->]]; auto]. }
  destruct Hstep as (st1 & Hstep & Hp1 & Hs1). cbn [session_run]. rewrite Hstep, Hcat. cbn.
  apply (IH st1); [done|by rewrite <-Hcat|done|]. intros s Hin. apply Hend. by right.
Qed.

(** The world of a relay before and after one of its methods. *)
Lemma relay_session {W} cap now (w w' : World W) ops :
  winv w → winv w' → w_wire w' = w_wire w ++ ops → evolves_by now ops (w_relay w) (w_relay w') →
  (∀ s, high_water_bytes_ (backpressure (direction_from s (w_relay w))) = cap) →
  session_run cap (0 <? half_close_after_bytes_ (w_relay w)) (session_of (w_relay w)) ops
    = Some (session_of (w_relay w')).
Proof.
  intros I I' Hw [Hst Hd _ _] Hcap. assert (Hhalf : half_close_after_bytes_ (w_relay w') = half_close_after_bytes_ (w_relay w)).
  { unfold relay_static in Hst. by injection Hst. }
  destruct (session_run_intro cap (0 <? half_close_after_bytes_ (w_relay w)) (session_of (w_relay w)) ops (w_wire w)
    (λ s, contents (queue (direction_from s (w_relay w'))))) as (st' & Hrun & Hp & Hs).
  - intros s. destruct (Hd s) as (es & Hsteps & _ & ->). rewrite pipe_session_of, <-(Hcap s).
    apply dir_steps_pipe; [apply (ri_dir _ _ I)|done].
  - rewrite <-Hw, <-Hhalf. apply (ri_wire _ _ I').
  - intros s. rewrite shut_session_of, negb_true_iff. by rewrite (ri_shut _ _ I).
  - intros s Hin Hg. assert (Ho : write_open s (w_relay w') = false).
    { apply (ri_shut _ _ I'). rewrite Hw. apply elem_of_app. by right. }
    destruct s; [|by apply (ri_upstream _ _ I')]. destruct (ri_client _ _ I' Ho) as [Hi|[_ Hc]]; [|done].
    apply (ri_injected _ _ I') in Hi. rewrite Hhalf in Hi. unfold graceful in Hg.
    destruct (Z.ltb_spec 0 (half_close_after_bytes_ (w_relay w))); [done|lia].
  - rewrite Hrun. f_equal. apply session_ext; intros s.
    + by rewrite Hp, pipe_session_of.
    + apply eq_true_iff_eq. rewrite Hs, shut_session_of, negb_true_iff, <-Hw. apply (ri_shut _ _ I').
Qed.

(** ** The loop is the service *)

Section refinement.
#[local] Set Default Proof Using "Type*".
Context {W E Out : Type} `{SocketIoLaws W} `{KernelLaws E} `{OutputLaws Out}.
Context `{Libc} `{Inet} `{UnorderedMapLaws} (config : ProxyConfig).
Hypothesis Htyped : config_typed config.
Hypothesis Hvalid : valid_proxy_config config.

Abbreviation PW := (ProxyWorld W E Out).
Abbreviation PM := (M PW).
Implicit Types (s : PW).

(** The sessions whose connection may be half-closed early. *)
Definition lossy_session (id : Z) : bool := 0 <? half_close_after_bytes (plan_for config id).

Definition sessions s : gmap Z Session := session_of ∘ relay <$> connections s.

Record carried (id : Z) (c : Connection) : Prop := mkCarried {
  ca_inv : relay_inv (relay c) (conn_traffic c).*2;
  ca_high x : high_water_bytes_ (backpressure (direction_from x (relay c))) = pc_high_water_bytes config;
  ca_half : half_close_after_bytes_ (relay c) = half_close_after_bytes (plan_for config id);
}.

(** The simulation relation: the service has accepted the history, and its
    table is the sessions of the connections. *)
Definition simulated s : Prop :=
  service_run (pc_high_water_bytes config) lossy_session ∅ (pw_history s) = Some (sessions s)
  ∧ map_Forall carried (connections s).

Definition simulates {A} (m : PM A) : Prop := ∀ s a s', simulated s → m s = Ok (a, s') → simulated s'.

(** Steps that change neither the table nor the history. *)
Lemma simulates_same {A} (m : PM A) :
  (∀ s a s', m s = Ok (a, s') → pw_history s' = pw_history s ∧ connections s' = connections s) → simulates m.
Proof.
  intros Hm s a s' [Hr Hc] Hs. destruct (Hm _ _ _ Hs) as [Hh Hcs]. unfold simulated, sessions. by rewrite Hh, Hcs.
Qed.

Lemma simulates_bind {A B} (m : PM A) (f : A → PM B) :
  simulates m → (∀ a, simulates (f a)) → simulates (m ≫= f).
Proof.
  intros Hm Hf s b s' Hs. unfold mbind, M_bind. destruct (m s) as [[a s1]| | |] eqn:E1; try done. intros Hrest.
  exact (Hf a _ _ _ (Hm _ _ _ Hs E1) Hrest).
Qed.

Lemma simulates_sys c : simulates (sys c).
Proof. apply simulates_same. intros s r s'. unfold sys. destruct (syscall _ _). by intros [= <- <-]. Qed.

Lemma simulates_write_log now record : simulates (write_log now record).
Proof.
  apply simulates_same. unfold write_log. intros s a s'. destruct (Logger.event _ _ _ _ _ _ _) as [[l o]| | |]; try done.
  by intros [= <- <-].
Qed.

Lemma simulates_forward_events id events : simulates (forward_events id events).
Proof.
  induction events as [|e events IH]; cbn [forward_events]; [apply simulates_same; by intros s a s' [= <- <-]|].
  apply simulates_bind; [|done]. unfold log_event. apply simulates_bind; [apply simulates_sys|].
  intros r. apply simulates_write_log.
Qed.

(** Another connection in the place of [id]. *)
Lemma simulated_update s s' id c c' :
  simulated s → connections s !! id = Some c → connections s' = <[id := c']> (connections s) →
  carried id c' → pw_history s' = pw_history s → session_of (relay c') = session_of (relay c) → simulated s'.
Proof.
  intros [Hr Hc] Hid Hcs Hc' Hh Hses. unfold simulated, sessions. rewrite Hh, Hcs. split.
  - rewrite Hr, fmap_insert. cbn. rewrite Hses, insert_id; [done|]. unfold sessions. by rewrite lookup_fmap, Hid.
  - by apply map_Forall_insert_2.
Qed.

(** A method that keeps the relay's invariant is a batch of operations of the
    session. *)
Lemma simulates_on_relay {A} id now (method : M (World W) A) :
  (∀ w, winv w → keeps now method w (λ _ _, True)) → simulates (on_relay id now method).
Proof.
  intros Hm s a s' [Hr Hc]. unfold on_relay, connection_at. unfold mbind at 1, M_bind at 1.
  destruct (connections_ (pw_runtime s) !! id) as [c|] eqn:Hid; [|done].
  destruct (Hc id c Hid) as [Hinv Hhigh Hhalf]. unfold mbind at 1, M_bind at 1, run_relay.
  set (w := mkWorld (relay c) (pw_io s) [] (conn_traffic c).*2).
  pose proof (Hm w Hinv) as Hk. apply runs_inv in Hk as (x & w' & Hrun & Hinv' & Hev & _). rewrite Hrun. cbn.
  set (s1 := mkProxyWorld _ _ _ _ _ _ _). intros Hf.
  refine (simulates_bind (forward_events id (w_events w')) (λ _, mret x) _ _ s1 a s' _ Hf);
    [apply simulates_forward_events|intros _; apply simulates_same; by intros ? ? ? [= <- <-]|]. clear Hf.
  pose proof (conn_after_wire _ _ _ _ Hev) as Hwire. destruct Hev as (ops & Hw & Hev).
  assert (Hops : drop (length (conn_traffic c)) (w_wire w') = ops).
  { rewrite Hw. cbn. apply drop_app_length'. by rewrite length_fmap. }
  assert (Hses := relay_session (pc_high_water_bytes config) now w w' ops Hinv Hinv' Hw Hev Hhigh).
  cbn in Hses. rewrite Hhalf in Hses. fold (lossy_session id) in Hses. split.
  - unfold s1, sessions, connections. cbn. rewrite Hops, service_run_app. fold (connections s) (sessions s).
    rewrite Hr. cbn. rewrite (service_run_moved _ _ _ id (session_of (relay c)) ops (session_of (w_relay w'))); [|..|exact Hses].
    + by rewrite fmap_insert.
    + unfold sessions. rewrite lookup_fmap. unfold connections. by rewrite Hid.
  - unfold s1, connections. cbn. apply map_Forall_insert_2; [|done]. destruct Hev as [Hst Hd _ _].
    split; cbn [relay conn_traffic set_conn_relay].
    + change (relay_inv (w_relay w') (conn_traffic (conn_after now c w')).*2). by rewrite Hwire.
    + intros y. rewrite <-(Hhigh y). destruct (Hd y) as (es & Hsteps & _).
      apply dir_static_high. by apply (dir_steps_ok _ es); [apply (ri_dir _ _ Hinv)|].
    + rewrite <-Hhalf. unfold relay_static in Hst. by injection Hst.
Qed.

Lemma relay_method_keeps {A} now (method : M (World W) A) w :
  relay_method now A method → winv w → keeps now method w (λ _ _, True).
Proof.
  intros Hm Hi. destruct Hm; (eapply keeps_mono; [|done]).
  - by apply handle_readable_ok.
  - by apply flush_ok.
  - by apply propagate_half_closes_ok.
  - by apply mark_upstream_connected_ok.
  - by apply desired_interest_ok.
  - by apply next_wake_ok.
Qed.

(** A new connection is an empty session. *)
Lemma newly_made_carried id c : newly_made config id c → carried id c ∧ session_of (relay c) = new_session.
Proof.
  intros (Ht & client & upstream & connecting & now & Hr).
  destruct (plan_for_ok config Htyped Hvalid id) as [Hpt Hpv].
  pose proof (make_Relay_ok _ _ id client upstream connecting now (valid_relay_config _ Hvalid) Hpt Hpv) as Hok.
  rewrite Hr in Hok. destruct Hok as [[Hinv Hd _ Hh _] _]. split; [split|].
  - by rewrite Ht.
  - intros x. by destruct (Hd x).
  - done.
  - apply session_ext; intros x.
    + rewrite pipe_session_of. destruct (Hd x) as [_ -> _ _ _ _ _]. by destruct x.
    + rewrite shut_session_of. destruct (write_open x (relay c)) eqn:Ho; [by destruct x|].
      apply (ri_shut _ _ Hinv) in Ho. by apply not_elem_of_nil in Ho.
Qed.

#[local] Instance simulates_walk : LoopLogic config (@simulates).
Proof.
  split.
  - intros A a. apply simulates_same. by intros s x s' [= <- <-].
  - intros A B m f. apply simulates_bind.
  - intros A o. apply simulates_same. unfold lift. destruct o; cbn; intros s x s' Hx; by try injection Hx as <- <-.
  - intros A B o f Hf s b s'. unfold mbind, M_bind, lift. destruct o as [a| | |]; cbn; try done. by apply Hf.
  - intros A f. apply simulates_same. by intros s x s' [= <- <-].
  - intros A. by intros s x s'.
  - intros id. apply simulates_same. unfold connection_at. intros s x s'. by destruct (_ !! id); [intros [= <- <-]|].
  - apply simulates_write_log.
  - intros c _ _. apply simulates_sys.
  - intros f Hf. apply simulates_same. intros s x s' [= <- <-]. split; [done|apply Hf].
  - intros id f Hf s x s' Hs [= <- <-]. destruct (connections s !! id) as [c|] eqn:Hid.
    + destruct (Hf c) as [Hrel Htr]. eapply simulated_update with (c' := f c); try done.
      * unfold connections in *. cbn. by apply alter_Some.
      * destruct Hs as [_ Hc]. destruct (Hc id c Hid) as [? ? ?]. by split; rewrite ?Hrel, ?Htr.
      * by rewrite Hrel.
    + replace (set_runtime _ s) with s; [done|]. unfold connections in Hid. rewrite alter_id by (intros; congruence).
      by destruct s as [[] ? ? ? ? ? ?].
  - intros A id now method Hm. apply simulates_on_relay. intros w. by apply relay_method_keeps.
  - intros id c [Hc Hses]%newly_made_carried s x s' [Hr Hcs]. unfold emplace_connection.
    destruct (connections_ (pw_runtime s) !! id) eqn:Hid; intros [= <- <-]; [by split|]. split.
    + unfold sessions, connections. cbn. rewrite service_run_app, Hr. cbn. unfold sessions, connections.
      rewrite lookup_fmap, Hid. cbn. by rewrite fmap_insert, <-Hses.
    + unfold connections. cbn. by apply map_Forall_insert_2.
  - intros id s x s' [Hr Hcs]. unfold erase_connection.
    destruct (connections_ (pw_runtime s) !! id) eqn:Hid; intros [= <- <-]; [|by split]. split.
    + unfold sessions, connections. cbn. rewrite service_run_app, Hr. cbn. unfold sessions, connections.
      rewrite lookup_fmap, Hid. cbn. by rewrite fmap_delete.
    + unfold connections. cbn. by apply map_Forall_delete.
Qed.

Lemma simulated_start io env out : simulated (initial_world io env out).
Proof. split; [unfold sessions, connections; cbn; by rewrite fmap_empty|apply map_Forall_empty]. Qed.

Lemma simulates_rounds rounds : simulates (_ ← start_loop config; run_rounds config rounds).
Proof.
  apply (walk_started config (@simulates)). apply (walk_write_metrics_file config (@simulates)). apply simulates_sys.
Qed.

Lemma simulates_run rounds : simulates (run config rounds).
Proof.
  apply (walk_run config (@simulates)). apply (walk_write_metrics_file config (@simulates)). apply simulates_sys.
Qed.
End refinement.

Section theorem.
#[local] Set Default Proof Using "Type*".
Context {W E Out : Type} `{SocketIoLaws W} `{KernelLaws E} `{OutputLaws Out}.
Context `{Libc} `{InetLaws} `{UnorderedMapLaws} (config : ProxyConfig).

(** C2: the proxy is a table of bounded pipes. From every accepted configuration,
    for every behaviour of the kernel, the history of the connections (what was
    opened, received, sent, shut down and ended, in this order) is one of the
    abstract service, and what the service then holds is exactly what the
    connections hold. So for every connection there ever was, finished or not,
    each stream is sent on as it was received with at most a high-water mark
    under way; after a side is shut down nothing is sent to it; and unless early
    half-closes are configured everything received for it has been sent before. *)
Theorem proxy_refines_service rounds io env out (s : ProxyWorld W E Out) :
  config_typed config → check_config config = Ok tt →
  (∃ stopped, proxy_reached config rounds io env out stopped s)
  ∨ (∃ status, run config rounds (initial_world io env out) = Ok (status, s)) →
  let cap := pc_high_water_bytes config in
  service_run cap (lossy_session config) ∅ (pw_history s) = Some (sessions s)
  ∧ ∀ id part x, session_part id part (pw_history s) →
    let ops := ops_of id part in
    ∃ rest, wire_in x ops = wire_out (other x) ops ++ rest ∧ Z.of_nat (length rest) ≤ cap
      ∧ ∀ pre post, ops = pre ++ WireShutdown x :: post →
          wire_out x post = [] ∧ (graceful (lossy_session config id) x = true → wire_out x pre = wire_in (other x) ops).
Proof.
  intros Ht Hc Hreached cap. assert (Hv : valid_proxy_config config) by (by apply check_config_exactly).
  assert (Hsim : simulated config s).
  { destruct Hreached as [[stopped Hr]|[status Hr]].
    - by eapply (simulates_rounds config Ht Hv); [apply simulated_start|].
    - by eapply (simulates_run config Ht Hv); [apply simulated_start|]. }
  destruct Hsim as [Hrun _]. split; [done|]. intros id part x Hpart.
  eapply service_integrity; [|exact Hrun|done]. destruct (valid_relay_config _ Hv). cbn in *. unfold cap. lia.
Qed.
End theorem.

(** ** Example: the run of ProxySpec.v *)

#[local] Existing Instance example_libc.
#[local] Existing Instance example_inet.
#[local] Existing Instance example_inet_laws.
#[local] Existing Instance interrupted_output.
#[local] Existing Instance interrupted_output_laws.
#[local] Existing Instance script_kernel.
#[local] Existing Instance script_kernel_laws.
#[local] Existing Instance listed_map.
#[local] Existing Instance listed_map_laws.

Lemma proxy_refines_service_witness :
  service_run 1024 (lossy_session delay_config) ∅
    [Opened 1; Moved 1 (WireIn Client [x61; x62; x63]); Moved 1 (WireOut Upstream [x61; x62; x63]); Ended 1]
    = Some ∅
  ∧ ∃ rest, [x61; x62; x63] = [x61; x62; x63] ++ rest ∧ Z.of_nat (length rest) ≤ 1024.
Proof.
  assert (Hrun : run delay_config 5 (initial_world delay_io delay_env 0%nat) = Ok (Some 0, delay_stopped)).
  { vm_compute. reflexivity. }
  destruct (proxy_refines_service delay_config 5 delay_io delay_env 0%nat delay_stopped
    (proj1 delay_launchable) (proj1 (proj2 delay_launchable)) (or_intror (ex_intro _ (Some 0) Hrun))) as [Hservice Hsessions].
  split; [exact Hservice|].
  destruct (Hsessions 1 [Moved 1 (WireIn Client [x61; x62; x63]); Moved 1 (WireOut Upstream [x61; x62; x63])] Client)
    as (rest & Hrest & Hlen & _).
  - split; [exists [], [Ended 1]; reflexivity|]. by intros [?|[?|[]%elem_of_nil]%elem_of_cons]%elem_of_cons.
  - exists rest. split; [exact Hrest|exact Hlen].
Defined.
