(* ===== verification/ProxyCliSpec.v ===== *)
(** * What the command line guarantees

    The configuration that comes out of the arguments, and the theorems about
    the whole program, from the arguments to the exit status. *)

From Stdlib Require Import ZArith Lia Init.Byte Ascii String SpecFloat.
From stdpp Require Import base numbers list option strings pretty gmap.
From S2P Require Import Prelude Text CommandLine FloatText Endpoint ByteQueue Backpressure.
From S2P Require Import DelayLine.
From S2P Require Import TokenBucket FaultRng.
From S2P Require Import FaultPlan ConnectionState TimerQueue SocketIo Relay RelaySpec Logger.
From S2P Require Import RelayReport ProxyConfig.
From S2P Require Import Proxy ProxySetup ProxyLoop ProxyInv ProxySetupSpec ProxyEvents.
From S2P Require Import ProxyWalk ProxyTrace ProxyCli ProxyScript.
From S2P Require Import ProxySpec.

Local Open Scope Z_scope.

#[local] Ltac typed := let Hv := fresh in intros ? [] Hv []; split; cbn in *; by auto.

Lemma fmap_Ok {A B} (f : A → B) (o : outcome A) b : f <$> o = Ok b → ∃ a, o = Ok a ∧ b = f a.
Proof. destruct o; cbn; try done. intros [= <-]. eauto. Qed.

Section arguments.
Context `{Inet}.

(** *** Types *)

Definition cli_typed (st : CliState) : Prop := config_typed (cli_config st).

Lemma parse_size_typed text name v : parse_size text name = Ok v → is_u64 v.
Proof.
  unfold parse_size. destruct (from_chars _ _ _) as [[error value] end_] eqn:E.
  destruct (bool_decide_reflect (error ≠ NoError)) as [|He]; [done|].
  destruct (bool_decide_reflect (end_ ≠ "")) as [|Hn]; [done|]. intros [= <-].
  assert (error = NoError ∧ end_ = "") as [-> ->] by (split; apply dec_stable; done).
  apply from_chars_complete in E as (_ & Hd & Hv & Hle). pose proof (decimal_nonneg 0 text Hd ltac:(lia)).
  unfold is_u64. lia.
Qed.

Lemma parse_milliseconds_typed text name v : parse_milliseconds text name = Ok v → - two63 ≤ v < two63.
Proof.
  unfold parse_milliseconds. destruct (parse_size text name) as [n| | |] eqn:E; try done. intros [= <-].
  apply parse_size_typed in E. unfold is_u64, i64_of_u64 in *. case_Z; lia.
Qed.

Lemma options_typed argument o : option_for options argument = Some o → preserves cli_typed o.
Proof.
  intros Ho%option_for_elem. unfold options in Ho.
  assert (Hstores : ∀ A (read : string → outcome A) set (Q : A → Prop),
            (∀ text v, read text = Ok v → Q v) → (∀ v c, Q v → config_typed c → config_typed (set v c)) →
            preserves cli_typed (stores read set)).
  { intros A read set Q Hread Hset text g st. cbn. destruct (read text) as [v| | |] eqn:E; try done.
    intros [= <-] Hst. apply (Hset v); eauto. }
  assert (Hfault : ∀ A (read : string → outcome A) (set : A → FaultPlan → FaultPlan) (Q : A → Prop),
            (∀ text v, read text = Ok v → Q v) → (∀ v p, Q v → plan_typed p → plan_typed (set v p)) →
            preserves cli_typed (stores_fault read set)).
  { intros A read set Q Hread Hset. apply Hstores with Q; [done|]. intros v [] Hv []. split; cbn in *; auto. }
  assert (Hflag : ∀ f, (∀ c, config_typed c → config_typed (f c)) → preserves cli_typed (Switch (with_config f))).
  { intros f Hf st. apply Hf. }
  assert (Hsize : ∀ (store : Z → CliState → CliState) name,
            (∀ v st, is_u64 v → cli_typed st → cli_typed (store v st)) →
            preserves cli_typed (Valued (λ text, store <$> parse_size text name))).
  { intros store name Hset text g st. cbn. destruct (parse_size text name) as [v| | |] eqn:E; try done.
    intros [= <-]. apply Hset. by eapply parse_size_typed. }
  repeat match type of Ho with _ ∈ _ :: _ => apply elem_of_cons in Ho as [[= _ ->]|Ho] end;
    [..|by apply not_elem_of_nil in Ho].
  all: try (apply Hsize; intros v [[]] Hv []; split; cbn in *; by auto).
  all: try (apply Hflag; intros [] []; split; cbn in *; by auto).
  all: try (eapply Hstores with (Q := λ _, True); [done|typed]).
  all: try (eapply Hstores; [intros ? ?; apply parse_size_typed|typed]).
  all: try (eapply Hfault with (Q := λ _, True); [done|typed]).
  all: try (eapply Hfault; [intros ? ?; apply parse_size_typed|typed]).
  all: eapply Hfault; [intros ? ?; apply parse_milliseconds_typed|typed].
Qed.

Lemma initial_cli_typed : cli_typed initial_cli.
Proof. split; try (unfold is_u64; cbn; lia). split; unfold is_u64; cbn; lia. Qed.

Lemma default_watermarks_typed st : cli_typed st → config_typed (default_watermarks st).
Proof.
  destruct st as [[] b l h]. intros [Hm Hb Hl Hh Hs Hf]. unfold default_watermarks. cbn in *. unfold is_u64 in *.
  destruct b, l, h; split; cbn; unfold is_u64; try done; try lia; (split; [apply Z.div_pos; lia|]);
    apply Z.div_lt_upper_bound; lia.
Qed.

Lemma command_line_config_typed arguments config :
  command_line arguments = Ok (Some config) → config_typed config.
Proof.
  unfold command_line. destruct (parse_arguments options arguments initial_cli) as [[st|]| | |] eqn:E; try done.
  intros [= <-]. apply default_watermarks_typed. eapply parse_arguments_preserves; [|exact initial_cli_typed|exact E].
  intros argument o _. apply options_typed.
Qed.

(** *** Without an unsafe flag *)

Definition no_upstream_flag (st : CliState) : Prop := pc_allow_non_loopback_upstream (cli_config st) = false.
Definition no_listen_flag (st : CliState) : Prop := pc_allow_non_loopback_listen (cli_config st) = false.

(** An option that only parses a value leaves the flags alone. *)
Lemma options_flags argument o :
  option_for options argument = Some o →
  (argument ≠ "--unsafe-allow-non-loopback-upstream" → preserves no_upstream_flag o)
  ∧ (argument ≠ "--unsafe-allow-non-loopback-listen" → preserves no_listen_flag o).
Proof.
  intros Ho%option_for_elem. unfold options in Ho.
  repeat match type of Ho with _ ∈ _ :: _ => apply elem_of_cons in Ho as [[= -> ->]|Ho] end;
    [..|by apply not_elem_of_nil in Ho].
  all: split; intros Hne; try done; unfold preserves, stores_fault, stores.
  all: try (intros text g st Hg; apply fmap_Ok in Hg as (v & _ & ->)).
  all: try intros st; destruct st as [[] ? ? ?]; done.
Qed.

Lemma default_watermarks_flags st :
  pc_allow_non_loopback_upstream (default_watermarks st) = pc_allow_non_loopback_upstream (cli_config st)
  ∧ pc_allow_non_loopback_listen (default_watermarks st) = pc_allow_non_loopback_listen (cli_config st).
Proof. destruct st as [[] [] [] []]; done. Qed.

Lemma command_line_flags arguments config :
  command_line arguments = Ok (Some config) →
  ("--unsafe-allow-non-loopback-upstream" ∉ arguments → pc_allow_non_loopback_upstream config = false)
  ∧ ("--unsafe-allow-non-loopback-listen" ∉ arguments → pc_allow_non_loopback_listen config = false).
Proof.
  unfold command_line. destruct (parse_arguments options arguments initial_cli) as [[st|]| | |] eqn:E; try done.
  intros [= <-]. destruct (default_watermarks_flags st) as [-> ->]. split; intros Hno.
  - apply (parse_arguments_preserves options no_upstream_flag arguments initial_cli st); [|done|done].
    intros argument o Hin Ho. apply (options_flags _ _ Ho). by intros ->.
  - apply (parse_arguments_preserves options no_listen_flag arguments initial_cli st); [|done|done].
    intros argument o Hin Ho. apply (options_flags _ _ Ho). by intros ->.
Qed.

(** *** Printing *)

(** The arguments that describe a configuration, every value option given. *)
Definition direction_name (d : FaultDirections) : string :=
  match d with Both => "both" | ClientToUpstream => "c2u" | UpstreamToClient => "u2c" end.

Definition arguments_of (c : ProxyConfig) : list string :=
  let f := pc_faults c in
  ["--listen"; to_string (pc_listen c); "--upstream"; to_string (pc_upstream c);
   "--max-connections"; pretty (pc_max_connections c); "--buffer-bytes"; pretty (pc_buffer_bytes_per_direction c);
   "--low-water-bytes"; pretty (pc_low_water_bytes c); "--high-water-bytes"; pretty (pc_high_water_bytes c);
   "--socket-buffer-bytes"; pretty (pc_socket_buffer_bytes c);
   "--connect-timeout-ms"; pretty (pc_connect_timeout c); "--idle-timeout-ms"; pretty (pc_idle_timeout c);
   "--metrics-file"; pc_metrics_file c; "--fault-seed"; pretty (master_seed f);
   "--fault-direction"; direction_name (directions f);
   "--fault-latency-ms"; pretty (latency f); "--fault-jitter-ms"; pretty (jitter f);
   "--fault-rate-bytes-per-sec"; pretty (rate_bytes_per_second f); "--fault-burst-bytes"; pretty (burst_bytes f);
   "--fault-reset-after-bytes"; pretty (reset_after_bytes f);
   "--fault-half-close-after-bytes"; pretty (half_close_after_bytes f)]
  ++ (if pc_allow_non_loopback_listen c then ["--unsafe-allow-non-loopback-listen"] else [])
  ++ (if pc_allow_non_loopback_upstream c then ["--unsafe-allow-non-loopback-upstream"] else []).

(** What the arguments can express: parsed endpoints, words, non-negative
    durations, and (not printing doubles) the default probability. *)
Record expressible (c : ProxyConfig) : Prop := mkExpressible {
  ex_typed : config_typed c;
  ex_listen : endpoint_ok (pc_listen c);
  ex_upstream : endpoint_ok (pc_upstream c);
  ex_timeouts : 0 ≤ pc_connect_timeout c < two63 ∧ 0 ≤ pc_idle_timeout c < two63;
  ex_delays : 0 ≤ latency (pc_faults c) ∧ 0 ≤ jitter (pc_faults c);
  ex_probability : apply_probability (pc_faults c) = double_one;
}.

Lemma parse_stores {A} name (read : string → outcome A) set value v rest st :
  name ≠ "--help" → option_for options name = Some (stores read set) → read value = Ok v →
  parse_arguments options (name :: value :: rest) st = parse_arguments options rest (with_config (set v) st).
Proof.
  intros Hn Ho Hv. unfold stores in Ho. erewrite parse_valued; [|done|exact Ho|]; [done|]. cbn beta. by rewrite Hv.
Qed.

Lemma parse_words name what (store : Z → CliState → CliState) value v rest st :
  name ≠ "--help" → option_for options name = Some (Valued (λ text, store <$> parse_size text what)) →
  parse_size value what = Ok v →
  parse_arguments options (name :: value :: rest) st = parse_arguments options rest (store v st).
Proof. intros Hn Ho Hv. erewrite parse_valued; [|done|exact Ho|]; [done|]. cbn beta. by rewrite Hv. Qed.

Lemma parse_size_pretty name n : is_u64 n → parse_size (pretty n) name = Ok n.
Proof. intros Hn. unfold parse_size. rewrite from_chars_pretty; [done|]. unfold is_u64 in *. lia. Qed.

Lemma parse_milliseconds_pretty name n : 0 ≤ n < two63 → parse_milliseconds (pretty n) name = Ok n.
Proof.
  intros Hn. unfold parse_milliseconds. rewrite parse_size_pretty by (unfold is_u64; lia). cbn. f_equal.
  unfold i64_of_u64. case_Z; lia.
Qed.

Lemma parse_directions_name d : parse_directions (direction_name d) = Ok d.
Proof. by destruct d. Qed.

(** The flags at the end. *)
Lemma parse_switches listen upstream st :
  parse_arguments options ((if listen : bool then ["--unsafe-allow-non-loopback-listen"] else [])
                   ++ (if upstream : bool then ["--unsafe-allow-non-loopback-upstream"] else [])) st
  = Ok (Some (with_config (λ c, (if upstream then allow_upstream else id) ((if listen then allow_listen else id) c)) st)).
Proof. by destruct st as [[] ? ? ?], listen, upstream. Qed.

(** Reads the next option and its printed value. *)
#[local] Ltac next_stored := erewrite parse_stores;
  [|done|reflexivity
   |first [by apply parse_to_string|by apply parse_size_pretty|by apply parse_milliseconds_pretty
          |apply parse_directions_name|reflexivity]].
#[local] Ltac next_words := erewrite parse_words; [|done|reflexivity|by apply parse_size_pretty].

Lemma command_line_arguments_of c : expressible c → command_line (arguments_of c) = Ok (Some c).
Proof.
  intros [[] Hli Hup [Hct Hit] [Hla Hji] Hpr]. destruct ct_faults as [? ? ? ? ? ? ?].
  assert (Hlat : 0 ≤ latency (pc_faults c) < two63) by lia. assert (Hjit : 0 ≤ jitter (pc_faults c) < two63) by lia.
  unfold command_line, arguments_of. cbn [app].
  do 3 next_stored. do 3 next_words. do 12 next_stored. rewrite parse_switches.
  destruct c as [li up mx bb lw hw sb cto ito mf [seed prob dirs lat jit rate burst ra hc] al au].
  cbn [pc_faults apply_probability] in Hpr. rewrite Hpr. by destruct al, au.
Qed.
End arguments.

(** ** From the arguments to the exit status *)

Section defined.
Context `{Inet}.

Lemma parse_size_defined text name : defined (parse_size text name).
Proof.
  unfold parse_size. destruct (from_chars _ _ _) as [[error v] end_].
  by apply defined_bind; [apply defined_throw_if|].
Qed.

Lemma parse_probability_defined text : defined (parse_probability text).
Proof.
  unfold parse_probability. destruct (from_chars_double _ _) as [[error v] end_].
  by apply defined_bind; [apply defined_throw_if|].
Qed.

Lemma options_defined argument f text :
  option_for options argument = Some (Valued f) → defined (f text).
Proof.
  intros Ho%option_for_elem. unfold options, stores_fault, stores in Ho.
  repeat match type of Ho with _ ∈ _ :: _ => apply elem_of_cons in Ho as [Heq|Ho]; [try discriminate Heq; injection Heq as _ ->|] end;
    [..|by apply not_elem_of_nil in Ho].
  all: cbn beta; try done; apply defined_fmap; try apply parse_defined; try apply parse_size_defined;
    try apply parse_probability_defined; try (by apply defined_fmap, parse_size_defined); try done.
  unfold parse_directions. by repeat case_decide.
Qed.

Lemma command_line_defined arguments : defined (command_line arguments).
Proof.
  unfold command_line. apply defined_bind; [|done]. apply parse_arguments_defined. intros; by eapply options_defined.
Qed.

Lemma validate_defined p :
  latency p ≤ 4611686018427387904 → jitter p ≤ 4611686018427387903 → defined (validate p).
Proof.
  intros Hl Hj. unfold validate. apply defined_bind; [apply defined_throw_if|]. intros _ _.
  rewrite throw_if_bind. destruct ((latency p <? 0) || (jitter p <? 0)) eqn:E; [done|].
  apply orb_false_iff in E as [E1%Z.ltb_ge E2%Z.ltb_ge].
  rewrite i64_add_cases by lia. apply defined_bind; [apply defined_throw_if|]. intros _ _.
  rewrite i64_add_cases by lia. by repeat (apply defined_bind; [apply defined_throw_if|]; intros _ _).
Qed.

Lemma check_config_defined c : defined (validate (pc_faults c)) → defined (check_config c).
Proof.
  intros Hv. unfold check_config. do 5 (apply defined_bind; [apply defined_throw_if|]; intros _ _).
  apply defined_bind; [done|]. intros _ _.
  by repeat (apply defined_bind; [first [apply is_loopback_defined|apply defined_throw_if]|intros ? _]).
Qed.
End defined.

Section main.
#[local] Set Default Proof Using "Type*".
Context {W E Out : Type} `{SocketIoLaws W} `{KernelLaws E} `{OutputLaws Out}.
Context `{Libc} `{InetLaws} `{UnorderedMapLaws}.
Implicit Types (io : W) (env : E) (out : Out).

(** How [main] can end with a world: the help, or a run of the loop from the
    state the set-up left, and after it only the closing of the descriptors. *)
Lemma main_world rounds arguments io env out status message calls s' :
  main rounds arguments (initial_world io env out) = Ok (status, message, Some (calls, s')) →
  (command_line arguments = Ok None ∧ calls = [] ∧ s' = initial_world io env out)
  ∨ ∃ config env' status' s1 closing,
      command_line arguments = Ok (Some config) ∧ check_config config = Ok tt
      ∧ Forall (listens_as_configured config) calls
      ∧ ProxyLoop.run config rounds (initial_world io env' out) = Ok (status', s1)
      ∧ pw_trace s' = pw_trace s1 ++ closing ∧ Forall (λ p, ∃ fd, p.1 = CloseFd fd) closing.
Proof.
  unfold main, main_body, mbind, M_bind, lift.
  destruct (command_line arguments) as [[config|]|[]| |]; cbn; try done; [|intros [= <- <- <- <-]; by left].
  destruct (warnings config) as [lines|[]| |]; cbn; try done.
  destruct (check_config config) as [[]|[]| |] eqn:Hc; cbn; try done.
  unfold run_proxy, construct_runtime, mbind, M_bind, mret, M_ret. cbn [pw_env initial_world].
  pose proof (set_up_ok config (mkSetupWorld env [])) as Hset. unfold runs in Hset.
  destruct (set_up config (mkSetupWorld env [])) as [[[what|fds] w]|[]| |]; try done.
  cbn in Hset. destruct Hset as (before & registered & [Hcalls _ Hconf] & _). cbn in Hcalls. rewrite <-Hcalls in Hconf.
  change (mkProxyWorld _ _ _ _ _ _ _) with (initial_world (W := W) io (su_env w) out).
  destruct (ProxyLoop.run config rounds (initial_world io (su_env w) out)) as [[st s1]|[]| |] eqn:Hr; try done.
  destruct st as [st|].
  - intros Heq. right. exists config, (su_env w), (Some st), s1.
    unfold destroy_runtime, close_fd, mbind, M_bind, mret, M_ret, sys in Heq. cbn -[syscall] in Heq.
    repeat (match type of Heq with context [syscall ?e ?c] => destruct (syscall e c) as [? ?] end; cbn -[syscall] in Heq).
    injection Heq as <- <- <- <-. cbn. eexists. rewrite <-!app_assoc. split_and!; [done..|]. repeat constructor; by eexists.
  - intros [= <- <- <- <-]. right. exists config, (su_env w), None, s1, []. by rewrite app_nil_r.
Qed.



(** C15: without the unsafe flags among the arguments, the program connects to
    nothing but loopback addresses and binds its listener to nothing but
    loopback addresses, whatever else the arguments are and whatever the kernel
    does. *)
Theorem main_loopback_only rounds arguments io env out status message calls s :
  main rounds arguments (initial_world io env out) = Ok (status, message, Some (calls, s)) →
  ("--unsafe-allow-non-loopback-upstream" ∉ arguments →
     ∀ fd address reply, (Connect fd address, reply) ∈ pw_trace s → 2130706432 ≤ sin_addr address ≤ 2147483647)
  ∧ ("--unsafe-allow-non-loopback-listen" ∉ arguments →
     ∀ fd address reply, (BindListener fd address, reply) ∈ calls → 2130706432 ≤ sin_addr address ≤ 2147483647).
Proof.
  intros [(Hn & -> & ->)|(config & env' & status' & s1 & closing & Hcl & Hcheck & Hconf & Hrun & Htrace & Hclosing)]%main_world.
  { split; intros _ fd address reply Hin; by apply not_elem_of_nil in Hin. }
  pose proof (command_line_config_typed _ _ Hcl) as Ht. destruct (command_line_flags _ _ Hcl) as [Hup Hli].
  apply check_config_exactly in Hcheck; [|done]. split.
  - intros Hno fd address reply Hin. specialize (Hup Hno). rewrite Htrace in Hin.
    apply elem_of_app in Hin as [Hin|Hin]; [|by apply (proj1 (Forall_forall _ _) Hclosing) in Hin as [? [=]]].
    destruct (run_exports config rounds _ _ _ Hrun) as (made & Htr & Hex). cbn in Htr. subst made.
    pose proof (exports_permitted _ _ _ Hex) as Hp. rewrite Forall_forall in Hp. specialize (Hp _ Hin). cbn in Hp.
    destruct (vpc_upstream _ Hcheck) as [_ [(a & Ha & Hloop)|?]]; [|congruence].
    unfold to_sockaddr in Hp. rewrite Ha in Hp. by injection Hp as <-.
  - intros Hno fd address reply Hin. specialize (Hli Hno).
    pose proof (proj1 (Forall_forall _ _) Hconf _ Hin) as Hb. cbn in Hb.
    destruct (vpc_listen _ Hcheck) as [_ [(a & Ha & Hloop)|?]]; [|congruence].
    unfold to_sockaddr in Hb. rewrite Ha in Hb. by injection Hb as <-.
Qed.

End main.

(** ** Holes *)

Lemma SFltb_nan d : SFltb d S754_nan = false.
Proof. by destruct d. Qed.

(** C40: two argument lists the program should refuse. A fault probability of
    "nan" passes the range checks of the parser and of the plan, and then no
    connection ever gets the faults that were asked for; and a latency near the
    top of the 64-bit range makes the plan's own range check overflow, which is
    undefined behaviour, instead of being refused. *)
Theorem command_line_holes `{InetLaws} :
  inet_pton "127.0.0.1" = Some 2130706433 →
  (∃ config, command_line ["--fault-probability"; "nan"; "--fault-latency-ms"; "100"] = Ok (Some config)
     ∧ check_config config = Ok tt ∧ any_enabled (pc_faults config) = true
     ∧ ∀ id, faults_apply config id = false)
  ∧ ∀ W E Out `{SocketIo W} `{Kernel E} `{Output Out} `{Libc} `{UnorderedMap} rounds (s : ProxyWorld W E Out),
      main rounds ["--fault-latency-ms"; "9223372036854775807"] s = Undefined.
Proof.
  intros Hlo.
  assert (Hloop : ∀ p, is_loopback (mkEndpoint "127.0.0.1" p) = Ok true) by (intros p; by rewrite (is_loopback_ok (mkEndpoint "127.0.0.1" p) _ Hlo)).
  split.
  - exists (set_faults (λ f, set_probability S754_nan (set_latency 100 f)) default_ProxyConfig). split; [by vm_compute|].
    split; [|split; [done|]].
    + apply check_config_exactly; [split; try (unfold is_u64; cbn; lia); split; unfold is_u64; cbn; lia|].
      assert (Huse : ∀ p, may_use (mkEndpoint "127.0.0.1" p) false).
      { intros p. split; [exists 2130706433; exact Hlo|left]. exists 2130706433. split; [exact Hlo|lia]. }
      split; cbn; try lia; try apply Huse. split; cbn; try done; lia.
    + intros id. unfold faults_apply. cbn [negb]. apply SFltb_nan.
  - intros W E Out ? ? ? ? ? rounds s. unfold main, main_body.
    assert (Hcl : command_line ["--fault-latency-ms"; "9223372036854775807"]
              = Ok (Some (set_faults (set_latency 9223372036854775807) default_ProxyConfig))) by (by vm_compute).
    rewrite Hcl. unfold mbind, M_bind, lift. cbn [fmap outcome_fmap].
    unfold warnings. cbn [pc_listen pc_upstream set_faults default_ProxyConfig]. by rewrite !Hloop.
Qed.

(** ** Examples *)

#[local] Existing Instance example_libc.
#[local] Existing Instance example_inet.
#[local] Existing Instance example_inet_laws.
#[local] Existing Instance interrupted_output.
#[local] Existing Instance interrupted_output_laws.
#[local] Existing Instance script_kernel.
#[local] Existing Instance script_kernel_laws.
#[local] Existing Instance listed_map.
#[local] Existing Instance listed_map_laws.

(** The arguments of the example configuration; the watermarks follow from the
    buffer size. *)
Definition delay_arguments : list string :=
  ["--upstream"; "127.20.30.40:9000"; "--max-connections"; "2"; "--buffer-bytes"; "1024";
   "--connect-timeout-ms"; "1000"; "--idle-timeout-ms"; "60000"; "--metrics-file"; "metrics.json";
   "--fault-seed"; "7"; "--fault-latency-ms"; "5"].

Lemma delay_command_line : command_line delay_arguments = Ok (Some delay_config).
Proof. vm_compute. reflexivity. Qed.

(** The set-up and the world of a run of the example to its end. *)
Definition delay_main_end : list (Call * Reply) * ExampleWorld :=
  Eval vm_compute in
    match main 5 delay_arguments delay_start with
    | Ok (_, _, Some end_) => end_
    | _ => ([], delay_start)
    end.

Lemma delay_main : main 5 delay_arguments delay_start = Ok (Some 0, None, Some (delay_main_end.1, delay_main_end.2)).
Proof. vm_compute. reflexivity. Qed.



Lemma delay_arguments_safe :
  ("--unsafe-allow-non-loopback-upstream" ∉ delay_arguments)
  ∧ ("--unsafe-allow-non-loopback-listen" ∉ delay_arguments).
Proof. split; apply (bool_decide_unpack _); vm_compute; exact I. Qed.

Lemma main_loopback_only_witness :
  2130706432 ≤ 2132024872 ≤ 2147483647 ∧ 2130706432 ≤ 2130706433 ≤ 2147483647.
Proof.
  destruct (main_loopback_only 5 delay_arguments delay_io delay_env 0%nat (Some 0) None _ _ delay_main)
    as [Hconnect Hlisten].
  split.
  - apply (Hconnect (proj1 delay_arguments_safe) 24 (mkSockaddr 9000 2132024872) (mkReply (-1) EINPROGRESS 0 [])).
    vm_compute. do 4 right. left.
  - apply (Hlisten (proj2 delay_arguments_safe) 20 (mkSockaddr 8080 2130706433) (mkReply 0 0 0 [])).
    vm_compute. do 4 right. left.
Defined.


Lemma command_line_holes_witness :
  ∃ config, command_line ["--fault-probability"; "nan"; "--fault-latency-ms"; "100"] = Ok (Some config)
     ∧ check_config config = Ok tt ∧ any_enabled (pc_faults config) = true
     ∧ ∀ id, faults_apply config id = false.
Proof. exact (proj1 (command_line_holes eq_refl)). Defined.
