(* ===== verification/TestServer.v ===== *)
(** * The controlled server (src/server/main.cpp)

    What a worker thread of the test server does with its connection: the echo
    loop with its slow variants, the draining reader and the writer that
    half-closes first; and the mode names and limits of the command line. The
    program around it is in TestServerMain.v. *)

From Stdlib Require Import ZArith Lia Strings.Byte Ascii String.
From stdpp Require Import base numbers list option strings.
From S2P Require Import Prelude Text Endpoint SocketIo.

Local Open Scope Z_scope.

Inductive ServerMode := Echo | SlowReader | SlowWriter | ReadUntilEof | SendThenHalfClose.

#[global] Instance ServerMode_eq_dec : EqDecision ServerMode.
Proof. solve_decision. Defined.

Record ServerConfig := mkServerConfig {
  server_mode : ServerMode;
  server_delay : Z;   (* milliseconds *)
  chunk_bytes : Z;
  send_bytes : Z;
}.

Definition default_ServerConfig : ServerConfig := mkServerConfig Echo 0 16384 65536.

(** The thread's stop token and its sleeps, next to the socket calls. A stop
    may be requested at any time; no other thread uses the connection. *)
Class WorkerKernel (K : Type) := {
  stop_requested : K → bool * K;
  sleep_for : K → Z → K;
  worker_option : K → Z → Z → K;   (* setsockopt: the descriptor and the option *)
  store_done : K → K;              (* the flag the accept loop reaps by *)
  worker_close : K → Z → K;
}.

(** No call adds to the interruptions to come. *)
Class SteadyKernelLaws (K : Type) `{SocketKernel K} : Prop := {
  send_interruptions k fd bs r k' : sys_send k fd bs = (r, k') → (interruptions k' ≤ interruptions k)%nat;
  recv_interruptions k fd n r k' : sys_recv k fd n = (r, k') → (interruptions k' ≤ interruptions k)%nat;
}.

Class WorkerKernelLaws (K : Type) `{SocketKernel K} `{WorkerKernel K} : Prop := {
  stop_interruptions k b k' : stop_requested k = (b, k') → (interruptions k' ≤ interruptions k)%nat;
  sleep_interruptions k n : (interruptions (sleep_for k n) ≤ interruptions k)%nat;
  option_interruptions k fd o : (interruptions (worker_option k fd o) ≤ interruptions k)%nat;
}.

(** The traffic of the connection and the stop requests noticed, recorded for
    the specification. *)
Inductive ServerOp := Received (bs : list byte) | Sent (bs : list byte) | HalfClosed | Stopped | Closed.

Definition SO_RCVTIMEO : Z := 20.
Definition SO_SNDTIMEO : Z := 21.

Record ServerWorld (K : Type) := mkServerWorld { sw_kernel : K; sw_wire : list ServerOp }.
Arguments mkServerWorld {K} _ _.
Arguments sw_kernel {K} _.
Arguments sw_wire {K} _.

Definition received (wire : list ServerOp) : list byte :=
  wire ≫= λ o, match o with Received bs => bs | _ => [] end.
Definition sent (wire : list ServerOp) : list byte :=
  wire ≫= λ o, match o with Sent bs => bs | _ => [] end.

Section worker.
Context {K : Type} `{SocketKernel K} `{WorkerKernel K}.
Context (fd : Z) (config : ServerConfig).

Abbreviation SM := (M (ServerWorld K)).

Definition stopping : SM bool := λ w,
  let '(b, k) := stop_requested (sw_kernel w) in
  Ok (b, mkServerWorld k (if (b : bool) then sw_wire w ++ [Stopped] else sw_wire w)).
Definition sleeping (ms : Z) : SM unit := λ w,
  Ok (tt, mkServerWorld (sleep_for (sw_kernel w) ms) (sw_wire w)).

(** [recv] and [send]: the count and errno. *)
Definition recv (n : Z) : SM (Z * Z * list byte) := λ w,
  let '((count, err, bs), k) := sys_recv (sw_kernel w) fd n in
  Ok ((count, err, bs), mkServerWorld k (if 0 <? count then sw_wire w ++ [Received bs] else sw_wire w)).
Definition send (data : list byte) : SM (Z * Z) := λ w,
  let '((count, err), k) := sys_send (sw_kernel w) fd data in
  Ok ((count, err), mkServerWorld k (if 0 <? count then sw_wire w ++ [Sent (take (Z.to_nat count) data)] else sw_wire w)).
Definition shutdown_write : SM unit := λ w,
  let '(_, k) := sys_shutdown_wr (sw_kernel w) fd in Ok (tt, mkServerWorld k (sw_wire w ++ [HalfClosed])).

Definition option_set (option_name : Z) : SM unit := λ w,
  Ok (tt, mkServerWorld (worker_option (sw_kernel w) fd option_name) (sw_wire w)).

(** The end of the scope: the guard stores the flag, then the descriptor is closed. *)
Definition leave : SM unit := λ w,
  Ok (tt, mkServerWorld (worker_close (store_done (sw_kernel w)) fd) (sw_wire w ++ [Closed])).

(** Sleeps in quanta of 10 ms until the delay is over or a stop is requested. *)
Fixpoint delay_loop (fuel : nat) (remaining : Z) : SM unit :=
  if 0 <? remaining then
    stop ← stopping;
    if (stop : bool) then mret tt
    else
      match fuel with
      | O => out_of_fuel
      | S fuel =>
          let current := Z.min remaining 10 in
          _ ← sleeping current;
          delay_loop fuel (remaining - current)
      end
  else mret tt.

Definition interruptible_delay (delay : Z) : SM bool :=
  _ ← delay_loop (Z.to_nat delay) delay;
  stop ← stopping;
  mret (negb stop).

(** The loop of [send_all]: every round sends a byte or is interrupted. *)
Fixpoint send_all_loop (fuel : nat) (data : list byte) (offset : Z) : SM bool :=
  let size := Z.of_nat (length data) in
  if offset <? size then
    stop ← stopping;
    if (stop : bool) then mret (offset =? size)
    else
      match fuel with
      | O => out_of_fuel
      | S fuel =>
          go ← (if bool_decide (server_mode config = SlowWriter) then interruptible_delay (server_delay config)
                else mret true);
          if negb go then mret false
          else
            let request_bytes := Z.min (size - offset) (chunk_bytes config) in
            '(count, err) ← send (take (Z.to_nat request_bytes) (drop (Z.to_nat offset) data));
            if 0 <? count then send_all_loop fuel data (offset + count)
            else if (count <? 0) && (err =? EINTR) then send_all_loop fuel data offset
            else mret false
      end
  else mret (offset =? size).

Definition send_all (data : list byte) : SM bool :=
  fuel ← gets (λ w, (length data + interruptions (sw_kernel w))%nat);
  send_all_loop fuel data 0.

(** The endless loops are run for [rounds] rounds; [false] when they have not
    returned by then. *)
Fixpoint drain_until_eof (rounds : nat) : SM bool :=
  stop ← stopping;
  if (stop : bool) then mret true
  else
    match rounds with
    | O => mret false
    | S rounds =>
        '(count, err, _) ← recv (chunk_bytes config);
        if 0 <? count then drain_until_eof rounds
        else if (count =? 0) || (negb (err =? EINTR) && negb (err =? EAGAIN) && negb (err =? EWOULDBLOCK))
        then mret true
        else drain_until_eof rounds
    end.

(** [static_cast<std::byte>(index & 0xFFU)] *)
Definition pattern_byte (index : nat) : byte :=
  match Byte.of_nat (index mod 256) with Some b => b | None => x00 end.
Definition pattern (size : nat) : list byte := pattern_byte <$> seq 0 size.

(** The sending loop of [send_then_half_close]; [false] when a send failed. *)
Fixpoint payload_loop (fuel : nat) (buffer : list byte) (remaining : Z) : SM bool :=
  if 0 <? remaining then
    stop ← stopping;
    if (stop : bool) then mret true
    else
      let request_bytes := Z.min remaining (Z.of_nat (length buffer)) in
      ok ← send_all (take (Z.to_nat request_bytes) buffer);
      if negb ok then mret false
      else
        match fuel with
        | O => out_of_fuel
        | S fuel => payload_loop fuel buffer (remaining - request_bytes)
        end
  else mret true.

Definition send_then_half_close (rounds : nat) : SM bool :=
  ok ← payload_loop (Z.to_nat (send_bytes config)) (pattern (Z.to_nat (chunk_bytes config))) (send_bytes config);
  if negb ok then mret true
  else
    _ ← shutdown_write;
    drain_until_eof rounds.

(** The loop of [serve_client] in the echoing modes. *)
Fixpoint echo_loop (rounds : nat) : SM bool :=
  stop ← stopping;
  if (stop : bool) then mret true
  else
    match rounds with
    | O => mret false
    | S rounds =>
        go ← (if bool_decide (server_mode config = SlowReader) then interruptible_delay (server_delay config) else mret true);
        if negb go then mret true
        else
          '(count, err, bytes) ← recv (chunk_bytes config);
          if 0 <? count then
            ok ← send_all bytes;
            if negb ok then mret true else echo_loop rounds
          else if count =? 0 then
            _ ← shutdown_write;
            mret true
          else if err =? EINTR then echo_loop rounds
          else if (err =? EAGAIN) || (err =? EWOULDBLOCK) then echo_loop rounds
          else mret true
    end.

Definition serve_mode (rounds : nat) : SM bool :=
  match server_mode config with
  | ReadUntilEof =>
      finished ← drain_until_eof rounds;
      if (finished : bool) then
        _ ← shutdown_write;
        mret true
      else mret false
  | SendThenHalfClose => send_then_half_close rounds
  | _ => echo_loop rounds
  end.

Definition serve_client (rounds : nat) : SM bool :=
  _ ← option_set SO_RCVTIMEO;
  _ ← option_set SO_SNDTIMEO;
  finished ← serve_mode rounds;
  if (finished : bool) then
    _ ← leave;
    mret true
  else mret false.
End worker.

(** ** The command line *)

Definition server_parse_size (text name : string) (allow_zero : bool) : outcome Z :=
  let '(error, value, end_) := from_chars (two64 - 1) 0 text in
  _ ← throw_if (bool_decide (error ≠ NoError) || bool_decide (end_ ≠ "") || (negb allow_zero && (value =? 0)))
        (InvalidArgument (name +:+ " must be a valid integer"));
  Ok value.

Definition parse_mode (mode : string) : outcome ServerMode :=
  if decide (mode = "echo") then Ok Echo
  else if decide (mode = "slow-reader") then Ok SlowReader
  else if decide (mode = "slow-writer") then Ok SlowWriter
  else if decide (mode = "read-until-eof") then Ok ReadUntilEof
  else if decide (mode = "send-then-half-close") then Ok SendThenHalfClose
  else Throw (InvalidArgument
         "mode must be echo, slow-reader, slow-writer, read-until-eof, or send-then-half-close").

Definition mode_name (mode : ServerMode) : string :=
  match mode with
  | Echo => "echo"
  | SlowReader => "slow-reader"
  | SlowWriter => "slow-writer"
  | ReadUntilEof => "read-until-eof"
  | SendThenHalfClose => "send-then-half-close"
  end.

(** The checks of [main] before it listens. *)
Definition check_server `{Inet} (listen : Endpoint) (config : ServerConfig) : outcome unit :=
  loopback ← is_loopback listen;
  _ ← throw_if (negb loopback) (InvalidArgument "the Milestone 1 server only permits loopback listeners");
  _ ← throw_if ((60000 <? server_delay config) || (1024 * 1024 <? chunk_bytes config))
        (InvalidArgument "delay must be at most 60000 ms and chunk size at most 1048576 bytes");
  _ ← throw_if (16 * 1024 * 1024 <? send_bytes config)
        (InvalidArgument "send_bytes must be at most 16777216");
  Ok tt.
