(* ===== verification/TestServerSpec.v ===== *)
(** * What the controlled server guarantees

    In the echoing modes the bytes sent are a prefix of the bytes received, and
    all of them once the peer has half-closed; the half-closing writer sends the
    documented payload; the draining reader sends nothing. *)

From Stdlib Require Import ZArith Lia Strings.Byte Ascii String.
From stdpp Require Import base numbers list option strings.
From S2P Require Import Prelude Text Endpoint SocketIo TestServer.

Local Open Scope Z_scope.

Lemma received_app w1 w2 : received (w1 ++ w2) = received w1 ++ received w2.
Proof. unfold received. by rewrite bind_app. Qed.
Lemma sent_app w1 w2 : sent (w1 ++ w2) = sent w1 ++ sent w2.
Proof. unfold sent. by rewrite bind_app. Qed.

Section traffic.
#[local] Set Default Proof Using "Type*".
Context {K : Type} `{SocketKernelLaws K} `{!SteadyKernelLaws K} (fd : Z).

Implicit Types (w : ServerWorld K).

Definition left_over w : nat := interruptions (sw_kernel w).

(** The traffic grew by [ops], and no interruptions were added. *)
Definition grew (w w' : ServerWorld K) (ops : list ServerOp) : Prop :=
  sw_wire w' = sw_wire w ++ ops ∧ (left_over w' ≤ left_over w)%nat.

(** Only stop requests were noticed. *)
Definition idle (w w' : ServerWorld K) : Prop := ∃ ops, grew w w' ops ∧ Forall (.= Stopped) ops.

(** Bytes were sent, and stop requests noticed. *)
Definition sending (o : ServerOp) : Prop := match o with Sent _ | Stopped => True | _ => False end.
Definition transmitted (w w' : ServerWorld K) (bs : list byte) : Prop :=
  ∃ ops, grew w w' ops ∧ Forall sending ops ∧ sent ops = bs.

Lemma grew_refl w : grew w w [].
Proof. split; [by rewrite app_nil_r|done]. Qed.
Lemma grew_trans w1 w2 w3 ops1 ops2 : grew w1 w2 ops1 → grew w2 w3 ops2 → grew w1 w3 (ops1 ++ ops2).
Proof. intros [Hw1 Hl1] [Hw2 Hl2]. split; [by rewrite Hw2, Hw1, app_assoc|lia]. Qed.

Lemma idle_refl w : idle w w.
Proof. exists []. split; [apply grew_refl|done]. Qed.
Lemma idle_trans w1 w2 w3 : idle w1 w2 → idle w2 w3 → idle w1 w3.
Proof.
  intros (o1 & Hg1 & Hs1) (o2 & Hg2 & Hs2). exists (o1 ++ o2). split; [by eapply grew_trans|by apply Forall_app].
Qed.

Lemma idle_transmitted w w' : idle w w' → transmitted w w' [].
Proof.
  intros (ops & Hg & Hs). exists ops. split_and!; [done|eapply Forall_impl; [exact Hs|]; by intros o ->|].
  clear Hg. induction Hs as [|o ops -> _ IH]; [done|exact IH].
Qed.
Lemma transmitted_trans w1 w2 w3 bs1 bs2 :
  transmitted w1 w2 bs1 → transmitted w2 w3 bs2 → transmitted w1 w3 (bs1 ++ bs2).
Proof.
  intros (o1 & Hg1 & Hs1 & <-) (o2 & Hg2 & Hs2 & <-). exists (o1 ++ o2).
  split_and!; [by eapply grew_trans|by apply Forall_app|by rewrite sent_app].
Qed.

Lemma server_send_ok data w :
  runs (send fd data) w (λ '(count, err) w',
    transmitted w w' (take (Z.to_nat count) data) ∧ count ≤ Z.of_nat (length data)
    ∧ (count < 0 → err = EINTR → (left_over w' < left_over w)%nat)).
Proof.
  unfold runs, send. destruct (sys_send _ _ _) as [[count err] k] eqn:E. cbn.
  pose proof (send_interruptions _ _ _ _ _ E) as Hle. pose proof (send_count _ _ _ _ _ _ E) as Hc.
  split_and!; [|done|intros; by eapply send_interrupted].
  destruct (Z.ltb_spec 0 count).
  - eexists. split_and!; [by split|by repeat constructor|]. cbn. by rewrite app_nil_r.
  - exists []. split_and!; [split; [by rewrite app_nil_r|done]|done|]. by replace (Z.to_nat count) with 0%nat by lia.
Qed.

Lemma recv_ok w n :
  0 ≤ n → runs (recv fd n) w (λ '(count, err, bytes) w',
    sw_wire w' = sw_wire w ++ (if 0 <? count then [Received bytes] else [])).
Proof.
  intros Hn. unfold runs, recv. destruct (sys_recv _ _ _) as [[[count err] bytes] k]. cbn.
  destruct (0 <? count); [done|by rewrite app_nil_r].
Qed.

Lemma sending_sent ops : Forall sending ops → received ops = [] ∧ HalfClosed ∉ ops.
Proof.
  induction 1 as [|o ops Ho _ [IH1 IH2]]; [split; [done|apply not_elem_of_nil]|]. split.
  - destruct o; try done; exact IH1.
  - intros [Heq|?]%elem_of_cons; [by rewrite <-Heq in Ho|auto].
Qed.

Lemma transmitted_wire w w' bs :
  transmitted w w' bs → sent (sw_wire w') = sent (sw_wire w) ++ bs
    ∧ received (sw_wire w') = received (sw_wire w) ∧ (HalfClosed ∈ sw_wire w' → HalfClosed ∈ sw_wire w)
    ∧ sw_wire w `prefix_of` sw_wire w'.
Proof.
  intros (ops & [Hw _] & Hs & <-). destruct (sending_sent _ Hs) as [Hr Hh].
  rewrite Hw, sent_app, received_app, Hr, app_nil_r. split_and!; [done|done| |by exists ops].
  intros [?|?]%elem_of_app; done.
Qed.

Lemma idle_wire w w' :
  idle w w' → sent (sw_wire w') = sent (sw_wire w) ∧ received (sw_wire w') = received (sw_wire w)
    ∧ (HalfClosed ∈ sw_wire w' → HalfClosed ∈ sw_wire w) ∧ sw_wire w `prefix_of` sw_wire w'.
Proof. intros I%idle_transmitted%transmitted_wire. by rewrite app_nil_r in I. Qed.

End traffic.

Section spec.
#[local] Set Default Proof Using "Type*".
Context {K : Type} `{SocketKernelLaws K} `{!SteadyKernelLaws K} `{!WorkerKernel K} `{!WorkerKernelLaws K}.
Context (fd : Z) (config : ServerConfig).
Hypothesis Hchunk : 0 < chunk_bytes config.

Abbreviation World := (ServerWorld K).
Abbreviation SM := (M World).
Implicit Types (w : World).

(** ** The steps *)

Lemma stopping_ok w : runs stopping w (λ b w', idle w w' ∧ (b = true → Stopped ∈ sw_wire w')
  ∧ (b = false → sw_wire w' = sw_wire w)).
Proof.
  unfold runs, stopping. destruct (stop_requested _) as [b k] eqn:E. apply stop_interruptions in E.
  destruct b; cbn; (split_and!; [|try done; intros _; apply elem_of_app; right; left|done]).
  - exists [Stopped]. split; [by split|by repeat constructor].
  - exists []. split; [split; [by rewrite app_nil_r|done]|done].
Qed.

Lemma delay_loop_ok fuel remaining w :
  remaining ≤ Z.of_nat fuel → runs (delay_loop fuel remaining) w (λ _ w', idle w w').
Proof.
  revert remaining w. induction fuel as [|fuel IH]; intros remaining w Hf; cbn [delay_loop];
    destruct (Z.ltb_spec 0 remaining) as [Hpos|]; try (apply runs_ret, idle_refl); [lia|].
  eapply runs_bind; [apply stopping_ok|]. intros [] w1 (I1 & _); [by apply runs_ret|].
  eapply runs_bind with (P := λ _ w2, idle w1 w2).
  { unfold runs, sleeping. cbn. exists []. split; [|done]. split; [by rewrite app_nil_r|apply sleep_interruptions]. }
  intros ? w2 I2. eapply runs_mono; [apply IH; lia|]. intros ? w3 I3.
  exact (idle_trans _ _ _ I1 (idle_trans _ _ _ I2 I3)).
Qed.

Lemma interruptible_delay_ok delay w : runs (interruptible_delay delay) w (λ _ w', idle w w').
Proof.
  unfold interruptible_delay. eapply runs_bind; [apply delay_loop_ok; lia|]. intros ? w1 I1.
  eapply runs_bind; [apply stopping_ok|]. intros b w2 (I2 & _). apply runs_ret. exact (idle_trans _ _ _ I1 I2).
Qed.

(** The optional delay before a system call. *)
Lemma optional_delay_ok (b : bool) delay w :
  runs (if b then interruptible_delay delay else mret true) w (λ _ w', idle w w').
Proof. destruct b; [apply interruptible_delay_ok|apply runs_ret, idle_refl]. Qed.

(** Sends a prefix; all of the data when it reports success. *)
Lemma send_all_loop_ok fuel data offset w :
  0 ≤ offset ≤ Z.of_nat (length data) →
  Z.of_nat (length data) - offset + Z.of_nat (left_over w) ≤ Z.of_nat fuel →
  runs (send_all_loop fd config fuel data offset) w (λ ok w', ∃ n : nat,
    transmitted w w' (take n (drop (Z.to_nat offset) data))
    ∧ (ok = true → take n (drop (Z.to_nat offset) data) = drop (Z.to_nat offset) data)).
Proof.
  revert offset w. induction fuel as [|fuel IH]; intros offset w Ho Hf; cbn [send_all_loop];
    destruct (Z.ltb_spec offset (Z.of_nat (length data))) as [Hlt|Hge]; [lia| | |].
  1,3: apply runs_ret; exists 0%nat; split; [apply idle_transmitted, idle_refl|intros _; rewrite drop_ge by lia; done].
  eapply runs_bind; [apply stopping_ok|]. intros [] w1 (I1 & _).
  { apply runs_ret. exists 0%nat. split; [by apply idle_transmitted|intros ?%Z.eqb_eq; lia]. }
  eapply runs_bind; [apply optional_delay_ok|]. intros [] w2 I2; cbn [negb].
  2:{ apply runs_ret. exists 0%nat. split; [|done]. exact (idle_transmitted _ _ (idle_trans _ _ _ I1 I2)). }
  pose proof (idle_trans _ _ _ I1 I2) as I12. assert (Hleft : (left_over w2 ≤ left_over w)%nat) by (by destruct I12 as (? & [_ ?] & _)).
  set (rest := drop (Z.to_nat offset) data). assert (Hrest : Z.of_nat (length rest) = Z.of_nat (length data) - offset).
  { unfold rest. rewrite length_drop. lia. }
  set (request := Z.min (Z.of_nat (length data) - offset) (chunk_bytes config)).
  eapply runs_bind; [apply server_send_ok|]. intros [count err] w3 (T3 & Hcount & Hint).
  rewrite length_take, take_take in *. replace (Nat.min (Z.to_nat count) (Z.to_nat request)) with (Z.to_nat count) in T3 by lia.
  pose proof (transmitted_trans _ _ _ _ _ (idle_transmitted _ _ I12) T3) as T. cbn [app] in T.
  assert (Hleft3 : (left_over w3 ≤ left_over w2)%nat) by (by destruct T3 as (? & [_ ?] & _)).
  destruct (Z.ltb_spec 0 count) as [Hpos|Hneg].
  - eapply runs_mono; [apply IH; lia|]. intros ok w4 (n & T4 & Hok). exists (Z.to_nat count + n)%nat.
    replace (Z.to_nat (offset + count)) with (Z.to_nat offset + Z.to_nat count)%nat in * by lia.
    rewrite <-drop_drop in *. fold rest in T4, Hok. rewrite <-take_take_drop. split.
    + exact (transmitted_trans _ _ _ _ _ T T4).
    + intros Hk. rewrite (Hok Hk). apply take_drop.
  - destruct (Z.ltb_spec count 0) as [Hlt0|]; cbn [andb].
    + destruct (Z.eqb_spec err EINTR) as [He|].
      * specialize (Hint Hlt0 He). eapply runs_mono; [apply IH; lia|]. intros ok w4 (n & T4 & Hok). exists n.
        split; [|done]. replace (Z.to_nat count) with 0%nat in T by lia. exact (transmitted_trans _ _ _ _ _ T T4).
      * apply runs_ret. exists (Z.to_nat count). split; [done|done].
    + apply runs_ret. exists (Z.to_nat count). split; [done|done].
Qed.

Lemma send_all_ok data w :
  runs (send_all fd config data) w (λ ok w', ∃ n : nat,
    transmitted w w' (take n data) ∧ (ok = true → take n data = data)).
Proof.
  unfold send_all. apply runs_gets_bind. eapply runs_mono; [apply send_all_loop_ok|].
  - lia.
  - unfold left_over. lia.
  - intros ok w' (n & T & Hok). rewrite drop_0 in *. eauto.
Qed.

(** ** The loops of a worker *)

(** Everything received so far has been sent back, and the stream is open. *)
Definition echoed (w : World) : Prop := sent (sw_wire w) = received (sw_wire w) ∧ HalfClosed ∉ sw_wire w.

(** What an echoing worker may leave behind. *)
Definition echo_done (w : World) : Prop :=
  sent (sw_wire w) `prefix_of` received (sw_wire w)
  ∧ (HalfClosed ∈ sw_wire w → sent (sw_wire w) = received (sw_wire w)).

Lemma echoed_done w : echoed w → echo_done w.
Proof. intros [He Hn]. split; [by rewrite He|done]. Qed.

Lemma echoed_idle w w' : idle w w' → echoed w → echoed w'.
Proof. intros (Hs & Hr & Hh & _)%idle_wire [He Hn]. split; [congruence|auto]. Qed.

Lemma echo_loop_ok rounds w : echoed w → runs (echo_loop fd config rounds) w (λ _ w', echo_done w').
Proof.
  revert w. induction rounds as [|rounds IH]; intros w He; cbn [echo_loop];
    (eapply runs_bind; [apply stopping_ok|]); intros [] w1 (I1 & _); pose proof (echoed_idle _ _ I1 He) as He1;
    try (apply runs_ret, echoed_done; exact He1).
  eapply runs_bind; [apply optional_delay_ok|]. intros [] w2 I2; pose proof (echoed_idle _ _ I2 He1) as He2; cbn [negb];
    [|by apply runs_ret, echoed_done].
  eapply runs_bind; [apply recv_ok; lia|]. intros [[count err] bytes] w3 Hw3. destruct He2 as [Hs2 Hn2].
  destruct (Z.ltb_spec 0 count) as [Hpos|Hneg].
  - assert (Hs3 : sent (sw_wire w3) = sent (sw_wire w2)) by (by rewrite Hw3, sent_app; cbn; rewrite app_nil_r).
    assert (Hr3 : received (sw_wire w3) = received (sw_wire w2) ++ bytes) by (by rewrite Hw3, received_app; cbn; rewrite app_nil_r).
    assert (Hn3 : HalfClosed ∉ sw_wire w3) by (rewrite Hw3; intros [?|[?|?%not_elem_of_nil]%elem_of_cons]%elem_of_app; done).
    eapply runs_bind; [apply send_all_ok|]. intros ok w4 (n & T4 & Hok). apply transmitted_wire in T4 as (Hs4 & Hr4 & Hn4 & _).
    assert (Hprefix : sent (sw_wire w4) `prefix_of` received (sw_wire w4)).
    { rewrite Hs4, Hr4, Hs3, Hr3, Hs2. apply prefix_app. exists (drop n bytes). symmetry. apply take_drop. }
    destruct ok; cbn [negb].
    + apply IH. split; [|auto]. rewrite Hs4, Hr4, Hs3, Hr3, Hs2. f_equal. auto.
    + apply runs_ret. split; [done|]. intros Hh. by destruct Hn3; apply Hn4.
  - rewrite app_nil_r in Hw3. assert (He3 : echoed w3) by (by split; rewrite Hw3).
    destruct (Z.eqb_spec count 0) as [Hz|].
    + eapply runs_bind with (P := λ _ w4, sw_wire w4 = sw_wire w3 ++ [HalfClosed]).
      { unfold runs, shutdown_write. by destruct (sys_shutdown_wr _ _). }
      intros ? w4 Hw4. apply runs_ret. unfold echo_done. rewrite Hw4, sent_app, received_app. cbn. rewrite !app_nil_r.
      destruct He3 as [-> _]. done.
    + destruct (err =? EINTR); [by apply IH|]. destruct (_ || _); [by apply IH|]. by apply runs_ret, echoed_done.
Qed.

(** Draining sends nothing. *)
Lemma server_drain_ok rounds w :
  runs (drain_until_eof fd config rounds) w (λ _ w', sent (sw_wire w') = sent (sw_wire w)
    ∧ (HalfClosed ∈ sw_wire w' → HalfClosed ∈ sw_wire w) ∧ sw_wire w `prefix_of` sw_wire w').
Proof.
  revert w. induction rounds as [|rounds IH]; intros w; cbn [drain_until_eof];
    (eapply runs_bind; [apply stopping_ok|]); intros [] w1 (I1 & _); pose proof (idle_wire _ _ I1) as (Hs1 & _ & Hh1 & Hp1);
    try (apply runs_ret; done).
  eapply runs_bind; [apply recv_ok; lia|]. intros [[count err] bytes] w2 Hw2.
  assert (Hs2 : sent (sw_wire w2) = sent (sw_wire w)).
  { rewrite Hw2, sent_app, Hs1. destruct (0 <? count); cbn; by rewrite app_nil_r. }
  assert (Hh2 : HalfClosed ∈ sw_wire w2 → HalfClosed ∈ sw_wire w).
  { rewrite Hw2. intros [?|Hin]%elem_of_app; [auto|]. destruct (0 <? count).
    - apply list_elem_of_singleton in Hin. done.
    - by apply not_elem_of_nil in Hin. }
  assert (Hp2 : sw_wire w `prefix_of` sw_wire w2) by (rewrite Hw2; by apply prefix_app_r).
  assert (Hloop : runs (drain_until_eof fd config rounds) w2 (λ _ w', sent (sw_wire w') = sent (sw_wire w)
    ∧ (HalfClosed ∈ sw_wire w' → HalfClosed ∈ sw_wire w) ∧ sw_wire w `prefix_of` sw_wire w')).
  { eapply runs_mono; [apply IH|]. intros ? w3 (Hs3 & Hh3 & Hp3). rewrite Hs3. split_and!; [done|auto|by transitivity (sw_wire w2)]. }
  destruct (0 <? count); [exact Hloop|]. destruct (_ || _); [by apply runs_ret|exact Hloop].
Qed.

(** *** The half-closing writer *)

(** The first [n] bytes of the documented payload: the pattern, repeated. *)
Definition payload (n : nat) : list byte :=
  (λ i, pattern_byte (i mod Z.to_nat (chunk_bytes config))) <$> seq 0 n.

Lemma payload_chunk t r :
  (t mod Z.to_nat (chunk_bytes config) = 0)%nat → (r ≤ Z.to_nat (chunk_bytes config))%nat →
  payload (t + r) = payload t ++ take r (pattern (Z.to_nat (chunk_bytes config))).
Proof.
  intros Ht Hr. unfold payload, pattern. rewrite seq_app, fmap_app. f_equal.
  rewrite <-fmap_take, take_seq, Nat.min_l by done. apply list_eq. intros i. rewrite !list_lookup_fmap.
  destruct (decide (i < r)%nat).
  - rewrite !lookup_seq_lt by done. cbn. do 2 f_equal.
    rewrite <-Nat.Div0.add_mod_idemp_l, Ht. cbn. apply Nat.mod_small. lia.
  - by rewrite !lookup_seq_ge by lia.
Qed.

Lemma take_payload n m : take n (payload m) = payload (Nat.min n m).
Proof. unfold payload. by rewrite <-fmap_take, take_seq. Qed.

Lemma length_payload n : length (payload n) = n.
Proof. unfold payload. by rewrite length_fmap, length_seq. Qed.

Lemma payload_loop_ok fuel remaining t w :
  let total := (t + Z.to_nat remaining)%nat in
  remaining ≤ Z.of_nat fuel → (0 < remaining → (t mod Z.to_nat (chunk_bytes config) = 0)%nat) →
  sent (sw_wire w) = payload t →
  runs (payload_loop fd config fuel (pattern (Z.to_nat (chunk_bytes config))) remaining) w (λ ok w', ∃ n,
    (n ≤ total)%nat ∧ sent (sw_wire w') = payload n ∧ (ok = true → n = total ∨ Stopped ∈ sw_wire w')
    ∧ (HalfClosed ∈ sw_wire w' → HalfClosed ∈ sw_wire w)).
Proof.
  revert remaining t w. induction fuel as [|fuel IH]; intros remaining t w total Hf Ht Hs; cbn [payload_loop];
    destruct (Z.ltb_spec 0 remaining) as [Hpos|]; try lia.
  1,3: apply runs_ret; exists t; split_and!; [unfold total; lia|done|intros _; left; unfold total; lia|done].
  eapply runs_bind; [apply stopping_ok|]. intros [] w1 (I1 & Hstop & _); pose proof (idle_wire _ _ I1) as (Hs1 & _ & Hh1 & _).
  { apply runs_ret. exists t. split_and!; [unfold total; lia|by rewrite Hs1|intros _; right; by apply Hstop|done]. }
  set (c := Z.to_nat (chunk_bytes config)) in *. assert (Hlen : length (pattern c) = c) by (unfold pattern; by rewrite length_fmap, length_seq).
  rewrite Hlen. set (r := Z.to_nat (Z.min remaining (Z.of_nat c))).
  eapply runs_bind; [apply send_all_ok|]. intros ok w2 (n & T2 & Hok). apply transmitted_wire in T2 as (Hs2 & _ & Hh2 & _).
  assert (Hc : payload (t + r) = payload t ++ take r (pattern c)) by (apply payload_chunk; [auto|unfold r; lia]).
  assert (Hn : sent (sw_wire w2) = payload (Nat.min (t + n) (t + r))).
  { rewrite Hs2, Hs1, Hs, <-take_payload, Hc, take_app, length_payload. f_equal.
    - rewrite take_ge; [done|]. rewrite length_payload. lia.
    - f_equal. lia. }
  destruct ok; cbn [negb].
  - assert (Hr : sent (sw_wire w2) = payload (t + r)) by (by rewrite Hs2, (Hok eq_refl), Hs1, Hs, Hc).
    destruct (decide (remaining ≤ Z.of_nat c)) as [Hlast|Hmore].
    + assert (Hrr : Z.min remaining (Z.of_nat c) = remaining) by lia. rewrite Hrr, Z.sub_diag.
      eapply runs_mono; [apply (IH 0 (t + r)%nat); [lia|lia|done]|]. intros b w3 (m & Hm & Hs3 & Hb & Hh3).
      exists m. unfold total, r in *. split_and!; [lia|done| |auto]. intros Hbt. destruct (Hb Hbt); [left; lia|by right].
    + assert (Hrr : Z.min remaining (Z.of_nat c) = Z.of_nat c) by lia. rewrite Hrr.
      assert (Hrc : r = c) by (unfold r; lia).
      eapply runs_mono; [apply (IH (remaining - Z.of_nat c) (t + r)%nat); [lia| |done]|].
      * intros _. rewrite Hrc, <-Nat.Div0.add_mod_idemp_r, Nat.Div0.mod_same, Nat.add_0_r. auto.
      * intros b w3 (m & Hm & Hs3 & Hb & Hh3). exists m. unfold total in *.
        split_and!; [lia|done| |auto]. intros Hbt. destruct (Hb Hbt); [left; lia|by right].
  - apply runs_ret. exists (Nat.min (t + n) (t + r))%nat. split_and!; [unfold total, r; lia|done|done|auto].
Qed.

Lemma send_then_half_close_ok rounds w :
  sw_wire w = [] →
  runs (send_then_half_close fd config rounds) w (λ _ w',
    sent (sw_wire w') `prefix_of` payload (Z.to_nat (send_bytes config))
    ∧ (HalfClosed ∈ sw_wire w' → sent (sw_wire w') = payload (Z.to_nat (send_bytes config)) ∨ Stopped ∈ sw_wire w')).
Proof.
  intros Hw. unfold send_then_half_close.
  eapply runs_bind; [apply (payload_loop_ok _ _ 0); [lia|intros; by apply Nat.Div0.mod_0_l|by rewrite Hw]|].
  intros ok w1 (n & Hn & Hs1 & Hok & Hh1). cbn [Nat.add] in *.
  assert (Hpre : payload n `prefix_of` payload (Z.to_nat (send_bytes config))).
  { exists (drop n (payload (Z.to_nat (send_bytes config)))). rewrite <-(Nat.min_l _ _ Hn) at 1.
    by rewrite <-take_payload, take_drop. }
  destruct ok; cbn [negb].
  - eapply runs_bind with (P := λ _ w2, sw_wire w2 = sw_wire w1 ++ [HalfClosed]).
    { unfold runs, shutdown_write. by destruct (sys_shutdown_wr _ _). }
    intros ? w2 Hw2. eapply runs_mono; [apply server_drain_ok|]. intros ? w3 (Hs3 & _ & Hp3).
    rewrite Hs3, Hw2, sent_app, Hs1. cbn. rewrite app_nil_r. split; [done|]. intros _.
    destruct (Hok eq_refl) as [->|Hstop]; [by left|right]. destruct Hp3 as [ops ->]. rewrite Hw2.
    by do 2 (apply elem_of_app; left).
  - apply runs_ret. rewrite Hs1. split; [done|]. intros Hh. apply Hh1 in Hh. rewrite Hw in Hh.
    by apply not_elem_of_nil in Hh.
Qed.

(** What a connection of each mode may have on the wire. *)
Definition serves (wire : list ServerOp) : Prop :=
  match server_mode config with
  | ReadUntilEof => sent wire = []
  | SendThenHalfClose =>
      sent wire `prefix_of` payload (Z.to_nat (send_bytes config))
      ∧ (HalfClosed ∈ wire → sent wire = payload (Z.to_nat (send_bytes config)) ∨ Stopped ∈ wire)
  | _ => sent wire `prefix_of` received wire ∧ (HalfClosed ∈ wire → sent wire = received wire)
  end.

Lemma serve_mode_ok rounds w : sw_wire w = [] → runs (serve_mode fd config rounds) w (λ _ w', serves (sw_wire w')).
Proof.
  intros Hw. assert (He : echoed w) by (split; rewrite Hw; [done|apply not_elem_of_nil]).
  unfold serve_mode, serves. destruct (server_mode config).
  1-3: exact (echo_loop_ok rounds _ He).
  - eapply runs_bind; [apply server_drain_ok|]. intros [] w1 (Hs1 & _); rewrite Hw in Hs1; [|by apply runs_ret].
    eapply runs_bind with (P := λ _ w2, sw_wire w2 = sw_wire w1 ++ [HalfClosed]).
    { unfold runs, shutdown_write. by destruct (sys_shutdown_wr _ _). }
    intros ? w2 Hw2. apply runs_ret. rewrite Hw2, sent_app, Hs1. done.
  - by apply send_then_half_close_ok.
Qed.

Lemma serves_closed wire : serves wire → serves (wire ++ [Closed]).
Proof.
  unfold serves. rewrite sent_app, received_app. cbn. rewrite !app_nil_r.
  assert (Hin : HalfClosed ∈ wire ++ [Closed] → HalfClosed ∈ wire) by (intros [?|[=]%list_elem_of_singleton]%elem_of_app; done).
  destruct (server_mode config); try (intros [? Hh]; split; auto; fail); [done|].
  intros [? Hh]. split; [done|]. intros Hc. destruct (Hh (Hin Hc)); [by left|right; apply elem_of_app; by left].
Qed.

End spec.

Lemma parse_mode_name mode : parse_mode (mode_name mode) = Ok mode.
Proof. by destruct mode. Qed.

(** ** Example: an echo with an interrupted and a short send *)

Definition script_worker : WorkerKernel Script := {|
  stop_requested k := (false, k); sleep_for k _ := k; worker_option k _ _ := k; store_done k := k; worker_close k _ := k |}.
#[local] Existing Instance script_worker.

Lemma script_worker_laws : WorkerKernelLaws Script.
Proof. split; [by intros k b k' [= _ <-]|done..]. Qed.
#[local] Existing Instance script_worker_laws.

Lemma script_steady_laws : SteadyKernelLaws Script.
Proof. split; intros [[|[b|e|] es]] fd x r k'; cbn; intros [= <- <-]; cbn; lia. Qed.
#[local] Existing Instance script_steady_laws.

Definition echo_script : Script := mkScript
  [SData [x61; x62; x63]; SError EINTR; SData [x00; x00]; SData [x00]; SError EAGAIN; SEof].

