(* ===== verification/TestServerMain.v ===== *)
(** * The controlled server's program (src/server/main.cpp, main)

    The argument loop, the listener, and the accept loop with the worker threads
    it starts, reaps and joins, up to the exit status. What a worker does is
    [TestServer.serve_client]; here a worker is its number, and the kernel says
    when its flag is set. *)

From Stdlib Require Import ZArith Lia Ascii String.
From stdpp Require Import base numbers list option strings pretty.
From S2P Require Import Prelude Text CommandLine Endpoint SocketIo Relay TestServer.

Local Open Scope Z_scope.

(** ** The arguments *)

(** The text printed by [print_help]. *)
Definition print_help : string :=
"NetFault Lab controlled server (Milestone 2)

Usage:
  netfault-server [--listen 127.0.0.1:9000]
                  [--mode echo|slow-reader|slow-writer|read-until-eof|send-then-half-close]
                  [--delay-ms N] [--chunk-bytes N] [--send-bytes N]

Slow modes delay every read or write operation. read-until-eof discards input and
closes after the peer half-closes. send-then-half-close sends --send-bytes, half-closes
its write side first, then drains input. Only loopback listeners are allowed.
"%string.

Record ServerState := mkServerState { s_listen : Endpoint; s_config : ServerConfig }.

Definition store_listen (v : Endpoint) (s : ServerState) : ServerState := mkServerState v (s_config s).
Definition on_config (f : ServerConfig → ServerConfig) (s : ServerState) : ServerState :=
  mkServerState (s_listen s) (f (s_config s)).
Definition store_server_mode (v : ServerMode) : ServerState → ServerState :=
  on_config (λ c, mkServerConfig v (server_delay c) (chunk_bytes c) (send_bytes c)).
Definition store_delay (v : Z) : ServerState → ServerState :=
  on_config (λ c, mkServerConfig (server_mode c) v (chunk_bytes c) (send_bytes c)).
Definition store_chunk_bytes (v : Z) : ServerState → ServerState :=
  on_config (λ c, mkServerConfig (server_mode c) (server_delay c) v (send_bytes c)).
Definition store_send_bytes (v : Z) : ServerState → ServerState :=
  on_config (λ c, mkServerConfig (server_mode c) (server_delay c) (chunk_bytes c) v).

Section arguments.
Context `{Inet}.

Definition server_stores {A} (read : string → outcome A) (store : A → ServerState → ServerState) : CliOption ServerState :=
  Valued (λ text, store <$> read text).

(** [std::chrono::milliseconds{n}] for a [size_t]: the count is a signed word. *)
Definition server_options : list (string * CliOption ServerState) :=
  [("--listen", server_stores parse store_listen);
   ("--mode", server_stores parse_mode store_server_mode);
   ("--delay-ms", server_stores (λ text, i64_of_u64 <$> server_parse_size text "delay_ms" true) store_delay);
   ("--chunk-bytes", server_stores (λ text, server_parse_size text "chunk_bytes" false) store_chunk_bytes);
   ("--send-bytes", server_stores (λ text, server_parse_size text "send_bytes" false) store_send_bytes)].

(** The variables after the loop, once they were checked. *)
Definition server_command_line (arguments : list string) : outcome (option ServerState) :=
  endpoint ← parse "127.0.0.1:9000";
  parsed ← parse_arguments server_options arguments (mkServerState endpoint default_ServerConfig);
  match parsed with
  | None => Ok None
  | Some s =>
      _ ← check_server (s_listen s) (s_config s);
      Ok (Some s)
  end.
End arguments.

(** ** The accept loop *)

(** The calls of [main] and of the threads library. A call that can fail returns
    its result and errno; the constructor of a thread may throw. *)
Class AcceptKernel (K : Type) := {
  open_listener : K → (Z * Z) * K;
  reuse_address : K → Z → (Z * Z) * K;
  bind_listener : K → Z → sockaddr_in → (Z * Z) * K;
  start_listening : K → Z → (Z * Z) * K;
  accept_client4 : K → Z → (Z * Z) * K;
  signal_flag : K → bool * K;
  start_thread : K → nat → Z → option string * K;
  load_done : K → nat → bool * K;
  request_stop : K → nat → K;
  join_thread : K → nat → K;
  pause_ms : K → Z → K;
  close_listener : K → Z → K;
}.

(** What happened to the listener and to the threads, for the specification. *)
Inductive ServerEvent :=
  | Listening (address : sockaddr_in)
  | Started (worker : nat)
  | StopAsked (worker : nat)
  | Joined (worker : nat)
  | ListenerClosed.

Record MainWorld (K : Type) := mkMainWorld { mw_kernel : K; mw_log : list ServerEvent }.
Arguments mkMainWorld {K} _ _.
Arguments mw_kernel {K} _.
Arguments mw_log {K} _.

(** The number of the next worker. *)
Definition started_count (log : list ServerEvent) : nat :=
  length (log ≫= λ e, match e with Started i => [i] | _ => [] end).

Inductive LoopEnd := StillAccepting | StopSignalled | Failed (what : string).

Section loop.
Context {K : Type} `{AcceptKernel K} `{Libc} `{Inet}.

Abbreviation AM := (M (MainWorld K)).

Definition call {A} (f : K → A * K) : AM A := λ w,
  let '(a, k) := f (mw_kernel w) in Ok (a, mkMainWorld k (mw_log w)).
Definition note (e : ServerEvent) : AM unit := modify (λ w, mkMainWorld (mw_kernel w) (mw_log w ++ [e])).

(** The destructor of a [std::jthread]. *)
Definition stop_worker (i : nat) : AM unit :=
  _ ← call (λ k, (tt, request_stop k i));
  note (StopAsked i).
Definition destroy_worker (i : nat) : AM unit :=
  _ ← stop_worker i;
  _ ← call (λ k, (tt, join_thread k i));
  note (Joined i).

Fixpoint for_workers (f : nat → AM unit) (workers : list nat) : AM unit :=
  match workers with
  | [] => mret tt
  | i :: workers => _ ← f i; for_workers f workers
  end.

(** The workers whose flag is set, and the others. *)
Fixpoint load_flags (workers : list nat) : AM (list nat * list nat) :=
  match workers with
  | [] => mret ([], [])
  | i :: workers =>
      done ← call (λ k, load_done k i);
      '(finished, running) ← load_flags workers;
      mret (if (done : bool) then (i :: finished, running) else (finished, i :: running))
  end.

(** [std::erase_if] over the slots: those removed are destroyed. *)
Definition reap_finished (workers : list nat) : AM (list nat) :=
  '(finished, running) ← load_flags workers;
  _ ← for_workers destroy_worker finished;
  mret running.

(** A thread for the connection, and its slot. *)
Definition start_worker (fd : Z) (workers : list nat) : AM (string + list nat) :=
  i ← gets (λ w, started_count (mw_log w));
  failure ← call (λ k, start_thread k i fd);
  match failure with
  | Some what => mret (inl what)
  | None =>
      _ ← note (Started i);
      mret (inr (workers ++ [i]))
  end.

(** The endless loop is run for [rounds] rounds. *)
Fixpoint accept_workers (rounds : nat) (listener : Z) (workers : list nat) : AM (LoopEnd * list nat) :=
  stop ← call signal_flag;
  if (stop : bool) then mret (StopSignalled, workers)
  else
    match rounds with
    | O => mret (StillAccepting, workers)
    | S rounds =>
        '(fd, err) ← call (λ k, accept_client4 k listener);
        if 0 <=? fd then
          workers ← reap_finished workers;
          started ← start_worker fd workers;
          match started with
          | inl what => mret (Failed what, workers)
          | inr workers => accept_workers rounds listener workers
          end
        else if (err =? EINTR) || (err =? EAGAIN) || (err =? EWOULDBLOCK) then
          workers ← reap_finished workers;
          _ ← call (λ k, (tt, pause_ms k 10));
          accept_workers rounds listener workers
        else mret (Failed ("accept: " +:+ strerror err), workers)
    end.

(** The listening socket, or the message of the exception. *)
Definition create_listener (listen : Endpoint) (listener : Z) : AM (option string) :=
  '(rc, err) ← call (λ k, reuse_address k listener);
  if rc <? 0 then mret (Some ("setsockopt: " +:+ strerror err))
  else
    address ← lift (to_sockaddr listen);
    '(rc, err) ← call (λ k, bind_listener k listener address);
    if rc <? 0 then mret (Some ("bind/listen: " +:+ strerror err))
    else
      '(rc, err) ← call (λ k, start_listening k listener);
      if rc <? 0 then mret (Some ("bind/listen: " +:+ strerror err))
      else
        _ ← note (Listening address);
        mret None.

(** From the listener to the end of the [try] block: the exit status with the
    message of the exception, if any; [None] while the loop runs. The workers
    are destroyed and the listener is closed on every way out. *)
Definition serve (rounds : nat) (s : ServerState) : AM (option (Z * string)) :=
  '(listener, err) ← call open_listener;
  if listener <? 0 then mret (Some (EXIT_FAILURE, "netfault-server: socket: " +:+ strerror err))
  else
    failure ← create_listener (s_listen s) listener;
    match failure with
    | Some what =>
        _ ← call (λ k, (tt, close_listener k listener));
        _ ← note ListenerClosed;
        mret (Some (EXIT_FAILURE, "netfault-server: " +:+ what))
    | None =>
        '(ending, workers) ← accept_workers rounds listener [];
        match ending with
        | StillAccepting => mret None
        | StopSignalled =>
            _ ← for_workers stop_worker workers;
            _ ← for_workers destroy_worker workers;
            _ ← call (λ k, (tt, close_listener k listener));
            _ ← note ListenerClosed;
            mret (Some (EXIT_SUCCESS, ""))
        | Failed what =>
            _ ← for_workers destroy_worker workers;
            _ ← call (λ k, (tt, close_listener k listener));
            _ ← note ListenerClosed;
            mret (Some (EXIT_FAILURE, "netfault-server: " +:+ what))
        end
    end.

(** The exit status with what is printed to standard error. *)
Definition server_main (rounds : nat) (arguments : list string) : AM (option (Z * string)) := λ w,
  match server_command_line arguments with
  | Throw (InvalidArgument what | OutOfRange what | LengthError what | RuntimeError what) =>
      Ok (Some (EXIT_FAILURE, "netfault-server: " +:+ what), w)
  | Undefined => Undefined
  | OutOfFuel => OutOfFuel
  | Ok None => Ok (Some (EXIT_SUCCESS, print_help), w)
  | Ok (Some s) => serve rounds s w
  end.
End loop.
