(* ===== verification/TestServerMainSpec.v ===== *)
(** * What the controlled server's program guarantees

    It listens on loopback addresses only, and every thread it starts is asked
    to stop and joined once before it exits, on every way out. *)

From Stdlib Require Import ZArith Lia Ascii String.
From stdpp Require Import base numbers list option strings pretty.
From S2P Require Import Prelude Text CommandLine Endpoint SocketIo Relay TestServer.
From S2P Require Import TestServerMain.

Local Open Scope Z_scope.

Definition started (log : list ServerEvent) : list nat := log ≫= λ e, match e with Started i => [i] | _ => [] end.
Definition joined (log : list ServerEvent) : list nat := log ≫= λ e, match e with Joined i => [i] | _ => [] end.

(** A thread is joined after it was started and asked to stop. *)
Definition joins_follow (log : list ServerEvent) : Prop :=
  ∀ i before after, log = before ++ Joined i :: after → Started i ∈ before ∧ StopAsked i ∈ before.

Definition listens_on_loopback (log : list ServerEvent) : Prop :=
  ∀ address, Listening address ∈ log → 2130706432 ≤ sin_addr address ≤ 2147483647.

Lemma started_app l1 l2 : started (l1 ++ l2) = started l1 ++ started l2.
Proof. apply bind_app. Qed.
Lemma joined_app l1 l2 : joined (l1 ++ l2) = joined l1 ++ joined l2.
Proof. apply bind_app. Qed.

Lemma elem_of_started i log : i ∈ started log → Started i ∈ log.
Proof.
  unfold started. rewrite list_elem_of_bind. intros (e & Hi & He). destruct e; try by apply not_elem_of_nil in Hi.
  by apply list_elem_of_singleton in Hi as ->.
Qed.

Lemma joins_follow_app log e :
  joins_follow log → (∀ i, e = Joined i → Started i ∈ log ∧ StopAsked i ∈ log) → joins_follow (log ++ [e]).
Proof.
  intros Hl He i before after Heq. destruct after as [|a after _] using rev_ind.
  - apply app_inj_tail in Heq as [<- ->]. by apply He.
  - rewrite app_comm_cons, app_assoc in Heq. apply app_inj_tail in Heq as [-> _]. by eapply Hl.
Qed.

Lemma listens_app log e :
  listens_on_loopback log → (∀ a, e = Listening a → 2130706432 ≤ sin_addr a ≤ 2147483647) → listens_on_loopback (log ++ [e]).
Proof. intros Hl He a [Ha|Ha%list_elem_of_singleton]%elem_of_app; [by apply Hl|by apply He]. Qed.

(** The workers that were started and not yet joined. *)
Record alive (workers : list nat) (log : list ServerEvent) : Prop := {
  al_numbers : started log = seq 0 (length (started log));
  al_workers : joined log ++ workers ≡ₚ started log;
  al_joins : joins_follow log;
  al_listens : listens_on_loopback log;
}.

Lemma alive_started i workers log : alive workers log → i ∈ workers → Started i ∈ log.
Proof. intros A Hi. apply elem_of_started. rewrite <-(al_workers _ _ A). apply elem_of_app. by right. Qed.

Lemma alive_perm ws1 ws2 log : ws1 ≡ₚ ws2 → alive ws1 log → alive ws2 log.
Proof. intros Hp []. split; [done|by rewrite <-Hp|done..]. Qed.

Lemma alive_stop workers log i : alive workers log → alive workers (log ++ [StopAsked i]).
Proof.
  intros [Hn Hw Hj Hl]. split; rewrite ?started_app, ?joined_app; cbn [started joined mbind list_bind app]; rewrite ?app_nil_r; try done.
  - by apply joins_follow_app.
  - by apply listens_app.
Qed.

Lemma alive_join workers log i :
  alive (i :: workers) log → StopAsked i ∈ log → alive workers (log ++ [Joined i]).
Proof.
  intros A Hs. pose proof (alive_started i _ _ A ltac:(left)) as Hstarted. destruct A as [Hn Hw Hj Hl].
  split; rewrite ?started_app, ?joined_app; cbn [started joined mbind list_bind app]; rewrite ?app_nil_r; try done.
  - rewrite <-app_assoc. cbn. exact Hw.
  - apply joins_follow_app; [done|]. by intros ? [= ->].
  - by apply listens_app.
Qed.

Lemma alive_start workers log :
  alive workers log → alive (workers ++ [started_count log]) (log ++ [Started (started_count log)]).
Proof.
  intros [Hn Hw Hj Hl].
  split; rewrite ?started_app, ?joined_app; cbn [started joined mbind list_bind app]; rewrite ?app_nil_r.
  - rewrite length_app. cbn. rewrite Nat.add_1_r, seq_S, Hn at 1. done.
  - by rewrite app_assoc, Hw.
  - by apply joins_follow_app.
  - by apply listens_app.
Qed.

Section loop.
#[local] Set Default Proof Using "Type*".
Context {K : Type} `{AcceptKernel K} `{Libc} `{InetLaws}.
Implicit Types (w : MainWorld K).

Lemma call_ok {A} (f : K → A * K) w : runs (call f) w (λ _ w', mw_log w' = mw_log w).
Proof. unfold runs, call. by destruct (f _). Qed.

Lemma note_ok e w : runs (note (K := K) e) w (λ _ w', mw_log w' = mw_log w ++ [e]).
Proof. done. Qed.

Lemma stop_worker_ok i w : runs (stop_worker (K := K) i) w (λ _ w', mw_log w' = mw_log w ++ [StopAsked i]).
Proof. unfold stop_worker. eapply runs_bind; [apply call_ok|]. intros ? w1 <-. apply note_ok. Qed.

Lemma destroy_worker_ok i workers w :
  alive (i :: workers) (mw_log w) → runs (destroy_worker (K := K) i) w (λ _ w', alive workers (mw_log w')).
Proof.
  intros A. unfold destroy_worker. eapply runs_bind; [apply stop_worker_ok|]. intros ? w1 Hw1.
  eapply runs_bind; [apply call_ok|]. intros ? w2 Hw2. eapply runs_mono; [apply note_ok|]. intros ? w3 ->.
  rewrite Hw2, Hw1. apply alive_join; [by apply alive_stop|]. apply elem_of_app. right. left.
Qed.

Lemma destroy_workers_ok finished workers w :
  alive (finished ++ workers) (mw_log w) →
  runs (for_workers (destroy_worker (K := K)) finished) w (λ _ w', alive workers (mw_log w')).
Proof.
  revert w. induction finished as [|i finished IH]; intros w A; cbn [for_workers]; [by apply runs_ret|].
  eapply runs_bind; [by apply (destroy_worker_ok i (finished ++ workers))|]. intros ? w1 A1. by apply IH.
Qed.

Lemma stop_workers_ok asked workers w :
  alive workers (mw_log w) → runs (for_workers (stop_worker (K := K)) asked) w (λ _ w', alive workers (mw_log w')).
Proof.
  revert w. induction asked as [|i asked IH]; intros w A; cbn [for_workers]; [by apply runs_ret|].
  eapply runs_bind; [apply stop_worker_ok|]. intros ? w1 Hw1. apply IH. rewrite Hw1. by apply alive_stop.
Qed.

Lemma load_flags_ok workers w :
  runs (load_flags (K := K) workers) w (λ '(finished, running) w', finished ++ running ≡ₚ workers ∧ mw_log w' = mw_log w).
Proof.
  revert w. induction workers as [|i workers IH]; intros w; cbn [load_flags]; [by apply runs_ret|].
  eapply runs_bind; [apply call_ok|]. intros done w1 Hw1. eapply runs_bind; [apply IH|].
  intros [finished running] w2 [Hp Hw2]. rewrite Hw1 in Hw2. destruct done; apply runs_ret; (split; [|done]); cbn.
  - by rewrite Hp.
  - by rewrite <-Permutation_middle, Hp.
Qed.

Lemma reap_finished_ok workers w :
  alive workers (mw_log w) → runs (reap_finished (K := K) workers) w (λ running w', alive running (mw_log w')).
Proof.
  intros A. unfold reap_finished. eapply runs_bind; [apply load_flags_ok|]. intros [finished running] w1 [Hp Hw1].
  eapply runs_bind; [apply (destroy_workers_ok finished running)|].
  { rewrite Hw1. by eapply alive_perm. }
  intros ? w2 A2. by apply runs_ret.
Qed.

Lemma start_worker_ok fd workers w :
  alive workers (mw_log w) →
  runs (start_worker (K := K) fd workers) w (λ r w', alive (match r with inl _ => workers | inr ws => ws end) (mw_log w')).
Proof.
  intros A. unfold start_worker. apply runs_gets_bind. eapply runs_bind; [apply call_ok|]. intros [what|] w1 Hw1.
  - apply runs_ret. by rewrite Hw1.
  - eapply runs_bind; [apply note_ok|]. intros ? w2 Hw2. apply runs_ret. rewrite Hw2, Hw1. by apply alive_start.
Qed.

Lemma accept_workers_ok rounds listener workers w :
  alive workers (mw_log w) →
  runs (accept_workers (K := K) rounds listener workers) w (λ '(_, ws) w', alive ws (mw_log w')).
Proof.
  revert workers w. induction rounds as [|rounds IH]; intros workers w A; cbn [accept_workers];
    (eapply runs_bind; [apply call_ok|]; intros [] w1 Hw1; [apply runs_ret; by rewrite Hw1|]).
  { apply runs_ret. by rewrite Hw1. }
  eapply runs_bind; [apply call_ok|]. intros [fd err] w2 Hw2. assert (A2 : alive workers (mw_log w2)) by congruence.
  destruct (0 <=? fd); [|destruct (_ || _)].
  - eapply runs_bind; [by apply reap_finished_ok|]. intros ws w3 A3.
    eapply runs_bind; [by apply start_worker_ok|]. intros [what|ws'] w4 A4; [by apply runs_ret|by apply IH].
  - eapply runs_bind; [by apply reap_finished_ok|]. intros ws w3 A3.
    eapply runs_bind; [apply call_ok|]. intros ? w4 Hw4. apply IH. by rewrite Hw4.
  - by apply runs_ret.
Qed.

(** What is true at the end, whatever the way out was. *)
Definition all_joined (log : list ServerEvent) : Prop :=
  alive [] log ∧ (log = [] ∨ last log = Some ListenerClosed).

Lemma alive_closed workers log : alive workers log → alive workers (log ++ [ListenerClosed]).
Proof.
  intros [Hn Hw Hj Hl]. split; rewrite ?started_app, ?joined_app; cbn [started joined mbind list_bind app]; rewrite ?app_nil_r; try done.
  - by apply joins_follow_app.
  - by apply listens_app.
Qed.

Lemma closing_ok {X} (x : X) listener w :
  alive [] (mw_log w) →
  runs (_ ← call (λ k, (tt, close_listener k listener)); _ ← note (K := K) ListenerClosed; mret x) w
    (λ y w', y = x ∧ all_joined (mw_log w')).
Proof.
  intros A. eapply runs_bind; [apply call_ok|]. intros ? w1 Hw1. eapply runs_bind; [apply note_ok|].
  intros ? w2 Hw2. apply runs_ret. rewrite Hw2, Hw1. split; [done|]. split; [by apply alive_closed|].
  right. by rewrite last_snoc.
Qed.

Lemma create_listener_ok listen listener w :
  loopback_address listen → mw_log w = [] →
  runs (create_listener (K := K) listen listener) w (λ _ w', alive [] (mw_log w')).
Proof.
  intros (a & Ha & Hloop) Hw. unfold create_listener.
  assert (A : ∀ w', mw_log w' = [] → alive [] (mw_log w')).
  { intros w' ->. split; cbn; [done..| |]; [intros i [|] after; by intros|by intros a' ?%not_elem_of_nil]. }
  eapply runs_bind; [apply call_ok|]. intros [rc err] w1 Hw1. rewrite Hw in Hw1. destruct (rc <? 0); [by apply runs_ret, A|].
  eapply runs_lift_bind with (P := λ x, sin_addr x = a); [unfold to_sockaddr; by rewrite Ha|]. intros x Hx.
  eapply runs_bind; [apply call_ok|]. intros [rc2 err2] w2 Hw2. rewrite Hw1 in Hw2. destruct (rc2 <? 0); [by apply runs_ret, A|].
  eapply runs_bind; [apply call_ok|]. intros [rc3 err3] w3 Hw3. rewrite Hw2 in Hw3. destruct (rc3 <? 0); [by apply runs_ret, A|].
  eapply runs_bind; [apply note_ok|]. intros ? w4 Hw4. apply runs_ret. rewrite Hw4, Hw3. destruct (A w3 Hw3) as [Hn Hws Hj Hl].
  split; [done|done| |].
  - apply (joins_follow_app []); [by rewrite <-Hw3|done].
  - apply (listens_app []); [by rewrite <-Hw3|]. intros b [= <-]. lia.
Qed.

Lemma serve_ok rounds s w :
  loopback_address (s_listen s) → mw_log w = [] →
  runs (serve (K := K) rounds s) w (λ r w',
    match r with Some _ => all_joined (mw_log w') | None => ∃ workers, alive workers (mw_log w') end).
Proof.
  intros Hs Hw. unfold serve. eapply runs_bind; [apply call_ok|]. intros [listener err] w1 Hw1. rewrite Hw in Hw1.
  assert (Hdone : ∀ x w', alive [] (mw_log w') → runs
      (_ ← call (λ k, (tt, close_listener k listener)); _ ← note (K := K) ListenerClosed; mret (Some x)) w'
      (λ r w', match r : option (Z * string) with Some _ => all_joined (mw_log w') | None => ∃ workers, alive workers (mw_log w') end)).
  { intros x w' A. eapply runs_mono; [by apply closing_ok|]. by intros ? w2 [-> ?]. }
  destruct (listener <? 0).
  { apply runs_ret. rewrite Hw1. split; [|by left].
    split; cbn; [done..| |]; [intros i [|] after; by intros|by intros a' ?%not_elem_of_nil]. }
  eapply runs_bind; [by apply create_listener_ok|]. intros [what|] w2 A2; [by apply Hdone|].
  eapply runs_bind; [by apply accept_workers_ok|]. intros [[| |what] workers] w3 A3.
  - apply runs_ret. by exists workers.
  - eapply runs_bind; [by apply stop_workers_ok|]. intros ? w4 A4.
    eapply runs_bind; [apply (destroy_workers_ok workers []); by rewrite app_nil_r|]. intros ? w5 A5. by apply Hdone.
  - eapply runs_bind; [apply (destroy_workers_ok workers []); by rewrite app_nil_r|]. intros ? w5 A5. by apply Hdone.
Qed.
End loop.

(** ** The arguments *)

Section arguments.
#[local] Set Default Proof Using "Type*".
Context `{InetLaws}.

Lemma server_options_defined argument f text : option_for server_options argument = Some (Valued f) → defined (f text).
Proof.
  intros Ho%option_for_elem. unfold server_options, server_stores in Ho.
  assert (Hsize : ∀ name zero, defined (server_parse_size text name zero)).
  { intros name zero. unfold server_parse_size. destruct (from_chars _ _ _) as [[error v] end_].
    by apply defined_bind; [apply defined_throw_if|]. }
  repeat match type of Ho with _ ∈ _ :: _ => apply elem_of_cons in Ho as [[= _ ->]|Ho] end;
    [..|by apply not_elem_of_nil in Ho]; apply defined_fmap; try apply defined_fmap; try apply Hsize; try apply parse_defined.
  unfold parse_mode. by repeat case_decide.
Qed.

Lemma server_command_line_defined arguments : defined (server_command_line arguments).
Proof.
  unfold server_command_line. apply defined_bind; [apply parse_defined|]. intros e _.
  apply defined_bind; [apply parse_arguments_defined; intros; by eapply server_options_defined|].
  intros [s|] _; [|done]. apply defined_bind; [|done]. unfold check_server.
  apply defined_bind; [apply is_loopback_defined|]. intros b _.
  by repeat (apply defined_bind; [apply defined_throw_if|]; intros ? _).
Qed.

Lemma server_command_line_loopback arguments s :
  server_command_line arguments = Ok (Some s) → loopback_address (s_listen s).
Proof.
  unfold server_command_line. intros (e & _ & Hp)%bind_Ok. apply bind_Ok in Hp as ([s'|] & Hp & Hc); [|done].
  apply bind_Ok in Hc as (u & Hcheck & [= ->]). unfold check_server in Hcheck. apply bind_Ok in Hcheck as (b & Hb & Hcheck).
  rewrite throw_if_Ok, negb_false_iff in Hcheck. destruct Hcheck as [-> _]. by apply is_loopback_true.
Qed.
End arguments.

Section program.
#[local] Set Default Proof Using "Type*".
Context {K : Type} `{AcceptKernel K} `{Libc} `{InetLaws}.

(** C28: the test server's threads: from any arguments and whatever its calls
    answer, the program returns or keeps accepting, listens on loopback
    addresses only, numbers its threads as it starts them, and joins a thread
    only after it was started and asked to stop. When it exits, on whatever way
    out, exactly the threads that were started have been joined, each once, and
    the listener was closed after that; before, no thread was joined twice. *)
Theorem server_main_lifecycle rounds arguments k :
  runs (server_main (K := K) rounds arguments) (mkMainWorld k []) (λ r w,
    let log := mw_log w in
    listens_on_loopback log ∧ joins_follow log ∧ started log = seq 0 (length (started log))
    ∧ match r with
      | None => ∃ workers, joined log ++ workers ≡ₚ started log
      | Some _ => joined log ≡ₚ started log ∧ (log = [] ∨ last log = Some ListenerClosed)
      end).
Proof.
  assert (A : alive [] []).
  { split; cbn; [done..| |]; [intros i [|] after; by intros|by intros a ?%not_elem_of_nil]. }
  unfold server_main. pose proof (server_command_line_defined arguments) as Hdef. unfold runs.
  destruct (server_command_line arguments) as [[s|]|e| |] eqn:E; try done.
  - pose proof (serve_ok rounds s (mkMainWorld k []) (server_command_line_loopback _ _ E) eq_refl) as Hs.
    apply runs_inv in Hs as (r & w & -> & Hr). destruct r; cbn in *.
    + destruct Hr as [[Hn Hw Hj Hl] Hlast]. rewrite app_nil_r in Hw. done.
    + destruct Hr as [workers [Hn Hw Hj Hl]]. split_and!; [done..|]. by exists workers.
  - cbn. destruct A. split_and!; try done. by left.
  - destruct e; cbn; destruct A; (split_and!; try done; by left).
Qed.
End program.

(** ** Example: two connections, the first worker finished when the second
    arrives, then a signal *)

Record AcceptScript := mkAcceptScript { accepts : list (Z * Z); finished_by : list nat }.

Definition script_accept : AcceptKernel AcceptScript := {|
  open_listener k := ((3, 0), k);
  reuse_address k _ := ((0, 0), k);
  bind_listener k _ _ := ((0, 0), k);
  start_listening k _ := ((0, 0), k);
  accept_client4 k _ :=
    match accepts k with
    | [] => ((-1, EAGAIN), k)
    | r :: rest => (r, mkAcceptScript rest (finished_by k))
    end;
  signal_flag k := (bool_decide (accepts k = []), k);
  start_thread k _ _ := (None, k);
  load_done k i := (bool_decide (i ∈ finished_by k), k);
  request_stop k _ := k;
  join_thread k _ := k;
  pause_ms k _ := k;
  close_listener k _ := k;
|}.
#[local] Existing Instance script_accept.
#[local] Existing Instance example_inet.
#[local] Existing Instance example_inet_laws.
#[local] Instance server_libc : Libc := {| strerror := λ _, "error"%string |}.

Lemma server_main_lifecycle_witness :
  let script := mkAcceptScript [(7, 0); (-1, EINTR); (8, 0)] [0%nat] in
  let run := server_main 10 ["--mode"; "slow-reader"]%string (mkMainWorld script []) in
  run = Ok (Some (EXIT_SUCCESS, ""%string),
            mkMainWorld (mkAcceptScript [] [0%nat])
              [Listening (mkSockaddr 9000 2130706433); Started 0; StopAsked 0; Joined 0; Started 1; StopAsked 1; StopAsked 1;
               Joined 1; ListenerClosed])
  ∧ ∃ r w, run = Ok (r, w) ∧ joined (mw_log w) ≡ₚ started (mw_log w).
Proof.
  intros script run. assert (Hrun : run = Ok (Some (EXIT_SUCCESS, ""%string),
            mkMainWorld (mkAcceptScript [] [0%nat])
              [Listening (mkSockaddr 9000 2130706433); Started 0; StopAsked 0; Joined 0; Started 1; StopAsked 1; StopAsked 1;
               Joined 1; ListenerClosed])) by (vm_compute; reflexivity).
  split; [exact Hrun|]. pose proof (server_main_lifecycle 10 ["--mode"; "slow-reader"]%string script) as Hok.
  unfold runs in Hok. fold run in Hok. rewrite Hrun in Hok |- *. eexists _, _. split; [reflexivity|].
  exact (proj1 (proj2 (proj2 (proj2 Hok)))).
Defined.

(** A delay beyond the signed range is taken as a negative one, passes the limit
    and delays nothing. *)
Example delay_wraps :
  server_command_line ["--delay-ms"; "18446744073709551615"]%string
  = Ok (Some (mkServerState (mkEndpoint "127.0.0.1" 9000) (mkServerConfig Echo (-1) 16384 65536))).
Proof. by vm_compute. Qed.
