(* ===== verification/Mt19937.v ===== *)
(** * std::mt19937_64

    The standard's 64-bit Mersenne Twister, as the sequence of 64-bit words its
    definition gives; the test client draws its payloads from it. *)

From Stdlib Require Import ZArith Lia.
From stdpp Require Import base numbers list.
From S2P Require Import Prelude.

Local Open Scope Z_scope.

Definition state_size : nat := 312.
Definition shift_size : nat := 156.
Definition lower_mask : Z := 0x7FFFFFFF.
Definition xor_mask : Z := 0xB5026F5AA96619E9.
Definition initialization_multiplier : Z := 6364136223846793005.

(** The last [state_size] words, oldest first. *)
Definition Mt19937 : Type := list Z.

(** [n] further words of the seed sequence, after the word [x] at [index]. *)
Fixpoint seed_words (n : nat) (index x : Z) : list Z :=
  match n with
  | O => []
  | S n =>
      let y := u64_add (u64_mul initialization_multiplier (Z.lxor x (Z.shiftr x 62))) index in
      y :: seed_words n (index + 1) y
  end.

Definition seed_engine (seed : Z) : Mt19937 := wrap64 seed :: seed_words (state_size - 1) 1 (wrap64 seed).

Definition temper (x : Z) : Z :=
  let z := Z.lxor x (Z.land (Z.shiftr x 29) 0x5555555555555555) in
  let z := Z.lxor z (Z.land (wrap64 (Z.shiftl z 17)) 0x71D67FFFEDA60000) in
  let z := Z.lxor z (Z.land (wrap64 (Z.shiftl z 37)) 0xFFF7EEE000000000) in
  Z.lxor z (Z.shiftr z 43).

(** The next word of the sequence, tempered. *)
Definition draw (engine : Mt19937) : Z * Mt19937 :=
  match engine with
  | x0 :: (x1 :: _) as rest =>
      let y := Z.lor (Z.ldiff x0 lower_mask) (Z.land x1 lower_mask) in
      let x := Z.lxor (Z.lxor (nth shift_size engine 0) (Z.shiftr y 1)) (if Z.odd y then xor_mask else 0) in
      (temper x, rest ++ [x])
  | _ => (0, engine)
  end.

Fixpoint draws (n : nat) (engine : Mt19937) : list Z :=
  match n with
  | O => []
  | S n => let '(z, engine) := draw engine in z :: draws n engine
  end.

(** The first outputs of the default seed. *)
Example default_seed_outputs :
  draws 3 (seed_engine 5489) = [14514284786278117030; 4620546740167642908; 13109570281517897720].
Proof. vm_compute. reflexivity. Qed.
