(* ===== verification/TestClient.v ===== *)
(** * The deterministic client (src/client/main.cpp)

    The request/response exchange, the bulk transfer with its two threads, and
    the checks of the command line, over the system calls a connection makes. *)

From Stdlib Require Import ZArith Lia Strings.Byte Ascii String.
From stdpp Require Import base numbers list option strings pretty.
From S2P Require Import Prelude Text Endpoint SocketIo Relay Mt19937 TestServer.

Local Open Scope Z_scope.

#[global] Instance byte_decision : EqDecision byte := Byte.byte_eq_dec.

Inductive ClientMode := Bulk | RequestResponse.

Record Result := mkResult {
  success : bool;
  error : string;
  duration_us : Z;
  bytes : Z;
  latency_samples_us : list Z;
}.

Definition empty_Result : Result := mkResult false "" 0 0 [].
Definition set_error (e : string) (r : Result) : Result :=
  mkResult (success r) e (duration_us r) (bytes r) (latency_samples_us r).
Definition add_sample (us : Z) (r : Result) : Result :=
  mkResult (success r) (error r) (duration_us r) (bytes r) (latency_samples_us r ++ [us]).

Definition set_duration (us : Z) (r : Result) : Result :=
  mkResult (success r) (error r) us (bytes r) (latency_samples_us r).
Definition set_success (r : Result) : Result :=
  mkResult true (error r) (duration_us r) (bytes r) (latency_samples_us r).

(** The state of a bulk connection: where the writing thread is, whether the
    reading thread runs, its variables [received] and [receive_error], and
    [result]. *)
Inductive Thread := Writer | Reader.
Inductive WriterAt := Sending (offset : Z) | ShuttingWrite | ShuttingBoth | JoiningFailed | Joining | Returned.
#[global] Instance WriterAt_eq_dec : EqDecision WriterAt.
Proof. solve_decision. Defined.

Record BulkState := mkBulkState {
  writer : WriterAt;
  reading : bool;
  stored : list byte;
  receive_error : string;
  bulk_result : Result;
}.
Definition set_writer (pc : WriterAt) (b : BulkState) : BulkState :=
  mkBulkState pc (reading b) (stored b) (receive_error b) (bulk_result b).
Definition set_stored (bs : list byte) (b : BulkState) : BulkState :=
  mkBulkState (writer b) (reading b) bs (receive_error b) (bulk_result b).
Definition stop_reading (e : string) (b : BulkState) : BulkState :=
  mkBulkState (writer b) false (stored b) e (bulk_result b).
Definition on_result (f : Result → Result) (b : BulkState) : BulkState :=
  mkBulkState (writer b) (reading b) (stored b) (receive_error b) (f (bulk_result b)).

(** ** The command line *)

Definition client_parse_size (text name : string) : outcome Z :=
  let '(error, value, end_) := from_chars (two64 - 1) 0 text in
  _ ← throw_if (bool_decide (error ≠ NoError) || bool_decide (end_ ≠ "") || (value =? 0))
        (InvalidArgument (name +:+ " must be a positive integer"));
  Ok value.

Definition parse_seed (text : string) : outcome Z :=
  let '(error, value, end_) := from_chars (two64 - 1) 0 text in
  _ ← throw_if (bool_decide (error ≠ NoError) || bool_decide (end_ ≠ ""))
        (InvalidArgument "seed must be an unsigned integer");
  Ok value.

(** The limits checked by [main] before any connection is made. *)
Definition check_client `{Inet} (endpoint : Endpoint)
    (connection_count payload_bytes requests warmup request_bytes : Z) : outcome unit :=
  loopback ← is_loopback endpoint;
  _ ← throw_if (negb loopback) (InvalidArgument "the client only permits loopback destinations");
  _ ← throw_if ((1024 <? connection_count) || (64 * 1024 * 1024 <? payload_bytes))
        (InvalidArgument "requested workload exceeds the safety limit");
  _ ← throw_if ((100000 <? requests) || (1000 <? warmup) || (1 * 1024 * 1024 <? request_bytes)
                || (1000000 <? u64_mul connection_count requests))
        (InvalidArgument "requested benchmark exceeds the sample safety limit");
  Ok tt.

(** ** The connection *)

(** The calls besides [send], [recv] and the shutdown of the write side. *)
Class ClientKernel (K : Type) := {
  sys_socket : K → (Z * Z) * K;
  sys_set_option : K → Z → Z → K;
  sys_connect : K → Z → sockaddr_in → (Z * Z) * K;
  sys_shutdown_both : K → Z → K;
  steady_clock : K → Z * K;
  sys_close : K → Z → K;
}.

(** None of them, nor the shutdown of the write side, adds to the interruptions
    to come. *)
Class ClientKernelLaws (K : Type) `{SocketKernel K} `{ClientKernel K} : Prop := {
  shutdown_wr_interruptions k fd r k' : sys_shutdown_wr k fd = (r, k') → (interruptions k' ≤ interruptions k)%nat;
  shutdown_both_interruptions k fd : (interruptions (sys_shutdown_both k fd) ≤ interruptions k)%nat;
  clock_interruptions k t k' : steady_clock k = (t, k') → (interruptions k' ≤ interruptions k)%nat;
  socket_interruptions k r k' : sys_socket k = (r, k') → (interruptions k' ≤ interruptions k)%nat;
  set_option_interruptions k fd o : (interruptions (sys_set_option k fd o) ≤ interruptions k)%nat;
  connect_interruptions k fd a r k' : sys_connect k fd a = (r, k') → (interruptions k' ≤ interruptions k)%nat;
}.

Definition TCP_NODELAY : Z := 1.

Section client.
Context {K : Type} `{SocketKernel K} `{ClientKernel K} `{Libc} `{Inet}.

Abbreviation CM := (M (ServerWorld K)).

Definition client_socket : CM (Z * Z) := λ w,
  let '(r, k) := sys_socket (sw_kernel w) in Ok (r, mkServerWorld k (sw_wire w)).
Definition client_option (fd option_name : Z) : CM unit := λ w,
  Ok (tt, mkServerWorld (sys_set_option (sw_kernel w) fd option_name) (sw_wire w)).
Definition client_connect (fd : Z) (address : sockaddr_in) : CM (Z * Z) := λ w,
  let '(r, k) := sys_connect (sw_kernel w) fd address in Ok (r, mkServerWorld k (sw_wire w)).
Definition client_now : CM Z := λ w,
  let '(t, k) := steady_clock (sw_kernel w) in Ok (t, mkServerWorld k (sw_wire w)).

Definition client_shutdown_both (fd : Z) : CM unit := λ w,
  Ok (tt, mkServerWorld (sys_shutdown_both (sw_kernel w) fd) (sw_wire w)).

(** The shutdown whose result is looked at. *)
Definition client_shutdown_write (fd : Z) : CM (Z * Z) := λ w,
  let '((rc, err), k) := sys_shutdown_wr (sw_kernel w) fd in
  Ok ((rc, err), mkServerWorld k (if rc <? 0 then sw_wire w else sw_wire w ++ [HalfClosed])).

(** The destructor of the [UniqueFd]. *)
Definition client_close (fd : Z) : CM unit := λ w,
  Ok (tt, mkServerWorld (sys_close (sw_kernel w) fd) (sw_wire w ++ [Closed])).

Definition sample_microseconds (ns : Z) : Z := Z.quot ns 1000.

(** Sends everything, or returns the error. *)
Fixpoint client_send_loop (fuel : nat) (fd : Z) (payload : list byte) (offset : Z) : CM (option string) :=
  if offset <? Z.of_nat (length payload) then
    match fuel with
    | O => out_of_fuel
    | S fuel =>
        '(count, err) ← send fd (drop (Z.to_nat offset) payload);
        if 0 <? count then client_send_loop fuel fd payload (offset + count)
        else if (count <? 0) && (err =? EINTR) then client_send_loop fuel fd payload offset
        else mret (Some ("send=" +:+ strerror err))
    end
  else mret None.

Definition client_send_all (fd : Z) (payload : list byte) : CM (option string) :=
  fuel ← gets (λ w, (length payload + interruptions (sw_kernel w))%nat);
  client_send_loop fuel fd payload 0.

(** Receives exactly [expected] bytes into the buffer, or returns the error. *)
Fixpoint receive_exact_loop (fuel : nat) (fd : Z) (buffer : list byte) (expected received : Z) :
    CM (option string * list byte) :=
  if received <? expected then
    match fuel with
    | O => out_of_fuel
    | S fuel =>
        '(count, err, bs) ← recv fd (expected - received);
        if 0 <? count then
          receive_exact_loop fuel fd (overwrite (Z.to_nat received) bs buffer) expected (received + count)
        else if count =? 0 then mret (Some "unexpected_eof_mid_response", buffer)
        else if err =? EINTR then receive_exact_loop fuel fd buffer expected received
        else mret (Some ("recv=" +:+ strerror err), buffer)
    end
  else mret (None, buffer).

Definition receive_exact (fd : Z) (buffer : list byte) (expected : Z) : CM (option string * list byte) :=
  fuel ← gets (λ w, (Z.to_nat expected + interruptions (sw_kernel w))%nat);
  receive_exact_loop fuel fd buffer expected 0.

(** [static_cast<std::byte>(generator() & 0xFFU)] for [n] bytes. *)
Definition byte_of_word (z : Z) : byte :=
  match Byte.of_nat (Z.to_nat (Z.land z 0xFF)) with Some b => b | None => x00 end.
Fixpoint fill (n : nat) (generator : Mt19937) : list byte * Mt19937 :=
  match n with
  | O => ([], generator)
  | S n =>
      let '(z, generator) := draw generator in
      let '(bs, generator) := fill n generator in
      (byte_of_word z :: bs, generator)
  end.

(** The exchanges from [index] on; [inr] holds the result of an early return. *)
Fixpoint exchange_loop (remaining : nat) (index warmup request_bytes fd : Z) (generator : Mt19937)
    (response : list byte) (result : Result) : CM (Result + Result) :=
  match remaining with
  | O => mret (inl result)
  | S remaining =>
      let '(request, generator) := fill (Z.to_nat request_bytes) generator in
      request_start ← client_now;
      failed ← client_send_all fd request;
      match failed with
      | Some e => mret (inr (set_error e result))
      | None =>
          '(failed, response) ← receive_exact fd response request_bytes;
          match failed with
          | Some e => mret (inr (set_error e result))
          | None =>
              if bool_decide (response ≠ request) then mret (inr (set_error "response_mismatch" result))
              else
                if warmup <=? index then
                  now ← client_now;
                  exchange_loop remaining (index + 1) warmup request_bytes fd generator response
                    (add_sample (sample_microseconds (now - request_start)) result)
                else exchange_loop remaining (index + 1) warmup request_bytes fd generator response result
          end
      end
  end.

(** Waits for the end of the stream; an error otherwise. *)
Fixpoint final_drain (fuel : nat) (fd : Z) : CM (option string) :=
  match fuel with
  | O => out_of_fuel
  | S fuel =>
      '(count, err, _) ← recv fd 4096;
      if 0 <? count then mret (Some "unexpected_data_after_final_response")
      else if count =? 0 then mret None
      else if err =? EINTR then final_drain fuel fd
      else mret (Some ("drain_recv=" +:+ strerror err))
  end.

(** The part of [run_request_response] that has a socket. *)
Definition request_response_on (fd : Z) (endpoint : Endpoint) (requests warmup request_bytes : Z)
    (generator : Mt19937) (response : list byte) : CM Result :=
  let result := empty_Result in
  _ ← client_option fd SO_RCVTIMEO;
  _ ← client_option fd SO_SNDTIMEO;
  _ ← client_option fd TCP_NODELAY;
  address ← lift (to_sockaddr endpoint);
  start ← client_now;
  '(connected, err) ← client_connect fd address;
  if connected <? 0 then mret (set_error ("connect=" +:+ strerror err) result)
  else
    outcome ← exchange_loop (Z.to_nat (u64_add warmup requests)) 0 warmup request_bytes fd generator response result;
    match outcome with
    | inr result => mret result
    | inl result =>
        _ ← shutdown_write fd;
        fuel ← gets (λ w, S (interruptions (sw_kernel w)));
        failed ← final_drain fuel fd;
        match failed with
        | Some e => mret (set_error e result)
        | None =>
            now ← client_now;
            mret (mkResult true (error result) (sample_microseconds (now - start))
                    (u64_mul (u64_add warmup requests) request_bytes) (latency_samples_us result))
        end
    end.

Definition run_request_response (endpoint : Endpoint) (requests warmup request_bytes seed : Z) : CM Result :=
  let generator := seed_engine seed in
  let response := replicate (Z.to_nat request_bytes) x00 in
  '(fd, err) ← client_socket;
  if fd <? 0 then mret (set_error ("socket=" +:+ strerror err) empty_Result)
  else
    result ← request_response_on fd endpoint requests warmup request_bytes generator response;
    _ ← client_close fd;
    mret result.

(** ** Bulk mode

    The connection's thread sends while a second thread receives; both use the
    socket. A thread makes a step from one system call to the next; what it does
    in between touches only its own variables, since the reader's are read by
    the other thread after the join only. [None]: the thread has to wait, or
    has ended. *)
Definition writer_step (fd : Z) (payload : list byte) (start : Z) (b : BulkState) : CM (option BulkState) :=
  match writer b with
  | Sending offset =>
      if offset <? Z.of_nat (length payload) then
        '(count, err) ← send fd (drop (Z.to_nat offset) payload);
        if 0 <? count then mret (Some (set_writer (Sending (offset + count)) b))
        else if (count <? 0) && (err =? EINTR) then mret (Some b)
        else mret (Some (set_writer ShuttingBoth (on_result (set_error ("send=" +:+ strerror err)) b)))
      else mret (Some (set_writer ShuttingWrite b))
  | ShuttingWrite =>
      '(rc, err) ← client_shutdown_write fd;
      if rc <? 0 then mret (Some (set_writer ShuttingBoth (on_result (set_error ("shutdown=" +:+ strerror err)) b)))
      else mret (Some (set_writer Joining b))
  | ShuttingBoth =>
      _ ← client_shutdown_both fd;
      mret (Some (set_writer JoiningFailed b))
  | JoiningFailed => if reading b then mret None else mret (Some (set_writer Returned b))
  | Joining =>
      if reading b then mret None
      else if bool_decide (receive_error b ≠ "") then
        mret (Some (set_writer Returned (on_result (set_error (receive_error b)) b)))
      else
        now ← client_now;
        let b := on_result (set_duration (sample_microseconds (now - start))) b in
        if bool_decide (stored b ≠ payload)
        then mret (Some (set_writer Returned (on_result (set_error "payload_mismatch") b)))
        else mret (Some (set_writer Returned (on_result set_success b)))
  | Returned => mret None
  end.

Definition reader_step (fd : Z) (payload : list byte) (b : BulkState) : CM (option BulkState) :=
  if negb (reading b) then mret None
  else
    '(count, err, bs) ← recv fd 16384;
    if 0 <? count then
      let b := set_stored (stored b ++ bs) b in
      if Z.of_nat (length payload) <? Z.of_nat (length (stored b))
      then mret (Some (stop_reading "received_more_bytes_than_sent" b))
      else mret (Some b)
    else if count =? 0 then mret (Some (stop_reading "" b))
    else if err =? EINTR then mret (Some b)
    else mret (Some (stop_reading ("recv=" +:+ strerror err) b)).

(** The two threads under a schedule; a thread that has to wait loses its turn. *)
Definition turn (fd : Z) (payload : list byte) (start : Z) (t : Thread) (b : BulkState) : CM BulkState :=
  moved ← (match t with
           | Writer => writer_step fd payload start b
           | Reader => reader_step fd payload b
           end);
  mret (default b moved).

Fixpoint interleave (fd : Z) (payload : list byte) (start : Z) (schedule : list Thread) (b : BulkState) : CM BulkState :=
  match schedule with
  | [] => mret b
  | t :: schedule =>
      b ← turn fd payload start t b;
      interleave fd payload start schedule b
  end.

(** [None] when the schedule ends before the connection is done. *)
Definition bulk_on (fd : Z) (endpoint : Endpoint) (payload : list byte) (schedule : list Thread)
    (result : Result) : CM (option Result) :=
  _ ← client_option fd SO_RCVTIMEO;
  _ ← client_option fd SO_SNDTIMEO;
  address ← lift (to_sockaddr endpoint);
  start ← client_now;
  '(connected, err) ← client_connect fd address;
  if connected <? 0 then mret (Some (set_error ("connect=" +:+ strerror err) result))
  else
    b ← interleave fd payload start schedule (mkBulkState (Sending 0) true [] "" result);
    mret (if bool_decide (writer b = Returned) then Some (bulk_result b) else None).

Definition run_connection (endpoint : Endpoint) (payload_bytes seed : Z) (schedule : list Thread) : CM (option Result) :=
  let result := mkResult false "" 0 payload_bytes [] in
  let '(payload, _) := fill (Z.to_nat payload_bytes) (seed_engine seed) in
  '(fd, err) ← client_socket;
  if fd <? 0 then mret (Some (set_error ("socket=" +:+ strerror err) result))
  else
    r ← bulk_on fd endpoint payload schedule result;
    match r with
    | None => mret None
    | Some result =>
        _ ← client_close fd;
        mret (Some result)
    end.
End client.
