(* ===== verification/TestClientSpec.v ===== *)
(** * What the deterministic client guarantees

    A request/response run that reports success has exchanged exactly the
    requests of the seed, each answered in full before the next was sent. *)

From Stdlib Require Import ZArith Lia Strings.Byte Ascii String.
From stdpp Require Import base numbers list option strings pretty.
From S2P Require Import Prelude Text Endpoint SocketIo Relay Mt19937 TestServer TestServerSpec.
From S2P Require Import TestClient.

Local Open Scope Z_scope.

(** The requests a seed determines. *)
Fixpoint requests_of (count size : nat) (generator : Mt19937) : list (list byte) :=
  match count with
  | O => []
  | S count => let '(request, generator) := fill size generator in request :: requests_of count size generator
  end.

Lemma length_fill n generator : length (fill n generator).1 = n.
Proof.
  revert generator. induction n as [|n IH]; intros g; cbn; [done|].
  destruct (draw g) as [z g1]. specialize (IH g1). destruct (fill n g1) as [bs g2]. cbn in *. by rewrite IH.
Qed.

(** One exchange: the whole request is sent, then the same bytes come back. *)
Definition is_sent (o : ServerOp) : Prop := match o with Sent _ => True | _ => False end.
Definition is_received (o : ServerOp) : Prop := match o with Received _ => True | _ => False end.
Definition exchanged (request : list byte) (ops : list ServerOp) : Prop :=
  ∃ out back, ops = out ++ back ∧ Forall is_sent out ∧ Forall is_received back
    ∧ sent out = request ∧ received back = request.

Section spec.
#[local] Set Default Proof Using "Type*".
Context {K : Type} `{SocketKernelLaws K} `{!SteadyKernelLaws K} `{!ClientKernel K} `{Libc} `{Inet}.

Abbreviation World := (ServerWorld K).
Implicit Types (w : World).

(** The traffic grew by [ops], all satisfying [P]. *)
Definition grew_by (P : ServerOp → Prop) (w w' : World) (ops : list ServerOp) : Prop :=
  grew w w' ops ∧ Forall P ops.

Lemma grew_by_refl P w : grew_by P w w [].
Proof. split; [apply grew_refl|done]. Qed.
Lemma grew_by_trans P w1 w2 w3 o1 o2 : grew_by P w1 w2 o1 → grew_by P w2 w3 o2 → grew_by P w1 w3 (o1 ++ o2).
Proof. intros [Hg1 Hf1] [Hg2 Hf2]. split; [by eapply grew_trans|by apply Forall_app]. Qed.

Lemma client_send_ok fd data w :
  runs (send fd data) w (λ '(count, err) w', ∃ ops,
    grew_by is_sent w w' ops ∧ sent ops = take (Z.to_nat count) data ∧ count ≤ Z.of_nat (length data)
    ∧ (count < 0 → err = EINTR → (left_over w' < left_over w)%nat)).
Proof.
  unfold runs, send. destruct (sys_send _ _ _) as [[count err] k] eqn:E. cbn.
  pose proof (send_interruptions _ _ _ _ _ E) as Hle. pose proof (send_count _ _ _ _ _ _ E) as Hc.
  destruct (Z.ltb_spec 0 count) as [Hpos|Hneg].
  - exists [Sent (take (Z.to_nat count) data)]. cbn. rewrite app_nil_r.
    split_and!; [split; [by split|by repeat constructor]|done|done|lia].
  - exists []. replace (Z.to_nat count) with 0%nat by lia.
    split_and!; [split; [split; [by rewrite app_nil_r|done]|done]|done|done|intros; by eapply send_interrupted].
Qed.

Lemma client_recv_ok fd n w :
  0 ≤ n → runs (recv fd n) w (λ '(count, err, bs) w', ∃ ops,
    grew_by is_received w w' ops ∧ count ≤ n ∧ (0 < count → ops = [Received bs] ∧ Z.of_nat (length bs) = count)
    ∧ (count ≤ 0 → ops = []) ∧ (count < 0 → err = EINTR → (left_over w' < left_over w)%nat)).
Proof.
  intros Hn. unfold runs, recv. destruct (sys_recv _ _ _) as [[[count err] bs] k] eqn:E. cbn.
  pose proof (recv_interruptions _ _ _ _ _ E) as Hle. destruct (recv_count _ _ _ _ _ _ _ Hn E) as [Hlen Hc].
  destruct (Z.ltb_spec 0 count) as [Hpos|Hneg].
  - exists [Received bs]. split_and!; [split; [by split|by repeat constructor]|done|intros _; split; [done|lia]|lia|lia].
  - exists []. split_and!; [split; [split; [by rewrite app_nil_r|done]|done]|done|lia|done|intros; by eapply recv_interrupted].
Qed.

(** An error is never the empty string. *)
Definition failed_or {A} (e : option string) (P : A) : Prop := match e with Some e => e ≠ "" | None => True end.

Lemma client_send_loop_ok fuel fd payload offset w :
  0 ≤ offset ≤ Z.of_nat (length payload) →
  Z.of_nat (length payload) - offset + Z.of_nat (left_over w) ≤ Z.of_nat fuel →
  runs (client_send_loop fuel fd payload offset) w (λ failed w',
    match failed with
    | Some e => e ≠ ""
    | None => ∃ ops, grew_by is_sent w w' ops ∧ sent ops = drop (Z.to_nat offset) payload
    end).
Proof.
  revert offset w. induction fuel as [|fuel IH]; intros offset w Ho Hf; cbn [client_send_loop];
    destruct (Z.ltb_spec offset (Z.of_nat (length payload))) as [Hlt|Hge]; try lia.
  1,3: apply runs_ret; exists []; split; [apply grew_by_refl|by rewrite drop_ge by lia].
  eapply runs_bind; [apply client_send_ok|]. intros [count err] w1 (ops1 & G1 & Hs1 & Hc & Hint).
  rewrite length_drop in Hc. assert (Hle : (left_over w1 ≤ left_over w)%nat) by apply G1.
  destruct (Z.ltb_spec 0 count) as [Hpos|Hneg].
  - eapply runs_mono; [apply IH; lia|]. intros [e|] w2; [done|]. intros (ops2 & G2 & Hs2).
    exists (ops1 ++ ops2). split; [by eapply grew_by_trans|].
    rewrite sent_app, Hs1, Hs2. replace (Z.to_nat (offset + count)) with (Z.to_nat offset + Z.to_nat count)%nat by lia.
    rewrite <-drop_drop. apply take_drop.
  - destruct ((count <? 0) && (err =? EINTR)) eqn:He; [|by apply runs_ret].
    apply andb_true_iff in He as [Hlt0%Z.ltb_lt He%Z.eqb_eq]. specialize (Hint Hlt0 He).
    eapply runs_mono; [apply IH; lia|]. intros [e|] w2; [done|]. intros (ops2 & G2 & Hs2).
    exists (ops1 ++ ops2). split; [by eapply grew_by_trans|]. rewrite sent_app, Hs1, Hs2.
    by replace (Z.to_nat count) with 0%nat by lia.
Qed.

Lemma client_send_all_ok fd payload w :
  runs (client_send_all fd payload) w (λ failed w',
    match failed with
    | Some e => e ≠ ""
    | None => ∃ ops, grew_by is_sent w w' ops ∧ sent ops = payload
    end).
Proof.
  unfold client_send_all. apply runs_gets_bind. apply (client_send_loop_ok _ _ _ 0); unfold left_over; lia.
Qed.

(** Overwriting a buffer from left to right. *)
Lemma take_overwrite (n : nat) (bs buffer : list byte) :
  (n + length bs ≤ length buffer)%nat → take (n + length bs) (overwrite n bs buffer) = take n buffer ++ bs.
Proof.
  intros Hl. unfold overwrite. rewrite app_assoc, take_app_le by (rewrite length_app, length_take; lia).
  apply take_ge. rewrite length_app, length_take. lia.
Qed.

Lemma receive_exact_loop_ok fuel fd buffer expected received w :
  0 ≤ received ≤ expected → Z.of_nat (length buffer) = expected →
  expected - received + Z.of_nat (left_over w) ≤ Z.of_nat fuel →
  runs (receive_exact_loop fuel fd buffer expected received) w (λ '(failed, buffer') w',
    length buffer' = length buffer
    ∧ match failed with
      | Some e => e ≠ ""
      | None => ∃ ops, grew_by is_received w w' ops ∧ buffer' = take (Z.to_nat received) buffer ++ TestServer.received ops
      end).
Proof.
  revert buffer received w. induction fuel as [|fuel IH]; intros buffer received w Hr Hb Hf; cbn [receive_exact_loop];
    destruct (Z.ltb_spec received expected) as [Hlt|Hge]; try lia.
  1,3: apply runs_ret; split; [done|]; exists []; split; [apply grew_by_refl|]; rewrite app_nil_r, take_ge by lia; done.
  eapply runs_bind; [apply client_recv_ok; lia|]. intros [[count err] bs] w1 (ops1 & G1 & Hc & Hpos & Hnone & Hint).
  assert (Hle : (left_over w1 ≤ left_over w)%nat) by apply G1.
  destruct (Z.ltb_spec 0 count) as [Hp|Hn].
  - destruct (Hpos Hp) as [-> Hlen].
    assert (Hl : length (overwrite (Z.to_nat received) bs buffer) = length buffer) by (apply length_overwrite; lia).
    eapply runs_mono; [apply IH; lia|]. intros [[e|] buffer'] w2 [Hl' Hres]; (split; [congruence|]); [done|].
    destruct Hres as (ops2 & G2 & ->). exists ([Received bs] ++ ops2). split; [by eapply grew_by_trans|].
    rewrite received_app. replace (Z.to_nat (received + count)) with (Z.to_nat received + length bs)%nat by lia.
    rewrite take_overwrite by lia. cbn. by rewrite app_nil_r, <-app_assoc.
  - specialize (Hnone Hn). subst ops1. destruct (Z.eqb_spec count 0); [by apply runs_ret|].
    destruct (Z.eqb_spec err EINTR) as [He|]; [|by apply runs_ret]. specialize (Hint ltac:(lia) He).
    eapply runs_mono; [apply IH; lia|]. intros [[e|] buffer'] w2 [Hl' Hres]; (split; [congruence|]); [done|].
    destruct Hres as (ops2 & G2 & ->). exists ([] ++ ops2). split; [by eapply grew_by_trans|done].
Qed.

Lemma receive_exact_ok fd buffer expected w :
  Z.of_nat (length buffer) = expected →
  runs (receive_exact fd buffer expected) w (λ '(failed, buffer') w',
    length buffer' = length buffer
    ∧ match failed with
      | Some e => e ≠ ""
      | None => ∃ ops, grew_by is_received w w' ops ∧ buffer' = received ops
      end).
Proof.
  intros Hb. unfold receive_exact. apply runs_gets_bind.
  eapply runs_mono; [apply (receive_exact_loop_ok _ _ _ _ 0); unfold left_over; lia|].
  intros [[e|] buffer'] w' [Hl Hres]; [done|]. split; [done|]. destruct Hres as (ops & G & ->). by exists ops.
Qed.

(** ** The exchanges *)

Definition is_error (r : Result) : Prop := success r = false ∧ error r ≠ "".

(** A sample is the time between two readings of the clock. *)
Definition clock_reading (t : Z) : Prop := ∃ k k', steady_clock (K := K) k = (t, k').
Definition measured (sample : Z) : Prop :=
  ∃ t1 t2, clock_reading t1 ∧ clock_reading t2 ∧ sample = sample_microseconds (t2 - t1).

(** A run in progress: [n] samples, no error. *)
Definition in_progress (n : Z) (r : Result) : Prop :=
  success r = false ∧ error r = "" ∧ Z.of_nat (length (latency_samples_us r)) = n
  ∧ Forall measured (latency_samples_us r).

Definition same_wire (w w' : World) : Prop := sw_wire w' = sw_wire w.

Lemma client_now_ok w : runs client_now w (λ t w', same_wire w w' ∧ clock_reading t).
Proof. unfold runs, client_now, clock_reading. destruct (steady_clock _) as [t k] eqn:E. split; [done|]. by eexists _, _. Qed.

Lemma exchange_loop_ok remaining index warmup size fd generator response result w :
  0 ≤ warmup → 0 ≤ index → 0 ≤ size → Z.of_nat (length response) = size →
  in_progress (Z.max 0 (index - warmup)) result →
  runs (exchange_loop remaining index warmup size fd generator response result) w (λ outcome w',
    match outcome with
    | inr r => is_error r
    | inl r => in_progress (Z.max 0 (index + Z.of_nat remaining - warmup)) r
        ∧ ∃ exchanges, sw_wire w' = sw_wire w ++ concat exchanges
            ∧ Forall2 exchanged (requests_of remaining (Z.to_nat size) generator) exchanges
    end).
Proof.
  intros Hw. revert index generator response result w.
  induction remaining as [|remaining IH]; intros index generator response result w Hi Hsz Hresp Hres;
    cbn [exchange_loop requests_of].
  { apply runs_ret. rewrite Z.add_0_r. split; [done|]. exists []. by rewrite app_nil_r. }
  pose proof (length_fill (Z.to_nat size) generator) as Hlen. destruct (fill (Z.to_nat size) generator) as [request g1].
  cbn [fst] in Hlen. eapply runs_bind; [apply client_now_ok|]. intros request_start w1 [Hw1 Hstart].
  assert (Herror : ∀ e, e ≠ "" → is_error (set_error e result)) by (by destruct Hres as (Hs & _)).
  eapply runs_bind; [apply client_send_all_ok|]. intros [e|] w2 Hsend; [by apply runs_ret, Herror|].
  destruct Hsend as (out & [[Hw2 _] Hout] & Hsent).
  eapply runs_bind; [by apply receive_exact_ok|]. intros [[e|] response'] w3 [Hl3 Hrecv]; [by apply runs_ret, Herror|].
  destruct Hrecv as (back & [[Hw3 _] Hback] & Hreceived).
  destruct (bool_decide_reflect (response' ≠ request)) as [|Heq]; [by apply runs_ret, Herror|].
  apply dec_stable in Heq. unfold same_wire in Hw1.
  assert (Hnext : ∀ w4 result', sw_wire w4 = sw_wire w3 → in_progress (Z.max 0 (index + 1 - warmup)) result' →
    runs (exchange_loop remaining (index + 1) warmup size fd g1 response' result') w4 (λ outcome w',
      match outcome with
      | inr r => is_error r
      | inl r => in_progress (Z.max 0 (index + Z.of_nat (S remaining) - warmup)) r
          ∧ ∃ exchanges, sw_wire w' = sw_wire w ++ concat exchanges
            ∧ Forall2 exchanged (request :: requests_of remaining (Z.to_nat size) g1) exchanges
      end)).
  { intros w4 result' Hw4 Hres'. eapply runs_mono; [apply IH; [lia|done|lia|done]|].
    intros [r|r] w5; [|done]. replace (index + 1 + Z.of_nat remaining) with (index + Z.of_nat (S remaining)) by lia.
    intros [Hp (exchanges & Hw5 & Hex)]. split; [done|]. exists ((out ++ back) :: exchanges). split.
    - cbn. by rewrite Hw5, Hw4, Hw3, Hw2, Hw1, <-!app_assoc.
    - constructor; [|done]. exists out, back. split_and!; [done..|congruence]. }
  destruct Hres as (Hs & He & Hn & Hm). destruct (Z.leb_spec warmup index).
  - eapply runs_bind; [apply client_now_ok|]. intros now w4 [Hw4 Hnow]. apply Hnext; [done|].
    split_and!; [done|done| |]; cbn; [rewrite length_app; cbn; lia|].
    apply Forall_app. split; [done|]. constructor; [|done]. by exists request_start, now.
  - apply Hnext; [done|]. split_and!; [done|done|lia|done].
Qed.

Lemma final_drain_ok fuel fd w :
  (left_over w < fuel)%nat → runs (final_drain fuel fd) w (λ failed w',
    match failed with Some e => e ≠ "" | None => same_wire w w' end).
Proof.
  revert w. induction fuel as [|fuel IH]; intros w Hf; cbn [final_drain]; [lia|].
  eapply runs_bind; [apply client_recv_ok; lia|]. intros [[count err] bs] w1 (ops & [[Hw1 _] _] & _ & _ & Hnone & Hint).
  destruct (Z.ltb_spec 0 count); [by apply runs_ret|]. rewrite Hnone, app_nil_r in Hw1 by lia.
  destruct (Z.eqb_spec count 0); [by apply runs_ret|]. destruct (Z.eqb_spec err EINTR) as [He|]; [|by apply runs_ret].
  specialize (Hint ltac:(lia) He). eapply runs_mono; [apply IH; lia|]. intros [e|] w2; [done|]. unfold same_wire. congruence.
Qed.

Definition sound_result (requests warmup request_bytes : Z) (generator : Mt19937) (r : Result) (w : World) : Prop :=
  (success r = false → error r ≠ "")
  ∧ (success r = true →
     error r = "" ∧ Z.of_nat (length (latency_samples_us r)) = requests ∧ Forall measured (latency_samples_us r)
     ∧ bytes r = (warmup + requests) * request_bytes
     ∧ ∃ exchanges, sw_wire w = concat exchanges ++ [HalfClosed]
         ∧ Forall2 exchanged (requests_of (Z.to_nat (warmup + requests)) (Z.to_nat request_bytes) generator) exchanges).

Lemma request_response_on_ok fd endpoint requests warmup request_bytes generator w address :
  inet_pton (c_str (host endpoint)) = Some address → sw_wire w = [] →
  0 ≤ requests ≤ 100000 → 0 ≤ warmup ≤ 1000 → 0 ≤ request_bytes ≤ 1048576 →
  runs (request_response_on fd endpoint requests warmup request_bytes generator
          (replicate (Z.to_nat request_bytes) x00)) w
    (sound_result requests warmup request_bytes generator).
Proof.
  intros Ha Hw0 Hr Hw Hb. assert (Hn : u64_add warmup requests = warmup + requests) by wrap_lia.
  assert (Herror : ∀ r w, is_error r → sound_result requests warmup request_bytes generator r w).
  { intros r w' [Hs He]. split; [done|]. by rewrite Hs. }
  unfold request_response_on.
  assert (Hoption : ∀ o w, runs (client_option fd o) w (λ _ w', sw_wire w' = sw_wire w)) by done.
  do 3 (eapply runs_bind; [apply Hoption|]; intros ? ? ?). cbn beta in *.
  eapply runs_lift_bind with (P := λ _, True); [unfold to_sockaddr; by rewrite Ha|]. intros addr _.
  eapply runs_bind; [apply client_now_ok|]. intros start w5 [Hw5 _]. unfold same_wire in Hw5.
  eapply runs_bind with (P := λ _ w, sw_wire w = []).
  { unfold runs, client_connect. destruct (sys_connect _ _ _) as [[? ?] ?]. cbn. congruence. }
  intros [connected err'] w6 Hw6. destruct (connected <? 0); [by apply runs_ret, Herror|].
  rewrite Hn. eapply runs_bind; [apply exchange_loop_ok; try lia|].
  { rewrite length_replicate. lia. }
  { split_and!; [done|done|cbn; lia|done]. }
  intros [r|r] w7; [|intros; by apply runs_ret, Herror]. intros [(Hs & He & Hlen & Hm) (exchanges & Hw7 & Hex)].
  eapply runs_bind with (P := λ _ w, sw_wire w = concat exchanges ++ [HalfClosed]).
  { unfold runs, shutdown_write. destruct (sys_shutdown_wr _ _). cbn. by rewrite Hw7, Hw6. }
  intros ? w8 Hw8. apply runs_gets_bind. eapply runs_bind; [apply final_drain_ok; unfold left_over; lia|].
  intros [e|] w9 Hw9; [by apply runs_ret, Herror|].
  eapply runs_bind; [apply client_now_ok|]. intros now w10 [Hw10 _]. unfold same_wire in *. apply runs_ret.
  split; [done|]. intros _. cbn. split_and!; [done|lia|done| |].
  - unfold u64_mul. apply wrap64_small. nia.
  - exists exchanges. split; [congruence|done].
Qed.

(** The result of a run, and the traffic when it succeeded. *)
Definition closed_result (requests warmup request_bytes seed : Z) (r : Result) (w : World) : Prop :=
  (success r = false → error r ≠ "")
  ∧ (success r = true →
     error r = "" ∧ Z.of_nat (length (latency_samples_us r)) = requests ∧ Forall measured (latency_samples_us r)
     ∧ bytes r = (warmup + requests) * request_bytes
     ∧ ∃ exchanges, sw_wire w = concat exchanges ++ [HalfClosed; Closed]
         ∧ Forall2 exchanged
             (requests_of (Z.to_nat (warmup + requests)) (Z.to_nat request_bytes) (seed_engine seed)) exchanges).

Lemma run_request_response_ok endpoint requests warmup request_bytes seed k address :
  inet_pton (c_str (host endpoint)) = Some address →
  0 ≤ requests ≤ 100000 → 0 ≤ warmup ≤ 1000 → 0 ≤ request_bytes ≤ 1048576 →
  runs (run_request_response endpoint requests warmup request_bytes seed) (mkServerWorld k [])
    (closed_result requests warmup request_bytes seed).
Proof.
  intros Ha Hr Hw Hb. unfold run_request_response. eapply runs_bind with (P := λ _ w, sw_wire w = []).
  { unfold runs, client_socket. by destruct (sys_socket _) as [[? ?] ?]. }
  intros [fd err] w1 Hw1. destruct (fd <? 0); [by apply runs_ret|].
  eapply runs_bind; [by eapply request_response_on_ok|]. intros r w2 Hr2.
  eapply runs_bind with (P := λ _ w3, sw_wire w3 = sw_wire w2 ++ [Closed]); [done|]. intros ? w3 Hw3.
  apply runs_ret. destruct Hr2 as [Herr Hok]. split; [exact Herr|]. intros Hs.
  destruct (Hok Hs) as (He & Hlen & Hm & Hbytes & exchanges & Hw2 & Hex). split_and!; [done..|].
  exists exchanges. by rewrite Hw3, Hw2, <-app_assoc.
Qed.

(** C33: a benchmark run of the test client is sound. For parameters within the
    limits of [main] it returns, under any behaviour of the sockets; and when it
    reports success there is one latency sample per recorded request, each the
    time between two readings of the clock, and the
    traffic is exactly the requests of the seed in order, each sent in full and
    answered with the same bytes before the next one was sent, then the
    half-close and the close. A run without success names an error. *)
Theorem request_response_sound endpoint requests warmup request_bytes seed k address :
  inet_pton (c_str (host endpoint)) = Some address →
  0 ≤ requests ≤ 100000 → 0 ≤ warmup ≤ 1000 → 0 ≤ request_bytes ≤ 1048576 →
  runs (run_request_response endpoint requests warmup request_bytes seed) (mkServerWorld k []) (λ r w,
    (success r = false → error r ≠ "")
    ∧ (success r = true →
       error r = "" ∧ Z.of_nat (length (latency_samples_us r)) = requests ∧ Forall measured (latency_samples_us r)
       ∧ bytes r = (warmup + requests) * request_bytes
       ∧ ∃ exchanges, sw_wire w = concat exchanges ++ [HalfClosed; Closed]
           ∧ Forall2 exchanged
               (requests_of (Z.to_nat (warmup + requests)) (Z.to_nat request_bytes) (seed_engine seed)) exchanges)).
Proof. apply run_request_response_ok. Qed.
End spec.

(** ** Example: one warm-up and one recorded exchange of two bytes *)

#[local] Existing Instance example_inet.
Definition client_libc : Libc := {| strerror := λ _, "error"%string |}.
#[local] Existing Instance client_libc.

Definition script_client : ClientKernel Script := {|
  sys_socket k := ((5, 0), k);
  sys_set_option k fd o := k;
  sys_connect k fd address := ((0, 0), k);
  sys_shutdown_both k fd := k;
  steady_clock k := (1000000 * (100 - Z.min 100 (Z.of_nat (length (entries k)))), k);
  sys_close k fd := k;
|}.
#[local] Existing Instance script_client.
#[local] Existing Instance script_steady_laws.

(** The peer echoes; one receive is interrupted. *)
Definition echo_peer : Script := mkScript
  (concat ((λ request, [SData request; SError EINTR; SData request]) <$> requests_of 2 2 (seed_engine 12345)) ++ [SEof]).

Lemma request_response_sound_witness :
  let r := mkResult true "" 7000 4 [3000] in
  (∃ w, run_request_response (mkEndpoint "127.0.0.1" 8080) 1 1 2 12345 (mkServerWorld echo_peer []) = Ok (r, w))
  ∧ bytes r = (1 + 1) * 2 ∧ Z.of_nat (length (latency_samples_us r)) = 1.
Proof.
  intros r. pose proof (request_response_sound (mkEndpoint "127.0.0.1" 8080) 1 1 2 12345 echo_peer 2130706433 eq_refl
    ltac:(lia) ltac:(lia) ltac:(lia)) as Hok.
  assert (Hrun : ∃ w, run_request_response (mkEndpoint "127.0.0.1" 8080) 1 1 2 12345 (mkServerWorld echo_peer []) = Ok (r, w))
    by (eexists; vm_compute; reflexivity).
  split; [exact Hrun|]. destruct Hrun as [w Hrun]. unfold runs in Hok. rewrite Hrun in Hok.
  destruct (proj2 Hok eq_refl) as (_ & Hlen & _ & Hbytes & _). split; [exact Hbytes|exact Hlen].
Defined.
