(* ===== verification/TestClientBulk.v ===== *)
(** * The bulk transfer of the deterministic client under every interleaving

    The sending and the receiving thread of [run_connection] share the socket.
    Whatever the schedule, a success means that the payload of the seed went out
    in full before the half-close and came back; and every fair schedule ends. *)

From Stdlib Require Import ZArith Lia Strings.Byte Ascii String.
From stdpp Require Import base numbers list option strings pretty.
From S2P Require Import Prelude Text Endpoint SocketIo Relay Mt19937 TestServer TestServerSpec.
From S2P Require Import TestClient TestClientSpec.

Local Open Scope Z_scope.

(** Everything was sent before the half-close, and nothing after it. *)
Definition half_closed_after (payload : list byte) (wire : list ServerOp) : Prop :=
  ∃ before after, wire = before ++ HalfClosed :: after ∧ sent before = payload ∧ sent after = [].

Lemma half_closed_received payload wire ops :
  half_closed_after payload wire → sent ops = [] → half_closed_after payload (wire ++ ops).
Proof.
  intros (before & after & -> & Hb & Ha) Ho. exists before, (after ++ ops).
  rewrite <-app_assoc, sent_app, Ha, Ho. done.
Qed.

Lemma received_sent_nil ops : Forall is_received ops → sent ops = [].
Proof. induction 1 as [|[] ops]; done. Qed.
Lemma sent_received_nil ops : Forall is_sent ops → received ops = [].
Proof. induction 1 as [|[] ops]; done. Qed.

Section bulk.
#[local] Set Default Proof Using "Type*".
Context {K : Type} `{SocketKernelLaws K} `{!SteadyKernelLaws K} `{!ClientKernel K} `{!ClientKernelLaws K}.
Context `{Libc} `{Inet} (fd : Z) (payload : list byte) (start : Z).

Abbreviation World := (ServerWorld K).
Implicit Types (w : World) (b : BulkState).

(** What the traffic is when the writing thread is at a point, and what it has
    put into [result]. *)
Definition writer_inv (b : BulkState) (w : World) : Prop :=
  match writer b with
  | Sending offset =>
      0 ≤ offset ≤ Z.of_nat (length payload) ∧ sent (sw_wire w) = take (Z.to_nat offset) payload
      ∧ in_progress 0 (bulk_result b)
  | ShuttingWrite => sent (sw_wire w) = payload ∧ in_progress 0 (bulk_result b)
  | ShuttingBoth | JoiningFailed => is_error (bulk_result b)
  | Joining => half_closed_after payload (sw_wire w) ∧ in_progress 0 (bulk_result b)
  | Returned =>
      reading b = false
      ∧ (is_error (bulk_result b)
         ∨ success (bulk_result b) = true ∧ error (bulk_result b) = ""
           ∧ half_closed_after payload (sw_wire w) ∧ received (sw_wire w) = payload)
  end.

(** The receiving thread's variable holds what was received. *)
Definition reader_inv (b : BulkState) (w : World) : Prop :=
  (receive_error b = "" → received (sw_wire w) = stored b)
  ∧ (reading b = true → receive_error b = "" ∧ (length (stored b) ≤ length payload)%nat).

Definition bulk_inv (b : BulkState) (w : World) : Prop := writer_inv b w ∧ reader_inv b w.

(** Every step of either thread makes it smaller. *)
Definition bulk_measure (b : BulkState) (w : World) : nat :=
  (match writer b with
   | Sending offset => Z.to_nat (Z.of_nat (length payload) - offset) + 5
   | ShuttingWrite => 4
   | ShuttingBoth => 3
   | JoiningFailed | Joining => 2
   | Returned => 0
   end
   + (if reading b then length payload + 2 - length (stored b) else 0)
   + left_over w)%nat.

Definition must_wait (t : Thread) (b : BulkState) : Prop :=
  match t with
  | Reader => reading b = false
  | Writer => writer b = Returned ∨ reading b = true ∧ (writer b = Joining ∨ writer b = JoiningFailed)
  end.

(** A turn either moves on or finds the thread waiting. *)
Definition turn_post (t : Thread) (b : BulkState) (w : World) (b' : BulkState) (w' : World) : Prop :=
  bulk_inv b' w' ∧ (bulk_measure b' w' < bulk_measure b w)%nat ∨ b' = b ∧ w' = w ∧ must_wait t b.

Definition moved_post (t : Thread) (b : BulkState) (w : World) (moved : option BulkState) (w' : World) : Prop :=
  turn_post t b w (default b moved) w'.

Lemma moves t b w b' w' :
  writer_inv b' w' → reader_inv b' w' → (bulk_measure b' w' < bulk_measure b w)%nat →
  moved_post t b w (Some b') w'.
Proof. intros. left. split; [by split|done]. Qed.

Lemma waits t b w : must_wait t b → moved_post t b w None w.
Proof. by right. Qed.

Lemma reader_inv_same b b' w w' :
  received (sw_wire w') = received (sw_wire w) →
  reading b' = reading b → stored b' = stored b → receive_error b' = receive_error b →
  reader_inv b w → reader_inv b' w'.
Proof. unfold reader_inv. by intros -> -> -> ->. Qed.

Lemma sent_received w w' ops : grew_by is_sent w w' ops → received (sw_wire w') = received (sw_wire w).
Proof. intros [[Hw _] Ho]. by rewrite Hw, received_app, (sent_received_nil _ Ho), app_nil_r. Qed.

Lemma sending_ok offset b w :
  writer b = Sending offset → bulk_inv b w → runs (writer_step fd payload start b) w (moved_post Writer b w).
Proof.
  intros Hpc [Hwi Hri]. unfold writer_step. rewrite Hpc. unfold writer_inv in Hwi. rewrite Hpc in Hwi.
  destruct Hwi as (Ho & Hs & Hp). destruct (Z.ltb_spec offset (Z.of_nat (length payload))) as [Hlt|Hge].
  - eapply runs_bind; [apply client_send_ok|]. intros [count err] w1 (ops & G & Hops & Hc & Hint).
    rewrite length_drop in Hc. assert (Hle : (left_over w1 ≤ left_over w)%nat) by apply G.
    assert (Hs1 : sent (sw_wire w1) = take (Z.to_nat offset) payload ++ take (Z.to_nat count) (drop (Z.to_nat offset) payload)).
    { destruct G as [[Hw1 _] _]. by rewrite Hw1, sent_app, Hs, Hops. }
    destruct (Z.ltb_spec 0 count) as [Hpos|Hneg]; [|destruct ((count <? 0) && (err =? EINTR)) eqn:He].
    + apply runs_ret, moves; [|by eapply reader_inv_same; [by eapply sent_received|..]|unfold bulk_measure; cbn; rewrite Hpc; lia].
      cbn. split_and!; [lia|lia| |done]. rewrite Hs1.
      rewrite take_take_drop. f_equal. lia.
    + apply andb_true_iff in He as [Hlt0%Z.ltb_lt He%Z.eqb_eq]. specialize (Hint Hlt0 He).
      apply runs_ret, moves; [|by eapply reader_inv_same; [by eapply sent_received|..]|unfold bulk_measure; cbn; rewrite Hpc; lia].
      unfold writer_inv. rewrite Hpc. split_and!; [lia|lia| |done]. rewrite Hs1.
      replace (Z.to_nat count) with 0%nat by lia. by rewrite app_nil_r.
    + apply runs_ret, moves; [|by eapply reader_inv_same; [by eapply sent_received|..]|unfold bulk_measure; cbn; rewrite Hpc; lia].
      cbn. by destruct Hp as (Hsucc & _).
  - apply runs_ret, moves; [|done|unfold bulk_measure; cbn; rewrite Hpc; lia].
    cbn. rewrite Hs, take_ge by lia. done.
Qed.

Lemma shutting_ok b w :
  writer b = ShuttingWrite → bulk_inv b w → runs (writer_step fd payload start b) w (moved_post Writer b w).
Proof.
  intros Hpc [Hwi Hri]. unfold writer_step. rewrite Hpc. unfold writer_inv in Hwi. rewrite Hpc in Hwi.
  destruct Hwi as (Hs & Hp). eapply runs_bind with (P := λ '(rc, err) w1, (left_over w1 ≤ left_over w)%nat
    ∧ sw_wire w1 = if rc <? 0 then sw_wire w else sw_wire w ++ [HalfClosed]).
  { unfold runs, client_shutdown_write. destruct (sys_shutdown_wr _ _) as [[rc err] k] eqn:E. cbn.
    split; [by eapply shutdown_wr_interruptions|done]. }
  intros [rc err] w1 [Hle Hw1]. destruct (rc <? 0); apply runs_ret, moves.
  - cbn. by destruct Hp as (Hsucc & _).
  - eapply reader_inv_same, Hri; [by rewrite Hw1|done..].
  - unfold bulk_measure. cbn. rewrite Hpc. lia.
  - cbn. split; [|done]. exists (sw_wire w), []. done.
  - eapply reader_inv_same, Hri; [by rewrite Hw1, received_app, app_nil_r|done..].
  - unfold bulk_measure. cbn. rewrite Hpc. lia.
Qed.

Lemma joining_ok b w :
  writer b = Joining → bulk_inv b w → runs (writer_step fd payload start b) w (moved_post Writer b w).
Proof.
  intros Hpc [Hwi Hri]. unfold writer_step. rewrite Hpc. unfold writer_inv in Hwi. rewrite Hpc in Hwi.
  destruct Hwi as (Hh & Hp). destruct (reading b) eqn:Hreading; [apply runs_ret, waits; right; auto|].
  case_bool_decide as Herr.
  { apply runs_ret, moves; [|exact Hri|unfold bulk_measure; cbn; rewrite Hpc, Hreading; lia].
    cbn. split; [done|]. left. by destruct Hp as (Hsucc & _). }
  destruct Hri as [Hr1 Hr2].
  eapply runs_bind with (P := λ _ w1, sw_wire w1 = sw_wire w ∧ (left_over w1 ≤ left_over w)%nat).
  { unfold runs, client_now. destruct (steady_clock _) as [t k] eqn:E. cbn. split; [done|by eapply clock_interruptions]. }
  intros now w1 [Hw1 Hle]. cbn.
  case_bool_decide as Hm; apply runs_ret, moves;
    try (unfold bulk_measure; cbn; rewrite Hpc, Hreading; lia); try (eapply reader_inv_same, (conj Hr1 Hr2); [by rewrite Hw1|done..]).
  - cbn. split; [done|]. left. by destruct Hp as (Hsucc & _).
  - cbn. split; [done|]. right. destruct Hp as (_ & He & _). rewrite Hw1, (Hr1 Herr), Hm. done.
Qed.

Lemma writer_step_ok b w : bulk_inv b w → runs (writer_step fd payload start b) w (moved_post Writer b w).
Proof.
  intros I. destruct (writer b) as [offset| | | | |] eqn:Hpc;
    [by eapply sending_ok|by apply shutting_ok| | |by apply joining_ok|]; destruct I as [Hwi Hri];
    unfold writer_step; rewrite Hpc; unfold writer_inv in Hwi; rewrite Hpc in Hwi.
  - eapply runs_bind with (P := λ _ w1, sw_wire w1 = sw_wire w ∧ (left_over w1 ≤ left_over w)%nat).
    { split; [done|]. apply shutdown_both_interruptions. }
    intros ? w1 [Hw1 Hle]. apply runs_ret, moves; [done|by eapply reader_inv_same, Hri; [rewrite Hw1|..]|].
    unfold bulk_measure. cbn. rewrite Hpc. lia.
  - destruct (reading b) eqn:Hreading; apply runs_ret; [apply waits; right; auto|].
    apply moves; [|exact Hri|unfold bulk_measure; cbn; rewrite Hpc, Hreading; lia]. cbn. by split; [|left].
  - apply runs_ret, waits. by left.
Qed.

Lemma writer_inv_received b b' w w' ops :
  sw_wire w' = sw_wire w ++ ops → Forall is_received ops → reading b = true →
  writer b' = writer b → bulk_result b' = bulk_result b → writer_inv b w → writer_inv b' w'.
Proof.
  intros Hw Hops Hr Hpc Hres. apply received_sent_nil in Hops. unfold writer_inv. rewrite Hpc, Hres, Hw, sent_app, Hops, app_nil_r.
  destruct (writer b); try done.
  - intros [? ?]. split; [by apply half_closed_received|done].
  - intros [Hf _]. congruence.
Qed.

Lemma reader_step_ok b w : bulk_inv b w → runs (reader_step fd payload b) w (moved_post Reader b w).
Proof.
  intros [Hwi Hri]. unfold reader_step. destruct (reading b) eqn:Hreading; cbn [negb]; [|by apply runs_ret, waits].
  destruct Hri as [Hr1 Hr2]. destruct (Hr2 Hreading) as [He Hl]. specialize (Hr1 He).
  eapply runs_bind; [apply client_recv_ok; lia|].
  intros [[count err] bs] w1 (ops & [[Hw1 Hle] Hops] & Hc & Hpos & Hnone & Hint).
  assert (Hwi' : ∀ b', writer b' = writer b → bulk_result b' = bulk_result b → writer_inv b' w1)
    by (intros; by eapply writer_inv_received).
  destruct (Z.ltb_spec 0 count) as [Hp|Hn].
  - destruct (Hpos Hp) as [-> Hlen]. cbn [stored set_stored]. rewrite length_app.
    assert (Hrec : received (sw_wire w1) = stored b ++ bs) by (rewrite Hw1, received_app, Hr1; cbn; by rewrite app_nil_r).
    destruct (Z.ltb_spec (Z.of_nat (length payload)) (Z.of_nat (length (stored b) + length bs))) as [Hmore|Hfit];
      apply runs_ret, moves; try by apply Hwi'.
    + split; done.
    + unfold bulk_measure. cbn. rewrite Hreading. lia.
    + split; cbn; [done|]. intros _. rewrite length_app. split; [done|lia].
    + unfold bulk_measure. cbn. rewrite Hreading, length_app. lia.
  - specialize (Hnone Hn). subst ops. rewrite app_nil_r in Hw1.
    destruct (Z.eqb_spec count 0) as [_|Hnz]; [|destruct (Z.eqb_spec err EINTR) as [Hei|]]; apply runs_ret, moves;
      try by apply Hwi'.
    + split; cbn; [by rewrite Hw1|done].
    + unfold bulk_measure. cbn. rewrite Hreading. lia.
    + split; [by rewrite Hw1|done].
    + specialize (Hint ltac:(lia) Hei). unfold bulk_measure. cbn. lia.
    + split; done.
    + unfold bulk_measure. cbn. rewrite Hreading. lia.
Qed.

Lemma turn_ok t b w : bulk_inv b w → runs (turn fd payload start t b) w (turn_post t b w).
Proof.
  intros I. unfold turn. apply runs_bind with (P := moved_post t b w).
  - destruct t; [by apply writer_step_ok|by apply reader_step_ok].
  - intros moved w' Hm. apply runs_ret. exact Hm.
Qed.

(** ** Schedules *)

Lemma interleave_ok schedule b w :
  bulk_inv b w → runs (interleave fd payload start schedule b) w (λ b' w',
    bulk_inv b' w' ∧ (bulk_measure b' w' ≤ bulk_measure b w)%nat
    ∧ (∀ t, t ∈ schedule → ¬ must_wait t b → (bulk_measure b' w' < bulk_measure b w)%nat)).
Proof.
  revert b w. induction schedule as [|t schedule IH]; intros b w I; cbn [interleave].
  { apply runs_ret. split_and!; [done|done|]. by intros t ?%not_elem_of_nil. }
  eapply runs_bind; [by apply turn_ok|]. intros b1 w1 [[I1 Hlt]|(-> & -> & Hwait)].
  - eapply runs_mono; [by apply IH|]. intros b2 w2 (I2 & Hle & _). split_and!; [done|lia|lia].
  - eapply runs_mono; [by apply IH|]. intros b2 w2 (I2 & Hle & Hmove). split_and!; [done|done|].
    intros t' [->|Hin]%elem_of_cons Hnw; [done|by eapply Hmove].
Qed.

Lemma interleave_app s1 s2 b w (Q : BulkState → World → Prop) :
  runs (interleave fd payload start s1 b) w (λ b1 w1, runs (interleave fd payload start s2 b1) w1 Q) →
  runs (interleave fd payload start (s1 ++ s2) b) w Q.
Proof.
  revert b w. induction s1 as [|t s1 IH]; intros b w Hr; cbn [app interleave] in *; [exact Hr|].
  unfold runs in *. cbn in *. unfold mbind, M_bind in *. destruct (turn fd payload start t b w) as [[b1 w1]|e| |]; try done.
  cbn in *. by apply IH.
Qed.

(** Every round gives both threads a turn. *)
Definition fair (rounds : list (list Thread)) : Prop := Forall (λ r, Writer ∈ r ∧ Reader ∈ r) rounds.

Lemma returned_waiting b w t : bulk_inv b w → writer b = Returned → must_wait t b.
Proof.
  intros [Hwi _] Hpc. unfold writer_inv in Hwi. rewrite Hpc in Hwi. destruct t; [by left|by destruct Hwi].
Qed.

Lemma returned_stays schedule b w :
  bulk_inv b w → writer b = Returned →
  runs (interleave fd payload start schedule b) w (λ b' w', b' = b).
Proof.
  revert b w. induction schedule as [|t schedule IH]; intros b w I Hpc; cbn [interleave]; [by apply runs_ret|].
  assert (Hstay : runs (turn fd payload start t b) w (λ b' w', b' = b ∧ w' = w)).
  { unfold turn. destruct t; unfold writer_step, reader_step; rewrite ?Hpc.
    - done.
    - assert (Hr : reading b = false) by exact (returned_waiting b w Reader I Hpc). by rewrite Hr. }
  eapply runs_bind; [exact Hstay|]. intros b1 w1 [-> ->]. by apply IH.
Qed.

Lemma fair_ends rounds b w :
  fair rounds → bulk_inv b w → (bulk_measure b w ≤ length rounds)%nat →
  runs (interleave fd payload start (concat rounds) b) w (λ b' _, writer b' = Returned).
Proof.
  intros F. revert b w. induction F as [|r rounds [Hw Hr] F IH]; intros b w I Hm.
  { apply runs_ret. unfold bulk_measure in Hm. cbn in Hm. destruct (writer b); try done; lia. }
  destruct (decide (writer b = Returned)) as [Hpc|Hpc].
  { eapply runs_mono; [by eapply returned_stays|]. intros b' w' ->. done. }
  cbn [concat]. apply interleave_app. eapply runs_mono; [by apply interleave_ok|].
  intros b1 w1 (I1 & _ & Hmove). apply IH; [done|]. cbn in Hm.
  assert (bulk_measure b1 w1 < bulk_measure b w)%nat; [|lia].
  destruct (reading b) eqn:Hreading.
  - apply (Hmove Reader Hr). cbn. congruence.
  - apply (Hmove Writer Hw). intros [?|[? _]]; congruence.
Qed.
End bulk.

Section theorems.
#[local] Set Default Proof Using "Type*".
Context {K : Type} `{SocketKernelLaws K} `{!SteadyKernelLaws K} `{!ClientKernel K} `{!ClientKernelLaws K}.
Context `{Libc} `{Inet} (endpoint : Endpoint) (address payload_bytes seed : Z).
Hypothesis Haddress : inet_pton (c_str (host endpoint)) = Some address.

Abbreviation World := (ServerWorld K).
Implicit Types (w : World) (b : BulkState).

Definition payload_of : list byte := (fill (Z.to_nat payload_bytes) (seed_engine seed)).1.
Definition bulk_start : BulkState := mkBulkState (Sending 0) true [] "" (mkResult false "" 0 payload_bytes []).

(** The calls around the transfer: what is to be shown of a run is shown of the
    two threads, and of the errors before they start. *)
Lemma run_connection_ok schedule k (Q : option Result → list ServerOp → Prop) :
  (∀ r wire, is_error r → Q (Some r) wire) →
  (∀ fd start w, sw_wire w = [] → (left_over w ≤ interruptions k)%nat →
     runs (interleave fd payload_of start schedule bulk_start) w (λ b w',
       if bool_decide (writer b = Returned) then Q (Some (bulk_result b)) (sw_wire w' ++ [Closed]) else Q None (sw_wire w'))) →
  runs (run_connection endpoint payload_bytes seed schedule) (mkServerWorld k []) (λ r w, Q r (sw_wire w)).
Proof.
  intros Herror Hthreads. unfold run_connection, payload_of in *. destruct (fill _ _) as [payload g].
  eapply runs_bind with (P := λ _ w, sw_wire w = [] ∧ (left_over w ≤ interruptions k)%nat).
  { unfold runs, client_socket. cbn. destruct (sys_socket _) as [[? ?] ?] eqn:E. split; [done|by eapply socket_interruptions]. }
  intros [fd err] w1 [Hw1 Hl1]. destruct (fd <? 0); [by apply runs_ret, Herror|].
  eapply runs_bind with (P := λ r w, match r with
    | Some r => ∀ w', sw_wire w' = sw_wire w ++ [Closed] → Q (Some r) (sw_wire w')
    | None => Q None (sw_wire w)
    end).
  2: { intros [r|] w2 Hr; [|by apply runs_ret].
    eapply runs_bind with (P := λ _ w3, sw_wire w3 = sw_wire w2 ++ [Closed]); [done|].
    intros ? w3 Hw3. by apply runs_ret, Hr. }
  unfold bulk_on.
  assert (Hoption : ∀ o w, runs (client_option fd o) w (λ _ w', sw_wire w' = sw_wire w ∧ (left_over w' ≤ left_over w)%nat)).
  { intros o w. split; [done|]. apply set_option_interruptions. }
  do 2 (eapply runs_bind; [apply Hoption|]; intros ? ? [? ?]). cbn beta in *.
  eapply runs_lift_bind with (P := λ _, True); [unfold to_sockaddr; by rewrite Haddress|]. intros addr _.
  eapply runs_bind with (P := λ _ w', sw_wire w' = [] ∧ (left_over w' ≤ interruptions k)%nat).
  { unfold runs, client_now. destruct (steady_clock _) as [t k'] eqn:E. cbn. split; [congruence|].
    apply clock_interruptions in E. unfold left_over in *. cbn. lia. }
  intros start w4 [Hw4 Hl4].
  eapply runs_bind with (P := λ _ w', sw_wire w' = [] ∧ (left_over w' ≤ interruptions k)%nat).
  { unfold runs, client_connect. destruct (sys_connect _ _ _) as [[? ?] k'] eqn:E. cbn. split; [congruence|].
    apply connect_interruptions in E. unfold left_over in *. cbn. lia. }
  intros [connected err'] w5 [Hw5 Hl5]. destruct (connected <? 0); [apply runs_ret; intros; by apply Herror|].
  eapply runs_bind; [by apply Hthreads|]. intros b w6 Hb. apply runs_ret. cbn beta in Hb.
  destruct (bool_decide (writer b = Returned)); [|exact Hb]. intros w7 ->. exact Hb.
Qed.

Lemma bulk_start_inv w : sw_wire w = [] → bulk_inv payload_of bulk_start w.
Proof.
  intros Hw. split; [|split]; cbn; rewrite ?Hw; [|done|split; [done|lia]].
  split_and!; [lia|lia|done|]. by unfold in_progress.
Qed.

Lemma length_payload_of : length payload_of = Z.to_nat payload_bytes.
Proof. apply length_fill. Qed.

(** C31: a bulk transfer of the test client is sound under every interleaving of
    its two threads and every behaviour of the sockets. When it reports success
    the bytes sent are the payload of the seed, all of them before the
    half-close and none after it, the bytes received are the same payload, and
    the descriptor is closed last; a result without success names an error. No
    schedule makes it throw or run into undefined behaviour. *)
Theorem bulk_transfer_sound schedule k :
  runs (run_connection endpoint payload_bytes seed schedule) (mkServerWorld k []) (λ r w,
    match r with
    | None => True
    | Some r =>
        (success r = false → error r ≠ "")
        ∧ (success r = true → error r = "" ∧ ∃ before after,
             sw_wire w = before ++ HalfClosed :: after ++ [Closed]
             ∧ sent before = payload_of ∧ sent after = [] ∧ received (before ++ after) = payload_of)
    end).
Proof.
  apply (run_connection_ok _ _ (λ r wire, match r with
    | None => True
    | Some r =>
        (success r = false → error r ≠ "")
        ∧ (success r = true → error r = "" ∧ ∃ before after,
             wire = before ++ HalfClosed :: after ++ [Closed]
             ∧ sent before = payload_of ∧ sent after = [] ∧ received (before ++ after) = payload_of)
    end)).
  { intros r wire [Hs He]. split; [done|congruence]. }
  intros fd start w Hw _. eapply runs_mono; [apply interleave_ok, bulk_start_inv, Hw|].
  intros b w' ([Hwi _] & _ & _). case_bool_decide as Hpc; [|done]. unfold writer_inv in Hwi. rewrite Hpc in Hwi.
  destruct Hwi as [_ [[Hs He]|(Hs & He & (before & after & Hwire & Hb & Ha) & Hr)]]; [split; [done|congruence]|].
  split; [congruence|]. intros _. split; [done|]. exists before, after.
  rewrite Hwire, <-app_assoc. split_and!; [done..|]. rewrite <-Hr, Hwire, !received_app. done.
Qed.

(** C32: under a fair schedule the two threads end: after as many rounds as
    twice the payload and the interruptions to come, give or take a constant,
    the connection has a result, whatever the sockets do. *)
Theorem bulk_transfer_ends rounds k :
  fair rounds → (2 * Z.to_nat payload_bytes + 7 + interruptions k ≤ length rounds)%nat →
  runs (run_connection endpoint payload_bytes seed (concat rounds)) (mkServerWorld k []) (λ r w, r ≠ None).
Proof.
  intros F Hl. apply (run_connection_ok _ _ (λ r _, r ≠ None)); [done|].
  intros fd start w Hw Hle. eapply runs_mono; [apply fair_ends; [done|by apply bulk_start_inv|]|].
  - unfold bulk_measure. cbn. rewrite length_payload_of. lia.
  - intros b w' Hpc. by rewrite bool_decide_true.
Qed.
End theorems.

(** ** Example: a transfer of three bytes, the answer coming back in two pieces
    while the threads take turns *)

#[local] Existing Instance example_inet.
#[local] Existing Instance client_libc.
#[local] Existing Instance script_client.
#[local] Existing Instance script_steady_laws.

Lemma script_client_laws : ClientKernelLaws Script.
Proof. by split; intros; simplify_eq/=. Qed.
#[local] Existing Instance script_client_laws.

Definition bulk_peer : Script :=
  let bs := (fill 3 (seed_engine 7)).1 in mkScript [SData (take 2 bs); SData (take 2 bs); SError EINTR; SData (drop 2 bs); SData (drop 2 bs); SEof].
Definition turns : list (list Thread) := replicate 13 [Writer; Reader].

Lemma bulk_transfer_sound_witness :
  let r := mkResult true "" 6000 3 [] in
  (∃ w, run_connection (mkEndpoint "127.0.0.1" 8080) 3 7 (concat turns) (mkServerWorld bulk_peer []) = Ok (Some r, w)
     ∧ ∃ before after, sw_wire w = before ++ HalfClosed :: after ++ [Closed] ∧ sent before = payload_of 3 7).
Proof.
  intros r. pose proof (bulk_transfer_sound (mkEndpoint "127.0.0.1" 8080) 2130706433 3 7 eq_refl (concat turns) bulk_peer) as Hok.
  assert (Hrun : ∃ w, run_connection (mkEndpoint "127.0.0.1" 8080) 3 7 (concat turns) (mkServerWorld bulk_peer []) = Ok (Some r, w))
    by (eexists; vm_compute; reflexivity).
  destruct Hrun as [w Hrun]. exists w. split; [exact Hrun|]. unfold runs in Hok. rewrite Hrun in Hok.
  destruct (proj2 Hok eq_refl) as (_ & before & after & Hw & Hb & _). exists before, after. split; [exact Hw|exact Hb].
Defined.

Lemma bulk_transfer_ends_witness :
  fair (replicate 20 [Writer; Reader])
  ∧ runs (run_connection (mkEndpoint "127.0.0.1" 8080) 3 7 (concat (replicate 20 [Writer; Reader])))
      (mkServerWorld bulk_peer []) (λ r w, r ≠ None).
Proof.
  assert (F : fair (replicate 20 [Writer; Reader])).
  { apply Forall_replicate. split; [left|right; left]. }
  split; [exact F|]. exact (bulk_transfer_ends (mkEndpoint "127.0.0.1" 8080) 2130706433 3 7 eq_refl
    (replicate 20 [Writer; Reader]) bulk_peer F ltac:(vm_compute; lia)).
Defined.
