(* ===== verification/TestClientMain.v ===== *)
(** * The client's arguments and summary (src/client/main.cpp)

    The argument loop, the worker of a connection, the statistics over the
    results and the line of JSON they are printed as, up to the exit status.
    The results are what the worker threads store, each in its own slot. *)

From Stdlib Require Import ZArith Lia Ascii String SpecFloat.
From stdpp Require Import base numbers list option strings pretty sorting.
From S2P Require Import Prelude Text CommandLine FaultRng Endpoint SocketIo Mt19937 Relay.
From S2P Require Import Logger.
From S2P Require Import TestServer TestClient.

Local Open Scope Z_scope.

(** The text printed by [print_help]. *)
Definition print_help : string :=
"NetFault Lab deterministic client (Milestone 4)

Usage:
  netfault-client [--connect 127.0.0.1:8080] [--connections N]
                  [--payload-bytes N] [--seed N]
                  [--mode bulk|request-response]
                  [--requests N] [--warmup N] [--request-bytes N]

bulk (default): each connection streams --payload-bytes full duplex and
verifies the echo. request-response: each connection performs --warmup
unrecorded then --requests recorded sequential exchanges of --request-bytes
and reports pooled nearest-rank latency percentiles.

Output is one machine-readable JSON summary recording the configuration,
seed, and environment so runs are reproducible. Only loopback destinations
are allowed.
"%string.

(** ** The variables of [main] *)

Record ClientState := mkClientState {
  c_endpoint : Endpoint;
  c_mode : ClientMode;
  c_connections : Z;
  c_payload_bytes : Z;
  c_requests : Z;
  c_warmup : Z;
  c_request_bytes : Z;
  c_seed : Z;
}.

Definition initial_client (endpoint : Endpoint) : ClientState :=
  mkClientState endpoint Bulk 1 4096 100 5 1024 12345.

Definition store_endpoint v c :=
  let 'mkClientState _ m n pb r w rb s := c in mkClientState v m n pb r w rb s.
Definition store_mode v c :=
  let 'mkClientState e _ n pb r w rb s := c in mkClientState e v n pb r w rb s.
Definition store_connections v c :=
  let 'mkClientState e m _ pb r w rb s := c in mkClientState e m v pb r w rb s.
Definition store_payload_bytes v c :=
  let 'mkClientState e m n _ r w rb s := c in mkClientState e m n v r w rb s.
Definition store_requests v c :=
  let 'mkClientState e m n pb _ w rb s := c in mkClientState e m n pb v w rb s.
Definition store_warmup v c :=
  let 'mkClientState e m n pb r _ rb s := c in mkClientState e m n pb r v rb s.
Definition store_request_bytes v c :=
  let 'mkClientState e m n pb r w _ s := c in mkClientState e m n pb r w v s.
Definition store_seed v c :=
  let 'mkClientState e m n pb r w rb _ := c in mkClientState e m n pb r w rb v.

Definition parse_client_mode (value : string) : outcome ClientMode :=
  if decide (value = "bulk") then Ok Bulk
  else if decide (value = "request-response") then Ok RequestResponse
  else Throw (InvalidArgument "mode must be bulk or request-response").

#[global] Instance ClientMode_eq_dec : EqDecision ClientMode.
Proof. solve_decision. Defined.

(** ** Statistics *)

(** [std::ceil] and the conversion to an integer. *)
Definition ceil_to_Z (d : double) : outcome Z :=
  match d with
  | S754_zero _ => Ok 0
  | S754_finite s m e =>
      let v := if s then Zneg m else Zpos m in
      Ok (if 0 <=? e then v * 2 ^ e else - ((- v) / 2 ^ (- e)))
  | _ => Undefined
  end.

(** The nearest-rank percentile of a sorted vector. *)
Definition percentile (sorted : list Z) (p : double) : outcome Z :=
  let size := double_of_u64 (Z.of_nat (length sorted)) in
  ceiling ← ceil_to_Z (SFmul 53 1024 (SFdiv 53 1024 p (double_of_u64 100)) size);
  let rank := Z.max 1 ceiling in
  match sorted !! Z.to_nat (rank - 1) with
  | Some v => Ok v
  | None => Undefined
  end.

Record Statistics := mkStatistics {
  successful : Z;
  maximum_duration_us : Z;
  first_error : string;
  pooled_samples : list Z;
}.

Definition count_result (s : Statistics) (r : Result) : Statistics :=
  if success r then
    mkStatistics (u64_succ (successful s)) (Z.max (maximum_duration_us s) (duration_us r)) (first_error s)
      (pooled_samples s ++ latency_samples_us r)
  else if decide (first_error s = "") then
    mkStatistics (successful s) (maximum_duration_us s) (error r) (pooled_samples s)
  else s.

Definition statistics (results : list Result) : Statistics :=
  foldl count_result (mkStatistics 0 0 "" []) results.

(** [std::accumulate] over signed words. *)
Definition accumulate (samples : list Z) : outcome Z :=
  foldl (λ sum x, s ← sum; i64_add s x) (Ok 0) samples.

(** ** The summary *)

(** A further member of a JSON object. *)
Definition json_member (key text : string) : string := "," +:+ q +:+ key +:+ q +:+ ":" +:+ text.
Definition json_text (text : string) : string := q +:+ text +:+ q.

Definition latency_json (samples : list Z) : outcome string :=
  let sorted := merge_sort Z.le samples in
  let size := Z.of_nat (length sorted) in
  sum ← accumulate sorted;
  p50 ← percentile sorted (double_of_u64 50);
  p90 ← percentile sorted (double_of_u64 90);
  p99 ← percentile sorted (double_of_u64 99);
  Ok ("," +:+ q +:+ "latency_us" +:+ q +:+ ":{" +:+ q +:+ "count" +:+ q +:+ ":" +:+ pretty size
      +:+ json_member "min" (pretty (default 0 (head sorted)))
      +:+ json_member "mean" (pretty (Z.quot sum size))
      +:+ json_member "p50" (pretty p50) +:+ json_member "p90" (pretty p90) +:+ json_member "p99" (pretty p99)
      +:+ json_member "max" (pretty (default 0 (last sorted))) +:+ "}").

(** What [uname] stores, if it succeeds. *)
Record SystemInfo := mkSystemInfo { sysname : string; release : string; machine : string }.

Definition environment_json (uname : option SystemInfo) : string :=
  match uname with
  | Some i => "," +:+ q +:+ "environment" +:+ q +:+ ":{" +:+ q +:+ "sysname" +:+ q +:+ ":" +:+ json_text (sysname i)
      +:+ json_member "release" (json_text (release i)) +:+ json_member "machine" (json_text (machine i)) +:+ "}"
  | None => ""
  end.

Definition workload_json (c : ClientState) : string :=
  match c_mode c with
  | Bulk => json_member "payload_bytes_each" (pretty (c_payload_bytes c))
  | RequestResponse =>
      json_member "requests_per_connection" (pretty (c_requests c))
      +:+ json_member "warmup_per_connection" (pretty (c_warmup c))
      +:+ json_member "request_bytes" (pretty (c_request_bytes c))
  end.

Definition summary (c : ClientState) (uname : option SystemInfo) (s : Statistics) : outcome string :=
  latency ← (if bool_decide (c_mode c = RequestResponse) && bool_decide (pooled_samples s ≠ [])
             then latency_json (pooled_samples s) else Ok "");
  Ok ("{" +:+ q +:+ "mode" +:+ q +:+ ":"
      +:+ json_text (match c_mode c with Bulk => "bulk" | RequestResponse => "request-response" end)
      +:+ json_member "connections" (pretty (c_connections c))
      +:+ json_member "successful" (pretty (successful s))
      +:+ json_member "seed" (pretty (c_seed c))
      +:+ workload_json c
      +:+ environment_json uname
      +:+ json_member "max_duration_us" (pretty (maximum_duration_us s))
      +:+ latency
      +:+ (if decide (first_error s = "") then "" else json_member "first_error" (json_text (first_error s)))
      +:+ "}" +:+ String newline "").

(** ** The program *)

Section arguments.
Context `{Inet}.

(** A value parsed and stored in a variable. *)
Definition client_stores {A} (read : string → outcome A) (store : A → ClientState → ClientState) : CliOption ClientState :=
  Valued (λ text, store <$> read text).
Definition positive_of (name text : string) : outcome Z := client_parse_size text name.

Definition client_options : list (string * CliOption ClientState) :=
  [("--connect", client_stores parse store_endpoint);
   ("--connections", client_stores (positive_of "connections") store_connections);
   ("--payload-bytes", client_stores (positive_of "payload_bytes") store_payload_bytes);
   ("--mode", client_stores parse_client_mode store_mode);
   ("--requests", client_stores (positive_of "requests") store_requests);
   ("--warmup", client_stores (positive_of "warmup") store_warmup);
   ("--request-bytes", client_stores (positive_of "request_bytes") store_request_bytes);
   ("--seed", client_stores parse_seed store_seed)].

(** The variables after the loop, once the limits were checked. *)
Definition client_command_line (arguments : list string) : outcome (option ClientState) :=
  endpoint ← parse "127.0.0.1:8080";
  parsed ← parse_arguments client_options arguments (initial_client endpoint);
  match parsed with
  | None => Ok None
  | Some c =>
      _ ← check_client (c_endpoint c) (c_connections c) (c_payload_bytes c) (c_requests c) (c_warmup c) (c_request_bytes c);
      Ok (Some c)
  end.
End arguments.

Section program.
Context {K : Type} `{SocketKernel K} `{ClientKernel K} `{Libc} `{Inet}.

(** A worker thread has a connection of its own; [kernels] and [schedules] say
    what the kernel does to each of them and how its threads take turns. *)
Context (kernels : nat → K) (schedules : nat → list Thread).

Definition worker (c : ClientState) (index : nat) : outcome (option Result) :=
  let connection_seed := u64_add (c_seed c) (Z.of_nat index) in
  let w := mkServerWorld (kernels index) [] in
  fst <$> match c_mode c with
          | Bulk => run_connection (c_endpoint c) (c_payload_bytes c) connection_seed (schedules index) w
          | RequestResponse =>
              (λ p, (Some p.1, p.2)) <$>
                run_request_response (c_endpoint c) (c_requests c) (c_warmup c) (c_request_bytes c) connection_seed w
          end.

(** The results of the workers; [None] while one is running. An exception in a
    worker would terminate the program. *)
Fixpoint run_workers (c : ClientState) (indices : list nat) : outcome (option (list Result)) :=
  match indices with
  | [] => Ok (Some [])
  | index :: indices =>
      r ← worker c index;
      rs ← run_workers c indices;
      Ok (match r, rs with Some r, Some rs => Some (r :: rs) | _, _ => None end)
  end.

(** After the threads were joined: the line printed and the exit status. *)
Definition report (c : ClientState) (uname : option SystemInfo) (results : list Result) : outcome (Z * string) :=
  let s := statistics results in
  line ← summary c uname s;
  Ok (if successful s =? c_connections c then EXIT_SUCCESS else EXIT_FAILURE, line).

(** The exit status with what is printed; [None] while a
    worker is running. *)
Definition client_main (uname : option SystemInfo) (arguments : list string) : outcome (option (Z * string)) :=
  match client_command_line arguments with
  | Throw (InvalidArgument what | OutOfRange what | LengthError what | RuntimeError what) =>
      Ok (Some (EXIT_FAILURE, "netfault-client: " +:+ what))
  | Undefined => Undefined
  | OutOfFuel => OutOfFuel
  | Ok None => Ok (Some (EXIT_SUCCESS, print_help))
  | Ok (Some c) =>
      results ← run_workers c (seq 0 (Z.to_nat (c_connections c)));
      match results with
      | None => Ok None
      | Some results => Some <$> report c uname results
      end
  end.
End program.
