(* ===== verification/TestClientMainSpec.v ===== *)
(** * What the client's summary guarantees

    The percentiles are exact although their ranks are computed with doubles,
    and the exit status says whether every connection succeeded. *)

From Stdlib Require Import ZArith Lia Ascii String SpecFloat.
From stdpp Require Import base numbers list option strings pretty sorting.
From S2P Require Import Prelude Text CommandLine FaultRng FloatRounding Endpoint SocketIo.
From S2P Require Import Mt19937 Relay Logger.
From S2P Require Import TestServer TestServerSpec TestClient TestClientSpec TestClientBulk.
From S2P Require Import TestClientMain.

Local Open Scope Z_scope.

(** ** The rank of a percentile *)

(** The percentiles the summary asks for. *)
Definition reported (p : Z) : Prop := p = 50 ∨ p = 90 ∨ p = 99.

(** p / 100 in 53 bits, less than half a unit off. *)
Lemma fraction_of p :
  reported p → ∃ m, SFdiv 53 1024 (double_of_u64 p) (double_of_u64 100) = S754_finite false m (-53)
    ∧ 2 ^ 52 ≤ Zpos m < 2 ^ 53 ∧ -8 ≤ 100 * Zpos m - p * 2 ^ 53 ≤ 20.
Proof.
  intros [->|[->| ->]].
  - exists 4503599627370496%positive. split; [by vm_compute|lia].
  - exists 8106479329266893%positive. split; [by vm_compute|lia].
  - exists 8917127262193582%positive. split; [by vm_compute|lia].
Qed.

(** Rounding up the product of rounded values gives the exact rank: with
    [unit * rest = W] the rounded product is [rounded * unit], in units of W. *)
Lemma rank_exact W p n m rounded unit rest :
  1000000000 ≤ W → 1 ≤ n ≤ 1000000 → unit * rest = W → 1 ≤ unit ≤ 1048576 → n < 2 * unit → 0 < rest →
  -8 ≤ 100 * m - p * W ≤ 20 → 2 * Z.abs (rounded * unit - m * n) ≤ unit →
  - ((- rounded) / rest) = - ((- (p * n)) / 100).
Proof.
  intros HW Hn Hur Hu Hnu Hrest Hm Herr.
  pose proof (Z.div_mod (- (p * n)) 100 ltac:(lia)) as Hdiv. pose proof (Z.mod_pos_bound (- (p * n)) 100 ltac:(lia)) as Hmod.
  set (a := (- (p * n)) / 100) in *. set (b := (- (p * n)) mod 100) in *. clearbody a b.
  f_equal. symmetry. apply Z.div_unique with (r := - rounded - rest * a); [left|ring].
  assert (Hmn : -8 * n ≤ 100 * (m * n) - p * n * W ≤ 20 * n).
  { replace (100 * (m * n) - p * n * W) with ((100 * m - p * W) * n) by ring.
    split; apply Z.mul_le_mono_nonneg_r; lia. }
  assert (HpnW : p * n * W = - (100 * (a * W)) - b * W).
  { replace (p * n) with (- (100 * a) - b) by lia. ring. }
  assert (Hy : (rounded + rest * a) * unit = rounded * unit + a * W) by (rewrite <-Hur; ring).
  assert (HbW : b = 0 ∧ b * W = 0 ∨ W ≤ b * W).
  { destruct (decide (b = 0)) as [->|]; [by left|right]. rewrite <-(Z.mul_1_l W) at 1. apply Z.mul_le_mono_nonneg_r; lia. }
  assert (Hb99 : b * W ≤ 99 * W) by (apply Z.mul_le_mono_nonneg_r; lia).
  assert (Hhi : (rounded + rest * a) * unit < unit) by lia.
  assert (Hlo : 0 < (rounded + rest * a) * unit + W) by lia.
  assert (Hlo' : 0 < (rounded + rest * a + rest) * unit) by (rewrite Z.mul_add_distr_r, (Z.mul_comm rest unit); lia).
  assert (rounded + rest * a < 1) by (apply (Z.mul_lt_mono_pos_r unit); lia).
  assert (0 < rounded + rest * a + rest) by (apply (Z.mul_lt_mono_pos_r unit); lia). lia.
Qed.

(** Halving the scale: the value of a mantissa does not depend on how its
    exponent is split. *)
Lemma ceil_scaled mantissa e' e rounded :
  e ≤ e' < 0 → Zpos mantissa * 2 ^ (e' - e) = rounded →
  ceil_to_Z (S754_finite false mantissa e') = Ok (- ((- rounded) / 2 ^ (- e))).
Proof.
  intros He <-. unfold ceil_to_Z. destruct (Z.leb_spec 0 e'); [lia|]. do 2 f_equal.
  replace (- e) with (- e' + (e' - e)) by lia. rewrite Z.pow_add_r by lia.
  rewrite <-Z.mul_opp_l, Z.div_mul_cancel_r; [done| |]; apply Z.pow_nonzero; lia.
Qed.

(** The rank computed with doubles is the exact one. *)
Lemma ceiling_rank p n :
  reported p → 1 ≤ n ≤ 1000000 →
  ceil_to_Z (SFmul 53 1024 (SFdiv 53 1024 (double_of_u64 p) (double_of_u64 100)) (double_of_u64 n))
  = Ok (- ((- (p * n)) / 100)).
Proof.
  intros Hp Hn. destruct (fraction_of p Hp) as (m & -> & Hm & Hpm). destruct n as [|n|n]; [lia| |lia].
  pose proof (digits2_bounds n) as [Hlo Hhi]. set (d := Zpos (digits2_pos n)) in *.
  assert (Hd : 1 ≤ d ≤ 20).
  { assert (d - 1 < 20) by (apply (Z.pow_lt_mono_r_iff 2); lia). unfold d in *. lia. }
  destruct (norm53_spec n ltac:(unfold d in Hd; lia)) as [Hn53 Hnorm]. rewrite double_of_u64_small by (unfold d in Hd; lia).
  fold d in Hnorm |- *. unfold SFmul. cbn [xorb].
  assert (Hscaled : 2 ^ 52 ≤ Zpos (norm53 n) < 2 ^ 53).
  { pose proof (digits2_bounds (norm53 n)) as Hb. rewrite Hn53 in Hb. exact Hb. }
  assert (Hdigits : 105 ≤ Zpos (digits2_pos (m * norm53 n)) ≤ 106).
  { pose proof (digits2_bounds (m * norm53 n)) as [Hb1 Hb2]. rewrite Pos2Z.inj_mul in Hb1, Hb2.
    assert (2 ^ 104 ≤ Zpos m * Zpos (norm53 n)) by (change (2 ^ 104) with (2 ^ 52 * 2 ^ 52); apply Z.mul_le_mono_nonneg; lia).
    assert (Zpos m * Zpos (norm53 n) < 2 ^ 106) by (change (2 ^ 106) with (2 ^ 53 * 2 ^ 53); apply Z.mul_lt_mono_nonneg; lia).
    split.
    - assert (104 < Zpos (digits2_pos (m * norm53 n))) by (apply (Z.pow_lt_mono_r_iff 2); lia). lia.
    - assert (Zpos (digits2_pos (m * norm53 n)) - 1 < 106) by (apply (Z.pow_lt_mono_r_iff 2); lia). lia. }
  pose proof (round_aux_nearest (m * norm53 n) (-53 + (d - 53))) as Hr. cbv zeta in Hr.
  set (shift := Zpos (digits2_pos (m * norm53 n)) - 53) in *.
  destruct Hr as (mantissa & e' & rounded & Heq & He' & Hv & Herr); [lia|lia|].
  rewrite Heq. rewrite (ceil_scaled mantissa e' (-53 + (d - 53) + shift) rounded); [f_equal|lia|exact Hv].
  set (t := shift + d - 53). rewrite Pos2Z.inj_mul, Hnorm in Herr.
  assert (Hshift : 2 ^ shift = 2 ^ t * 2 ^ (53 - d)) by (rewrite <-Z.pow_add_r by lia; f_equal; lia).
  rewrite Hshift in Herr. replace (rounded * (2 ^ t * 2 ^ (53 - d)) - Zpos m * (Zpos n * 2 ^ (53 - d)))
    with ((rounded * 2 ^ t - Zpos m * Zpos n) * 2 ^ (53 - d)) in Herr by ring.
  rewrite Z.abs_mul, (Z.abs_eq (2 ^ (53 - d))), Z.mul_assoc in Herr by (apply Z.pow_nonneg; lia).
  apply (Z.mul_le_mono_pos_r _ _ (2 ^ (53 - d))) in Herr; [|apply Z.pow_pos_nonneg; lia].
  assert (Ht : d - 1 ≤ t ≤ d) by lia.
  apply (rank_exact (2 ^ 53) p (Zpos n) (Zpos m) rounded (2 ^ t)); [lia|lia| | | | |lia|lia].
  - rewrite <-Z.pow_add_r by lia. f_equal. lia.
  - split; [|change 1048576 with (2 ^ 20); apply Z.pow_le_mono_r; lia].
    change 1 with (2 ^ 0). apply Z.pow_le_mono_r; lia.
  - assert (2 ^ (d - 1) ≤ 2 ^ t) by (apply Z.pow_le_mono_r; lia).
    replace d with (1 + (d - 1)) in Hhi by lia. rewrite Z.pow_add_r in Hhi by lia. lia.
  - apply Z.pow_pos_nonneg; lia.
Qed.

(** ** Ranks in a sorted list *)

Definition at_most (v : Z) (l : list Z) : Z := Z.of_nat (length (filter (λ x, x ≤ v) l)).
Definition below (v : Z) (l : list Z) : Z := Z.of_nat (length (filter (λ x, x < v) l)).

Lemma filter_all (P : Z → Prop) `{!∀ x, Decision (P x)} l : Forall P l → filter P l = l.
Proof. induction 1 as [|x l Hx _ IH]; [done|]. by rewrite filter_cons_True, IH. Qed.
Lemma filter_none (P : Z → Prop) `{!∀ x, Decision (P x)} l : Forall (λ x, ¬ P x) l → filter P l = [].
Proof. induction 1 as [|x l Hx _ IH]; [done|]. by rewrite filter_cons_False, IH. Qed.

Lemma sorted_rank (l : list Z) (i : nat) v :
  Sorted Z.le l → l !! i = Some v → Z.of_nat (S i) ≤ at_most v l ∧ below v l ≤ Z.of_nat i.
Proof.
  intros Hs Hv. apply Sorted_StronglySorted in Hs; [|exact Z.le_trans].
  rewrite <-(take_drop_middle _ _ _ Hv) in Hs |- *. apply StronglySorted_app in Hs as (Hcross & _ & Hs).
  apply StronglySorted_cons in Hs as [Hafter _].
  assert (Hlen : length (take i l) = i) by (apply length_take_le; apply lookup_lt_Some in Hv; lia).
  unfold at_most, below. rewrite !filter_app, !length_app. split.
  - rewrite (filter_all (λ x, x ≤ v) (take i l)).
    2: { apply Forall_forall. intros x Hx. apply (Hcross x v Hx). left. }
    rewrite filter_cons_True by lia. cbn [length]. lia.
  - rewrite filter_cons_False by lia. rewrite (filter_none (λ x, x < v) (drop (S i) l)).
    + pose proof (length_filter (λ x, x < v) (take i l)). cbn. lia.
    + eapply Forall_impl; [exact Hafter|]. cbn. intros x Hx. lia.
Qed.

(** The percentile is a sample at the exact rank. *)
Lemma percentile_ranked p (l : list Z) :
  reported p → Sorted Z.le l → 1 ≤ Z.of_nat (length l) ≤ 1000000 →
  ∃ i v, percentile l (double_of_u64 p) = Ok v ∧ l !! i = Some v
    ∧ 100 * Z.of_nat i < p * Z.of_nat (length l) ≤ 100 * Z.of_nat (S i).
Proof.
  intros Hp Hs Hn. unfold percentile. rewrite ceiling_rank by done. cbn [mbind outcome_bind].
  set (n := Z.of_nat (length l)) in *.
  pose proof (Z.div_mod (- (p * n)) 100 ltac:(lia)) as Hdiv. pose proof (Z.mod_pos_bound (- (p * n)) 100 ltac:(lia)) as Hmod.
  assert (Hpn : 50 * n ≤ p * n ≤ 99 * n) by (split; apply Z.mul_le_mono_nonneg_r; destruct Hp as [->|[->| ->]]; lia).
  set (rank := - ((- (p * n)) / 100)) in *. assert (Hrank : 1 ≤ rank ≤ n) by lia.
  rewrite Z.max_r by lia. destruct (lookup_lt_is_Some_2 l (Z.to_nat (rank - 1))) as [v Hv]; [unfold n in *; lia|].
  exists (Z.to_nat (rank - 1)), v. rewrite Hv. split_and!; [done|done|lia|lia].
Qed.

(** ** The statistics *)

(** The samples are short enough for their sum. *)
Definition short (x : Z) : Prop := Z.abs x ≤ 4503599627371.

Lemma accumulate_from (l : list Z) s :
  Forall short l → Z.abs s + 4503599627371 * Z.of_nat (length l) < two63 →
  ∃ total, foldl (λ sum x, s ← sum; i64_add s x) (Ok s) l = Ok total.
Proof.
  intros F. revert s. induction F as [|x l Hx F IH]; intros s Hs; cbn [foldl]; [by eexists|].
  unfold short in Hx. cbn [length] in Hs. cbn [mbind outcome_bind]. unfold i64_add.
  assert (Hb : (- two63 <=? s + x) && (s + x <? two63) = true).
  { apply andb_true_iff. split; [apply Z.leb_le|apply Z.ltb_lt]; lia. }
  rewrite Hb. apply IH. lia.
Qed.

Lemma latency_json_defined (samples : list Z) :
  Forall short samples → 1 ≤ Z.of_nat (length samples) ≤ 1000000 → ∃ text, latency_json samples = Ok text.
Proof.
  intros F Hn. unfold latency_json. pose proof (merge_sort_Permutation Z.le samples) as Hperm.
  pose proof (Sorted_merge_sort Z.le samples) as Hs. set (l := merge_sort Z.le samples) in *.
  rewrite <-Hperm in F. apply Permutation_length in Hperm. rewrite <-Hperm in Hn.
  destruct (accumulate_from l 0 F) as [total Htotal]; [lia|]. unfold accumulate. rewrite Htotal. cbn [mbind outcome_bind].
  destruct (percentile_ranked 50 l) as (? & p50 & -> & _); [by left|done|done|]. cbn [mbind outcome_bind].
  destruct (percentile_ranked 90 l) as (? & p90 & -> & _); [by right; left|done|done|]. cbn [mbind outcome_bind].
  destruct (percentile_ranked 99 l) as (? & p99 & -> & _); [by right; right|done|done|]. by eexists.
Qed.

(** What is counted over the results. *)
Definition successes (rs : list Result) : Z := Z.of_nat (length (filter (λ r, success r = true) rs)).

Lemma count_result_true r s :
  success r = true → 0 ≤ successful s < two64 - 1 →
  count_result s r = mkStatistics (successful s + 1) (Z.max (maximum_duration_us s) (duration_us r)) (first_error s)
                       (pooled_samples s ++ latency_samples_us r).
Proof. intros Hr Hs. unfold count_result. rewrite Hr. f_equal. wrap_lia. Qed.

Lemma count_result_false r s :
  success r = false → successful (count_result s r) = successful s ∧ pooled_samples (count_result s r) = pooled_samples s.
Proof. intros Hr. unfold count_result. rewrite Hr. by case_decide. Qed.

Lemma statistics_count rs s :
  0 ≤ successful s → successful s + Z.of_nat (length rs) < two64 →
  successful (foldl count_result s rs) = successful s + successes rs.
Proof.
  revert s. induction rs as [|r rs IH]; intros s H0 Hn; cbn [foldl length] in *; [unfold successes; cbn; lia|].
  unfold successes in *. destruct (success r) eqn:Hr.
  - rewrite filter_cons_True by done. rewrite count_result_true by (done || lia). rewrite IH; cbn [successful length]; lia.
  - rewrite filter_cons_False by congruence. destruct (count_result_false r s Hr) as [Hc _]. rewrite IH, Hc; lia.
Qed.

Lemma statistics_samples (bound : Z) rs s :
  0 ≤ bound →
  Forall (λ r, success r = true → Forall short (latency_samples_us r) ∧ Z.of_nat (length (latency_samples_us r)) ≤ bound) rs →
  Forall short (pooled_samples s) →
  let s' := foldl count_result s rs in
  Forall short (pooled_samples s')
  ∧ Z.of_nat (length (pooled_samples s')) ≤ Z.of_nat (length (pooled_samples s)) + bound * Z.of_nat (length rs).
Proof.
  intros Hb F. revert s. induction F as [|r rs Hr F IH]; intros s Hs; cbn [foldl length]; [split; [done|lia]|].
  destruct (success r) eqn:Hsr.
  - destruct (Hr eq_refl) as [Hshort Hlen].
    assert (Hp : pooled_samples (count_result s r) = pooled_samples s ++ latency_samples_us r) by (unfold count_result; by rewrite Hsr).
    destruct (IH (count_result s r)) as [Hf Hl]; [rewrite Hp; by apply Forall_app|]. split; [done|].
    rewrite Hp, length_app in Hl. lia.
  - destruct (count_result_false r s Hsr) as [_ Hp]. destruct (IH (count_result s r)) as [Hf Hl]; [by rewrite Hp|].
    split; [done|]. rewrite Hp in Hl. lia.
Qed.

Lemma successes_all rs : successes rs = Z.of_nat (length rs) ↔ Forall (λ r, success r = true) rs.
Proof.
  unfold successes. induction rs as [|r rs IH]; [done|]. rewrite Forall_cons. destruct (decide (success r = true)) as [Hs|Hs].
  - rewrite filter_cons_True by done. cbn [length]. rewrite <-IH. split; [intros; split; [done|lia]|intros [_ ?]; lia].
  - rewrite filter_cons_False by done. pose proof (length_filter (λ r, success r = true) rs). cbn [length]. split; [lia|by intros [? _]].
Qed.

(** ** The arguments *)

Section arguments.
#[local] Set Default Proof Using "Type*".
Context `{InetLaws}.

Record client_typed (c : ClientState) : Prop := {
  ty_connections : 0 ≤ c_connections c;
  ty_payload : 0 ≤ c_payload_bytes c;
  ty_requests : 0 ≤ c_requests c;
  ty_warmup : 0 ≤ c_warmup c;
  ty_request : 0 ≤ c_request_bytes c;
}.

Lemma client_parse_size_typed text name v : client_parse_size text name = Ok v → 0 ≤ v.
Proof.
  unfold client_parse_size. destruct (from_chars _ _ _) as [[error value] end_] eqn:E.
  intros Hv. apply (from_chars_whole _ _ _ _ _ _ _ _ _ E) in Hv as (Hr & _ & [= <-]). lia.
Qed.

Lemma client_options_typed argument o : option_for client_options argument = Some o → preserves client_typed o.
Proof.
  intros Ho%option_for_elem. unfold client_options in Ho.
  assert (Hother : ∀ A (read : string → outcome A) store,
            (∀ v c, client_typed c → client_typed (store v c)) → preserves client_typed (client_stores read store)).
  { intros A read store Hstore text g c. cbn. destruct (read text); try done. intros [= <-]. apply Hstore. }
  assert (Hsize : ∀ name store,
            (∀ v c, 0 ≤ v → client_typed c → client_typed (store v c)) → preserves client_typed (client_stores (positive_of name) store)).
  { intros name store Hstore text g c. cbn. destruct (positive_of name text) as [v| | |] eqn:E; try done.
    intros [= <-]. apply Hstore. by eapply client_parse_size_typed. }
  repeat match type of Ho with _ ∈ _ :: _ => apply elem_of_cons in Ho as [[= _ ->]|Ho] end;
    [..|by apply not_elem_of_nil in Ho].
  all: first [apply Hsize; intros ? [] ? []; split; cbn in *; by auto|apply Hother; intros ? [] []; split; cbn in *; by auto].
Qed.

Lemma client_options_defined argument f text : option_for client_options argument = Some (Valued f) → defined (f text).
Proof.
  intros Ho%option_for_elem. unfold client_options, client_stores in Ho.
  assert (Hsize : ∀ name, defined (positive_of name text)).
  { intros name. unfold positive_of, client_parse_size. destruct (from_chars _ _ _) as [[error v] end_].
    by apply defined_bind; [apply defined_throw_if|]. }
  repeat match type of Ho with _ ∈ _ :: _ => apply elem_of_cons in Ho as [[= _ ->]|Ho] end;
    [..|by apply not_elem_of_nil in Ho]; apply defined_fmap; try apply Hsize; try apply parse_defined.
  - unfold parse_client_mode. by repeat case_decide.
  - unfold parse_seed. destruct (from_chars _ _ _) as [[error v] end_]. by apply defined_bind; [apply defined_throw_if|].
Qed.

Lemma client_command_line_defined arguments : defined (client_command_line arguments).
Proof.
  unfold client_command_line. apply defined_bind; [apply parse_defined|]. intros e _.
  apply defined_bind; [apply parse_arguments_defined; intros; by eapply client_options_defined|].
  intros [c|] _; [|done]. apply defined_bind; [|done]. unfold check_client.
  apply defined_bind; [apply is_loopback_defined|]. intros b _.
  by repeat (apply defined_bind; [apply defined_throw_if|]; intros ? _).
Qed.

(** What the program runs with. *)
Record accepted (c : ClientState) : Prop := {
  ac_loopback : loopback_address (c_endpoint c);
  ac_connections : 0 ≤ c_connections c ≤ 1024;
  ac_requests : 0 ≤ c_requests c ≤ 100000;
  ac_warmup : 0 ≤ c_warmup c ≤ 1000;
  ac_request : 0 ≤ c_request_bytes c ≤ 1048576;
  ac_samples : c_connections c * c_requests c ≤ 1000000;
}.

Lemma client_command_line_accepted arguments c : client_command_line arguments = Ok (Some c) → accepted c.
Proof.
  unfold client_command_line. intros (e & _ & Hp)%bind_Ok. apply bind_Ok in Hp as ([c'|] & Hp & Hc); [|done].
  apply bind_Ok in Hc as (u & Hcheck & [= ->]).
  assert (T : client_typed c).
  { apply (parse_arguments_preserves client_options client_typed arguments (initial_client e) c); [|split; cbn; lia|exact Hp]. intros argument o _. apply client_options_typed. }
  unfold check_client in Hcheck. apply bind_Ok in Hcheck as (b & Hb & Hcheck).
  rewrite !throw_if_Ok, !orb_false_iff, !Z.ltb_ge, negb_false_iff in Hcheck.
  destruct Hcheck as (-> & [Hconn Hpay] & [[[Hreq Hwarm] Hrb] Hsamples] & _), T as [? ? ? ? ?].
  assert (c_connections c * c_requests c < two64) by nia.
  split; try lia; [by apply is_loopback_true|]. unfold u64_mul in Hsamples. rewrite wrap64_small in Hsamples by nia. lia.
Qed.
End arguments.

(** C30: the percentiles of the summary are exact nearest-rank percentiles,
    although the rank is computed with doubles: for up to a million samples, the
    50th, 90th and 99th percentile of a sorted vector is one of its samples, at
    least p percent of the samples are at most as large, and fewer than p
    percent are smaller. *)
Theorem percentile_nearest_rank p (l : list Z) :
  reported p → Sorted Z.le l → 1 ≤ Z.of_nat (length l) ≤ 1000000 →
  ∃ v, percentile l (double_of_u64 p) = Ok v ∧ v ∈ l
    ∧ p * Z.of_nat (length l) ≤ 100 * at_most v l
    ∧ 100 * below v l < p * Z.of_nat (length l).
Proof.
  intros Hp Hs Hn. destruct (percentile_ranked p l Hp Hs Hn) as (i & v & Hval & Hv & Hr).
  exists v. pose proof (sorted_rank l i v Hs Hv). split_and!; [done|by eapply list_elem_of_lookup_2|lia|lia].
Qed.

Lemma percentile_nearest_rank_witness :
  let l := [10; 20; 20; 30; 50; 60; 70; 80; 90; 100] in
  percentile l (double_of_u64 90) = Ok 90 ∧ at_most 90 l = 9
  ∧ ∃ v, percentile l (double_of_u64 90) = Ok v ∧ 90 * 10 ≤ 100 * at_most v l ∧ 100 * below v l < 90 * 10.
Proof.
  intros l. split; [by vm_compute|]. split; [reflexivity|].
  assert (Hs : Sorted Z.le l) by (repeat constructor; discriminate).
  destruct (percentile_nearest_rank 90 l (or_intror (or_introl eq_refl)) Hs ltac:(cbn; lia)) as (v & Hv & _ & Hle & Hlt).
  exists v. split_and!; [exact Hv|exact Hle|exact Hlt].
Defined.

(** ** The program *)

(** The monotonic clock moves by less than 2^52 ns, 52 days, during a run. *)
Class ClockSpan (K : Type) `{ClientKernel K} : Prop :=
  clock_span (t1 t2 : Z) : clock_reading (K := K) t1 → clock_reading (K := K) t2 → Z.abs (t2 - t1) < 4503599627370496.

Section program.
#[local] Set Default Proof Using "Type*".
Context {K : Type} `{SocketKernelLaws K} `{!SteadyKernelLaws K} `{!ClientKernel K} `{!ClientKernelLaws K} `{!ClockSpan K}.
Context `{Libc} `{InetLaws} (kernels : nat → K) (schedules : nat → list Thread).

Lemma measured_short x : measured (K := K) x → short x.
Proof.
  intros (t1 & t2 & Ht1 & Ht2 & ->). pose proof (clock_span t1 t2 Ht1 Ht2) as Hs. unfold short, sample_microseconds.
  pose proof (Z.quot_abs (t2 - t1) 1000 ltac:(lia)) as Hq. rewrite <-Hq. change (Z.abs 1000) with 1000.
  rewrite Z.quot_div_nonneg by lia. apply Z.div_le_upper_bound; lia.
Qed.

(** What a worker stores. *)
Definition sampled (c : ClientState) (r : Result) : Prop :=
  c_mode c = RequestResponse → success r = true →
  Forall short (latency_samples_us r) ∧ Z.of_nat (length (latency_samples_us r)) ≤ c_requests c.

Lemma worker_ok c index :
  accepted c → succeeds (worker kernels schedules c index) (λ r, match r with Some r => sampled c r | None => True end).
Proof.
  intros [(address & Ha & _) _ Hr Hw Hb _]. unfold worker, sampled. destruct (c_mode c).
  - assert (Hok : runs (run_connection (c_endpoint c) (c_payload_bytes c) (u64_add (c_seed c) (Z.of_nat index)) (schedules index))
              (mkServerWorld (kernels index) []) (λ _ _, True)).
    { apply (run_connection_ok _ _ _ _ Ha _ _ (λ _ _, True)); [done|].
      intros fd start w Hwire _. eapply runs_mono; [by apply interleave_ok, bulk_start_inv|].
      intros b w' _. by case_bool_decide. }
    apply runs_inv in Hok as ([r|] & w & -> & _); done.
  - pose proof (run_request_response_ok _ _ _ _ (u64_add (c_seed c) (Z.of_nat index)) (kernels index) address Ha Hr Hw Hb) as Hok.
    apply runs_inv in Hok as (r & w & -> & _ & Hok). cbn. intros _ Hs. destruct (Hok Hs) as (_ & Hlen & Hm & _).
    split; [|lia]. eapply Forall_impl; [exact Hm|]. apply measured_short.
Qed.

Lemma run_workers_ok c indices :
  accepted c →
  succeeds (run_workers kernels schedules c indices) (λ rs, match rs with
    | Some rs => Forall (sampled c) rs ∧ Forall2 (λ index r, worker kernels schedules c index = Ok (Some r)) indices rs
    | None => True
    end).
Proof.
  intros A. induction indices as [|index indices IH]; cbn [run_workers]; [done|].
  pose proof (worker_ok c index A) as Hw. destruct (worker kernels schedules c index) as [r| | |] eqn:E; try done.
  cbn [mbind outcome_bind]. cbn in Hw. destruct (run_workers kernels schedules c indices) as [rs| | |]; try done. cbn in *.
  destruct r as [r|]; [|done]. destruct rs as [rs|]; [|done]. destruct IH as [Hs Hf]. by split; constructor.
Qed.

Lemma report_ok c uname rs :
  accepted c → Forall (sampled c) rs → Z.of_nat (length rs) = c_connections c →
  ∃ line, report c uname rs
    = Ok (if bool_decide (Forall (λ r, success r = true) rs) then EXIT_SUCCESS else EXIT_FAILURE, line).
Proof.
  intros [_ Hconn Hreq _ _ Hsamples] Hs Hlen. unfold report, statistics. set (zero := mkStatistics 0 0 "" []).
  pose proof (statistics_count rs zero ltac:(cbn; lia) ltac:(cbn; lia)) as Hcount. cbn [successful zero] in Hcount.
  assert (Hstatus : (successful (foldl count_result zero rs) =? c_connections c) = bool_decide (Forall (λ r, success r = true) rs)).
  { apply Bool.eq_true_iff_eq. rewrite Z.eqb_eq, bool_decide_eq_true, <-successes_all. lia. }
  assert (Hsummary : ∃ line, summary c uname (foldl count_result zero rs) = Ok line).
  2: { destruct Hsummary as [line ->]. cbn [mbind outcome_bind]. rewrite Hstatus. by eexists. }
  unfold summary. destruct (bool_decide_reflect (c_mode c = RequestResponse)) as [Hm|]; cbn [andb]; [|by eexists].
  destruct (bool_decide_reflect (pooled_samples (foldl count_result zero rs) ≠ [])) as [Hne|]; [|by eexists].
  destruct (statistics_samples (c_requests c) rs zero) as [Hshort Hl]; [lia| |constructor|].
  { eapply Forall_impl; [exact Hs|]. intros r Hr. by apply Hr. }
  destruct (latency_json_defined _ Hshort) as [text ->]; [|by eexists]. cbn [pooled_samples zero length] in Hl.
  split; [|nia]. destruct (pooled_samples _); [done|cbn; lia].
Qed.

End program.

(** ** Example: one connection with one warm-up and one recorded exchange *)

#[local] Existing Instance example_inet.
#[local] Existing Instance example_inet_laws.
#[local] Existing Instance client_libc.
#[local] Existing Instance script_client.
#[local] Existing Instance script_steady_laws.
#[local] Existing Instance script_client_laws.

Lemma script_clock_span : ClockSpan Script.
Proof. intros t1 t2 (k1 & k1' & [= <- _]) (k2 & k2' & [= <- _]). lia. Qed.
#[local] Existing Instance script_clock_span.

Definition example_arguments : list string :=
  ["--mode"; "request-response"; "--requests"; "1"; "--warmup"; "1"; "--request-bytes"; "2"]%string.

