(* ===== verification/HelpSpec.v ===== *)
(** * The help texts say what the programs do

    The options a help text names, whether it shows a value after them, the
    choices of a mode and the defaults it states are read off the text, and
    compared with what the argument loops accept. *)

From Stdlib Require Import ZArith Lia Ascii String.
From stdpp Require Import base numbers list option strings.
From S2P Require Import Prelude Text CommandLine Endpoint ProxyConfig ProxyCli.
From S2P Require Import TestServer TestServerMain.
From S2P Require Import TestClient TestClientMain.

Local Open Scope string_scope.

(** ** Reading a help text *)

Definition option_char (c : ascii) : bool :=
  let n := nat_of_ascii c in ((97 <=? n) && (n <=? 122) || (n =? 45))%nat.
Definition newline : ascii := "010"%char.
Definition blank (c : ascii) : bool := bool_decide (c = " "%char ∨ c = newline).

(** A value is shown after the option, one space apart. *)
Definition value_shown (c : ascii) (rest : string) : bool :=
  bool_decide (c = " "%char) && match rest with String d _ => negb (blank d) | EmptyString => false end.

(** The words that start with two dashes, each with whether a value is shown;
    [word] is what was read of the current one. *)
Fixpoint option_words (word text : string) : list (string * bool) :=
  match text with
  | EmptyString => []
  | String c rest =>
      if option_char c then option_words (word +:+ String c "") rest
      else (if String.prefix "--" word then [(word, value_shown c rest)] else []) ++ option_words "" rest
  end.

(** What the text says of an argument: nothing, or whether it takes a value. *)
Definition documented (help argument : string) : option bool :=
  let mentions := filter (λ p, p.1 = argument) (option_words "" help) in
  match mentions with [] => None | _ => Some (existsb snd mentions) end.

Fixpoint up_to (stop : ascii → bool) (text : string) : string :=
  match text with
  | EmptyString => EmptyString
  | String c rest => if stop c then EmptyString else String c (up_to stop rest)
  end.

(** The values stated as defaults, each with the option it is stated for. *)
Fixpoint documented_defaults (option word text : string) : list (string * string) :=
  match text with
  | EmptyString => []
  | String c rest =>
      if option_char c then documented_defaults option (word +:+ String c "") rest
      else
        let option := if String.prefix "--" word then word else option in
        (if String.prefix "(default " text
         then [(option, up_to (λ c, blank c || bool_decide (c = ")"%char)) (substr_from 9 text))] else [])
        ++ documented_defaults option "" rest
  end.

(** What follows the first occurrence of [mark], and the pieces of a text
    between separators. *)
Fixpoint after (mark text : string) : string :=
  if String.prefix mark text then substr_from (String.length mark) text
  else match text with EmptyString => EmptyString | String _ rest => after mark rest end.
Fixpoint pieces (separator : ascii) (piece text : string) : list string :=
  match text with
  | EmptyString => [piece]
  | String c rest =>
      if decide (c = separator) then piece :: pieces separator "" rest
      else pieces separator (piece +:+ String c "") rest
  end.
Definition documented_modes (help : string) : list string :=
  pieces "|" "" (up_to (λ c, bool_decide (c = "]"%char)) (after "[--mode " help)).

(** ** Comparing it with the options *)

Section options.
Context {S : Type}.
Implicit Types (table : list (string * CliOption S)).

Definition takes_value (o : CliOption S) : bool := match o with Valued _ => true | Switch _ => false end.

(** An argument the text does not mention is refused; one it shows a value after
    is refused without one; the others stand by themselves. *)
Definition explains (help : string) table : Prop := ∀ argument st, argument ≠ "--help" →
  match documented help argument with
  | None => ∀ rest, parse_arguments table (argument :: rest) st
                    = Throw (InvalidArgument ("unknown argument: " +:+ argument))
  | Some true => parse_arguments table [argument] st
                 = Throw (InvalidArgument (argument +:+ " requires a value"))
                 ∧ ∃ f, ∀ value rest, parse_arguments table (argument :: value :: rest) st
                                      = (g ← f value; parse_arguments table rest (g st))
  | Some false => ∃ st', ∀ rest, parse_arguments table (argument :: rest) st = parse_arguments table rest st'
  end.

Definition matches (help : string) table : bool :=
  forallb (λ p, bool_decide (documented help p.1 = Some (takes_value p.2))) table
  && forallb (λ p, bool_decide (p.1 = "--help") || existsb (λ q, bool_decide (q.1 = p.1)) table)
       (option_words "" help).

Lemma documented_Some help argument b :
  documented help argument = Some b → ∃ shown, (argument, shown) ∈ option_words "" help.
Proof.
  unfold documented. destruct (filter _ _) as [|[name shown] l] eqn:E; [done|]. intros _.
  assert (Hin : (name, shown) ∈ filter (λ p, p.1 = argument) (option_words "" help)) by (rewrite E; left).
  apply list_elem_of_filter in Hin as [<- Hin]. by exists shown.
Qed.

Lemma option_for_None table argument : option_for table argument = None → ∀ o, (argument, o) ∉ table.
Proof.
  induction table as [|[name x] table IH]; cbn; intros Ho o Hin; [by apply not_elem_of_nil in Hin|].
  case_decide as Hd; [done|]. apply elem_of_cons in Hin as [[= ? ?]|Hin]; [done|by eapply IH].
Qed.

Lemma matches_explains help table : matches help table = true → explains help table.
Proof.
  intros [Hin Hout]%andb_prop argument st Hhelp. rewrite forallb_forall in Hin, Hout.
  destruct (option_for table argument) as [o|] eqn:Ho.
  - pose proof (option_for_elem _ _ _ Ho) as Hmem. apply list_elem_of_In, Hin, bool_decide_eq_true_1 in Hmem.
    cbn in Hmem. rewrite Hmem. destruct o as [f|f]; cbn [takes_value].
    + split; [cbn [parse_arguments]; by rewrite decide_False, Ho by done|].
      exists f. intros value rest. cbn [parse_arguments]. by rewrite decide_False, Ho by done.
    + exists (f st). intros rest. cbn [parse_arguments]. by rewrite decide_False, Ho by done.
  - destruct (documented help argument) as [b|] eqn:Hd.
    + apply documented_Some in Hd as [shown Hd]. apply list_elem_of_In, Hout in Hd. cbn [fst] in Hd.
      rewrite (bool_decide_eq_false_2 (argument = "--help")) in Hd by done. apply existsb_exists in Hd as ([name o] & Hm & Heq).
      apply bool_decide_eq_true_1 in Heq. cbn [fst] in Heq. subst name. apply list_elem_of_In in Hm. by apply option_for_None with (o := o) in Ho.
    + intros rest. cbn [parse_arguments]. by rewrite decide_False, Ho by done.
Qed.
End options.

(** ** The three programs *)

(** A mode is accepted exactly when the help lists it. *)
Definition lists_modes {A} (help : string) (read : string → outcome A) : Prop :=
  ∀ text, (∃ v, read text = Ok v) ↔ text ∈ documented_modes help.

#[local] Ltac choices :=
  rewrite !elem_of_cons, elem_of_nil; split;
  [intros [v Hv]; revert Hv; repeat case_decide; try done; tauto
  |intros Hin; destruct_or?; try done; subst; eexists; reflexivity].

Lemma server_modes : lists_modes TestServerMain.print_help parse_mode.
Proof.
  intros text.
  change (documented_modes _) with ["echo"; "slow-reader"; "slow-writer"; "read-until-eof"; "send-then-half-close"].
  unfold parse_mode. choices.
Qed.

Lemma client_modes : lists_modes TestClientMain.print_help parse_client_mode.
Proof.
  intros text. change (documented_modes _) with ["bulk"; "request-response"].
  unfold parse_client_mode. choices.
Qed.

(** C22: the help texts are true: each of the three programs accepts, besides
    --help, exactly the options its help text names, requires a value exactly
    after those the text shows with one, and accepts exactly the modes it lists;
    and an option given with the default the proxy's help states for it changes
    nothing. *)
Theorem help_texts_true `{Inet} :
  inet_pton "127.0.0.1" = Some 2130706433%Z →
  explains ProxyCli.print_help options
  ∧ explains TestServerMain.print_help server_options
  ∧ explains TestClientMain.print_help client_options
  ∧ lists_modes TestServerMain.print_help parse_mode
  ∧ lists_modes TestClientMain.print_help parse_client_mode
  ∧ ∀ name value, (name, value) ∈ documented_defaults "" "" ProxyCli.print_help →
      command_line [name; value] = command_line [].
Proof.
  intros Hlo. split_and!; [by apply matches_explains; vm_compute..|exact server_modes|exact client_modes|].
  intros name value Hin.
  assert (Hall : Forall (λ p, command_line [p.1; p.2] = command_line []) (documented_defaults "" "" ProxyCli.print_help)).
  { let l := eval vm_compute in (documented_defaults "" "" ProxyCli.print_help) in change (documented_defaults _ _ _) with l.
    destruct H as [pton]. vm_compute in Hlo. repeat constructor; vm_compute; try done; by rewrite Hlo. }
  rewrite Forall_forall in Hall. exact (Hall _ Hin).
Qed.

(** ** Examples *)

#[local] Existing Instance example_inet.

Lemma help_texts_true_witness :
  length (documented_defaults "" "" ProxyCli.print_help) = 11%nat
  ∧ command_line ["--listen"; "127.0.0.1:8080"] = command_line []
  ∧ command_line ["--low-water-bytes"; "32768"] = command_line []
  ∧ parse_arguments options ["--fault-latency"; "5"] initial_cli
    = Throw (InvalidArgument "unknown argument: --fault-latency").
Proof.
  destruct (@help_texts_true example_inet eq_refl) as (Hproxy & _ & _ & _ & _ & Hdefaults).
  split; [by vm_compute|]. split; [|split].
  - apply Hdefaults. by apply (bool_decide_unpack _); vm_compute.
  - apply Hdefaults. by apply (bool_decide_unpack _); vm_compute.
  - exact (Hproxy "--fault-latency" initial_cli ltac:(discriminate) ["5"]).
Defined.
